(* ===== verification/_CoqProject ===== *)
-Q . S2P
Prelude.v
Bytes.v
Text.v
Float64.v
FloatError.v
FloatText.v
RateLimit.v
Errors.v
Fs.v
External.v
Metrics.v
Config.v
Wal.v
Hash.v
Index.v
Segment.v
Blob.v
StoreMap.v
Recovery.v
Snapshots.v
Rebuild.v
Crash.v
Utils.v
Encode.v
Metadata.v
Placement.v
Threads.v
Invariants.v
Raft.v
RaftLocks.v
Cluster.v
Replication.v
RaftTask.v
Ops.v
Quota.v
QuotaLocks.v
Storage.v
AuditLog.v
Tracing.v
Http.v
StorageLocks.v
Router.v
Auth.v
KeyLocks.v
Access.v
Api.v
Grpc.v
Wiring.v
Encryption.v
Server.v
Boot.v
