(* ===== verification/Prelude.v ===== *)
(** * minikv: a verification development

    minikv ([src/]) is a distributed key-value store in Rust.  A _volume_ keeps
    the data: a write-ahead log, segment files, an index with snapshots and a
    Bloom filter, put together in [BlobStore].  A _coordinator_ keeps the
    metadata of keys and volumes in RocksDB, chooses the volumes of a key with
    rendezvous hashing, elects a leader with a Raft node and answers HTTP and
    gRPC requests.  Around them are API keys and tokens with their middleware,
    tenant quotas, a rate limiter, metrics, encryption at rest, pluggable
    storage backends, an audit log, request tracing, operations tooling, three
    binaries, configuration, errors and utilities.  This library models these parts as
    executable functions and proves what makes them correct, and, where the
    code does not do what it means to, what it does instead.

    ** How the code is modelled

    - A fallible function returns [result] ([let?] is the [?] operator); a
      method on [&mut self] that can fail is a [proc], a function from a state
      to the next state and a [result], where the effects made before an error
      stay; code that can panic returns [may_panic].
    - A machine integer is a [Z] with its wrap-around written out ([add64],
      [as_u32], ...): the release build, in which overflow wraps.
    - Bytes are lists of [Byte.byte]; a Rust string is a [string] whose bytes
      are UTF-8 where the code checks it ([Text]).
    - A [HashMap] is a [gmap]; where the code iterates over one, the order is
      any permutation ([External], class [HashIter]).
    - A [f64] is an IEEE double ([Float64], on the Standard Library's
      [SpecFloat]), with its rounding; lemmas give the exact value where the code
      computes exactly, and a bound on the error where it does not.
    - The clock, random numbers and the answers of remote nodes are arguments;
      an endless task is the sequence of its turns.
    - What runs concurrently is a sequence of atomic steps in any order; a lock
      that a panic poisons is a flag of the state.  The methods of a Raft node,
      of the quota manager, of the key store and of the in-memory store are also programs
      over the locks ([Threads]: take a guard, read or write the cell behind it,
      drop it), run by any number of threads under any schedule, with locks that
      let readers pass waiting writers and with locks that do not.  An invariant of
      the shared data is proved program by program, each relying only on the
      invariant and on what it has locked ([Invariants]).
    - A cluster is a transition system: the nodes, the elections that run, and
      one step per request, answer, loss or end of an election ([Cluster]), or of
      a replication ([Replication]), where requests also arrive late.  The steps
      are given for any service that answers the requests: the handlers of the
      [RaftNode], or the gRPC service of the coordinator, which does not use them
      ([Wiring]).
    - Files are those of [Fs]: each has the content the operating system shows
      and the content a power failure leaves, and a [BufWriter] holds back what
      was not flushed.  Directories survive a power failure; of a file the
      durable content is left and any part of what was appended to it since.
    - The crates that are not part of the repository (crc32fast, blake3,
      lz4, bloomfilter, hex, rocksdb, bincode) are the classes of
      [External], and those that one component uses (argon2, jsonwebtoken,
      base64, aes_gcm, hkdf, percent_encoding, sled, serde_json, config, the
      extractors of axum) are classes of its file: the operations the code calls, with the documented laws that are
      used.  Concrete instances show that the laws can hold; the witnesses
      of the theorems run on them.

    ** The files

    - [Prelude]: results, procedures, panics, machine integers, stable sorting
      ([slice::sort_by]) and lemmas on lists; the hint database [minikv].
    - [Bytes], [Text]: little-endian integers, UTF-8, decimal and hexadecimal
      text, parsing, the order of strings.
    - [Float64], [FloatError], [FloatText]: doubles, durations in seconds, bounds
      on rounding errors, and how Rust prints a double ([{}] and [{:.2}]).
    - [Errors] ([src/common/error.rs]); [Config] ([src/common/config.rs]):
      records, defaults, [validate], the runtime configuration and its file.
    - [RateLimit] ([src/common/ratelimit.rs]): the token bucket, the limiter,
      its middleware.
    - [Metrics] ([src/common/metrics.rs]): counters, gauges, histograms, the
      registry and [to_prometheus].
    - [Fs], [External]: files and crates, as above.
    - [Wal] ([src/volume/wal.rs]): [Wal::open], [append_put], [append_delete],
      [sync], [replay], [truncate].
    - [Hash] ([src/common/hash.rs]): [hrw_hash], [select_replicas] and the ring
      of shards.
    - [Index] ([src/volume/index.rs]): the map of locations, expiration and the
      two snapshot formats.
    - [Segment], [Blob] ([src/volume/blob.rs], [compaction.rs], [server.rs]):
      the records of segment files, the operations of [BlobStore], the volume
      server and [bin/volume.rs].
    - [StoreMap]: the store as a plain map with expiration times.
    - [Recovery]: theorems on [BlobStore::open]; [Snapshots]: on what follows a
      snapshot; [Rebuild]: on rebuilding the index of several segments; [Crash]:
      on a power failure of the whole store, between operations and inside a
      put.
    - [Utils], [Encode] ([src/common/utils.rs]): key validation, durations,
      retries, upload identifiers, node states; percent encoding of keys and
      [format_bytes].
    - [Metadata] ([src/coordinator/metadata.rs]), [Placement]
      ([src/coordinator/placement.rs]).
    - [Raft] ([src/coordinator/raft_node.rs], messages of
      [src/common/raft.rs]); [RaftLocks]: the same methods lock by lock;
      [Cluster]: the nodes of a cluster and their elections; [Replication]: a
      leader and its followers, and a change of leader, both for nodes that
      answer with their handlers; [Wiring]: the same for nodes behind the gRPC
      service; [RaftTask]: the
      turns of [start_raft_tasks] and of [run_election_timer].
    - [Threads]: programs over locks, threads and schedules, when they all
      finish, and when they act as if run one after the other; [Invariants]: the
      proof rule for data that threads share.
    - [Ops] ([src/ops], the admin endpoints that call it, [src/bin/cli.rs]).
    - [Quota] ([src/common/quota.rs]); [QuotaLocks]: the same lock by lock.
    - [Storage] ([src/common/storage.rs]): the trait [KVStore] as a class, with
      the laws of a map that the handlers are verified against; the in-memory,
      RocksDB and Sled backends; [StorageLocks]: the in-memory store lock by
      lock, and transactions that run at the same time.
    - [AuditLog] ([src/common/audit.rs]): audit entries, the logger and its
      file, change events.
    - [Tracing] ([src/common/tracing_middleware.rs], and the watch streams of
      [src/coordinator/http.rs]).
    - [Http], [Router] ([src/coordinator/http.rs]): the handlers of data, status
      and metrics, and [create_router].
    - [Auth] ([src/common/auth.rs]): the store of API keys, tokens;
      [KeyLocks]: the same lock by lock.
    - [Access] ([src/common/auth_middleware.rs], and the API key endpoints of
      [src/coordinator/http.rs]).
    - [Api]: the endpoints together: a request is routed, its parts extracted
      and its handler run on the state that all share.  (Matching a path and
      extracting the arguments is what axum does with the routes of
      [create_router]; it is modelled as axum documents it.)
    - [Grpc] ([src/coordinator/grpc.rs], [raft_rpc_client.rs],
      [volume_client.rs], [src/volume/grpc.rs], [src/volume/http.rs]): the
      internal services and their clients.
    - [Encryption] ([src/common/encryption.rs]).
    - [Server] ([src/coordinator/server.rs], [src/bin/coord.rs]): how a
      coordinator is configured and put together; [Boot]: [Config::load], the
      listeners, and [main] from its start to its end.

    ** What the theorems show

    - The log: what is appended is replayed; after a crash of a new log a prefix
      survives, everything under the policy [Always]; numbering resumes on reopening and
      restarts on truncation; only intact entries are accepted.  A torn entry
      hides what is appended behind it.
    - The store: for any sequence of operations whose values are stored
      uncompressed it answers exactly as a map with expiration times does, and
      refuses a put only at the limit of segments, once per segment (values that
      lz4 compresses go through the crate, of which nothing is assumed);
      snapshots of the index load back; reopening gives the same
      map from a snapshot, up to deletions in the log, and the last values
      written without one, with deletions forgotten; with several segments the
      order in which they are listed decides; compaction never succeeds and does
      no harm.  After a power failure of a store with one segment, without
      compression and snapshots, a prefix of the puts survives, all under
      the policy [Always], and the store opens unless the data end inside a
      record; when the power fails inside a put this can happen under [Always]
      too, and the store then never opens again.  What is put after a snapshot is
      forgotten on reopening.
    - Placement: the replicas chosen are the heaviest healthy nodes, losing a
      node moves no more than it must, every key has an assigned shard.
    - Metadata and HTTP: the metadata store and batches act as maps, ranges and
      searches are exact, transactions are sequential but not atomic, and at
      the same time as others each has its keys to itself only if no other names
      them; S3
      objects are read back; any sequence of requests to the whole API acts on a
      map of objects and a map of records, [GET] and [HEAD] change nothing, the
      key endpoints store nothing, and anybody can make a key with the role
      [Admin]; the router reaches every handler, and the key handlers for all
      but six keys; a watcher sees every event until it falls
      behind.  The persistent backends are maps.
    - gRPC: batches and ranges agree with those of HTTP; the vote handler elects
      every candidate, so that all members of a cluster can lead one term, and
      the append handler acknowledges what no follower stores.
    - Access: a key lives until it expires, is revoked or deleted, and never
      comes back, from the moment on when revoking it returns, whatever other
      threads do; only valid credentials pass the middleware, only
      administrators pass to what is reserved for them; tokens outlive their
      key.
    - Encryption: what one process encrypts, another with the same master key
      decrypts.
    - Raft: one vote per term while elections are not lost, one leader per term
      in a cluster of odd size, replication on every branch, monotone commit
      index; and the executions in which these fail.  In a cluster of odd size
      whose nodes answer with their handlers, elections of one term have one
      winner, as long as no loser has seen a later term; without that, three
      nodes elect two leaders.  While one node leads such nodes, the followers
      keep prefixes of its log and what was acknowledged stays with at least half
      of the nodes, but a follower that misses
      an entry never recovers, and a change of leader can replace what was
      committed.  The handlers are atomic and calls return, except for
      [replicate], which can block itself and [handle_append_entries] for ever,
      and for callers that keep the guard of [get_log].
      A coordinator that is started always elects itself, whatever its peers,
      never uses TLS, and panics without a file that gives its [node_id].
    - Quotas: the rate limit holds in every window; writers that check before
      they record exceed the storage limit by at most one write for each writer
      but one, while the sums fit 64 bits; calls return, unless readers wait behind
      writers and metrics are rendered.
    - Rate limiting: token counts stay between zero and the burst; bursts are
      exact, over any time a client gets no more than the burst and the rate
      times the time, up to rounding, no client is locked out, clean-ups are not
      noticed; the middleware on every branch; a rate of zero poisons the
      limiter.
    - Metrics: observations that run at the same time are all counted, and what
      is scraped counts what happened.
    - Utilities: retries, durations, unique identifiers, key encoding, sizes.
    - Operations: streaming a blob ends; what the commands of the client touch.

    ** Fuel

    Loops that read a file ([max_sequence_loop], [replay_loop], [load_entries])
    take the length of the file as fuel, which is enough since every turn
    consumes bytes.  [scan_loop] and the operations built on it take the fuel
    as an argument and return [None] when it is not enough: a length field of
    2^63 or more can make the code seek back and loop for ever.  The theorems
    on [open_store] are about results, with fuel above the number of records.
    [stream_loop] takes fuel too; one turn more than the file has bytes is
    enough.

    ** Not modelled

    Failures of the medium (reads and writes of local files succeed); sockets,
    TLS and the servers of tokio, axum and tonic, which answer as parameters; the
    JSON text of bodies ([serde_json]: a body is the record it is made from) and
    generated protobuf code; argument parsing (clap); spans and log lines;
    re-exports and the tests of the repository. *)

From Stdlib Require Import ZArith Lia Sorted.
From stdpp Require Import base option list gmap strings fin_maps.

Declare Scope minikv_scope.
Delimit Scope minikv_scope with minikv.

(** ** Results

    Rust's [Result<A, E>].  [let? x := c in k] is the [?] operator: it returns
    the error of [c] from the enclosing function. *)
Inductive result (E A : Type) : Type :=
  | Ok (a : A)
  | Err (e : E).
Arguments Ok {E A} a.
Arguments Err {E A} e.

Definition rbind {E A B} (c : result E A) (k : A → result E B) : result E B :=
  match c with Ok a => k a | Err e => Err e end.

Definition map_err {E F A} (f : E → F) (c : result E A) : result F A :=
  match c with Ok a => Ok a | Err e => Err (f e) end.

Definition ok_or {E A} (e : E) (o : option A) : result E A :=
  match o with Some a => Ok a | None => Err e end.

Definition unwrap_or {A} (d : A) (o : option A) : A :=
  match o with Some a => a | None => d end.

Definition is_ok {E A} (c : result E A) : bool :=
  match c with Ok _ => true | Err _ => false end.

(** ** Stateful, fallible code

    A Rust method on [&mut self] that returns a [Result]: it produces the next
    state also when it fails, because effects made before an error stay. *)
Definition proc (S E A : Type) : Type := S → S * result E A.

Definition pret {S E A} (a : A) : proc S E A := λ s, (s, Ok a).
Definition pfail {S E A} (e : E) : proc S E A := λ s, (s, Err e).
Definition pbind {S E A B} (c : proc S E A) (k : A → proc S E B) : proc S E B :=
  λ s, let '(s', r) := c s in
       match r with Ok a => k a s' | Err e => (s', Err e) end.
Definition pget {S E} : proc S E S := λ s, (s, Ok s).
Definition pput {S E} (s : S) : proc S E unit := λ _, (s, Ok tt).
Definition pmodify {S E} (f : S → S) : proc S E unit := λ s, (f s, Ok tt).
Definition plift {S E A} (r : result E A) : proc S E A := λ s, (s, r).

Notation "'let?' x := c 'in' k" := (rbind c (λ x, k))
  (at level 10, x binder, c at level 100, k at level 200) : minikv_scope.
Notation "'let!' x := c 'in' k" := (pbind c (λ x, k))
  (at level 10, x binder, c at level 100, k at level 200) : minikv_scope.
Open Scope minikv_scope.
Open Scope Z_scope.

(** ** Panics

    Code that may panic (a division by zero, a slice out of range). *)
Inductive may_panic (A : Type) : Type :=
  | Returns (a : A)
  | Panics.
Arguments Returns {A} a.
Arguments Panics {A}.

Definition mp_bind {A B} (c : may_panic A) (k : A → may_panic B) : may_panic B :=
  match c with Returns a => k a | Panics => Panics end.

(** ** Machine integers

    Unsigned integers are [Z] with their width written out.  The crate is
    built with Cargo's default release profile, so [+] and [*] on machine
    integers wrap. *)
Definition U8_MOD : Z := 2 ^ 8.
Definition U32_MOD : Z := 2 ^ 32.
Definition U64_MOD : Z := 2 ^ 64.
Definition U64_MAX : Z := 2 ^ 64 - 1.
(** The length of a Rust allocation is at most [isize::MAX]. *)
Definition ISIZE_MAX : Z := 2 ^ 63 - 1.

Definition is_u32 (x : Z) : bool := (0 <=? x) && (x <? U32_MOD).
Definition is_u64 (x : Z) : bool := (0 <=? x) && (x <? U64_MOD).

Definition wrap64 (x : Z) : Z := x mod U64_MOD.
Definition add64 (x y : Z) : Z := wrap64 (x + y).
Definition mul64 (x y : Z) : Z := wrap64 (x * y).
Definition as_u32 (x : Z) : Z := x mod U32_MOD.
Definition saturating_add64 (x y : Z) : Z := Z.min (x + y) U64_MAX.
Definition saturating_sub64 (x y : Z) : Z := Z.max (x - y) 0.
(** [x as i64] and [x as i32] on an unsigned [x]. *)
Definition as_i64 (x : Z) : Z :=
  let y := x mod 2 ^ 64 in if y <? 2 ^ 63 then y else y - 2 ^ 64.
Definition as_i32 (x : Z) : Z :=
  let y := x mod 2 ^ 32 in if y <? 2 ^ 31 then y else y - 2 ^ 32.

(** [v.len()] *)
Definition zlen {A} (l : list A) : Z := Z.of_nat (length l).

Create HintDb minikv.
Create Rewrite HintDb minikv_len.

Lemma is_u64_spec x : is_u64 x = true ↔ 0 ≤ x < 2 ^ 64.
Proof.
  unfold is_u64, U64_MOD. rewrite andb_true_iff, Z.leb_le, Z.ltb_lt. done.
Qed.

Lemma is_u32_spec x : is_u32 x = true ↔ 0 ≤ x < 2 ^ 32.
Proof.
  unfold is_u32, U32_MOD. rewrite andb_true_iff, Z.leb_le, Z.ltb_lt. done.
Qed.

Lemma wrap64_small x : 0 ≤ x < 2 ^ 64 → wrap64 x = x.
Proof. intros H. unfold wrap64, U64_MOD. by apply Z.mod_small. Qed.

Lemma wrap64_range x : 0 ≤ wrap64 x < 2 ^ 64.
Proof. unfold wrap64, U64_MOD. apply Z.mod_pos_bound. lia. Qed.

Lemma add64_small x y : 0 ≤ x + y < 2 ^ 64 → add64 x y = x + y.
Proof. apply wrap64_small. Qed.

Lemma zlen_nonneg {A} (l : list A) : 0 ≤ zlen l.
Proof. unfold zlen. lia. Qed.

Lemma zlen_app {A} (l k : list A) : zlen (l ++ k) = zlen l + zlen k.
Proof. unfold zlen. rewrite length_app. lia. Qed.

Lemma zlen_nil {A} : zlen (@nil A) = 0.
Proof. done. Qed.

Lemma zlen_cons {A} (x : A) l : zlen (x :: l) = 1 + zlen l.
Proof. unfold zlen. simpl. lia. Qed.

#[export] Instance zlen_perm {A} : Proper ((≡ₚ) ==> (=)) (@zlen A).
Proof. intros l k H. unfold zlen. by rewrite H. Qed.

(** ** Filtering lists *)
Lemma zlen_filter_le {A} (P Q : A → Prop) `{!∀ x, Decision (P x), !∀ x, Decision (Q x)} l :
  (∀ x, P x → Q x) → zlen (filter P l) ≤ zlen (filter Q l).
Proof.
  intros HPQ. induction l as [|x l IH]; [done|]. rewrite !filter_cons.
  repeat case_decide; rewrite ?zlen_cons; try lia. naive_solver.
Qed.

Lemma zlen_filter_filter {A} (P Q : A → Prop) `{!∀ x, Decision (P x), !∀ x, Decision (Q x)} l :
  zlen (filter P (filter Q l)) ≤ zlen (filter P l).
Proof.
  induction l as [|x l IH]; [done|]. rewrite !filter_cons.
  repeat case_decide; rewrite ?filter_cons; repeat case_decide; rewrite ?zlen_cons; lia || done.
Qed.

Lemma zlen_filter_map {A B} (f : A → B) (P : B → Prop) `{!∀ x, Decision (P x)} (l : list A) :
  zlen (filter P (map f l)) = zlen (filter (λ x, P (f x)) l).
Proof.
  induction l as [|x l IH]; [done|]. cbn [map]. rewrite !filter_cons.
  destruct (decide (P (f x))); by rewrite ?zlen_cons, IH.
Qed.

Lemma filter_keep {A} (P : A → Prop) `{!∀ x, Decision (P x)} l :
  Forall P l → filter P l = l.
Proof. induction 1 as [|x l Hx _ IH]; [done|]. rewrite filter_cons_True by done. by rewrite IH. Qed.

Lemma take_filter_split {A} (P : A → Prop) `{!∀ x, Decision (P x)} n (l : list A) :
  take n (filter P l) =
  filter P (take n l) ++ take (n - length (filter P (take n l))) (filter P (drop n l)).
Proof.
  rewrite <- (take_drop n l) at 1. rewrite filter_app, take_app, take_ge; [done|].
  pose proof (length_filter P (take n l)). rewrite length_take in *. lia.
Qed.

Lemma lookup_filter_decide {A} (P : string * A → Prop) `{!∀ x, Decision (P x)}
    (m : gmap string A) k :
  filter P m !! k =
  match m !! k with Some x => if decide (P (k, x)) then Some x else None | None => None end.
Proof.
  apply option_eq. intros x. rewrite map_lookup_filter_Some.
  destruct (m !! k) as [y|]; [case_decide|]; naive_solver.
Qed.

(** ** Proof steps for fallible code *)
Lemma rbind_Ok {E A B} (c : result E A) (k : A → result E B) b :
  rbind c k = Ok b → ∃ a, c = Ok a ∧ k a = Ok b.
Proof. destruct c as [a|e]; simpl; [eauto|done]. Qed.

Lemma ok_or_Ok {E A} (e : E) (o : option A) a : ok_or e o = Ok a ↔ o = Some a.
Proof. destruct o; simpl; split; congruence. Qed.

(** [bind_inv H]: open the first [let?] of a hypothesis [H : (let? ...) = Ok _]. *)
Ltac bind_inv H :=
  let a := fresh "a" in let E := fresh "E" in
  apply rbind_Ok in H as (a & E & H).

(** ** Stable sorting

    [slice::sort_by] is stable: equal elements keep their order.  [lt a b]
    says that the comparison puts [a] strictly before [b]. *)
Section stable_sort.
Context {A : Type} (lt : A → A → bool).

Fixpoint insert_by (x : A) (l : list A) : list A :=
  match l with
  | [] => [x]
  | y :: l => if lt y x then y :: insert_by x l else x :: y :: l
  end.
Definition sort_by (l : list A) : list A := fold_right insert_by [] l.

(** [a] may stand before [b] in the result. *)
Definition not_after (a b : A) : Prop := lt b a = false.

Hypothesis lt_asym : ∀ a b, lt a b = true → lt b a = false.
Hypothesis not_after_trans : ∀ a b c, not_after a b → not_after b c → not_after a c.

Lemma insert_by_perm x l : insert_by x l ≡ₚ x :: l.
Proof.
  induction l as [|y l IH]; simpl; [done|].
  destruct (lt y x); [|done]. rewrite IH. apply Permutation_swap.
Qed.

Lemma sort_by_perm l : sort_by l ≡ₚ l.
Proof. induction l as [|x l IH]; simpl; [done|]. by rewrite insert_by_perm, IH. Qed.

Lemma insert_by_sorted x l :
  StronglySorted not_after l → StronglySorted not_after (insert_by x l).
Proof.
  induction 1 as [|y l Hs IH Hy]; simpl; [by repeat constructor|].
  destruct (lt y x) eqn:E.
  - constructor; [done|]. rewrite Forall_forall in Hy |- *. intros z Hz.
    rewrite insert_by_perm in Hz. apply elem_of_cons in Hz as [->|Hz]; [|by apply Hy].
    by apply lt_asym.
  - constructor; [by constructor|]. constructor; [done|].
    eapply Forall_impl; [exact Hy|]. intros z Hz. by apply (not_after_trans x y z).
Qed.

Lemma sort_by_sorted l : StronglySorted not_after (sort_by l).
Proof. induction l as [|x l IH]; simpl; [constructor|]. by apply insert_by_sorted. Qed.

Lemma insert_by_front x l : Forall (not_after x) l → insert_by x l = x :: l.
Proof. destruct 1 as [|y l Hy _]; simpl; [done|]. by rewrite Hy. Qed.

(** Dropping elements before or after sorting is the same. *)
Lemma filter_insert_by (P : A → Prop) `{!∀ x, Decision (P x)} x l :
  StronglySorted not_after l →
  filter P (insert_by x l) = if decide (P x) then insert_by x (filter P l) else filter P l.
Proof.
  induction 1 as [|y l Hs IH Hy]; simpl; [done|].
  destruct (lt y x) eqn:E.
  - rewrite !filter_cons, IH. destruct (decide (P y)), (decide (P x)); simpl; by rewrite ?E.
  - rewrite filter_cons. destruct (decide (P x)); [|done].
    symmetry. apply insert_by_front. apply Forall_forall. intros z [_ Hz]%list_elem_of_filter.
    apply elem_of_cons in Hz as [->|Hz]; [done|].
    rewrite Forall_forall in Hy. by apply (not_after_trans x y z); [|apply Hy].
Qed.

Lemma filter_sort_by (P : A → Prop) `{!∀ x, Decision (P x)} l :
  filter P (sort_by l) = sort_by (filter P l).
Proof.
  induction l as [|x l IH]; [done|]. cbn [sort_by fold_right]. fold (sort_by l).
  rewrite filter_insert_by by apply sort_by_sorted. rewrite filter_cons, IH.
  by destruct (decide (P x)).
Qed.
End stable_sort.
