(* ===== verification/Bytes.v ===== *)
(** * Bytes and little-endian integers

    [u8] values are [Byte.byte], so a byte is in range by its type.  [to_le]
    and [from_le] are [uN::to_le_bytes] and [uN::from_le_bytes], which the
    write-ahead log, the index snapshot and the blob segments use for every
    integer field.  [take_exact] is [Read::read_exact] on what is left of a
    file: it fails when fewer bytes are left than were asked for. *)

From Stdlib Require Import ZArith Lia.
From Stdlib.Strings Require Import Byte.
From stdpp Require Import base option list strings countable.
From S2P Require Import Prelude.

Abbreviation bytes := (list byte).

(** ** Single bytes *)
Definition Z_of_byte (b : byte) : Z := Z.of_N (Byte.to_N b).

Definition byte_of_Z (x : Z) : byte :=
  match Byte.of_N (Z.to_N (x mod 256)) with Some b => b | None => x00 end.

Definition byte_eqb (a b : byte) : bool := Byte.eqb a b.

#[export] Instance byte_eq_dec : EqDecision byte := Byte.byte_eq_dec.

#[export] Instance byte_countable : Countable byte.
Proof. apply (inj_countable Byte.to_N Byte.of_N). intros b. apply Byte.of_to_N. Defined.

Lemma Z_of_byte_range b : 0 ≤ Z_of_byte b < 256.
Proof. unfold Z_of_byte. pose proof (Byte.to_N_bounded b). lia. Qed.

Lemma byte_of_Z_of_byte b : byte_of_Z (Z_of_byte b) = b.
Proof.
  unfold byte_of_Z. pose proof (Z_of_byte_range b).
  rewrite Z.mod_small by done. unfold Z_of_byte.
  by rewrite N2Z.id, Byte.of_to_N.
Qed.

Lemma Z_of_byte_of_Z x : Z_of_byte (byte_of_Z x) = x mod 256.
Proof.
  unfold byte_of_Z. pose proof (Z.mod_pos_bound x 256 ltac:(lia)).
  destruct (Byte.of_N (Z.to_N (x mod 256))) as [b|] eqn:E.
  - apply Byte.to_of_N in E. unfold Z_of_byte. rewrite E, Z2N.id; lia.
  - apply Byte.of_N_None_iff in E. lia.
Qed.

(** ** Little-endian integers *)
Fixpoint to_le (n : nat) (x : Z) : bytes :=
  match n with
  | O => []
  | S n => byte_of_Z x :: to_le n (x / 256)
  end.

Fixpoint from_le (bs : bytes) : Z :=
  match bs with
  | [] => 0
  | b :: bs => Z_of_byte b + 256 * from_le bs
  end.

(** [(x as u32).to_le_bytes()], [x.to_le_bytes()] on a [u64], and back. *)
Definition u32_le (x : Z) : bytes := to_le 4 x.
Definition u64_le (x : Z) : bytes := to_le 8 x.

Lemma length_to_le n x : length (to_le n x) = n.
Proof. revert x; induction n as [|n IH]; intros x; simpl; [done|]. by rewrite IH. Qed.

Lemma from_to_le n x : from_le (to_le n x) = x mod 256 ^ Z.of_nat n.
Proof.
  revert x; induction n as [|n IH]; intros x.
  - simpl. by rewrite Z.mod_1_r.
  - cbn [to_le from_le]. rewrite IH, Z_of_byte_of_Z.
    rewrite Nat2Z.inj_succ, Z.pow_succ_r by lia.
    rewrite Z.rem_mul_r by lia. lia.
Qed.

Lemma from_le_range bs : 0 ≤ from_le bs < 256 ^ zlen bs.
Proof.
  induction bs as [|b bs IH]; cbn [from_le]; [unfold zlen; simpl; lia|].
  rewrite zlen_cons, Z.pow_add_r by (pose proof (zlen_nonneg bs); lia).
  change (256 ^ 1) with 256. pose proof (Z_of_byte_range b). lia.
Qed.

Lemma to_from_le bs : to_le (length bs) (from_le bs) = bs.
Proof.
  induction bs as [|b bs IH]; cbn [length to_le from_le]; [done|].
  pose proof (Z_of_byte_range b) as Hb. f_equal.
  - rewrite <- (byte_of_Z_of_byte b) at 2. unfold byte_of_Z.
    rewrite Z.mul_comm, Z_mod_plus_full.
    by rewrite (Z.mod_small _ _ Hb).
  - transitivity (to_le (length bs) (from_le bs)); [f_equal|exact IH].
    symmetry. apply (Z.div_unique_pos _ _ _ (Z_of_byte b)); lia.
Qed.

Lemma length_u32_le x : length (u32_le x) = 4%nat.
Proof. apply length_to_le. Qed.
Lemma length_u64_le x : length (u64_le x) = 8%nat.
Proof. apply length_to_le. Qed.

Lemma zlen_u32_le x : zlen (u32_le x) = 4.
Proof. unfold zlen. by rewrite length_u32_le. Qed.
Lemma zlen_u64_le x : zlen (u64_le x) = 8.
Proof. unfold zlen. by rewrite length_u64_le. Qed.

Lemma from_u32_le x : from_le (u32_le x) = as_u32 x.
Proof. unfold u32_le. by rewrite from_to_le. Qed.

Lemma from_u64_le x : from_le (u64_le x) = wrap64 x.
Proof. unfold u64_le. by rewrite from_to_le. Qed.

Lemma from_u32_le_small x : 0 ≤ x < 2 ^ 32 → from_le (u32_le x) = x.
Proof. intros H. rewrite from_u32_le. unfold as_u32, U32_MOD. by apply Z.mod_small. Qed.

Lemma from_u64_le_small x : 0 ≤ x < 2 ^ 64 → from_le (u64_le x) = x.
Proof. intros H. rewrite from_u64_le. by apply wrap64_small. Qed.

(** [as u32] before [to_le_bytes] changes nothing: the cast keeps the low bytes. *)
Lemma u32_le_as_u32 x : u32_le (as_u32 x) = u32_le x.
Proof.
  rewrite <- from_u32_le. unfold u32_le at 1.
  rewrite <- (length_u32_le x) at 1. apply to_from_le.
Qed.

(** ** Reading from what is left of a file *)
Definition take_exact (n : Z) (bs : bytes) : option (bytes * bytes) :=
  if n <=? zlen bs then Some (take (Z.to_nat n) bs, drop (Z.to_nat n) bs) else None.

Lemma take_exact_app pre rest n :
  zlen pre = n → take_exact n (pre ++ rest) = Some (pre, rest).
Proof.
  intros <-. unfold take_exact. rewrite zlen_app.
  pose proof (zlen_nonneg rest). rewrite (proj2 (Z.leb_le _ _)) by lia.
  unfold zlen. rewrite Nat2Z.id. by rewrite take_app_length, drop_app_length.
Qed.

Lemma take_exact_Some n bs pre rest :
  0 ≤ n → take_exact n bs = Some (pre, rest) → bs = pre ++ rest ∧ zlen pre = n.
Proof.
  intros Hn. unfold take_exact. destruct (n <=? zlen bs) eqn:E; [|done].
  intros [= <- <-]. apply Z.leb_le in E. rewrite take_drop. split; [done|].
  unfold zlen in *. rewrite length_take. lia.
Qed.

Lemma take_exact_None n bs : take_exact n bs = None ↔ zlen bs < n.
Proof.
  unfold take_exact. destruct (n <=? zlen bs) eqn:E.
  - apply Z.leb_le in E. split; [done|lia].
  - apply Z.leb_gt in E. split; [done|done].
Qed.

(** ** The bytes of a Rust string *)
Definition as_bytes (s : string) : bytes := String.list_byte_of_string s.
Definition of_bytes (bs : bytes) : string := String.string_of_list_byte bs.

Lemma of_bytes_as_bytes s : of_bytes (as_bytes s) = s.
Proof. apply String.string_of_list_byte_of_string. Qed.

Lemma as_bytes_of_bytes bs : as_bytes (of_bytes bs) = bs.
Proof. apply String.list_byte_of_string_of_list_byte. Qed.

(** [s.len()], the length in bytes. *)
Definition str_len (s : string) : Z := zlen (as_bytes s).

#[export] Hint Rewrite @zlen_app @zlen_cons @zlen_nil zlen_u32_le zlen_u64_le : minikv_len.
