(* ===== verification/Text.v ===== *)
(** * Rust text: UTF-8 and numbers in strings

    A Rust [String] is a sequence of bytes that is valid UTF-8.  The model
    keeps strings as byte strings; [utf8_valid] is the check made by
    [String::from_utf8] and [from_utf8_lossy] the replacement made by
    [String::from_utf8_lossy].  [show_dec], [show_pad] and [show_hex] are the
    format specifications [{}], [{:0w}] and [{:0wx}] on unsigned integers, and
    [parse_u64] is [str::parse::<u64>]. *)

From Stdlib Require Import ZArith Lia Sorted.
From Stdlib.Strings Require Import Byte.
From stdpp Require Import base option list strings.
From S2P Require Import Prelude Bytes.

(** ** UTF-8

    [utf8_lead b] says, for the first byte [b] of a multi-byte sequence, how
    many continuation bytes follow and in which range the first of them is. *)
Definition utf8_lead (b : Z) : option (nat * Z * Z) :=
  if (194 <=? b) && (b <=? 223) then Some (1%nat, 128, 191)
  else if b =? 224 then Some (2%nat, 160, 191)
  else if (225 <=? b) && (b <=? 236) then Some (2%nat, 128, 191)
  else if b =? 237 then Some (2%nat, 128, 159)
  else if (238 <=? b) && (b <=? 239) then Some (2%nat, 128, 191)
  else if b =? 240 then Some (3%nat, 144, 191)
  else if (241 <=? b) && (b <=? 243) then Some (3%nat, 128, 191)
  else if b =? 244 then Some (3%nat, 128, 143)
  else None.

Definition in_range (lo hi : Z) (b : byte) : bool :=
  (lo <=? Z_of_byte b) && (Z_of_byte b <=? hi).

Definition is_cont (b : byte) : bool := in_range 128 191 b.

(** U+FFFD, the replacement character. *)
Definition REPLACEMENT : bytes := [xef; xbf; xbd].

(** Decoding with replacement: the longest prefix of a sequence that cannot be
    completed becomes one replacement character. *)
Fixpoint from_utf8_lossy (bs : bytes) : bytes :=
  match bs with
  | [] => []
  | b0 :: r0 =>
    if Z_of_byte b0 <? 128 then b0 :: from_utf8_lossy r0 else
    match utf8_lead (Z_of_byte b0), r0 with
    | Some (n, lo, hi), b1 :: r1 =>
      if negb (in_range lo hi b1) then REPLACEMENT ++ from_utf8_lossy r0 else
      match n, r1 with
      | 1%nat, _ => b0 :: b1 :: from_utf8_lossy r1
      | _, b2 :: r2 =>
        if negb (is_cont b2) then REPLACEMENT ++ from_utf8_lossy r1 else
        match n, r2 with
        | 2%nat, _ => b0 :: b1 :: b2 :: from_utf8_lossy r2
        | _, b3 :: r3 =>
          if is_cont b3 then b0 :: b1 :: b2 :: b3 :: from_utf8_lossy r3
          else REPLACEMENT ++ from_utf8_lossy r2
        | _, [] => REPLACEMENT
        end
      | _, [] => REPLACEMENT
      end
    | _, _ => REPLACEMENT ++ from_utf8_lossy r0
    end
  end.

(** The check of [String::from_utf8]: every sequence is complete. *)
Fixpoint utf8_valid (bs : bytes) : bool :=
  match bs with
  | [] => true
  | b0 :: r0 =>
    if Z_of_byte b0 <? 128 then utf8_valid r0 else
    match utf8_lead (Z_of_byte b0), r0 with
    | Some (n, lo, hi), b1 :: r1 =>
      if negb (in_range lo hi b1) then false else
      match n, r1 with
      | 1%nat, _ => utf8_valid r1
      | _, b2 :: r2 =>
        if negb (is_cont b2) then false else
        match n, r2 with
        | 2%nat, _ => utf8_valid r2
        | _, b3 :: r3 => if is_cont b3 then utf8_valid r3 else false
        | _, [] => false
        end
      | _, [] => false
      end
    | _, _ => false
    end
  end.

(** The type invariant of [String] and [&str]. *)
Definition valid_str (s : string) : bool := utf8_valid (as_bytes s).

Definition from_utf8 (bs : bytes) : option string :=
  if utf8_valid bs then Some (of_bytes bs) else None.

Lemma from_utf8_as_bytes s : valid_str s = true → from_utf8 (as_bytes s) = Some s.
Proof. unfold valid_str, from_utf8. intros ->. by rewrite of_bytes_as_bytes. Qed.

Lemma from_utf8_Some bs s :
  from_utf8 bs = Some s → as_bytes s = bs ∧ valid_str s = true.
Proof.
  unfold from_utf8, valid_str. destruct (utf8_valid bs) eqn:E; [|done].
  intros [= <-]. by rewrite as_bytes_of_bytes.
Qed.

(** Lossy decoding does not change valid text. *)
Lemma from_utf8_lossy_valid_aux n bs :
  (length bs ≤ n)%nat → utf8_valid bs = true → from_utf8_lossy bs = bs.
Proof.
  revert bs; induction n as [|n IH]; intros bs Hn.
  { by destruct bs; [|simpl in Hn; lia]. }
  destruct bs as [|b0 r0]; [done|]. cbn [utf8_valid from_utf8_lossy].
  simpl in Hn. destruct (Z_of_byte b0 <? 128).
  { intros H. rewrite IH; [done|lia|done]. }
  destruct (utf8_lead (Z_of_byte b0)) as [[[m lo] hi]|]; [|done].
  destruct r0 as [|b1 r1]; [done|]. simpl in Hn.
  destruct (in_range lo hi b1); simpl; [|done].
  destruct m as [|[|m]].
  - destruct r1 as [|b2 r2]; [done|]. simpl in Hn.
    destruct (is_cont b2); simpl; [|done].
    destruct r2 as [|b3 r3]; [done|]. simpl in Hn.
    destruct (is_cont b3); [|done]. intros H. rewrite IH; [done|lia|done].
  - intros H. rewrite IH; [done|lia|done].
  - destruct r1 as [|b2 r2]; [done|]. simpl in Hn.
    destruct (is_cont b2); simpl; [|done].
    destruct m as [|m].
    + intros H. rewrite IH; [done|lia|done].
    + destruct r2 as [|b3 r3]; [done|]. simpl in Hn.
      destruct (is_cont b3); [|done]. intros H. rewrite IH; [done|lia|done].
Qed.

Lemma from_utf8_lossy_valid s :
  valid_str s = true → of_bytes (from_utf8_lossy (as_bytes s)) = s.
Proof.
  intros H. rewrite (from_utf8_lossy_valid_aux (length (as_bytes s)));
    [apply of_bytes_as_bytes|lia|done].
Qed.

(** ** Numbers in strings *)

(** The digits of [n] in base [b], least significant first; [fuel] is an upper
    bound of their number. *)
Fixpoint digits_le (fuel : nat) (b n : Z) : list Z :=
  match fuel with
  | O => []
  | S fuel => if n <? b then [n] else n mod b :: digits_le fuel b (n / b)
  end.

(** Enough for a [u64] in any base from 2 on. *)
Definition digits (b n : Z) : list Z := rev (digits_le 64 b n).

Definition digit_byte (d : Z) : byte := byte_of_Z (if d <? 10 then 48 + d else 87 + d).

(** [{}] and [{:0w}], [{:0wx}]: at least [w] digits, zeros on the left. *)
Definition pad (w : nat) (ds : list Z) : list Z := repeat 0 (w - length ds) ++ ds.
Definition show_pad (w : nat) (n : Z) : string :=
  of_bytes (map digit_byte (pad w (digits 10 n))).
Definition show_hex (w : nat) (n : Z) : string :=
  of_bytes (map digit_byte (pad w (digits 16 n))).
Definition show_dec (n : Z) : string := show_pad 0 n.

(** [u64::from_str]: digits, possibly after one [+]; an overflow is an error. *)
Definition byte_digit (b : byte) : option Z :=
  let x := Z_of_byte b in
  if (48 <=? x) && (x <=? 57) then Some (x - 48) else None.

Fixpoint parse_digits (acc : Z) (bs : bytes) : option Z :=
  match bs with
  | [] => Some acc
  | b :: bs =>
    match byte_digit b with
    | Some d => let acc' := acc * 10 + d in
                if acc' <=? U64_MAX then parse_digits acc' bs else None
    | None => None
    end
  end.

Definition parse_u64 (s : string) : option Z :=
  match as_bytes s with
  | [] => None
  | [x2b] => None
  | x2b :: bs => parse_digits 0 bs
  | bs => parse_digits 0 bs
  end.

(** [s.strip_prefix(p)] *)
Fixpoint strip_prefix_bytes (p bs : bytes) : option bytes :=
  match p, bs with
  | [], _ => Some bs
  | x :: p, y :: bs => if byte_eqb x y then strip_prefix_bytes p bs else None
  | _ :: _, [] => None
  end.
Definition strip_prefix (p s : string) : option string :=
  of_bytes <$> strip_prefix_bytes (as_bytes p) (as_bytes s).
Definition starts_with (p s : string) : bool :=
  match strip_prefix_bytes (as_bytes p) (as_bytes s) with Some _ => true | None => false end.

(** *** Parsing what was shown *)
Definition digit_val (b : Z) (acc : Z) (ds : list Z) : Z :=
  fold_left (λ a d, a * b + d) ds acc.

Lemma digit_val_app b acc l k :
  digit_val b acc (l ++ k) = digit_val b (digit_val b acc l) k.
Proof. apply fold_left_app. Qed.

Lemma digit_val_zeros b n ds : digit_val b 0 (repeat 0 n ++ ds) = digit_val b 0 ds.
Proof. induction n as [|n IH]; [done|]. simpl. apply IH. Qed.

Lemma digits_le_spec fuel b n :
  2 ≤ b → 0 ≤ n < 2 ^ Z.of_nat fuel →
  digit_val b 0 (rev (digits_le fuel b n)) = n ∧
  Forall (λ d, 0 ≤ d < b) (digits_le fuel b n).
Proof.
  intros Hb. revert n; induction fuel as [|fuel IH]; intros n Hn.
  { simpl in *. split; [lia|constructor]. }
  cbn [digits_le]. destruct (Z.ltb_spec n b).
  { simpl. split; [lia|]. constructor; [lia|constructor]. }
  assert (0 ≤ n / b < 2 ^ Z.of_nat fuel) as Hq.
  { rewrite Nat2Z.inj_succ, Z.pow_succ_r in Hn by lia.
    split; [apply Z.div_pos; lia|]. apply Z.div_lt_upper_bound; nia. }
  destruct (IH _ Hq) as [Hv Hd]. split.
  - simpl. rewrite digit_val_app, Hv. simpl. pose proof (Z.div_mod n b). lia.
  - constructor; [apply Z.mod_pos_bound; lia|done].
Qed.

Lemma digits_le_nonempty fuel b n : (0 < fuel)%nat → digits_le fuel b n ≠ [].
Proof. destruct fuel; [lia|]. simpl. by destruct (n <? b). Qed.

Lemma byte_digit_digit_byte d : 0 ≤ d < 10 → byte_digit (digit_byte d) = Some d.
Proof.
  intros Hd. unfold byte_digit, digit_byte. rewrite Z_of_byte_of_Z.
  destruct (Z.ltb_spec d 10); [|lia]. rewrite Z.mod_small by lia.
  rewrite (proj2 (Z.leb_le 48 (48 + d))), (proj2 (Z.leb_le (48 + d) 57)) by lia.
  simpl. f_equal. lia.
Qed.

Lemma digit_val_ge acc ds :
  0 ≤ acc → Forall (λ d, 0 ≤ d < 10) ds → acc ≤ digit_val 10 acc ds.
Proof.
  revert acc; induction ds as [|d ds IH]; intros acc Hacc Hds; simpl; [lia|].
  inversion Hds; subst. unfold digit_val in IH. specialize (IH (acc * 10 + d)).
  etransitivity; [|apply IH; [lia|done]]. lia.
Qed.

Lemma parse_digits_show ds acc :
  0 ≤ acc → Forall (λ d, 0 ≤ d < 10) ds → digit_val 10 acc ds ≤ U64_MAX →
  parse_digits acc (map digit_byte ds) = Some (digit_val 10 acc ds).
Proof.
  revert acc; induction ds as [|d ds IH]; intros acc Hacc Hds Hmax; [done|].
  inversion Hds; subst. cbn [map parse_digits].
  rewrite byte_digit_digit_byte by done.
  pose proof (digit_val_ge (acc * 10 + d) ds ltac:(lia) ltac:(done)) as Hge.
  cbn [digit_val fold_left] in Hmax. unfold digit_val in Hge.
  rewrite (proj2 (Z.leb_le _ _)) by lia. rewrite IH; [done|lia|done|done].
Qed.

Lemma digit_byte_not_plus d : 0 ≤ d < 10 → digit_byte d ≠ x2b.
Proof.
  intros Hd H. pose proof (byte_digit_digit_byte d Hd) as E. rewrite H in E. done.
Qed.

Lemma parse_u64_shown ds :
  ds ≠ [] → Forall (λ d, 0 ≤ d < 10) ds → digit_val 10 0 ds ≤ U64_MAX →
  parse_u64 (of_bytes (map digit_byte ds)) = Some (digit_val 10 0 ds).
Proof.
  intros Hne Hds Hmax. unfold parse_u64. rewrite as_bytes_of_bytes.
  destruct ds as [|d ds]; [done|]. rewrite <- parse_digits_show by (done || lia).
  inversion Hds as [|? ? Hd _]; subst. pose proof (digit_byte_not_plus d Hd) as Hp.
  cbn [map]. by destruct (digit_byte d).
Qed.

(** What [show_pad] prints, [parse_u64] reads back, whatever the width. *)
Lemma parse_show_pad w n : 0 ≤ n < 2 ^ 64 → parse_u64 (show_pad w n) = Some n.
Proof.
  intros Hn. unfold show_pad, digits.
  destruct (digits_le_spec 64 10 n ltac:(lia) Hn) as [Hv Hd].
  pose proof (digits_le_nonempty 64 10 n ltac:(lia)) as Hne.
  assert (digit_val 10 0 (pad w (rev (digits_le 64 10 n))) = n) as Hpv.
  { unfold pad. by rewrite digit_val_zeros. }
  rewrite parse_u64_shown; [by rewrite Hpv| | |].
  - unfold pad. intros [_ E]%app_nil. apply Hne.
    apply (f_equal (@rev Z)) in E. by rewrite rev_involutive in E.
  - unfold pad. apply Forall_app. split.
    + apply Forall_forall. intros x Hx%list_elem_of_In%repeat_spec. subst. lia.
    + apply Forall_forall. intros x Hx%list_elem_of_In%in_rev%list_elem_of_In.
      by apply (proj1 (Forall_forall _ _) Hd).
  - rewrite Hpv. unfold U64_MAX. lia.
Qed.

Lemma show_pad_inj w n m :
  0 ≤ n < 2 ^ 64 → 0 ≤ m < 2 ^ 64 → show_pad w n = show_pad w m → n = m.
Proof.
  intros Hn Hm E. apply (f_equal parse_u64) in E.
  rewrite !parse_show_pad in E by done. by injection E.
Qed.

Lemma strip_prefix_bytes_app p bs : strip_prefix_bytes p (p ++ bs) = Some bs.
Proof.
  induction p as [|x p IH]; [done|]. simpl. unfold byte_eqb.
  assert (Byte.eqb x x = true) as -> by by apply Byte.byte_dec_lb. done.
Qed.

Lemma as_bytes_app a b : as_bytes (a +:+ b) = as_bytes a ++ as_bytes b.
Proof.
  induction a as [|c a IH]; [done|].
  change (as_bytes (String c a +:+ b)) with (Ascii.byte_of_ascii c :: as_bytes (a +:+ b)).
  by rewrite IH.
Qed.

Lemma as_bytes_inj a b : as_bytes a = as_bytes b → a = b.
Proof. intros E. by rewrite <- (of_bytes_as_bytes a), E, of_bytes_as_bytes. Qed.

Lemma strip_prefix_app p s : strip_prefix p (p +:+ s) = Some s.
Proof.
  unfold strip_prefix. rewrite as_bytes_app, strip_prefix_bytes_app. simpl.
  by rewrite of_bytes_as_bytes.
Qed.

Lemma parse_digits_range acc bs n :
  0 ≤ acc ≤ U64_MAX → parse_digits acc bs = Some n → 0 ≤ n ≤ U64_MAX.
Proof.
  revert acc. induction bs as [|b bs IH]; intros acc Ha; simpl; [by intros [= <-]|].
  unfold byte_digit. pose proof (Z_of_byte_range b).
  destruct ((48 <=? Z_of_byte b) && (Z_of_byte b <=? 57)) eqn:E; [|done].
  apply andb_true_iff in E as [E1%Z.leb_le E2%Z.leb_le].
  destruct (Z.leb_spec (acc * 10 + (Z_of_byte b - 48)) U64_MAX); [|done].
  apply IH. lia.
Qed.

Lemma parse_u64_range s n : parse_u64 s = Some n → 0 ≤ n < 2 ^ 64.
Proof.
  intros H. assert (0 ≤ n ≤ U64_MAX) as Hn; [|unfold U64_MAX in Hn; lia].
  unfold parse_u64 in H. destruct (as_bytes s) as [|b bs]; [done|].
  destruct b; destruct bs; simplify_eq; by eapply parse_digits_range; [|exact H].
Qed.

(** Strings of ASCII bytes. *)
Lemma utf8_valid_ascii bs : Forall (λ b, Z_of_byte b < 128) bs → utf8_valid bs = true.
Proof.
  induction 1 as [|b bs Hb _ IH]; [done|]. simpl. unfold utf8_lead.
  by rewrite (proj2 (Z.ltb_lt _ _) Hb).
Qed.

(** ** The order of strings

    [Ord] of [String] compares the bytes, the first difference deciding. *)
Fixpoint bytes_ltb (a b : bytes) : bool :=
  match a, b with
  | _, [] => false
  | [], _ :: _ => true
  | x :: a, y :: b =>
      (Z_of_byte x <? Z_of_byte y) || ((Z_of_byte x =? Z_of_byte y) && bytes_ltb a b)
  end.
Definition str_ltb (a b : string) : bool := bytes_ltb (as_bytes a) (as_bytes b).
Definition str_leb (a b : string) : bool := negb (str_ltb b a).

Lemma bytes_ltb_asym a b : bytes_ltb a b = true → bytes_ltb b a = false.
Proof.
  revert b. induction a as [|x a IH]; intros [|y b]; simpl; try done.
  rewrite orb_true_iff, andb_true_iff, Z.ltb_lt, Z.eqb_eq, orb_false_iff, andb_false_iff, Z.ltb_ge, Z.eqb_neq.
  intros [H|[H1 H2]]; [lia|]. split; [lia|]. right. by apply IH.
Qed.

Lemma bytes_ltb_negtrans a b c :
  bytes_ltb b a = false → bytes_ltb c b = false → bytes_ltb c a = false.
Proof.
  revert b c. induction a as [|x a IH]; intros [|y b] [|z c]; simpl; try done.
  rewrite !orb_false_iff, !andb_false_iff, !Z.ltb_ge, !Z.eqb_neq.
  intros [H1 H2] [H3 H4]. split; [lia|].
  destruct (decide (Z_of_byte z = Z_of_byte x)) as [E|]; [right|by left].
  destruct H2 as [?|H2]; [lia|]. destruct H4 as [?|H4]; [lia|]. by apply (IH b c).
Qed.

Lemma str_ltb_asym a b : str_ltb a b = true → str_ltb b a = false.
Proof. apply bytes_ltb_asym. Qed.

Lemma str_not_after_trans a b c :
  not_after str_ltb a b → not_after str_ltb b c → not_after str_ltb a c.
Proof. apply bytes_ltb_negtrans. Qed.

(** [filtered.sort()] *)
Definition sort_strings (l : list string) : list string := sort_by str_ltb l.

Lemma sort_strings_sorted l : StronglySorted (λ a b, str_leb a b = true) (sort_strings l).
Proof.
  pose proof (sort_by_sorted str_ltb str_ltb_asym str_not_after_trans l) as H. unfold sort_strings.
  induction H as [|x l' Hs IH Hf]; constructor; [done|].
  eapply Forall_impl; [exact Hf|]. intros y Hy. unfold str_leb. unfold not_after in Hy. by rewrite Hy.
Qed.

(** [hay.contains(needle)], on the bytes. *)
Fixpoint bytes_contains (needle hay : bytes) : bool :=
  match strip_prefix_bytes needle hay with
  | Some _ => true
  | None => match hay with [] => false | _ :: hay => bytes_contains needle hay end
  end.

Lemma strip_prefix_bytes_Some p bs r : strip_prefix_bytes p bs = Some r → bs = p ++ r.
Proof.
  revert bs. induction p as [|x p IH]; intros bs; simpl; [by intros [= ->]|].
  destruct bs as [|y bs]; [done|]. destruct (byte_eqb x y) eqn:E; [|done].
  apply Byte.byte_dec_bl in E as ->. intros H. by rewrite (IH _ H).
Qed.

Lemma bytes_contains_spec needle hay :
  bytes_contains needle hay = true ↔ ∃ pre post, hay = pre ++ needle ++ post.
Proof.
  split.
  - induction hay as [|b hay IH]; simpl.
    + destruct (strip_prefix_bytes needle []) as [r|] eqn:E; [|done].
      intros _. exists [], r. by apply strip_prefix_bytes_Some in E.
    + destruct (strip_prefix_bytes needle (b :: hay)) as [r|] eqn:E.
      * intros _. exists [], r. by apply strip_prefix_bytes_Some in E.
      * intros H. destruct (IH H) as (pre & post & ->). by exists (b :: pre), post.
  - intros (pre & post & ->). induction pre as [|b pre IH]; simpl.
    + destruct (needle ++ post) eqn:E; simpl; rewrite <- ?E; by rewrite strip_prefix_bytes_app.
    + by destruct (strip_prefix_bytes needle _).
Qed.
