(* ===== verification/Float64.v ===== *)
(** * Floating point numbers

    Rust's [f64], as the Standard Library's specification of IEEE 754 binary64
    arithmetic ([SpecFloat] with 53 bits of precision and exponents below 1024),
    and the operations of [std] on it that the code uses: comparison, [min],
    conversion from and to integers, durations in seconds, and the two ways it
    is printed.  The lemmas give the operations on numbers that are not negative
    an exact integer meaning: [fv x] is [x] in units of 2^-1074, the distance of
    the smallest two numbers. *)

From Stdlib Require Import ZArith Lia SpecFloat.
From stdpp Require Import base option list.
From S2P Require Import Prelude.

Abbreviation f64 := spec_float.

Definition fadd : f64 → f64 → f64 := SFadd 53 1024.
Definition fsub : f64 → f64 → f64 := SFsub 53 1024.
Definition fmul : f64 → f64 → f64 := SFmul 53 1024.
Definition fdiv : f64 → f64 → f64 := SFdiv 53 1024.
Definition fleb : f64 → f64 → bool := SFleb.
Definition fltb : f64 → f64 → bool := SFltb.
Definition fvalid (x : f64) : bool := valid_binary 53 1024 x.

(** [n as f64] for an unsigned [n]. *)
Definition f64_of_Z (n : Z) : f64 := binary_normalize 53 1024 n 0 false.
Definition f64_one : f64 := f64_of_Z 1.
Definition f64_zero : f64 := S754_zero false.

(** [a.min(b)]; of two numbers that compare equal the first is taken (which only
    matters for zeros of different sign). *)
Definition fmin (a b : f64) : f64 :=
  match SFcompare a b with
  | Some Gt => b
  | Some _ => a
  | None => match a with S754_nan => b | _ => a end
  end.

(** [x as u64] and the like: truncation that saturates, NaN giving 0. *)
Definition f64_to_uint (max : Z) (x : f64) : Z :=
  match x with
  | S754_nan | S754_zero _ | S754_infinity true | S754_finite true _ _ => 0
  | S754_infinity false => max
  | S754_finite false m e => Z.min max (Z.shiftl (Zpos m) e)
  end.

Definition is_infinite (x : f64) : bool := match x with S754_infinity _ => true | _ => false end.

(** ** Exact meaning *)
Definition fv (x : f64) : Z :=
  match x with S754_finite false m e => Zpos m * 2 ^ (e + 1074) | _ => 0 end.
(** The value of one. *)
Definition ONE : Z := 2 ^ 1074.

(** A number that is not negative, not infinite and not NaN. *)
Definition fnonneg (x : f64) : bool :=
  match x with
  | S754_zero false => true
  | S754_finite false m e => fvalid x
  | _ => false
  end.

(** ** Digits and shifts *)
Lemma digits2_log2 p : Zpos (digits2_pos p) = Z.log2 (Zpos p) + 1.
Proof.
  induction p as [p IH|p IH|]; cbn [digits2_pos]; [| |done];
    rewrite Pos2Z.inj_succ, IH; [rewrite Pos2Z.inj_xI|rewrite Pos2Z.inj_xO].
  - rewrite (Z.log2_succ_double (Zpos p)) by lia. lia.
  - rewrite (Z.log2_double (Zpos p)) by lia. lia.
Qed.

Lemma Zdigits2_log2 m : 0 < m → Zdigits2 m = Z.log2 m + 1.
Proof. destruct m; try lia. intros _. apply digits2_log2. Qed.

Lemma iter_pos_nat {A} (f : A → A) p x : SpecFloat.iter_pos f p x = Nat.iter (Pos.to_nat p) f x.
Proof.
  revert x. induction p as [p IH|p IH|]; intros x; cbn [SpecFloat.iter_pos]; [| |done].
  - rewrite !IH, <- Nat.iter_add, Pos2Nat.inj_xI.
    replace (S (2 * Pos.to_nat p)) with (Pos.to_nat p + Pos.to_nat p + 1)%nat by lia.
    by rewrite (Nat.iter_add (Pos.to_nat p + Pos.to_nat p)).
  - rewrite !IH, <- Nat.iter_add, Pos2Nat.inj_xO. f_equal. lia.
Qed.

(** Shifting right [n] times: the mantissa is shifted, and what is left of a
    mantissa that the shift divides is nothing. *)
Lemma shr_1_spec m r s :
  0 ≤ m → shr_1 (Build_shr_record m r s) = Build_shr_record (m / 2) (Z.odd m) (r || s).
Proof.
  intros Hm. destruct m as [|p|p]; [done| |lia].
  unfold shr_1. rewrite <- Z.div2_div. by destruct p.
Qed.

Lemma shr_iter_spec n m r s :
  0 ≤ m →
  let R := Nat.iter n shr_1 (Build_shr_record m r s) in
  shr_m R = m / 2 ^ Z.of_nat n ∧
  (r || s = false → m mod 2 ^ Z.of_nat n = 0 → shr_r R = false ∧ shr_s R = false).
Proof.
  intros Hm. cbv zeta. induction n as [|n [IH1 IH2]].
  { simpl. rewrite Z.div_1_r. split; [done|]. by intros []%orb_false_iff. }
  rewrite Nat.iter_succ. destruct (Nat.iter n shr_1 _) as [m' r' s'] eqn:E. simpl in IH1, IH2.
  assert (0 < 2 ^ Z.of_nat n) by lia.
  assert (0 ≤ m') by (rewrite IH1; by apply Z.div_pos).
  rewrite shr_1_spec by done. cbn [shr_m shr_r shr_s].
  rewrite Nat2Z.inj_succ, Z.pow_succ_r by lia. split.
  - rewrite IH1, Z.div_div by lia. f_equal. lia.
  - intros Hrs Hd. apply Z.mod_divide in Hd as [c Hc]; [|lia].
    assert (m = (2 * c) * 2 ^ Z.of_nat n) as Hm2 by lia.
    destruct IH2 as [-> ->]; [done|rewrite Hm2; apply Z.mod_mul; lia|].
    split; [|done]. rewrite IH1, Hm2, Z.div_mul by lia. rewrite Z.odd_mul. done.
Qed.

(** ** Rounding *)
Definition mk_float (s : bool) (q t : Z) : f64 :=
  if t <=? 971 then S754_finite s (Z.to_pos q) t else S754_infinity s.
(** The number [q * 2^t] for a [q] of at most 2^53. *)
Definition finish (s : bool) (q t : Z) : f64 :=
  if q =? 0 then S754_zero s else if q =? 2 ^ 53 then mk_float s (2 ^ 52) (t + 1) else mk_float s q t.

Lemma fexp_eq e : fexp 53 1024 e = Z.max (e - 53) (-1074).
Proof. reflexivity. Qed.

Lemma shr_nonpos R e n : n ≤ 0 → shr R e n = (R, e).
Proof. destruct n; simpl; [done|lia|done]. Qed.

Lemma log2_lt_pow m n : 0 < m → 0 ≤ n → m < 2 ^ n → Z.log2 m + 1 ≤ n.
Proof. intros H1 H2 H3. apply Z.log2_lt_pow2 in H3; lia. Qed.

(** The second normalization, of a mantissa that was rounded up. *)
Lemma shr_fexp_rounded q t :
  0 ≤ q ≤ 2 ^ 53 → -1074 ≤ t →
  shr_fexp 53 1024 q t loc_Exact =
    if q =? 2 ^ 53 then (Build_shr_record (2 ^ 52) false false, t + 1)
    else (Build_shr_record q false false, t).
Proof.
  intros Hq Ht. unfold shr_fexp. destruct (Z.eqb_spec q (2 ^ 53)) as [->|Hne].
  - change (Zdigits2 (2 ^ 53)) with 54. rewrite fexp_eq.
    replace (Z.max (54 + t - 53) (-1074) - t) with 1 by lia. reflexivity.
  - apply shr_nonpos. rewrite fexp_eq. destruct (Z.eq_dec q 0) as [->|H0]; [simpl; lia|].
    rewrite Zdigits2_log2 by lia.
    pose proof (log2_lt_pow q 53 ltac:(lia) ltac:(lia) ltac:(lia)). lia.
Qed.

Lemma shift_bounds m e :
  0 < m → let t := fexp 53 1024 (Z.log2 m + 1 + e) in e ≤ t →
  0 ≤ m / 2 ^ (t - e) < 2 ^ 53 ∧ (t = -1074 ∨ 2 ^ 52 ≤ m / 2 ^ (t - e)) ∧ -1074 ≤ t.
Proof.
  intros Hm t He. assert (0 < 2 ^ (t - e)) as Hp by (apply Z.pow_pos_nonneg; lia).
  destruct (Z.log2_spec m Hm) as [L1 L2].
  assert (t = Z.max (Z.log2 m + 1 + e - 53) (-1074)) as Et by reflexivity. clearbody t.
  set (l := Z.log2 m) in *. assert (0 ≤ l) by apply Z.log2_nonneg.
  split; [split; [apply Z.div_pos; lia|]|split; [|lia]].
  - apply Z.div_lt_upper_bound; [lia|]. rewrite <- Z.pow_add_r by lia.
    eapply Z.lt_le_trans; [exact L2|]. apply Z.pow_le_mono_r; lia.
  - destruct (Z.eq_dec t (-1074)) as [|Hne]; [by left|right].
    apply Z.div_le_lower_bound; [lia|]. rewrite <- Z.pow_add_r by lia.
    replace (t - e + 52) with l by lia. exact L1.
Qed.

Lemma round_aux_loc s m e l :
  0 < m → let t := fexp 53 1024 (Z.log2 m + 1 + e) in e ≤ t →
  ∃ q, (q = m / 2 ^ (t - e) ∨ q = m / 2 ^ (t - e) + 1) ∧
    (l = loc_Exact → m mod 2 ^ (t - e) = 0 → q = m / 2 ^ (t - e)) ∧
    binary_round_aux 53 1024 s m e l = finish s q t.
Proof.
  intros Hm t He. destruct (shift_bounds m e Hm He) as (Hb & _ & Ht). fold t in Hb, Ht.
  unfold binary_round_aux.
  assert (∃ r s', shr_fexp 53 1024 m e l = (Build_shr_record (m / 2 ^ (t - e)) r s', t) ∧
    (l = loc_Exact → m mod 2 ^ (t - e) = 0 → r = false ∧ s' = false)) as (r & s' & E & Hex).
  { unfold shr_fexp. rewrite Zdigits2_log2 by done. fold t.
    assert (∃ r0 s0, shr_record_of_loc m l = Build_shr_record m r0 s0 ∧ (l = loc_Exact → r0 || s0 = false))
      as (r0 & s0 & -> & H0) by (destruct l as [|[]]; simpl; repeat eexists; done).
    destruct (t - e) as [|p|p] eqn:Ep; [|simpl|lia].
    - exists r0, s0. rewrite shr_nonpos by done. rewrite Z.div_1_r. split; [f_equal; lia|].
      intros Hl _. by apply orb_false_iff, H0.
    - rewrite iter_pos_nat. pose proof (shr_iter_spec (Pos.to_nat p) m r0 s0 ltac:(lia)) as [R1 R2].
      rewrite positive_nat_Z in R1, R2. destruct (Nat.iter _ _ _) as [m' r s'].
      simpl in R1, R2. subst m'. exists r, s'. split; [f_equal; lia|]. intros Hl. by apply R2, H0. }
  rewrite E. cbn [shr_m]. set (q := round_nearest_even _ _).
  assert ((q = m / 2 ^ (t - e) ∨ q = m / 2 ^ (t - e) + 1) ∧
    (l = loc_Exact → m mod 2 ^ (t - e) = 0 → q = m / 2 ^ (t - e))) as [Hq1 Hq2].
  { subst q. split.
    - destruct r, s'; simpl; auto. destruct (Z.even _); auto.
    - intros Hl H0. by destruct (Hex Hl H0) as [-> ->]. }
  exists q. split; [done|]. split; [done|]. rewrite shr_fexp_rounded by (destruct Hq1; lia).
  unfold finish, mk_float. destruct (Z.eqb_spec q (2 ^ 53)) as [->|Hne]; [done|].
  cbn [shr_m]. destruct q as [|p|p]; [done|done|lia].
Qed.

Lemma round_aux_spec s m e :
  0 < m → let t := fexp 53 1024 (Z.log2 m + 1 + e) in e ≤ t →
  ∃ q, (q = m / 2 ^ (t - e) ∨ q = m / 2 ^ (t - e) + 1) ∧ (m mod 2 ^ (t - e) = 0 → q = m / 2 ^ (t - e)) ∧
    binary_round_aux 53 1024 s m e loc_Exact = finish s q t.
Proof.
  intros Hm t He. destruct (round_aux_loc s m e loc_Exact Hm He) as (q & H1 & H2 & H3).
  exists q. auto.
Qed.

(** What [finish] makes: a valid number of that value, or infinity. *)
Lemma finish_valid s q t :
  0 ≤ q ≤ 2 ^ 53 → -1074 ≤ t → t = -1074 ∨ 2 ^ 52 ≤ q → fvalid (finish s q t) = true.
Proof.
  intros Hq Ht Hn. unfold finish, mk_float. destruct (Z.eqb_spec q 0); [done|].
  assert (∀ q t, 0 < q < 2 ^ 53 → -1074 ≤ t → t = -1074 ∨ 2 ^ 52 ≤ q →
    fvalid (if t <=? 971 then S754_finite s (Z.to_pos q) t else S754_infinity s) = true) as H.
  { clear. intros q t Hq Ht Hn. destruct (Z.leb_spec t 971); [|done].
    unfold fvalid, valid_binary, bounded, canonical_mantissa. rewrite digits2_log2, fexp_eq, Z2Pos.id by lia.
    apply andb_true_intro. split; [|apply Z.leb_le; simpl; lia]. apply Z.eqb_eq.
    pose proof (log2_lt_pow q 53 ltac:(lia) ltac:(lia) ltac:(lia)). destruct Hn as [->|Hn].
    - assert (0 ≤ Z.log2 q) by apply Z.log2_nonneg. lia.
    - apply Z.log2_le_pow2 in Hn; lia. }
  destruct (Z.eqb_spec q (2 ^ 53)); apply H; lia.
Qed.

Lemma finish_value q t :
  0 ≤ q ≤ 2 ^ 53 → -1074 ≤ t →
  finish false q t = S754_infinity false ∨ fv (finish false q t) = q * 2 ^ (t + 1074).
Proof.
  intros Hq Ht. unfold finish, mk_float. destruct (Z.eqb_spec q 0) as [->|]; [by right|].
  destruct (Z.eqb_spec q (2 ^ 53)) as [->|].
  - destruct (t + 1 <=? 971); [right|by left]. cbn [fv]. rewrite Z2Pos.id by lia.
    replace (t + 1 + 1074) with (1 + (t + 1074)) by lia. rewrite Z.pow_add_r by lia. lia.
  - destruct (t <=? 971); [right|by left]. cbn [fv]. by rewrite Z2Pos.id by lia.
Qed.

Lemma valid_bounds s m e :
  fvalid (S754_finite s m e) = true ↔
  Zpos m < 2 ^ 53 ∧ -1074 ≤ e ≤ 971 ∧ (e = -1074 ∨ 2 ^ 52 ≤ Zpos m).
Proof.
  unfold fvalid, valid_binary, bounded, canonical_mantissa.
  rewrite andb_true_iff, Z.eqb_eq, Z.leb_le, digits2_log2, fexp_eq. change (1024 - 53) with 971.
  destruct (Z.log2_spec (Zpos m) ltac:(lia)) as [L1 L2].
  assert (0 ≤ Z.log2 (Zpos m)) by apply Z.log2_nonneg. set (l := Z.log2 (Zpos m)) in *. split.
  - intros [H1 H2]. split; [|split; [lia|]].
    + eapply Z.lt_le_trans; [exact L2|]. apply Z.pow_le_mono_r; lia.
    + destruct (Z.eq_dec e (-1074)); [by left|right].
      etransitivity; [|exact L1]. apply Z.pow_le_mono_r; lia.
  - intros (H1 & H2 & H3). split; [|lia].
    pose proof (log2_lt_pow (Zpos m) 53 ltac:(lia) ltac:(lia) H1) as H4. fold l in H4.
    destruct H3 as [->|H3]; [lia|]. apply Z.log2_le_pow2 in H3; [|lia]. fold l in H3. lia.
Qed.

Lemma iter_xO m d : Zpos (Pos.iter xO m d) = Zpos m * 2 ^ Zpos d.
Proof.
  induction d as [|d IH] using Pos.peano_ind; [simpl; lia|].
  rewrite Pos.iter_succ, Pos2Z.inj_xO, IH, Pos2Z.inj_succ, Z.pow_succ_r by lia. lia.
Qed.

Lemma shl_align_spec m e e' :
  let '(m', e'') := shl_align m e e' in e'' = Z.min e e' ∧ Zpos m' = Zpos m * 2 ^ (e - e'').
Proof.
  unfold shl_align. destruct (e' - e) as [|d|d] eqn:E.
  - split; [lia|]. rewrite Z.sub_diag. lia.
  - split; [lia|]. rewrite Z.sub_diag. lia.
  - split; [lia|]. rewrite iter_xO. f_equal. f_equal. lia.
Qed.

Lemma binary_round_spec s m e :
  let t := fexp 53 1024 (Z.log2 (Zpos m) + 1 + e) in
  ∃ m' e' q, e' = Z.min e t ∧ m' = Zpos m * 2 ^ (e - e') ∧
    (q = m' / 2 ^ (t - e') ∨ q = m' / 2 ^ (t - e') + 1) ∧ (m' mod 2 ^ (t - e') = 0 → q = m' / 2 ^ (t - e')) ∧
    0 ≤ m' / 2 ^ (t - e') < 2 ^ 53 ∧ (t = -1074 ∨ 2 ^ 52 ≤ m' / 2 ^ (t - e')) ∧ -1074 ≤ t ∧
    binary_round 53 1024 s m e = finish s q t.
Proof.
  intros t. unfold binary_round. rewrite digits2_log2. fold t.
  pose proof (shl_align_spec m e t) as Ha. destruct (shl_align m e t) as [m' e'].
  destruct Ha as [He Hm].
  assert (Z.log2 (Zpos m') + 1 + e' = Z.log2 (Zpos m) + 1 + e) as Hl.
  { rewrite Hm, Z.log2_mul_pow2 by lia. lia. }
  assert (fexp 53 1024 (Z.log2 (Zpos m') + 1 + e') = t) as Ht by (by rewrite Hl).
  destruct (round_aux_spec s (Zpos m') e' ltac:(lia)) as (q & Q1 & Q2 & Q3); [rewrite Ht; lia|].
  destruct (shift_bounds (Zpos m') e' ltac:(lia)) as (B1 & B2 & B3); [rewrite Ht; lia|].
  rewrite Ht in *. exists (Zpos m'), e', q. done.
Qed.

Lemma binary_round_valid s m e : fvalid (binary_round 53 1024 s m e) = true.
Proof.
  destruct (binary_round_spec s m e) as (m' & e' & q & _ & _ & Hq & _ & Hb & Hn & Ht & ->).
  apply finish_valid; destruct Hq; lia.
Qed.

(** A mantissa of 53 digits at a higher exponent is above every mantissa. *)
Lemma wide_gap F my a P : 2 ^ 52 ≤ F → Zpos my < 2 ^ 53 → 0 < a → 0 < P → Zpos my * P < F * (a * 2 * P).
Proof.
  intros HF Hm Ha HP. assert (2 ^ 52 * 2 ≤ F * (a * 2)) by nia.
  replace (F * (a * 2 * P)) with (F * (a * 2) * P) by lia. apply Z.mul_lt_mono_pos_r; lia.
Qed.

(** Rounding is monotone: a number that is at most (at least) the exact value is
    at most (at least) the rounded one. *)
Section round.
Context (m : positive) (e : Z) (He : -1074 ≤ e).
Let N : Z := Zpos m * 2 ^ (e + 1074).
Let r : f64 := binary_round 53 1024 false m e.

Lemma round_split :
  ∃ q F t, -1074 ≤ t ∧ 0 ≤ F ∧ (q = F ∨ q = F + 1) ∧ q ≤ 2 ^ 53 ∧ (t = -1074 ∨ 2 ^ 52 ≤ F) ∧ F < 2 ^ 53 ∧
    F * 2 ^ (t + 1074) ≤ N < (F + 1) * 2 ^ (t + 1074) ∧ (N = F * 2 ^ (t + 1074) → q = F) ∧
    r = finish false q t.
Proof.
  destruct (binary_round_spec false m e) as (m' & e' & q & E1 & E2 & Hq & Hd & Hb & Hn & Ht & Hr).
  set (t := fexp 53 1024 (Z.log2 (Zpos m) + 1 + e)) in *. set (F := m' / 2 ^ (t - e')) in *.
  assert (-1074 ≤ e') by lia.
  assert (N = m' * 2 ^ (e' + 1074)) as HN.
  { subst N. rewrite E2, <- Z.mul_assoc, <- Z.pow_add_r by lia. f_equal. f_equal. lia. }
  assert (2 ^ (t + 1074) = 2 ^ (t - e') * 2 ^ (e' + 1074)) as Hp
    by (rewrite <- Z.pow_add_r by lia; f_equal; lia).
  assert (0 < 2 ^ (t - e')) by (apply Z.pow_pos_nonneg; lia).
  assert (0 < 2 ^ (e' + 1074)) by (apply Z.pow_pos_nonneg; lia).
  pose proof (Z.div_mod m' (2 ^ (t - e')) ltac:(lia)) as Hdm. fold F in Hdm.
  pose proof (Z.mod_pos_bound m' (2 ^ (t - e')) ltac:(lia)).
  exists q, F, t. split; [done|]. split; [lia|]. split; [done|]. split; [destruct Hq; lia|].
  split; [done|]. split; [lia|]. rewrite HN, Hp. split; [nia|]. split; [|done].
  intros HF. apply Hd. nia.
Qed.

Lemma round_ge my ey :
  fvalid (S754_finite false my ey) = true → Zpos my * 2 ^ (ey + 1074) ≤ N →
  r = S754_infinity false ∨ Zpos my * 2 ^ (ey + 1074) ≤ fv r.
Proof.
  intros (V1 & V2 & V3)%valid_bounds Hle.
  destruct round_split as (q & F & t & Ht & H0 & Hq & Hq53 & Hn & HF & HN & _ & ->).
  destruct (finish_value q t) as [?|Hv]; [lia|lia|by left|right]. rewrite Hv.
  assert (0 < 2 ^ (t + 1074)) by (apply Z.pow_pos_nonneg; lia).
  enough (Zpos my * 2 ^ (ey + 1074) ≤ F * 2 ^ (t + 1074)) by nia.
  destruct (Z.le_gt_cases t ey) as [Hte|Hte].
  - assert (Zpos my * 2 ^ (ey + 1074) = Zpos my * 2 ^ (ey - t) * 2 ^ (t + 1074)) as Hy.
    { rewrite <- Z.mul_assoc, <- Z.pow_add_r by lia. f_equal. f_equal. lia. }
    rewrite Hy in *. apply Z.mul_le_mono_nonneg_r; [lia|].
    apply Z.lt_succ_r, (Z.mul_lt_mono_pos_r (2 ^ (t + 1074))); lia.
  - assert (2 ^ (t + 1074) = 2 ^ (t - ey - 1) * 2 * 2 ^ (ey + 1074)) as Hp.
    { rewrite <- Z.mul_assoc, <- (Z.pow_succ_r 2 (ey + 1074)), <- Z.pow_add_r by lia. f_equal. lia. }
    assert (0 < 2 ^ (t - ey - 1)) by (apply Z.pow_pos_nonneg; lia).
    assert (0 < 2 ^ (ey + 1074)) by (apply Z.pow_pos_nonneg; lia).
    rewrite Hp. destruct Hn as [->|Hn]; [lia|]. apply Z.lt_le_incl, wide_gap; lia.
Qed.

Lemma round_le my ey :
  fvalid (S754_finite false my ey) = true → N ≤ Zpos my * 2 ^ (ey + 1074) →
  r ≠ S754_infinity false ∧ fv r ≤ Zpos my * 2 ^ (ey + 1074).
Proof.
  intros (V1 & V2 & V3)%valid_bounds Hle.
  destruct round_split as (q & F & t & Ht & H0 & Hq & Hq53 & Hn & HF & HN & Hex & ->).
  assert (0 < 2 ^ (t + 1074)) by (apply Z.pow_pos_nonneg; lia).
  assert (0 < 2 ^ (ey + 1074)) by (apply Z.pow_pos_nonneg; lia).
  assert (q * 2 ^ (t + 1074) ≤ Zpos my * 2 ^ (ey + 1074)) as Hqy.
  { destruct (Z.le_gt_cases t ey) as [Hte|Hte].
    - assert (Zpos my * 2 ^ (ey + 1074) = Zpos my * 2 ^ (ey - t) * 2 ^ (t + 1074)) as Hy.
      { rewrite <- Z.mul_assoc, <- Z.pow_add_r by lia. f_equal. f_equal. lia. }
      rewrite Hy in *. clearbody N.
      destruct (Z.eq_dec N (F * 2 ^ (t + 1074))) as [E|E]; [rewrite (Hex E); lia|]. apply Z.mul_le_mono_nonneg_r; [lia|].
      enough (F < Zpos my * 2 ^ (ey - t)) by lia. apply (Z.mul_lt_mono_pos_r (2 ^ (t + 1074))); lia.
    - exfalso. assert (2 ^ (t + 1074) = 2 ^ (t - ey - 1) * 2 * 2 ^ (ey + 1074)) as Hp.
      { rewrite <- Z.mul_assoc, <- (Z.pow_succ_r 2 (ey + 1074)), <- Z.pow_add_r by lia. f_equal. lia. }
      assert (0 < 2 ^ (t - ey - 1)) by (apply Z.pow_pos_nonneg; lia).
      destruct Hn as [->|Hn]; [lia|].
      pose proof (wide_gap F my (2 ^ (t - ey - 1)) (2 ^ (ey + 1074))) as Hw. nia. }
  assert (q = 0 ∨ t ≤ ey ∧ ¬ (q = 2 ^ 53 ∧ t + 1 > ey)) as Hov.
  { destruct (Z.eq_dec q 0); [by left|right].
    assert (t ≤ ey) as Hte.
    { apply Z.le_ngt. intros Hte. destruct Hn as [->|Hn]; [lia|].
      assert (2 ^ (t + 1074) = 2 ^ (t - ey - 1) * 2 * 2 ^ (ey + 1074)) as Hp.
      { rewrite <- Z.mul_assoc, <- (Z.pow_succ_r 2 (ey + 1074)), <- Z.pow_add_r by lia. f_equal. lia. }
      assert (0 < 2 ^ (t - ey - 1)) by (apply Z.pow_pos_nonneg; lia).
      pose proof (wide_gap q my (2 ^ (t - ey - 1)) (2 ^ (ey + 1074)) ltac:(lia) V1 ltac:(lia) ltac:(lia)) as Hw.
      rewrite Hp in Hqy. lia. }
    split; [done|]. intros [-> Hgt]. replace ey with t in * by lia.
    apply Z.mul_le_mono_pos_r in Hqy; lia. }
  split.
  - unfold finish, mk_float. destruct (Z.eqb_spec q 0); [done|]. destruct Hov as [?|[Hov1 Hov2]]; [done|].
    destruct (Z.eqb_spec q (2 ^ 53)).
    + destruct (Z.leb_spec (t + 1) 971); [done|lia].
    + destruct (Z.leb_spec t 971); [done|lia].
  - destruct (finish_value q t) as [E|E]; [lia|lia|rewrite E; simpl; lia|by rewrite E].
Qed.
End round.

(** ** Numbers that are not negative *)
Lemma fnonneg_finite m e : fnonneg (S754_finite false m e) = fvalid (S754_finite false m e).
Proof. reflexivity. Qed.

Lemma fnonneg_inv x :
  fnonneg x = true →
  x = f64_zero ∨ ∃ m e, x = S754_finite false m e ∧ fvalid x = true.
Proof. destruct x as [[]|[]| |[] m e]; try done; [by left|]. intros H. right. eauto. Qed.

Lemma fv_nonneg x : 0 ≤ fv x.
Proof.
  destruct x as [s|s| |[] m e]; cbn [fv]; lia.
Qed.

Lemma fv_pos m e : fvalid (S754_finite false m e) = true → 0 < fv (S754_finite false m e).
Proof.
  intros (_ & H & _)%valid_bounds. cbn [fv]. apply Z.mul_pos_pos; [lia|]. apply Z.pow_pos_nonneg; lia.
Qed.

(** At different exponents the exponents decide. *)
Lemma valid_exp_lt m1 e1 m2 e2 :
  fvalid (S754_finite false m1 e1) = true → fvalid (S754_finite false m2 e2) = true → e1 < e2 →
  Zpos m1 * 2 ^ (e1 + 1074) < Zpos m2 * 2 ^ (e2 + 1074).
Proof.
  intros (A1 & A2 & A3)%valid_bounds (B1 & B2 & B3)%valid_bounds He.
  assert (2 ^ (e2 + 1074) = 2 ^ (e2 - e1 - 1) * 2 * 2 ^ (e1 + 1074)) as ->.
  { rewrite <- Z.mul_assoc, <- (Z.pow_succ_r 2 (e1 + 1074)), <- Z.pow_add_r by lia. f_equal. lia. }
  apply wide_gap; [lia|done|apply Z.pow_pos_nonneg; lia..].
Qed.

Lemma fleb_fv x y : fnonneg x = true → fnonneg y = true → fleb x y = (fv x <=? fv y).
Proof.
  intros Hx Hy. symmetry.
  destruct (fnonneg_inv x Hx) as [->|(m1 & e1 & -> & V1)], (fnonneg_inv y Hy) as [->|(m2 & e2 & -> & V2)].
  - done.
  - apply Z.leb_le, fv_nonneg.
  - apply Z.leb_gt. by apply fv_pos.
  - unfold fleb, SFleb, SFcompare. cbn [fv]. destruct (Z.compare_spec e1 e2) as [->|He|He].
    + apply valid_bounds in V2 as (_ & V2 & _).
      assert (0 < 2 ^ (e2 + 1074)) by (apply Z.pow_pos_nonneg; lia).
      change (Pos.compare_cont Eq m1 m2) with (Zpos m1 ?= Zpos m2).
      destruct (Z.compare_spec (Zpos m1) (Zpos m2)) as [E|E|E].
      * injection E as ->. apply Z.leb_refl.
      * apply Z.leb_le. apply Z.mul_le_mono_nonneg_r; lia.
      * apply Z.leb_gt. apply Z.mul_lt_mono_pos_r; lia.
    + apply Z.leb_le. apply Z.lt_le_incl. by apply valid_exp_lt.
    + apply Z.leb_gt. by apply valid_exp_lt.
Qed.

Lemma fleb_infinity x : fnonneg x = true → fleb x (S754_infinity false) = true.
Proof. by destruct x as [[]|[]| |[] m e]. Qed.

(** Rounding of an exact value that is not negative. *)
Lemma normalize_nonneg n e :
  0 ≤ n → binary_normalize 53 1024 n e false = S754_infinity false ∨
          fnonneg (binary_normalize 53 1024 n e false) = true.
Proof.
  intros Hn. destruct n as [|p|p]; [by right| |lia]. simpl.
  pose proof (binary_round_valid false p e) as V.
  destruct (binary_round_spec false p e) as (m' & e' & q & _ & _ & _ & _ & _ & _ & _ & E).
  rewrite E in *. unfold finish, mk_float in *. destruct (q =? 0); [by right|].
  destruct (q =? 2 ^ 53); [destruct (_ <=? 971)|destruct (_ <=? 971)]; auto.
Qed.

Lemma normalize_ge n e z :
  0 ≤ n → -1074 ≤ e → fnonneg z = true → fv z ≤ n * 2 ^ (e + 1074) →
  fleb z (binary_normalize 53 1024 n e false) = true.
Proof.
  intros Hn He Hz Hle. destruct (normalize_nonneg n e Hn) as [->|H]; [by apply fleb_infinity|].
  rewrite fleb_fv by done. apply Z.leb_le. destruct n as [|p|p]; [simpl in *; lia| |lia].
  destruct (fnonneg_inv z Hz) as [->|(m1 & e1 & -> & V1)]; [apply fv_nonneg|].
  destruct (round_ge p e He m1 e1 V1 Hle) as [E|E]; [|done].
  simpl in H. by rewrite E in H.
Qed.

Lemma normalize_le n e z :
  0 ≤ n → -1074 ≤ e → fnonneg z = true → n * 2 ^ (e + 1074) ≤ fv z →
  fnonneg (binary_normalize 53 1024 n e false) = true ∧ fv (binary_normalize 53 1024 n e false) ≤ fv z.
Proof.
  intros Hn He Hz Hle. destruct n as [|p|p]; [split; [done|apply fv_nonneg]| |lia].
  destruct (fnonneg_inv z Hz) as [->|(m1 & e1 & -> & V1)].
  { exfalso. simpl in Hle. assert (0 < 2 ^ (e + 1074)) by (apply Z.pow_pos_nonneg; lia). lia. }
  destruct (round_le p e He m1 e1 V1 Hle) as [E1 E2]. split; [|done].
  destruct (normalize_nonneg (Zpos p) e Hn) as [E|E]; done.
Qed.

(** A value with at most 53 digits is a number. *)
Lemma representable n e :
  0 ≤ n < 2 ^ 53 → -1074 ≤ e ≤ 971 → ∃ y, fnonneg y = true ∧ fv y = n * 2 ^ (e + 1074).
Proof.
  intros Hn He. destruct (Z.eq_dec n 0) as [->|H0]; [by exists f64_zero|].
  destruct (Z.log2_spec n ltac:(lia)) as [L1 L2]. pose proof (Z.log2_nonneg n) as L0.
  pose proof (log2_lt_pow n 53 ltac:(lia) ltac:(lia) ltac:(lia)) as L3. set (l := Z.log2 n) in *.
  set (k := Z.min (52 - l) (e + 1074)). assert (0 < 2 ^ k) by (apply Z.pow_pos_nonneg; lia).
  exists (S754_finite false (Z.to_pos (n * 2 ^ k)) (e - k)).
  assert (Zpos (Z.to_pos (n * 2 ^ k)) = n * 2 ^ k) as Hm by (apply Z2Pos.id, Z.mul_pos_pos; lia). split.
  - rewrite fnonneg_finite. apply valid_bounds. rewrite Hm. split; [|split; [lia|]].
    + eapply Z.lt_le_trans; [apply Z.mul_lt_mono_pos_r; [lia|exact L2]|].
      rewrite <- Z.pow_add_r by lia. apply Z.pow_le_mono_r; lia.
    + destruct (Z.le_gt_cases (52 - l) (e + 1074)) as [Hk|Hk]; [right|left; lia].
      replace k with (52 - l) by lia. etransitivity; [|apply Z.mul_le_mono_nonneg_r; [|exact L1]].
      * rewrite <- Z.pow_add_r by lia. apply Z.pow_le_mono_r; lia.
      * by apply Z.pow_nonneg.
  - cbn [fv]. rewrite Hm, <- Z.mul_assoc, <- Z.pow_add_r by lia. f_equal. f_equal. lia.
Qed.

Lemma normalize_exact n e k j :
  0 ≤ n → -1074 ≤ e → 0 ≤ k < 2 ^ 53 → -1074 ≤ j ≤ 971 → n * 2 ^ (e + 1074) = k * 2 ^ (j + 1074) →
  fnonneg (binary_normalize 53 1024 n e false) = true ∧
  fv (binary_normalize 53 1024 n e false) = n * 2 ^ (e + 1074).
Proof.
  intros Hn He Hk Hj E. destruct (representable k j Hk Hj) as (y & Hy & Ey).
  destruct (normalize_le n e y Hn He Hy) as [H1 H2]; [lia|]. split; [done|].
  pose proof (normalize_ge n e y Hn He Hy ltac:(lia)) as H3. rewrite fleb_fv in H3 by done.
  apply Z.leb_le in H3. lia.
Qed.

Lemma f64_of_Z_exact n : 0 ≤ n < 2 ^ 53 → fnonneg (f64_of_Z n) = true ∧ fv (f64_of_Z n) = n * ONE.
Proof. intros Hn. apply (normalize_exact n 0 n 0); lia. Qed.

Lemma fv_one : fv f64_one = ONE.
Proof. reflexivity. Qed.

(** ** Sums, differences, products, minima *)
Lemma aligned m e z :
  -1074 ≤ z ≤ e → Zpos (shl_align m e z).1 * 2 ^ (z + 1074) = Zpos m * 2 ^ (e + 1074).
Proof.
  intros Hz. pose proof (shl_align_spec m e z) as H. destruct (shl_align m e z) as [m' e'].
  destruct H as [-> H]. cbn [fst]. rewrite H, <- Z.mul_assoc, <- Z.pow_add_r by lia.
  f_equal. f_equal. lia.
Qed.

Lemma fadd_finite mx ex my ey :
  fvalid (S754_finite false mx ex) = true → fvalid (S754_finite false my ey) = true →
  ∃ n e, 0 ≤ n ∧ -1074 ≤ e ∧
    n * 2 ^ (e + 1074) = fv (S754_finite false mx ex) + fv (S754_finite false my ey) ∧
    fadd (S754_finite false mx ex) (S754_finite false my ey) = binary_normalize 53 1024 n e false.
Proof.
  intros (_ & Hx & _)%valid_bounds (_ & Hy & _)%valid_bounds.
  exists (Zpos (shl_align mx ex (Z.min ex ey)).1 + Zpos (shl_align my ey (Z.min ex ey)).1), (Z.min ex ey).
  split; [lia|]. split; [lia|]. split; [|done].
  rewrite Z.mul_add_distr_r, !aligned by lia. reflexivity.
Qed.

Lemma fadd_zero_l y : fnonneg y = true → fadd f64_zero y = y.
Proof. by intros [->|(m & e & -> & _)]%fnonneg_inv. Qed.
Lemma fadd_zero_r x s : fnonneg x = true → fadd x (S754_zero s) = x.
Proof. intros [->|(m & e & -> & _)]%fnonneg_inv; by destruct s. Qed.

Lemma fadd_nonneg x y :
  fnonneg x = true → fnonneg y = true ∨ y = S754_infinity false →
  fnonneg (fadd x y) = true ∨ fadd x y = S754_infinity false.
Proof.
  intros Hx [Hy| ->]; [|right; destruct (fnonneg_inv x Hx) as [->|(m & e & -> & _)]; done].
  destruct (fnonneg_inv x Hx) as [->|(mx & ex & -> & Vx)]; [left; by rewrite fadd_zero_l|].
  destruct (fnonneg_inv y Hy) as [->|(my & ey & -> & Vy)];
    [left; unfold f64_zero; by rewrite fadd_zero_r|].
  destruct (fadd_finite mx ex my ey Vx Vy) as (n & e & Hn & He & _ & ->).
  destruct (normalize_nonneg n e Hn); auto.
Qed.

(** The sum is at least every number that the exact sum is at least. *)
Lemma fadd_ge x y z :
  fnonneg x = true → fnonneg y = true → fnonneg z = true → fv z ≤ fv x + fv y →
  fleb z (fadd x y) = true.
Proof.
  intros Hx Hy Hz Hle.
  destruct (fnonneg_inv x Hx) as [->|(mx & ex & -> & Vx)].
  { rewrite fadd_zero_l by done. rewrite fleb_fv by done. by apply Z.leb_le. }
  destruct (fnonneg_inv y Hy) as [->|(my & ey & -> & Vy)].
  { unfold f64_zero. rewrite fadd_zero_r, fleb_fv by done. apply Z.leb_le. simpl in Hle. simpl. lia. }
  destruct (fadd_finite mx ex my ey Vx Vy) as (n & e & Hn & He & E & ->).
  apply normalize_ge; [done|done|done|]. by rewrite E.
Qed.

(** Taking one from a number between one and 2^53 is exact. *)
Lemma fsub_one x :
  fnonneg x = true → ONE ≤ fv x < 2 ^ 53 * ONE →
  fnonneg (fsub x f64_one) = true ∧ fv (fsub x f64_one) = fv x - ONE.
Proof.
  intros Hx Hb. destruct (fnonneg_inv x Hx) as [->|(m & e & -> & V)].
  { assert (0 < ONE) by done. cbn [fv f64_zero] in Hb. lia. }
  pose proof (proj1 (valid_bounds _ _ _) V) as (V1 & V2 & V3). cbn [fv] in Hb.
  assert (fvalid (S754_finite false 4503599627370496 (-52)) = true) as Vone by done.
  assert (-52 ≤ e) as Hlo.
  { apply Z.le_ngt. intros Hlt. pose proof (valid_exp_lt m e _ _ V Vone Hlt) as H.
    change (4503599627370496 * 2 ^ (-52 + 1074)) with ONE in H. lia. }
  assert (e ≤ 0) as Hhi.
  { apply Z.le_ngt. intros Hlt. destruct V3 as [->|V3]; [lia|].
    assert (2 ^ (e + 1074) = 2 ^ (e - 1) * 2 * ONE) as Hp.
    { unfold ONE. rewrite <- Z.mul_assoc, <- Z.pow_succ_r, <- Z.pow_add_r by lia. f_equal. lia. }
    assert (0 < 2 ^ (e - 1)) by (apply Z.pow_pos_nonneg; lia).
    assert (2 ^ 53 ≤ Zpos m * (2 ^ (e - 1) * 2)) by nia.
    assert (0 < ONE) by done. rewrite Hp, Z.mul_assoc in Hb.
    apply proj2, Z.mul_lt_mono_pos_r in Hb; [|done]. lia. }
  change f64_one with (S754_finite false 4503599627370496 (-52)). unfold fsub, SFsub. cbv zeta.
  replace (Z.min e (-52)) with (-52) by lia. cbn [cond_Zopp].
  pose proof (aligned m e (-52) ltac:(lia)) as Ha.
  change ((shl_align 4503599627370496 (-52) (-52)).1) with 4503599627370496%positive.
  set (a := (shl_align m e (-52)).1) in *. change (-52 + 1074) with 1022 in Ha.
  assert (ONE = 4503599627370496 * 2 ^ 1022) as Hone by done.
  assert (0 < 2 ^ 1022) by done.
  assert (4503599627370496 ≤ Zpos a) as Hle by (apply (Z.mul_le_mono_pos_r _ _ (2 ^ 1022)); lia).
  assert (2 ^ (e + 1074) = 2 ^ (e + 52) * 2 ^ 1022) as Hp by (rewrite <- Z.pow_add_r by lia; f_equal; lia).
  assert (4503599627370496 = 2 ^ (- e) * 2 ^ (e + 52)) as H52 by (rewrite <- Z.pow_add_r by lia; by replace (- e + (e + 52)) with 52 by lia).
  assert (0 < 2 ^ (- e)) by (apply Z.pow_pos_nonneg; lia).
  assert (0 < 2 ^ (e + 52)) by (apply Z.pow_pos_nonneg; lia).
  assert (Zpos a = Zpos m * 2 ^ (e + 52)) as Hav by (apply (Z.mul_reg_r _ _ (2 ^ 1022)); lia).
  cbn [fv]. rewrite <- Ha, Hone, <- Z.mul_sub_distr_r.
  apply (normalize_exact (Zpos a - 4503599627370496) (-52) (Zpos m - 2 ^ (- e)) e); [lia|lia| |lia|].
  - rewrite Hav, H52 in Hle. apply Z.mul_le_mono_pos_r in Hle; lia.
  - change (-52 + 1074) with 1022. rewrite Hp, Z.mul_assoc. apply Z.mul_cancel_r; [lia|].
    rewrite Z.mul_sub_distr_r. apply f_equal2; [exact Hav|exact H52].
Qed.

(** A product or quotient is rounded once. *)
Lemma round_aux_nonneg m e l :
  0 < m → e ≤ fexp 53 1024 (Z.log2 m + 1 + e) →
  fnonneg (binary_round_aux 53 1024 false m e l) = true ∨
  binary_round_aux 53 1024 false m e l = S754_infinity false.
Proof.
  intros Hm He. destruct (round_aux_loc false m e l Hm He) as (q & Hq & _ & ->).
  destruct (shift_bounds m e Hm He) as (B1 & B2 & B3).
  assert (fvalid (finish false q (fexp 53 1024 (Z.log2 m + 1 + e))) = true) as V.
  { apply finish_valid; [lia|lia|]. destruct B2, Hq; lia. }
  unfold finish, mk_float in *. destruct (q =? 0); [by left|].
  destruct (q =? 2 ^ 53); destruct (_ <=? 971); auto.
Qed.

Lemma round_aux_normalize m e :
  e ≤ fexp 53 1024 (Z.log2 (Zpos m) + 1 + e) →
  binary_round_aux 53 1024 false (Zpos m) e loc_Exact = binary_normalize 53 1024 (Zpos m) e false.
Proof.
  intros He. simpl. unfold binary_round. rewrite digits2_log2. unfold shl_align.
  destruct (_ - e) as [|d|d] eqn:E; [done|done|lia].
Qed.

Lemma product_exp mx ex my ey :
  fvalid (S754_finite false mx ex) = true → fvalid (S754_finite false my ey) = true →
  ex + ey ≤ fexp 53 1024 (Z.log2 (Zpos (mx * my)) + 1 + (ex + ey)).
Proof.
  intros (_ & Hx & Nx)%valid_bounds (_ & Hy & Ny)%valid_bounds. rewrite fexp_eq, Pos2Z.inj_mul.
  pose proof (Z.log2_mul_below (Zpos mx) (Zpos my) ltac:(lia) ltac:(lia)).
  pose proof (Z.log2_nonneg (Zpos mx)). pose proof (Z.log2_nonneg (Zpos my)).
  destruct Nx as [->|Nx]; [destruct Ny as [->|Ny]; [lia|]|].
  - apply Z.log2_le_pow2 in Ny; lia.
  - apply Z.log2_le_pow2 in Nx; lia.
Qed.

Lemma fmul_nonneg x y :
  fnonneg x = true → fnonneg y = true →
  fnonneg (fmul x y) = true ∨ fmul x y = S754_infinity false.
Proof.
  intros Hx Hy. destruct (fnonneg_inv x Hx) as [->|(mx & ex & -> & Vx)].
  { left. by destruct (fnonneg_inv y Hy) as [->|(my & ey & -> & Vy)]. }
  destruct (fnonneg_inv y Hy) as [->|(my & ey & -> & Vy)]; [by left|].
  apply round_aux_nonneg; [lia|]. by apply product_exp.
Qed.

Lemma fmul_zero_l y : fnonneg y = true → fmul f64_zero y = f64_zero.
Proof. by intros [->|(m & e & -> & _)]%fnonneg_inv. Qed.

(** The smaller of two numbers. *)
Lemma fmin_nonneg x b :
  fnonneg x = true ∨ x = S754_infinity false → fnonneg b = true →
  fnonneg (fmin x b) = true ∧ fleb (fmin x b) b = true ∧
  (∀ z, fleb z x = true → fleb z b = true → fleb z (fmin x b) = true).
Proof.
  intros Hx Hb. unfold fmin.
  assert (fleb b b = true) as Hbb by (rewrite fleb_fv by done; apply Z.leb_refl).
  destruct Hx as [Hx| ->].
  - unfold fleb, SFleb. destruct (SFcompare x b) as [[]|] eqn:E; try done; try by rewrite E.
    by destruct (fnonneg_inv x Hx) as [->|(m & e & -> & _)],
      (fnonneg_inv b Hb) as [->|(m' & e' & -> & _)].
  - by destruct (fnonneg_inv b Hb) as [->|(m' & e' & -> & _)].
Qed.

Lemma fmin_keep x b : fleb x b = true → fmin x b = x.
Proof. unfold fleb, SFleb, fmin. by destruct (SFcompare x b) as [[]|]. Qed.

Lemma fmin_le_l x b :
  fnonneg x = true → fnonneg b = true → fv (fmin x b) ≤ fv x ∧ fv (fmin x b) ≤ fv b.
Proof.
  intros Hx Hb. pose proof (fleb_fv x b Hx Hb) as H. unfold fleb, SFleb in H. unfold fmin.
  destruct (SFcompare x b) as [[]|] eqn:E; symmetry in H.
  1,2: apply Z.leb_le in H; lia.
  - apply Z.leb_gt in H. lia.
  - by destruct (fnonneg_inv x Hx) as [->|(m & e & -> & _)],
      (fnonneg_inv b Hb) as [->|(m' & e' & -> & _)].
Qed.

(** The rounding error of a sum below 2^33 is at most 2^-20. *)
Definition ULP : Z := 2 ^ 1054.

Lemma fadd_bounded x y z :
  fnonneg x = true → fnonneg y = true → fnonneg z = true → fv x + fv y ≤ fv z →
  fnonneg (fadd x y) = true ∧ fv (fadd x y) ≤ fv z.
Proof.
  intros Hx Hy Hz Hle. pose proof (fv_nonneg x). pose proof (fv_nonneg y).
  destruct (fnonneg_inv x Hx) as [->|(mx & ex & -> & Vx)].
  { rewrite fadd_zero_l by done. split; [done|lia]. }
  destruct (fnonneg_inv y Hy) as [->|(my & ey & -> & Vy)].
  { unfold f64_zero. rewrite fadd_zero_r by done. split; [done|lia]. }
  destruct (fadd_finite mx ex my ey Vx Vy) as (n & e & Hn & He & E & ->).
  apply normalize_le; [done|done|done|]. by rewrite E.
Qed.

Lemma fadd_le x y :
  fnonneg x = true → fnonneg y = true → fv x + fv y < (2 ^ 33 - 1) * ONE →
  fnonneg (fadd x y) = true ∧ fv (fadd x y) ≤ fv x + fv y + ULP.
Proof.
  intros Hx Hy Hb. assert (0 < ULP) as HU by done. assert (ONE = 2 ^ 20 * ULP) as HO by done.
  assert (0 ≤ fv x + fv y) as H0 by (pose proof (fv_nonneg x); pose proof (fv_nonneg y); lia).
  set (S := fv x + fv y) in *.
  pose proof (Z.div_mod S ULP ltac:(lia)). pose proof (Z.mod_pos_bound S ULP HU).
  pose proof (Z.div_pos S ULP H0 HU) as HS.
  assert (S / ULP < 2 ^ 53 - 1) as Hd.
  { apply Z.div_lt_upper_bound; [done|]. eapply Z.lt_le_trans; [exact Hb|]. rewrite HO. lia. }
  destruct (representable (S / ULP + 1) (-20)) as (z & Hz & Ez); [clear -Hd HS; lia|done|].
  change (2 ^ (-20 + 1074)) with ULP in Ez.
  destruct (fadd_bounded x y z Hx Hy Hz) as [A B]; [fold S; lia|]. split; [done|]. lia.
Qed.

(** [x as u32] and the like round down. *)
Lemma f64_to_uint_floor max x :
  fnonneg x = true → 0 ≤ max → f64_to_uint max x = Z.min max (fv x / ONE).
Proof.
  intros Hx Hm. destruct (fnonneg_inv x Hx) as [->|(m & e & -> & V)].
  { change (fv f64_zero / ONE) with 0. change (f64_to_uint max f64_zero) with 0. lia. }
  apply valid_bounds in V as (_ & V & _). cbn [f64_to_uint fv]. f_equal. unfold ONE.
  destruct (Z.le_gt_cases 0 e) as [He|He].
  - rewrite Z.shiftl_mul_pow2, Z.pow_add_r, Z.mul_assoc, Z.div_mul by lia. done.
  - rewrite Z.shiftl_div_pow2 by lia. replace 1074 with (- e + (e + 1074)) at 2 by lia.
    rewrite (Z.pow_add_r 2 (- e)), Z.div_mul_cancel_r by lia. done.
Qed.

(** ** Durations

    A [Duration] is its length in nanoseconds; [Instant]s are readings of a
    clock that never goes back, also in nanoseconds. *)
Definition NANOS : Z := 1000000000.
Definition as_secs_f64 (d : Z) : f64 :=
  fadd (f64_of_Z (d / NANOS)) (fdiv (f64_of_Z (d mod NANOS)) (f64_of_Z NANOS)).
Definition as_secs (d : Z) : Z := d / NANOS.

(** [Duration::from_secs_f64]: rounded to the nearest nanosecond, ties to even;
    it panics on what is negative, infinite, not a number or too long. *)
Definition round_half_even (n d : Z) : Z :=
  let q := n / d in
  let r := n mod d in
  if (d <? 2 * r) || ((2 * r =? d) && Z.odd q) then q + 1 else q.
Definition from_secs_f64 (x : f64) : may_panic Z :=
  match x with
  | S754_zero _ => Returns 0
  | S754_finite false m e =>
      let ns := if 0 <=? e then Zpos m * 2 ^ e * NANOS
                else round_half_even (Zpos m * NANOS) (2 ^ (- e)) in
      if ns / NANOS <? U64_MOD then Returns ns else Panics
  | _ => Panics
  end.
(** [later.duration_since(earlier)] saturates. *)
Definition duration_since (later earlier : Z) : Z := Z.max 0 (later - earlier).

(** A whole number below 2^53 is normal. *)
Lemma f64_of_Z_normal n :
  0 < n < 2 ^ 53 → ∃ m e, f64_of_Z n = S754_finite false m e ∧ 2 ^ 52 ≤ Zpos m < 2 ^ 53 ∧ -52 ≤ e ≤ 0.
Proof.
  intros Hn. destruct (f64_of_Z_exact n ltac:(lia)) as [H1 H2].
  destruct (fnonneg_inv _ H1) as [E|(m & e & E & V)]; rewrite E in *; clear E.
  { change (fv f64_zero) with 0 in H2. assert (0 < ONE) by done. nia. }
  exists m, e. pose proof (proj1 (valid_bounds _ _ _) V) as (V1 & V2 & V3). cbn [fv] in H2.
  assert (0 < ONE) as HO by done.
  assert (∀ k, 0 ≤ k → 2 ^ (1074 + k) = 2 ^ k * ONE) as HP
    by (intros k Hk; rewrite Z.add_comm; unfold ONE; by rewrite <- Z.pow_add_r by lia).
  assert (-52 ≤ e) as He.
  { apply Z.le_ngt. intros Hlt. assert (Zpos m * 2 ^ (e + 1074) < 1 * ONE); [|nia].
    apply (Z.lt_le_trans _ (2 ^ 53 * 2 ^ (e + 1074))).
    - apply Z.mul_lt_mono_pos_r; [apply Z.pow_pos_nonneg; lia|done].
    - rewrite <- Z.pow_add_r, Z.mul_1_l by lia. apply Z.pow_le_mono_r; lia. }
  destruct V3 as [->|V3]; [lia|]. split; [done|]. split; [done|]. split; [done|].
  apply Z.le_ngt. intros Hlt.
  assert (2 ^ 53 * ONE ≤ Zpos m * 2 ^ (e + 1074)); [|nia].
  rewrite (Z.add_comm e), HP by lia. rewrite Z.mul_assoc. apply Z.mul_le_mono_nonneg_r; [lia|].
  change (2 ^ 53) with (2 ^ 52 * 2 ^ 1). apply Z.mul_le_mono_nonneg; [lia|done|lia|].
  apply Z.pow_le_mono_r; lia.
Qed.

Lemma f64_of_Z_nonneg n :
  0 ≤ n ≤ 2 ^ 64 → fnonneg (f64_of_Z n) = true ∧ fv (f64_of_Z n) ≤ 2 ^ 64 * ONE.
Proof.
  intros Hn. destruct (representable 1 64) as (z & Hz & Ez); [done|done|].
  change (1 * 2 ^ (64 + 1074)) with (2 ^ 64 * ONE) in Ez. rewrite <- Ez.
  apply normalize_le; [lia|lia|done|]. rewrite Ez. change (2 ^ (0 + 1074)) with ONE.
  apply Z.mul_le_mono_nonneg_r; [done|lia].
Qed.

(** What is rounded below 2^K does not overflow. *)
Lemma round_aux_small K m e l :
  0 < m → e ≤ fexp 53 1024 (Z.log2 m + 1 + e) → Z.log2 m + 1 + e ≤ K → -1000 ≤ K ≤ 900 →
  fnonneg (binary_round_aux 53 1024 false m e l) = true ∧
  fv (binary_round_aux 53 1024 false m e l) ≤ 2 ^ (K + 1074).
Proof.
  intros Hm He Hs HK. destruct (round_aux_loc false m e l Hm He) as (q & Hq & _ & E).
  pose proof (round_aux_nonneg m e l Hm He) as Hn. rewrite E in *.
  destruct (shift_bounds m e Hm He) as (B1 & _ & B3).
  rewrite fexp_eq in *. set (t := Z.max _ _) in *.
  assert (t ≤ K - 53) as Ht by lia. split.
  - destruct Hn as [Hn|Hn]; [done|]. unfold finish, mk_float in Hn.
    destruct (q =? 0); [done|]. destruct (q =? 2 ^ 53);
      [destruct (Z.leb_spec (t + 1) 971)|destruct (Z.leb_spec t 971)]; done || lia.
  - assert (0 ≤ 2 ^ (K + 1074)) by (by apply Z.pow_nonneg).
    destruct (finish_value q t) as [->| ->]; [lia|lia|done|].
    replace (K + 1074) with (53 + (K - 53 + 1074)) by lia. rewrite (Z.pow_add_r 2 53) by lia.
    apply Z.mul_le_mono_nonneg; [lia|lia|by apply Z.pow_nonneg|apply Z.pow_le_mono_r; lia].
Qed.

(** The quotient of two normal numbers. *)
Lemma fdiv_normal K mx ex my ey :
  2 ^ 52 ≤ Zpos mx < 2 ^ 53 → 2 ^ 52 ≤ Zpos my < 2 ^ 53 →
  -1021 ≤ ex - ey → ex - ey + 1 ≤ K → -1000 ≤ K ≤ 900 →
  fnonneg (fdiv (S754_finite false mx ex) (S754_finite false my ey)) = true ∧
  fv (fdiv (S754_finite false mx ex) (S754_finite false my ey)) ≤ 2 ^ (K + 1074).
Proof.
  intros Hx Hy He HK1 HK2. unfold fdiv, SFdiv, SFdiv_core_binary.
  assert (∀ p, 2 ^ 52 ≤ Zpos p < 2 ^ 53 → Zdigits2 (Zpos p) = 53) as HD.
  { intros p Hp. rewrite Zdigits2_log2 by lia. assert (Z.log2 (Zpos p) = 52); [|lia].
    apply Z.log2_unique; [done|]. exact Hp. }
  rewrite !HD by done. cbv zeta. rewrite fexp_eq.
  replace (Z.min (Z.max (53 + ex - (53 + ey) - 53) (-1074)) (ex - ey)) with (ex - ey - 53) by lia.
  replace (ex - ey - (ex - ey - 53)) with 53 by lia.
  assert (2 ^ 52 ≤ Z.shiftl (Zpos mx) 53 / Zpos my) as Hq.
  { rewrite Z.shiftl_mul_pow2 by lia. apply Z.div_le_lower_bound; [lia|]. lia. }
  assert (Z.shiftl (Zpos mx) 53 / Zpos my < 2 ^ 54) as Hq2.
  { rewrite Z.shiftl_mul_pow2 by lia. apply Z.div_lt_upper_bound; [lia|]. lia. }
  unfold Z.div in Hq, Hq2. destruct (Z.div_eucl _ _) as [q r].
  pose proof (log2_lt_pow q 54 ltac:(lia) ltac:(lia) Hq2).
  apply Z.log2_le_pow2 in Hq; [|lia]. apply round_aux_small; [|rewrite fexp_eq| |done]; try lia.
  destruct q; simpl in *; lia.
Qed.

Lemma fdiv_nanos n :
  0 ≤ n < NANOS →
  fnonneg (fdiv (f64_of_Z n) (f64_of_Z NANOS)) = true ∧
  fv (fdiv (f64_of_Z n) (f64_of_Z NANOS)) ≤ 2 ^ 64 * ONE.
Proof.
  intros Hn. destruct (Z.eq_dec n 0) as [->|H0]; [split; [done|by vm_compute]|].
  destruct (f64_of_Z_normal n) as (m & e & -> & Hm1 & He); [unfold NANOS in *; lia|].
  destruct (f64_of_Z_normal NANOS) as (m' & e' & -> & Hm2 & He'); [done|].
  apply (fdiv_normal 64); lia.
Qed.

Lemma as_secs_f64_nonneg d :
  0 ≤ d < 2 ^ 64 * NANOS → fnonneg (as_secs_f64 d) = true ∧ fv (as_secs_f64 d) ≤ 2 ^ 65 * ONE.
Proof.
  intros Hd. unfold as_secs_f64. assert (0 < NANOS) as HN by done.
  destruct (f64_of_Z_nonneg (d / NANOS)) as [S1 S2].
  { split; [apply Z.div_pos; lia|]. apply Z.lt_le_incl, Z.div_lt_upper_bound; lia. }
  destruct (fdiv_nanos (d mod NANOS)) as [D1 D2]; [by apply Z.mod_pos_bound|].
  destruct (representable 1 65) as (z & Hz & Ez); [done|done|].
  change (1 * 2 ^ (65 + 1074)) with (2 ^ 65 * ONE) in Ez. rewrite <- Ez.
  apply fadd_bounded; [done..|]. rewrite Ez. change (2 ^ 65 * ONE) with (2 ^ 64 * ONE + 2 ^ 64 * ONE).
  apply Z.add_le_mono; done.
Qed.

Lemma as_secs_f64_zero : as_secs_f64 0 = f64_zero.
Proof. reflexivity. Qed.

(** ** Exponents *)
Lemma exp_lower m e k :
  fvalid (S754_finite false m e) = true → 2 ^ (k + 1074) ≤ fv (S754_finite false m e) → k - 52 ≤ e.
Proof.
  intros (V1 & V2 & _)%valid_bounds H. cbn [fv] in H. apply Z.le_ngt. intros Hlt.
  assert (Zpos m * 2 ^ (e + 1074) < 2 ^ (k + 1074)); [|lia].
  apply (Z.lt_le_trans _ (2 ^ 53 * 2 ^ (e + 1074))).
  - apply Z.mul_lt_mono_pos_r; [apply Z.pow_pos_nonneg; lia|done].
  - rewrite <- Z.pow_add_r by lia. apply Z.pow_le_mono_r; lia.
Qed.

Lemma exp_upper m e k :
  fvalid (S754_finite false m e) = true → 2 ^ 52 ≤ Zpos m → fv (S754_finite false m e) ≤ 2 ^ (k + 1074) →
  e ≤ k - 52.
Proof.
  intros (_ & V2 & _)%valid_bounds Hm H. cbn [fv] in H.
  assert (2 ^ (52 + (e + 1074)) ≤ 2 ^ (k + 1074)) as Hle.
  { etransitivity; [|exact H]. rewrite Z.pow_add_r by lia.
    apply Z.mul_le_mono_nonneg_r; [by apply Z.pow_nonneg|done]. }
  destruct (Z.le_gt_cases 0 (k + 1074)).
  - apply Z.pow_le_mono_r_iff in Hle; lia.
  - rewrite (Z.pow_neg_r 2 (k + 1074)) in Hle by done.
    assert (0 < 2 ^ (52 + (e + 1074))) by (apply Z.pow_pos_nonneg; lia). lia.
Qed.

Lemma normal_between x a b :
  fnonneg x = true → -1000 ≤ a → 2 ^ (a + 1074) ≤ fv x ≤ 2 ^ (b + 1074) →
  ∃ m e, x = S754_finite false m e ∧ fvalid x = true ∧ 2 ^ 52 ≤ Zpos m < 2 ^ 53 ∧ a - 52 ≤ e ≤ b - 52.
Proof.
  intros Hx Ha [H1 H2]. destruct (fnonneg_inv x Hx) as [->|(m & e & -> & V)].
  { change (fv f64_zero) with 0 in H1. assert (0 < 2 ^ (a + 1074)) by (apply Z.pow_pos_nonneg; lia). lia. }
  pose proof (exp_lower m e a V H1). pose proof (proj1 (valid_bounds _ _ _) V) as (V1 & V2 & V3).
  destruct V3 as [->|V3]; [lia|]. pose proof (exp_upper m e b V V3 H2).
  exists m, e. repeat split; lia || done.
Qed.

(** ** Products *)
Lemma fmul_bounded x y a b :
  fnonneg x = true → fnonneg y = true → 0 ≤ a → 0 ≤ b → a + b ≤ 800 →
  fv x ≤ 2 ^ (a + 1074) → fv y ≤ 2 ^ (b + 1074) → fnonneg (fmul x y) = true.
Proof.
  intros Hx Hy Ha Hb Hab Lx Ly. destruct (fnonneg_inv x Hx) as [->|(mx & ex & -> & Vx)].
  { by rewrite fmul_zero_l. }
  destruct (fnonneg_inv y Hy) as [->|(my & ey & -> & Vy)]; [done|].
  assert (∀ m e k, 0 ≤ k → fvalid (S754_finite false m e) = true →
    fv (S754_finite false m e) ≤ 2 ^ (k + 1074) → Z.log2 (Zpos m) + e ≤ k) as HL.
  { clear. intros m e k Hk V L. pose proof (proj1 (valid_bounds _ _ _) V) as (V1 & V2 & V3).
    pose proof (log2_lt_pow (Zpos m) 53 ltac:(lia) ltac:(lia) V1).
    destruct V3 as [->|V3]; [lia|]. pose proof (exp_upper m e k V V3 L). lia. }
  pose proof (HL mx ex a Ha Vx Lx). pose proof (HL my ey b Hb Vy Ly).
  pose proof (Z.log2_mul_above (Zpos mx) (Zpos my) ltac:(lia) ltac:(lia)).
  destruct (round_aux_small (a + b + 2) (Zpos (mx * my)) (ex + ey) loc_Exact); [lia| | |lia|done].
  - by apply product_exp.
  - rewrite Pos2Z.inj_mul. lia.
Qed.

Lemma fmul_ge_one x y :
  fnonneg x = true → fnonneg y = true → ONE ≤ fv x → ONE ≤ fv y → fleb f64_one (fmul x y) = true.
Proof.
  intros Hx Hy Lx Ly. assert (0 < ONE) as HO by done.
  destruct (fnonneg_inv x Hx) as [->|(mx & ex & -> & Vx)]; [change (fv f64_zero) with 0 in Lx; lia|].
  destruct (fnonneg_inv y Hy) as [->|(my & ey & -> & Vy)]; [change (fv f64_zero) with 0 in Ly; lia|].
  pose proof (exp_lower mx ex 0 Vx Lx). pose proof (exp_lower my ey 0 Vy Ly).
  unfold fmul, SFmul. cbn [xorb]. rewrite round_aux_normalize by (by apply product_exp).
  apply normalize_ge; [lia|lia|done|]. rewrite fv_one, Pos2Z.inj_mul. cbn [fv] in Lx, Ly.
  assert (2 ^ (ex + 1074) * 2 ^ (ey + 1074) = 2 ^ (ex + ey + 1074) * ONE) as HP.
  { unfold ONE. rewrite <- !Z.pow_add_r by lia. f_equal. lia. }
  apply (Z.mul_le_mono_pos_r _ _ ONE HO).
  rewrite <- (Z.mul_assoc (Zpos mx * Zpos my)), <- HP, Z.mul_shuffle1.
  apply Z.mul_le_mono_nonneg; lia.
Qed.

(** At least one second, in seconds. *)
Lemma as_secs_f64_ge_one d : NANOS ≤ d < 2 ^ 64 * NANOS → ONE ≤ fv (as_secs_f64 d).
Proof.
  intros Hd. assert (0 < NANOS) as HN by done.
  destruct (as_secs_f64_nonneg d) as [H1 _]; [lia|].
  assert (1 ≤ d / NANOS) as Hs by (apply Z.div_le_lower_bound; lia).
  assert (fleb f64_one (as_secs_f64 d) = true) as H.
  { unfold as_secs_f64 in *. set (n := fdiv _ _) in *.
    destruct (f64_of_Z_nonneg (d / NANOS)) as [S1 _].
    { split; [lia|]. apply Z.lt_le_incl, Z.div_lt_upper_bound; lia. }
    assert (ONE ≤ fv (f64_of_Z (d / NANOS))) as S2.
    { rewrite <- fv_one. apply Z.leb_le. rewrite <- fleb_fv by done.
      apply normalize_ge; [lia|lia|done|]. rewrite fv_one. change (2 ^ (0 + 1074)) with ONE.
      assert (0 < ONE) by done. nia. }
    assert (fnonneg n = true) as Hn.
    { subst n. pose proof (Z.mod_pos_bound d NANOS HN). apply fdiv_nanos. done. }
    apply fadd_ge; [done..|]. rewrite fv_one. pose proof (fv_nonneg n). lia. }
  rewrite fleb_fv in H by done. apply Z.leb_le in H. by rewrite fv_one in H.
Qed.

(** ** What is missing to one *)
Lemma fsub_from_one x :
  fnonneg x = true → fv x < ONE →
  fnonneg (fsub f64_one x) = true ∧ 2 ^ (-53 + 1074) ≤ fv (fsub f64_one x) ≤ 2 ^ (0 + 1074).
Proof.
  intros Hx Hlt. destruct (fnonneg_inv x Hx) as [->|(m & e & -> & V)]; [by vm_compute|].
  pose proof (proj1 (valid_bounds _ _ _) V) as (V1 & V2 & V3).
  assert (e ≤ -53) as He.
  { apply Z.le_ngt. intros H. destruct V3 as [->|V3]; [lia|]. cbn [fv] in Hlt.
    assert (2 ^ 52 * 2 ^ (-52 + 1074) ≤ Zpos m * 2 ^ (e + 1074)) as Hle.
    { apply Z.mul_le_mono_nonneg; [lia|done|by vm_compute|apply Z.pow_le_mono_r; lia]. }
    change (2 ^ 52 * 2 ^ (-52 + 1074)) with ONE in Hle. lia. }
  assert (fv (S754_finite false m e) ≤ ONE - 2 ^ (-53 + 1074)) as Hb.
  { cbn [fv]. change (ONE - 2 ^ (-53 + 1074)) with ((2 ^ 53 - 1) * 2 ^ (-53 + 1074)).
    apply Z.mul_le_mono_nonneg; [lia|lia|by apply Z.pow_nonneg|apply Z.pow_le_mono_r; lia]. }
  change f64_one with (S754_finite false 4503599627370496 (-52)). unfold fsub, SFsub. cbv zeta.
  replace (Z.min (-52) e) with e by lia. cbn [cond_Zopp].
  pose proof (aligned 4503599627370496 (-52) e ltac:(lia)) as A1.
  pose proof (aligned m e e ltac:(lia)) as A2. change (4503599627370496 * 2 ^ (-52 + 1074)) with ONE in A1.
  set (a := (shl_align 4503599627370496 (-52) e).1) in *. set (c := (shl_align m e e).1) in *.
  change (Zpos m * 2 ^ (e + 1074)) with (fv (S754_finite false m e)) in A2.
  assert (0 < 2 ^ (e + 1074)) as HP by (apply Z.pow_pos_nonneg; lia).
  assert ((Zpos a - Zpos c) * 2 ^ (e + 1074) = ONE - fv (S754_finite false m e)) as HE
    by (rewrite Z.mul_sub_distr_r, A1, A2; done).
  assert (0 < Zpos a - Zpos c) as Hpos.
  { apply (Z.mul_pos_cancel_r _ (2 ^ (e + 1074)) HP). lia. }
  pose proof (fv_nonneg (S754_finite false m e)) as H0.
  destruct (normalize_le (Zpos a - Zpos c) e f64_one) as [N1 N2]; [lia|lia|done|rewrite fv_one; lia|].
  destruct (representable 1 (-53)) as (z & Hz & Ez); [done|done|]. rewrite Z.mul_1_l in Ez.
  pose proof (normalize_ge (Zpos a - Zpos c) e z ltac:(lia) ltac:(lia) Hz ltac:(lia)) as N3.
  rewrite fleb_fv in N3 by done. apply Z.leb_le in N3. rewrite fv_one in N2.
  split; [done|]. split; [lia|done].
Qed.

(** A duration of at most [B] nanoseconds. *)
Lemma round_half_even_le n d B : 0 ≤ n → 0 < d → n ≤ B * d → 0 ≤ round_half_even n d ≤ B.
Proof.
  intros Hn Hd HB. unfold round_half_even. cbv zeta.
  pose proof (Z.div_mod n d ltac:(lia)). pose proof (Z.mod_pos_bound n d Hd).
  pose proof (Z.div_pos n d Hn Hd).
  destruct (Z.ltb_spec d (2 * (n mod d))); simpl; [nia|].
  destruct (Z.eqb_spec (2 * (n mod d)) d); simpl; [|nia]. destruct (Z.odd _); nia.
Qed.

Lemma from_secs_f64_returns x B :
  fnonneg x = true → fv x * NANOS ≤ B * ONE → B < 2 ^ 64 * NANOS →
  ∃ ns, from_secs_f64 x = Returns ns ∧ 0 ≤ ns ≤ B.
Proof.
  intros Hx HB HM. assert (0 < ONE) as HO by done. assert (0 < NANOS) as HN by done.
  destruct (fnonneg_inv x Hx) as [->|(m & e & -> & V)].
  { exists 0. change (fv f64_zero) with 0 in HB. split; [done|]. nia. }
  pose proof (proj1 (valid_bounds _ _ _) V) as (V1 & V2 & V3). cbn [from_secs_f64 fv] in *. cbv zeta.
  assert (0 ≤ (if 0 <=? e then Zpos m * 2 ^ e * NANOS else round_half_even (Zpos m * NANOS) (2 ^ (- e))) ≤ B)
    as Hns.
  { destruct (Z.leb_spec 0 e) as [He|He].
    - assert (0 ≤ 2 ^ e) by (by apply Z.pow_nonneg). split; [nia|].
      apply (Z.mul_le_mono_pos_r _ _ ONE HO). rewrite Z.pow_add_r in HB by lia. unfold ONE in *. lia.
    - assert (0 < 2 ^ (- e)) by (apply Z.pow_pos_nonneg; lia).
      assert (0 < 2 ^ (e + 1074)) as HP by (apply Z.pow_pos_nonneg; lia).
      assert (ONE = 2 ^ (- e) * 2 ^ (e + 1074)) as HE.
      { unfold ONE. rewrite <- Z.pow_add_r by lia. f_equal. lia. }
      apply round_half_even_le; [lia|done|]. apply (Z.mul_le_mono_pos_r _ _ (2 ^ (e + 1074)) HP). lia. }
  eexists. split; [|exact Hns]. match goal with |- context [?a <? U64_MOD] => assert (a < U64_MOD) as Hd end.
  { apply Z.div_lt_upper_bound; [done|]. change U64_MOD with (2 ^ 64). lia. }
  apply Z.ltb_lt in Hd. by rewrite Hd.
Qed.

Lemma fmin_cut x b :
  fnonneg x = true ∨ x = S754_infinity false → fnonneg b = true → fleb b x = true → fmin x b = b.
Proof.
  intros Hx Hb Hle. destruct Hx as [Hx| ->].
  - pose proof (fleb_fv x b Hx Hb) as Hc. rewrite (fleb_fv b x Hb Hx) in Hle. apply Z.leb_le in Hle.
    unfold fleb, SFleb in Hc. unfold fmin. destruct (SFcompare x b) as [[]|] eqn:E; [| |done|].
    + destruct (fnonneg_inv x Hx) as [->|(m & e & -> & _)], (fnonneg_inv b Hb) as [->|(m' & e' & -> & _)];
        try done. cbn [SFcompare] in E.
      destruct (Z.compare_spec e e') as [->|?|?]; [|done|done].
      destruct (Pos.compare_cont Eq m m') eqn:Em; try done. by apply Pos.compare_eq in Em as ->.
    + exfalso. symmetry in Hc. apply Z.leb_le in Hc.
      destruct (fnonneg_inv x Hx) as [->|(m & e & -> & Vx)], (fnonneg_inv b Hb) as [->|(m' & e' & -> & Vb)];
        try done; [pose proof (fv_pos _ _ Vb); change (fv f64_zero) with 0 in Hle; lia|].
      cbn [SFcompare] in E. destruct (Z.compare_spec e e') as [->|Hlt|Hlt]; [|
        pose proof (valid_exp_lt m e m' e' Vx Vb Hlt); cbn [fv] in *; lia|done].
      apply valid_bounds in Vx as (_ & V & _). cbn [fv] in *.
      assert (0 < 2 ^ (e' + 1074)) by (apply Z.pow_pos_nonneg; lia).
      destruct (Pos.compare_cont Eq m m') eqn:Em; try done. apply Pos.compare_lt_iff, Pos2Z.pos_lt_pos in Em.
      apply (Z.mul_lt_mono_pos_r (2 ^ (e' + 1074))) in Em; lia.
    + by destruct (fnonneg_inv x Hx) as [->|(m & e & -> & _)],
        (fnonneg_inv b Hb) as [->|(m' & e' & -> & _)].
  - by destruct (fnonneg_inv b Hb) as [->|(m' & e' & -> & _)].
Qed.
