(* ===== verification/FloatError.v ===== *)
(** * Rounding errors

    Upper bounds for the operations of [Float64] on numbers that are not
    negative: a result exceeds the exact one by at most a factor of
    1 + 2^-52, products that are nearly zero by one unit of 2^-1074.  For
    [as_secs_f64] and products with a duration the factors add up. *)

From Stdlib Require Import ZArith Lia SpecFloat.
From stdpp Require Import base option list.
From S2P Require Import Prelude Float64.

(** 2^52, and the factor by which a result can exceed the exact one. *)
Definition P52 : Z := 2 ^ 52.
Definition Q52 : Z := 2 ^ 52 + 1.

(** One step of a number with at least 53 digits is at most its 2^52th part. *)
Lemma step_bound q F W N :
  0 < W → (q = F ∨ q = F + 1) → P52 ≤ F → F * W ≤ N → P52 * (q * W) ≤ Q52 * N.
Proof.
  intros HW Hq HF HN. unfold P52, Q52 in *. set (P := 2 ^ 52) in *. assert (0 < P) by done. clearbody P.
  destruct Hq as [->| ->]; nia.
Qed.

Lemma normalize_upper n e :
  0 ≤ n → -1074 ≤ e → fnonneg (binary_normalize 53 1024 n e false) = true →
  P52 * fv (binary_normalize 53 1024 n e false) ≤ Q52 * (n * 2 ^ (e + 1074)).
Proof.
  intros Hn He Hf. destruct n as [|m|m]; [done| |lia]. simpl in Hf. change (binary_normalize 53 1024 (Zpos m) e false)
    with (binary_round 53 1024 false m e).
  destruct (round_split m e He) as (q & F & t & Ht & H0 & Hq & Hq53 & Hn52 & HF & HN & Hex & E). rewrite E in *.
  destruct (finish_value q t) as [Hi| ->]; [lia|lia|by rewrite Hi in Hf|].
  set (N := Zpos m * 2 ^ (e + 1074)) in *. assert (0 < 2 ^ (t + 1074)) as HW by (apply Z.pow_pos_nonneg; lia).
  destruct Hn52 as [->|H52]; [|apply (step_bound q F); [done|done|done|lia]].
  change (2 ^ (-1074 + 1074)) with 1 in *. rewrite (Hex ltac:(lia)). assert (F = N) as -> by lia.
  unfold P52, Q52. assert (0 ≤ N) by lia. nia.
Qed.

Lemma fadd_upper x y :
  fnonneg x = true → fnonneg y = true → fnonneg (fadd x y) = true →
  P52 * fv (fadd x y) ≤ Q52 * (fv x + fv y).
Proof.
  intros Hx Hy Hf. pose proof (fv_nonneg x). pose proof (fv_nonneg y). assert (P52 < Q52) by done.
  destruct (fnonneg_inv x Hx) as [->|(mx & ex & -> & Vx)].
  { rewrite fadd_zero_l by done. change (fv f64_zero) with 0. nia. }
  destruct (fnonneg_inv y Hy) as [->|(my & ey & -> & Vy)].
  { unfold f64_zero in *. rewrite fadd_zero_r by done. change (fv (S754_zero false)) with 0. nia. }
  destruct (fadd_finite mx ex my ey Vx Vy) as (n & e & Hn & He & E & Es). rewrite Es in *. rewrite <- E.
  by apply normalize_upper.
Qed.

Lemma f64_of_Z_upper n : 0 ≤ n ≤ 2 ^ 64 → P52 * fv (f64_of_Z n) ≤ Q52 * (n * ONE).
Proof.
  intros Hn. change ONE with (2 ^ (0 + 1074)). apply normalize_upper; [lia|lia|]. by apply f64_of_Z_nonneg.
Qed.

(** A mantissa that is rounded, whatever was cut off before. *)
Lemma round_aux_split m e l :
  0 < m → e ≤ fexp 53 1024 (Z.log2 m + 1 + e) → fnonneg (binary_round_aux 53 1024 false m e l) = true →
  ∃ q F t, (q = F ∨ q = F + 1) ∧ (t = -1074 ∨ P52 ≤ F) ∧ 0 ≤ F ∧ e ≤ t ∧ -1074 ≤ t ∧ F * 2 ^ (t - e) ≤ m ∧
    t = fexp 53 1024 (Z.log2 m + 1 + e) ∧
    fv (binary_round_aux 53 1024 false m e l) = q * 2 ^ (t + 1074).
Proof.
  intros Hm He Hf. destruct (round_aux_loc false m e l Hm He) as (q & Hq & _ & E). rewrite E in *.
  destruct (shift_bounds m e Hm He) as (B1 & B2 & B3). set (t := fexp 53 1024 (Z.log2 m + 1 + e)) in *.
  assert (0 < 2 ^ (t - e)) as HW by (apply Z.pow_pos_nonneg; lia).
  exists q, (m / 2 ^ (t - e)), t. repeat (split; [done || lia|]).
  split; [rewrite Z.mul_comm; apply Z.mul_div_le; lia|]. split; [done|].
  destruct (finish_value q t) as [Hi|Hv]; [lia|lia|by rewrite Hi in Hf|done].
Qed.

Lemma fmul_upper x y :
  fnonneg x = true → fnonneg y = true → fnonneg (fmul x y) = true →
  P52 * (fv (fmul x y) * ONE) ≤ Q52 * (fv x * fv y) + P52 * ONE.
Proof.
  intros Hx Hy Hf. pose proof (fv_nonneg x) as X0. pose proof (fv_nonneg y) as Y0.
  assert (0 < ONE) as HO by done. assert (0 < P52) as HP by done. assert (0 < Q52) as HQ by done.
  assert (∀ z, fv z = 0 → P52 * (fv z * ONE) ≤ Q52 * (fv x * fv y) + P52 * ONE) as Hzero.
  { intros z ->. pose proof (Z.mul_nonneg_nonneg _ _ X0 Y0). nia. }
  destruct (fnonneg_inv x Hx) as [->|(mx & ex & -> & Vx)]; [by apply Hzero; rewrite fmul_zero_l|].
  destruct (fnonneg_inv y Hy) as [->|(my & ey & -> & Vy)]; [by apply Hzero|]. clear Hzero.
  pose proof (proj1 (valid_bounds _ _ _) Vx) as (_ & Ex & _). pose proof (proj1 (valid_bounds _ _ _) Vy) as (_ & Ey & _).
  pose proof (product_exp mx ex my ey Vx Vy) as He.
  change (fmul (S754_finite false mx ex) (S754_finite false my ey)) with
    (binary_round_aux 53 1024 false (Zpos (mx * my)) (ex + ey) loc_Exact) in *.
  destruct (round_aux_split (Zpos (mx * my)) (ex + ey) loc_Exact ltac:(lia) He Hf)
    as (q & F & t & Hq & H52 & HF & Het & Ht & HFm & _ & ->).
  assert (2 ^ (t + 1074) * ONE = 2 ^ (t - (ex + ey)) * 2 ^ (ex + ey + 2148)) as HW.
  { unfold ONE. rewrite <- !Z.pow_add_r by lia. f_equal. lia. }
  assert (fv (S754_finite false mx ex) * fv (S754_finite false my ey) =
    Zpos (mx * my) * 2 ^ (ex + ey + 2148)) as HV.
  { cbn [fv]. rewrite Pos2Z.inj_mul, Z.mul_shuffle1, <- Z.pow_add_r by lia. f_equal. f_equal. lia. }
  rewrite HV, <- Z.mul_assoc, HW. set (m := Zpos (mx * my)) in *. set (V := 2 ^ (ex + ey + 2148)) in *.
  assert (0 < V) as HV0 by (apply Z.pow_pos_nonneg; lia).
  assert (0 < 2 ^ (t - (ex + ey))) as HW0 by (apply Z.pow_pos_nonneg; lia).
  set (W := 2 ^ (t - (ex + ey))) in *.
  assert (F * (W * V) ≤ m * V) as Hexact by (rewrite Z.mul_assoc; apply Z.mul_le_mono_nonneg_r; lia).
  destruct H52 as [->|H52].
  - change (2 ^ (-1074 + 1074)) with 1 in HW. rewrite Z.mul_1_l in HW. rewrite <- HW in *.
    assert (P52 < Q52) by done. assert (0 ≤ m * V) by lia. clearbody m V W.
    destruct Hq as [->| ->]; nia.
  - pose proof (step_bound q F (W * V) (m * V) ltac:(lia) Hq H52 Hexact). nia.
Qed.

(** ** Durations *)
Lemma fdiv_upper mx ex my ey :
  P52 ≤ Zpos mx < 2 ^ 53 → P52 ≤ Zpos my < 2 ^ 53 → -52 ≤ ex ≤ 0 → -52 ≤ ey ≤ 0 →
  let x := S754_finite false mx ex in
  let y := S754_finite false my ey in
  P52 * (fv (fdiv x y) * fv y) ≤ Q52 * (fv x * ONE).
Proof.
  intros Hx Hy Ex Ey x y. unfold P52 in Hx, Hy.
  destruct (fdiv_normal 64 mx ex my ey Hx Hy ltac:(lia) ltac:(lia) ltac:(lia)) as [Hf _]. fold x y in Hf.
  revert Hf. unfold fdiv, SFdiv, SFdiv_core_binary, x, y.
  assert (∀ p, 2 ^ 52 ≤ Zpos p < 2 ^ 53 → Zdigits2 (Zpos p) = 53) as HD.
  { intros p Hp. rewrite Zdigits2_log2 by lia. assert (Z.log2 (Zpos p) = 52); [|lia].
    apply Z.log2_unique; [done|]. exact Hp. }
  rewrite !HD by done. cbv zeta. rewrite fexp_eq.
  replace (Z.min (Z.max (53 + ex - (53 + ey) - 53) (-1074)) (ex - ey)) with (ex - ey - 53) by lia.
  replace (ex - ey - (ex - ey - 53)) with 53 by lia.
  assert (2 ^ 52 ≤ Z.shiftl (Zpos mx) 53 / Zpos my) as Hq.
  { rewrite Z.shiftl_mul_pow2 by lia. apply Z.div_le_lower_bound; [lia|]. lia. }
  assert (Z.shiftl (Zpos mx) 53 / Zpos my * Zpos my ≤ Zpos mx * 2 ^ 53) as Hqm.
  { rewrite Z.mul_comm, <- Z.shiftl_mul_pow2 by lia. apply Z.mul_div_le. lia. }
  unfold Z.div in Hq, Hqm. destruct (Z.div_eucl _ _) as [q r]. set (l := new_location _ _). clearbody l. cbn [xorb].
  pose proof (proj1 (Z.log2_le_pow2 q 52 ltac:(lia)) Hq) as Hlog.
  destruct q as [|q|q]; [simpl in *; lia| |simpl in *; lia]. intros Hf.
  destruct (round_aux_split (Zpos q) (ex - ey - 53) l ltac:(lia) ltac:(rewrite fexp_eq; lia) Hf)
    as (k & F & t & Hk & H52 & HF & Het & Ht & HFm & Et & ->).
  rewrite fexp_eq in Et. destruct H52 as [H52|H52]; [lia|]. cbn [fv].
  assert (0 < 2 ^ (t - (ex - ey - 53))) as HW by (apply Z.pow_pos_nonneg; lia).
  assert (2 ^ (t + 1074) * 2 ^ (ey + 1074) = 2 ^ (t - (ex - ey - 53)) * 2 ^ (ex - 53 + 2148)) as E1
    by (rewrite <- !Z.pow_add_r by lia; f_equal; lia).
  assert (2 ^ 53 * 2 ^ (ex - 53 + 2148) = 2 ^ (ex + 1074) * ONE) as E2
    by (unfold ONE; rewrite <- !Z.pow_add_r by lia; f_equal; lia).
  set (W := 2 ^ (t - (ex - ey - 53))) in *. set (V := 2 ^ (ex - 53 + 2148)) in *.
  assert (0 < V) as HV by (apply Z.pow_pos_nonneg; lia).
  replace (k * 2 ^ (t + 1074) * (Zpos my * 2 ^ (ey + 1074)))
    with (k * (Zpos my * (2 ^ (t + 1074) * 2 ^ (ey + 1074)))) by lia. rewrite E1.
  rewrite <- (Z.mul_assoc (Zpos mx)), <- E2, (Z.mul_assoc (Zpos mx)).
  apply (step_bound k F (Zpos my * (W * V))); [lia|done|done|].
  transitivity (Zpos q * Zpos my * V); [|apply Z.mul_le_mono_nonneg_r; lia].
  replace (F * (Zpos my * (W * V))) with (F * W * (Zpos my * V)) by lia.
  rewrite <- (Z.mul_assoc (Zpos q)). apply Z.mul_le_mono_nonneg_r; lia.
Qed.

Lemma fdiv_nanos_upper n :
  0 ≤ n < NANOS → P52 * (fv (fdiv (f64_of_Z n) (f64_of_Z NANOS)) * NANOS) ≤ Q52 * (n * ONE).
Proof.
  intros Hn. destruct (Z.eq_dec n 0) as [->|H0]; [by vm_compute|].
  destruct (f64_of_Z_exact n) as [_ Vn]; [unfold NANOS in *; lia|].
  destruct (f64_of_Z_exact NANOS) as [_ VN]; [done|].
  destruct (f64_of_Z_normal n) as (m & e & E & Hm1 & He); [unfold NANOS in *; lia|].
  destruct (f64_of_Z_normal NANOS) as (m' & e' & E' & Hm2 & He'); [done|].
  rewrite E, E' in *. pose proof (fdiv_upper m e m' e' Hm1 Hm2 He He') as H. cbv zeta in H. rewrite Vn, VN in H.
  assert (0 < ONE) as HO by done. apply (Z.mul_le_mono_pos_r _ _ ONE HO). lia.
Qed.

(** A duration in seconds exceeds the exact quotient by two roundings. *)
Lemma as_secs_f64_upper d :
  0 ≤ d < 2 ^ 64 * NANOS → P52 * P52 * (fv (as_secs_f64 d) * NANOS) ≤ Q52 * Q52 * (d * ONE).
Proof.
  intros Hd. assert (0 < NANOS) as HN by done. destruct (as_secs_f64_nonneg d Hd) as [Hf _].
  unfold as_secs_f64 in *.
  assert (0 ≤ d / NANOS ≤ 2 ^ 64) as Hs.
  { split; [apply Z.div_pos; lia|]. apply Z.lt_le_incl, Z.div_lt_upper_bound; lia. }
  pose proof (Z.mod_pos_bound d NANOS HN) as Hm.
  pose proof (fadd_upper _ _ (proj1 (f64_of_Z_nonneg _ Hs)) (proj1 (fdiv_nanos _ Hm)) Hf) as HA.
  pose proof (f64_of_Z_upper _ Hs) as HS. pose proof (fdiv_nanos_upper _ Hm) as HD.
  pose proof (Z.div_mod d NANOS ltac:(lia)) as Hdm.
  set (r := fv (fadd _ _)) in *. set (s := fv (f64_of_Z (d / NANOS))) in *. set (n := fv (fdiv _ _)) in *.
  assert (0 < P52) as HP by done. assert (0 < Q52) as HQ by done.
  assert (P52 * ((s + n) * NANOS) ≤ Q52 * (d * ONE)) as H1.
  { replace (Q52 * (d * ONE)) with (Q52 * (d / NANOS * ONE) * NANOS + Q52 * (d mod NANOS * ONE))
      by (rewrite Hdm at 3; ring).
    replace (P52 * ((s + n) * NANOS)) with (P52 * s * NANOS + P52 * (n * NANOS)) by ring.
    apply Z.add_le_mono; [|done]. apply Z.mul_le_mono_nonneg_r; lia. }
  transitivity (P52 * (Q52 * (s + n) * NANOS)).
  - replace (P52 * P52 * (r * NANOS)) with (P52 * (P52 * r * NANOS)) by ring.
    apply Z.mul_le_mono_nonneg_l; [lia|]. apply Z.mul_le_mono_nonneg_r; lia.
  - replace (P52 * (Q52 * (s + n) * NANOS)) with (Q52 * (P52 * ((s + n) * NANOS))) by ring.
    rewrite <- (Z.mul_assoc Q52 Q52). apply Z.mul_le_mono_nonneg_l; lia.
Qed.

(** Three roundings are less than a factor of 1 + 2^-50. *)
Definition P50 : Z := 2 ^ 50.
Lemma three_roundings : Q52 * Q52 * Q52 * P50 ≤ P52 * P52 * P52 * (P50 + 1).
Proof. by vm_compute. Qed.

(** A duration times a rate. *)
Lemma fmul_secs_upper d x :
  0 ≤ d < 2 ^ 64 * NANOS → fnonneg x = true → fnonneg (fmul (as_secs_f64 d) x) = true →
  P50 * NANOS * fv (fmul (as_secs_f64 d) x) ≤ (P50 + 1) * (d * fv x) + P50 * NANOS.
Proof.
  intros Hd Hx Hf. destruct (as_secs_f64_nonneg d Hd) as [He _].
  pose proof (fmul_upper _ _ He Hx Hf) as HM. pose proof (as_secs_f64_upper d Hd) as HE.
  set (g := fv (fmul _ _)) in *. set (s := fv (as_secs_f64 d)) in *. set (R := fv x) in *.
  assert (0 ≤ R) as HR by apply fv_nonneg. assert (0 < ONE) as HO by done.
  assert (0 < P52) as HP by done. assert (0 < Q52) as HQ by done. assert (0 < P50) as HP5 by done.
  assert (0 < NANOS) as HN by done. pose proof three_roundings as H3.
  assert (P52 * P52 * P52 * NANOS * g * ONE ≤ (Q52 * Q52 * Q52 * (d * R) + P52 * P52 * P52 * NANOS) * ONE) as H1.
  { transitivity (P52 * P52 * NANOS * (Q52 * (s * R) + P52 * ONE)).
    - replace (P52 * P52 * P52 * NANOS * g * ONE) with (P52 * P52 * NANOS * (P52 * (g * ONE))) by ring.
      apply Z.mul_le_mono_nonneg_l; [|done]. repeat apply Z.mul_nonneg_nonneg; lia.
    - replace (P52 * P52 * NANOS * (Q52 * (s * R) + P52 * ONE))
        with (P52 * P52 * (s * NANOS) * (Q52 * R) + P52 * P52 * P52 * NANOS * ONE) by ring.
      replace ((Q52 * Q52 * Q52 * (d * R) + P52 * P52 * P52 * NANOS) * ONE)
        with (Q52 * Q52 * (d * ONE) * (Q52 * R) + P52 * P52 * P52 * NANOS * ONE) by ring.
      apply Z.add_le_mono_r. apply Z.mul_le_mono_nonneg_r; [|done]. apply Z.mul_nonneg_nonneg; lia. }
  apply (Z.mul_le_mono_pos_r _ _ ONE HO) in H1.
  set (C := P52 * P52 * P52) in *. assert (0 < C) as HC by done. set (D := Q52 * Q52 * Q52) in *.
  apply (Z.mul_le_mono_pos_l _ _ C HC).
  assert (0 ≤ d * R) as HdR by (apply Z.mul_nonneg_nonneg; lia). set (dR := d * R) in *.
  transitivity (P50 * (D * dR + C * NANOS)).
  - replace (C * (P50 * NANOS * g)) with (P50 * (C * NANOS * g)) by ring. apply Z.mul_le_mono_nonneg_l; lia.
  - replace (P50 * (D * dR + C * NANOS)) with (D * P50 * dR + C * (P50 * NANOS)) by ring.
    replace (C * ((P50 + 1) * dR + P50 * NANOS)) with (C * (P50 + 1) * dR + C * (P50 * NANOS)) by ring.
    apply Z.add_le_mono_r, Z.mul_le_mono_nonneg_r; lia.
Qed.
