(* ===== verification/FloatText.v ===== *)
(** * Floating point numbers as text

    What [format!] prints for an [f64]: [show_f64] is [{}], the shortest decimal
    that reads back as the same number (the nearest one of that length), never
    with an exponent; [show_f64_2] is [{:.2}], the exact value rounded to two
    decimals, ties to even. *)

From Stdlib Require Import ZArith Lia SpecFloat.
From Stdlib.Strings Require Import Byte.
From stdpp Require Import base option list strings.
From S2P Require Import Prelude Bytes Text Float64.

(** The number [m * 2^e] as a fraction. *)
Definition frac_num (m : positive) (e : Z) : Z := Zpos m * 2 ^ Z.max e 0.
Definition frac_den (e : Z) : Z := 2 ^ Z.max (- e) 0.

(** The [p] with 10^(p-1) <= n/d < 10^p.  An [f64] has less than 310 digits
    before the point and less than 324 zeros after it. *)
Fixpoint int_digits (fuel : nat) (n : Z) : Z :=
  match fuel with O => 0 | S fuel => if n <? 10 then 1 else 1 + int_digits fuel (n / 10) end.
Fixpoint lead_zeros (fuel : nat) (n d : Z) : Z :=
  match fuel with O => 0 | S fuel => if d <=? n * 10 then 0 else 1 + lead_zeros fuel (n * 10) d end.
Definition magnitude (n d : Z) : Z :=
  if d <=? n then int_digits 400 (n / d) else - lead_zeros 400 n d.

(** The number nearest to [D * 10^q], for a positive [D]. *)
Definition of_decimal (D q : Z) : f64 :=
  if 0 <=? q then binary_normalize 53 1024 (D * 10 ^ q) 0 false
  else let '(m, e, l) := SFdiv_core_binary 53 1024 D 0 (10 ^ (- q)) 0 in binary_round_aux 53 1024 false m e l.

(** The shortest [D * 10^q] that reads back as [x = n/d], with [k] digits or more. *)
Fixpoint shortest (fuel : nat) (x : f64) (n d p k : Z) : Z * Z :=
  let q := p - k in
  let a := n * 10 ^ Z.max (- q) 0 in
  let b := d * 10 ^ Z.max q 0 in
  let lo := a / b in
  let lo_ok := (0 <? lo) && SFeqb (of_decimal lo q) x in
  let hi_ok := SFeqb (of_decimal (lo + 1) q) x in
  let near := if 2 * (a mod b) <? b then lo else lo + 1 in
  match fuel with
  | O => (near, q)
  | S fuel =>
      if lo_ok && hi_ok then (near, q)
      else if lo_ok then (lo, q)
      else if hi_ok then (lo + 1, q)
      else shortest fuel x n d p (k + 1)
  end.

Definition show_decimal (D q : Z) : string :=
  if 0 <=? q then (show_dec D ++ of_bytes (repeat x30 (Z.to_nat q)))%string
  else (show_dec (D / 10 ^ (- q)) ++ "." ++
        of_bytes (map digit_byte (pad (Z.to_nat (- q)) (digits 10 (D mod 10 ^ (- q))))))%string.

Definition sign_text (s : bool) : string := if s then "-" else "".

Definition show_f64 (x : f64) : string :=
  match x with
  | S754_nan => "NaN"
  | S754_infinity s => (sign_text s ++ "inf")%string
  | S754_zero s => (sign_text s ++ "0")%string
  | S754_finite s m e =>
      let n := frac_num m e in
      let d := frac_den e in
      let '(D, q) := shortest 17 (S754_finite false m e) n d (magnitude n d) 1 in
      (sign_text s ++ show_decimal D q)%string
  end.

Definition show_f64_2 (x : f64) : string :=
  match x with
  | S754_nan => "NaN"
  | S754_infinity s => (sign_text s ++ "inf")%string
  | S754_zero s => (sign_text s ++ "0.00")%string
  | S754_finite s m e =>
      (sign_text s ++ show_decimal (round_half_even (frac_num m e * 100) (frac_den e)) (-2))%string
  end.

Example show_f64_tenth : show_f64 (fdiv (f64_of_Z 1) (f64_of_Z 10)) = "0.1"%string.
Proof. vm_compute. reflexivity. Qed.
Example show_f64_sum :
  show_f64 (fadd (fdiv (f64_of_Z 1) (f64_of_Z 10)) (fdiv (f64_of_Z 2) (f64_of_Z 10))) = "0.30000000000000004"%string.
Proof. vm_compute. reflexivity. Qed.
Example show_f64_large : show_f64 (f64_of_Z (2 ^ 70)) = "1180591620717411300000"%string.
Proof. vm_compute. reflexivity. Qed.
Example show_f64_2_tie : show_f64_2 (fdiv (f64_of_Z 9) (f64_of_Z 8)) = "1.12"%string.
Proof. vm_compute. reflexivity. Qed.
