(* ===== verification/RateLimit.v ===== *)
(** * Rate limiting

    [src/common/ratelimit.rs]: the token bucket of a client, the limiter that
    keeps one per address, and the middleware.  Every reading of the clock is an
    argument ([check] reads it once more when it makes a bucket).  The limiter
    is behind a [Mutex]: a panic while it is held poisons it, and every later
    [lock().unwrap()] panics. *)

From Stdlib Require Import ZArith Lia SpecFloat.
From stdpp Require Import base option list gmap strings.
From S2P Require Import Prelude Bytes Text Float64 FloatError.

Record RateLimitConfig := mkRateConfig {
  burst_size : Z;
  requests_per_second : f64;
  window_duration : Z;
  rate_enabled : bool;
}.
Definition RateLimitConfig_default : RateLimitConfig :=
  mkRateConfig 100 (f64_of_Z 50) (60 * NANOS) true.

Record TokenBucket := mkBucket {
  tokens : f64;
  last_refill : Z;
  b_burst_size : Z;
  refill_rate : f64;
}.
Definition TokenBucket_new (now burst : Z) (rate : f64) : TokenBucket :=
  mkBucket (f64_of_Z burst) now burst rate.

Definition refill (now : Z) (b : TokenBucket) : TokenBucket :=
  let elapsed := as_secs_f64 (duration_since now (last_refill b)) in
  mkBucket (fmin (fadd (tokens b) (fmul elapsed (refill_rate b))) (f64_of_Z (b_burst_size b)))
    now (b_burst_size b) (refill_rate b).

Definition try_consume (now : Z) (b : TokenBucket) : TokenBucket * bool :=
  let b := refill now b in
  if fleb f64_one (tokens b)
  then (mkBucket (fsub (tokens b) f64_one) (last_refill b) (b_burst_size b) (refill_rate b), true)
  else (b, false).

Definition remaining (b : TokenBucket) : Z := f64_to_uint (U32_MOD - 1) (tokens b).

Definition retry_after (b : TokenBucket) : may_panic Z :=
  if fleb f64_one (tokens b) then Returns 0
  else from_secs_f64 (fdiv (fsub f64_one (tokens b)) (refill_rate b)).

Record RateLimiter := mkLimiter {
  rl_buckets : gmap string TokenBucket;
  rl_poisoned : bool;
  rl_config : RateLimitConfig;
}.
Inductive RateLimitResult :=
  | Allowed (remaining limit : Z)
  | Limited (retry_after limit : Z).
Record RateLimitStats := mkRateStats { tracked_ips : Z; rs_config : RateLimitConfig }.

Definition RateLimiter_new (config : RateLimitConfig) : RateLimiter := mkLimiter ∅ false config.

(** The entry of [ip], made where there is none. *)
Definition bucket_of (now_new : Z) (ip : string) (rl : RateLimiter) : TokenBucket :=
  match rl_buckets rl !! ip with
  | Some b => b
  | None => TokenBucket_new now_new (burst_size (rl_config rl)) (requests_per_second (rl_config rl))
  end.

Definition check (now_new now : Z) (ip : string) (rl : RateLimiter)
    : RateLimiter * may_panic RateLimitResult :=
  let config := rl_config rl in
  if negb (rate_enabled config) then (rl, Returns (Allowed (burst_size config) (burst_size config))) else
  if rl_poisoned rl then (rl, Panics) else
  let '(b, ok) := try_consume now (bucket_of now_new ip rl) in
  let buckets := <[ip := b]> (rl_buckets rl) in
  if ok then (mkLimiter buckets false config, Returns (Allowed (remaining b) (burst_size config)))
  else match retry_after b with
       | Returns d => (mkLimiter buckets false config, Returns (Limited d (burst_size config)))
       | Panics => (mkLimiter buckets true config, Panics)
       end.

Definition cleanup (now : Z) (rl : RateLimiter) : RateLimiter * may_panic unit :=
  if rl_poisoned rl then (rl, Panics) else
  (mkLimiter
     (filter (λ kb, duration_since now (last_refill kb.2) < window_duration (rl_config rl)) (rl_buckets rl))
     false (rl_config rl), Returns tt).

Definition limiter_stats (rl : RateLimiter) : may_panic RateLimitStats :=
  if rl_poisoned rl then Panics
  else Returns (mkRateStats (Z.of_nat (size (rl_buckets rl))) (rl_config rl)).

(** ** The middleware

    A response: its status, its headers (by lower case name) and its body. *)
Record HttpResponse := mkHttpResponse {
  hr_status : Z; hr_headers : gmap string string; hr_body : string }.
Definition insert_header (k v : string) (r : HttpResponse) : HttpResponse :=
  mkHttpResponse (hr_status r) (<[k := v]> (hr_headers r)) (hr_body r).
Definition TOO_MANY_REQUESTS : Z := 429.

(** [addr.ip().to_string()] is [ip]; [next] is the rest of the stack. *)
Definition rate_limit_middleware {Req St : Type} (now_new now : Z) (ip : string)
    (next : Req → St → St * HttpResponse) (request : Req) (st : RateLimiter * St)
    : (RateLimiter * St) * may_panic HttpResponse :=
  let '(rl, s) := st in
  match check now_new now ip rl with
  | (rl, Returns (Allowed remaining limit)) =>
      let '(s, response) := next request s in
      ((rl, s), Returns (insert_header "x-ratelimit-remaining" (show_dec remaining)
                          (insert_header "x-ratelimit-limit" (show_dec limit) response)))
  | (rl, Returns (Limited retry_after limit)) =>
      ((rl, s), Returns (insert_header "retry-after" (show_dec (as_secs retry_after))
                          (insert_header "x-ratelimit-remaining" "0"
                            (insert_header "x-ratelimit-limit" (show_dec limit)
                              (mkHttpResponse TOO_MANY_REQUESTS ∅ "Too Many Requests")))))
  | (rl, Panics) => ((rl, s), Panics)
  end.

(** 2^-52 tokens, in units of 2^-1074. *)
Definition STEP : Z := 2 ^ 1022.

(** ** The invariant

    Every bucket holds between zero and [burst_size] tokens, and was made with
    the limits of the configuration. *)
Definition config_ok (c : RateLimitConfig) : Prop :=
  0 ≤ burst_size c < 2 ^ 32 ∧ fnonneg (requests_per_second c) = true.
Definition clock_ok (t : Z) : Prop := 0 ≤ t < 2 ^ 64 * NANOS.

Record bucket_ok (c : RateLimitConfig) (b : TokenBucket) : Prop := {
  ok_tokens : fnonneg (tokens b) = true;
  ok_burst : fv (tokens b) ≤ burst_size c * ONE;
  ok_limit : b_burst_size b = burst_size c;
  ok_rate : refill_rate b = requests_per_second c;
  ok_clock : 0 ≤ last_refill b;
}.
Definition limiter_ok (rl : RateLimiter) : Prop :=
  config_ok (rl_config rl) ∧ map_Forall (λ _, bucket_ok (rl_config rl)) (rl_buckets rl).

Lemma burst_value c :
  config_ok c → fnonneg (f64_of_Z (burst_size c)) = true ∧ fv (f64_of_Z (burst_size c)) = burst_size c * ONE.
Proof. intros [H _]. apply f64_of_Z_exact. lia. Qed.

Lemma elapsed_ok now b :
  clock_ok now → 0 ≤ last_refill b → 0 ≤ duration_since now (last_refill b) < 2 ^ 64 * NANOS.
Proof. unfold clock_ok, duration_since. lia. Qed.

Lemma new_bucket_ok c now : config_ok c → 0 ≤ now → bucket_ok c (TokenBucket_new now (burst_size c) (requests_per_second c)).
Proof.
  intros Hc Hn. destruct (burst_value c Hc) as [H1 H2]. split; cbn [TokenBucket_new tokens b_burst_size refill_rate last_refill]; [done|lia|done|done|done].
Qed.

Section bucket.
Context (c : RateLimitConfig) (Hc : config_ok c) (b : TokenBucket) (Hb : bucket_ok c b).
Context (now : Z) (Hnow : clock_ok now).

(** What is put into the bucket, before it is cut to the burst size. *)
Definition gained : f64 := fmul (as_secs_f64 (duration_since now (last_refill b))) (refill_rate b).

Lemma gained_nonneg : fnonneg gained = true ∨ gained = S754_infinity false.
Proof.
  unfold gained. rewrite (ok_rate _ _ Hb). apply fmul_nonneg; [|apply Hc].
  by apply as_secs_f64_nonneg, elapsed_ok, (ok_clock _ _ Hb).
Qed.

Lemma refill_min :
  let t := tokens (refill now b) in
  fnonneg t = true ∧ fleb t (f64_of_Z (burst_size c)) = true ∧
  (∀ z, fleb z (fadd (tokens b) gained) = true → fleb z (f64_of_Z (burst_size c)) = true → fleb z t = true).
Proof.
  cbv zeta. unfold refill. cbn [tokens]. fold gained. rewrite (ok_limit _ _ Hb).
  apply fmin_nonneg; [|apply (burst_value c Hc)].
  apply fadd_nonneg; [apply (ok_tokens _ _ Hb)|apply gained_nonneg].
Qed.

Lemma refill_ok : bucket_ok c (refill now b).
Proof.
  destruct refill_min as (H1 & H2 & _). destruct (burst_value c Hc) as [B1 B2].
  rewrite fleb_fv in H2 by done. apply Z.leb_le in H2. rewrite B2 in H2.
  split; [done|done|apply (ok_limit _ _ Hb)|apply (ok_rate _ _ Hb)|]. simpl. apply Hnow.
Qed.

Lemma consume_spec :
  let '(b', ok) := try_consume now b in
  bucket_ok c b' ∧ ok = (ONE <=? fv (tokens (refill now b))) ∧
  last_refill b' = now ∧
  fv (tokens b') = fv (tokens (refill now b)) - (if ok then ONE else 0).
Proof.
  pose proof refill_ok as Hr. unfold try_consume. set (r := refill now b) in *.
  rewrite fleb_fv, fv_one by (done || apply (ok_tokens _ _ Hr)).
  destruct (Z.leb_spec ONE (fv (tokens r))) as [H|H]; cbn [tokens last_refill].
  - destruct (fsub_one (tokens r)) as [S1 S2]; [apply (ok_tokens _ _ Hr)| |].
    { split; [done|]. eapply Z.le_lt_trans; [apply (ok_burst _ _ Hr)|].
      apply Z.mul_lt_mono_pos_r; [done|]. destruct Hc. lia. }
    pose proof (ok_burst _ _ Hr). assert (0 < ONE) by done.
    split; [|done]. split; cbn [TokenBucket_new tokens b_burst_size refill_rate last_refill]; [done|lia|apply (ok_limit _ _ Hr)|apply (ok_rate _ _ Hr)|apply Hnow].
  - split; [done|]. split; [done|]. split; [done|lia].
Qed.

(** At the instant of the last refill nothing is gained. *)
Lemma refill_same : now ≤ last_refill b → tokens (refill now b) = tokens b.
Proof.
  intros Hle. unfold refill, duration_since. cbn [tokens].
  replace (Z.max 0 (now - last_refill b)) with 0 by lia.
  rewrite as_secs_f64_zero, fmul_zero_l by (rewrite (ok_rate _ _ Hb); apply Hc).
  unfold f64_zero. rewrite fadd_zero_r by apply (ok_tokens _ _ Hb).
  apply fmin_keep. rewrite (ok_limit _ _ Hb). destruct (burst_value c Hc) as [B1 B2].
  rewrite fleb_fv, B2 by (done || apply (ok_tokens _ _ Hb)). apply Z.leb_le, (ok_burst _ _ Hb).
Qed.

(** A token per second at least: one is there after a second. *)
Lemma refill_second :
  1 ≤ burst_size c → ONE ≤ fv (requests_per_second c) → NANOS ≤ now - last_refill b →
  ONE ≤ fv (tokens (refill now b)).
Proof.
  intros H1 Hr Hd. destruct refill_min as (R1 & _ & R3). destruct (burst_value c Hc) as [B1 B2].
  assert (0 < ONE) as HO by done.
  rewrite <- fv_one. apply Z.leb_le. rewrite <- fleb_fv by done. apply R3.
  - pose proof (elapsed_ok now b Hnow (ok_clock _ _ Hb)) as He.
    assert (fleb f64_one gained = true) as Hg.
    { unfold gained. rewrite (ok_rate _ _ Hb). apply fmul_ge_one; [|apply Hc| |done].
      - by apply as_secs_f64_nonneg.
      - apply as_secs_f64_ge_one. unfold duration_since in *. lia. }
    destruct gained_nonneg as [Hn|Hn].
    + apply fadd_ge; [apply (ok_tokens _ _ Hb)|done|done|].
      rewrite fleb_fv in Hg by done. apply Z.leb_le in Hg. pose proof (fv_nonneg (tokens b)). lia.
    + rewrite Hn. by destruct (fnonneg_inv _ (ok_tokens _ _ Hb)) as [->|(m & e & -> & _)].
  - rewrite fleb_fv, fv_one, B2 by done. apply Z.leb_le. nia.
Qed.

(** What a refill adds is what was gained, up to the rounding of the sum, which
    is 2^-52 of the burst at most. *)
Lemma refill_gain :
  fv (requests_per_second c) ≤ 2 ^ (64 + 1074) →
  fnonneg gained = true ∧ fv (tokens (refill now b)) ≤ fv (tokens b) + fv gained + burst_size c * STEP.
Proof.
  intros Hr. pose proof (elapsed_ok now b Hnow (ok_clock _ _ Hb)) as He.
  destruct (as_secs_f64_nonneg _ He) as [E1 E2].
  assert (fnonneg gained = true) as Hg.
  { unfold gained. rewrite (ok_rate _ _ Hb). apply (fmul_bounded _ _ 65 64); try done. apply Hc. }
  split; [done|]. pose proof (fv_nonneg gained). pose proof (fv_nonneg (tokens b)).
  assert (0 ≤ burst_size c < 2 ^ 32) as HB by apply Hc. assert (0 < STEP) as HS by done.
  destruct (Z.lt_ge_cases (fv (tokens b) + fv gained) (burst_size c * ONE)) as [Hlt|Hge].
  - destruct (fadd_le (tokens b) gained (ok_tokens _ _ Hb) Hg) as [A1 _].
    { eapply Z.lt_le_trans; [exact Hlt|]. apply Z.mul_le_mono_nonneg_r; [done|lia]. }
    pose proof (fadd_upper _ _ (ok_tokens _ _ Hb) Hg A1) as A2.
    unfold refill. cbn [tokens]. fold gained. rewrite (ok_limit _ _ Hb).
    pose proof (proj1 (fmin_le_l _ _ A1 (proj1 (burst_value c Hc)))) as A3.
    assert (ONE = P52 * STEP) as HO by done. assert (0 < P52) as HP by done. change Q52 with (P52 + 1) in A2.
    set (x := fv (tokens b) + fv gained) in *. set (y := fv (fadd _ _)) in *.
    apply (Z.mul_le_mono_pos_l _ _ P52 HP). rewrite HO in Hlt. clearbody x y. nia.
  - pose proof (ok_burst _ _ refill_ok) as Hu. pose proof (Z.mul_nonneg_nonneg (burst_size c) STEP). lia.
Qed.

(** What is gained is the rate times the time since the last refill, up to
    rounding. *)
Lemma gained_upper :
  fv (requests_per_second c) ≤ 2 ^ (64 + 1074) →
  P50 * NANOS * fv gained ≤
  (P50 + 1) * (fv (requests_per_second c) * duration_since now (last_refill b)) + P50 * NANOS.
Proof.
  intros Hr. destruct (refill_gain Hr) as [Hg _].
  pose proof (elapsed_ok now b Hnow (ok_clock _ _ Hb)) as He. unfold gained in *. rewrite (ok_rate _ _ Hb) in *.
  rewrite (Z.mul_comm (fv _) (duration_since _ _)). apply fmul_secs_upper; [done|apply Hc|done].
Qed.

(** A rate between four and 2^64 leaves less than a second to wait. *)
Lemma retry_after_returns K :
  fv (tokens b) < ONE → K = 2 ∨ K = 0 →
  2 ^ (K + 1074) ≤ fv (requests_per_second c) ≤ 2 ^ (64 + 1074) →
  ∃ d, retry_after b = Returns d ∧ 0 ≤ d ≤ 2 * NANOS ∧ (K = 2 → d < NANOS).
Proof.
  intros Ht HK Hr. pose proof (ok_tokens _ _ Hb) as T.
  destruct (fsub_from_one (tokens b) T Ht) as [S1 S2].
  destruct (normal_between _ (-53) 0 S1 ltac:(lia) S2) as (m & e & Em & _ & Hm & He).
  destruct (normal_between _ K 64 (proj2 Hc) ltac:(lia) Hr) as (m' & e' & Em' & _ & Hm' & He').
  destruct (fdiv_normal (1 - K) m e m' e' Hm Hm') as [D1 D2]; [lia|lia|lia|].
  unfold retry_after. rewrite fleb_fv, fv_one by done.
  destruct (Z.leb_spec ONE (fv (tokens b))); [lia|].
  rewrite (ok_rate _ _ Hb), Em, Em'.
  destruct (from_secs_f64_returns _ (if K =? 2 then NANOS / 2 else 2 * NANOS) D1) as (d & Hd & Hl).
  - etransitivity; [apply Z.mul_le_mono_nonneg_r; [done|exact D2]|].
    destruct HK as [-> | ->]; by vm_compute.
  - destruct HK as [-> | ->]; by vm_compute.
  - exists d. split; [done|]. 
    destruct HK as [-> | ->]; [change (0 ≤ d ≤ 500000000) in Hl|change (0 ≤ d ≤ 2000000000) in Hl];
      unfold NANOS; (split; [lia|intros; lia]).
Qed.
End bucket.

(** ** The limiter *)
Inductive RateOp :=
  | RCheck (now_new now : Z) (ip : string)
  | RCleanup (now : Z).
Definition rate_step (rl : RateLimiter) (op : RateOp) : RateLimiter :=
  match op with
  | RCheck now_new now ip => (check now_new now ip rl).1
  | RCleanup now => (cleanup now rl).1
  end.
Definition op_clock_ok (op : RateOp) : Prop :=
  match op with RCheck now_new now _ => clock_ok now_new ∧ clock_ok now | RCleanup now => clock_ok now end.

Definition lets_through (r : may_panic RateLimitResult) : bool :=
  match r with Returns (Allowed _ _) => true | _ => false end.

Lemma bucket_of_ok now_new ip rl :
  limiter_ok rl → clock_ok now_new → bucket_ok (rl_config rl) (bucket_of now_new ip rl).
Proof.
  intros [Hc Hb] Hn. unfold bucket_of. destruct (rl_buckets rl !! ip) as [b|] eqn:E.
  - by apply (Hb ip b).
  - apply new_bucket_ok; [done|apply Hn].
Qed.

(** What a check does with an enabled limiter that is not poisoned. *)
Lemma check_spec now_new now ip rl :
  rate_enabled (rl_config rl) = true → rl_poisoned rl = false →
  ∃ p, check now_new now ip rl =
    (mkLimiter (<[ip := (try_consume now (bucket_of now_new ip rl)).1]> (rl_buckets rl)) p (rl_config rl),
     (check now_new now ip rl).2) ∧
    lets_through (check now_new now ip rl).2 = (try_consume now (bucket_of now_new ip rl)).2 ∧
    (p = true → lets_through (check now_new now ip rl).2 = false).
Proof.
  intros He Hp. unfold check. rewrite He, Hp. cbn [negb].
  destruct (try_consume now (bucket_of now_new ip rl)) as [b []]; cbn [fst snd]; [by eexists|].
  destruct (retry_after b); by eexists.
Qed.

Lemma check_blocked now_new now ip rl :
  rate_enabled (rl_config rl) = false ∨ rl_poisoned rl = true → (check now_new now ip rl).1 = rl.
Proof.
  intros H. unfold check. destruct (rate_enabled (rl_config rl)); [|done]. cbn [negb].
  destruct H as [H|H]; [done|]. by rewrite H.
Qed.

Lemma check_config now_new now ip rl : rl_config (check now_new now ip rl).1 = rl_config rl.
Proof.
  destruct (rate_enabled (rl_config rl)) eqn:He; [destruct (rl_poisoned rl) eqn:Hp|].
  - by rewrite check_blocked by auto.
  - destruct (check_spec now_new now ip rl He Hp) as (p & -> & _ & _). done.
  - by rewrite check_blocked by auto.
Qed.

Lemma check_ok now_new now ip rl :
  limiter_ok rl → clock_ok now_new → clock_ok now → limiter_ok (check now_new now ip rl).1.
Proof.
  intros Hok Hn Hnow. destruct (rate_enabled (rl_config rl)) eqn:He; [destruct (rl_poisoned rl) eqn:Hp|].
  - by rewrite check_blocked by auto.
  - destruct (check_spec now_new now ip rl He Hp) as (p & -> & _ & _). split; [apply Hok|].
    apply map_Forall_insert_2; [|apply Hok].
    pose proof (consume_spec _ (proj1 Hok) _ (bucket_of_ok now_new ip rl Hok Hn) now Hnow) as H.
    destruct (try_consume _ _). by destruct H.
  - by rewrite check_blocked by auto.
Qed.

Lemma cleanup_ok now rl : limiter_ok rl → limiter_ok (cleanup now rl).1.
Proof.
  intros [H1 H2]. unfold cleanup. destruct (rl_poisoned rl); [done|]. split; [done|].
  intros ip b [H _]%map_lookup_filter_Some. by apply (H2 ip).
Qed.

(** C29. Type invariant of the limiter: whatever checks and clean-ups are made,
    every bucket keeps a token count that is a finite number between zero and
    the burst size, with the limits of the configuration. *)
Theorem limiter_invariant rl ops :
  limiter_ok rl → Forall op_clock_ok ops →
  limiter_ok (foldl rate_step rl ops).
Proof.
  intros Hok Hops. revert rl Hok. induction Hops as [|op ops Hop _ IH]; intros rl Hok; [done|].
  apply IH. destruct op as [n1 n2 ip|n]; [|by apply cleanup_ok]. destruct Hop. by apply check_ok.
Qed.

(** ** Bursts *)
Fixpoint burst_run (now : Z) (ip : string) (n : nat) (rl : RateLimiter) : Z :=
  match n with
  | O => 0
  | S n => let '(rl, r) := check now now ip rl in
           (if lets_through r then 1 else 0) + burst_run now ip n rl
  end.

Lemma burst_run_poisoned now ip n rl :
  rate_enabled (rl_config rl) = true → rl_poisoned rl = true → burst_run now ip n rl = 0.
Proof.
  intros He Hp. induction n as [|n IH]; [done|]. cbn [burst_run].
  destruct (check now now ip rl) as [rl' r] eqn:E.
  unfold check in E. rewrite He, Hp in E. injection E as <- <-. simpl. done.
Qed.

Lemma burst_run_tokens now ip n rl :
  limiter_ok rl → clock_ok now → rate_enabled (rl_config rl) = true → rl_poisoned rl = false →
  now ≤ last_refill (bucket_of now ip rl) →
  burst_run now ip n rl = Z.min (Z.of_nat n) (fv (tokens (bucket_of now ip rl)) / ONE).
Proof.
  intros Hok Hn. revert rl Hok. induction n as [|n IH]; intros rl Hok He Hp Hl.
  { cbn [burst_run]. assert (0 ≤ fv (tokens (bucket_of now ip rl)) / ONE); [|lia].
    apply Z.div_pos; [apply fv_nonneg|done]. }
  pose proof (bucket_of_ok now ip rl Hok Hn) as Hb.
  pose proof (consume_spec _ (proj1 Hok) _ Hb now Hn) as HC.
  pose proof (check_ok now now ip rl Hok Hn Hn) as Hok'.
  destruct (check_spec now now ip rl He Hp) as (p & E & HA & HP). cbn [burst_run].
  destruct (check now now ip rl) as [rl' r]. cbn [snd fst] in *. injection E as ->.
  destruct (try_consume now (bucket_of now ip rl)) as [b ok]. cbn [fst snd] in *.
  destruct HC as (_ & -> & L & V). rewrite HA. set (B := bucket_of now ip rl) in *.
  rewrite (refill_same _ (proj1 Hok) B Hb now Hl) in *.
  assert (bucket_of now ip (mkLimiter (<[ip:=b]> (rl_buckets rl)) p (rl_config rl)) = b) as HB
    by (unfold bucket_of; cbn; by rewrite lookup_insert_eq).
  pose proof (Z.div_pos _ ONE (fv_nonneg (tokens B)) eq_refl) as Hq.
  destruct p.
  { rewrite burst_run_poisoned by done. destruct (Z.leb_spec ONE (fv (tokens B))) as [H|H].
    - rewrite HA in HP. by specialize (HP eq_refl).
    - rewrite Z.div_small by (pose proof (fv_nonneg (tokens B)); lia). lia. }
  rewrite IH, HB; [|done|done|done|by rewrite HB, L].
  destruct (Z.leb_spec ONE (fv (tokens B))) as [H|H].
  - rewrite V. replace (fv (tokens B) - ONE) with (fv (tokens B) + (-1) * ONE) by lia.
    rewrite Z.div_add by done. lia.
  - rewrite V, Z.sub_0_r. rewrite Z.div_small by (pose proof (fv_nonneg (tokens B)); lia). lia.
Qed.

(** Bursts are exact: of [n] requests that a client the limiter has not
    seen makes at one instant, exactly [burst_size] are let through, or all of
    them if there are fewer. *)
Theorem burst_exact rl now ip n :
  limiter_ok rl → clock_ok now → rate_enabled (rl_config rl) = true → rl_poisoned rl = false →
  rl_buckets rl !! ip = None →
  burst_run now ip n rl = Z.min (Z.of_nat n) (burst_size (rl_config rl)).
Proof.
  intros Hok Hn He Hp Hnone.
  assert (bucket_of now ip rl =
    TokenBucket_new now (burst_size (rl_config rl)) (requests_per_second (rl_config rl))) as HB
    by (unfold bucket_of; by rewrite Hnone).
  rewrite burst_run_tokens by (done || by rewrite HB). rewrite HB. cbn [TokenBucket_new tokens].
  rewrite (proj2 (burst_value _ (proj1 Hok))), Z.div_mul by done. done.
Qed.

(** ** The rate *)
(** The number of requests of [ip] that are let through, and that are made,
    while the checks of all clients are made. *)
Fixpoint admitted (ip : string) (evs : list (Z * Z * string)) (rl : RateLimiter) : Z :=
  match evs with
  | [] => 0
  | (nn, now, ip') :: evs =>
      let '(rl', r) := check nn now ip' rl in
      (if bool_decide (ip' = ip) && lets_through r then 1 else 0) + admitted ip evs rl'
  end.
Definition requests_of (ip : string) (evs : list (Z * Z * string)) : Z := zlen (filter (λ ev, ev.2 = ip) evs).

(** The readings of the clock, from [t] to [t1]: it never goes back, and [check]
    reads it for a new bucket before it reads it for the refill. *)
Fixpoint clocked (t : Z) (evs : list (Z * Z * string)) (t1 : Z) : Prop :=
  match evs with
  | [] => t ≤ t1
  | (nn, now, _) :: evs => t ≤ nn ∧ nn ≤ now ∧ clocked now evs t1
  end.
Lemma clocked_le t evs t1 : clocked t evs t1 → t ≤ t1.
Proof.
  revert t. induction evs as [|[[nn now] ip] evs IH]; intros t; simpl; [done|]. intros (H1 & H2 & H3%IH). lia.
Qed.

(** What the client may still use at once. *)
Definition potential (ip : string) (rl : RateLimiter) : Z :=
  match rl_buckets rl !! ip with Some b => fv (tokens b) | None => burst_size (rl_config rl) * ONE end.

Lemma potential_bucket nn ip rl : limiter_ok rl → potential ip rl = fv (tokens (bucket_of nn ip rl)).
Proof.
  intros Hok. unfold potential, bucket_of. destruct (rl_buckets rl !! ip); [done|].
  cbn [TokenBucket_new tokens]. by rewrite (proj2 (burst_value _ (proj1 Hok))).
Qed.

Lemma potential_nonneg ip rl : limiter_ok rl → 0 ≤ potential ip rl.
Proof. intros Hok. rewrite (potential_bucket 0 ip rl Hok). apply fv_nonneg. Qed.

Lemma check_other nn now ip' ip rl :
  ip' ≠ ip → rl_buckets (check nn now ip' rl).1 !! ip = rl_buckets rl !! ip.
Proof.
  intros Hne. destruct (rate_enabled (rl_config rl)) eqn:He; [destruct (rl_poisoned rl) eqn:Hp|].
  - by rewrite check_blocked by auto.
  - destruct (check_spec nn now ip' rl He Hp) as (p & -> & _ & _). cbn. by rewrite lookup_insert_ne.
  - by rewrite check_blocked by auto.
Qed.

Lemma check_potential nn now ip rl :
  limiter_ok rl → clock_ok nn → clock_ok now → rate_enabled (rl_config rl) = true →
  fv (requests_per_second (rl_config rl)) ≤ 2 ^ (64 + 1074) →
  (if lets_through (check nn now ip rl).2 then ONE else 0) + potential ip (check nn now ip rl).1 ≤
  potential ip rl + fv (gained (bucket_of nn ip rl) now) + burst_size (rl_config rl) * STEP.
Proof.
  intros Hok Hnn Hn He Hr. pose proof (bucket_of_ok nn ip rl Hok Hnn) as Hb.
  destruct (refill_gain _ (proj1 Hok) _ Hb now Hn Hr) as [_ HG].
  pose proof (fv_nonneg (gained (bucket_of nn ip rl) now)).
  assert (0 ≤ burst_size (rl_config rl) * STEP) by (apply Z.mul_nonneg_nonneg; [apply Hok|done]).
  destruct (rl_poisoned rl) eqn:Hp.
  { unfold check. rewrite He, Hp. cbn [fst snd negb lets_through]. lia. }
  pose proof (consume_spec _ (proj1 Hok) _ Hb now Hn) as HC.
  destruct (check_spec nn now ip rl He Hp) as (p & E & HA & _).
  rewrite HA, E. cbn [fst]. rewrite (potential_bucket nn ip rl) by done.
  unfold potential. cbn [rl_buckets]. rewrite lookup_insert_eq.
  destruct (try_consume now (bucket_of nn ip rl)) as [b ok]. destruct HC as (_ & _ & _ & V). cbn [fst snd].
  rewrite V. destruct ok; lia.
Qed.

(** The time from which the bucket of [ip] has not been credited. *)
Definition since (ip : string) (t : Z) (rl : RateLimiter) : Z :=
  match rl_buckets rl !! ip with Some b => last_refill b | None => t end.

Lemma check_since nn now ip rl t :
  limiter_ok rl → clock_ok nn → clock_ok now → rate_enabled (rl_config rl) = true →
  since ip t rl ≤ t → t ≤ nn → nn ≤ now →
  let d := duration_since now (last_refill (bucket_of nn ip rl)) in
  since ip now (check nn now ip rl).1 ≤ now ∧
  (lets_through (check nn now ip rl).2 = false ∧ (check nn now ip rl).1 = rl ∨
   since ip now (check nn now ip rl).1 = now ∧ d ≤ now - since ip t rl).
Proof.
  intros Hok Hnn Hn He Hs H1 H2 d.
  destruct (rl_poisoned rl) eqn:Hp.
  { unfold check. rewrite He, Hp. cbn [fst snd negb lets_through]. split; [|by left].
    unfold since in *. destruct (rl_buckets rl !! ip); lia. }
  pose proof (consume_spec _ (proj1 Hok) _ (bucket_of_ok nn ip rl Hok Hnn) now Hn) as HC.
  destruct (check_spec nn now ip rl He Hp) as (p & E & _ & _). rewrite E. cbn [fst].
  unfold since at 1 2. cbn [rl_buckets]. rewrite lookup_insert_eq.
  destruct (try_consume now (bucket_of nn ip rl)) as [b ok]. cbn [fst]. destruct HC as (_ & _ & -> & _).
  split; [lia|]. right. split; [done|]. unfold d, bucket_of, duration_since, since in *.
  destruct (rl_buckets rl !! ip); cbn [last_refill TokenBucket_new]; lia.
Qed.

(** The sum of what was granted, of what is left and of the errors. *)
Lemma credit_step D Q R ok adm pot pot' g d B k t1 now s :
  0 < D → 0 < Q → 0 ≤ R → 0 ≤ B → d ≤ now - s →
  ok + pot' ≤ pot + g + B * STEP → D * g ≤ Q * (R * d) + D →
  D * (adm * ONE) ≤ D * (pot' + k * ((B + 1) * STEP)) + Q * (R * (t1 - now)) →
  D * (ok + adm * ONE) ≤ D * (pot + (1 + k) * ((B + 1) * STEP)) + Q * (R * (t1 - s)).
Proof.
  intros HD HQ HR HB Hd H1 H2 H3. assert (1 ≤ STEP) as HS by done. set (A := adm * ONE) in *.
  set (U := (B + 1) * STEP) in *. assert (B * STEP + 1 ≤ U) as HU by (unfold U; lia).
  assert (D * (ok + pot') ≤ D * (pot + g + B * STEP)) as H4 by (apply Z.mul_le_mono_nonneg_l; lia).
  assert (D * (B * STEP + 1) ≤ D * U) as H5 by (apply Z.mul_le_mono_nonneg_l; lia).
  assert (Q * (R * d) + Q * (R * (t1 - now)) ≤ Q * (R * (t1 - s))) as H6.
  { rewrite <- Z.mul_add_distr_l, <- Z.mul_add_distr_l. apply Z.mul_le_mono_nonneg_l; [lia|].
    apply Z.mul_le_mono_nonneg_l; lia. }
  rewrite !Z.mul_add_distr_l in *. rewrite Z.mul_add_distr_r, Z.mul_add_distr_l. lia.
Qed.

Lemma admitted_clocked ip evs rl t t1 :
  limiter_ok rl → rate_enabled (rl_config rl) = true →
  fv (requests_per_second (rl_config rl)) ≤ 2 ^ (64 + 1074) →
  0 ≤ t → t1 < 2 ^ 64 * NANOS → clocked t evs t1 → since ip t rl ≤ t →
  P50 * NANOS * (admitted ip evs rl * ONE) ≤
  P50 * NANOS * (potential ip rl + requests_of ip evs * ((burst_size (rl_config rl) + 1) * STEP)) +
  (P50 + 1) * (fv (requests_per_second (rl_config rl)) * (t1 - since ip t rl)).
Proof.
  intros Hok He Hr Ht0 Ht1. revert rl t Hok He Hr Ht0.
  induction evs as [|[[nn now] ip'] evs IH]; intros rl t Hok He Hr Ht0 Hcl Hs.
  { cbn [admitted clocked requests_of] in *. change (requests_of ip []) with 0.
    pose proof (potential_nonneg ip rl Hok). pose proof (fv_nonneg (requests_per_second (rl_config rl))) as HR.
    pose proof (Z.mul_nonneg_nonneg _ (t1 - since ip t rl) HR ltac:(lia)).
    assert (0 < P50 * NANOS) by done. assert (0 < P50) by done. nia. }
  cbn [admitted clocked] in *. destruct Hcl as (C1 & C2 & C3). pose proof (clocked_le _ _ _ C3) as C4.
  assert (clock_ok nn ∧ clock_ok now) as [Hnn Hn] by (unfold clock_ok; lia).
  pose proof (check_config nn now ip' rl) as HC. pose proof (check_ok nn now ip' rl Hok Hnn Hn) as Hok'.
  pose proof (fv_nonneg (requests_per_second (rl_config rl))) as HR.
  assert (0 < P50 * NANOS) as HPN by done. assert (0 < P50) as HP by done.
  assert (0 ≤ burst_size (rl_config rl)) as HB by apply Hok. assert (0 < STEP) as HST by done.
  unfold requests_of in *. rewrite filter_cons. cbn [snd].
  destruct (decide (ip' = ip)) as [->|Hne].
  - rewrite bool_decide_true by done. cbn [andb]. rewrite zlen_cons.
    pose proof (check_potential nn now ip rl Hok Hnn Hn He Hr) as HP1.
    pose proof (gained_upper _ (proj1 Hok) _ (bucket_of_ok nn ip rl Hok Hnn) now Hn Hr) as HG.
    destruct (check_since nn now ip rl t Hok Hnn Hn He Hs C1 C2) as [Hs' Hcase].
    destruct (check nn now ip rl) as [rl' r]. cbn [fst snd] in *.
    specialize (IH rl' now Hok'). rewrite HC in IH. specialize (IH He Hr ltac:(lia) C3 Hs').
    destruct Hcase as [[Hlet Hrl]|[Hnow Hd]].
    + rewrite Hlet, Hrl in *. rewrite Z.add_0_l. etransitivity; [exact IH|]. apply Z.add_le_mono.
      * apply Z.mul_le_mono_nonneg_l; [lia|]. apply Z.add_le_mono_l, Z.mul_le_mono_nonneg_r; [|lia].
        apply Z.mul_nonneg_nonneg; lia.
      * apply Z.mul_le_mono_nonneg_l; [lia|]. apply Z.mul_le_mono_nonneg_l; [done|].
        unfold since in *. destruct (rl_buckets rl !! ip); lia.
    + rewrite Hnow in IH. rewrite Z.mul_add_distr_r.
      replace ((if lets_through r then 1 else 0) * ONE) with (if lets_through r then ONE else 0) by (by destruct (lets_through r)).
      by eapply (credit_step (P50 * NANOS) (P50 + 1)); [..|exact HP1|exact HG|exact IH]; try lia.
  - rewrite bool_decide_false by done. cbn [andb].
    assert (rl_buckets (check nn now ip' rl).1 !! ip = rl_buckets rl !! ip) as HO by (by apply check_other).
    destruct (check nn now ip' rl) as [rl' r]. cbn [fst snd] in *.
    assert (since ip now rl' ≤ now ∧ t1 - since ip now rl' ≤ t1 - since ip t rl) as [Hs' Hle].
    { unfold since in *. rewrite HO. destruct (rl_buckets rl !! ip); lia. }
    specialize (IH rl' now Hok'). rewrite HC in IH. specialize (IH He Hr ltac:(lia) C3 Hs').
    assert (potential ip rl' = potential ip rl) as HPo by (unfold potential; by rewrite HO, HC).
    rewrite HPo in IH. rewrite Z.add_0_l. etransitivity; [exact IH|].
    apply Z.add_le_mono_l, Z.mul_le_mono_nonneg_l; [lia|]. apply Z.mul_le_mono_nonneg_l; lia.
Qed.

(** C27. The rate is kept: whatever the clients do between the instants [t0] and
    [t1], the requests of one address that are let through are at most the burst
    plus the rate times the time that passed, up to the rounding of the
    arithmetic: a factor of 1 + 2^-50 on the product, and (burst + 1) / 2^52
    tokens for each of its requests.  The clock does not go back, the rate is a
    number of at most 2^64, and no clean-up falls into the interval. *)
Theorem rate_bound ip evs c t0 t1 :
  config_ok c → rate_enabled c = true → fv (requests_per_second c) ≤ 2 ^ (64 + 1074) →
  0 ≤ t0 → t1 < 2 ^ 64 * NANOS → clocked t0 evs t1 →
  admitted ip evs (RateLimiter_new c) * ONE ≤
  burst_size c * ONE +
  (2 ^ 50 + 1) * (fv (requests_per_second c) * (t1 - t0)) / (2 ^ 50 * NANOS) +
  requests_of ip evs * ((burst_size c + 1) * STEP).
Proof.
  intros Hc He Hr H0 H1 Hcl.
  pose proof (admitted_clocked ip evs (RateLimiter_new c) t0 t1 (conj Hc (map_Forall_empty _)) He Hr H0 H1 Hcl) as H.
  change (since ip t0 (RateLimiter_new c)) with t0 in H. specialize (H ltac:(lia)).
  change (potential ip (RateLimiter_new c)) with (burst_size c * ONE) in H. cbn [rl_config RateLimiter_new] in H.
  change (2 ^ 50) with P50. set (X := (P50 + 1) * _) in *. set (D := P50 * NANOS) in *.
  assert (0 < D) as HD by done. set (Y := burst_size c * ONE) in *. set (W := requests_of ip evs * _) in *.
  set (A := admitted _ _ _ * ONE) in *. assert (A - Y - W ≤ X / D); [|lia].
  apply Z.div_le_lower_bound; [done|]. lia.
Qed.

(** ** Liveness *)
Lemma refill_has_token c b now :
  config_ok c → bucket_ok c b → clock_ok now → ONE ≤ fv (tokens b) → ONE ≤ fv (tokens (refill now b)).
Proof.
  intros Hc Hb Hn Ht. destruct (refill_min c Hc b Hb now Hn) as (R1 & _ & R3).
  destruct (burst_value c Hc) as [B1 B2]. pose proof (ok_tokens _ _ Hb) as T.
  rewrite <- fv_one. apply Z.leb_le. rewrite <- fleb_fv by done. apply R3.
  - destruct (gained_nonneg c Hc b Hb now Hn) as [Hg| ->].
    + apply fadd_ge; [done..|]. pose proof (fv_nonneg (gained b now)). rewrite fv_one. lia.
    + by destruct (fnonneg_inv _ T) as [->|(m & e & -> & _)].
  - rewrite fleb_fv, fv_one, B2 by done. apply Z.leb_le. pose proof (ok_burst _ _ Hb). lia.
Qed.

Lemma check_allowed nn now ip rl :
  limiter_ok rl → clock_ok nn → clock_ok now → rl_poisoned rl = false →
  rate_enabled (rl_config rl) = true →
  lets_through (check nn now ip rl).2 = (ONE <=? fv (tokens (refill now (bucket_of nn ip rl)))).
Proof.
  intros Hok Hnn Hn Hp He. pose proof (bucket_of_ok nn ip rl Hok Hnn) as Hb.
  pose proof (consume_spec _ (proj1 Hok) _ Hb now Hn) as HC.
  destruct (check_spec nn now ip rl He Hp) as (p & _ & HA & _). rewrite HA.
  destruct (try_consume now (bucket_of nn ip rl)) as [b ok]. by destruct HC as (_ & -> & _ & _).
Qed.

(** No client is locked out: with room for a request and a rate of at least
    one per second, a request that comes a second or more after the client's
    last one is let through, whatever happened before. *)
Theorem client_not_starved rl nn now ip :
  limiter_ok rl → clock_ok nn → clock_ok now → rl_poisoned rl = false →
  1 ≤ burst_size (rl_config rl) → ONE ≤ fv (requests_per_second (rl_config rl)) →
  (∀ b, rl_buckets rl !! ip = Some b → NANOS ≤ now - last_refill b) →
  lets_through (check nn now ip rl).2 = true.
Proof.
  intros Hok Hnn Hn Hp H1 Hr Hlast.
  destruct (rate_enabled (rl_config rl)) eqn:He; [|unfold check; by rewrite He].
  rewrite check_allowed by done. apply Z.leb_le.
  pose proof (bucket_of_ok nn ip rl Hok Hnn) as Hb. unfold bucket_of in *.
  destruct (rl_buckets rl !! ip) as [b|].
  - apply (refill_second _ (proj1 Hok) b Hb now Hn H1 Hr). by apply Hlast.
  - apply (refill_has_token _ _ now (proj1 Hok) Hb Hn). cbn [TokenBucket_new tokens].
    rewrite (proj2 (burst_value _ (proj1 Hok))). assert (0 < ONE) by done. nia.
Qed.

(** ** Panics *)
Lemma check_returns K nn now ip rl :
  limiter_ok rl → clock_ok nn → clock_ok now → rl_poisoned rl = false →
  K = 2 ∨ K = 0 →
  2 ^ (K + 1074) ≤ fv (requests_per_second (rl_config rl)) ≤ 2 ^ (64 + 1074) →
  rl_poisoned (check nn now ip rl).1 = false ∧
  match (check nn now ip rl).2 with
  | Returns (Allowed _ limit) => limit = burst_size (rl_config rl)
  | Returns (Limited d limit) => limit = burst_size (rl_config rl) ∧ 0 ≤ d ≤ 2 * NANOS ∧ (K = 2 → d < NANOS)
  | Panics => False
  end.
Proof.
  intros Hok Hnn Hn Hp HK Hr. pose proof (bucket_of_ok nn ip rl Hok Hnn) as Hb.
  pose proof (consume_spec _ (proj1 Hok) _ Hb now Hn) as HC.
  unfold check. destruct (rate_enabled (rl_config rl)); [|done]. rewrite Hp. cbn [negb].
  destruct (try_consume now (bucket_of nn ip rl)) as [b ok]. destruct HC as (Hb' & -> & _ & V).
  destruct (Z.leb_spec ONE (fv (tokens (refill now (bucket_of nn ip rl))))) as [H|H]; [done|].
  destruct (retry_after_returns _ (proj1 Hok) b Hb' K) as (d & -> & Hd); [lia|done|done|done].
Qed.

(** With a rate between one request per second and 2^64 no check panics or
    poisons the limiter, and no client is told to wait longer than two
    seconds. *)
Theorem check_never_panics rl nn now ip :
  limiter_ok rl → clock_ok nn → clock_ok now → rl_poisoned rl = false →
  ONE ≤ fv (requests_per_second (rl_config rl)) ≤ 2 ^ (64 + 1074) →
  rl_poisoned (check nn now ip rl).1 = false ∧
  match (check nn now ip rl).2 with
  | Returns (Allowed _ limit) => limit = burst_size (rl_config rl)
  | Returns (Limited d limit) => limit = burst_size (rl_config rl) ∧ 0 ≤ d ≤ 2 * NANOS
  | Panics => False
  end.
Proof.
  intros Hok Hnn Hn Hp Hr. destruct (check_returns 0 nn now ip rl) as [H1 H2]; [done..|by right|done|].
  split; [done|]. destruct (check nn now ip rl).2 as [[]|]; intuition.
Qed.

(** [requests_per_second: 0.0] poisons the limiter: the first request above
    the burst panics in [retry_after] while the lock is held, and from then on
    every check panics, of every client and at any time. *)
Theorem zero_rate_poisons rl nn now ip nn' now' ip' :
  limiter_ok rl → clock_ok nn → clock_ok now → rl_poisoned rl = false →
  rate_enabled (rl_config rl) = true → requests_per_second (rl_config rl) = f64_zero →
  fv (tokens (bucket_of nn ip rl)) < ONE →
  let '(rl', r) := check nn now ip rl in
  r = Panics ∧ (check nn' now' ip' rl').2 = Panics ∧ (cleanup now' rl').2 = Panics.
Proof.
  intros Hok Hnn Hn Hp He Hz Ht. pose proof (bucket_of_ok nn ip rl Hok Hnn) as Hb.
  set (B := bucket_of nn ip rl) in *.
  assert (tokens (refill now B) = tokens B) as HR.
  { pose proof (elapsed_ok now B Hn (ok_clock _ _ Hb)) as Hd. unfold refill. cbn [tokens].
    rewrite (ok_rate _ _ Hb), Hz.
    assert (fmul (as_secs_f64 (duration_since now (last_refill B))) f64_zero = f64_zero) as ->.
    { destruct (as_secs_f64_nonneg _ Hd) as [H _].
      by destruct (fnonneg_inv _ H) as [->|(m & e & -> & _)]. }
    unfold f64_zero. rewrite fadd_zero_r by apply (ok_tokens _ _ Hb).
    apply fmin_keep. rewrite (ok_limit _ _ Hb). destruct (burst_value _ (proj1 Hok)) as [B1 B2].
    rewrite fleb_fv, B2 by (done || apply (ok_tokens _ _ Hb)). apply Z.leb_le, (ok_burst _ _ Hb). }
  assert (fleb f64_one (tokens (refill now B)) = false) as HF.
  { rewrite HR, fleb_fv, fv_one by (done || apply (ok_tokens _ _ Hb)). by apply Z.leb_gt. }
  unfold check at 1. rewrite He, Hp. cbn [negb]. unfold try_consume. fold B. rewrite HF.
  unfold retry_after. rewrite HF, HR. cbn [refill refill_rate]. rewrite (ok_rate _ _ Hb), Hz.
  destruct (fsub_from_one (tokens B) (ok_tokens _ _ Hb) Ht) as [S1 S2].
  destruct (normal_between _ (-53) 0 S1 ltac:(lia) S2) as (m & e & -> & _).
  cbn [from_secs_f64 fdiv SFdiv f64_zero xorb]. split; [done|].
  unfold check, cleanup. cbn [rl_config rl_poisoned]. by rewrite He.
Qed.

(** ** Clean-up *)
Lemma refill_full c b now :
  config_ok c → bucket_ok c b → clock_ok now →
  fleb (f64_of_Z (burst_size c)) (fadd (tokens b) (gained b now)) = true →
  refill now b = TokenBucket_new now (burst_size c) (requests_per_second c).
Proof.
  intros Hc Hb Hn Hle. unfold refill, TokenBucket_new. fold (gained b now).
  rewrite (ok_limit _ _ Hb), (ok_rate _ _ Hb). f_equal.
  apply fmin_cut; [|apply (burst_value c Hc)|done].
  apply fadd_nonneg; [apply (ok_tokens _ _ Hb)|by apply (gained_nonneg c)].
Qed.

Lemma fadd_gained_ge c b now z :
  config_ok c → bucket_ok c b → clock_ok now → fnonneg z = true →
  (fleb z (tokens b) = true ∨ fleb z (gained b now) = true) →
  fleb z (fadd (tokens b) (gained b now)) = true.
Proof.
  intros Hc Hb Hn Hz Hle. pose proof (ok_tokens _ _ Hb) as T.
  destruct (gained_nonneg c Hc b Hb now Hn) as [Hg|Hg].
  - apply fadd_ge; [done..|]. rewrite !fleb_fv, !Z.leb_le in Hle by done.
    pose proof (fv_nonneg (gained b now)). pose proof (fv_nonneg (tokens b)). lia.
  - rewrite Hg. destruct (fnonneg_inv _ T) as [->|(m & e & -> & _)]; by apply fleb_infinity.
Qed.

(** Cleaning up forgets nothing that matters: when a bucket that was unused
    for the whole window has been refilled to the burst size by the time of the
    next request, the answer to that request and the client's bucket after it
    are the ones without the clean-up. *)
Theorem cleanup_transparent rl t nn now ip :
  limiter_ok rl → clock_ok nn → clock_ok now → rl_poisoned rl = false →
  (∀ b, rl_buckets rl !! ip = Some b →
    window_duration (rl_config rl) ≤ duration_since t (last_refill b) →
    fleb (f64_of_Z (burst_size (rl_config rl))) (gained b now) = true) →
  (check nn now ip (cleanup t rl).1).2 = (check nn now ip rl).2 ∧
  (rate_enabled (rl_config rl) = true →
   rl_buckets (check nn now ip (cleanup t rl).1).1 !! ip = rl_buckets (check nn now ip rl).1 !! ip).
Proof.
  intros Hok Hnn Hn Hp Hfull.
  destruct (rate_enabled (rl_config rl)) eqn:He;
    [|split; [|done]; unfold check, cleanup; rewrite Hp; cbn [fst rl_config]; by rewrite He].
  assert (refill now (bucket_of nn ip (cleanup t rl).1) = refill now (bucket_of nn ip rl)) as HR.
  { pose proof (bucket_of_ok nn ip rl Hok Hnn) as Hb. unfold cleanup. rewrite Hp.
    unfold bucket_of in *. cbn [fst rl_buckets rl_config]. rewrite lookup_filter_decide.
    destruct (rl_buckets rl !! ip) as [b|]; [|done]. case_decide as Hw; [done|].
    cbn [snd] in Hw. specialize (Hfull b eq_refl ltac:(lia)).
    pose proof (proj1 (burst_value _ (proj1 Hok))) as Hbv.
    rewrite (refill_full _ b now (proj1 Hok) Hb Hn)
      by (apply (fadd_gained_ge _ b now _ (proj1 Hok) Hb Hn Hbv); by right).
    pose proof (new_bucket_ok _ nn (proj1 Hok) (proj1 Hnn)) as Hnb.
    apply (refill_full _ _ now (proj1 Hok) Hnb Hn).
    apply (fadd_gained_ge _ _ now _ (proj1 Hok) Hnb Hn Hbv). left. cbn [TokenBucket_new tokens].
    rewrite fleb_fv by done. apply Z.leb_refl. }
  unfold check. assert (rl_config (cleanup t rl).1 = rl_config rl) as -> by (unfold cleanup; by rewrite Hp).
  assert (rl_poisoned (cleanup t rl).1 = false) as -> by (unfold cleanup; by rewrite Hp).
  rewrite He, Hp. cbn [negb]. unfold try_consume. rewrite HR.
  destruct (fleb f64_one _); [|destruct (retry_after _)]; cbn [fst snd rl_buckets];
    by rewrite !lookup_insert_eq.
Qed.

(** ** The middleware *)
Section middleware.
Context {Req St : Type} (next : Req → St → St * HttpResponse).

(** The middleware answers a client that is over its limit itself, with 429
    and the limit, and the request does not reach the handlers; a request that
    is let through is handled once, and its answer gets the headers and is
    otherwise unchanged.  With a rate of four per second or more the client
    that has to wait is always told [Retry-After: 0]. *)
Theorem middleware_spec rl (s : St) nn now ip (request : Req) :
  limiter_ok rl → clock_ok nn → clock_ok now → rl_poisoned rl = false →
  2 ^ (2 + 1074) ≤ fv (requests_per_second (rl_config rl)) ≤ 2 ^ (64 + 1074) →
  ∃ resp, rate_limit_middleware nn now ip next request (rl, s) =
    (((check nn now ip rl).1, if lets_through (check nn now ip rl).2 then (next request s).1 else s),
     Returns resp) ∧
  hr_headers resp !! "x-ratelimit-limit"%string = Some (show_dec (burst_size (rl_config rl))) ∧
  if lets_through (check nn now ip rl).2
  then hr_status resp = hr_status (next request s).2 ∧ hr_body resp = hr_body (next request s).2
  else hr_status resp = TOO_MANY_REQUESTS ∧
       hr_headers resp !! "x-ratelimit-remaining"%string = Some "0"%string ∧
       hr_headers resp !! "retry-after"%string = Some "0"%string.
Proof.
  intros Hok Hnn Hn Hp Hr.
  destruct (check_returns 2 nn now ip rl) as [_ H]; [done..|by left|done|].
  unfold rate_limit_middleware. destruct (check nn now ip rl) as [rl' [[rem lim|d lim]|]]; [| |done];
    cbn [fst snd lets_through] in *.
  - subst lim. destruct (next request s) as [s' resp]. eexists. split; [done|].
    cbn. by rewrite lookup_insert_ne, lookup_insert_eq.
  - destruct H as (-> & Hd & Hlt). eexists. split; [done|]. cbn [insert_header hr_headers hr_status].
    assert (as_secs d = 0) as -> by (apply Z.div_small; specialize (Hlt eq_refl); lia).
    by rewrite !lookup_insert_eq, !lookup_insert_ne, ?lookup_insert_eq by done.
Qed.
End middleware.

(** ** Witnesses *)
Lemma new_limiter_ok c : config_ok c → limiter_ok (RateLimiter_new c).
Proof. intros H. split; [done|apply map_Forall_empty]. Qed.

Lemma default_config_ok : config_ok RateLimitConfig_default.
Proof. split; [by vm_compute|done]. Qed.

Definition two_tokens : RateLimitConfig := mkRateConfig 2 (f64_of_Z 5) (60 * NANOS) true.
Lemma two_tokens_ok : config_ok two_tokens.
Proof. split; [by vm_compute|done]. Qed.

Ltac clock := first [by vm_compute | split; by vm_compute].

Lemma limiter_invariant_witness :
  limiter_ok (foldl rate_step (RateLimiter_new two_tokens)
    [RCheck 0 1 "10.0.0.1"; RCheck 2 3 "10.0.0.1"; RCleanup (61 * NANOS)]%string).
Proof.
  apply limiter_invariant; [apply new_limiter_ok, two_tokens_ok|].
  repeat constructor; by vm_compute.
Defined.

Lemma burst_exact_witness : burst_run NANOS "10.0.0.1" 3 (RateLimiter_new two_tokens) = 2.
Proof. apply burst_exact; [apply new_limiter_ok, two_tokens_ok|clock|done..]. Defined.

Definition three_checks : list (Z * Z * string) :=
  [(0, 0, "10.0.0.1"); (0, 0, "10.0.0.1"); (0, NANOS / 2, "10.0.0.1")]%string.
(** Burst 2 and 5 tokens per second, in half a second: three of the requests
    are let through, and the bound is between 4 and 5. *)
Lemma rate_bound_witness :
  admitted "10.0.0.1" three_checks (RateLimiter_new two_tokens) = 3 ∧
  admitted "10.0.0.1" three_checks (RateLimiter_new two_tokens) * ONE ≤
  2 * ONE + (2 ^ 50 + 1) * (fv (f64_of_Z 5) * (NANOS / 2 - 0)) / (2 ^ 50 * NANOS) + 3 * (3 * STEP).
Proof.
  split; [by vm_compute|].
  apply (rate_bound "10.0.0.1" three_checks two_tokens 0 (NANOS / 2));
    [apply two_tokens_ok|done|by vm_compute|done|by vm_compute|].
  cbn [clocked three_checks]. repeat split; by vm_compute.
Defined.

(** The client of [drained] has used its burst. *)
Definition drained (c : RateLimitConfig) : RateLimiter :=
  mkLimiter {["10.0.0.1"%string := mkBucket f64_zero 0 (burst_size c) (requests_per_second c)]} false c.
Lemma drained_ok c : config_ok c → limiter_ok (drained c).
Proof.
  intros Hc. split; [done|]. apply map_Forall_singleton. split; try done. simpl.
  destruct Hc. assert (0 < ONE) by done. change (fv f64_zero) with 0. cbn [rl_config drained]. nia.
Qed.

Lemma client_not_starved_witness :
  lets_through (check 0 (NANOS / 10) "10.0.0.1" (drained two_tokens)).2 = false ∧
  lets_through (check 0 NANOS "10.0.0.1" (drained two_tokens)).2 = true.
Proof.
  split; [by vm_compute|].
  apply client_not_starved; [apply drained_ok, two_tokens_ok|clock|clock|done|by vm_compute|by vm_compute|].
  intros b Hb. cbn [drained rl_buckets] in Hb. apply lookup_singleton_Some in Hb as [_ <-]. by vm_compute.
Defined.

Lemma check_never_panics_witness :
  rl_poisoned (check 0 1 "10.0.0.1" (drained two_tokens)).1 = false.
Proof.
  destruct (check_never_panics (drained two_tokens) 0 1 "10.0.0.1") as [H _];
    [apply drained_ok, two_tokens_ok|clock|clock|done|clock|exact H].
Defined.

Definition no_refill : RateLimitConfig := mkRateConfig 1 f64_zero (60 * NANOS) true.
Lemma zero_rate_poisons_witness :
  lets_through (check 0 0 "10.0.0.1" (RateLimiter_new no_refill)).2 = true ∧
  (check 2 2 "10.0.0.2" (check 1 1 "10.0.0.1" (drained no_refill)).1).2 = Panics.
Proof.
  split; [by vm_compute|].
  assert (config_ok no_refill) as Hc by (split; [by vm_compute|done]).
  pose proof (zero_rate_poisons (drained no_refill) 1 1 "10.0.0.1" 2 2 "10.0.0.2"
    (drained_ok _ Hc) ltac:(clock) ltac:(clock) eq_refl eq_refl eq_refl ltac:(by vm_compute)) as H.
  destruct (check 1 1 "10.0.0.1" (drained no_refill)) as [rl r]. by destruct H as (_ & H & _).
Defined.

Lemma cleanup_transparent_witness :
  (check (61 * NANOS) (61 * NANOS) "10.0.0.1" (cleanup (60 * NANOS) (drained two_tokens)).1).2 =
  (check (61 * NANOS) (61 * NANOS) "10.0.0.1" (drained two_tokens)).2.
Proof.
  destruct (cleanup_transparent (drained two_tokens) (60 * NANOS) (61 * NANOS) (61 * NANOS) "10.0.0.1")
    as [H _]; [apply drained_ok, two_tokens_ok|clock|clock|done| |exact H].
  intros b Hb _. cbn [drained rl_buckets] in Hb. apply lookup_singleton_Some in Hb as [_ <-]. by vm_compute.
Defined.

Lemma middleware_spec_witness :
  ∃ resp, rate_limit_middleware 0 1 "10.0.0.1"
    (λ (_ : unit) (n : nat), (S n, mkHttpResponse 200 ∅ "ok")) tt (drained two_tokens, 0%nat) =
    (((check 0 1 "10.0.0.1" (drained two_tokens)).1, 0%nat), Returns resp).
Proof.
  destruct (middleware_spec (λ (_ : unit) (n : nat), (S n, mkHttpResponse 200 ∅ "ok")) (drained two_tokens)
    0%nat 0 1 "10.0.0.1" tt) as (resp & H & _);
    [apply drained_ok, two_tokens_ok|clock|clock|done|clock|]. exists resp. rewrite H. by vm_compute.
Defined.
