(* ===== verification/Errors.v ===== *)
(** * The error type of minikv

    [src/common/error.rs]: the [Error] enum, its classification as retryable
    and its translation to gRPC and HTTP statuses. *)

From Stdlib Require Import ZArith.
From stdpp Require Import base option list strings.
From S2P Require Import Prelude Bytes Text.

(** The kinds of [std::io::Error] that the code distinguishes or that the
    modelled file operations produce. *)
Inductive IoErrorKind := UnexpectedEof | IoNotFound | InvalidInput | IoOther.

(** gRPC status codes, and the part of [tonic::Status] the code builds:
    the code, the message, and the [leader] metadata entry. *)
Inductive Code :=
  | CodeNotFound | FailedPrecondition | InvalidArgument | DeadlineExceeded
  | CodeInternal | CodeUnimplemented | CodeOther (n : Z).

Record Status := mkStatus {
  st_code : Code;
  st_message : string;
  st_leader : option string;
}.

Inductive Error :=
  | Io (e : IoErrorKind)
  | NotFound (key : string)
  | Corrupted (msg : string)
  | ChecksumMismatch (expected actual : string)
  | WalError (msg : string)
  | NotLeader (leader : string)
  | RaftError (msg : string)
  | ConsensusTimeout
  | PrepareFailed (node reason : string)
  | CommitFailed (node reason : string)
  | NoHealthyVolumes
  | InsufficientReplicas (needed available : Z)
  | ShardNotFound (shard : Z)
  | Grpc (s : Status)
  | Http (msg : string)
  | ConnectionFailed (msg : string)
  | RocksDb (msg : string)
  | MetadataCorrupted (msg : string)
  | InvalidConfig (msg : string)
  | VerifyFailed (msg : string)
  | RepairFailed (msg : string)
  | CompactFailed (msg : string)
  | Internal (msg : string)
  | Timeout (msg : string)
  | Other (msg : string).

Abbreviation Result := (result Error).

Definition is_retryable (e : Error) : bool :=
  match e with
  | Timeout _ | ConnectionFailed _ | ConsensusTimeout | NotLeader _ | NoHealthyVolumes => true
  | _ => false
  end.

Definition StatusCode := Z.

Definition to_http_status (e : Error) : StatusCode :=
  match e with
  | NotFound _ => 404
  | NotLeader _ => 307
  | InvalidConfig _ => 400
  | Timeout _ | ConsensusTimeout => 408
  | NoHealthyVolumes | InsufficientReplicas _ _ => 503
  | _ => 500
  end.

Section display.
(** How the error types of other crates print themselves. *)
Context (io_display : IoErrorKind → string) (status_display : Status → string).

(** The [#[error("...")]] attributes. *)
Definition to_string (e : Error) : string :=
  match e with
  | Io k => "I/O error: " +:+ io_display k
  | NotFound k => "Key not found: " +:+ k
  | Corrupted m => "Corrupted data: " +:+ m
  | ChecksumMismatch x a => "Checksum mismatch: expected " +:+ x +:+ ", got " +:+ a
  | WalError m => "WAL error: " +:+ m
  | NotLeader l => "Not leader: current leader is " +:+ l
  | RaftError m => "Raft error: " +:+ m
  | ConsensusTimeout => "Consensus timeout"
  | PrepareFailed n r => "Prepare failed on " +:+ n +:+ ": " +:+ r
  | CommitFailed n r => "Commit failed on " +:+ n +:+ ": " +:+ r
  | NoHealthyVolumes => "No healthy volumes available"
  | InsufficientReplicas n a =>
      "Insufficient replicas: need " +:+ show_dec n +:+ ", have " +:+ show_dec a
  | ShardNotFound s => "Shard not found: " +:+ show_dec s
  | Grpc s => "gRPC error: " +:+ status_display s
  | Http m => "HTTP error: " +:+ m
  | ConnectionFailed m => "Connection failed: " +:+ m
  | RocksDb m => "RocksDB error: " +:+ m
  | MetadataCorrupted m => "Metadata corrupted: " +:+ m
  | InvalidConfig m => "Invalid configuration: " +:+ m
  | VerifyFailed m => "Verify failed: " +:+ m
  | RepairFailed m => "Repair failed: " +:+ m
  | CompactFailed m => "Compact failed: " +:+ m
  | Internal m => "Internal error: " +:+ m
  | Timeout m => "Operation timeout: " +:+ m
  | Other m => m
  end.

(** [leader.parse().unwrap()] panics when the leader's name is not a legal
    ASCII metadata value; [None] is that panic. *)
Context (metadata_value_ok : string → bool).

Definition to_grpc_status (e : Error) : option Status :=
  match e with
  | NotFound _ => Some (mkStatus CodeNotFound (to_string e) None)
  | NotLeader leader =>
      if metadata_value_ok leader
      then Some (mkStatus FailedPrecondition (to_string e) (Some leader))
      else None
  | InvalidConfig _ | InsufficientReplicas _ _ =>
      Some (mkStatus InvalidArgument (to_string e) None)
  | ConsensusTimeout | Timeout _ =>
      Some (mkStatus DeadlineExceeded (to_string e) None)
  | Grpc status => Some status
  | _ => Some (mkStatus CodeInternal (to_string e) None)
  end.
End display.
