(* ===== verification/Fs.v ===== *)
(** * Files

    What the volume uses of [std::fs] and [std::io]: a disk with directories
    and files, files opened for appending or at a position, [BufWriter], and
    reading a file to its end.  A file has the content the operating system
    shows and the content that a power failure leaves ([sync_all] makes the
    first the second).  Opening a missing file, reading past the end and
    renaming a directory into itself fail; failures of the medium (a full
    disk, an I/O error of the device) are not modelled. *)

From Stdlib Require Import ZArith Lia.
From Stdlib.Strings Require Import Byte.
From stdpp Require Import base option list gmap strings.
From S2P Require Import Prelude Bytes Errors.

Abbreviation path := (list string).

Record file := mkFile { content : bytes; durable : bytes }.
Record Disk := mkDisk { files : gmap path file; dirs : gset path }.

Definition file_at (d : Disk) (p : path) : option bytes := content <$> files d !! p.

Definition is_dir (d : Disk) (p : path) : bool := bool_decide (p ∈ dirs d).
Definition is_file (d : Disk) (p : path) : bool := bool_decide (is_Some (files d !! p)).
Definition path_exists (d : Disk) (p : path) : bool := is_dir d p || is_file d p.

(** [fs::create_dir_all]: the path and all its ancestors. *)
Fixpoint ancestors (p : path) : list path :=
  match p with
  | [] => [[]]
  | c :: p => [] :: map (cons c) (ancestors p)
  end.
Definition create_dir_all (p : path) (d : Disk) : Disk :=
  mkDisk (files d) (list_to_set (ancestors p) ∪ dirs d).

(** Replace the content of a file, keeping what is durable. *)
Definition set_content (p : path) (c : bytes) (d : Disk) : Disk :=
  let old := match files d !! p with Some f => durable f | None => [] end in
  mkDisk (<[p := mkFile c old]> (files d)) (dirs d).

(** [OpenOptions::new().create(true)...open(p)] and [.truncate(true)]. *)
Definition open_create (p : path) (d : Disk) : Disk :=
  match files d !! p with Some _ => d | None => set_content p [] d end.
Definition open_truncate (p : path) (d : Disk) : Disk := set_content p [] d.

(** [File::sync_all] *)
Definition sync_all (p : path) (d : Disk) : Disk :=
  match files d !! p with
  | Some f => mkDisk (<[p := mkFile (content f) (content f)]> (files d)) (dirs d)
  | None => d
  end.

(** Writing [data] at position [off]: a gap is filled with zeros; writing
    nothing changes nothing. *)
Definition overwrite (off : Z) (data c : bytes) : bytes :=
  let n := Z.to_nat off in
  match data with
  | [] => c
  | _ => take n c ++ repeat x00 (n - length c) ++ data ++ drop (n + length data) c
  end.

Definition write_at (p : path) (off : Z) (data : bytes) (d : Disk) : Disk :=
  match file_at d p with
  | Some c => set_content p (overwrite off data c) d
  | None => d
  end.

(** [fs::rename] of a directory.  POSIX [rename] refuses to make a directory a
    subdirectory of itself, and to replace a directory that is not empty. *)
Definition is_under (from to : path) : bool := bool_decide (from `prefix_of` to).
Definition moved (from to q : path) : path :=
  if is_under from q then to ++ drop (length from) q else q.
Definition rename (from to : path) (d : Disk) : Result Disk :=
  if negb (path_exists d from) then Err (Io IoNotFound)
  else if is_under from to && bool_decide (from ≠ to) then Err (Io InvalidInput)
  else if bool_decide (map_Exists (λ q _, to `prefix_of` q) (files d)) then Err (Io IoOther)
  else Ok (mkDisk (kmap (moved from to) (files d)) (set_map (moved from to) (dirs d))).

(** [fs::remove_dir_all] *)
Definition remove_dir_all (p : path) (d : Disk) : Disk :=
  mkDisk (filter (λ '(q, _), ¬ p `prefix_of` q) (files d))
         (filter (λ q, ¬ p `prefix_of` q) (dirs d)).

(** The direct entries of a directory.  [fs::read_dir] yields them in an order
    that depends on the platform and the file system. *)
Definition is_child (p q : path) : bool :=
  bool_decide (p `prefix_of` q) && (length q =? S (length p))%nat.
Definition children (d : Disk) (p : path) : list path :=
  filter (λ q, is_child p q = true)
    (elements (dirs d) ++ (map_to_list (files d)).*1).

Class ReadDir := {
  read_dir : Disk → path → list path;
  read_dir_perm d p : read_dir d p ≡ₚ children d p;
}.

(** The entries in the order of the model, for examples. *)
Definition plain_read_dir : ReadDir :=
  {| read_dir := children; read_dir_perm d p := reflexivity _ |}.

(** ** BufWriter *)
Inductive WMode := WAppend | WAt (pos : Z).

Record BufWriter := mkWriter { bw_path : path; bw_mode : WMode; bw_buf : bytes }.

Definition BUF_CAPACITY : Z := 8192.

(** A write to the file behind the buffer. *)
Definition raw_write (data : bytes) (w : BufWriter) (d : Disk) : BufWriter * Disk :=
  match bw_mode w with
  | WAppend =>
      (w, match file_at d (bw_path w) with
          | Some c => set_content (bw_path w) (c ++ data) d
          | None => d
          end)
  | WAt pos =>
      (mkWriter (bw_path w) (WAt (pos + zlen data)) (bw_buf w),
       write_at (bw_path w) pos data d)
  end.

Definition bw_flush (wd : BufWriter * Disk) : BufWriter * Disk :=
  let '(w, d) := wd in
  let '(w', d') := raw_write (bw_buf w) w d in
  (mkWriter (bw_path w') (bw_mode w') [], d').

Definition bw_write_all (data : bytes) (wd : BufWriter * Disk) : BufWriter * Disk :=
  let '(w, d) := wd in
  if zlen data <? BUF_CAPACITY - zlen (bw_buf w)
  then (mkWriter (bw_path w) (bw_mode w) (bw_buf w ++ data), d)
  else
    let '(w1, d1) :=
      if BUF_CAPACITY - zlen (bw_buf w) <? zlen data then bw_flush (w, d) else (w, d) in
    if BUF_CAPACITY <=? zlen data then raw_write data w1 d1
    else (mkWriter (bw_path w1) (bw_mode w1) (bw_buf w1 ++ data), d1).

(** [BufWriter::get_ref().sync_all()] *)
Definition bw_sync (wd : BufWriter * Disk) : BufWriter * Disk :=
  let '(w, d) := wd in (w, sync_all (bw_path w) d).

(** ** Lemmas on files *)
Lemma file_at_set_content p c d : file_at (set_content p c d) p = Some c.
Proof. unfold file_at, set_content. simpl. by rewrite lookup_insert_eq. Qed.

Lemma file_at_set_content_ne p q c d : p ≠ q → file_at (set_content p c d) q = file_at d q.
Proof. intros. unfold file_at, set_content. simpl. by rewrite lookup_insert_ne. Qed.

Lemma file_at_sync_all p q d : file_at (sync_all p d) q = file_at d q.
Proof.
  unfold sync_all, file_at. destruct (files d !! p) as [f|] eqn:E; [|done]. simpl.
  destruct (decide (p = q)) as [<-|].
  - by rewrite lookup_insert_eq, E.
  - by rewrite lookup_insert_ne.
Qed.

Lemma file_at_create_dir_all p q d : file_at (create_dir_all p d) q = file_at d q.
Proof. done. Qed.

Lemma file_at_open_create p d :
  file_at (open_create p d) p = Some (unwrap_or [] (file_at d p)).
Proof.
  unfold open_create, file_at at 2. destruct (files d !! p) as [f|] eqn:E; simpl.
  - unfold file_at. by rewrite E.
  - by rewrite file_at_set_content.
Qed.

Lemma file_at_open_create_ne p q d : p ≠ q → file_at (open_create p d) q = file_at d q.
Proof.
  intros. unfold open_create. destruct (files d !! p); [done|].
  by apply file_at_set_content_ne.
Qed.

Lemma overwrite_nonempty off data c :
  data ≠ [] →
  overwrite off data c =
  take (Z.to_nat off) c ++ repeat x00 (Z.to_nat off - length c) ++ data ++
  drop (Z.to_nat off + length data) c.
Proof. unfold overwrite. by destruct data. Qed.

Lemma overwrite_end data c : overwrite (zlen c) data c = c ++ data.
Proof.
  destruct data as [|x data]; [by rewrite app_nil_r|]. rewrite overwrite_nonempty by done.
  unfold zlen. rewrite Nat2Z.id, take_ge by lia.
  rewrite Nat.sub_diag. simpl. rewrite drop_ge by lia. by rewrite app_nil_r.
Qed.

(** Bytes before the position written are not changed. *)
Lemma overwrite_take off data c n :
  0 ≤ off → Z.of_nat n ≤ off → Z.of_nat n ≤ zlen c → take n (overwrite off data c) = take n c.
Proof.
  intros H0 H1 H2. unfold overwrite, zlen in *. destruct data; [done|].
  rewrite take_app_le by (rewrite length_take; lia).
  rewrite take_take. f_equal. lia.
Qed.

(** The bytes written are at the position they were written to. *)
Lemma overwrite_at off data c :
  0 ≤ off → data ≠ [] →
  ∃ pre post, overwrite off data c = pre ++ data ++ post ∧ zlen pre = off.
Proof.
  intros H0 Hne. rewrite overwrite_nonempty by done.
  exists (take (Z.to_nat off) c ++ repeat x00 (Z.to_nat off - length c)).
  exists (drop (Z.to_nat off + length data) c). split; [by rewrite <- app_assoc|].
  unfold zlen. rewrite length_app, length_take, repeat_length. lia.
Qed.

(** Writing in two pieces is writing at once. *)
Lemma overwrite_app off x y c :
  0 ≤ off → overwrite (off + zlen x) y (overwrite off x c) = overwrite off (x ++ y) c.
Proof.
  intros H0. destruct x as [|b x]; [by rewrite Z.add_0_r|].
  destruct y as [|b' y]; [by rewrite app_nil_r|].
  remember (b :: x) as u eqn:Eu. remember (b' :: y) as v eqn:Ev.
  assert (u ≠ []) by by subst. assert (v ≠ []) by by subst.
  rewrite !overwrite_nonempty by (done || by intros [? ?]%app_eq_nil).
  set (n := Z.to_nat off). set (pre := take n c ++ repeat x00 (n - length c)).
  assert (length pre = n) as Hpre.
  { unfold pre. rewrite length_app, length_take, repeat_length. lia. }
  rewrite !(app_assoc (take n c) (repeat _ _)). fold pre.
  replace (Z.to_nat (off + zlen u)) with (n + length u)%nat by (unfold zlen; lia).
  rewrite (app_assoc pre u), take_app_length' by (rewrite length_app; lia).
  rewrite !length_app, Hpre, length_drop.
  replace (n + length u - (n + length u + (length c - (n + length u))))%nat with 0%nat by lia.
  rewrite drop_app, (drop_ge (pre ++ u)) by (rewrite length_app; lia).
  rewrite length_app, Hpre, drop_drop. simpl. rewrite <- !app_assoc. do 4 f_equal. lia.
Qed.

(** All of a file is known to be durable. *)
Definition synced (p : path) (d : Disk) : Prop := durable <$> files d !! p = file_at d p.

Lemma sync_all_synced p d : synced p (sync_all p d).
Proof.
  unfold synced, file_at, sync_all. destruct (files d !! p) as [f|] eqn:E; simpl; [|by rewrite E].
  by rewrite lookup_insert_eq.
Qed.

Lemma synced_frame p d d' : files d' !! p = files d !! p → synced p d → synced p d'.
Proof. unfold synced, file_at. by intros ->. Qed.

Lemma sync_all_durable p d c :
  file_at d p = Some c → durable <$> files (sync_all p d) !! p = Some c.
Proof.
  unfold file_at, sync_all. destruct (files d !! p) as [f|]; [|done]. simpl.
  intros [= <-]. by rewrite lookup_insert_eq.
Qed.

(** ** The buffered writer appends

    [at_end w d]: the file of [w] is there, and writes go to its end.
    [written w d]: the bytes in the file followed by those in the buffer. *)
Definition at_end (w : BufWriter) (d : Disk) : Prop :=
  ∃ c, file_at d (bw_path w) = Some c ∧
       match bw_mode w with WAppend => True | WAt pos => pos = zlen c end.

Definition written (w : BufWriter) (d : Disk) : bytes :=
  unwrap_or [] (file_at d (bw_path w)) ++ bw_buf w.

(** [w'], [d'] result from [w], [d] by writing [data]: nothing else changed. *)
Definition appended (data : bytes) (w : BufWriter) (d : Disk) (w' : BufWriter) (d' : Disk) : Prop :=
  at_end w' d' ∧ bw_path w' = bw_path w ∧
  written w' d' = written w d ++ data ∧
  dirs d' = dirs d ∧ ∀ q, q ≠ bw_path w → files d' !! q = files d !! q.

Lemma appended_trans x y w d w1 d1 w2 d2 :
  appended x w d w1 d1 → appended y w1 d1 w2 d2 → appended (x ++ y) w d w2 d2.
Proof.
  intros (_ & P1 & W1 & D1 & F1) (E2 & P2 & W2 & D2 & F2).
  split; [done|]. split; [congruence|]. split; [by rewrite W2, W1, app_assoc|].
  split; [congruence|]. intros q Hq. rewrite F2, F1 by congruence. done.
Qed.

Lemma raw_write_appended data w d w' d' :
  at_end w d → bw_buf w = [] → raw_write data w d = (w', d') →
  appended data w d w' d' ∧ bw_buf w' = [].
Proof.
  intros (c & Hc & Hm) Hb. unfold raw_write. destruct (bw_mode w) as [|pos] eqn:Em.
  - rewrite Hc. intros [= <- <-]. split; [|done]. repeat split.
    + exists (c ++ data). rewrite file_at_set_content. by rewrite Em.
    + unfold written. rewrite file_at_set_content, Hc, Hb. simpl. by rewrite !app_nil_r.
    + intros q Hq. by apply lookup_insert_ne.
  - subst pos. unfold write_at. rewrite Hc, overwrite_end. intros [= <- <-].
    split; [|done]. repeat split.
    + exists (c ++ data). simpl. rewrite file_at_set_content. split; [done|].
      by rewrite zlen_app.
    + unfold written. simpl. rewrite file_at_set_content, Hc, Hb. simpl. by rewrite !app_nil_r.
    + intros q Hq. by apply lookup_insert_ne.
Qed.

(** Flushing moves the buffer to the file. *)
Lemma bw_flush_appended w d w' d' :
  at_end w d → bw_flush (w, d) = (w', d') →
  appended [] w d w' d' ∧ bw_buf w' = [].
Proof.
  intros Hend. unfold bw_flush. destruct (raw_write (bw_buf w) w d) as [w1 d1] eqn:E.
  intros [= <- <-]. split; [|done].
  pose (w0 := mkWriter (bw_path w) (bw_mode w) []).
  assert (raw_write (bw_buf w) w0 d = (mkWriter (bw_path w1) (bw_mode w1) [], d1)) as E0.
  { unfold raw_write in *. simpl. destruct (bw_mode w) eqn:Em; simplify_eq/=; by rewrite ?Em. }
  destruct (raw_write_appended _ w0 d _ _ Hend eq_refl E0) as [(A1 & A2 & A3 & A4 & A5) _].
  repeat split; try done. rewrite A3. unfold written. simpl. by rewrite !app_nil_r.
Qed.

Lemma bw_write_all_appended data w d w' d' :
  at_end w d → bw_write_all data (w, d) = (w', d') → appended data w d w' d'.
Proof.
  intros Hend. unfold bw_write_all.
  assert (∀ w d, at_end w d →
    appended data w d (mkWriter (bw_path w) (bw_mode w) (bw_buf w ++ data)) d) as Hbuf.
  { clear. intros w d H. repeat split; [done|]. unfold written. simpl. by rewrite app_assoc. }
  pose proof (zlen_nonneg (bw_buf w)) as H0.
  destruct (Z.ltb_spec (zlen data) (BUF_CAPACITY - zlen (bw_buf w))) as [Hs|Hs].
  { intros [= <- <-]. by apply Hbuf. }
  destruct (Z.ltb_spec (BUF_CAPACITY - zlen (bw_buf w)) (zlen data)) as [Hf|Hf].
  - destruct (bw_flush (w, d)) as [w1 d1] eqn:E1.
    destruct (bw_flush_appended _ _ _ _ Hend E1) as [A1 Hb].
    pose proof A1 as (Hend1 & _). destruct (BUF_CAPACITY <=? zlen data).
    + intros E2. destruct (raw_write_appended _ _ _ _ _ Hend1 Hb E2) as [A2 _].
      by apply (appended_trans [] data w d w1 d1).
    + intros [= <- <-]. apply (appended_trans [] data w d w1 d1); [done|]. by apply Hbuf.
  - destruct (Z.leb_spec BUF_CAPACITY (zlen data)) as [Hc|Hc].
    + intros E2. eapply raw_write_appended; [done| |done].
      apply length_zero_iff_nil. unfold zlen in *. lia.
    + intros [= <- <-]. by apply Hbuf.
Qed.

Lemma bw_sync_appended w d : at_end w d → appended [] w d w (sync_all (bw_path w) d).
Proof.
  intros (c & Hc & Hm). repeat split.
  - exists c. by rewrite file_at_sync_all.
  - unfold written. by rewrite file_at_sync_all, app_nil_r.
  - unfold sync_all. by destruct (files d !! bw_path w).
  - intros q Hq. unfold sync_all. destruct (files d !! bw_path w); [|done]. by apply lookup_insert_ne.
Qed.

(** ** The buffered writer at a position

    [placed off data c w d]: [data] was written from position [off] of a file
    that had the content [c]; a tail of it may still be in the buffer. *)
Definition placed (off : Z) (data c : bytes) (w : BufWriter) (d : Disk) : Prop :=
  ∃ pre, data = pre ++ bw_buf w ∧ bw_mode w = WAt (off + zlen pre) ∧
         file_at d (bw_path w) = Some (overwrite off pre c).

(** [d'] differs from [d] at most in the content of the file [p]. *)
Definition same_but (p : path) (d d' : Disk) : Prop :=
  dirs d' = dirs d ∧ ∀ q, q ≠ p → files d' !! q = files d !! q.

Lemma same_but_refl p d : same_but p d d.
Proof. done. Qed.
Lemma same_but_trans p d d1 d2 : same_but p d d1 → same_but p d1 d2 → same_but p d d2.
Proof. intros [H1 H2] [H3 H4]. split; [congruence|]. intros q Hq. by rewrite H4, H2. Qed.
Lemma same_but_set_content p c d : same_but p d (set_content p c d).
Proof. split; [done|]. intros q Hq. unfold set_content. simpl. by rewrite lookup_insert_ne. Qed.
Lemma same_but_sync_all p d : same_but p d (sync_all p d).
Proof.
  unfold sync_all. destruct (files d !! p); [|done]. split; [done|].
  intros q Hq. simpl. by rewrite lookup_insert_ne.
Qed.
Lemma same_but_write_at p off data d : same_but p d (write_at p off data d).
Proof. unfold write_at. destruct (file_at d p); [apply same_but_set_content|done]. Qed.
Lemma same_but_open_create p d : same_but p d (open_create p d).
Proof. unfold open_create. destruct (files d !! p); [done|]. apply same_but_set_content. Qed.
Lemma same_but_file_at p d d' q : same_but p d d' → q ≠ p → file_at d' q = file_at d q.
Proof. intros [_ H] Hq. unfold file_at. by rewrite H. Qed.
#[export] Hint Resolve same_but_refl same_but_trans same_but_set_content same_but_sync_all
  same_but_write_at same_but_open_create : minikv.

(** One step of the writer on the file [p]: [more] is written after [data]. *)
Definition places (p : path) (off : Z) (c more : bytes) (f : BufWriter * Disk → BufWriter * Disk)
    : Prop :=
  ∀ data w d, bw_path w = p → placed off data c w d →
  let '(w', d') := f (w, d) in
  bw_path w' = p ∧ placed off (data ++ more) c w' d' ∧ same_but p d d'.

Lemma raw_write_placed off data more c w d :
  0 ≤ off → bw_buf w = [] → placed off data c w d →
  let '(w', d') := raw_write more w d in
  bw_path w' = bw_path w ∧ bw_buf w' = [] ∧ placed off (data ++ more) c w' d' ∧
  same_but (bw_path w) d d'.
Proof.
  intros H0 Hb (pre & Hd & Hm & Hf). rewrite Hb, app_nil_r in Hd. subst pre.
  unfold raw_write. rewrite Hm. simpl. repeat split; try done.
  - exists (data ++ more). simpl. rewrite Hb, app_nil_r, zlen_app. split; [done|].
    split; [f_equal; lia|]. unfold write_at. rewrite Hf, file_at_set_content.
    by rewrite overwrite_app.
  - apply same_but_write_at.
  - apply same_but_write_at.
Qed.

Lemma bw_flush_placed p off c :
  0 ≤ off → ∀ data w d, bw_path w = p → placed off data c w d →
  let '(w', d') := bw_flush (w, d) in
  bw_path w' = p ∧ bw_buf w' = [] ∧ placed off data c w' d' ∧ same_but p d d'.
Proof.
  intros H0 data w d <- (pre & Hd & Hm & Hf). unfold bw_flush.
  pose (w0 := mkWriter (bw_path w) (bw_mode w) []).
  assert (placed off pre c w0 d) as Hp by (exists pre; by rewrite app_nil_r).
  pose proof (raw_write_placed off pre (bw_buf w) c w0 d H0 eq_refl Hp) as H.
  unfold raw_write in *. simpl in H. rewrite Hm in *. simpl in *.
  rewrite <- Hd in H. destruct H as (_ & _ & H2 & H3). done.
Qed.

Lemma places_flush p off c : 0 ≤ off → places p off c [] bw_flush.
Proof.
  intros H0 data w d Hp H. pose proof (bw_flush_placed p off c H0 data w d Hp H) as Hf.
  destruct (bw_flush (w, d)) as [w' d']. destruct Hf as (? & ? & ? & ?). by rewrite app_nil_r.
Qed.

Lemma places_write_all p off c more : 0 ≤ off → places p off c more (bw_write_all more).
Proof.
  intros H0 data w d Hp H. unfold bw_write_all.
  assert (∀ w d, bw_path w = p → placed off data c w d →
    placed off (data ++ more) c (mkWriter (bw_path w) (bw_mode w) (bw_buf w ++ more)) d) as Hbuf.
  { clear. intros w d _ (pre & Hd & Hm & Hf). exists pre. simpl. by rewrite Hd, app_assoc. }
  pose proof (zlen_nonneg (bw_buf w)) as Hb0.
  destruct (Z.ltb_spec (zlen more) (BUF_CAPACITY - zlen (bw_buf w))) as [Hs|Hs].
  { split; [done|]. split; [by apply Hbuf|apply same_but_refl]. }
  destruct (Z.ltb_spec (BUF_CAPACITY - zlen (bw_buf w)) (zlen more)) as [Hf|Hf].
  - pose proof (bw_flush_placed p off c H0 data w d Hp H) as Hfl.
    destruct (bw_flush (w, d)) as [w1 d1]. destruct Hfl as (Hp1 & Hb1 & H1 & S1).
    destruct (BUF_CAPACITY <=? zlen more).
    + pose proof (raw_write_placed off data more c w1 d1 H0 Hb1 H1) as Hr.
      destruct (raw_write more w1 d1) as [w2 d2]. destruct Hr as (P2 & _ & H2 & S2).
      rewrite Hp1 in *. split; [done|]. split; [done|]. by apply (same_but_trans _ _ d1).
    + split; [done|]. split; [by apply Hbuf|done].
  - destruct (Z.leb_spec BUF_CAPACITY (zlen more)) as [Hc|Hc].
    + assert (bw_buf w = []) as Hb by (apply length_zero_iff_nil; unfold zlen in *; lia).
      pose proof (raw_write_placed off data more c w d H0 Hb H) as Hr.
      destruct (raw_write more w d) as [w2 d2]. destruct Hr as (P2 & _ & H2 & S2).
      rewrite Hp in *. done.
    + split; [done|]. split; [by apply Hbuf|apply same_but_refl].
Qed.

Lemma places_compose p off c x y f g :
  places p off c x f → places p off c y g → places p off c (x ++ y) (λ wd, g (f wd)).
Proof.
  intros Hf Hg data w d Hp H. specialize (Hf data w d Hp H). destruct (f (w, d)) as [w1 d1].
  destruct Hf as (Hp1 & H1 & S1). specialize (Hg _ w1 d1 Hp1 H1).
  destruct (g (w1, d1)) as [w2 d2]. destruct Hg as (Hp2 & H2 & S2).
  rewrite app_assoc. split; [done|]. split; [done|]. by apply (same_but_trans _ _ d1).
Qed.

(** ** Directories *)
Lemma ancestors_app p q : p ∈ ancestors (p ++ q).
Proof.
  induction p as [|c p IH]; simpl.
  - destruct q; simpl; set_solver.
  - apply elem_of_cons. right. apply list_elem_of_In, in_map, list_elem_of_In, IH.
Qed.

Lemma create_dir_all_dirs p d : dirs d ⊆ dirs (create_dir_all p d).
Proof. unfold create_dir_all. simpl. set_solver. Qed.

Lemma create_dir_all_self p q d : p ∈ dirs (create_dir_all (p ++ q) d).
Proof.
  unfold create_dir_all. simpl. apply elem_of_union. left.
  apply elem_of_list_to_set, ancestors_app.
Qed.

Lemma create_dir_all_elem p d : p ∈ dirs (create_dir_all p d).
Proof. pose proof (create_dir_all_self p [] d) as H. by rewrite app_nil_r in H. Qed.

(** A directory cannot be moved below itself. *)
Lemma rename_below p c d : p ∈ dirs d → rename p (p ++ [c]) d = Err (Io InvalidInput).
Proof.
  intros H. unfold rename, path_exists, is_dir. rewrite (bool_decide_true (p ∈ dirs d)) by done.
  cbn [orb negb]. unfold is_under. rewrite bool_decide_true by by apply prefix_app_r.
  rewrite bool_decide_true; [done|]. intros E. apply (f_equal length) in E.
  rewrite length_app in E. simpl in E. lia.
Qed.
