(* ===== verification/External.v ===== *)
(** * The crates minikv builds on

    What the code relies on of the crates it links, each as a class: the
    operations it calls and the documented facts its correctness uses.  A
    definition that calls such a crate takes the class as a parameter.  The
    instances at the end are concrete functions with these properties; they
    serve to run the model on examples, not as models of the crates. *)

From Stdlib Require Import ZArith Lia.
From Stdlib.Strings Require Import Byte.
From stdpp Require Import base option list gmap strings.
From S2P Require Import Prelude Bytes.

(** [crc32fast::hash] returns a [u32]. *)
Class Crc32Fast := {
  crc32fast_hash : bytes → Z;
  crc32fast_range bs : 0 ≤ crc32fast_hash bs < 2 ^ 32;
}.

(** [blake3::hash] returns 32 bytes; a [Hasher] that was updated with several
    pieces finalizes to the hash of their concatenation. *)
Class Blake3 := {
  blake3_digest : bytes → bytes;
  blake3_digest_length bs : length (blake3_digest bs) = 32%nat;
  Hasher : Type;
  hasher_new : Hasher;
  hasher_update : Hasher → bytes → Hasher;
  hasher_finalize : Hasher → bytes;
  hasher_finalize_chunks chunks :
    hasher_finalize (fold_left hasher_update chunks hasher_new) = blake3_digest (concat chunks);
}.

(** [lz4::block::compress(src, None, prepend_size)] and
    [lz4::block::decompress(src, uncompressed_size)]; [None] is an error. *)
Class Lz4 := {
  lz4_compress : bytes → bool → option bytes;
  lz4_decompress : bytes → option Z → option bytes;
}.

(** The [bloomfilter] crate: no false negatives, and a filter survives its
    serialization.  [bloom_new] is [Bloom::new_for_fp_rate(100_000, 0.01)]. *)
Class BloomFilter := {
  Bloom : Type;
  bloom_new : Bloom;
  bloom_set : Bloom → bytes → Bloom;
  bloom_check : Bloom → bytes → bool;
  bloom_to_bytes : Bloom → bytes;
  bloom_from_bytes : bytes → option Bloom;
  bloom_check_set b x : bloom_check (bloom_set b x) x = true;
  bloom_check_mono b x y : bloom_check b y = true → bloom_check (bloom_set b x) y = true;
  bloom_from_to_bytes b : bloom_from_bytes (bloom_to_bytes b) = Some b;
}.

(** [hex::decode]; [None] is an error. *)
Class Hex := { hex_decode : string → option bytes }.

(** [HashMap::iter]: every entry once, in an order that is not specified. *)
Class HashIter := {
  hash_iter {V : Type} : gmap string V → list (string * V);
  hash_iter_perm {V : Type} (m : gmap string V) : hash_iter m ≡ₚ map_to_list m;
}.

(** RocksDB, with an error as its message: a map per column family, from
    byte strings to byte strings.  [rocks_view] is its content; an iterator
    from the start yields the entries in the order of their keys, and any item
    it yields can be an error. *)
Class Rocks := {
  DB : Type;
  rocks_view : DB → string → gmap (list byte) (list byte);
  rocks_put_cf : DB → string → bytes → bytes → result string DB;
  rocks_get_cf : DB → string → bytes → result string (option bytes);
  rocks_delete_cf : DB → string → bytes → result string DB;
  rocks_iterator_cf : DB → string → list (result string (bytes * bytes));
  rocks_flush : DB → result string unit;
  rocks_put_view db cf k v db' :
    rocks_put_cf db cf k v = Ok db' →
    rocks_view db' cf = <[k := v]> (rocks_view db cf) ∧
    ∀ cf', cf' ≠ cf → rocks_view db' cf' = rocks_view db cf';
  rocks_get_view db cf k o : rocks_get_cf db cf k = Ok o → o = rocks_view db cf !! k;
  rocks_delete_view db cf k db' :
    rocks_delete_cf db cf k = Ok db' →
    rocks_view db' cf = delete k (rocks_view db cf) ∧
    ∀ cf', cf' ≠ cf → rocks_view db' cf' = rocks_view db cf';
  rocks_iterator_view db cf l :
    rocks_iterator_cf db cf = map Ok l → l ≡ₚ map_to_list (rocks_view db cf);
}.

(** [bincode::serialize] and [bincode::deserialize] at a type: what was
    serialized is read back. *)
Class Bincode (A : Type) := {
  serialize : A → result string bytes;
  deserialize : bytes → result string A;
  deserialize_serialize a bs : serialize a = Ok bs → deserialize bs = Ok a;
}.

#[export] Hint Resolve bloom_check_set bloom_check_mono : minikv.

Lemma hash_iter_lookup `{!HashIter} {V} (m : gmap string V) k v :
  (k, v) ∈ hash_iter m ↔ m !! k = Some v.
Proof. rewrite hash_iter_perm. apply elem_of_map_to_list. Qed.

Lemma hash_iter_size `{!HashIter} {V} (m : gmap string V) :
  length (hash_iter m) = size m.
Proof. by rewrite hash_iter_perm, length_map_to_list. Qed.

Lemma hash_iter_keys_nodup `{!HashIter} {V} (m : gmap string V) : NoDup (hash_iter m).*1.
Proof. rewrite hash_iter_perm. apply NoDup_fst_map_to_list. Qed.

Lemma hash_iter_to_map `{!HashIter} {V} (m : gmap string V) :
  list_to_map (hash_iter m) = m.
Proof.
  rewrite <- (list_to_map_to_list m) at 2.
  apply list_to_map_proper; [apply hash_iter_keys_nodup|apply hash_iter_perm].
Qed.

(** ** Concrete functions *)

(** CRC-32 (IEEE 802.3), bit by bit. *)
Definition crc32_bit (c : Z) : Z :=
  if Z.testbit c 0 then Z.lxor (Z.shiftr c 1) 3988292384 else Z.shiftr c 1.
Definition crc32_step (c : Z) (b : byte) : Z :=
  Nat.iter 8 crc32_bit (Z.lxor c (Z_of_byte b)).
Definition crc32_ieee_hash (bs : bytes) : Z :=
  Z.lxor (fold_left crc32_step bs 4294967295) 4294967295 mod 2 ^ 32.

Definition crc32_ieee : Crc32Fast.
Proof.
  refine {| crc32fast_hash := crc32_ieee_hash |}.
  intros bs. apply Z.mod_pos_bound. lia.
Defined.

(** The entries in the order of their keys' codes. *)
Definition sorted_iter : HashIter :=
  {| hash_iter V m := map_to_list m; hash_iter_perm V m := reflexivity _ |}.

(** A digest: the data cut or filled to 32 bytes, mixed with its length. *)
Definition toy_digest (bs : bytes) : bytes :=
  take 32 (to_le 2 (crc32_ieee_hash bs) ++ bs ++ repeat x00 32).

Definition toy_blake3 : Blake3.
Proof.
  refine {| blake3_digest := toy_digest; Hasher := bytes; hasher_new := [];
            hasher_update h data := h ++ data; hasher_finalize := toy_digest |}.
  - intros bs. unfold toy_digest.
    rewrite length_take, !length_app, repeat_length, length_to_le. lia.
  - intros chunks. f_equal. change (concat chunks) with ([] ++ concat chunks).
    generalize (@nil byte). induction chunks as [|c cs IH]; intros l; simpl.
    + by rewrite app_nil_r.
    + by rewrite IH, <- app_assoc.
Defined.

Definition toy_lz4 : Lz4 :=
  {| lz4_compress v _ := None; lz4_decompress v _ := None |}.

(** Decoding of pairs of lower-case hexadecimal digits. *)
Definition hex_digit (b : byte) : option Z :=
  let x := Z_of_byte b in
  if (48 <=? x) && (x <=? 57) then Some (x - 48)
  else if (97 <=? x) && (x <=? 102) then Some (x - 87) else None.
Fixpoint hex_pairs (bs : bytes) : option bytes :=
  match bs with
  | [] => Some []
  | [_] => None
  | a :: b :: bs =>
      x ← hex_digit a; y ← hex_digit b; rest ← hex_pairs bs;
      Some (byte_of_Z (16 * x + y) :: rest)
  end.
Definition lower_hex : Hex := {| hex_decode s := hex_pairs (as_bytes s) |}.

(** A filter on the first byte of an item. *)
Definition toy_bloom : BloomFilter.
Proof.
  refine {| Bloom := bytes; bloom_new := [];
            bloom_set b x := hd x00 x :: b;
            bloom_check b x := existsb (byte_eqb (hd x00 x)) b;
            bloom_to_bytes b := b; bloom_from_bytes b := Some b |}.
  - intros b x. apply existsb_exists. exists (hd x00 x). split; [by left|].
    by apply Byte.byte_dec_lb.
  - intros b x y (z & Hz & E)%existsb_exists. apply existsb_exists.
    exists z. split; [by right|done].
  - done.
Defined.

(** A database in memory. *)
Definition mem_rocks : Rocks.
Proof.
  refine {| DB := string → gmap (list byte) (list byte);
            rocks_view db := db;
            rocks_put_cf db cf k v :=
              Ok (λ cf', if decide (cf' = cf) then <[k := v]> (db cf) else db cf');
            rocks_get_cf db cf k := Ok (db cf !! k);
            rocks_delete_cf db cf k :=
              Ok (λ cf', if decide (cf' = cf) then delete k (db cf) else db cf');
            rocks_iterator_cf db cf := map Ok (map_to_list (db cf));
            rocks_flush db := Ok tt |}.
  - intros db cf k v db' [= <-]. split; [by rewrite decide_True|].
    intros cf' H. by rewrite decide_False.
  - by intros db cf k o [= <-].
  - intros db cf k db' [= <-]. split; [by rewrite decide_True|].
    intros cf' H. by rewrite decide_False.
  - intros db cf l H. cut (l = map_to_list (db cf)); [by intros ->|]. revert l H.
    generalize (map_to_list (db cf)). intros l'. induction l' as [|x l' IH]; intros [|y l] H; simplify_eq/=; [done|].
    f_equal. by apply IH.
Defined.

(** An encoding of any countable type. *)
Fixpoint bytes_of_pos (p : positive) : bytes :=
  match p with xH => [] | xO p => x00 :: bytes_of_pos p | xI p => x01 :: bytes_of_pos p end.
Fixpoint pos_of_bytes (bs : bytes) : positive :=
  match bs with [] => xH | b :: bs => if byte_eqb b x00 then xO (pos_of_bytes bs) else xI (pos_of_bytes bs) end.

Lemma pos_of_bytes_of_pos p : pos_of_bytes (bytes_of_pos p) = p.
Proof. induction p as [p IH|p IH|]; simpl; [by rewrite IH|by rewrite IH|done]. Qed.

Definition countable_bincode (A : Type) `{Countable A} : Bincode A.
Proof.
  refine {| serialize a := Ok (bytes_of_pos (encode a));
            deserialize bs := match decode (pos_of_bytes bs) with
                              | Some a => Ok a | None => Err "invalid"%string end |}.
  intros a bs [= <-]. by rewrite pos_of_bytes_of_pos, decode_encode.
Defined.
