(* ===== verification/Metrics.v ===== *)
(** * Metrics

    [src/common/metrics.rs]: counters, gauges, latency histograms, the registry
    of the endpoints and its Prometheus text.  An [AtomicU64] is a number that
    wraps; [observe] is the sequence of its atomic steps, so that observers that
    run at the same time are interleavings of them.  The endpoints are shared
    ([Arc]) and never removed: the map from paths holds them. *)

From Stdlib Require Import ZArith Lia SpecFloat Sorted.
From Stdlib.Strings Require Import Byte.
From stdpp Require Import base option list gmap strings.
From S2P Require Import Prelude Bytes Text Float64 FloatText External.

Definition LATENCY_BUCKETS : list f64 :=
  map f64_of_Z [1; 5; 10; 25; 50; 100; 250; 500; 1000; 2500; 5000].

Record Histogram := mkHistogram {
  h_buckets : list Z;
  h_boundaries : list f64;
  h_sum : Z;
  h_count : Z;
}.
Definition with_buckets (boundaries : list f64) : Histogram :=
  mkHistogram (replicate (S (length boundaries)) 0) boundaries 0 0.
Definition Histogram_new : Histogram := with_buckets LATENCY_BUCKETS.

(** The first boundary that the value is not above, or one past the last. *)
Fixpoint bucket_idx (boundaries : list f64) (value : f64) : nat :=
  match boundaries with
  | [] => 0
  | b :: bs => if fleb value b then 0 else S (bucket_idx bs value)
  end.

Inductive AtomicStep := FetchAddBucket (i : nat) | FetchAddSum (n : Z) | FetchAddCount.
Definition atomic (h : Histogram) (a : AtomicStep) : Histogram :=
  match a with
  | FetchAddBucket i =>
      mkHistogram (alter (λ c, add64 c 1) i (h_buckets h)) (h_boundaries h) (h_sum h) (h_count h)
  | FetchAddSum n => mkHistogram (h_buckets h) (h_boundaries h) (add64 (h_sum h) n) (h_count h)
  | FetchAddCount => mkHistogram (h_buckets h) (h_boundaries h) (h_sum h) (add64 (h_count h) 1)
  end.
Definition observe_steps (boundaries : list f64) (value : f64) : list AtomicStep :=
  [FetchAddBucket (bucket_idx boundaries value);
   FetchAddSum (f64_to_uint U64_MAX (fmul value (f64_of_Z 1000)));
   FetchAddCount].
Definition observe (value : f64) (h : Histogram) : Histogram :=
  foldl atomic h (observe_steps (h_boundaries h) value).

Fixpoint cumulate (acc : Z) (bs : list f64) (cs : list Z) : list (f64 * Z) * Z :=
  match bs, cs with
  | b :: bs, c :: cs =>
      let acc := add64 acc c in
      let '(r, acc') := cumulate acc bs cs in ((b, acc) :: r, acc')
  | _, _ => ([], acc)
  end.
Definition get_buckets (h : Histogram) : list (f64 * Z) :=
  let '(result, cumulative) := cumulate 0 (h_boundaries h) (h_buckets h) in
  result ++ [(S754_infinity false,
              add64 cumulative (nth (length (h_boundaries h)) (h_buckets h) 0))].
Definition hist_sum (h : Histogram) : f64 := fdiv (f64_of_Z (h_sum h)) (f64_of_Z 1000).
Definition hist_count (h : Histogram) : Z := h_count h.

(** ** Counters and gauges *)
Definition Counter_new : Z := 0.
Definition counter_inc (c : Z) : Z := add64 c 1.
Definition counter_add (n c : Z) : Z := add64 c n.
Definition Gauge_new : Z := 0.
Definition gauge_set (v g : Z) : Z := v.
Definition gauge_inc (g : Z) : Z := add64 g 1.
Definition gauge_dec (g : Z) : Z := wrap64 (g - 1).

(** ** The registry *)
Record EndpointMetrics := mkEndpoint {
  requests_total : Z;
  requests_success : Z;
  requests_error : Z;
  latency : Histogram;
}.
Definition EndpointMetrics_new : EndpointMetrics :=
  mkEndpoint Counter_new Counter_new Counter_new Histogram_new.

Record MetricsRegistry := mkRegistry {
  endpoints : gmap string EndpointMetrics;
  total_requests : Z;
  total_errors : Z;
  total_bytes_read : Z;
  total_bytes_written : Z;
  active_connections : Z;
  keys_with_ttl : Z;
  compressed_blobs : Z;
  rate_limited_requests : Z;
  start_time : Z;
}.
Definition MetricsRegistry_new (now : Z) : MetricsRegistry :=
  mkRegistry ∅ Counter_new Counter_new Counter_new Counter_new Gauge_new Gauge_new Gauge_new Counter_new now.

Definition endpoint (path : string) (m : MetricsRegistry) : MetricsRegistry * EndpointMetrics :=
  match endpoints m !! path with
  | Some e => (m, e)
  | None =>
      (mkRegistry (<[path := EndpointMetrics_new]> (endpoints m)) (total_requests m) (total_errors m)
         (total_bytes_read m) (total_bytes_written m) (active_connections m) (keys_with_ttl m)
         (compressed_blobs m) (rate_limited_requests m) (start_time m), EndpointMetrics_new)
  end.

(** [duration] in nanoseconds. *)
Definition metrics_record_request (path : string) (duration : Z) (success : bool) (m : MetricsRegistry)
    : MetricsRegistry :=
  let '(m, e) := endpoint path m in
  let e := mkEndpoint (counter_inc (requests_total e)) (requests_success e) (requests_error e)
             (observe (fmul (as_secs_f64 duration) (f64_of_Z 1000)) (latency e)) in
  let total := counter_inc (total_requests m) in
  let '(e, errors) :=
    if success
    then (mkEndpoint (requests_total e) (counter_inc (requests_success e)) (requests_error e) (latency e),
          total_errors m)
    else (mkEndpoint (requests_total e) (requests_success e) (counter_inc (requests_error e)) (latency e),
          counter_inc (total_errors m)) in
  mkRegistry (<[path := e]> (endpoints m)) total errors
    (total_bytes_read m) (total_bytes_written m) (active_connections m) (keys_with_ttl m)
    (compressed_blobs m) (rate_limited_requests m) (start_time m).

Definition uptime_seconds (now : Z) (m : MetricsRegistry) : Z := as_secs (duration_since now (start_time m)).

(** ** The text format *)
Definition QUOTE : string := of_bytes [x22].
Definition NL : string := of_bytes [x0a].
Definition line (s : string) : string := (s ++ NL)%string.
Definition quoted (s : string) : string := (QUOTE ++ s ++ QUOTE)%string.
Definition concat_map {A} (f : A → string) (l : list A) : string := String.concat "" (map f l).
Definition header (name help type : string) : string :=
  (line ("# HELP " ++ name ++ " " ++ help) ++ line ("# TYPE " ++ name ++ " " ++ type))%string.
Definition sample (name : string) (v : Z) : string := line (name ++ " " ++ show_dec v).

Definition bucket_line (path : string) (le_count : f64 * Z) : string :=
  let '(le, count) := le_count in
  let le_text := if is_infinite le then "+Inf"%string else show_f64 le in
  line ("minikv_request_duration_ms_bucket{path=" ++ quoted path ++ ",le=" ++ quoted le_text ++ "} " ++
        show_dec count).
Definition latency_text (pm : string * EndpointMetrics) : string :=
  let '(path, m) := pm in
  (concat_map (bucket_line path) (get_buckets (latency m)) ++
   line ("minikv_request_duration_ms_sum{path=" ++ quoted path ++ "} " ++ show_f64 (hist_sum (latency m))) ++
   line ("minikv_request_duration_ms_count{path=" ++ quoted path ++ "} " ++ show_dec (hist_count (latency m))))%string.

Definition to_prometheus `{HashIter} (now : Z) (m : MetricsRegistry) : string :=
  (header "minikv_requests_total" "Total number of requests" "counter" ++
   sample "minikv_requests_total" (total_requests m) ++
   header "minikv_errors_total" "Total number of errors" "counter" ++
   sample "minikv_errors_total" (total_errors m) ++
   header "minikv_bytes_read_total" "Total bytes read" "counter" ++
   sample "minikv_bytes_read_total" (total_bytes_read m) ++
   header "minikv_bytes_written_total" "Total bytes written" "counter" ++
   sample "minikv_bytes_written_total" (total_bytes_written m) ++
   header "minikv_active_connections" "Current active connections" "gauge" ++
   sample "minikv_active_connections" (active_connections m) ++
   header "minikv_keys_with_ttl" "Number of keys with TTL" "gauge" ++
   sample "minikv_keys_with_ttl" (keys_with_ttl m) ++
   header "minikv_rate_limited_requests" "Total rate limited requests" "counter" ++
   sample "minikv_rate_limited_requests" (rate_limited_requests m) ++
   header "minikv_uptime_seconds" "Server uptime in seconds" "gauge" ++
   sample "minikv_uptime_seconds" (uptime_seconds now m) ++
   header "minikv_endpoint_requests_total" "Requests per endpoint" "counter" ++
   concat_map (λ pm, sample ("minikv_endpoint_requests_total{path=" ++ quoted pm.1 ++ "}") (requests_total pm.2))
     (hash_iter (endpoints m)) ++
   header "minikv_endpoint_errors_total" "Errors per endpoint" "counter" ++
   concat_map (λ pm, sample ("minikv_endpoint_errors_total{path=" ++ quoted pm.1 ++ "}") (requests_error pm.2))
     (hash_iter (endpoints m)) ++
   header "minikv_request_duration_ms" "Request duration in milliseconds" "histogram" ++
   concat_map latency_text (hash_iter (endpoints m)))%string.

(** ** Atomic steps *)
Lemma add64_add64 x m n : add64 (add64 x m) n = wrap64 (x + m + n).
Proof. unfold add64, wrap64. by rewrite Zplus_mod_idemp_l. Qed.

Lemma atomic_comm h a b : atomic (atomic h a) b = atomic (atomic h b) a.
Proof.
  destruct a as [i|m|], b as [j|n|]; cbn [atomic h_buckets h_boundaries h_sum h_count]; f_equal.
  - destruct (decide (i = j)) as [->|Hne]; [done|]. by apply list_alter_alter_ne.
  - rewrite !add64_add64. f_equal. lia.
Qed.

Lemma atomic_perm h as1 as2 : as1 ≡ₚ as2 → foldl atomic h as1 = foldl atomic h as2.
Proof.
  intros HP. revert h. induction HP as [|a l l' _ IH|a b l|l1 l2 l3 _ IH1 _ IH2]; intros h; cbn [foldl].
  - done.
  - apply IH.
  - by rewrite atomic_comm.
  - by rewrite IH1.
Qed.

Lemma atomic_boundaries h as_ : h_boundaries (foldl atomic h as_) = h_boundaries h.
Proof. revert h. induction as_ as [|a as_ IH]; intros h; [done|]. cbn [foldl]. rewrite IH. by destruct a. Qed.

Definition observe_all (h : Histogram) (vs : list f64) : Histogram := foldl (λ h v, observe v h) h vs.

Lemma observe_all_steps h vs :
  observe_all h vs = foldl atomic h (concat (map (observe_steps (h_boundaries h)) vs)).
Proof.
  unfold observe_all. revert h. induction vs as [|v vs IH]; intros h; [done|].
  cbn [foldl map concat]. rewrite foldl_app, IH. unfold observe. by rewrite atomic_boundaries.
Qed.

(** Observations made at the same time are all counted: however the atomic
    additions of several [observe] calls interleave, the histogram is the one
    that the calls leave one after the other. *)
Theorem concurrent_observe h vs steps :
  steps ≡ₚ concat (map (observe_steps (h_boundaries h)) vs) →
  foldl atomic h steps = observe_all h vs.
Proof. intros HP. rewrite observe_all_steps. by apply atomic_perm. Qed.

(** ** What the buckets count *)
Definition count_le (b : f64) (vs : list f64) : Z := zlen (filter (λ v, fleb v b = true) vs).
Fixpoint counts (bs : list f64) (vs : list f64) : list Z :=
  match bs with
  | [] => [zlen vs]
  | b :: bs => count_le b vs :: counts bs (filter (λ v, fleb v b = false) vs)
  end.

Lemma count_le_split b vs : count_le b vs + zlen (filter (λ v, fleb v b = false) vs) = zlen vs.
Proof.
  unfold count_le. induction vs as [|v vs IH]; [done|]. rewrite !filter_cons, zlen_cons.
  destruct (fleb v b); repeat case_decide; try done; rewrite zlen_cons; lia.
Qed.

Lemma count_le_bound b vs : 0 ≤ count_le b vs ≤ zlen vs.
Proof. pose proof (count_le_split b vs). pose proof (zlen_nonneg (filter (λ v, fleb v b = false) vs)).
  unfold count_le in *. pose proof (zlen_nonneg (filter (λ v, fleb v b = true) vs)). lia. Qed.

Lemma count_le_snoc b vs v : count_le b (vs ++ [v]) = count_le b vs + if fleb v b then 1 else 0.
Proof.
  unfold count_le. rewrite filter_app, zlen_app, filter_cons, filter_nil.
  destruct (fleb v b); by case_decide.
Qed.

Lemma counts_snoc bs vs v :
  zlen vs + 1 < 2 ^ 64 →
  alter (λ c, add64 c 1) (bucket_idx bs v) (counts bs vs) = counts bs (vs ++ [v]).
Proof.
  revert vs. induction bs as [|b bs IH]; intros vs Hb; pose proof (zlen_nonneg vs).
  { cbn. f_equal. rewrite add64_small by lia. by rewrite zlen_app. }
  cbn [bucket_idx counts]. pose proof (count_le_bound b vs). pose proof (count_le_split b vs).
  rewrite count_le_snoc, filter_app, filter_cons, filter_nil.
  destruct (fleb v b) eqn:E; case_decide; try done; cbn [alter list_alter].
  - rewrite app_nil_r. f_equal. apply add64_small. lia.
  - rewrite Z.add_0_r. f_equal. apply IH. lia.
Qed.

Lemma length_counts bs vs : length (counts bs vs) = S (length bs).
Proof. revert vs. induction bs as [|b bs IH]; intros vs; [done|]. cbn. by rewrite IH. Qed.

Lemma counts_nil bs : counts bs [] = replicate (S (length bs)) 0.
Proof. induction bs as [|b bs IH]; [done|]. cbn [counts length replicate]. f_equal. apply IH. Qed.

Lemma observe_all_spec bs vs :
  zlen vs < 2 ^ 64 →
  let h := observe_all (with_buckets bs) vs in
  h_boundaries h = bs ∧ h_buckets h = counts bs vs ∧ h_count h = zlen vs.
Proof.
  cbv zeta. induction vs as [|v vs IH] using rev_ind; intros Hb.
  { cbn. by rewrite counts_nil. }
  rewrite zlen_app, zlen_cons, zlen_nil in Hb. pose proof (zlen_nonneg vs).
  destruct IH as (I1 & I2 & I3); [lia|]. unfold observe_all in *. rewrite foldl_snoc.
  set (h := foldl _ _ _) in *. cbn [observe foldl observe_steps atomic h_boundaries h_buckets h_count].
  unfold observe. cbn [observe foldl observe_steps atomic h_boundaries h_buckets h_count].
  rewrite I1, I2, I3. split; [done|]. split; [apply counts_snoc; lia|].
  rewrite add64_small, zlen_app, zlen_cons, zlen_nil by lia. lia.
Qed.

(** Values a histogram is given: not negative, possibly too large. *)
Definition observable (v : f64) : Prop := fnonneg v = true ∨ v = S754_infinity false.

Lemma observable_filter (P : f64 → Prop) `{!∀ v, Decision (P v)} vs :
  Forall observable vs → Forall observable (filter P vs).
Proof. rewrite !Forall_forall. intros Hvs v [_ Hv]%list_elem_of_filter. by apply Hvs. Qed.

Lemma fleb_trans v b c :
  observable v → fnonneg b = true → fnonneg c = true → fleb v b = true → fleb b c = true → fleb v c = true.
Proof.
  intros [Hv| ->] Hb Hc H1 H2.
  - rewrite fleb_fv in * by done. rewrite Z.leb_le in *. lia.
  - by destruct (fnonneg_inv b Hb) as [->|(m & e & -> & _)].
Qed.

Lemma count_le_skip b c vs :
  Forall observable vs → fnonneg b = true → fnonneg c = true → fleb b c = true →
  count_le c vs = count_le b vs + count_le c (filter (λ v, fleb v b = false) vs).
Proof.
  intros Hvs Hb Hc Hbc. unfold count_le. induction Hvs as [|v vs Hv _ IH]; [done|].
  rewrite !filter_cons. destruct (fleb v b) eqn:E.
  - rewrite (fleb_trans v b c) by done. repeat (case_decide; try done). rewrite !zlen_cons. lia.
  - rewrite (decide_False (P := false = true)), (decide_True (P := false = false)) by done.
    rewrite filter_cons. case_decide; rewrite ?zlen_cons; lia.
Qed.

Lemma cumulate_spec bs vs acc :
  Forall observable vs → Forall (λ b, fnonneg b = true) bs →
  StronglySorted (λ a b, fleb a b = true) bs → 0 ≤ acc → acc + zlen vs < 2 ^ 64 →
  let '(r, tot) := cumulate acc bs (counts bs vs) in
  r = map (λ b, (b, acc + count_le b vs)) bs ∧
  add64 tot (nth (length bs) (counts bs vs) 0) = acc + zlen vs.
Proof.
  revert vs acc. induction bs as [|b bs IH]; intros vs acc Hvs Hbs Hs Ha Hb.
  { cbn. pose proof (zlen_nonneg vs). by rewrite add64_small by lia. }
  inversion Hbs as [|? ? Hnb Hnbs]; subst. inversion Hs as [|? ? Hss Hall]; subst.
  cbn [cumulate counts]. pose proof (count_le_split b vs). pose proof (count_le_bound b vs).
  set (vs' := filter _ vs) in *. pose proof (zlen_nonneg vs').
  assert (add64 acc (count_le b vs) = acc + count_le b vs) as -> by (apply add64_small; lia).
  specialize (IH vs' (acc + count_le b vs)).
  destruct (cumulate (acc + count_le b vs) bs (counts bs vs')) as [r tot].
  destruct IH as [-> IH2]; [by apply observable_filter|done|done|lia|lia|].
  split; [|cbn [length nth]; rewrite IH2; lia]. cbn [map]. f_equal.
  apply map_ext_in. intros c Hc. f_equal. apply list_elem_of_In in Hc.
  rewrite Forall_forall in Hall, Hnbs.
  rewrite (count_le_skip b c vs) by (done || by (apply Hnbs || apply Hall)). fold vs'. lia.
Qed.

Lemma get_buckets_counts bs vs :
  Forall observable vs → Forall (λ b, fnonneg b = true) bs →
  StronglySorted (λ a b, fleb a b = true) bs → zlen vs < 2 ^ 64 →
  get_buckets (observe_all (with_buckets bs) vs) =
  map (λ b, (b, count_le b vs)) bs ++ [(S754_infinity false, zlen vs)].
Proof.
  intros Hvs Hbs Hs Hb. destruct (observe_all_spec bs vs Hb) as (I1 & I2 & I3).
  unfold get_buckets. rewrite I1, I2.
  pose proof (cumulate_spec bs vs 0 Hvs Hbs Hs ltac:(lia) ltac:(lia)) as HC.
  destruct (cumulate 0 bs (counts bs vs)) as [r tot]. destruct HC as [-> HC]. by rewrite HC.
Qed.

Lemma latency_buckets_sorted :
  Forall (λ b, fnonneg b = true) LATENCY_BUCKETS ∧ StronglySorted (λ a b, fleb a b = true) LATENCY_BUCKETS.
Proof. split; repeat constructor. Qed.

(** ** The registry counts requests *)
Record Recorded := mkRecorded { rc_path : string; rc_duration : Z; rc_success : bool }.
Definition record_all (m : MetricsRegistry) (reqs : list Recorded) : MetricsRegistry :=
  foldl (λ m r, metrics_record_request (rc_path r) (rc_duration r) (rc_success r) m) m reqs.
Definition latency_ms (r : Recorded) : f64 := fmul (as_secs_f64 (rc_duration r)) (f64_of_Z 1000).

Definition requests_to (path : string) (reqs : list Recorded) : list Recorded :=
  filter (λ r, rc_path r = path) reqs.
Definition with_outcome (ok : bool) (reqs : list Recorded) : list Recorded :=
  filter (λ r, rc_success r = ok) reqs.
Definition summarize (rs : list Recorded) : EndpointMetrics :=
  mkEndpoint (zlen rs) (zlen (with_outcome true rs)) (zlen (with_outcome false rs))
    (observe_all Histogram_new (map latency_ms rs)).
Definition summary (path : string) (reqs : list Recorded) : option EndpointMetrics :=
  match requests_to path reqs with [] => None | rs => Some (summarize rs) end.

Lemma summary_get path reqs :
  match summary path reqs with Some e => e | None => EndpointMetrics_new end =
  summarize (requests_to path reqs).
Proof. unfold summary. by destruct (requests_to path reqs). Qed.

Lemma with_outcome_snoc ok rs r :
  zlen (with_outcome ok (rs ++ [r])) = zlen (with_outcome ok rs) + if eqb (rc_success r) ok then 1 else 0.
Proof.
  unfold with_outcome. rewrite filter_app, zlen_app, filter_cons, filter_nil.
  case_decide as E; [by rewrite E, eqb_reflx|]. by apply eqb_false_iff in E as ->.
Qed.

Lemma zlen_filter_bound {A} (P : A → Prop) `{!∀ x, Decision (P x)} (l : list A) : 0 ≤ zlen (filter P l) ≤ zlen l.
Proof. unfold zlen. pose proof (length_filter P l). lia. Qed.

Lemma summarize_snoc rs r :
  zlen rs + 1 < 2 ^ 64 →
  summarize (rs ++ [r]) =
  mkEndpoint (counter_inc (zlen rs))
    (if rc_success r then counter_inc (zlen (with_outcome true rs)) else zlen (with_outcome true rs))
    (if rc_success r then zlen (with_outcome false rs) else counter_inc (zlen (with_outcome false rs)))
    (observe (latency_ms r) (observe_all Histogram_new (map latency_ms rs))).
Proof.
  intros Hb. unfold summarize. pose proof (zlen_nonneg rs).
  pose proof (zlen_filter_bound (λ r, rc_success r = true) rs).
  pose proof (zlen_filter_bound (λ r, rc_success r = false) rs).
  rewrite !with_outcome_snoc, zlen_app, zlen_cons, zlen_nil, map_app. unfold with_outcome in *.
  unfold observe_all. cbn [map]. rewrite foldl_snoc. unfold counter_inc.
  rewrite !add64_small by lia. destruct (rc_success r); cbn; f_equal; lia.
Qed.

Lemma metrics_record_spec r m :
  metrics_record_request (rc_path r) (rc_duration r) (rc_success r) m =
  let e := match endpoints m !! rc_path r with Some e => e | None => EndpointMetrics_new end in
  mkRegistry
    (<[rc_path r := mkEndpoint (counter_inc (requests_total e))
       (if rc_success r then counter_inc (requests_success e) else requests_success e)
       (if rc_success r then requests_error e else counter_inc (requests_error e))
       (observe (latency_ms r) (latency e))]> (endpoints m))
    (counter_inc (total_requests m))
    (if rc_success r then total_errors m else counter_inc (total_errors m))
    (total_bytes_read m) (total_bytes_written m) (active_connections m) (keys_with_ttl m)
    (compressed_blobs m) (rate_limited_requests m) (start_time m).
Proof.
  unfold metrics_record_request, endpoint. destruct (endpoints m !! rc_path r) as [e|] eqn:E;
    destruct (rc_success r); cbn; rewrite ?insert_insert_eq; done.
Qed.

(** The registry after a sequence of requests. *)
Lemma record_all_spec now reqs :
  zlen reqs < 2 ^ 64 →
  let m := record_all (MetricsRegistry_new now) reqs in
  total_requests m = zlen reqs ∧ total_errors m = zlen (with_outcome false reqs) ∧
  ∀ path, endpoints m !! path = summary path reqs.
Proof.
  cbv zeta. induction reqs as [|r reqs IH] using rev_ind; intros Hb.
  { split; [done|]. split; [done|]. intros path. apply lookup_empty. }
  rewrite zlen_app, zlen_cons, zlen_nil in Hb. pose proof (zlen_nonneg reqs).
  destruct IH as (I1 & I2 & I3); [lia|]. unfold record_all in *. rewrite foldl_snoc.
  set (m := foldl _ _ _) in *. rewrite metrics_record_spec. cbv zeta. cbn [total_requests total_errors endpoints].
  pose proof (zlen_filter_bound (λ r, rc_success r = false) reqs) as Hw. fold (with_outcome false reqs) in Hw.
  split; [unfold counter_inc; rewrite I1, add64_small, zlen_app, zlen_cons, zlen_nil by lia; lia|]. split.
  { rewrite with_outcome_snoc, I2. unfold counter_inc.
    destruct (rc_success r); cbn; [|rewrite add64_small by lia]; lia. }
  intros path. pose proof (zlen_filter_bound (λ r, rc_path r = path) reqs) as Hp.
  fold (requests_to path reqs) in Hp.
  assert (requests_to path (reqs ++ [r]) = requests_to path reqs ++ if decide (rc_path r = path) then [r] else [])
    as HR by (unfold requests_to; by rewrite filter_app, filter_cons, filter_nil).
  destruct (decide (rc_path r = path)) as [<-|Hne].
  - rewrite lookup_insert_eq, I3, summary_get. unfold summary. rewrite HR.
    destruct (requests_to (rc_path r) reqs ++ [r]) as [|x l] eqn:E; [by destruct (requests_to (rc_path r) reqs)|].
    rewrite <- E, summarize_snoc by lia. done.
  - rewrite lookup_insert_ne, I3 by done. unfold summary. by rewrite HR, app_nil_r.
Qed.

Lemma latency_observable r : 0 ≤ rc_duration r < 2 ^ 64 * NANOS → observable (latency_ms r).
Proof.
  intros Hd. apply fmul_nonneg; [by apply as_secs_f64_nonneg|done].
Qed.

Lemma outcome_split rs : zlen (with_outcome true rs) + zlen (with_outcome false rs) = zlen rs.
Proof.
  unfold with_outcome. induction rs as [|r rs IH]; [done|]. rewrite !filter_cons, zlen_cons.
  destruct (rc_success r); repeat (case_decide; try done); rewrite zlen_cons; lia.
Qed.

(** C28. What is scraped is consistent: after any sequence of fewer than 2^64
    requests the totals are the numbers of requests and of failures; a path has
    metrics when there was a request to it, its request count is the number of
    those and the sum of its successes and errors; each bucket of its latency
    histogram counts exactly the requests that took at most the bucket's
    boundary, and the [+Inf] bucket all of them. *)
Theorem scrape_consistent now reqs :
  zlen reqs < 2 ^ 64 → Forall (λ r, 0 ≤ rc_duration r < 2 ^ 64 * NANOS) reqs →
  let m := record_all (MetricsRegistry_new now) reqs in
  total_requests m = zlen reqs ∧ total_errors m = zlen (with_outcome false reqs) ∧
  ∀ path, let rs := requests_to path reqs in
    match endpoints m !! path with
    | None => rs = []
    | Some e =>
        requests_total e = zlen rs ∧ requests_error e = zlen (with_outcome false rs) ∧
        requests_success e + requests_error e = requests_total e ∧
        get_buckets (latency e) =
          map (λ b, (b, zlen (filter (λ r, fleb (latency_ms r) b = true) rs))) LATENCY_BUCKETS ++
          [(S754_infinity false, requests_total e)]
    end.
Proof.
  intros Hb Hd. destruct (record_all_spec now reqs Hb) as (H1 & H2 & H3). cbv zeta.
  split; [done|]. split; [done|]. intros path. rewrite H3. unfold summary.
  destruct (requests_to path reqs) as [|r0 rs0] eqn:E; [done|]. rewrite <- E. clear r0 rs0 E.
  set (rs := requests_to path reqs).
  pose proof (zlen_filter_bound (λ r, rc_path r = path) reqs) as Hl. fold (requests_to path reqs) rs in Hl.
  cbn [summarize requests_total requests_error requests_success latency].
  split; [done|]. split; [done|]. split; [apply outcome_split|].
  assert (zlen (map latency_ms rs) = zlen rs) as Hm by (unfold zlen; by rewrite length_map).
  unfold Histogram_new. rewrite get_buckets_counts; [| |apply latency_buckets_sorted..|lia].
  - rewrite Hm. f_equal. apply map_ext. intros b. f_equal. unfold count_le.
    by rewrite zlen_filter_map.
  - apply Forall_map. rewrite Forall_forall in Hd |- *. intros r [_ Hr]%list_elem_of_filter.
    by apply latency_observable, Hd.
Qed.

(** ** Witnesses *)
Definition three_requests : list Recorded :=
  [mkRecorded "/a" 50000000 true; mkRecorded "/a" 100000000 false; mkRecorded "/b" 7000000000 true]%string.
Lemma scrape_consistent_witness :
  total_errors (record_all (MetricsRegistry_new 0) three_requests) = 1.
Proof.
  destruct (scrape_consistent 0 three_requests) as (_ & H & _); [by vm_compute| |exact H].
  repeat constructor; by vm_compute.
Defined.

Lemma concurrent_observe_witness :
  foldl atomic Histogram_new
    [FetchAddBucket 1; FetchAddBucket 0; FetchAddSum 5000; FetchAddSum 1000; FetchAddCount; FetchAddCount] =
  observe_all Histogram_new [f64_of_Z 5; f64_of_Z 1].
Proof.
  apply concurrent_observe.
  change (concat _) with [FetchAddBucket 1; FetchAddSum 5000; FetchAddCount; FetchAddBucket 0; FetchAddSum 1000; FetchAddCount].
  solve_Permutation.
Defined.

Example prometheus_bucket :
  bucket_line "/a" (f64_of_Z 250, 3) =
  ("minikv_request_duration_ms_bucket{path=" ++ quoted "/a" ++ ",le=" ++ quoted "250" ++ "} 3" ++ NL)%string.
Proof. reflexivity. Qed.
