(* ===== verification/Config.v ===== *)
(** * Configuration

    [src/common/config.rs]: the configuration records, their defaults, the
    validation made before a node starts, and saving to and loading from a file
    ([Config::load] is in [Boot]).
    Socket addresses and paths are kept as text; the text of a configuration is
    made and read by [serde_json] ([ConfigJson]). *)

From Stdlib Require Import ZArith.
From stdpp Require Import base option list gmap strings.
From S2P Require Import Prelude Bytes Text Errors Fs.

Inductive WalSyncPolicy := Always | Interval | Never.
#[export] Instance WalSyncPolicy_eq_dec : EqDecision WalSyncPolicy.
Proof. solve_decision. Defined.

Inductive NodeRole := RoleCoordinator | RoleVolume.

Record CoordinatorConfig := mkCoordinatorConfig {
  cc_bind_addr : string;
  cc_grpc_addr : string;
  cc_db_path : string;
  cc_peers : list string;
  cc_replicas : Z;
  cc_election_timeout_ms : Z;
  cc_heartbeat_interval_ms : Z;
  cc_snapshot_threshold : Z;
  cc_num_shards : Z;
  cc_tls_cert_path : option string;
  cc_tls_key_path : option string;
}.

Definition default_replicas : Z := 3.
Definition default_election_timeout : Z := 300.
Definition default_heartbeat_interval : Z := 50.
Definition default_snapshot_threshold : Z := 10000.
Definition default_num_shards : Z := 256.

Definition CoordinatorConfig_default : CoordinatorConfig :=
  {| cc_bind_addr := "0.0.0.0:5000"; cc_grpc_addr := "0.0.0.0:5001";
     cc_db_path := "./coord-data"; cc_peers := [];
     cc_replicas := default_replicas;
     cc_election_timeout_ms := default_election_timeout;
     cc_heartbeat_interval_ms := default_heartbeat_interval;
     cc_snapshot_threshold := default_snapshot_threshold;
     cc_num_shards := default_num_shards;
     cc_tls_cert_path := None; cc_tls_key_path := None |}.

Record VolumeConfig := mkVolumeConfig {
  vc_bind_addr : string;
  vc_grpc_addr : string;
  vc_data_path : string;
  vc_wal_path : string;
  vc_coordinators : list string;
  vc_max_blob_size : Z;
  vc_compaction_interval_secs : Z;
  vc_compaction_threshold : Z;
  vc_heartbeat_interval_secs : Z;
  vc_enable_bloom : bool;
  vc_enable_snapshots : bool;
  vc_wal_sync : WalSyncPolicy;
}.

Definition default_max_blob_size : Z := 1024 * 1024 * 1024.
Definition default_compaction_interval : Z := 300.
Definition default_compaction_threshold : Z := 10.
Definition default_volume_heartbeat : Z := 10.

Definition VolumeConfig_default : VolumeConfig :=
  {| vc_bind_addr := "0.0.0.0:6000"; vc_grpc_addr := "0.0.0.0:6001";
     vc_data_path := "./vol-data"; vc_wal_path := "./vol-wal";
     vc_coordinators := ["http://localhost:5000"];
     vc_max_blob_size := default_max_blob_size;
     vc_compaction_interval_secs := default_compaction_interval;
     vc_compaction_threshold := default_compaction_threshold;
     vc_heartbeat_interval_secs := default_volume_heartbeat;
     vc_enable_bloom := true; vc_enable_snapshots := true;
     vc_wal_sync := Always |}.

Record Config := mkConfig {
  cfg_node_id : string;
  cfg_role : NodeRole;
  cfg_coordinator : option CoordinatorConfig;
  cfg_volume : option VolumeConfig;
  cfg_log_level : string;
}.

Definition config_validate (c : Config) : Result unit :=
  if bool_decide (cfg_node_id c = "") then Err (InvalidConfig "node_id is required") else
  match cfg_role c with
  | RoleCoordinator =>
      match cfg_coordinator c with
      | None => Err (InvalidConfig "coordinator config required")
      | Some _ => Ok tt
      end
  | RoleVolume =>
      match cfg_volume c with
      | None => Err (InvalidConfig "volume config required")
      | Some _ => Ok tt
      end
  end.

(** ** Runtime configuration, durations in milliseconds *)
Record RuntimeConfig := mkRuntimeConfig {
  request_timeout : Z; connect_timeout : Z; max_concurrent_requests : Z; max_retries : Z; retry_delay : Z }.
Definition RuntimeConfig_default : RuntimeConfig := mkRuntimeConfig 30000 5000 1000 3 100.

(** ** Files *)
Class ConfigJson := {
  config_to_json : Config → result string string;
  config_of_json : string → result string Config;
  config_json_inverse c text :
    config_to_json c = Ok text → valid_str text = true ∧ config_of_json text = Ok c;
}.

Section files.
Context {CJ : ConfigJson}.

(** [fs::read_to_string] *)
Definition read_to_string (p : path) (d : Disk) : Result string :=
  let? content := ok_or (Io IoNotFound) (file_at d p) in
  ok_or (Io IoOther) (from_utf8 content).

Definition from_file (p : path) (d : Disk) : Result Config :=
  let? content := read_to_string p d in
  map_err (λ e, Other ("Failed to parse config: " +:+ e)) (config_of_json content).
Definition to_file (c : Config) (p : path) (d : Disk) : Disk * Result unit :=
  match config_to_json c with
  | Err e => (d, Err (Other ("Failed to serialize config: " +:+ e)))
  | Ok content => (set_content p (as_bytes content) d, Ok tt)
  end.

(** A configuration that was saved is loaded back: after [to_file]
    succeeded, [from_file] returns the configuration, and files other than the
    one written are as they were; where it fails nothing changes. *)
Theorem config_file_roundtrip c p d :
  let '(d', r) := to_file c p d in
  (∀ q, q ≠ p → files d' !! q = files d !! q) ∧
  match r with Ok _ => from_file p d' = Ok c | Err _ => d' = d end.
Proof.
  unfold to_file. destruct (config_to_json c) as [text|e] eqn:E; [|done].
  destruct (config_json_inverse c text E) as [Hv Hj]. split.
  - intros q Hq. unfold set_content. cbn. by rewrite lookup_insert_ne.
  - unfold from_file, read_to_string, file_at, set_content. cbn. rewrite lookup_insert_eq. cbn.
    rewrite from_utf8_as_bytes by done. cbn. by rewrite Hj.
Qed.
End files.
