(* ===== verification/Wal.v ===== *)
(** * The write-ahead log

    [src/volume/wal.rs].  A log entry is
    [MAGIC ++ SEQUENCE ++ OP ++ KEY_LEN ++ VALUE_LEN ++ KEY ++ VALUE ++ CRC32];
    [Wal] appends entries through a buffered writer and [Wal::replay] reads
    them back up to the first entry that is incomplete or damaged.

    The theorems say that an entry that was written is read back, that a torn
    or damaged tail never yields an entry that was not written, that sequence
    numbers go on where the log ends, and what each sync policy guarantees
    about a crash. *)

From Stdlib Require Import ZArith Lia.
From Stdlib.Strings Require Import Byte.
From stdpp Require Import base option list gmap strings.
From S2P Require Import Prelude Bytes Text Errors Fs External Config.

Definition WAL_MAGIC : bytes := [x57; x41; x4c; x31].
Definition OP_PUT : byte := x01.
Definition OP_DELETE : byte := x02.

Inductive WalOp :=
  | Put (key : string) (value : bytes)
  | Delete (key : string).

Record WalEntry := mkEntry { we_sequence : Z; we_op : WalOp }.

Record Wal := mkWal {
  wal_path : path;
  wal_writer : BufWriter;
  next_sequence : Z;
  wal_sync_policy : WalSyncPolicy;
}.

Section wal.
Context {CRC : Crc32Fast}.

(** [crc32] of [src/common/utils.rs]. *)
Definition crc32 (data : bytes) : Z := crc32fast_hash data.

(** ** Reading *)
Definition read_exact (n : Z) (bs : bytes) : Result (bytes * bytes) :=
  ok_or (Io UnexpectedEof) (take_exact n bs).

Definition read_entry_internal (reader : bytes) : Result (option (WalEntry * bytes)) :=
  match take_exact 4 reader with
  | None => Ok None
  | Some (magic, reader) =>
    if negb (bool_decide (magic = WAL_MAGIC)) then Err (WalError "Invalid WAL magic") else
    let? '(seq_bytes, reader) := read_exact 8 reader in
    let sequence := from_le seq_bytes in
    let? '(op, reader) := read_exact 1 reader in
    let op0 := hd x00 op in
    let? '(key_len_bytes, reader) := read_exact 4 reader in
    let key_len := from_le key_len_bytes in
    let? '(val_len_bytes, reader) := read_exact 4 reader in
    let val_len := from_le val_len_bytes in
    let? '(key_bytes, reader) := read_exact key_len reader in
    let? key := ok_or (WalError "Invalid UTF-8 in key") (from_utf8 key_bytes) in
    let? '(value, reader) :=
      if byte_eqb op0 OP_PUT
      then let? '(val, reader) := read_exact val_len reader in Ok (Some val, reader)
      else Ok (None, reader) in
    let? '(checksum_bytes, reader) := read_exact 4 reader in
    let stored_checksum := from_le checksum_bytes in
    let checksum_data :=
      seq_bytes ++ [op0] ++ key_len_bytes ++ val_len_bytes ++ as_bytes key ++
      unwrap_or [] value in
    if negb (crc32 checksum_data =? stored_checksum) then Err (WalError "Checksum mismatch") else
    if byte_eqb op0 OP_PUT
    then Ok (Some (mkEntry sequence (Put key (unwrap_or [] value)), reader))
    else if byte_eqb op0 OP_DELETE
    then Ok (Some (mkEntry sequence (Delete key), reader))
    else Err (WalError ("Unknown op code: " +:+ show_dec (Z_of_byte op0)))
  end.

(** The loop of [find_last_sequence]; every entry read shortens [reader], so
    its length bounds the number of turns. *)
Fixpoint max_sequence_loop (fuel : nat) (reader : bytes) (max_seq : option Z) : option Z :=
  match fuel with
  | O => max_seq
  | S fuel =>
    match read_entry_internal reader with
    | Ok (Some (entry, reader)) =>
        max_sequence_loop fuel reader
          (Some (Z.max (unwrap_or 0 max_seq) (we_sequence entry)))
    | Ok None => max_seq
    | Err _ => max_seq
    end
  end.

Definition find_last_sequence (path : path) (d : Disk) : Result Z :=
  match file_at d path with
  | None => Ok 0
  | Some bs =>
      Ok (match max_sequence_loop (S (length bs)) bs None with
          | Some s => add64 s 1
          | None => 0
          end)
  end.

(** The loop of [replay], with the state the callback works on. *)
Fixpoint replay_loop {A} (fuel : nat) (callback : A → WalEntry → Result A)
    (reader : bytes) (a : A) : Result A :=
  match fuel with
  | O => Ok a
  | S fuel =>
    match read_entry_internal reader with
    | Ok (Some (entry, reader)) =>
        let? a := callback a entry in replay_loop fuel callback reader a
    | Ok None => Ok a
    | Err _ => Ok a
    end
  end.

Definition wal_replay {A} (path : path) (callback : A → WalEntry → Result A)
    (a : A) (d : Disk) : Result A :=
  match file_at d path with
  | None => Ok a
  | Some bs => replay_loop (S (length bs)) callback bs a
  end.

(** ** Writing *)
Definition with_writer {E} (f : BufWriter * Disk → BufWriter * Disk) : proc (Wal * Disk) E unit :=
  λ '(w, d), let '(wr, d') := f (wal_writer w, d) in
             ((mkWal (wal_path w) wr (next_sequence w) (wal_sync_policy w), d'), Ok tt).

Definition writer_write_all (data : bytes) : proc (Wal * Disk) Error unit :=
  with_writer (bw_write_all data).
Definition writer_flush : proc (Wal * Disk) Error unit := with_writer bw_flush.
Definition writer_sync_all : proc (Wal * Disk) Error unit := with_writer bw_sync.

Definition write_entry (sequence : Z) (op : byte) (key : string) (value : option bytes)
    : proc (Wal * Disk) Error unit :=
  let key_bytes := as_bytes key in
  let val_bytes := unwrap_or [] value in
  let! _ := writer_write_all WAL_MAGIC in
  let! _ := writer_write_all (u64_le sequence) in
  let! _ := writer_write_all [op] in
  let! _ := writer_write_all (u32_le (as_u32 (zlen key_bytes))) in
  let! _ := writer_write_all (u32_le (as_u32 (zlen val_bytes))) in
  let! _ := writer_write_all key_bytes in
  let! _ := (if byte_eqb op OP_PUT then writer_write_all val_bytes else pret tt) in
  let checksum_data :=
    u64_le sequence ++ [op] ++ u32_le (as_u32 (zlen key_bytes)) ++
    u32_le (as_u32 (zlen val_bytes)) ++ key_bytes ++
    (if byte_eqb op OP_PUT then val_bytes else []) in
  writer_write_all (u32_le (crc32 checksum_data)).

Definition maybe_sync : proc (Wal * Disk) Error unit :=
  λ '(w, d),
  match wal_sync_policy w with
  | Always => (let! _ := writer_flush in writer_sync_all) (w, d)
  | Interval => writer_flush (w, d)
  | Never => ((w, d), Ok tt)
  end.

(** [let sequence = self.next_sequence; self.next_sequence += 1] *)
Definition take_sequence : proc (Wal * Disk) Error Z :=
  λ '(w, d), ((mkWal (wal_path w) (wal_writer w) (add64 (next_sequence w) 1) (wal_sync_policy w), d),
              Ok (next_sequence w)).

Definition append_put (key : string) (value : bytes) : proc (Wal * Disk) Error Z :=
  let! sequence := take_sequence in
  let! _ := write_entry sequence OP_PUT key (Some value) in
  let! _ := maybe_sync in
  pret sequence.

Definition append_delete (key : string) : proc (Wal * Disk) Error Z :=
  let! sequence := take_sequence in
  let! _ := write_entry sequence OP_DELETE key None in
  let! _ := maybe_sync in
  pret sequence.

Definition wal_sync : proc (Wal * Disk) Error unit :=
  let! _ := writer_flush in writer_sync_all.

(** [Wal::open]; the parent directory is the path without its last component. *)
Definition wal_open (path : path) (sync_policy : WalSyncPolicy) (d : Disk)
    : Disk * Result Wal :=
  let d := match path with [] => d | _ => create_dir_all (removelast path) d end in
  let d := open_create path d in
  match find_last_sequence path d with
  | Ok next_sequence => (d, Ok (mkWal path (mkWriter path WAppend []) next_sequence sync_policy))
  | Err e => (d, Err e)
  end.

(** [Wal::truncate]: the new writer is not in append mode, it starts at 0. *)
Definition wal_truncate : proc (Wal * Disk) Error unit :=
  let! _ := writer_flush in
  λ '(w, d),
  match file_at d (wal_path w) with
  | None => ((w, d), Err (Io IoNotFound))
  | Some _ =>
      ((mkWal (wal_path w) (mkWriter (wal_path w) (WAt 0) []) 0 (wal_sync_policy w),
        open_truncate (wal_path w) d), Ok tt)
  end.

(** ** The format of an entry *)
Definition op_parts (o : WalOp) : byte * string * bytes :=
  match o with
  | Put key value => (OP_PUT, key, value)
  | Delete key => (OP_DELETE, key, [])
  end.

Definition entry_body (e : WalEntry) : bytes :=
  let '(op, key, value) := op_parts (we_op e) in
  u64_le (we_sequence e) ++ [op] ++ u32_le (zlen (as_bytes key)) ++
  u32_le (zlen value) ++ as_bytes key ++ value.

Definition entry_bytes (e : WalEntry) : bytes :=
  WAL_MAGIC ++ entry_body e ++ u32_le (crc32 (entry_body e)).

Definition log_bytes (es : list WalEntry) : bytes := concat (map entry_bytes es).

(** What fits the fields: the sequence number is a [u64], lengths are [u32],
    and the key is a Rust string. *)
Definition wf_op (o : WalOp) : bool :=
  let '(_, key, value) := op_parts o in
  valid_str key && is_u32 (str_len key) && is_u32 (zlen value).
Definition wf_entry (e : WalEntry) : bool := is_u64 (we_sequence e) && wf_op (we_op e).

(** The entries at the start of [bs], up to the first that cannot be read. *)
Fixpoint read_all_loop (fuel : nat) (bs : bytes) : list WalEntry :=
  match fuel with
  | O => []
  | S fuel =>
    match read_entry_internal bs with
    | Ok (Some (e, bs)) => e :: read_all_loop fuel bs
    | _ => []
    end
  end.
Definition read_all (bs : bytes) : list WalEntry := read_all_loop (S (length bs)) bs.

(** The fields of an entry as the reader finds them. *)
Definition entry_layout (bs : bytes) (e : WalEntry) (rest : bytes) : Prop :=
  ∃ sb ob kl vl vb cb,
    let '(op, key, value) := op_parts (we_op e) in
    bs = WAL_MAGIC ++ sb ++ [ob] ++ kl ++ vl ++ as_bytes key ++ vb ++ cb ++ rest ∧
    length sb = 8%nat ∧ length kl = 4%nat ∧ length vl = 4%nat ∧ length cb = 4%nat ∧
    ob = op ∧ vb = value ∧ valid_str key = true ∧
    we_sequence e = from_le sb ∧
    from_le kl = str_len key ∧
    (op = OP_PUT → from_le vl = zlen value) ∧
    from_le cb = crc32 (sb ++ [ob] ++ kl ++ vl ++ as_bytes key ++ value).

Lemma read_exact_app pre rest n :
  zlen pre = n → read_exact n (pre ++ rest) = Ok (pre, rest).
Proof. intros H. unfold read_exact. by rewrite take_exact_app. Qed.

Lemma read_exact_Ok n bs pre rest :
  0 ≤ n → read_exact n bs = Ok (pre, rest) → bs = pre ++ rest ∧ zlen pre = n.
Proof. unfold read_exact. intros Hn H%ok_or_Ok. by apply take_exact_Some. Qed.

Lemma byte_eqb_eq a b : byte_eqb a b = true ↔ a = b.
Proof. unfold byte_eqb. split; [apply Byte.byte_dec_bl|apply Byte.byte_dec_lb]. Qed.

Lemma byte_eqb_refl a : byte_eqb a a = true.
Proof. by apply byte_eqb_eq. Qed.

Lemma zlen_length {A} (l : list A) n : zlen l = Z.of_nat n → length l = n.
Proof. unfold zlen. lia. Qed.

(** The reader accepts exactly the byte strings laid out as an entry. *)
Lemma read_entry_layout bs e rest :
  entry_layout bs e rest → read_entry_internal bs = Ok (Some (e, rest)).
Proof.
  intros (sb & ob & kl & vl & vb & cb & H).
  destruct e as [seq o]. cbn [we_op we_sequence] in H.
  destruct (op_parts o) as [[op key] value] eqn:Eo.
  destruct H as (-> & Hsb & Hkl & Hvl & Hcb & -> & -> & Hkey & -> & Ekl & Evl & Ecb).
  unfold read_entry_internal.
  rewrite (take_exact_app WAL_MAGIC) by done. rewrite bool_decide_true by done. cbn [negb].
  rewrite (read_exact_app sb) by (unfold zlen; lia). cbn [rbind].
  rewrite (read_exact_app [op]) by done. cbn [rbind hd].
  rewrite (read_exact_app kl) by (unfold zlen; lia). cbn [rbind].
  rewrite (read_exact_app vl) by (unfold zlen; lia). cbn [rbind].
  rewrite (read_exact_app (as_bytes key)) by done. cbn [rbind].
  rewrite from_utf8_as_bytes by done. cbn [ok_or rbind].
  destruct o as [k v|k]; injection Eo as <- <- <-.
  - rewrite byte_eqb_refl. rewrite (read_exact_app v) by (by rewrite Evl). cbn [rbind].
    rewrite (read_exact_app cb) by (unfold zlen; lia). cbn [rbind unwrap_or].
    rewrite Ecb, Z.eqb_refl. done.
  - change (byte_eqb OP_DELETE OP_PUT) with false. cbn [rbind app].
    rewrite (read_exact_app cb) by (unfold zlen; lia). cbn [rbind unwrap_or].
    rewrite Ecb. cbn [app]. by rewrite Z.eqb_refl.
Qed.

Lemma read_entry_inv bs e rest :
  read_entry_internal bs = Ok (Some (e, rest)) → entry_layout bs e rest.
Proof.
  unfold read_entry_internal.
  destruct (take_exact 4 bs) as [[magic r]|] eqn:Em; [|done].
  apply take_exact_Some in Em as [-> Lm]; [|lia].
  destruct (bool_decide (magic = WAL_MAGIC)) eqn:Eg; [|done]. cbn [negb].
  apply bool_decide_eq_true in Eg as ->. intros H.
  bind_inv H. destruct a as [sb r1]. apply read_exact_Ok in E as [-> Hsb]; [|lia].
  bind_inv H. destruct a as [ob r2]. apply read_exact_Ok in E as [-> Hob]; [|lia].
  bind_inv H. destruct a as [kl r3]. apply read_exact_Ok in E as [-> Hkl]; [|lia].
  bind_inv H. destruct a as [vl r4]. apply read_exact_Ok in E as [-> Hvl]; [|lia].
  bind_inv H. destruct a as [kb r5].
  apply read_exact_Ok in E as [-> Hkb]; [|apply from_le_range].
  bind_inv H. apply ok_or_Ok, from_utf8_Some in E as [<- Hkey].
  bind_inv H. destruct a0 as [val r6]. bind_inv H. destruct a0 as [cb r7].
  apply read_exact_Ok in E0 as [-> Hcb]; [|lia].
  destruct ob as [|o [|? ?]]; try (unfold zlen in Hob; simpl in Hob; lia). cbn [hd] in *.
  destruct (Z.eqb_spec (crc32 (sb ++ [o] ++ kl ++ vl ++ as_bytes a ++ unwrap_or [] val))
              (from_le cb)) as [Hc|]; [|done].
  cbn [negb] in H. destruct (byte_eqb o OP_PUT) eqn:Eput.
  - bind_inv E. destruct a0 as [vb r8].
    apply read_exact_Ok in E0 as [-> Hv]; [|apply from_le_range]. simplify_eq/=.
    apply byte_eqb_eq in Eput as ->.
    exists sb, OP_PUT, kl, vl, vb, cb. simpl. unfold str_len.
    repeat split; try done; apply zlen_length; lia.
  - destruct (byte_eqb o OP_DELETE) eqn:Edel; [|done]. simplify_eq/=.
    apply byte_eqb_eq in Edel as ->.
    exists sb, OP_DELETE, kl, vl, [], cb. simpl. unfold str_len.
    repeat split; try done; apply zlen_length; lia.
Qed.

Lemma wf_entry_spec e :
  wf_entry e = true ↔
  let '(_, key, value) := op_parts (we_op e) in
  0 ≤ we_sequence e < 2 ^ 64 ∧ valid_str key = true ∧
  0 ≤ str_len key < 2 ^ 32 ∧ 0 ≤ zlen value < 2 ^ 32.
Proof.
  unfold wf_entry, wf_op. destruct (op_parts (we_op e)) as [[? ?] ?].
  rewrite !andb_true_iff, is_u64_spec, !is_u32_spec. tauto.
Qed.

Lemma entry_bytes_layout e rest :
  wf_entry e = true → entry_layout (entry_bytes e ++ rest) e rest.
Proof.
  intros H%wf_entry_spec. unfold entry_bytes, entry_body, entry_layout in *.
  destruct (op_parts (we_op e)) as [[op key] value].
  destruct H as (Hs & Hk & Hkl & Hvl).
  eexists (u64_le (we_sequence e)), op, (u32_le (zlen (as_bytes key))),
    (u32_le (zlen value)), value, (u32_le _).
  rewrite <- !app_assoc. split; [reflexivity|].
  rewrite length_u64_le, !length_u32_le. pose proof (crc32fast_range (u64_le (we_sequence e) ++
    [op] ++ u32_le (zlen (as_bytes key)) ++ u32_le (zlen value) ++ as_bytes key ++ value)).
  rewrite from_u64_le_small, !from_u32_le_small by done. done.
Qed.

Lemma read_entry_bytes e rest :
  wf_entry e = true → read_entry_internal (entry_bytes e ++ rest) = Ok (Some (e, rest)).
Proof. intros H. by apply read_entry_layout, entry_bytes_layout. Qed.

(** More bytes after an entry do not change how it is read. *)
Lemma read_entry_extend bs e rest q :
  read_entry_internal bs = Ok (Some (e, rest)) →
  read_entry_internal (bs ++ q) = Ok (Some (e, rest ++ q)).
Proof.
  intros (sb & ob & kl & vl & vb & cb & H)%read_entry_inv. apply read_entry_layout.
  exists sb, ob, kl, vl, vb, cb. destruct (op_parts (we_op e)) as [[op key] value].
  destruct H as (-> & H). split; [|done]. by rewrite <- !app_assoc.
Qed.

Lemma read_entry_shorter bs e rest :
  read_entry_internal bs = Ok (Some (e, rest)) → (length rest < length bs)%nat.
Proof.
  intros (sb & ob & kl & vl & vb & cb & H)%read_entry_inv.
  destruct (op_parts (we_op e)) as [[op key] value]. destruct H as (-> & _).
  rewrite !length_app. simpl. lia.
Qed.

(** A proper prefix of an entry is not read as an entry. *)
Lemma read_entry_torn e p q :
  wf_entry e = true → entry_bytes e = p ++ q → q ≠ [] →
  ∀ r, read_entry_internal p ≠ Ok (Some r).
Proof.
  intros Hwf Heq Hq [e' rest] Hr. apply (read_entry_extend _ _ _ q) in Hr.
  rewrite <- Heq, <- (app_nil_r (entry_bytes e)), read_entry_bytes in Hr by done.
  injection Hr as _ Hr. symmetry in Hr. by apply app_nil in Hr as [_ ->].
Qed.

(** *** Reading a whole log *)
Lemma read_all_loop_fuel n m bs :
  (length bs < n)%nat → (length bs < m)%nat → read_all_loop n bs = read_all_loop m bs.
Proof.
  revert m bs; induction n as [|n IH]; intros m bs Hn Hm; [lia|].
  destruct m as [|m]; [lia|]. simpl.
  destruct (read_entry_internal bs) as [[[e r]|]|] eqn:E; try done.
  apply read_entry_shorter in E. f_equal. apply IH; lia.
Qed.

Lemma read_all_unfold bs :
  read_all bs = match read_entry_internal bs with
                | Ok (Some (e, r)) => e :: read_all r
                | _ => []
                end.
Proof.
  unfold read_all at 1. cbn [read_all_loop].
  destruct (read_entry_internal bs) as [[[e r]|]|] eqn:E; try done.
  apply read_entry_shorter in E. f_equal. apply read_all_loop_fuel; lia.
Qed.

Lemma read_all_log es rest :
  Forall (λ e, wf_entry e = true) es → read_all (log_bytes es ++ rest) = es ++ read_all rest.
Proof.
  induction 1 as [|e es He _ IH]; [done|]. cbn [log_bytes map concat].
  rewrite <- app_assoc, read_all_unfold, read_entry_bytes by done. simpl. by f_equal.
Qed.

Lemma read_all_torn e p q :
  wf_entry e = true → entry_bytes e = p ++ q → q ≠ [] → read_all p = [].
Proof.
  intros Hwf Heq Hq. rewrite read_all_unfold.
  pose proof (read_entry_torn e p q Hwf Heq Hq) as Ht.
  destruct (read_entry_internal p) as [[[e' r]|]|]; try done. by destruct (Ht (e', r)).
Qed.

(** Every prefix of a log is read as a prefix of its entries. *)
Lemma read_all_prefix es p :
  Forall (λ e, wf_entry e = true) es → p `prefix_of` log_bytes es →
  ∃ k, read_all p = take k es.
Proof.
  intros Hes. revert p. induction Hes as [|e es He _ IH]; intros p Hp.
  - exists 0%nat. destruct Hp as [q Hq]. symmetry in Hq. simpl in Hq.
    by apply app_nil in Hq as [-> _].
  - cbn [log_bytes map concat] in Hp. destruct Hp as [q Hq].
    destruct (decide (length (entry_bytes e) ≤ length p)%nat) as [Hle|Hgt].
    + assert (∃ p', p = entry_bytes e ++ p') as [p' ->].
      { exists (drop (length (entry_bytes e)) p).
        rewrite <- (take_drop (length (entry_bytes e)) p) at 1. f_equal.
        apply (f_equal (take (length (entry_bytes e)))) in Hq.
        rewrite take_app_length, take_app_le in Hq by done. done. }
      rewrite <- app_assoc in Hq. apply app_inv_head in Hq.
      destruct (IH p') as [k Hk]; [by exists q|]. exists (S k).
      rewrite read_all_unfold, read_entry_bytes by done. simpl. by rewrite Hk.
    + exists 0%nat. apply (read_all_torn e p (drop (length p) (entry_bytes e))); [done| |].
      * rewrite <- (take_drop (length p) (entry_bytes e)) at 1. f_equal.
        apply (f_equal (take (length p))) in Hq.
        rewrite take_app_length in Hq. rewrite take_app_le in Hq by lia. done.
      * intros E%(f_equal length). rewrite length_drop in E. change (length []) with 0%nat in E. lia.
Qed.

Fixpoint foldM {A B} (f : A → B → Result A) (l : list B) (a : A) : Result A :=
  match l with
  | [] => Ok a
  | x :: l => let? a := f a x in foldM f l a
  end.

(** The two loops of the code, by the entries they see. *)
Lemma replay_loop_read_all {A} (f : A → WalEntry → Result A) n bs a :
  (length bs < n)%nat → replay_loop n f bs a = foldM f (read_all bs) a.
Proof.
  revert bs a; induction n as [|n IH]; intros bs a Hn; [lia|]. cbn [replay_loop].
  rewrite read_all_unfold. destruct (read_entry_internal bs) as [[[e r]|]|] eqn:E; try done.
  apply read_entry_shorter in E. simpl. destruct (f a e); simpl; [|done]. apply IH. lia.
Qed.

Lemma max_sequence_loop_read_all n bs o :
  (length bs < n)%nat →
  max_sequence_loop n bs o =
  fold_left (λ o e, Some (Z.max (unwrap_or 0 o) (we_sequence e))) (read_all bs) o.
Proof.
  revert bs o; induction n as [|n IH]; intros bs o Hn; [lia|]. cbn [max_sequence_loop].
  rewrite read_all_unfold. destruct (read_entry_internal bs) as [[[e r]|]|] eqn:E; try done.
  apply read_entry_shorter in E. simpl. apply IH. lia.
Qed.

Lemma wal_replay_read_all {A} p (f : A → WalEntry → Result A) a d bs :
  file_at d p = Some bs → wal_replay p f a d = foldM f (read_all bs) a.
Proof. intros H. unfold wal_replay. rewrite H. apply replay_loop_read_all. lia. Qed.

(** *** Writing through the buffer

    [writes c data]: run with a writer at the end of its file, [c] succeeds
    and what is written grows by [data]. *)
Definition same_wal (w w' : Wal) : Prop :=
  wal_path w' = wal_path w ∧ next_sequence w' = next_sequence w ∧
  wal_sync_policy w' = wal_sync_policy w.

Definition writes (c : proc (Wal * Disk) Error unit) (data : bytes) : Prop :=
  ∀ w d, at_end (wal_writer w) d →
  ∃ w' d', c (w, d) = ((w', d'), Ok tt) ∧ same_wal w w' ∧
           appended data (wal_writer w) d (wal_writer w') d'.

Lemma writes_bind c k x y :
  writes c x → writes k y → writes (let! _ := c in k) (x ++ y).
Proof.
  intros Hc Hk w d Hend. destruct (Hc w d Hend) as (w1 & d1 & E1 & S1 & A1).
  pose proof A1 as (Hend1 & _). destruct (Hk w1 d1 Hend1) as (w2 & d2 & E2 & S2 & A2).
  exists w2, d2. unfold pbind. rewrite E1, E2. split; [done|]. split.
  - destruct S1 as (? & ? & ?), S2 as (? & ? & ?). repeat split; congruence.
  - by eapply appended_trans.
Qed.

Lemma writes_with_writer f data :
  (∀ w d w' d', at_end w d → f (w, d) = (w', d') → appended data w d w' d') →
  writes (with_writer f) data.
Proof.
  intros Hf w d Hend. destruct (f (wal_writer w, d)) as [wr d'] eqn:E.
  eexists _, d'. unfold with_writer. rewrite E. split; [done|]. split; [done|].
  simpl. by apply Hf.
Qed.

Lemma writes_write_all data : writes (writer_write_all data) data.
Proof. apply writes_with_writer. intros. by apply bw_write_all_appended. Qed.

Lemma writes_flush : writes writer_flush [].
Proof. apply writes_with_writer. intros. by apply bw_flush_appended. Qed.

Lemma writes_sync : writes writer_sync_all [].
Proof. apply writes_with_writer. intros w d w' d' H [= <- <-]. by apply bw_sync_appended. Qed.

Lemma writes_pret : writes (pret tt) [].
Proof.
  intros w d H. exists w, d. split; [done|]. split; [done|].
  repeat split; [done|]. by rewrite app_nil_r.
Qed.

Lemma writes_ext c x y : x = y → writes c x → writes c y.
Proof. by intros ->. Qed.

Lemma write_entry_writes seq o :
  let '(op, key, value) := op_parts o in
  writes (write_entry seq op key (match o with Put _ v => Some v | Delete _ => None end))
         (entry_bytes (mkEntry seq o)).
Proof.
  destruct o as [key value|key]; simpl op_parts; unfold write_entry; cbn [unwrap_or];
    change (byte_eqb OP_PUT OP_PUT) with true; change (byte_eqb OP_DELETE OP_PUT) with false;
    cbv iota; rewrite !u32_le_as_u32;
    (eapply writes_ext; [|
      repeat (eapply writes_bind; [first [apply writes_write_all|apply writes_pret]|]);
      apply writes_write_all]);
    unfold entry_bytes, entry_body; cbn [op_parts we_op we_sequence app];
    by rewrite <- ?app_assoc; cbn [app]; rewrite <- ?app_assoc.
Qed.

Lemma maybe_sync_writes : writes maybe_sync [].
Proof.
  intros w d Hend. unfold maybe_sync. destruct (wal_sync_policy w).
  - by apply (writes_bind _ _ [] [] writes_flush writes_sync).
  - by apply writes_flush.
  - by apply writes_pret.
Qed.

(** [Wal::append_put] or [Wal::append_delete], by the operation logged. *)
Definition append_op (o : WalOp) : proc (Wal * Disk) Error Z :=
  match o with Put key value => append_put key value | Delete key => append_delete key end.

(** The log holds the entries [es], numbered from 0, and the next entry gets
    the next number. *)
Definition numbered (es : list WalEntry) : Prop :=
  ∀ i e, es !! i = Some e → we_sequence e = Z.of_nat i.

Definition wal_inv (es : list WalEntry) (w : Wal) (d : Disk) : Prop :=
  at_end (wal_writer w) d ∧ bw_path (wal_writer w) = wal_path w ∧
  written (wal_writer w) d = log_bytes es ∧ numbered es ∧
  Forall (λ e, wf_entry e = true) es ∧
  next_sequence w = zlen es.

Lemma numbered_snoc es o :
  numbered es → numbered (es ++ [mkEntry (zlen es) o]).
Proof.
  intros H i e Hi. apply lookup_app_Some in Hi as [Hi|[Hle Hi]]; [by apply H|].
  apply list_lookup_singleton_Some in Hi as [Hi <-]. unfold zlen. simpl. lia.
Qed.

Lemma log_bytes_snoc es e : log_bytes (es ++ [e]) = log_bytes es ++ entry_bytes e.
Proof. unfold log_bytes. rewrite map_app, concat_app. simpl. by rewrite app_nil_r. Qed.

Lemma append_op_steps o w d :
  append_op o (w, d) =
  (let! _ := (let! _ := write_entry (next_sequence w) (fst (fst (op_parts o)))
                          (snd (fst (op_parts o)))
                          (match o with Put _ v => Some v | Delete _ => None end) in
              maybe_sync) in
   pret (next_sequence w))
    (mkWal (wal_path w) (wal_writer w) (add64 (next_sequence w) 1) (wal_sync_policy w), d).
Proof.
  destruct o; simpl; unfold append_put, append_delete, pbind; simpl;
    repeat (case_match; simplify_eq/=; try done).
Qed.

(** Appending writes one entry, with the number the log was at. *)
Lemma append_op_inv es o w d :
  wal_inv es w d → wf_op o = true → zlen es + 1 < 2 ^ 64 →
  ∃ w' d', append_op o (w, d) = ((w', d'), Ok (zlen es)) ∧
    wal_inv (es ++ [mkEntry (zlen es) o]) w' d' ∧
    wal_path w' = wal_path w ∧ wal_sync_policy w' = wal_sync_policy w ∧
    dirs d' = dirs d ∧ ∀ q, q ≠ wal_path w → files d' !! q = files d !! q.
Proof.
  intros (Hend & Hp & Hw & Hn & Hwf & Hs) Ho Hmax.
  pose proof (write_entry_writes (next_sequence w) o) as We.
  pose proof (zlen_nonneg es) as H0.
  rewrite append_op_steps.
  destruct (op_parts o) as [[op key] value]; cbn [fst snd].
  set (w0 := mkWal _ _ _ _).
  destruct (writes_bind _ _ _ _ We maybe_sync_writes w0 d Hend)
    as (w' & d' & E & (S1 & S2 & S3) & A1 & A2 & A3 & A4 & A5).
  exists w', d'. unfold pbind at 1. rewrite E. unfold pret. rewrite Hs.
  split; [done|].
  split; [|do 3 (split; [done|]); intros q Hq; apply A5; simpl; congruence].
  split; [done|]. split; [simpl in *; congruence|].
  split; [rewrite A3, app_nil_r, log_bytes_snoc; simpl; by rewrite Hw, Hs|].
  split; [by apply numbered_snoc|]. split.
  - apply Forall_app. split; [done|]. constructor; [|constructor].
    unfold wf_entry. simpl. rewrite Ho, (proj2 (is_u64_spec _)) by lia. done.
  - rewrite S2. simpl. rewrite Hs, add64_small, zlen_app by lia. done.
Qed.

(** *** Sync policies *)
Lemma maybe_sync_policy w d w' d' r :
  at_end (wal_writer w) d → maybe_sync (w, d) = ((w', d'), r) →
  (wal_sync_policy w ≠ Never → bw_buf (wal_writer w') = []) ∧
  (wal_sync_policy w = Always →
   durable <$> files d' !! bw_path (wal_writer w') = file_at d' (bw_path (wal_writer w'))).
Proof.
  intros Hend. unfold maybe_sync, writer_flush, writer_sync_all, with_writer, pbind.
  destruct (bw_flush (wal_writer w, d)) as [wr1 d1] eqn:E1.
  destruct (bw_flush_appended _ _ _ _ Hend E1) as [((c & Hc & _) & _) Hb].
  destruct (wal_sync_policy w); intros [= <- <- <-]; simpl; split; try done.
  intros _. rewrite file_at_sync_all, Hc. by apply sync_all_durable.
Qed.

Lemma append_op_policy o w d w' d' r :
  at_end (wal_writer w) d → append_op o (w, d) = ((w', d'), r) →
  (wal_sync_policy w ≠ Never → bw_buf (wal_writer w') = []) ∧
  (wal_sync_policy w = Always →
   durable <$> files d' !! bw_path (wal_writer w') = file_at d' (bw_path (wal_writer w'))).
Proof.
  intros Hend. rewrite append_op_steps. pose proof (write_entry_writes (next_sequence w) o) as We.
  destruct (op_parts o) as [[op key] value]; cbn [fst snd]. set (w0 := mkWal _ _ _ _).
  destruct (We w0 d Hend) as (w1 & d1 & E1 & (_ & _ & S3) & A1 & _).
  unfold pbind. rewrite E1. destruct (maybe_sync (w1, d1)) as [[w2 d2] r2] eqn:E2.
  apply maybe_sync_policy in E2; [|done]. rewrite S3 in E2. simpl in E2.
  destruct r2; intros [= <- <- <-]; done.
Qed.

(** Appending the operations of a list one after the other. *)
Fixpoint wal_run (os : list WalOp) : proc (Wal * Disk) Error (list Z) :=
  match os with
  | [] => pret []
  | o :: os => let! s := append_op o in let! ss := wal_run os in pret (s :: ss)
  end.

(** The entries that [os] makes, numbered from [n]. *)
Fixpoint entries_from (n : Z) (os : list WalOp) : list WalEntry :=
  match os with
  | [] => []
  | o :: os => mkEntry n o :: entries_from (n + 1) os
  end.

(** What a power failure may leave of an append-only file: all that is known
    to be durable, and any part of what was written after it. *)
Definition crash_of (f : file) (c : bytes) : Prop :=
  durable f `prefix_of` c ∧ c `prefix_of` content f.

(** The policy's promise about the log file, once [es] are appended. *)
Definition policy_inv (w : Wal) (d : Disk) : Prop :=
  (wal_sync_policy w ≠ Never → bw_buf (wal_writer w) = []) ∧
  (wal_sync_policy w = Always →
   durable <$> files d !! wal_path w = file_at d (wal_path w)).

Lemma wal_run_inv os es w d :
  wal_inv es w d → Forall (λ o, wf_op o = true) os → zlen es + zlen os < 2 ^ 64 →
  ∃ w' d', wal_run os (w, d) = ((w', d'), Ok (we_sequence <$> entries_from (zlen es) os)) ∧
    wal_inv (es ++ entries_from (zlen es) os) w' d' ∧ (policy_inv w d → policy_inv w' d') ∧
    wal_path w' = wal_path w ∧ wal_sync_policy w' = wal_sync_policy w.
Proof.
  revert es w d; induction os as [|o os IH]; intros es w d Hinv Hos Hmax.
  { exists w, d. simpl. by rewrite app_nil_r. }
  inversion Hos as [|? ? Ho Hos']; subst. rewrite zlen_cons in Hmax.
  pose proof (zlen_nonneg os). destruct (append_op_inv es o w d Hinv Ho ltac:(lia))
    as (w1 & d1 & E1 & Hinv1 & P1 & S1 & _).
  assert (policy_inv w1 d1) as Hpol1.
  { destruct (append_op_policy _ _ _ _ _ _ (proj1 Hinv) E1) as [H1 H2].
    rewrite (proj1 (proj2 Hinv1)) in H2. unfold policy_inv. by rewrite S1. }
  destruct (IH _ w1 d1 Hinv1 Hos') as (w2 & d2 & E2 & Hinv2 & Hpol2 & P2 & S2).
  { rewrite zlen_app. unfold zlen at 2. simpl. lia. }
  rewrite zlen_app in E2, Hinv2. change (zlen [_]) with 1 in E2, Hinv2.
  exists w2, d2. cbn [wal_run]. unfold pbind. rewrite E1, E2. unfold pret.
  split; [done|]. rewrite <- app_assoc in Hinv2.
  split; [done|]. split; [by intros _; apply Hpol2|]. split; congruence.
Qed.

Lemma fold_max_numbered es n o :
  0 ≤ n → unwrap_or 0 o = Z.max 0 (n - 1) →
  fold_left (λ o e, Some (Z.max (unwrap_or 0 o) (we_sequence e))) (entries_from n es) o =
  match es with [] => o | _ => Some (n + zlen es - 1) end.
Proof.
  revert n o; induction es as [|e es IH]; intros n o Hn Ho; [done|].
  cbn [entries_from fold_left]. rewrite IH by (simpl; lia). rewrite zlen_cons.
  destruct es; simpl; [|f_equal; lia]. rewrite Ho. f_equal. unfold zlen. simpl. lia.
Qed.

Lemma numbered_entries_from es n :
  (∀ i e, es !! i = Some e → we_sequence e = n + Z.of_nat i) →
  es = entries_from n (we_op <$> es).
Proof.
  revert n; induction es as [|e es IH]; intros n H; [done|]. simpl. f_equal.
  - specialize (H 0%nat e eq_refl). destruct e; simpl in *. f_equal. lia.
  - apply IH. intros i e' Hi. specialize (H (S i) e' Hi). lia.
Qed.

Lemma zlen_entries_from n os : zlen (entries_from n os) = zlen os.
Proof.
  revert n; induction os as [|o os IH]; intros n; [done|].
  cbn [entries_from]. by rewrite !zlen_cons, IH.
Qed.

Lemma find_last_sequence_log p d bs es :
  file_at d p = Some bs → read_all bs = es → numbered es → zlen es < 2 ^ 64 →
  find_last_sequence p d = Ok (zlen es).
Proof.
  intros Hf Hr Hn Hl. unfold find_last_sequence. rewrite Hf.
  rewrite max_sequence_loop_read_all, Hr by lia. clear Hr Hf.
  assert (es = entries_from 0 (we_op <$> es)) as Ees.
  { apply numbered_entries_from. intros i e Hi. rewrite (Hn i e Hi). lia. }
  revert Ees Hl. generalize (we_op <$> es). intros os -> Hl.
  rewrite fold_max_numbered, zlen_entries_from in * by done.
  pose proof (zlen_nonneg os). destruct os as [|o os]; [done|].
  rewrite add64_small by lia. f_equal. lia.
Qed.

(** *** Opening, syncing, truncating *)
Lemma wal_open_file p pol d :
  ∃ d0, wal_open p pol d =
    (d0, let? n := find_last_sequence p d0 in Ok (mkWal p (mkWriter p WAppend []) n pol)) ∧
  file_at d0 p = Some (unwrap_or [] (file_at d p)) ∧
  (∀ q, q ≠ p → file_at d0 q = file_at d q) ∧
  (files d !! p = None → durable <$> files d0 !! p = Some []).
Proof.
  unfold wal_open. set (d1 := match p with [] => d | _ => _ end).
  assert (files d1 = files d) as Ef by (subst d1; by destruct p).
  exists (open_create p d1). split; [by destruct (find_last_sequence p (open_create p d1))|].
  split; [rewrite file_at_open_create; unfold file_at; by rewrite Ef|].
  split; [intros q Hq; rewrite file_at_open_create_ne by done; unfold file_at; by rewrite Ef|].
  intros Hn. unfold open_create. rewrite Ef, Hn. unfold set_content. simpl.
  by rewrite lookup_insert_eq, Ef, Hn.
Qed.

Lemma wal_open_fresh p pol d :
  files d !! p = None →
  ∃ d0, wal_open p pol d = (d0, Ok (mkWal p (mkWriter p WAppend []) 0 pol)) ∧
    wal_inv [] (mkWal p (mkWriter p WAppend []) 0 pol) d0 ∧
    policy_inv (mkWal p (mkWriter p WAppend []) 0 pol) d0.
Proof.
  intros Hn. destruct (wal_open_file p pol d) as (d0 & E & Hf & _ & Hd).
  assert (file_at d p = None) as Hnone by (unfold file_at; by rewrite Hn).
  rewrite Hnone in Hf. simpl in Hf.
  assert (find_last_sequence p d0 = Ok 0) as Hs by
    (by apply (find_last_sequence_log p d0 [] [])).
  rewrite Hs in E. exists d0. split; [exact E|]. split.
  - split; [by exists []|]. split; [done|]. split.
    { unfold written. simpl. by rewrite Hf. }
    split; [by intros i e Hi|]. split; [constructor|done].
  - split; [done|]. simpl. intros _. by rewrite Hf, Hd.
Qed.

Lemma wal_sync_spec es w d :
  wal_inv es w d →
  ∃ w' d', wal_sync (w, d) = ((w', d'), Ok tt) ∧ wal_inv es w' d' ∧
    wal_path w' = wal_path w ∧
    file_at d' (wal_path w) = Some (log_bytes es) ∧
    durable <$> files d' !! wal_path w = Some (log_bytes es).
Proof.
  intros (Hend & Hp & Hw & H3 & H4 & H5). unfold wal_sync, writer_flush, writer_sync_all, with_writer, pbind.
  destruct (bw_flush (wal_writer w, d)) as [wr d1] eqn:E1.
  destruct (bw_flush_appended _ _ _ _ Hend E1) as [(A1 & A2 & A3 & _ & _) Hb].
  destruct (bw_sync_appended wr d1 A1) as (B1 & _ & B3 & _ & _).
  eexists _, _. split; [reflexivity|]. simpl.
  destruct A1 as (c & Hc & Hm). rewrite <- Hp, <- A2.
  assert (c = log_bytes es) as ->.
  { unfold written in A3. rewrite Hc, Hb in A3. simpl in A3.
    rewrite !app_nil_r in A3. rewrite A3. exact Hw. }
  split; [|split; [done|]; split; [by rewrite file_at_sync_all|by apply sync_all_durable]].
  split; [done|]. split; [simpl; congruence|]. split; [|done].
  simpl. rewrite B3, app_nil_r. unfold written. by rewrite Hc, Hb, app_nil_r.
Qed.

Lemma wal_truncate_inv es w d :
  wal_inv es w d →
  ∃ w' d', wal_truncate (w, d) = ((w', d'), Ok tt) ∧ wal_inv [] w' d' ∧
    wal_path w' = wal_path w ∧ wal_sync_policy w' = wal_sync_policy w.
Proof.
  intros (Hend & Hp & _). unfold wal_truncate, writer_flush, with_writer, pbind.
  destruct (bw_flush (wal_writer w, d)) as [wr d1] eqn:E1.
  destruct (bw_flush_appended _ _ _ _ Hend E1) as [((c & Hc & _) & A2 & _) _].
  simpl. rewrite A2, Hp in Hc. rewrite Hc. eexists _, _. split; [done|].
  split; [|done]. unfold open_truncate. split.
  { exists []. simpl. by rewrite file_at_set_content. }
  split; [done|]. split; [unfold written; simpl; by rewrite file_at_set_content|].
  split; [by intros i e Hi|]. split; [constructor|done].
Qed.

(** A log with a part of the magic number at its end hides what follows. *)
Lemma read_all_torn_magic n tail :
  (1 ≤ n ≤ 3)%nat → read_all (take n WAL_MAGIC ++ WAL_MAGIC ++ tail) = [].
Proof.
  intros Hn. rewrite read_all_unfold. unfold read_entry_internal.
  destruct n as [|[|[|[|n]]]]; try lia; cbn [take WAL_MAGIC app].
  - by rewrite (take_exact_app [x57; x57; x41; x4c] (x31 :: tail)).
  - by rewrite (take_exact_app [x57; x41; x57; x41] (x4c :: x31 :: tail)).
  - by rewrite (take_exact_app [x57; x41; x4c; x57] (x41 :: x4c :: x31 :: tail)).
Qed.

Lemma log_bytes_magic e es : ∃ tail, log_bytes (e :: es) = WAL_MAGIC ++ tail.
Proof. eexists. unfold log_bytes, entry_bytes. simpl. reflexivity. Qed.

(** Replaying a log that holds [es] runs the callback on [es]. *)
Lemma replay_synced_log {A} p (f : A → WalEntry → Result A) a d es :
  Forall (λ e, wf_entry e = true) es → file_at d p = Some (log_bytes es) →
  wal_replay p f a d = foldM f es a.
Proof.
  intros Hes Hf. rewrite (wal_replay_read_all p f a d _ Hf), <- (app_nil_r (log_bytes _)).
  rewrite read_all_log by done. by rewrite app_nil_r.
Qed.

(** ** Properties *)

(** C8. What is appended is replayed: open a log that does not exist, append
    any operations, sync, and replay; the appends succeed with the sequence
    numbers 0, 1, 2, ..., and the callback is run on exactly the operations
    appended, in order, with these numbers. *)
Theorem wal_append_replay {A} p pol d os (f : A → WalEntry → Result A) a :
  files d !! p = None → Forall (λ o, wf_op o = true) os → zlen os < 2 ^ 64 →
  ∃ d0 w w1 d1 w2 d2,
    wal_open p pol d = (d0, Ok w) ∧
    wal_run os (w, d0) = ((w1, d1), Ok (we_sequence <$> entries_from 0 os)) ∧
    wal_sync (w1, d1) = ((w2, d2), Ok tt) ∧
    wal_replay p f a d2 = foldM f (entries_from 0 os) a.
Proof.
  intros Hn Hos Hl. destruct (wal_open_fresh p pol d Hn) as (d0 & E0 & Hinv & Hpol).
  destruct (wal_run_inv os [] _ _ Hinv Hos) as (w1 & d1 & E1 & Hinv1 & _ & P1 & _); [done|].
  destruct (wal_sync_spec _ _ _ Hinv1) as (w2 & d2 & E2 & Hinv2 & P2 & Hf & _).
  exists d0, (mkWal p (mkWriter p WAppend []) 0 pol), w1, d1, w2, d2.
  split; [done|]. split; [done|]. split; [done|]. rewrite P1 in Hf.
  by apply replay_synced_log; [apply Hinv2|].
Qed.

(** C3. Crash safety of the log: after any appends to a new log, whatever part
    of the unsynced bytes a power failure leaves, replaying finds a prefix of
    the appended entries and nothing else; under the policy [Always] it finds
    all of them. *)
Theorem wal_crash_recovery {A} p pol d os :
  files d !! p = None → Forall (λ o, wf_op o = true) os → zlen os < 2 ^ 64 →
  ∃ d0 w w1 d1 f,
    wal_open p pol d = (d0, Ok w) ∧
    wal_run os (w, d0) = ((w1, d1), Ok (we_sequence <$> entries_from 0 os)) ∧
    files d1 !! p = Some f ∧
    ∀ c d2, crash_of f c → file_at d2 p = Some c →
      ∃ k, (pol = Always → k = length os) ∧
        ∀ (g : A → WalEntry → Result A) a,
          wal_replay p g a d2 = foldM g (take k (entries_from 0 os)) a.
Proof.
  intros Hn Hos Hl. destruct (wal_open_fresh p pol d Hn) as (d0 & E0 & Hinv & Hpol).
  destruct (wal_run_inv os [] _ _ Hinv Hos)
    as (w1 & d1 & E1 & ((c0 & Hc0 & _) & Hp & Hw & _ & Hwf & _) & Hpol1 & P1 & S1); [done|].
  destruct (Hpol1 Hpol) as [Hb Hdur].
  change (zlen (@nil WalEntry)) with 0 in *. simpl in P1, S1, Hw, Hwf.
  rewrite Hp, P1 in Hc0. rewrite P1, S1 in *.
  destruct (files d1 !! p) as [f|] eqn:Ef; [|unfold file_at in Hc0; by rewrite Ef in Hc0].
  assert (content f = c0) as Ec by (unfold file_at in Hc0; rewrite Ef in Hc0; by injection Hc0).
  unfold written in Hw. rewrite Hp, Hc0 in Hw. simpl in Hw.
  exists d0, (mkWal p (mkWriter p WAppend []) 0 pol), w1, d1, f.
  split; [done|]. split; [done|]. split; [done|]. intros c d2 [Hc1 Hc2] Hd2.
  rewrite Ec in Hc2. assert (c `prefix_of` log_bytes (entries_from 0 os)) as Hpre.
  { rewrite <- Hw. by apply prefix_app_r. }
  destruct (decide (pol = Always)) as [->|Hpol'].
  - exists (length os). split; [done|]. intros g a.
    specialize (Hdur eq_refl). rewrite Hc0 in Hdur. simpl in Hdur.
    injection Hdur as Hdur. rewrite Hdur in Hc1.
    assert (c = c0) as -> by (by apply (anti_symm prefix)).
    rewrite Hb, app_nil_r in Hw by done. subst c0.
    rewrite take_ge by (pose proof (zlen_entries_from 0 os); unfold zlen in *; lia).
    by apply replay_synced_log.
  - destruct (read_all_prefix _ _ Hwf Hpre) as [k Hk]. exists k. split; [done|].
    intros g a. by rewrite (wal_replay_read_all p g a d2 _ Hd2), Hk.
Qed.

(** Reopening a log resumes the numbering: when the file holds the entries
    [es] numbered from 0, and behind them any part of one more entry that a
    crash cut off, [Wal::open] succeeds and the next append gets the number of
    entries as its sequence number. *)
Theorem wal_reopen_sequence p pol d es e torn rest :
  file_at d p = Some (log_bytes es ++ torn) → entry_bytes e = torn ++ rest → rest ≠ [] →
  wf_entry e = true → Forall (λ e, wf_entry e = true) es → numbered es → zlen es < 2 ^ 64 →
  ∃ d' w, wal_open p pol d = (d', Ok w) ∧ next_sequence w = zlen es ∧
    file_at d' p = Some (log_bytes es ++ torn) ∧ ∀ q, q ≠ p → file_at d' q = file_at d q.
Proof.
  intros Hf He Hr Hwe Hwf Hn Hl. destruct (wal_open_file p pol d) as (d0 & E & Hf0 & Hq & _).
  rewrite Hf in Hf0. simpl in Hf0.
  rewrite (find_last_sequence_log p d0 _ es Hf0) in E; [|by rewrite read_all_log,
    (read_all_torn e torn rest Hwe He Hr), app_nil_r|done|done].
  exists d0. eexists. split; [exact E|]. done.
Qed.

(** The reader trusts nothing unchecked: a put entry is only accepted from
    bytes that are exactly its encoding, checksum included. *)
Theorem wal_read_put_sound bs seq key value rest :
  read_entry_internal bs = Ok (Some (mkEntry seq (Put key value), rest)) →
  bs = entry_bytes (mkEntry seq (Put key value)) ++ rest ∧
  wf_entry (mkEntry seq (Put key value)) = true.
Proof.
  intros (sb & ob & kl & vl & vb & cb & H)%read_entry_inv. simpl in H.
  destruct H as (-> & Hsb & Hkl & Hvl & Hcb & -> & -> & Hkey & -> & Ekl & Evl & Ecb).
  specialize (Evl eq_refl). pose proof (from_le_range sb) as Rs.
  pose proof (from_le_range kl) as Rk. pose proof (from_le_range vl) as Rv.
  unfold zlen in Rs, Rk, Rv. rewrite Hsb in Rs. rewrite Hkl in Rk. rewrite Hvl in Rv.
  assert (u64_le (from_le sb) = sb) as Es by (unfold u64_le; rewrite <- Hsb; apply to_from_le).
  assert (u32_le (str_len key) = kl) as Ek
    by (unfold u32_le; rewrite <- Ekl, <- Hkl; apply to_from_le).
  assert (u32_le (zlen value) = vl) as Ev
    by (unfold u32_le; rewrite <- Evl, <- Hvl; apply to_from_le).
  assert (u32_le (from_le cb) = cb) as Ec by (unfold u32_le; rewrite <- Hcb; apply to_from_le).
  split.
  - unfold entry_bytes, entry_body. cbn [op_parts we_op we_sequence].
    unfold str_len in Ek. rewrite Es, Ek, Ev. cbn [app] in *.
    rewrite <- Ecb, Ec, <- ?app_assoc. cbn [app]. by rewrite <- ?app_assoc.
  - apply wf_entry_spec. simpl. rewrite <- Ekl, <- Evl. done.
Qed.

(** Truncating empties the log and restarts the numbering: after
    [Wal::truncate], appending any operations and syncing leaves a log in which
    replay finds these operations only, numbered from 0 again. *)
Theorem wal_truncate_restarts {A} es w d os (f : A → WalEntry → Result A) a :
  wal_inv es w d → Forall (λ o, wf_op o = true) os → zlen os < 2 ^ 64 →
  ∃ w1 d1 w2 d2 w3 d3,
    wal_truncate (w, d) = ((w1, d1), Ok tt) ∧
    wal_run os (w1, d1) = ((w2, d2), Ok (we_sequence <$> entries_from 0 os)) ∧
    wal_sync (w2, d2) = ((w3, d3), Ok tt) ∧
    wal_replay (wal_path w) f a d3 = foldM f (entries_from 0 os) a.
Proof.
  intros Hinv Hos Hl. destruct (wal_truncate_inv _ _ _ Hinv) as (w1 & d1 & E1 & Hinv1 & P1 & _).
  destruct (wal_run_inv os [] _ _ Hinv1 Hos) as (w2 & d2 & E2 & Hinv2 & _ & P2 & _); [done|].
  destruct (wal_sync_spec _ _ _ Hinv2) as (w3 & d3 & E3 & _ & _ & Hf & _).
  exists w1, d1, w2, d2, w3, d3. split; [done|]. split; [done|]. split; [done|].
  rewrite P2, P1 in Hf. by apply replay_synced_log; [apply Hinv2|].
Qed.

(** A torn entry hides what is appended after it: [Wal::open] appends
    behind a tail that a crash cut inside the magic number instead of removing
    it, and replay then never gets past it, whatever is appended later. *)
Theorem wal_torn_tail_hides_appends {A} es n later p d (f : A → WalEntry → Result A) a :
  Forall (λ e, wf_entry e = true) es → (1 ≤ n ≤ 3)%nat → later ≠ [] →
  file_at d p = Some (log_bytes es ++ take n WAL_MAGIC ++ log_bytes later) →
  wal_replay p f a d = foldM f es a.
Proof.
  intros Hes Hn Hl Hf. rewrite (wal_replay_read_all p f a d _ Hf), read_all_log by done.
  destruct later as [|e later]; [done|].
  destruct (log_bytes_magic e later) as [tail ->].
  rewrite read_all_torn_magic by done. by rewrite app_nil_r.
Qed.

End wal.

(** ** Examples *)
Definition ex_disk : Disk := mkDisk ∅ ∅.
Definition ex_log : path := ["wal"; "wal.log"].
Definition ex_ops : list WalOp := [Put "key1" [x76; x31]; Put "key2" []; Delete "key1"].
Definition ex_collect (l : list Z) (e : WalEntry) : Result (list Z) := Ok (we_sequence e :: l).

Lemma ex_ops_wf : Forall (λ o, wf_op o = true) ex_ops.
Proof. repeat constructor. Defined.

Lemma wal_append_replay_witness :
  ∃ d0 w w1 d1 w2 d2,
    wal_open (CRC := crc32_ieee) ex_log Never ex_disk = (d0, Ok w) ∧
    wal_run (CRC := crc32_ieee) ex_ops (w, d0) =
      ((w1, d1), Ok (we_sequence <$> entries_from 0 ex_ops)) ∧
    wal_sync (w1, d1) = ((w2, d2), Ok tt) ∧
    wal_replay (CRC := crc32_ieee) ex_log ex_collect [] d2 =
      foldM ex_collect (entries_from 0 ex_ops) [].
Proof.
  apply (wal_append_replay (CRC := crc32_ieee) ex_log Never ex_disk ex_ops ex_collect []);
    [reflexivity|exact ex_ops_wf|vm_compute; reflexivity].
Defined.

Lemma wal_crash_recovery_witness :
  ∃ d0 w w1 d1 f,
    wal_open (CRC := crc32_ieee) ex_log Always ex_disk = (d0, Ok w) ∧
    wal_run (CRC := crc32_ieee) ex_ops (w, d0) =
      ((w1, d1), Ok (we_sequence <$> entries_from 0 ex_ops)) ∧
    files d1 !! ex_log = Some f ∧
    ∀ c d2, crash_of f c → file_at d2 ex_log = Some c →
      ∃ k, (Always = Always → k = length ex_ops) ∧
        ∀ (g : list Z → WalEntry → Result (list Z)) a,
          wal_replay (CRC := crc32_ieee) ex_log g a d2 =
          foldM g (take k (entries_from 0 ex_ops)) a.
Proof.
  apply (wal_crash_recovery (A := list Z) (CRC := crc32_ieee) ex_log Always ex_disk ex_ops);
    [reflexivity|exact ex_ops_wf|vm_compute; reflexivity].
Defined.

Definition ex_entries : list WalEntry := entries_from 0 ex_ops.
Definition ex_next : WalEntry := mkEntry 3 (Delete "key2").

Lemma ex_entries_wf : Forall (λ e, wf_entry e = true) ex_entries.
Proof. repeat constructor. Defined.

Lemma ex_entries_numbered : numbered ex_entries.
Proof. intros [|[|[|i]]] e H; try discriminate H; by injection H as <-. Defined.

(** The entry [ex_next] cut after its first ten bytes. *)
Definition ex_torn : bytes := take 10 (entry_bytes (CRC := crc32_ieee) ex_next).
Definition ex_torn_disk : Disk :=
  set_content ex_log (log_bytes (CRC := crc32_ieee) ex_entries ++ ex_torn) ex_disk.

Lemma wal_reopen_sequence_witness :
  ∃ d' w, wal_open (CRC := crc32_ieee) ex_log Always ex_torn_disk = (d', Ok w) ∧
    next_sequence w = zlen ex_entries ∧
    file_at d' ex_log = Some (log_bytes (CRC := crc32_ieee) ex_entries ++ ex_torn) ∧
    ∀ q, q ≠ ex_log → file_at d' q = file_at ex_torn_disk q.
Proof.
  apply (wal_reopen_sequence (CRC := crc32_ieee) ex_log Always ex_torn_disk ex_entries ex_next
           ex_torn (drop 10 (entry_bytes (CRC := crc32_ieee) ex_next)));
    [apply file_at_set_content|vm_compute; reflexivity|vm_compute; discriminate
    |reflexivity|exact ex_entries_wf|exact ex_entries_numbered|vm_compute; reflexivity].
Defined.

Lemma wal_read_put_sound_witness :
  let bs := entry_bytes (CRC := crc32_ieee) (mkEntry 7 (Put "key" [x2a])) ++ [x00] in
  bs = entry_bytes (CRC := crc32_ieee) (mkEntry 7 (Put "key" [x2a])) ++ [x00] ∧
  wf_entry (mkEntry 7 (Put "key" [x2a])) = true.
Proof.
  intros bs.
  apply (wal_read_put_sound (CRC := crc32_ieee) bs 7 "key" [x2a] [x00]).
  vm_compute. reflexivity.
Defined.

Definition ex_wal : Wal := mkWal ex_log (mkWriter ex_log WAppend []) 3 Always.
Definition ex_wal_disk : Disk :=
  set_content ex_log (log_bytes (CRC := crc32_ieee) ex_entries) ex_disk.

Lemma ex_wal_inv : wal_inv (CRC := crc32_ieee) ex_entries ex_wal ex_wal_disk.
Proof.
  split; [eexists; split; [apply file_at_set_content|exact I]|].
  split; [reflexivity|]. split; [vm_compute; reflexivity|].
  split; [exact ex_entries_numbered|]. split; [exact ex_entries_wf|reflexivity].
Defined.

Lemma wal_truncate_restarts_witness :
  ∃ w1 d1 w2 d2 w3 d3,
    wal_truncate (ex_wal, ex_wal_disk) = ((w1, d1), Ok tt) ∧
    wal_run (CRC := crc32_ieee) ex_ops (w1, d1) =
      ((w2, d2), Ok (we_sequence <$> entries_from 0 ex_ops)) ∧
    wal_sync (w2, d2) = ((w3, d3), Ok tt) ∧
    wal_replay (CRC := crc32_ieee) (wal_path ex_wal) ex_collect [] d3 =
      foldM ex_collect (entries_from 0 ex_ops) [].
Proof.
  apply (wal_truncate_restarts (CRC := crc32_ieee) ex_entries ex_wal ex_wal_disk ex_ops
           ex_collect []);
    [exact ex_wal_inv|exact ex_ops_wf|vm_compute; reflexivity].
Defined.

Lemma wal_torn_tail_hides_appends_witness :
  let c := log_bytes (CRC := crc32_ieee) ex_entries ++ take 2 WAL_MAGIC ++
           log_bytes (CRC := crc32_ieee) [ex_next] in
  wal_replay (CRC := crc32_ieee) ex_log ex_collect [] (set_content ex_log c ex_disk) =
  foldM ex_collect ex_entries [].
Proof.
  intros c.
  apply (wal_torn_tail_hides_appends (CRC := crc32_ieee) ex_entries 2 [ex_next] ex_log
           (set_content ex_log c ex_disk) ex_collect []);
    [exact ex_entries_wf|lia|discriminate|apply file_at_set_content].
Defined.
