(* ===== verification/Hash.v ===== *)
(** * Hashing and placement by hash

    [src/common/hash.rs]: content hashes, the shard of a key, rendezvous (HRW)
    selection of replicas and the ring that assigns shards to nodes. *)

From Stdlib Require Import ZArith Lia Sorted.
From Stdlib.Strings Require Import Byte.
From stdpp Require Import base option list gmap strings.
From S2P Require Import Prelude Bytes Text External.

(** Two hexadecimal digits per byte: [Display] of [blake3::Hash]. *)
Definition hex_of_bytes (bs : bytes) : string :=
  fold_right (λ b s, show_hex 2 (Z_of_byte b) +:+ s) ""%string bs.

Record ConsistentHashRing := mkRing {
  num_shards : Z;
  shard_to_nodes : gmap Z (list string);
}.

Section hash.
Context {B3 : Blake3}.

Definition blake3_hash (data : bytes) : string := hex_of_bytes (blake3_digest data).

(** [Blake3Hasher] *)
Definition Blake3Hasher_new : Hasher := hasher_new.
Definition Blake3Hasher_update (h : Hasher) (data : bytes) : Hasher := hasher_update h data.
Definition Blake3Hasher_finalize (h : Hasher) : string := hex_of_bytes (hasher_finalize h).

(** [u64::from_le_bytes(hash.as_bytes()[0..8])] *)
Definition hash_u64 (data : bytes) : Z := from_le (take 8 (blake3_digest data)).

(** [%] panics when [num_shards] is 0. *)
Definition shard_key (key : string) (num_shards : Z) : may_panic Z :=
  if num_shards =? 0 then Panics else Returns (hash_u64 (as_bytes key) mod num_shards).

Definition hrw_weight (key node : string) : Z := hash_u64 (as_bytes (key +:+ node)).

(** [sort_by(|a, b| b.1.cmp(&a.1))]: a greater weight comes first. *)
Definition heavier (a b : string * Z) : bool := b.2 <? a.2.

Definition hrw_hash (key : string) (nodes : list string) : list string :=
  let weights := map (λ node, (node, hrw_weight key node)) nodes in
  map fst (sort_by heavier weights).

Definition select_replicas (key : string) (nodes : list string) (n : Z) : list string :=
  take (Z.to_nat n) (hrw_hash key nodes).

Definition blob_prefix (key : string) : string * string :=
  let bytes := blake3_digest (as_bytes key) in
  (show_hex 2 (Z_of_byte (nth 0 bytes x00)), show_hex 2 (Z_of_byte (nth 1 bytes x00))).

(** ** The ring *)
Definition ring_new (num_shards : Z) : ConsistentHashRing := mkRing num_shards ∅.

Definition assign_shard (shard : Z) (nodes : list string) (r : ConsistentHashRing)
    : ConsistentHashRing :=
  mkRing (num_shards r) (<[shard := nodes]> (shard_to_nodes r)).

Definition get_shard_nodes (shard : Z) (r : ConsistentHashRing) : option (list string) :=
  shard_to_nodes r !! shard.

Definition get_nodes (key : string) (r : ConsistentHashRing) : may_panic (option (list string)) :=
  mp_bind (shard_key key (num_shards r)) (λ shard, Returns (shard_to_nodes r !! shard)).

(** [for shard in 0..self.num_shards] *)
Definition shard_range (n : Z) : list Z := map Z.of_nat (seq 0 (Z.to_nat n)).

Definition ring_rebalance (available_nodes : list string) (replicas : Z)
    (r : ConsistentHashRing) : ConsistentHashRing :=
  fold_left
    (λ r shard,
      let shard_key := "shard-" +:+ show_dec shard in
      assign_shard shard (select_replicas shard_key available_nodes replicas) r)
    (shard_range (num_shards r)) r.

(** The order of the shards is that of the map's iteration, which is not
    specified; the model lists them in the order of [map_to_list]. *)
Definition shards_for_node (node : string) (r : ConsistentHashRing) : list Z :=
  omap (λ '(shard, nodes), if bool_decide (node ∈ nodes) then Some shard else None)
    (map_to_list (shard_to_nodes r)).

(** ** Lemmas *)
Lemma heavier_asym a b : heavier a b = true → heavier b a = false.
Proof. unfold heavier. rewrite Z.ltb_lt, Z.ltb_ge. lia. Qed.

Lemma heavier_trans a b c :
  not_after heavier a b → not_after heavier b c → not_after heavier a c.
Proof. unfold not_after, heavier. rewrite !Z.ltb_ge. lia. Qed.

Definition weigh (key node : string) : string * Z := (node, hrw_weight key node).

Lemma map_fst_weigh key l : map fst (map (weigh key) l) = l.
Proof. induction l as [|x l IH]; simpl; [done|]. by rewrite IH. Qed.

Lemma hrw_hash_perm key nodes : hrw_hash key nodes ≡ₚ nodes.
Proof.
  unfold hrw_hash. fold (weigh key). rewrite (sort_by_perm heavier).
  by rewrite map_fst_weigh.
Qed.

Lemma filter_map_fst (P : string → Prop) `{!∀ x, Decision (P x)} (l : list (string * Z)) :
  filter P (map fst l) = map fst (filter (λ x, P x.1) l).
Proof.
  induction l as [|[x w] l IH]; [done|]. simpl map. rewrite !filter_cons.
  simpl. destruct (decide (P x)); simpl; by rewrite IH.
Qed.

Lemma filter_weigh (P : string → Prop) `{!∀ x, Decision (P x)} key nodes :
  filter (λ x, P x.1) (map (weigh key) nodes) = map (weigh key) (filter P nodes).
Proof.
  induction nodes as [|x l IH]; [done|]. simpl map. rewrite !filter_cons. simpl.
  destruct (decide (P x)); simpl; by rewrite IH.
Qed.

(** Ranking the nodes that are left is the ranking of all, restricted. *)
Lemma hrw_hash_filter (P : string → Prop) `{!∀ x, Decision (P x)} key nodes :
  hrw_hash key (filter P nodes) = filter P (hrw_hash key nodes).
Proof.
  unfold hrw_hash. fold (weigh key). rewrite filter_map_fst.
  rewrite (filter_sort_by heavier heavier_asym heavier_trans).
  by rewrite filter_weigh.
Qed.

Lemma hrw_hash_sorted key nodes :
  StronglySorted (λ a b, hrw_weight key b ≤ hrw_weight key a) (hrw_hash key nodes).
Proof.
  unfold hrw_hash. fold (weigh key).
  pose proof (sort_by_sorted heavier heavier_asym heavier_trans (map (weigh key) nodes)) as Hs.
  assert (Forall (λ x, x.2 = hrw_weight key x.1) (sort_by heavier (map (weigh key) nodes))) as Hw.
  { rewrite (sort_by_perm heavier). apply Forall_forall. intros x Hx.
    apply list_elem_of_In, in_map_iff in Hx as (n & <- & _). done. }
  induction Hs as [|x l _ IH Hx]; simpl; [constructor|].
  inversion Hw as [|? ? Hxw Hlw]; subst. constructor; [by apply IH|].
  apply Forall_forall. intros n Hn. rewrite Forall_forall in Hx. rewrite Forall_forall in Hlw.
  apply list_elem_of_In, in_map_iff in Hn as (y & <- & Hy%list_elem_of_In).
  specialize (Hx y Hy). specialize (Hlw y Hy). unfold not_after, heavier in Hx.
  apply Z.ltb_ge in Hx. lia.
Qed.

Lemma length_select_replicas key nodes n :
  0 ≤ n → zlen (select_replicas key nodes n) = Z.min n (zlen nodes).
Proof.
  intros Hn. unfold select_replicas, zlen.
  rewrite length_take, (Permutation_length (hrw_hash_perm key nodes)). lia.
Qed.

Lemma select_replicas_incl key nodes n x :
  x ∈ select_replicas key nodes n → x ∈ nodes.
Proof. intros H%subseteq_take. by rewrite hrw_hash_perm in H. Qed.

Lemma select_replicas_nodup key nodes n :
  NoDup nodes → NoDup (select_replicas key nodes n).
Proof.
  intros H. apply (sublist_NoDup _ (hrw_hash key nodes)); [by rewrite hrw_hash_perm|].
  apply sublist_take.
Qed.

(** In a sorted list, what is taken does not come after what is dropped. *)
Lemma sorted_take_drop {A} (R : A → A → Prop) l n a b :
  StronglySorted R l → a ∈ take n l → b ∈ drop n l → R a b.
Proof.
  intros Hs. revert n. induction Hs as [|x l _ IH Hx]; intros [|n]; simpl; try set_solver.
  intros [->|Ha]%elem_of_cons Hb; [|by apply (IH n)].
  rewrite Forall_forall in Hx. apply Hx. apply list_elem_of_In in Hb.
  rewrite <- (take_drop n l). apply elem_of_app. right. by apply list_elem_of_In.
Qed.

Lemma filter_ne_length (l : list string) x :
  NoDup l → (length l ≤ S (length (filter (λ y, y ≠ x) l)))%nat.
Proof.
  induction 1 as [|y l Hy _ IH]; [simpl; lia|]. rewrite filter_cons.
  destruct (decide (y ≠ x)) as [|E]; cbn [length]; [lia|].
  apply dec_stable in E as ->. rewrite filter_keep; [lia|].
  apply Forall_forall. intros z Hz ->. done.
Qed.

Lemma ring_rebalance_lookup available replicas shards r s :
  num_shards (fold_left (λ r shard, assign_shard shard
     (select_replicas ("shard-" +:+ show_dec shard) available replicas) r) shards r) =
    num_shards r ∧
  shard_to_nodes (fold_left (λ r shard, assign_shard shard
     (select_replicas ("shard-" +:+ show_dec shard) available replicas) r) shards r) !! s =
  if decide (s ∈ shards)
  then Some (select_replicas ("shard-" +:+ show_dec s) available replicas)
  else shard_to_nodes r !! s.
Proof.
  revert r. induction shards as [|s' shards IH]; intros r; [done|]. cbn [fold_left].
  destruct (IH (assign_shard s' (select_replicas ("shard-" +:+ show_dec s') available replicas) r))
    as [Hn Hl].
  split; [by rewrite Hn|]. rewrite Hl. clear. simpl. destruct (decide (s = s')) as [->|Hne].
  - rewrite lookup_insert_eq. repeat case_decide; set_solver.
  - rewrite lookup_insert_ne by done. repeat case_decide; set_solver.
Qed.

Lemma elem_of_shard_range n s : s ∈ shard_range n ↔ 0 ≤ s < n.
Proof.
  unfold shard_range. rewrite list_elem_of_In, in_map_iff. split.
  - intros (i & <- & Hi%in_seq). lia.
  - intros H. exists (Z.to_nat s). split; [lia|]. apply in_seq. lia.
Qed.

Lemma shard_key_range key n s : 0 < n → shard_key key n = Returns s → 0 ≤ s < n.
Proof.
  unfold shard_key. intros Hn. rewrite (proj2 (Z.eqb_neq n 0)) by lia.
  intros [= <-]. by apply Z.mod_pos_bound.
Qed.

(** *** Hashes as text *)
Lemma show_hex_byte b :
  length (as_bytes (show_hex 2 (Z_of_byte b))) = 2%nat ∧
  Forall (λ c, Z_of_byte c < 128) (as_bytes (show_hex 2 (Z_of_byte b))).
Proof. destruct b; split; vm_compute; repeat constructor. Qed.

Lemma hex_of_bytes_ascii bs :
  str_len (hex_of_bytes bs) = 2 * zlen bs ∧
  Forall (λ c, Z_of_byte c < 128) (as_bytes (hex_of_bytes bs)).
Proof.
  induction bs as [|b bs [IH1 IH2]]; [done|]. destruct (show_hex_byte b) as [H1 H2].
  cbn [hex_of_bytes fold_right]. fold (hex_of_bytes bs). unfold str_len in *.
  rewrite as_bytes_app, zlen_app, zlen_cons, IH1. split; [unfold zlen; rewrite H1; lia|].
  by apply Forall_app.
Qed.

Lemma blake3_hash_text data :
  str_len (blake3_hash data) = 64 ∧ valid_str (blake3_hash data) = true.
Proof.
  destruct (hex_of_bytes_ascii (blake3_digest data)) as [H1 H2]. unfold blake3_hash.
  rewrite H1. unfold zlen. rewrite blake3_digest_length. split; [done|]. by apply utf8_valid_ascii.
Qed.

(** ** Properties *)

(** [select_replicas] picks the heaviest nodes: as many as asked for or as
    there are, all of them given, none twice, and no node that was left out
    weighs more than one that was taken. *)
Theorem select_replicas_heaviest key nodes n :
  NoDup nodes → 0 ≤ n →
  let chosen := select_replicas key nodes n in
  zlen chosen = Z.min n (zlen nodes) ∧ NoDup chosen ∧ (∀ x, x ∈ chosen → x ∈ nodes) ∧
  ∀ x y, x ∈ chosen → y ∈ nodes → y ∉ chosen → hrw_weight key y ≤ hrw_weight key x.
Proof.
  intros Hnd Hn. simpl. split; [by apply length_select_replicas|].
  split; [by apply select_replicas_nodup|]. split; [apply select_replicas_incl|].
  intros x y Hx Hy Hout. apply (sorted_take_drop _ _ (Z.to_nat n) x y (hrw_hash_sorted key nodes)); [done|].
  rewrite <- (hrw_hash_perm key nodes), <- (take_drop (Z.to_nat n) (hrw_hash key nodes)) in Hy.
  apply elem_of_app in Hy as [Hy|Hy]; [|done]. by destruct Hout.
Qed.

(** C16. Losing a node moves as little as possible: the replicas of a key that
    are still there keep their places, and at most one new node joins them.
    In particular a key that had no replica on the lost node is not moved. *)
Theorem select_replicas_minimal_disruption key nodes n lost :
  NoDup nodes → 0 ≤ n →
  ∃ joined,
    select_replicas key (filter (λ y, y ≠ lost) nodes) n =
      filter (λ y, y ≠ lost) (select_replicas key nodes n) ++ joined ∧
    zlen joined ≤ 1 ∧
    (lost ∉ select_replicas key nodes n →
     select_replicas key (filter (λ y, y ≠ lost) nodes) n = select_replicas key nodes n).
Proof.
  intros Hnd Hn. pose proof (select_replicas_nodup key nodes n Hnd) as Hnd'.
  unfold select_replicas in *. rewrite hrw_hash_filter, take_filter_split.
  eexists. split; [done|].
  set (top := take (Z.to_nat n) (hrw_hash key nodes)) in *.
  set (bot := drop (Z.to_nat n) (hrw_hash key nodes)) in *.
  assert (bot = [] ∨ length top = Z.to_nat n) as Hfull.
  { destruct (decide (length (hrw_hash key nodes) ≤ Z.to_nat n)%nat) as [Hle|Hle].
    - left. by apply drop_ge.
    - right. subst top. rewrite length_take. lia. }
  pose proof (filter_ne_length top lost Hnd') as Hlen. split.
  - unfold zlen. rewrite length_take. destruct Hfull as [->|Hfull]; [simpl; lia|]. lia.
  - intros Hlost. rewrite (filter_keep _ top).
    + destruct Hfull as [->|Hfull]; [by rewrite filter_nil, take_nil, app_nil_r|].
      rewrite Hfull, Nat.sub_diag. by rewrite take_0, app_nil_r.
    + apply Forall_forall. intros z Hz ->. done.
Qed.

(** After a rebalance every shard of the ring has the replicas that HRW
    selects for it among the nodes given, and every key has nodes: the shard
    of a key is always one of those assigned. *)
Lemma ring_rebalance_assigns_all available replicas r :
  let r' := ring_rebalance available replicas r in
  (∀ s, 0 ≤ s < num_shards r →
     get_shard_nodes s r' = Some (select_replicas ("shard-" +:+ show_dec s) available replicas)) ∧
  (∀ s, ¬ (0 ≤ s < num_shards r) → get_shard_nodes s r' = get_shard_nodes s r) ∧
  (0 < num_shards r → ∀ key, ∃ s,
     shard_key key (num_shards r) = Returns s ∧ 0 ≤ s < num_shards r ∧
     get_nodes key r' =
       Returns (Some (select_replicas ("shard-" +:+ show_dec s) available replicas))).
Proof.
  simpl. unfold get_shard_nodes, get_nodes, ring_rebalance.
  assert (∀ s, 0 ≤ s < num_shards r →
    shard_to_nodes (ring_rebalance available replicas r) !! s =
    Some (select_replicas ("shard-" +:+ show_dec s) available replicas)) as Hin.
  { intros s Hs. unfold ring_rebalance.
    destruct (ring_rebalance_lookup available replicas (shard_range (num_shards r)) r s) as [_ ->].
    by rewrite decide_True by by apply elem_of_shard_range. }
  split; [exact Hin|]. split.
  - intros s Hs.
    destruct (ring_rebalance_lookup available replicas (shard_range (num_shards r)) r s) as [_ ->].
    by rewrite decide_False by by rewrite elem_of_shard_range.
  - intros Hn key. exists (hash_u64 (as_bytes key) mod num_shards r).
    assert (shard_key key (num_shards r) = Returns (hash_u64 (as_bytes key) mod num_shards r)) as Hk.
    { unfold shard_key. by rewrite (proj2 (Z.eqb_neq _ 0)) by lia. }
    pose proof (shard_key_range _ _ _ Hn Hk) as Hr. split; [done|]. split; [done|].
    destruct (ring_rebalance_lookup available replicas (shard_range (num_shards r)) r 0) as [-> _].
    rewrite Hk. simpl. by rewrite <- (Hin _ Hr).
Qed.
End hash.

Lemma select_replicas_heaviest_witness :
  zlen (select_replicas (B3 := toy_blake3) "my-key" ["node1"; "node2"; "node3"] 2) = 2.
Proof.
  apply (select_replicas_heaviest (B3 := toy_blake3) "my-key" ["node1"; "node2"; "node3"] 2).
  - by apply (bool_decide_unpack _).
  - lia.
Defined.

Lemma select_replicas_minimal_disruption_witness :
  ∃ joined,
    select_replicas (B3 := toy_blake3) "k" (filter (λ y, y ≠ "n2") ["n1"; "n2"; "n3"]) 2 =
    filter (λ y, y ≠ "n2") (select_replicas (B3 := toy_blake3) "k" ["n1"; "n2"; "n3"] 2) ++ joined ∧
    zlen joined ≤ 1.
Proof.
  destruct (select_replicas_minimal_disruption (B3 := toy_blake3) "k" ["n1"; "n2"; "n3"] 2 "n2")
    as (joined & H1 & H2 & _); [by apply (bool_decide_unpack _)|lia|].
  exists joined. split; [exact H1|exact H2].
Defined.
