(* ===== verification/Index.v ===== *)
(** * The in-memory index of a volume

    [src/volume/index.rs]: a map from keys to the place of their values in the
    segment files, with expiration times, and its snapshot file.  The clock is
    an argument ([now], milliseconds since the Unix epoch). *)

From Stdlib Require Import ZArith Lia.
From Stdlib.Strings Require Import Byte.
From stdpp Require Import base option list gmap strings.
From S2P Require Import Prelude Bytes Text Errors Fs External Config Wal.

Record BlobLocation := mkLoc {
  loc_shard : Z;
  loc_offset : Z;
  loc_size : Z;
  loc_blake3 : string;
  loc_expires_at : option Z;
}.

Abbreviation Index := (gmap string BlobLocation).

Definition SNAPSHOT_MAGIC : bytes := as_bytes "KVINDEX3".
Definition SNAPSHOT_MAGIC_V2 : bytes := as_bytes "KVINDEX2".

(** ** Operations on the map *)
Definition index_new : Index := ∅.
Definition index_insert (key : string) (location : BlobLocation) (m : Index) : Index :=
  <[key := location]> m.
Definition index_get (key : string) (m : Index) : option BlobLocation := m !! key.
Definition index_remove (key : string) (m : Index) : Index * option BlobLocation :=
  (delete key m, m !! key).
Definition index_contains (key : string) (m : Index) : bool := bool_decide (is_Some (m !! key)).
Definition index_len (m : Index) : Z := Z.of_nat (size m).
Definition index_is_empty (m : Index) : bool := bool_decide (m = ∅).
Definition index_clear (m : Index) : Index := ∅.

(** ** Expiration *)
Definition is_expired (now : Z) (key : string) (m : Index) : bool :=
  match m !! key with
  | Some loc => match loc_expires_at loc with Some exp => exp <? now | None => false end
  | None => false
  end.

Definition get_if_valid (now : Z) (key : string) (m : Index) : option BlobLocation :=
  if is_expired now key m then None else m !! key.

Definition loc_expired (now : Z) (loc : BlobLocation) : bool :=
  match loc_expires_at loc with Some exp => exp <? now | None => false end.

Section index.
Context {HI : HashIter}.

Definition index_keys (m : Index) : list string := (hash_iter m).*1.

Definition expired_keys (now : Z) (m : Index) : list string :=
  (filter (λ '(_, loc), loc_expired now loc = true) (hash_iter m)).*1.

Definition cleanup_expired (now : Z) (m : Index) : Index * Z :=
  let expired_keys := expired_keys now m in
  (fold_left (λ m key, delete key m) expired_keys m, zlen expired_keys).

Definition keys_with_ttl (m : Index) : list (string * Z) :=
  omap (λ '(k, loc), pair k <$> loc_expires_at loc) (hash_iter m).

(** ** Snapshots *)
Definition location_bytes (key : string) (loc : BlobLocation) : bytes :=
  u32_le (as_u32 (str_len key)) ++ as_bytes key ++
  u64_le (loc_shard loc) ++ u64_le (loc_offset loc) ++ u64_le (loc_size loc) ++
  u32_le (as_u32 (str_len (loc_blake3 loc))) ++ as_bytes (loc_blake3 loc) ++
  u64_le (unwrap_or 0 (loc_expires_at loc)).

(** The bytes [Index::save_snapshot] writes. *)
Definition snapshot_bytes (m : Index) : bytes :=
  SNAPSHOT_MAGIC ++ u64_le (index_len m) ++
  concat (map (λ '(key, loc), location_bytes key loc) (hash_iter m)).

(** [File::create] truncates the file; the writer is flushed at the end. *)
Definition index_save_snapshot (m : Index) (p : path) (d : Disk) : Disk :=
  set_content p (snapshot_bytes m) d.

(** One turn of the loop of [Index::load_snapshot]. *)
Definition load_entry (has_ttl : bool) (reader : bytes)
    : Result (string * BlobLocation * bytes) :=
  let? '(key_len_bytes, reader) := read_exact 4 reader in
  let? '(key_bytes, reader) := read_exact (from_le key_len_bytes) reader in
  let? key := ok_or (Corrupted "Invalid UTF-8 in key") (from_utf8 key_bytes) in
  let? '(shard_bytes, reader) := read_exact 8 reader in
  let? '(offset_bytes, reader) := read_exact 8 reader in
  let? '(size_bytes, reader) := read_exact 8 reader in
  let? '(hash_len_bytes, reader) := read_exact 4 reader in
  let? '(hash_bytes, reader) := read_exact (from_le hash_len_bytes) reader in
  let? blake3 := ok_or (Corrupted "Invalid UTF-8 in hash") (from_utf8 hash_bytes) in
  let? '(expires_at, reader) :=
    if has_ttl
    then let? '(expires_bytes, reader) := read_exact 8 reader in
         let ts := from_le expires_bytes in
         Ok (if ts =? 0 then None else Some ts, reader)
    else Ok (None, reader) in
  Ok (key, mkLoc (from_le shard_bytes) (from_le offset_bytes) (from_le size_bytes)
             blake3 expires_at, reader).

Fixpoint load_entries (num_entries : nat) (has_ttl : bool) (reader : bytes) (index : Index)
    : Result Index :=
  match num_entries with
  | O => Ok index
  | S n =>
    let? '(key, loc, reader) := load_entry has_ttl reader in
    load_entries n has_ttl reader (index_insert key loc index)
  end.

Definition load_snapshot_bytes (reader : bytes) : Result Index :=
  let? '(magic, reader) := read_exact 8 reader in
  let has_ttl := bool_decide (magic = SNAPSHOT_MAGIC) in
  if negb (bool_decide (magic = SNAPSHOT_MAGIC_V2)) && negb has_ttl
  then Err (Corrupted "Invalid snapshot magic") else
  let? '(num_entries_bytes, reader) := read_exact 8 reader in
  load_entries (Z.to_nat (from_le num_entries_bytes)) has_ttl reader index_new.

Definition index_load_snapshot (p : path) (d : Disk) : Result Index :=
  match file_at d p with
  | None => Err (Io IoNotFound)
  | Some bs => load_snapshot_bytes bs
  end.

(** ** Well-formed entries

    The fields are [u64], strings are UTF-8 and shorter than 4 GiB, and 0 is
    not used as an expiration time. *)
Definition wf_location (key : string) (loc : BlobLocation) : bool :=
  valid_str key && is_u32 (str_len key) &&
  is_u64 (loc_shard loc) && is_u64 (loc_offset loc) && is_u64 (loc_size loc) &&
  valid_str (loc_blake3 loc) && is_u32 (str_len (loc_blake3 loc)) &&
  match loc_expires_at loc with Some t => is_u64 t && negb (t =? 0) | None => true end.

Definition wf_index (m : Index) : Prop :=
  map_Forall (λ key loc, wf_location key loc = true) m.

(** A location without its expiration time, as in format 2. *)
Definition location_bytes_v2 (key : string) (loc : BlobLocation) : bytes :=
  u32_le (as_u32 (str_len key)) ++ as_bytes key ++
  u64_le (loc_shard loc) ++ u64_le (loc_offset loc) ++ u64_le (loc_size loc) ++
  u32_le (as_u32 (str_len (loc_blake3 loc))) ++ as_bytes (loc_blake3 loc).
Definition snapshot_bytes_v2 (m : Index) : bytes :=
  SNAPSHOT_MAGIC_V2 ++ u64_le (index_len m) ++
  concat (map (λ '(key, loc), location_bytes_v2 key loc) (hash_iter m)).
Definition no_ttl (loc : BlobLocation) : BlobLocation :=
  mkLoc (loc_shard loc) (loc_offset loc) (loc_size loc) (loc_blake3 loc) None.

(** ** Lemmas *)
Lemma wf_location_spec key loc :
  wf_location key loc = true ↔
  valid_str key = true ∧ 0 ≤ str_len key < 2 ^ 32 ∧
  0 ≤ loc_shard loc < 2 ^ 64 ∧ 0 ≤ loc_offset loc < 2 ^ 64 ∧ 0 ≤ loc_size loc < 2 ^ 64 ∧
  valid_str (loc_blake3 loc) = true ∧ 0 ≤ str_len (loc_blake3 loc) < 2 ^ 32 ∧
  match loc_expires_at loc with Some t => 0 < t < 2 ^ 64 | None => True end.
Proof.
  unfold wf_location. rewrite !andb_true_iff, !is_u32_spec, !is_u64_spec.
  destruct (loc_expires_at loc) as [t|]; [|tauto].
  rewrite andb_true_iff, is_u64_spec, negb_true_iff, Z.eqb_neq. intuition lia.
Qed.

(** Read the next field, whose bytes are at the front. *)
Ltac read_field :=
  rewrite read_exact_app by
    (first [apply zlen_u32_le | apply zlen_u64_le
           | rewrite from_u32_le_small by assumption; reflexivity]);
  cbn [rbind].

Lemma load_entry_bytes has_ttl key loc rest :
  wf_location key loc = true →
  load_entry has_ttl
    (location_bytes_v2 key loc ++
     (if has_ttl then u64_le (unwrap_or 0 (loc_expires_at loc)) else []) ++ rest) =
  Ok (key, if has_ttl then loc else no_ttl loc, rest).
Proof.
  intros H%wf_location_spec. destruct H as (Hk & Lk & Hs & Ho & Hz & Hb & Lb & Ht).
  unfold load_entry, location_bytes_v2. rewrite <- !app_assoc, !u32_le_as_u32.
  do 2 read_field. rewrite from_utf8_as_bytes by done. cbn [ok_or rbind].
  do 5 read_field. rewrite from_utf8_as_bytes by done. cbn [ok_or rbind].
  rewrite !from_u64_le_small by done. destruct has_ttl; [|done].
  read_field. destruct loc as [sh0 of0 sz0 bl0 [t|]]; cbn -[from_le u64_le Z.pow] in *.
  - rewrite from_u64_le_small by lia. destruct (Z.eqb_spec t 0); [lia|done].
  - by rewrite from_u64_le_small.
Qed.

Lemma location_bytes_split key loc :
  location_bytes key loc =
  location_bytes_v2 key loc ++ u64_le (unwrap_or 0 (loc_expires_at loc)).
Proof. unfold location_bytes, location_bytes_v2. by rewrite <- !app_assoc. Qed.

(** Loading the entries of a list inserts them one after the other. *)
Lemma load_entries_bytes has_ttl (l : list (string * BlobLocation)) index rest :
  Forall (λ '(key, loc), wf_location key loc = true) l →
  load_entries (length l) has_ttl
    (concat (map (λ '(key, loc), if has_ttl then location_bytes key loc
                                 else location_bytes_v2 key loc) l) ++ rest) index =
  Ok (fold_left (λ m '(key, loc), <[key := if has_ttl then loc else no_ttl loc]> m) l index).
Proof.
  intros Hl. revert index. induction Hl as [|[key loc] l Hwf _ IH]; intros index; [done|].
  cbn [length load_entries map concat]. rewrite <- app_assoc.
  pose proof (load_entry_bytes has_ttl key loc) as Hload.
  destruct has_ttl.
  - rewrite location_bytes_split, <- app_assoc, Hload by done. cbn [rbind fold_left]. apply IH.
  - cbn [app] in Hload. rewrite Hload by done. cbn [rbind fold_left]. apply IH.
Qed.

Lemma fold_insert_list_to_map {V W} (g : V → W) (l : list (string * V)) (m : gmap string W) :
  NoDup l.*1 →
  fold_left (λ m '(k, v), <[k := g v]> m) l m = list_to_map (prod_map id g <$> l) ∪ m.
Proof.
  revert m; induction l as [|[k v] l IH]; intros m Hnd; simpl; [by rewrite map_empty_union|].
  inversion Hnd as [|? ? Hk Hnd']; subst. rewrite IH by done.
  rewrite <- insert_union_l. symmetry. apply insert_union_r. apply not_elem_of_list_to_map_1.
  intros Hin. apply Hk. rewrite <- list_fmap_compose in Hin.
  apply list_elem_of_fmap in Hin as ([k' v'] & -> & Hin).
  apply list_elem_of_fmap. by exists (k', v').
Qed.

Lemma load_hash_iter has_ttl (m : Index) rest :
  wf_index m →
  load_entries (size m) has_ttl
    (concat (map (λ '(key, loc), if has_ttl then location_bytes key loc
                                 else location_bytes_v2 key loc) (hash_iter m)) ++ rest) ∅ =
  Ok ((λ loc, if has_ttl then loc else no_ttl loc) <$> m).
Proof.
  intros Hwf. rewrite <- hash_iter_size, load_entries_bytes.
  - f_equal. rewrite fold_insert_list_to_map, map_union_empty by apply hash_iter_keys_nodup.
    rewrite <- (hash_iter_to_map m) at 2. apply list_to_map_fmap.
  - apply Forall_forall. intros [key loc] H%hash_iter_lookup. by apply (Hwf key loc).
Qed.

Lemma index_len_u64 (m : Index) : 0 ≤ index_len m.
Proof. unfold index_len. lia. Qed.

(** ** Properties *)

Lemma load_saved_snapshot m p d :
  wf_index m → index_len m < 2 ^ 64 → file_at d p = Some (snapshot_bytes m) →
  index_load_snapshot p d = Ok m.
Proof.
  intros Hwf Hlen Hf. pose proof (index_len_u64 m). unfold index_load_snapshot. rewrite Hf.
  unfold load_snapshot_bytes, snapshot_bytes. rewrite read_exact_app by done. cbn [rbind].
  rewrite (bool_decide_true (SNAPSHOT_MAGIC = SNAPSHOT_MAGIC)) by done.
  rewrite andb_false_r. rewrite read_exact_app by apply zlen_u64_le. cbn [rbind].
  rewrite from_u64_le_small by done. unfold index_len, index_new. rewrite Nat2Z.id.
  rewrite <- (app_nil_r (concat _)), (load_hash_iter true m [] Hwf).
  by rewrite map_fmap_id.
Qed.

(** C18. A snapshot restores the index: loading the file that [save_snapshot]
    wrote gives back the same map, whatever the iteration order of the map was
    when it was saved; other files of the disk are not touched. *)
Theorem snapshot_roundtrip m p d :
  wf_index m → index_len m < 2 ^ 64 →
  index_load_snapshot p (index_save_snapshot m p d) = Ok m ∧
  ∀ q, q ≠ p → file_at (index_save_snapshot m p d) q = file_at d q.
Proof.
  intros Hwf Hlen. unfold index_save_snapshot. split.
  - apply load_saved_snapshot; [done|done|]. apply file_at_set_content.
  - intros q Hq. by apply file_at_set_content_ne.
Qed.

(** Snapshots of the previous format still load: the entries come back
    without expiration times. *)
Theorem snapshot_v2_loads m p d :
  wf_index m → index_len m < 2 ^ 64 → file_at d p = Some (snapshot_bytes_v2 m) →
  index_load_snapshot p d = Ok (no_ttl <$> m).
Proof.
  intros Hwf Hlen Hf. pose proof (index_len_u64 m).
  unfold index_load_snapshot. rewrite Hf.
  unfold load_snapshot_bytes, snapshot_bytes_v2. rewrite read_exact_app by done. cbn [rbind].
  rewrite (bool_decide_true (SNAPSHOT_MAGIC_V2 = SNAPSHOT_MAGIC_V2)) by done.
  rewrite (bool_decide_false (SNAPSHOT_MAGIC_V2 = SNAPSHOT_MAGIC)) by done. cbn [negb andb].
  rewrite read_exact_app by apply zlen_u64_le. cbn [rbind].
  rewrite from_u64_le_small by done. unfold index_len, index_new. rewrite Nat2Z.id.
  rewrite <- (app_nil_r (concat _)). apply (load_hash_iter false m [] Hwf).
Qed.
(** Deleting the keys of a list. *)
Lemma fold_delete_lookup {V} (ks : list string) (m : gmap string V) k :
  fold_left (λ m key, delete key m) ks m !! k = if bool_decide (k ∈ ks) then None else m !! k.
Proof.
  revert m. induction ks as [|k' ks IH]; intros m; [done|]. cbn [fold_left]. rewrite IH.
  destruct (decide (k = k')) as [->|Hne].
  - rewrite lookup_delete_eq. rewrite (bool_decide_true (k' ∈ k' :: ks)) by set_solver.
    by destruct (bool_decide _).
  - rewrite lookup_delete_ne by done. rewrite (bool_decide_ext (k ∈ k' :: ks) (k ∈ ks)); [done|]. set_solver.
Qed.

Lemma elem_of_expired_keys now m k :
  k ∈ expired_keys now m ↔ is_expired now k m = true.
Proof.
  unfold expired_keys, is_expired. rewrite list_elem_of_fmap. split.
  - intros ([k' loc] & -> & [E H]%list_elem_of_filter). apply hash_iter_lookup in H. simpl.
    rewrite H. exact E.
  - destruct (m !! k) as [loc|] eqn:E; [|done]. intros He. exists (k, loc). split; [done|].
    apply list_elem_of_filter. split; [exact He|]. by apply hash_iter_lookup.
Qed.

Lemma get_if_valid_Some now k m loc :
  get_if_valid now k m = Some loc ↔ m !! k = Some loc ∧ loc_expired now loc = false.
Proof.
  unfold get_if_valid, is_expired. destruct (m !! k) as [l|]; [|naive_solver].
  change (match loc_expires_at l with Some exp => exp <? now | None => false end)
    with (loc_expired now l).
  destruct (loc_expired now l) eqn:E; naive_solver congruence.
Qed.

Lemma cleanup_expired_lookup now m k :
  (cleanup_expired now m).1 !! k = get_if_valid now k m.
Proof.
  unfold cleanup_expired. simpl. rewrite fold_delete_lookup.
  unfold get_if_valid. destruct (is_expired now k m) eqn:E.
  - by rewrite bool_decide_true by by apply elem_of_expired_keys.
  - rewrite bool_decide_false; [done|]. rewrite elem_of_expired_keys. congruence.
Qed.

Lemma expired_keys_nodup now m : NoDup (expired_keys now m).
Proof.
  apply (sublist_NoDup _ (hash_iter m).*1); [apply hash_iter_keys_nodup|].
  apply fmap_sublist, sublist_filter.
Qed.

Lemma cleanup_expired_count now m :
  index_len m = index_len (cleanup_expired now m).1 + (cleanup_expired now m).2.
Proof.
  pose proof (cleanup_expired_lookup now m) as Hl. revert Hl.
  change ((cleanup_expired now m).2) with (zlen (expired_keys now m)).
  generalize (cleanup_expired now m).1. intros m' Hl. unfold index_len, zlen.
  assert (dom m = dom m' ∪ list_to_set (expired_keys now m)) as Hd.
  { apply set_eq. intros k. rewrite elem_of_union, elem_of_list_to_set, elem_of_expired_keys.
    rewrite !elem_of_dom, Hl. unfold get_if_valid, is_expired.
    destruct (m !! k) as [loc|]; [|by split; [|intros [|]]].
    destruct (loc_expires_at loc) as [t|]; [destruct (t <? now)|]; naive_solver. }
  assert (dom m' ## list_to_set (expired_keys now m)) as Hdisj.
  { apply elem_of_disjoint. intros k [l Hk]%elem_of_dom.
    rewrite elem_of_list_to_set, elem_of_expired_keys. rewrite Hl in Hk.
    unfold get_if_valid in Hk. by destruct (is_expired now k m). }
  rewrite <- !size_dom, Hd, size_union, size_list_to_set; [lia|apply expired_keys_nodup|done].
Qed.

(** [cleanup_expired] removes exactly what [get_if_valid] already hides:
    afterwards a plain lookup gives what the guarded lookup gave before, no
    entry is left that is expired at that time, and the number returned is the
    number of entries removed. *)
Theorem cleanup_expired_exact now m :
  let '(m', count) := cleanup_expired now m in
  (∀ k, index_get k m' = get_if_valid now k m) ∧
  (∀ k, is_expired now k m' = false) ∧
  index_len m = index_len m' + count.
Proof.
  pose proof (cleanup_expired_lookup now m) as Hl. pose proof (cleanup_expired_count now m) as Hc.
  destruct (cleanup_expired now m) as [m' count]. simpl in *. split; [done|]. split; [|done].
  intros k. unfold is_expired. rewrite Hl.
  destruct (get_if_valid now k m) as [loc|] eqn:Eg; [|done].
  by apply get_if_valid_Some in Eg as [_ ?].
Qed.
End index.

(** A small index for the examples. *)
Definition sample_index : Index :=
  <["a" := mkLoc 0 12 5 "00ff" None]> (<["b" := mkLoc 1 40 7 "" (Some 1000)]> ∅).

Lemma sample_index_wf : wf_index sample_index.
Proof. apply map_Forall_insert_2; [done|]. apply map_Forall_insert_2; [done|]. apply map_Forall_empty. Qed.

Lemma snapshot_roundtrip_witness :
  wf_index sample_index ∧
  index_load_snapshot ["snap"] (index_save_snapshot (HI := sorted_iter) sample_index ["snap"]
    (mkDisk ∅ ∅)) = Ok sample_index.
Proof.
  split; [apply sample_index_wf|].
  apply (snapshot_roundtrip (HI := sorted_iter) sample_index ["snap"] (mkDisk ∅ ∅)
           sample_index_wf eq_refl).
Defined.

Lemma snapshot_v2_loads_witness :
  index_load_snapshot ["snap"]
    (set_content ["snap"] (snapshot_bytes_v2 (HI := sorted_iter) sample_index) (mkDisk ∅ ∅)) =
  Ok (no_ttl <$> sample_index).
Proof.
  apply (snapshot_v2_loads (HI := sorted_iter)); [apply sample_index_wf|done|].
  apply file_at_set_content.
Defined.
