(* ===== verification/Segment.v ===== *)
(** * Segment files

    The part of [src/volume/blob.rs] that reads and writes the segment files of
    a volume: one record per value,
    [MAGIC ++ KEY_LEN ++ VAL_LEN ++ ORIG_LEN ++ KEY ++ VALUE ++ CRC32],
    in the files [data_path/{seg % 100}/{seg / 100}/seg_{seg}.blob].

    The allocation of a buffer for a length read from a file is not modelled
    (a length above [isize::MAX] would panic): the read that follows fails. *)

From Stdlib Require Import ZArith Lia.
From Stdlib.Strings Require Import Byte.
From stdpp Require Import base option list gmap strings.
From S2P Require Import Prelude Bytes Text Errors Fs External Config Wal Hash Index.

Definition BLOB_MAGIC : bytes := [x42; x4c; x4f; x42].
Definition BLOB_MAGIC_COMPRESSED : bytes := [x42; x4c; x4f; x43].
Definition SEGMENT_SIZE : Z := 64 * 1024 * 1024.
Definition MAX_SEGMENTS : Z := 1000.
Definition COMPRESSION_THRESHOLD : Z := 128.

Inductive CompressionMode := CompressionNone | CompressionLz4.
#[export] Instance CompressionMode_eq_dec : EqDecision CompressionMode.
Proof. solve_decision. Defined.

(** ** Paths *)
Definition segment_dir (base_path : path) (segment : Z) : path :=
  base_path ++ [show_pad 2 (segment mod 100); show_pad 2 (segment / 100)].
Definition segment_name (segment : Z) : string := "seg_" +:+ show_pad 4 segment +:+ ".blob".
Definition segment_path (base_path : path) (segment : Z) : path :=
  segment_dir base_path segment ++ [segment_name segment].

(** [Path::extension] and [Path::file_stem] of a file name: the parts after
    and before the last dot, unless the name has no dot or starts with its
    only dot. *)
Fixpoint split_last_dot (bs : bytes) : option (bytes * bytes) :=
  match bs with
  | [] => None
  | b :: bs =>
    match split_last_dot bs with
    | Some (stem, ext) => Some (b :: stem, ext)
    | None => if byte_eqb b x2e then Some ([], bs) else None
    end
  end.
Definition extension (name : string) : option string :=
  match split_last_dot (as_bytes name) with
  | Some (_ :: _, ext) => Some (of_bytes ext)
  | _ => None
  end.
Definition file_stem (name : string) : string :=
  match split_last_dot (as_bytes name) with
  | Some ((_ :: _) as stem, _) => of_bytes stem
  | _ => name
  end.
Definition file_name (p : path) : string := unwrap_or ""%string (last p).

(** The number in the name of a segment file, 0 if there is none. *)
Definition segment_of_path (p : path) : Z :=
  unwrap_or 0
    (s ← strip_prefix "seg_" (file_stem (file_name p)); parse_u64 s).

(** A position beyond [i64::MAX] cannot be sought. *)
Definition seek_ok (pos : Z) : bool := (0 <=? pos) && (pos <? 2 ^ 63).

Section segment.
Context {CRC : Crc32Fast} {B3 : Blake3} {LZ : Lz4}.

(** ** Writing *)

(** The bytes stored for a value, and whether they are compressed. *)
Definition compress_value (compression : CompressionMode) (value : bytes) : bytes * bool :=
  if bool_decide (compression = CompressionLz4) && (COMPRESSION_THRESHOLD <=? zlen value)
  then match lz4_compress value true with
       | Some compressed => if zlen compressed <? zlen value then (compressed, true) else (value, false)
       | None => (value, false)
       end
  else (value, false).

Definition write_blob_to_segment (compression : CompressionMode) (sync_policy : WalSyncPolicy)
    (base_path : path) (segment offset : Z) (key : string) (value : bytes) (d : Disk)
    : Disk * Result (BlobLocation * Z) :=
  let d := create_dir_all (segment_dir base_path segment) d in
  let segment_file := segment_path base_path segment in
  let d := open_create segment_file d in
  if negb (seek_ok offset) then (d, Err (Io InvalidInput)) else
  let writer := mkWriter segment_file (WAt offset) [] in
  let '(write_value, is_compressed) := compress_value compression value in
  let magic := if is_compressed then BLOB_MAGIC_COMPRESSED else BLOB_MAGIC in
  let wd := bw_write_all magic (writer, d) in
  let wd := bw_write_all (u32_le (as_u32 (str_len key))) wd in
  let wd := bw_write_all (u64_le (zlen write_value)) wd in
  let wd := bw_write_all (u64_le (zlen value)) wd in
  let wd := bw_write_all (as_bytes key) wd in
  let wd := bw_write_all write_value wd in
  let checksum_data :=
    u32_le (as_u32 (str_len key)) ++ u64_le (zlen write_value) ++ u64_le (zlen value) ++
    as_bytes key ++ write_value in
  let checksum := crc32 checksum_data in
  let wd := bw_write_all (u32_le checksum) wd in
  let '(_, d) := bw_flush wd in
  let d := match sync_policy with Always => sync_all segment_file d | _ => d end in
  let bytes_written := wrap64 (4 + 4 + 8 + 8 + str_len key + zlen write_value + 4) in
  (d, Ok (mkLoc segment offset (zlen value) (blake3_hash value) None, bytes_written)).

(** ** Reading *)
Definition read_blob (data_path : path) (location : BlobLocation) (d : Disk)
    : Result (option bytes) :=
  let segment_file := segment_path data_path (loc_shard location) in
  if negb (path_exists d segment_file) then Ok None else
  match file_at d segment_file with
  | None => Err (Io IoOther)
  | Some file =>
    if negb (seek_ok (loc_offset location)) then Err (Io InvalidInput) else
    let reader := drop (Z.to_nat (loc_offset location)) file in
    let? '(magic, reader) := read_exact 4 reader in
    let is_compressed := bool_decide (magic = BLOB_MAGIC_COMPRESSED) in
    if bool_decide (magic ≠ BLOB_MAGIC) && negb is_compressed
    then Err (Corrupted "Invalid blob magic") else
    let? '(key_len_bytes, reader) := read_exact 4 reader in
    let key_len := from_le key_len_bytes in
    let? '(val_len_bytes, reader) := read_exact 8 reader in
    let val_len := from_le val_len_bytes in
    let? '(orig_len_bytes, reader) := read_exact 8 reader in
    let orig_len := from_le orig_len_bytes in
    let? '(key_bytes, reader) := read_exact key_len reader in
    let? '(value, reader) := read_exact val_len reader in
    let? '(checksum_bytes, reader) := read_exact 4 reader in
    let stored_checksum := from_le checksum_bytes in
    let checksum_data := key_len_bytes ++ val_len_bytes ++ orig_len_bytes ++ key_bytes ++ value in
    let computed_checksum := crc32 checksum_data in
    if negb (computed_checksum =? stored_checksum)
    then Err (ChecksumMismatch (show_hex 8 stored_checksum) (show_hex 8 computed_checksum)) else
    if is_compressed
    then match lz4_decompress value (Some (as_i32 orig_len)) with
         | Some decompressed => Ok (Some decompressed)
         | None => Err (Corrupted "LZ4 decompression failed")
         end
    else Ok (Some value)
  end.

(** ** Scanning *)

Section scan.
Context {BF : BloomFilter} {HX : Hex}.

(** The item a key is in the Bloom filter: the 32 bytes of its hash, which the
    code takes back out of the hexadecimal text. *)
Definition bloom_key (key : string) : bytes :=
  let hash_vec := unwrap_or (repeat x00 32) (hex_decode (blake3_hash (as_bytes key))) in
  if (length hash_vec =? 32)%nat then hash_vec else repeat x00 32.

(** One turn of the loop of [scan_segment], with the reader at position [pos]:
    [None] leaves the loop.  The value is skipped by a relative seek with
    [val_len as i64]. *)
Definition scan_step (file : bytes) (segment pos offset : Z) (index : Index) (bloom : Bloom)
    : Result (option (Z * Z * Index * Bloom)) :=
  match take_exact 4 (drop (Z.to_nat pos) file) with
  | None => Ok None
  | Some (magic, reader) =>
    let is_compressed := bool_decide (magic = BLOB_MAGIC_COMPRESSED) in
    if bool_decide (magic ≠ BLOB_MAGIC) && negb is_compressed then Ok None else
    let? '(key_len_bytes, reader) := read_exact 4 reader in
    let key_len := from_le key_len_bytes in
    let? '(val_len_bytes, reader) := read_exact 8 reader in
    let val_len := from_le val_len_bytes in
    let? '(orig_len_bytes, reader) := read_exact 8 reader in
    let orig_len := from_le orig_len_bytes in
    let? '(key_bytes, reader) := read_exact key_len reader in
    let key := of_bytes (from_utf8_lossy key_bytes) in
    let pos := pos + 4 + 4 + 8 + 8 + key_len + as_i64 val_len in
    if negb (seek_ok pos) then Err (Io InvalidInput) else
    let? '(_, _) := read_exact 4 (drop (Z.to_nat pos) file) in
    let hash := blake3_hash (as_bytes key) in
    let bloom := bloom_set bloom (bloom_key key) in
    let index := index_insert key (mkLoc segment offset orig_len hash None) index in
    Ok (Some (pos + 4, wrap64 (offset + (4 + 4 + 8 + 8 + key_len + val_len + 4)), index, bloom))
  end.

(** The loop; [None] says that [fuel] was not enough (a file with a length
    field of 2^63 or more can make the code loop for ever). *)
Fixpoint scan_loop (fuel : nat) (file : bytes) (segment pos offset : Z) (index : Index)
    (bloom : Bloom) : option (Result (Index * Bloom)) :=
  match fuel with
  | O => None
  | S fuel =>
    match scan_step file segment pos offset index bloom with
    | Err e => Some (Err e)
    | Ok None => Some (Ok (index, bloom))
    | Ok (Some (pos, offset, index, bloom)) => scan_loop fuel file segment pos offset index bloom
    end
  end.

Definition scan_segment (fuel : nat) (index : Index) (bloom : Bloom) (p : path) (d : Disk)
    : option (Result (Index * Bloom)) :=
  match file_at d p with
  | None => Some (Err (Io IoOther))
  | Some file => scan_loop fuel file (segment_of_path p) 0 0 index bloom
  end.

Context {RD : ReadDir}.

(** The files the two nested directory walks visit, in their order. *)
Definition blob_files (data_path : path) (d : Disk) : list path :=
  entry ← filter (λ e, is_dir d e = true) (read_dir d data_path);
  subentry ← filter (λ e, is_dir d e = true) (read_dir d entry);
  filter (λ p, extension (file_name p) = Some "blob"%string) (read_dir d subentry).

Fixpoint scan_segments (fuel : nat) (ps : list path) (index : Index) (bloom : Bloom) (d : Disk)
    : option (Result (Index * Bloom)) :=
  match ps with
  | [] => Some (Ok (index, bloom))
  | p :: ps =>
    match scan_segment fuel index bloom p d with
    | Some (Ok (index, bloom)) => scan_segments fuel ps index bloom d
    | r => r
    end
  end.

Definition rebuild_index_from_segments (fuel : nat) (index : Index) (bloom : Bloom)
    (data_path : path) (d : Disk) : option (Result (Index * Bloom)) :=
  if negb (is_dir d data_path) then Some (Err (Io IoNotFound)) else
  scan_segments fuel (blob_files data_path d) index bloom d.

(** The number and the size of the last segment (a directory named like a
    segment file would count as empty). *)
Definition find_current_position (data_path : path) (d : Disk) : Result (Z * Z) :=
  if negb (path_exists d data_path) then Ok (0, 0) else
  if negb (is_dir d data_path) then Err (Io IoOther) else
  Ok (fold_left
        (λ '(max_segment, max_offset) p,
          let segment := segment_of_path p in
          let size := zlen (unwrap_or [] (file_at d p)) in
          if (max_segment <? segment) || ((segment =? max_segment) && (max_offset <? size))
          then (segment, size) else (max_segment, max_offset))
        (blob_files data_path d) (0, 0)).
End scan.

(** ** The format of a record *)
Definition blob_body (key : string) (write_value : bytes) (orig_len : Z) : bytes :=
  u32_le (str_len key) ++ u64_le (zlen write_value) ++ u64_le orig_len ++
  as_bytes key ++ write_value.

Definition blob_bytes (is_compressed : bool) (key : string) (write_value : bytes) (orig_len : Z)
    : bytes :=
  (if is_compressed then BLOB_MAGIC_COMPRESSED else BLOB_MAGIC) ++
  blob_body key write_value orig_len ++ u32_le (crc32 (blob_body key write_value orig_len)).

(** The record that [write_blob_to_segment] writes. *)
Definition blob_record (compression : CompressionMode) (key : string) (value : bytes) : bytes :=
  let '(write_value, is_compressed) := compress_value compression value in
  blob_bytes is_compressed key write_value (zlen value).

(** What reading a record gives: a value that was stored compressed goes
    through the decompressor. *)
Definition read_back (compression : CompressionMode) (value : bytes) : Result (option bytes) :=
  match compress_value compression value with
  | (_, false) => Ok (Some value)
  | (write_value, true) =>
      match lz4_decompress write_value (Some (as_i32 (zlen value))) with
      | Some v => Ok (Some v)
      | None => Err (Corrupted "LZ4 decompression failed")
      end
  end.

(** Values that are stored as they are, whatever the compressor does. *)
Definition stored_plain (compression : CompressionMode) (value : bytes) : bool :=
  bool_decide (compression = CompressionNone) || (zlen value <? COMPRESSION_THRESHOLD).

Lemma compress_value_plain compression value :
  stored_plain compression value = true → compress_value compression value = (value, false).
Proof.
  unfold stored_plain, compress_value. destruct compression; simpl; [done|]. intros H%Z.ltb_lt.
  destruct (Z.leb_spec COMPRESSION_THRESHOLD (zlen value)); [lia|done].
Qed.
Lemma read_back_plain compression value :
  stored_plain compression value = true → read_back compression value = Ok (Some value).
Proof. intros H. unfold read_back. by rewrite compress_value_plain. Qed.

(** A key and a value whose lengths fit the fields. *)
Definition wf_blob (key : string) (value : bytes) : bool :=
  valid_str key && is_u32 (str_len key) && (zlen value <=? ISIZE_MAX).

Lemma wf_blob_spec key value :
  wf_blob key value = true ↔
  valid_str key = true ∧ 0 ≤ str_len key < 2 ^ 32 ∧ zlen value < 2 ^ 63.
Proof.
  unfold wf_blob, ISIZE_MAX. rewrite !andb_true_iff, is_u32_spec, Z.leb_le. intuition lia.
Qed.

Lemma compress_value_shorter compression value :
  zlen (compress_value compression value).1 ≤ zlen value.
Proof.
  unfold compress_value. case_match; [|done]. destruct (lz4_compress value true) as [c|]; [|done].
  destruct (Z.ltb_spec (zlen c) (zlen value)); simpl; lia.
Qed.

Lemma compress_value_false compression value wv :
  compress_value compression value = (wv, false) → wv = value.
Proof. unfold compress_value. repeat case_match; congruence. Qed.

Lemma compress_none value : compress_value CompressionNone value = (value, false).
Proof. done. Qed.

Lemma zlen_blob_bytes c key wv orig :
  zlen (blob_bytes c key wv orig) = 28 + str_len key + zlen wv.
Proof.
  unfold blob_bytes, blob_body. rewrite !zlen_app, !zlen_u32_le, !zlen_u64_le.
  unfold str_len. destruct c; change (zlen _) with 4 at 1; lia.
Qed.

Lemma zlen_blob_record compression key value :
  zlen (blob_record compression key value) =
  28 + str_len key + zlen (compress_value compression value).1.
Proof. unfold blob_record. destruct (compress_value _ _) as [wv c]. apply zlen_blob_bytes. Qed.

Lemma blob_record_nonempty compression key value : blob_record compression key value ≠ [].
Proof.
  unfold blob_record, blob_bytes. destruct (compress_value _ _) as [wv []]; done.
Qed.

(** ** Names of segments *)
Lemma split_last_dot_app stem ext :
  split_last_dot ext = None → split_last_dot (stem ++ x2e :: ext) = Some (stem, ext).
Proof.
  intros H. induction stem as [|b stem IH]; simpl; [by rewrite H|]. by rewrite IH.
Qed.

Lemma file_name_segment base seg : file_name (segment_path base seg) = segment_name seg.
Proof. unfold file_name, segment_path. by rewrite last_snoc. Qed.

Lemma split_segment_name seg :
  split_last_dot (as_bytes (segment_name seg)) =
  Some (as_bytes ("seg_" +:+ show_pad 4 seg), as_bytes "blob").
Proof.
  unfold segment_name. rewrite !as_bytes_app, app_assoc.
  change (as_bytes ".blob") with (x2e :: as_bytes "blob"). by apply split_last_dot_app.
Qed.

Lemma segment_stem_cons seg :
  ∃ b bs, as_bytes ("seg_" +:+ show_pad 4 seg) = b :: bs.
Proof. rewrite as_bytes_app. simpl. eauto. Qed.

Lemma segment_extension base seg :
  extension (file_name (segment_path base seg)) = Some "blob"%string.
Proof.
  rewrite file_name_segment. unfold extension. rewrite split_segment_name.
  by destruct (segment_stem_cons seg) as (b & bs & ->).
Qed.

Lemma segment_of_segment_path base seg :
  0 ≤ seg < 2 ^ 64 → segment_of_path (segment_path base seg) = seg.
Proof.
  intros Hs. unfold segment_of_path, file_stem. rewrite file_name_segment, split_segment_name.
  pose proof (of_bytes_as_bytes ("seg_" +:+ show_pad 4 seg)) as E.
  destruct (segment_stem_cons seg) as (b & bs & Hb). rewrite Hb in *. rewrite E.
  rewrite strip_prefix_app. simpl. by rewrite parse_show_pad.
Qed.

Lemma segment_path_inj base s1 s2 :
  0 ≤ s1 < 2 ^ 64 → 0 ≤ s2 < 2 ^ 64 →
  segment_path base s1 = segment_path base s2 → s1 = s2.
Proof.
  intros H1 H2 E. apply (f_equal segment_of_path) in E.
  by rewrite !segment_of_segment_path in E.
Qed.

Lemma segment_path_under base seg : base `prefix_of` segment_path base seg.
Proof. unfold segment_path, segment_dir. rewrite <- app_assoc. by apply prefix_app_r. Qed.

Lemma length_segment_path base seg : length (segment_path base seg) = (length base + 3)%nat.
Proof. unfold segment_path, segment_dir. rewrite !length_app. simpl. lia. Qed.

(** A directory with a name that is not a number holds no segment. *)
Lemma segment_path_not_under base name seg :
  parse_u64 name = None → ¬ (base ++ [name]) `prefix_of` segment_path base seg.
Proof.
  intros Hn [l E]. unfold segment_path, segment_dir in E. rewrite <- !app_assoc in E.
  apply (inj (app base)) in E. injection E as E _. rewrite <- E, parse_show_pad in Hn; [done|].
  pose proof (Z.mod_pos_bound seg 100). lia.
Qed.

(** ** Writing and reading a record *)
Lemma write_blob_spec compression policy base seg off key value d :
  seek_ok off = true →
  ∃ d', write_blob_to_segment compression policy base seg off key value d =
    (d', Ok (mkLoc seg off (zlen value) (blake3_hash value) None,
             wrap64 (zlen (blob_record compression key value)))) ∧
  file_at d' (segment_path base seg) =
    Some (overwrite off (blob_record compression key value)
            (unwrap_or [] (file_at d (segment_path base seg)))) ∧
  same_but (segment_path base seg) (create_dir_all (segment_dir base seg) d) d' ∧
  (policy = Always → synced (segment_path base seg) d').
Proof.
  intros Hoff. unfold write_blob_to_segment. rewrite Hoff. cbn [negb].
  rewrite zlen_blob_record. unfold blob_record, blob_bytes, blob_body.
  destruct (compress_value compression value) as [wv c]. cbn [fst].
  set (magic := if c then _ else _). set (p := segment_path base seg).
  set (d0 := open_create p (create_dir_all (segment_dir base seg) d)).
  rewrite !u32_le_as_u32.
  set (body := u32_le (str_len key) ++ u64_le (zlen wv) ++ u64_le (zlen value) ++ as_bytes key ++ wv).
  assert (0 ≤ off) as H0 by (unfold seek_ok in Hoff; lia).
  pose proof (λ x c, places_write_all p off c x H0) as Hw.
  set (c0 := unwrap_or [] (file_at d p)).
  pose proof (places_compose _ _ _ _ _ _ _ (places_compose _ _ _ _ _ _ _
    (places_compose _ _ _ _ _ _ _ (places_compose _ _ _ _ _ _ _
    (places_compose _ _ _ _ _ _ _ (places_compose _ _ _ _ _ _ _ (Hw magic c0)
    (Hw (u32_le (str_len key)) c0)) (Hw (u64_le (zlen wv)) c0)) (Hw (u64_le (zlen value)) c0))
    (Hw (as_bytes key) c0)) (Hw wv c0)) (Hw (u32_le (crc32 body)) c0)) as Hall.
  assert (placed off [] c0 (mkWriter p (WAt off) []) d0) as Hstart.
  { exists []. simpl. rewrite Z.add_0_r. split; [done|]. split; [done|].
    unfold d0. by rewrite file_at_open_create, file_at_create_dir_all. }
  specialize (Hall [] (mkWriter p (WAt off) []) d0 eq_refl Hstart). cbv beta in Hall.
  destruct (bw_write_all (u32_le (crc32 body)) _) as [w1 d1] eqn:E1.
  destruct Hall as (Hp1 & H1 & S1).
  pose proof (bw_flush_placed p off c0 H0 _ _ _ Hp1 H1) as Hf.
  destruct (bw_flush (w1, d1)) as [w2 d2]. destruct Hf as (Hp2 & Hb2 & (pre & Hpre & _ & H2) & S2).
  rewrite Hb2, app_nil_r in Hpre. subst pre. rewrite Hp2 in H2. eexists. split.
  { do 4 f_equal. unfold str_len. lia. }
  cbn [app] in H2. split.
  - rewrite <- !app_assoc in H2.
    unfold body. rewrite <- !app_assoc. destruct policy; rewrite ?file_at_sync_all; exact H2.
  - split; [|intros ->; apply sync_all_synced].
    apply (same_but_trans _ _ d0); [apply same_but_open_create|].
    apply (same_but_trans _ _ d1); [done|]. apply (same_but_trans _ _ d2); [done|].
    destruct policy; auto with minikv.
Qed.

(** Writing behind a prefix of a file keeps the prefix. *)
Lemma overwrite_keeps off data x post :
  zlen x ≤ off → ∃ post', overwrite off data (x ++ post) = x ++ post'.
Proof.
  intros H. pose proof (zlen_nonneg x).
  exists (drop (length x) (overwrite off data (x ++ post))).
  rewrite <- (take_drop (length x) (overwrite off data (x ++ post))) at 1. f_equal.
  rewrite overwrite_take; [by rewrite take_app_length|lia|unfold zlen in *; lia|].
  rewrite zlen_app. unfold zlen. lia.
Qed.

Lemma path_exists_file d p c : file_at d p = Some c → path_exists d p = true.
Proof.
  unfold path_exists, is_file, file_at. destruct (files d !! p) as [f|] eqn:E; [|done].
  intros _. rewrite (bool_decide_true (is_Some _)) by done. apply orb_true_r.
Qed.

(** The lengths in a record that fit their fields. *)
Definition wf_lengths (key : string) (wv : bytes) (orig : Z) : Prop :=
  0 ≤ str_len key < 2 ^ 32 ∧ 0 ≤ zlen wv < 2 ^ 63 ∧ 0 ≤ orig < 2 ^ 64.

Lemma wf_lengths_record compression key value :
  wf_blob key value = true →
  wf_lengths key (compress_value compression value).1 (zlen value).
Proof.
  intros (_ & Hk & Hv)%wf_blob_spec. pose proof (compress_value_shorter compression value).
  pose proof (zlen_nonneg (compress_value compression value).1). pose proof (zlen_nonneg value).
  unfold wf_lengths. lia.
Qed.

Ltac read_part :=
  rewrite read_exact_app by
    (first [apply zlen_u32_le | apply zlen_u64_le
           | rewrite ?from_u32_le_small, ?from_u64_le_small by lia; reflexivity]);
  cbn [rbind].

Lemma drop_zlen {A} (pre l : list A) n : zlen pre = n → drop (Z.to_nat n) (pre ++ l) = l.
Proof. intros <-. unfold zlen. by rewrite Nat2Z.id, drop_app_length. Qed.

Lemma magic_ok (c : bool) :
  let magic := if c then BLOB_MAGIC_COMPRESSED else BLOB_MAGIC in
  bool_decide (magic ≠ BLOB_MAGIC) && negb (bool_decide (magic = BLOB_MAGIC_COMPRESSED)) = false
  ∧ bool_decide (magic = BLOB_MAGIC_COMPRESSED) = c ∧ zlen magic = 4.
Proof. by destruct c. Qed.

(** A record is read back from where it lies. *)
Lemma read_blob_record dp loc d pre post compression key value :
  file_at d (segment_path dp (loc_shard loc)) =
    Some (pre ++ blob_record compression key value ++ post) →
  zlen pre = loc_offset loc → seek_ok (loc_offset loc) = true → wf_blob key value = true →
  read_blob dp loc d = read_back compression value.
Proof.
  intros Hf Hpre Hseek Hwf. unfold read_blob, read_back. rewrite (path_exists_file _ _ _ Hf), Hf, Hseek.
  cbn [negb]. rewrite drop_zlen by done.
  pose proof (wf_lengths_record compression key value Hwf) as (Hk & Hv & Ho).
  unfold blob_record, blob_bytes.
  destruct (compress_value compression value) as [wv c] eqn:Ec. cbn [fst] in Hv.
  destruct (magic_ok c) as (M1 & M2 & M3). set (magic := if c then _ else _) in *. clearbody magic.
  unfold blob_body. rewrite <- !app_assoc.
  rewrite (read_exact_app magic) by done. cbn [rbind]. rewrite M1, M2.
  do 6 read_part. rewrite from_u32_le_small by apply crc32fast_range.
  rewrite Z.eqb_refl. cbn [negb]. destruct c; [by rewrite from_u64_le_small by lia|].
  by rewrite (compress_value_false _ _ _ Ec).
Qed.

(** ** Scanning a segment *)
Section scan_lemmas.
Context {BF : BloomFilter} {HX : Hex}.

(** The entry that a scan makes for a record at [offset]. *)
Definition scanned (segment offset : Z) (key : string) (value : bytes) : BlobLocation :=
  mkLoc segment offset (zlen value) (blake3_hash (as_bytes key)) None.

Lemma scan_step_record pre post compression key value seg offset index bloom :
  wf_blob key value = true → zlen (pre ++ blob_record compression key value) < 2 ^ 63 →
  scan_step (pre ++ blob_record compression key value ++ post) seg (zlen pre) offset index bloom =
  Ok (Some (zlen (pre ++ blob_record compression key value),
            wrap64 (offset + zlen (blob_record compression key value)),
            <[key := scanned seg offset key value]> index, bloom_set bloom (bloom_key key))).
Proof.
  intros Hwf Hlen. pose proof (wf_lengths_record compression key value Hwf) as (Hk & Hv & Ho).
  apply wf_blob_spec in Hwf as (Hval & _).
  unfold scan_step. rewrite drop_zlen by done. rewrite zlen_app, zlen_blob_record in *.
  unfold blob_record, blob_bytes.
  destruct (compress_value compression value) as [wv c]. cbn [fst] in *.
  destruct (magic_ok c) as (M1 & M2 & M3). set (magic := if c then _ else _) in *. clearbody magic.
  unfold blob_body. rewrite <- !app_assoc.
  rewrite (take_exact_app magic) by done. rewrite M1.
  do 4 read_part. rewrite from_utf8_lossy_valid by done.
  rewrite !from_u32_le_small, !from_u64_le_small by lia.
  pose proof (zlen_nonneg pre).
  assert (as_i64 (zlen wv) = zlen wv) as ->.
  { unfold as_i64. rewrite Z.mod_small by lia. by rewrite (proj2 (Z.ltb_lt _ _)) by lia. }
  set (pos := zlen pre + 4 + 4 + 8 + 8 + str_len key + zlen wv).
  assert (seek_ok pos = true) as -> by (unfold seek_ok, pos; lia). cbn [negb].
  set (crc := u32_le (crc32 _)).
  assert (magic ++ u32_le (str_len key) ++ u64_le (zlen wv) ++ u64_le (zlen value) ++
          as_bytes key ++ wv ++ crc ++ post =
          (magic ++ u32_le (str_len key) ++ u64_le (zlen wv) ++ u64_le (zlen value) ++
          as_bytes key ++ wv) ++ crc ++ post) as -> by by rewrite <- !app_assoc.
  rewrite (app_assoc pre), drop_zlen.
  2: { rewrite !zlen_app, zlen_u32_le, !zlen_u64_le, M3. unfold pos, str_len. lia. }
  rewrite read_exact_app by apply zlen_u32_le. cbn [rbind].
  unfold pos. do 5 f_equal; [lia|]. f_equal. lia.
Qed.

(** The records of a segment, in order. *)
Definition segment_bytes (compression : CompressionMode) (rs : list (string * bytes)) : bytes :=
  concat (map (λ '(key, value), blob_record compression key value) rs).

(** The index that a scan of these records makes: the last record of a key
    wins. *)
Fixpoint scan_index (compression : CompressionMode) (segment offset : Z)
    (rs : list (string * bytes)) (index : Index) : Index :=
  match rs with
  | [] => index
  | (key, value) :: rs =>
      scan_index compression segment (offset + zlen (blob_record compression key value)) rs
        (<[key := scanned segment offset key value]> index)
  end.
Definition scan_bloom (rs : list (string * bytes)) (bloom : Bloom) : Bloom :=
  fold_left (λ b '(key, _), bloom_set b (bloom_key key)) rs bloom.

Lemma segment_bytes_cons compression key value rs :
  segment_bytes compression ((key, value) :: rs) =
  blob_record compression key value ++ segment_bytes compression rs.
Proof. done. Qed.

Lemma segment_bytes_snoc compression key value rs :
  segment_bytes compression (rs ++ [(key, value)]) =
  segment_bytes compression rs ++ blob_record compression key value.
Proof. unfold segment_bytes. rewrite map_app, concat_app. simpl. by rewrite app_nil_r. Qed.

(** The loop passes over whole records, whatever comes after them. *)
Lemma scan_loop_skip compression seg rs pre post index bloom fuel :
  Forall (λ '(key, value), wf_blob key value = true) rs →
  zlen (pre ++ segment_bytes compression rs) < 2 ^ 63 →
  scan_loop (length rs + fuel) (pre ++ segment_bytes compression rs ++ post) seg
    (zlen pre) (zlen pre) index bloom =
  scan_loop fuel (pre ++ segment_bytes compression rs ++ post) seg
    (zlen (pre ++ segment_bytes compression rs)) (zlen (pre ++ segment_bytes compression rs))
    (scan_index compression seg (zlen pre) rs index) (scan_bloom rs bloom).
Proof.
  intros Hrs. revert pre index bloom.
  induction Hrs as [|[key value] rs Hwf _ IH]; intros pre index bloom Hlen.
  { change (segment_bytes compression []) with (@nil byte). by rewrite app_nil_r. }
  rewrite segment_bytes_cons in *. cbn [scan_loop length Nat.add].
  rewrite app_assoc in Hlen. pose proof Hlen as Hlen'.
  rewrite zlen_app in Hlen'. pose proof (zlen_nonneg (segment_bytes compression rs)).
  pose proof (zlen_nonneg pre). pose proof (zlen_nonneg (blob_record compression key value)).
  rewrite <- app_assoc, scan_step_record by (done || lia). rewrite zlen_app in Hlen'.
  rewrite wrap64_small by lia. rewrite <- zlen_app.
  rewrite (app_assoc pre (blob_record _ _ _)), (app_assoc pre (blob_record _ _ _) (segment_bytes _ _)).
  rewrite IH by done. cbn [scan_index]. rewrite !zlen_app. reflexivity.
Qed.

Lemma scan_loop_records compression seg rs pre index bloom fuel :
  Forall (λ '(key, value), wf_blob key value = true) rs →
  zlen (pre ++ segment_bytes compression rs) < 2 ^ 63 → (length rs < fuel)%nat →
  scan_loop fuel (pre ++ segment_bytes compression rs) seg (zlen pre) (zlen pre) index bloom =
  Some (Ok (scan_index compression seg (zlen pre) rs index, scan_bloom rs bloom)).
Proof.
  intros Hrs Hlen Hfuel. replace fuel with (length rs + S (fuel - length rs - 1))%nat by lia.
  pose proof (scan_loop_skip compression seg rs pre [] index bloom (S (fuel - length rs - 1)) Hrs Hlen) as H.
  rewrite app_nil_r in H. rewrite H. cbn [scan_loop]. unfold scan_step.
  pose proof (drop_zlen (pre ++ segment_bytes compression rs) [] _ eq_refl) as Hd.
  rewrite app_nil_r in Hd. by rewrite Hd.
Qed.
End scan_lemmas.
End segment.
