(* ===== verification/Blob.v ===== *)
(** * The blob store

    [src/volume/blob.rs] (with [src/volume/compaction.rs] and
    [src/volume/server.rs]): the log-structured store of a volume.  A write
    goes to the write-ahead log, to the Bloom filter, to the current segment
    and to the index; a read asks the filter and the index and then the
    segment.  The clock is an argument ([now], milliseconds). *)

From Stdlib Require Import ZArith Lia.
From Stdlib.Strings Require Import Byte.
From stdpp Require Import base option list gmap strings.
From S2P Require Import Prelude Bytes Text Errors Fs External Config Wal Hash Index Segment.

Record StoreStats := mkStats {
  total_keys : Z;
  total_bytes : Z;
  active_segments : Z;
  index_size : Z;
  bloom_false_positives : Z;
  stats_keys_with_ttl : Z;
  compressed_blobs : Z;
}.

Section blob.
Context {CRC : Crc32Fast} {B3 : Blake3} {LZ : Lz4} {BF : BloomFilter} {HX : Hex}
  {HI : HashIter} {RD : ReadDir}.

Record BlobStore := mkStore {
  data_path : path;
  index : Index;
  bloom : Bloom;
  wal : Wal;
  current_segment : Z;
  current_offset : Z;
  sync_policy : WalSyncPolicy;
  compression : CompressionMode;
}.

Definition with_wal (w : Wal) (st : BlobStore) : BlobStore :=
  mkStore (data_path st) (index st) (bloom st) w (current_segment st) (current_offset st)
    (sync_policy st) (compression st).
Definition with_bloom (b : Bloom) (st : BlobStore) : BlobStore :=
  mkStore (data_path st) (index st) b (wal st) (current_segment st) (current_offset st)
    (sync_policy st) (compression st).
Definition with_index (m : Index) (st : BlobStore) : BlobStore :=
  mkStore (data_path st) m (bloom st) (wal st) (current_segment st) (current_offset st)
    (sync_policy st) (compression st).
Definition with_position (segment offset : Z) (st : BlobStore) : BlobStore :=
  mkStore (data_path st) (index st) (bloom st) (wal st) segment offset
    (sync_policy st) (compression st).

(** Run an operation of the log. *)
Definition on_wal {A} (c : proc (Wal * Disk) Error A) : proc (BlobStore * Disk) Error A :=
  λ '(st, d), let '((w, d), r) := c (wal st, d) in ((with_wal w st, d), r).
Definition on_store {E} (f : BlobStore → BlobStore) : proc (BlobStore * Disk) E unit :=
  pmodify (λ '(st, d), (f st, d)).

(** ** Writing *)
Definition write_blob (key : string) (value : bytes) : proc (BlobStore * Disk) Error BlobLocation :=
  let! _ :=
    (λ '(st, d),
      if SEGMENT_SIZE <? current_offset st
      then let st := with_position (add64 (current_segment st) 1) 0 st in
           ((st, d), if MAX_SEGMENTS <=? current_segment st
                     then Err (Internal "Max segments reached") else Ok tt)
      else ((st, d), Ok tt)) in
  λ '(st, d),
    let '(d, r) := write_blob_to_segment (compression st) (sync_policy st) (data_path st)
                     (current_segment st) (current_offset st) key value d in
    match r with
    | Ok (location, bytes_written) =>
        ((with_position (current_segment st) (add64 (loc_offset location) bytes_written) st, d),
         Ok location)
    | Err e => ((st, d), Err e)
    end.

(** The clock is read only when there is a TTL; [now + ttl] wraps. *)
Definition set_expiry (now : Z) (ttl_ms : option Z) (loc : BlobLocation) : BlobLocation :=
  match ttl_ms with
  | Some ttl => mkLoc (loc_shard loc) (loc_offset loc) (loc_size loc) (loc_blake3 loc)
                  (Some (add64 now ttl))
  | None => loc
  end.

Definition put_with_ttl (now : Z) (key : string) (value : bytes) (ttl_ms : option Z)
    : proc (BlobStore * Disk) Error unit :=
  let! _ := on_wal (append_put key value) in
  let! _ := on_store (λ st, with_bloom (bloom_set (bloom st) (bloom_key key)) st) in
  let! location := write_blob key value in
  let location := set_expiry now ttl_ms location in
  on_store (λ st, with_index (index_insert key location (index st)) st).

Definition put (now : Z) (key : string) (value : bytes) : proc (BlobStore * Disk) Error unit :=
  put_with_ttl now key value None.

Definition delete_key (key : string) : proc (BlobStore * Disk) Error unit :=
  let! _ := on_wal (append_delete key) in
  on_store (λ st, with_index (index_remove key (index st)).1 st).

(** ** Reading *)
Definition get (now : Z) (key : string) (st : BlobStore) (d : Disk) : Result (option bytes) :=
  if negb (bloom_check (bloom st) (bloom_key key)) then Ok None else
  match get_if_valid now key (index st) with
  | Some loc => read_blob (data_path st) loc d
  | None => Ok None
  end.

Definition exists_key (now : Z) (key : string) (st : BlobStore) : bool :=
  match get_if_valid now key (index st) with Some _ => true | None => false end.

Definition get_ttl (now : Z) (key : string) (st : BlobStore) : option Z :=
  match index_get key (index st) with
  | Some loc =>
      match loc_expires_at loc with
      | Some expires_at => if now <? expires_at then Some (expires_at - now) else None
      | None => None
      end
  | None => None
  end.

Definition stats (st : BlobStore) : StoreStats :=
  mkStats (index_len (index st))
    (fold_left (λ sum '(_, loc), add64 sum (loc_size loc)) (hash_iter (index st)) 0)
    (add64 (current_segment st) 1) (index_len (index st)) 0
    (zlen (keys_with_ttl (index st))) 0.

(** ** Maintenance *)
Definition store_cleanup_expired (now : Z) (st : BlobStore) : BlobStore * Z :=
  let '(m, n) := cleanup_expired now (index st) in (with_index m st, n).

Definition set_compression (mode : CompressionMode) (st : BlobStore) : BlobStore :=
  mkStore (data_path st) (index st) (bloom st) (wal st) (current_segment st) (current_offset st)
    (sync_policy st) mode.

Definition snapshot_path (dp : path) : path := dp ++ ["index.snap"].
Definition bloom_path (dp : path) : path := dp ++ ["bloom.filter"].

(** The Bloom filter is written in one call and synced. *)
Definition save_snapshot (st : BlobStore) (d : Disk) : Disk :=
  let d := index_save_snapshot (index st) (snapshot_path (data_path st)) d in
  let p := bloom_path (data_path st) in
  let d := open_truncate p d in
  let d := write_at p 0 (bloom_to_bytes (bloom st)) d in
  sync_all p d.

(** The loop of [compact] over the index. *)
Fixpoint compact_loop (st : BlobStore) (temp_path : path) (entries : list (string * BlobLocation))
    (new_index : Index) (new_segment new_offset : Z) (d : Disk)
    : Disk * Result (Index * Z * Z) :=
  match entries with
  | [] => (d, Ok (new_index, new_segment, new_offset))
  | (key, old_location) :: entries =>
    match read_blob (data_path st) old_location d with
    | Ok (Some value) =>
      match write_blob_to_segment (compression st) (sync_policy st) temp_path
              new_segment new_offset key value d with
      | (d, Err e) => (d, Err e)
      | (d, Ok (location, bytes_written)) =>
        let new_index := index_insert key location new_index in
        let new_offset := add64 new_offset bytes_written in
        if SEGMENT_SIZE <? new_offset
        then compact_loop st temp_path entries new_index (add64 new_segment 1) 0 d
        else compact_loop st temp_path entries new_index new_segment new_offset d
      end
    | _ => compact_loop st temp_path entries new_index new_segment new_offset d
    end
  end.

Definition compact : proc (BlobStore * Disk) Error unit :=
  λ '(st, d),
  let temp_path := data_path st ++ ["compact_temp"] in
  let d := create_dir_all temp_path d in
  match compact_loop st temp_path (hash_iter (index st)) index_new 0 0 d with
  | (d, Err e) => ((st, d), Err e)
  | (d, Ok (new_index, new_segment, new_offset)) =>
    let backup_path := data_path st ++ ["compact_backup"] in
    match rename (data_path st) backup_path d with
    | Err e => ((st, d), Err e)
    | Ok d =>
      match rename temp_path (data_path st) d with
      | Err e => ((st, d), Err e)
      | Ok d =>
        let st := with_position new_segment new_offset (with_index new_index st) in
        let d := save_snapshot st d in
        (let! _ := on_wal wal_truncate in
         pmodify (λ '(st, d), (st, remove_dir_all backup_path d))) (st, d)
      end
    end
  end.

(** [compact_store] of compaction.rs *)
Definition compact_store : proc (BlobStore * Disk) Error unit := compact.

(** ** Opening *)
Definition replay_entry (ib : Index * Bloom) (entry : WalEntry) : Result (Index * Bloom) :=
  let '(m, b) := ib in
  match we_op entry with
  | Put key _ => Ok (m, bloom_set b (bloom_key key))
  | Delete key => Ok ((index_remove key m).1, b)
  end.

Definition load_bloom (dp : path) (d : Disk) : Result Bloom :=
  if path_exists d (bloom_path dp)
  then match file_at d (bloom_path dp) with
       | Some bytes => Ok (unwrap_or bloom_new (bloom_from_bytes bytes))
       | None => Err (Io IoOther)
       end
  else Ok bloom_new.

(** [None]: the scan of a segment does not end within [fuel] turns. *)
Definition open_store (fuel : nat) (dp wal_dir : path) (policy : WalSyncPolicy) (d : Disk)
    : Disk * option (Result BlobStore) :=
  let d := create_dir_all dp d in
  let d := create_dir_all wal_dir d in
  let has_snapshot := path_exists d (snapshot_path dp) in
  match (if has_snapshot then index_load_snapshot (snapshot_path dp) d else Ok index_new) with
  | Err e => (d, Some (Err e))
  | Ok m =>
  match load_bloom dp d with
  | Err e => (d, Some (Err e))
  | Ok b =>
  let wal_file := wal_dir ++ ["wal.log"] in
  match wal_open wal_file policy d with
  | (d, Err e) => (d, Some (Err e))
  | (d, Ok w) =>
  match wal_replay wal_file replay_entry (m, b) d with
  | Err e => (d, Some (Err e))
  | Ok (m, b) =>
  match (if negb (path_exists d (snapshot_path dp))
         then rebuild_index_from_segments fuel m b dp d
         else Some (Ok (m, fold_left (λ b key, bloom_set b (bloom_key key)) (index_keys m) b))) with
  | None => (d, None)
  | Some (Err e) => (d, Some (Err e))
  | Some (Ok (m, b)) =>
  match find_current_position dp d with
  | Err e => (d, Some (Err e))
  | Ok (segment, offset) =>
      (d, Some (Ok (mkStore dp m b w segment offset policy CompressionNone)))
  end end end end end end.

Definition open_with_compression (fuel : nat) (dp wal_dir : path) (policy : WalSyncPolicy)
    (mode : CompressionMode) (d : Disk) : Disk * option (Result BlobStore) :=
  match open_store fuel dp wal_dir policy d with
  | (d, Some (Ok st)) => (d, Some (Ok (set_compression mode st)))
  | r => r
  end.

(** [VolumeServer::new]: [Path::with_file_name] replaces the last component. *)
Definition VolumeServer_new (fuel : nat) (dp : path) (d : Disk)
    : Disk * option (Result BlobStore) :=
  open_store fuel dp (removelast dp ++ ["wal"]) Always d.
(** [VolumeServer::serve], which prints a line and returns. *)
Definition VolumeServer_serve (st : BlobStore) : list string * Result unit :=
  (["Volume server running..."%string], Ok tt).
(** [src/bin/volume.rs]; the store is dropped when [main] returns. *)
Definition volume_main (fuel : nat) (d : Disk) : Disk * option (list string * Result unit) :=
  let '(d, r) := VolumeServer_new fuel ["volume_data"] d in
  (d, match r with
      | Some (Ok st) => Some (VolumeServer_serve st)
      | Some (Err e) => Some ([], Err e)
      | None => None
      end).

(** ** Specification

    A map from keys to items: the value, how it was stored, and when it
    expires.  A value that was stored compressed reads as what the decompressor
    makes of it; [StoreMap] has the specification of a plain map, for values
    that are stored uncompressed. *)
Record Item := mkItem {
  it_value : bytes;
  it_mode : CompressionMode;
  it_expires : option Z;
}.
Abbreviation Model := (gmap string Item).

Definition item_expired (now : Z) (it : Item) : bool :=
  match it_expires it with Some t => t <? now | None => false end.

(** The item of a key, unless it is expired. *)
Definition live_item (now : Z) (key : string) (M : Model) : option Item :=
  match M !! key with
  | Some it => if item_expired now it then None else Some it
  | None => None
  end.

Definition spec_get (now : Z) (key : string) (M : Model) : Result (option bytes) :=
  match live_item now key M with
  | Some it => read_back (it_mode it) (it_value it)
  | None => Ok None
  end.

Definition spec_ttl (now : Z) (key : string) (M : Model) : option Z :=
  it ← M !! key; t ← it_expires it; if now <? t then Some (t - now) else None.

(** The operations of a store and what they return. *)
Inductive StoreOp :=
  | OpPut (key : string) (value : bytes) (ttl_ms : option Z)
  | OpGet (key : string)
  | OpDelete (key : string)
  | OpExists (key : string)
  | OpTtl (key : string)
  | OpCleanup
  | OpCompact
  | OpSnapshot
  | OpSetCompression (mode : CompressionMode).

Inductive StoreOut :=
  | OutDone (r : Result unit)
  | OutGet (r : Result (option bytes))
  | OutBool (b : bool)
  | OutTtl (o : option Z)
  | OutCount (n : Z).

Definition exec (now : Z) (op : StoreOp) (s : BlobStore * Disk) : (BlobStore * Disk) * StoreOut :=
  let '(st, d) := s in
  match op with
  | OpPut key value ttl => let '(s, r) := put_with_ttl now key value ttl (st, d) in (s, OutDone r)
  | OpGet key => ((st, d), OutGet (get now key st d))
  | OpDelete key => let '(s, r) := delete_key key (st, d) in (s, OutDone r)
  | OpExists key => ((st, d), OutBool (exists_key now key st))
  | OpTtl key => ((st, d), OutTtl (get_ttl now key st))
  | OpCleanup => let '(st, n) := store_cleanup_expired now st in ((st, d), OutCount n)
  | OpCompact => let '(s, r) := compact (st, d) in (s, OutDone r)
  | OpSnapshot => ((st, save_snapshot st d), OutDone (Ok tt))
  | OpSetCompression mode => ((set_compression mode st, d), OutDone (Ok tt))
  end.

(** What an operation may return and do, in terms of the map.  A put can be
    refused when the segments are used up; compaction fails and changes
    nothing. *)
Inductive spec_step (now : Z) : Model * CompressionMode → StoreOp → StoreOut →
    Model * CompressionMode → Prop :=
  | spec_put_ok M mode key value ttl :
      spec_step now (M, mode) (OpPut key value ttl) (OutDone (Ok tt))
        (<[key := mkItem value mode (add64 now <$> ttl)]> M, mode)
  | spec_put_full M mode key value ttl :
      spec_step now (M, mode) (OpPut key value ttl)
        (OutDone (Err (Internal "Max segments reached"))) (M, mode)
  | spec_get_step M mode key :
      spec_step now (M, mode) (OpGet key) (OutGet (spec_get now key M)) (M, mode)
  | spec_delete M mode key :
      spec_step now (M, mode) (OpDelete key) (OutDone (Ok tt)) (delete key M, mode)
  | spec_exists M mode key :
      spec_step now (M, mode) (OpExists key)
        (OutBool (bool_decide (is_Some (live_item now key M)))) (M, mode)
  | spec_ttl_step M mode key :
      spec_step now (M, mode) (OpTtl key) (OutTtl (spec_ttl now key M)) (M, mode)
  | spec_cleanup M mode :
      let M' := filter (λ '(_, it), item_expired now it = false) M in
      spec_step now (M, mode) OpCleanup (OutCount (Z.of_nat (size M) - Z.of_nat (size M'))) (M', mode)
  | spec_compact M mode :
      spec_step now (M, mode) OpCompact (OutDone (Err (Io InvalidInput))) (M, mode)
  | spec_snapshot M mode :
      spec_step now (M, mode) OpSnapshot (OutDone (Ok tt)) (M, mode)
  | spec_set_compression M mode mode' :
      spec_step now (M, mode) (OpSetCompression mode') (OutDone (Ok tt)) (M, mode').

(** Sequences of operations, each with the time at which it is made. *)
Fixpoint exec_all (ops : list (Z * StoreOp)) (s : BlobStore * Disk)
    : (BlobStore * Disk) * list StoreOut :=
  match ops with
  | [] => (s, [])
  | (now, op) :: ops =>
      let '(s, o) := exec now op s in
      let '(s, os) := exec_all ops s in (s, o :: os)
  end.

Inductive spec_trace : Model * CompressionMode → list (Z * StoreOp) → list StoreOut →
    Model * CompressionMode → Prop :=
  | spec_trace_nil s : spec_trace s [] [] s
  | spec_trace_cons s s' s'' now op o ops os :
      spec_step now s op o s' → spec_trace s' ops os s'' →
      spec_trace s ((now, op) :: ops) (o :: os) s''.

(** ** The invariant *)

(** The directories of a segment are there. *)
Definition has_segment_dir (dp : path) (segment : Z) (d : Disk) : Prop :=
  (dp ++ [show_pad 2 (segment mod 100)]) ∈ dirs d ∧ segment_dir dp segment ∈ dirs d.

(** The value of an item lies where its location says, before the place where
    the next record will go. *)
Definition item_ok (st : BlobStore) (d : Disk) (key : string) (loc : BlobLocation) (it : Item)
    : Prop :=
  wf_blob key (it_value it) = true ∧
  loc_expires_at loc = it_expires it ∧
  loc_size loc = zlen (it_value it) ∧
  loc_blake3 loc = blake3_hash (it_value it) ∧
  seek_ok (loc_offset loc) = true ∧
  0 ≤ loc_shard loc ≤ current_segment st ∧
  has_segment_dir (data_path st) (loc_shard loc) d ∧
  ∃ pre post,
    file_at d (segment_path (data_path st) (loc_shard loc)) =
      Some (pre ++ blob_record (it_mode it) key (it_value it) ++ post) ∧
    zlen pre = loc_offset loc ∧
    (loc_shard loc = current_segment st →
     zlen (pre ++ blob_record (it_mode it) key (it_value it)) ≤ current_offset st).

Record store_inv (es : list WalEntry) (M : Model) (st : BlobStore) (d : Disk) : Prop := {
  inv_wal : wal_inv es (wal st) d;
  inv_apart : ¬ data_path st `prefix_of` wal_path (wal st);
  inv_segment : 0 ≤ current_segment st < 2 ^ 64;
  inv_offset : 0 ≤ current_offset st;
  inv_dir : data_path st ∈ dirs d;
  inv_items : map_Forall2 (item_ok st d) (index st) M;
  inv_bloom : ∀ key, is_Some (index st !! key) → bloom_check (bloom st) (bloom_key key) = true;
}.

(** ** The invariant is kept *)
Lemma wal_inv_frame es w d d' :
  file_at d' (wal_path w) = file_at d (wal_path w) → wal_inv es w d → wal_inv es w d'.
Proof.
  intros Hf ((c & Hc & Hm) & Hp & Hw & H). rewrite <- Hp in Hf. split.
  - exists c. by rewrite Hf.
  - split; [done|]. split; [|done]. unfold written in *. by rewrite Hf.
Qed.

(** Only the position and the segment files matter for an item. *)
Lemma item_ok_frame st st' d d' key loc it :
  data_path st' = data_path st → current_segment st' = current_segment st →
  current_offset st' = current_offset st → current_segment st < 2 ^ 64 → dirs d ⊆ dirs d' →
  (∀ seg, 0 ≤ seg < 2 ^ 64 → file_at d' (segment_path (data_path st) seg) =
     file_at d (segment_path (data_path st) seg)) →
  item_ok st d key loc it → item_ok st' d' key loc it.
Proof.
  intros Hp Hs Ho Hmax Hd Hf (H1 & H2 & H3 & H4 & H5 & H6 & [D1 D2] & pre & post & H7 & H8 & H9).
  repeat (split; [done|]). rewrite Hp, Hs, Ho. split; [done|]. split; [split; by apply Hd|].
  exists pre, post. by rewrite Hf by lia.
Qed.

(** An operation that leaves the index and the segment files alone. *)
Lemma store_inv_frame es es' M st st' d d' :
  data_path st' = data_path st → current_segment st' = current_segment st →
  current_offset st' = current_offset st → index st' = index st →
  wal_path (wal st') = wal_path (wal st) → dirs d ⊆ dirs d' →
  (∀ seg, 0 ≤ seg < 2 ^ 64 → file_at d' (segment_path (data_path st) seg) =
     file_at d (segment_path (data_path st) seg)) →
  (∀ key, bloom_check (bloom st) (bloom_key key) = true →
          bloom_check (bloom st') (bloom_key key) = true) →
  wal_inv es' (wal st') d' →
  store_inv es M st d → store_inv es' M st' d'.
Proof.
  intros Hp Hs Ho Hi Hw Hd Hf Hb Hwal [I1 I2 I3 I4 ID I5 I6].
  split; rewrite ?Hp, ?Hs, ?Ho, ?Hw, ?Hi; try done.
  - by apply Hd.
  - eapply map_Forall2_impl; [done|]. intros key loc it. apply item_ok_frame; try done. lia.
  - intros key Hk. by apply Hb, I6.
Qed.

Lemma segment_path_not_wal es M st d seg :
  store_inv es M st d → segment_path (data_path st) seg ≠ wal_path (wal st).
Proof. intros I E. apply (inv_apart _ _ _ _ I). rewrite <- E. apply segment_path_under. Qed.

Lemma store_append es M st d o :
  store_inv es M st d → wf_op o = true → zlen es + 1 < 2 ^ 64 →
  ∃ w' d', on_wal (append_op o) (st, d) = ((with_wal w' st, d'), Ok (zlen es)) ∧
    dirs d' = dirs d ∧ (∀ q, q ≠ wal_path (wal st) → files d' !! q = files d !! q) ∧
    wal_path w' = wal_path (wal st) ∧
    store_inv (es ++ [mkEntry (zlen es) o]) M (with_wal w' st) d'.
Proof.
  intros I Ho Hmax.
  destruct (append_op_inv es o (wal st) d (inv_wal _ _ _ _ I) Ho Hmax)
    as (w' & d' & E & Hw & Hp & _ & Hd & Hq).
  exists w', d'. unfold on_wal. rewrite E. repeat (split; [done|]).
  eapply store_inv_frame; [..|exact I]; try done; [simpl; by rewrite Hd|].
  intros seg _. unfold file_at. rewrite Hq; [done|]. by eapply segment_path_not_wal.
Qed.

(** Going on to the next segment. *)
Lemma item_ok_bump st d key loc it :
  0 ≤ current_segment st → current_segment st + 1 < 2 ^ 64 → item_ok st d key loc it →
  item_ok (with_position (add64 (current_segment st) 1) 0 st) d key loc it.
Proof.
  intros H0 Hmax (H1 & H2 & H3 & H4 & H5 & H6 & D & pre & post & H7 & H8 & H9).
  rewrite add64_small by lia. repeat (split; [done|]). simpl. split; [lia|]. split; [done|].
  exists pre, post. repeat (split; [done|]). lia.
Qed.

Lemma store_inv_bump es M st d :
  store_inv es M st d → current_segment st + 1 < 2 ^ 64 →
  store_inv es M (with_position (add64 (current_segment st) 1) 0 st) d.
Proof.
  intros [I1 I2 I3 I4 ID I5 I6] Hmax.
  split; try done; try (simpl; rewrite ?add64_small; lia).
  eapply map_Forall2_impl; [done|]. intros key loc it. apply item_ok_bump; lia.
Qed.

(** A record written at the position keeps every item. *)
Lemma item_ok_write st st' d d' data key loc it :
  data_path st' = data_path st → current_segment st' = current_segment st →
  0 ≤ current_segment st < 2 ^ 64 → current_offset st ≤ current_offset st' → dirs d ⊆ dirs d' →
  file_at d' (segment_path (data_path st) (current_segment st)) =
    Some (overwrite (current_offset st) data
      (unwrap_or [] (file_at d (segment_path (data_path st) (current_segment st))))) →
  (∀ q, q ≠ segment_path (data_path st) (current_segment st) → file_at d' q = file_at d q) →
  item_ok st d key loc it → item_ok st' d' key loc it.
Proof.
  intros Hp Hs Hseg Ho Hd Hf Hq (H1 & H2 & H3 & H4 & H5 & H6 & [D1 D2] & pre & post & H7 & H8 & H9).
  repeat (split; [done|]). rewrite Hp, Hs. split; [lia|]. split; [split; by apply Hd|]. exists pre.
  destruct (decide (loc_shard loc = current_segment st)) as [E|Hne].
  - specialize (H9 E). rewrite E, Hf in *. rewrite H7. cbn [unwrap_or]. rewrite app_assoc.
    destruct (overwrite_keeps (current_offset st) data _ post H9) as [post' ->].
    exists post'. rewrite <- app_assoc. split; [done|]. split; [done|]. intros _. lia.
  - exists post. split; [|split; [done|lia]]. rewrite <- H7. apply Hq.
    intros E. apply Hne. apply segment_path_inj in E; [done|lia|done].
Qed.

Lemma zlen_record_bound mode key value :
  wf_blob key value = true → 0 < zlen (blob_record mode key value) < 2 ^ 63 + 2 ^ 33.
Proof.
  intros (_ & Hk & Hv)%wf_blob_spec. rewrite zlen_blob_record.
  pose proof (compress_value_shorter mode value).
  pose proof (zlen_nonneg (compress_value mode value).1). lia.
Qed.

(** The outcome of writing a record: where it is, and that everything else is
    as before. *)
Definition wrote (es : list WalEntry) (M : Model) (key : string) (value : bytes)
    (st : BlobStore) (d : Disk) (st' : BlobStore) (d' : Disk) (loc : BlobLocation) : Prop :=
  store_inv es M st' d' ∧ item_ok st' d' key loc (mkItem value (compression st) None) ∧
  index st' = index st ∧ bloom st' = bloom st ∧ compression st' = compression st ∧
  current_segment st ≤ current_segment st' ≤ current_segment st + 1.

Lemma write_record_inv es M st d key value :
  store_inv es M st d → wf_blob key value = true → current_offset st ≤ SEGMENT_SIZE →
  ∃ d' loc n,
    write_blob_to_segment (compression st) (sync_policy st) (data_path st)
      (current_segment st) (current_offset st) key value d = (d', Ok (loc, n)) ∧
    wrote es M key value st d
      (with_position (current_segment st) (add64 (loc_offset loc) n) st) d' loc.
Proof.
  intros I Hwf Hoff. pose proof I as [I1 I2 I3 I4 ID I5 I6]. unfold SEGMENT_SIZE in Hoff.
  assert (seek_ok (current_offset st) = true) as Hseek by (unfold seek_ok; lia).
  destruct (write_blob_spec (compression st) (sync_policy st) (data_path st) (current_segment st)
    (current_offset st) key value d Hseek) as (d' & E & Hf & Hsame & _).
  pose proof (zlen_record_bound (compression st) key value Hwf) as Hlen.
  rewrite wrap64_small in E by lia.
  assert (∀ q, q ≠ segment_path (data_path st) (current_segment st) → file_at d' q = file_at d q) as Hq.
  { intros q Hq. by apply (same_but_file_at _ _ _ _ Hsame). }
  destruct Hsame as [Hdirs _].
  assert (dirs d ⊆ dirs d') as Hd by (rewrite Hdirs; apply create_dir_all_dirs).
  eexists d', _, _. split; [exact E|]. cbn [loc_offset]. rewrite add64_small by lia.
  split; [|split; [|simpl; repeat (split; [done|]); lia]].
  - split; simpl; try done; try lia; [|by apply Hd|].
    + eapply wal_inv_frame; [|done]. apply Hq. intros Hw. eapply segment_path_not_wal; [exact I|].
      by symmetry.
    + eapply map_Forall2_impl; [done|]. intros k l it.
      apply (item_ok_write st _ d d' (blob_record (compression st) key value)); simpl; (done || lia).
  - repeat (split; [done|]). simpl. split; [lia|]. split.
    { unfold has_segment_dir. rewrite Hdirs. split; [|apply create_dir_all_elem].
      unfold segment_dir. change [?a; ?b] with ([a] ++ [b]). rewrite app_assoc.
      apply create_dir_all_self. }
    destruct (overwrite_at (current_offset st) (blob_record (compression st) key value)
      (unwrap_or [] (file_at d (segment_path (data_path st) (current_segment st)))))
      as (pre & post & E1 & E2); [lia|apply blob_record_nonempty|].
    exists pre, post. rewrite Hf, E1. split; [done|]. split; [done|]. intros _.
    rewrite zlen_app. lia.
Qed.

Lemma write_blob_inv es M st d key value :
  store_inv es M st d → wf_blob key value = true → current_segment st + 1 < 2 ^ 64 →
  (∃ st' d' loc, write_blob key value (st, d) = ((st', d'), Ok loc) ∧
     wrote es M key value st d st' d' loc) ∨
  (∃ st', write_blob key value (st, d) = ((st', d), Err (Internal "Max segments reached")) ∧
     store_inv es M st' d ∧ compression st' = compression st ∧
     current_segment st' = current_segment st + 1 ∧
     SEGMENT_SIZE < current_offset st ∧ MAX_SEGMENTS ≤ current_segment st + 1).
Proof.
  intros I Hwf Hmax. unfold write_blob, pbind. pose proof (inv_segment _ _ _ _ I) as Hseg.
  destruct (Z.ltb_spec SEGMENT_SIZE (current_offset st)) as [Hfull|Hfit].
  - pose proof (store_inv_bump es M st d I Hmax) as I'.
    set (st1 := with_position (add64 (current_segment st) 1) 0 st) in *.
    assert (current_segment st1 = current_segment st + 1) as Hs1 by (apply add64_small; lia).
    destruct (Z.leb_spec MAX_SEGMENTS (current_segment st1)) as [Hlim|Hlim].
    + right. exists st1. repeat (split; [done || lia|]). lia.
    + left. destruct (write_record_inv es M st1 d key value I' Hwf) as (d' & loc & n & E & W1 & W2 & W3 & W4 & W5 & W6);
        [by unfold SEGMENT_SIZE|].
      change (compression st1) with (compression st) in *.
      eexists _, d', loc. rewrite E. split; [done|].
      split; [exact W1|]. repeat (split; [done|]). simpl in *. lia.
  - left. destruct (write_record_inv es M st d key value I Hwf Hfit) as (d' & loc & n & E & W).
    eexists _, d', loc. by rewrite E.
Qed.

Lemma wf_op_blob key value : wf_op (Put key value) = true → wf_blob key value = true.
Proof.
  unfold wf_op. simpl. rewrite !andb_true_iff, is_u32_spec, is_u32_spec.
  intros [[H1 H2] H3]. apply wf_blob_spec. split; [done|]. lia.
Qed.

Lemma item_ok_expiry now ttl st d key loc value mode :
  item_ok st d key loc (mkItem value mode None) →
  item_ok st d key (set_expiry now ttl loc) (mkItem value mode (add64 now <$> ttl)).
Proof.
  intros (H1 & H2 & H3 & H4 & H5 & H6 & H7 & H8). destruct ttl as [t|]; simpl in *; [|done].
  repeat (split; [done|]). done.
Qed.

Lemma store_inv_insert es M st d key loc it :
  store_inv es M st d → item_ok st d key loc it →
  bloom_check (bloom st) (bloom_key key) = true →
  store_inv es (<[key := it]> M) (with_index (index_insert key loc (index st)) st) d.
Proof.
  intros [I1 I2 I3 I4 ID I5 I6] Hit Hb. split; simpl; try done.
  - by apply map_Forall2_insert_2.
  - intros k [l Hk]. destruct (decide (k = key)) as [->|Hne]; [done|].
    unfold index_insert in Hk. rewrite lookup_insert_ne in Hk by done. by apply I6.
Qed.

Lemma put_inv es M st d now key value ttl :
  store_inv es M st d → wf_op (Put key value) = true →
  zlen es + 1 < 2 ^ 64 → current_segment st + 1 < 2 ^ 64 →
  ∃ st' d' r M', put_with_ttl now key value ttl (st, d) = ((st', d'), r) ∧
    store_inv (es ++ [mkEntry (zlen es) (Put key value)]) M' st' d' ∧
    compression st' = compression st ∧ current_segment st' ≤ current_segment st + 1 ∧
    (r = Ok tt ∧ M' = <[key := mkItem value (compression st) (add64 now <$> ttl)]> M ∨
     r = Err (Internal "Max segments reached") ∧ M' = M ∧
     SEGMENT_SIZE < current_offset st ∧ MAX_SEGMENTS ≤ current_segment st + 1).
Proof.
  intros I Ho Hes Hseg.
  destruct (store_append es M st d (Put key value) I Ho Hes) as (w' & d1 & E1 & _ & _ & _ & I1).
  set (es' := es ++ _) in *.
  unfold put_with_ttl. unfold pbind at 1. cbn [append_op] in E1. rewrite E1.
  unfold pbind at 1, on_store, pmodify at 1. cbn beta iota.
  set (st1 := with_bloom _ (with_wal w' st)).
  assert (store_inv es' M st1 d1) as I2.
  { eapply store_inv_frame; [..|exact I1]; try done; [|apply (inv_wal _ _ _ _ I1)].
    intros k Hk. simpl. by apply bloom_check_mono. }
  destruct (write_blob_inv es' M st1 d1 key value I2 (wf_op_blob _ _ Ho) Hseg) as
    [(st2 & d2 & loc & E2 & W1 & W2 & W3 & W4 & W5 & W6)|(st2 & E2 & W1 & W2 & W3 & W4 & W5)];
    unfold pbind; rewrite E2; eexists _, _, _, _.
  - split; [done|]. split; [|split; [done|]; split; [simpl in *; lia|]; by left].
    apply store_inv_insert; [done|by apply item_ok_expiry|].
    rewrite W4. apply bloom_check_set.
  - split; [done|]. split; [exact W1|]. split; [done|].
    split; [simpl in *; lia|]. right. done.
Qed.

Lemma delete_inv es M st d key :
  store_inv es M st d → wf_op (Delete key) = true → zlen es + 1 < 2 ^ 64 →
  ∃ st' d', delete_key key (st, d) = ((st', d'), Ok tt) ∧
    store_inv (es ++ [mkEntry (zlen es) (Delete key)]) (delete key M) st' d' ∧
    compression st' = compression st ∧ current_segment st' = current_segment st.
Proof.
  intros I Ho Hes.
  destruct (store_append es M st d (Delete key) I Ho Hes) as (w' & d1 & E1 & _ & _ & _ & I1).
  unfold delete_key, pbind. cbn [append_op] in E1. rewrite E1. eexists _, d1. split; [done|].
  split; [|done]. destruct I1 as [J1 J2 J3 J4 JD J5 J6]. split; simpl; try done.
  - by apply map_Forall2_delete.
  - intros k Hk. apply J6. destruct Hk as [l Hk]. apply lookup_delete_Some in Hk as [_ Hk]. by exists l.
Qed.

(** ** Reading is reading the map *)
Lemma loc_expired_item now st d key loc it :
  item_ok st d key loc it → loc_expired now loc = item_expired now it.
Proof. intros (_ & H & _). unfold loc_expired, item_expired. by rewrite H. Qed.

Lemma live_item_index es M st d now key :
  store_inv es M st d →
  match get_if_valid now key (index st) with
  | Some loc => ∃ it, live_item now key M = Some it ∧ item_ok st d key loc it
  | None => live_item now key M = None
  end.
Proof.
  intros I. pose proof (inv_items _ _ _ _ I key) as Hr. unfold live_item.
  destruct (get_if_valid now key (index st)) as [loc|] eqn:Eg.
  - apply get_if_valid_Some in Eg as [Hl He]. rewrite Hl in Hr.
    destruct (M !! key) as [it|]; [|inversion Hr]. inversion Hr as [? ? Hok|]; subst.
    exists it. split; [|done]. by rewrite <- (loc_expired_item now _ _ _ _ _ Hok), He.
  - destruct (M !! key) as [it|]; [|done].
    destruct (index st !! key) as [loc|] eqn:El; [|inversion Hr]. inversion Hr as [? ? Hok|]; subst.
    destruct (item_expired now it) eqn:Ee; [done|].
    assert (get_if_valid now key (index st) = Some loc) as Hg; [|congruence].
    apply get_if_valid_Some. split; [done|]. by rewrite (loc_expired_item now _ _ _ _ _ Hok).
Qed.

Lemma get_spec es M st d now key :
  store_inv es M st d → get now key st d = spec_get now key M.
Proof.
  intros I. pose proof (live_item_index es M st d now key I) as H. unfold get, spec_get.
  destruct (get_if_valid now key (index st)) as [loc|] eqn:Eg.
  - destruct H as (it & -> & Hwf & _ & _ & _ & Hseek & _ & _ & pre & post & Hf & Hpre & _).
    apply get_if_valid_Some in Eg as [Hl _].
    rewrite (inv_bloom _ _ _ _ I) by eauto. cbn [negb].
    eapply read_blob_record; done.
  - rewrite H. by destruct (negb _).
Qed.

Lemma exists_spec es M st d now key :
  store_inv es M st d → exists_key now key st = bool_decide (is_Some (live_item now key M)).
Proof.
  intros I. pose proof (live_item_index es M st d now key I) as H. unfold exists_key.
  destruct (get_if_valid now key (index st)).
  - destruct H as (it & -> & _). done.
  - by rewrite H.
Qed.

Lemma ttl_spec es M st d now key :
  store_inv es M st d → get_ttl now key st = spec_ttl now key M.
Proof.
  intros I. pose proof (inv_items _ _ _ _ I key) as Hr. unfold get_ttl, spec_ttl, index_get.
  destruct (index st !! key) as [loc|], (M !! key) as [it|]; inversion Hr as [? ? Hok|]; subst; [|done].
  destruct Hok as (_ & -> & _). simpl. by destruct (it_expires it).
Qed.

(** ** Maintenance keeps the map *)
Lemma map_Forall2_size {A B} (R : string → A → B → Prop) (m1 : gmap string A) (m2 : gmap string B) :
  map_Forall2 R m1 m2 → size m1 = size m2.
Proof.
  intros H. rewrite <- !size_dom. f_equal. apply set_eq. intros k. rewrite !elem_of_dom.
  specialize (H k). destruct (m1 !! k), (m2 !! k); inversion H; naive_solver.
Qed.

Lemma cleanup_inv es M st d now :
  store_inv es M st d →
  let M' := filter (λ '(_, it), item_expired now it = false) M in
  ∃ st', store_cleanup_expired now st = (st', Z.of_nat (size M) - Z.of_nat (size M')) ∧
    store_inv es M' st' d ∧ compression st' = compression st ∧
    current_segment st' = current_segment st.
Proof.
  intros I M'. unfold store_cleanup_expired.
  pose proof (cleanup_expired_lookup now (index st)) as Hl.
  pose proof (cleanup_expired_count now (index st)) as Hc.
  destruct (cleanup_expired now (index st)) as [m' n]. simpl in *.
  assert (map_Forall2 (item_ok st d) m' M') as HR.
  { intros k. rewrite Hl. pose proof (live_item_index es M st d now k I) as H.
    assert (M' !! k = live_item now k M) as ->.
    { apply option_eq. intros it. unfold M'. rewrite map_lookup_filter_Some. unfold live_item.
      destruct (M !! k) as [i|]; [destruct (item_expired now i) eqn:Ee|]; naive_solver congruence. }
    destruct (get_if_valid now k (index st)).
    - destruct H as (it & -> & Hok). by constructor.
    - rewrite H. constructor. }
  exists (with_index m' st). split.
  - f_equal. rewrite <- (map_Forall2_size _ _ _ HR), <- (map_Forall2_size _ _ _ (inv_items _ _ _ _ I)).
    unfold index_len in Hc. lia.
  - destruct I as [I1 I2 I3 I4 ID I5 I6]. split; [|done]. split; simpl; try done.
    intros k [l Hk]. apply I6. rewrite Hl in Hk. apply get_if_valid_Some in Hk as [Hk _]. by exists l.
Qed.

(** The files of a store: its segments and its log. *)
Definition store_file (st : BlobStore) (q : path) : Prop :=
  q = wal_path (wal st) ∨ ∃ seg, 0 ≤ seg < 2 ^ 64 ∧ q = segment_path (data_path st) seg.

(** Whatever else changes on the disk does not matter. *)
Lemma store_inv_disk es M st d d' :
  dirs d ⊆ dirs d' → (∀ q, store_file st q → file_at d' q = file_at d q) →
  store_inv es M st d → store_inv es M st d'.
Proof.
  intros Hd Hq I. eapply store_inv_frame; [..|exact I]; try done.
  - intros seg Hs. apply Hq. right. eauto.
  - eapply wal_inv_frame; [|apply (inv_wal _ _ _ _ I)]. apply Hq. by left.
Qed.

Lemma side_file_not_store es M st d name q :
  store_inv es M st d → parse_u64 name = None →
  (data_path st ++ [name]) `prefix_of` q → ¬ store_file st q.
Proof.
  intros I Hn Hpre [->|(seg & _ & ->)].
  - apply (inv_apart _ _ _ _ I). etransitivity; [|exact Hpre]. by apply prefix_app_r.
  - by apply (segment_path_not_under (data_path st) name seg).
Qed.

Lemma save_snapshot_other st d q :
  q ≠ snapshot_path (data_path st) → q ≠ bloom_path (data_path st) →
  file_at (save_snapshot st d) q = file_at d q.
Proof.
  intros H1 H2. unfold save_snapshot. rewrite file_at_sync_all.
  rewrite (same_but_file_at _ _ _ q (same_but_write_at _ _ _ _)) by done.
  unfold open_truncate, index_save_snapshot. by rewrite !file_at_set_content_ne by congruence.
Qed.

Lemma save_snapshot_dirs st d : dirs (save_snapshot st d) = dirs d.
Proof.
  unfold save_snapshot. rewrite (proj1 (same_but_sync_all _ _)).
  by rewrite (proj1 (same_but_write_at _ _ _ _)).
Qed.

Lemma snapshot_inv es M st d : store_inv es M st d → store_inv es M st (save_snapshot st d).
Proof.
  intros I. apply (store_inv_disk es M st d); [by rewrite save_snapshot_dirs| |exact I]. intros q Hq.
  apply save_snapshot_other; intros ->; eapply side_file_not_store; eauto; done.
Qed.

Lemma compact_loop_total st temp entries m seg off d :
  0 ≤ off ≤ SEGMENT_SIZE →
  ∃ d' r, compact_loop st temp entries m seg off d = (d', Ok r) ∧
    dirs d ⊆ dirs d' ∧ ∀ q, ¬ temp `prefix_of` q → file_at d' q = file_at d q.
Proof.
  revert m seg off d. induction entries as [|[key loc] entries IH]; intros m seg off d Hoff; simpl.
  { by exists d, (m, seg, off). }
  destruct (read_blob (data_path st) loc d) as [[value|]|e]; [|by apply IH|by apply IH].
  assert (seek_ok off = true) as Hseek by (unfold seek_ok, SEGMENT_SIZE in *; lia).
  destruct (write_blob_spec (compression st) (sync_policy st) temp seg off key value d Hseek)
    as (d1 & -> & _ & [Hd1 Hf1] & _).
  set (n := wrap64 _). pose proof (wrap64_range (off + n)) as Hr. unfold add64.
  assert (∀ q, ¬ temp `prefix_of` q → file_at d1 q = file_at d q) as Hq.
  { intros q Hq. unfold file_at. rewrite Hf1; [done|]. intros ->. apply Hq, segment_path_under. }
  assert (dirs d ⊆ dirs d1) as Hdir by (rewrite Hd1; apply create_dir_all_dirs).
  destruct (Z.ltb_spec SEGMENT_SIZE (wrap64 (off + n))).
  - destruct (IH (index_insert key (mkLoc seg off (zlen value) (blake3_hash value) None) m)
                 (wrap64 (seg + 1)) 0 d1) as (d' & r & E & D & F); [done|].
    exists d', r. split; [done|]. split; [set_solver|]. intros q Hnq. by rewrite F, Hq.
  - destruct (IH (index_insert key (mkLoc seg off (zlen value) (blake3_hash value) None) m)
                 seg (wrap64 (off + n)) d1) as (d' & r & E & D & F); [lia|].
    exists d', r. split; [done|]. split; [set_solver|]. intros q Hnq. by rewrite F, Hq.
Qed.

Lemma compact_fails st d :
  ∃ d', compact (st, d) = ((st, d'), Err (Io InvalidInput)) ∧
    (data_path st ++ ["compact_temp"]) ∈ dirs d' ∧ dirs d ⊆ dirs d' ∧
    ∀ q, ¬ (data_path st ++ ["compact_temp"]) `prefix_of` q → file_at d' q = file_at d q.
Proof.
  unfold compact. set (temp := data_path st ++ ["compact_temp"]).
  destruct (compact_loop_total st temp (hash_iter (index st)) index_new 0 0 (create_dir_all temp d))
    as (d' & [[m seg] off] & -> & Hd & Hf); [by unfold SEGMENT_SIZE|].
  rewrite rename_below; [|apply Hd, create_dir_all_self].
  exists d'. split; [done|]. split; [apply Hd, create_dir_all_elem|].
  split; [pose proof (create_dir_all_dirs temp d); set_solver|]. intros q Hq. by rewrite Hf.
Qed.

Lemma compact_inv es M st d :
  store_inv es M st d →
  ∃ d', compact (st, d) = ((st, d'), Err (Io InvalidInput)) ∧ store_inv es M st d'.
Proof.
  intros I. destruct (compact_fails st d) as (d' & E & _ & Hd & Hf). exists d'. split; [done|].
  eapply store_inv_disk; [done| |exact I]. intros q Hq. apply Hf. intros Hpre.
  by apply (side_file_not_store es M st d "compact_temp" q).
Qed.

(** ** Refinement *)

(** Keys are Rust strings shorter than 4 GiB, values are shorter than 4 GiB. *)
Definition wf_store_op (op : StoreOp) : bool :=
  match op with
  | OpPut key value _ => wf_op (Put key value)
  | OpDelete key => wf_op (Delete key)
  | _ => true
  end.

(** What an operation appends to the log. *)
Definition op_entries (n : Z) (op : StoreOp) : list WalEntry :=
  match op with
  | OpPut key value _ => [mkEntry n (Put key value)]
  | OpDelete key => [mkEntry n (Delete key)]
  | _ => []
  end.

(** One operation: what it returns is what the specification allows, and the
    store represents the resulting map.  An operation adds at most one log
    entry and at most one segment. *)
Lemma exec_refines es M st d now op :
  store_inv es M st d → wf_store_op op = true →
  zlen es + 1 < 2 ^ 64 → current_segment st + 1 < 2 ^ 64 →
  ∃ st' d' o M',
    exec now op (st, d) = ((st', d'), o) ∧
    spec_step now (M, compression st) op o (M', compression st') ∧
    store_inv (es ++ op_entries (zlen es) op) M' st' d' ∧
    current_segment st' ≤ current_segment st + 1.
Proof.
  intros I Hwf Hes Hseg. destruct op as [key value ttl|key|key|key|key| | | |mode];
    cbn [exec wf_store_op op_entries] in *; rewrite ?app_nil_r.
  - destruct (put_inv es M st d now key value ttl I Hwf Hes Hseg)
      as (st' & d' & r & M' & E & I' & C & S & Hr). rewrite E.
    exists st', d', (OutDone r), M'. rewrite C. split; [done|].
    split; [|split; [done|]; lia]. destruct Hr as [[-> ->]|(-> & -> & _)]; constructor.
  - exists st, d, (OutGet (get now key st d)), M. rewrite (get_spec es M) by done.
    split; [done|]. split; [constructor|]. split; [done|]. lia.
  - destruct (delete_inv es M st d key I Hwf Hes) as (st' & d' & E & I' & C & S). rewrite E.
    eexists st', d', _, (delete key M). split; [done|]. rewrite C. split; [constructor|].
    split; [done|]. lia.
  - exists st, d, (OutBool (exists_key now key st)), M. rewrite (exists_spec es M st d) by done.
    split; [done|]. split; [constructor|]. split; [done|]. lia.
  - exists st, d, (OutTtl (get_ttl now key st)), M. rewrite (ttl_spec es M st d) by done.
    split; [done|]. split; [constructor|]. split; [done|]. lia.
  - destruct (cleanup_inv es M st d now I) as (st' & E & I' & C & S). rewrite E.
    eexists st', d, _, _. split; [done|]. rewrite C. split; [constructor|]. split; [done|]. lia.
  - destruct (compact_inv es M st d I) as (d' & E & I'). rewrite E.
    eexists st, d', _, M. split; [done|]. split; [constructor|]. split; [done|]. lia.
  - eexists st, _, _, M. split; [done|]. split; [constructor|].
    split; [by apply snapshot_inv|]. lia.
  - eexists _, d, _, M. split; [done|]. split; [constructor|]. split; [|simpl; lia].
    eapply store_inv_frame; [..|exact I]; try done. apply (inv_wal _ _ _ _ I).
Qed.

Lemma op_entries_length n op : zlen (op_entries n op) ≤ 1.
Proof. by destruct op. Qed.

(** A new store is empty. *)
Lemma store_inv_new dp wal_file pol d :
  ¬ dp `prefix_of` wal_file → dp ∈ dirs d →
  store_inv [] ∅ (mkStore dp ∅ bloom_new
      (mkWal wal_file (mkWriter wal_file WAppend []) 0 pol) 0 0 pol CompressionNone)
    (set_content wal_file [] d).
Proof.
  intros Hp Hd. split; simpl; try done.
  - split; [exists []; by rewrite file_at_set_content|]. split; [done|].
    split; [unfold written; simpl; by rewrite file_at_set_content|].
    split; [by intros i e|]. split; [constructor|done].
  - apply map_Forall2_empty.
  - by intros key [l Hl].
Qed.

(** *** Theorems *)

(** The store refines a map of items, compressed or not.  From any state that
    represents a map, every sequence of operations returns what [spec_step]
    allows, and leaves a state that represents the resulting map. *)
Theorem store_refines_map es M st d ops :
  store_inv es M st d → Forall (λ '(_, op), wf_store_op op = true) ops →
  zlen es + zlen ops < 2 ^ 64 → current_segment st + zlen ops < 2 ^ 64 →
  ∃ st' d' outs es' M',
    exec_all ops (st, d) = ((st', d'), outs) ∧
    spec_trace (M, compression st) ops outs (M', compression st') ∧
    store_inv es' M' st' d'.
Proof.
  intros I Hops. revert es M st d I. induction Hops as [|[now op] ops Hop _ IH]; intros es M st d I Hes Hseg.
  - exists st, d, [], es, M. split; [done|]. split; [constructor|done].
  - rewrite zlen_cons in *. pose proof (zlen_nonneg ops).
    destruct (exec_refines es M st d now op I Hop ltac:(lia) ltac:(lia))
      as (st1 & d1 & o & M1 & E1 & S1 & I1 & G1).
    pose proof (op_entries_length (zlen es) op).
    destruct (IH _ M1 st1 d1 I1 ltac:(rewrite zlen_app; lia) ltac:(lia)) as (st2 & d2 & os & es2 & M2 & E2 & S2 & I2).
    exists st2, d2, (o :: os), es2, M2. cbn [exec_all]. rewrite E1, E2. split; [done|].
    split; [|done]. by eapply spec_trace_cons.
Qed.

(** C9. A value that is stored uncompressed, because compression is off or the
    value is shorter than 128 bytes, is read back after a put: [get] returns
    exactly the value that was put, up to its expiration time, and nothing after
    it, and every other key reads as before.  The put itself fails only when the
    current segment is full and the limit of segments is reached, and then every
    key reads as before. *)
Theorem put_get es M st d now key value ttl :
  store_inv es M st d → wf_op (Put key value) = true →
  zlen es + 1 < 2 ^ 64 → current_segment st + 1 < 2 ^ 64 →
  stored_plain (compression st) value = true →
  ∃ st' d' r, put_with_ttl now key value ttl (st, d) = ((st', d'), r) ∧
  (current_offset st ≤ SEGMENT_SIZE ∨ current_segment st + 1 < MAX_SEGMENTS → r = Ok tt) ∧
  match r with
  | Ok _ => ∀ later,
      get later key st' d' =
      Ok (match ttl with
          | Some t => if add64 now t <? later then None else Some value
          | None => Some value
          end) ∧
      ∀ key', key' ≠ key → get later key' st' d' = get later key' st d
  | Err e => e = Internal "Max segments reached" ∧ ∀ later k, get later k st' d' = get later k st d
  end.
Proof.
  intros I Hwf Hes Hseg Hc. destruct (put_inv es M st d now key value ttl I Hwf Hes Hseg)
    as (st' & d' & r & M' & E & I' & _ & _ & Hr).
  exists st', d', r. split; [done|]. destruct Hr as [[-> ->]|(-> & -> & F1 & F2)].
  - split; [done|]. intros later. split.
    + rewrite (get_spec _ _ _ _ _ _ I'). unfold spec_get, live_item. rewrite lookup_insert_eq.
      unfold item_expired. destruct ttl as [t|]; simpl; [destruct (_ <? later); [done|]|]; by apply read_back_plain.
    + intros key' Hk. rewrite (get_spec _ _ _ _ _ _ I'), (get_spec _ _ _ _ _ _ I).
      unfold spec_get, live_item. by rewrite lookup_insert_ne.
  - split; [lia|]. split; [done|]. intros later k.
    by rewrite (get_spec _ _ _ _ _ _ I'), (get_spec _ _ _ _ _ _ I).
Qed.

(** Compaction never succeeds: it tries to rename the data directory to a
    directory inside it, which the operating system refuses, and returns that
    error.  The store is not changed and every key reads as before; what stays
    behind are the files of the attempt under [compact_temp]. *)
Theorem compact_never_succeeds st d :
  ∃ d', compact_store (st, d) = ((st, d'), Err (Io InvalidInput)) ∧
    (data_path st ++ ["compact_temp"]) ∈ dirs d' ∧
    ∀ es M, store_inv es M st d → ∀ now key, get now key st d' = get now key st d.
Proof.
  destruct (compact_fails st d) as (d' & E & Ht & Hd & Hf). exists d'. split; [done|]. split; [done|].
  intros es M I now key. rewrite (get_spec es M st d) by done. apply (get_spec es M).
  eapply store_inv_disk; [done| |exact I]. intros q Hq. apply Hf. intros Hpre.
  by apply (side_file_not_store es M st d "compact_temp" q).
Qed.
End blob.

(** ** Examples *)
#[local] Existing Instances crc32_ieee toy_blake3 toy_lz4 toy_bloom lower_hex sorted_iter
  plain_read_dir.

Definition ex_data : path := ["data"].
Definition ex_wal_file : path := ["wal"; "wal.log"].
Definition ex_store : BlobStore :=
  mkStore ex_data ∅ bloom_new (mkWal ex_wal_file (mkWriter ex_wal_file WAppend []) 0 Always) 0 0
    Always CompressionNone.
Definition ex_store_disk : Disk := set_content ex_wal_file [] (create_dir_all ex_data (mkDisk ∅ ∅)).

Lemma ex_store_inv : store_inv [] ∅ ex_store ex_store_disk.
Proof.
  apply store_inv_new; [|apply create_dir_all_elem]. intros [l [=]].
Qed.

Definition ex_store_ops : list (Z * StoreOp) :=
  [(10, OpPut "k1" [x01; x02] None); (11, OpPut "k2" [x03] (Some 5)); (12, OpGet "k1");
   (20, OpGet "k2"); (21, OpCleanup); (22, OpDelete "k1"); (23, OpCompact); (24, OpExists "k1")].

Lemma store_refines_map_witness :
  ∃ st' d' outs es' M',
    exec_all ex_store_ops (ex_store, ex_store_disk) = ((st', d'), outs) ∧
    spec_trace (∅, CompressionNone) ex_store_ops outs (M', compression st') ∧
    store_inv es' M' st' d'.
Proof.
  apply (store_refines_map [] ∅ ex_store ex_store_disk ex_store_ops).
  - apply ex_store_inv.
  - repeat constructor.
  - reflexivity.
  - reflexivity.
Defined.

Lemma put_get_witness :
  ∃ st' d', put_with_ttl 10 "k" [x01] (Some 5) (ex_store, ex_store_disk) = ((st', d'), Ok tt) ∧
    get 15 "k" st' d' = Ok (Some [x01]) ∧ get 16 "k" st' d' = Ok None.
Proof.
  destruct (put_get [] ∅ ex_store ex_store_disk 10 "k" [x01] (Some 5)) as (st' & d' & r & E & Hok & H).
  - apply ex_store_inv.
  - reflexivity.
  - reflexivity.
  - reflexivity.
  - reflexivity.
  - assert (r = Ok tt) as -> by (apply Hok; left; by vm_compute).
    exists st', d'. split; [exact E|]. split; [exact (proj1 (H 15))|exact (proj1 (H 16))].
Defined.
