(* ===== verification/StoreMap.v ===== *)
(** * The blob store as a map

    The contract of [src/volume/blob.rs] towards its clients: a map from keys to
    values with expiration times, which says for every operation what it
    returns.  The specification knows the segments only by their fill level,
    which decides when a put is refused.  It is deterministic, and the store
    gives exactly its answers as long as values are stored uncompressed:
    compression is off when they are put, or they are shorter than 128 bytes. *)

From Stdlib Require Import ZArith Lia.
From Stdlib.Strings Require Import Byte.
From stdpp Require Import base option list gmap strings.
From S2P Require Import Prelude Bytes Text Errors Fs External Config Wal Hash Index Segment Blob.

(** ** Specification *)
Record MapState := mkMapState {
  (** The value of a key and the time at which it expires. *)
  ms_items : gmap string (bytes * option Z);
  (** The segment that is written to, and how much of it is used. *)
  ms_segment : Z;
  ms_used : Z;
}.

(** A time limit has not passed. *)
Definition unexpired (now : Z) (e : option Z) : bool :=
  match e with Some t => now <=? t | None => true end.

Definition map_live (now : Z) (key : string) (s : MapState) : option bytes :=
  '(v, e) ← ms_items s !! key; if unexpired now e then Some v else None.

Definition with_items (m : gmap string (bytes * option Z)) (s : MapState) : MapState :=
  mkMapState m (ms_segment s) (ms_used s).

(** A record has 28 bytes beside the key and the value.  A put that finds more
    than [SEGMENT_SIZE] bytes used goes on to the next segment; when that is one
    too many it is refused, but the store stays in the next segment. *)
Definition map_put (now : Z) (key : string) (value : bytes) (ttl : option Z) (s : MapState)
    : MapState * Result unit :=
  let full := SEGMENT_SIZE <? ms_used s in
  let segment := if full then ms_segment s + 1 else ms_segment s in
  let used := if full then 0 else ms_used s in
  if full && (MAX_SEGMENTS <=? segment)
  then (mkMapState (ms_items s) segment used, Err (Internal "Max segments reached"))
  else (mkMapState (<[key := (value, add64 now <$> ttl)]> (ms_items s)) segment
          (used + (28 + str_len key + zlen value)), Ok tt).

Definition map_op (now : Z) (op : StoreOp) (s : MapState) : MapState * StoreOut :=
  match op with
  | OpPut key value ttl => let '(s, r) := map_put now key value ttl s in (s, OutDone r)
  | OpGet key => (s, OutGet (Ok (map_live now key s)))
  | OpDelete key => (with_items (delete key (ms_items s)) s, OutDone (Ok tt))
  | OpExists key => (s, OutBool (bool_decide (is_Some (map_live now key s))))
  | OpTtl key =>
      (s, OutTtl ('(_, e) ← ms_items s !! key; t ← e; if now <? t then Some (t - now) else None))
  | OpCleanup =>
      let m := filter (λ '(_, (_, e)), unexpired now e = true) (ms_items s) in
      (with_items m s, OutCount (Z.of_nat (size (ms_items s)) - Z.of_nat (size m)))
  (** Compaction is refused and changes nothing. *)
  | OpCompact => (s, OutDone (Err (Io InvalidInput)))
  | OpSnapshot => (s, OutDone (Ok tt))
  | OpSetCompression _ => (s, OutDone (Ok tt))
  end.
Fixpoint map_ops (ops : list (Z * StoreOp)) (s : MapState) : MapState * list StoreOut :=
  match ops with
  | [] => (s, [])
  | (now, op) :: ops => let '(s, o) := map_op now op s in let '(s, os) := map_ops ops s in (s, o :: os)
  end.

(** Every put is made while its value is stored uncompressed; [mode] is the
    compression mode before the operations. *)
Fixpoint plain_ops (mode : CompressionMode) (ops : list (Z * StoreOp)) : bool :=
  match ops with
  | [] => true
  | (_, OpSetCompression mode') :: ops => plain_ops mode' ops
  | (_, OpPut _ value _) :: ops => stored_plain mode value && plain_ops mode ops
  | _ :: ops => plain_ops mode ops
  end.

Section store_map.
Context {CRC : Crc32Fast} {B3 : Blake3} {LZ : Lz4} {BF : BloomFilter} {HX : Hex}
  {HI : HashIter} {RD : ReadDir}.

(** ** The store and its map *)
Definition item_pair (it : Item) : bytes * option Z := (it_value it, it_expires it).
Definition map_of (M : gmap string Item) (st : BlobStore) : MapState :=
  mkMapState (item_pair <$> M) (current_segment st) (current_offset st).
Definition plain_items (M : gmap string Item) : Prop :=
  map_Forall (λ _ it, stored_plain (it_mode it) (it_value it) = true) M.

(** A store represents a map: what it has in its index lies on the disk, stored
    uncompressed. *)
Definition represents (es : list WalEntry) (s : MapState) (st : BlobStore) (d : Disk) : Prop :=
  ∃ M, store_inv es M st d ∧ plain_items M ∧ s = map_of M st.

Lemma item_expired_pair now it : item_expired now it = negb (unexpired now (it_expires it)).
Proof. unfold item_expired, unexpired. destruct (it_expires it) as [t|]; [|done]. by rewrite Z.ltb_antisym. Qed.

Lemma live_item_map now key M st :
  map_live now key (map_of M st) = it_value <$> live_item now key M.
Proof.
  unfold map_live, map_of, live_item. cbn [ms_items]. rewrite lookup_fmap.
  destruct (M !! key) as [it|]; [|done]. simpl. rewrite item_expired_pair. by destruct (unexpired now _).
Qed.

Lemma spec_get_map now key M st :
  plain_items M → spec_get now key M = Ok (map_live now key (map_of M st)).
Proof.
  intros Hp. rewrite live_item_map. unfold spec_get, live_item.
  destruct (M !! key) as [it|] eqn:E; [|done]. destruct (item_expired now it); [done|].
  apply read_back_plain. by apply (Hp key).
Qed.

Lemma spec_ttl_map now key M :
  spec_ttl now key M =
  '(_, e) ← (item_pair <$> M) !! key; t ← e; if now <? t then Some (t - now) else None.
Proof. unfold spec_ttl. rewrite lookup_fmap. by destruct (M !! key). Qed.

Lemma cleanup_map now (M : gmap string Item) :
  filter (λ '(_, (_, e)), unexpired now e = true) (item_pair <$> M) =
  item_pair <$> filter (λ '(_, it), item_expired now it = false) M.
Proof.
  rewrite map_filter_fmap. f_equal. apply map_filter_ext. intros k it _. simpl.
  rewrite item_expired_pair. by destruct (unexpired now _).
Qed.

(** Where a put leaves the position. *)
Lemma write_blob_position es M st d key value :
  store_inv es M st d → wf_blob key value = true → current_segment st + 1 < 2 ^ 64 →
  stored_plain (compression st) value = true →
  let full := SEGMENT_SIZE <? current_offset st in
  let segment := if full then current_segment st + 1 else current_segment st in
  let st' := (write_blob key value (st, d)).1.1 in
  current_segment st' = segment ∧
  current_offset st' =
    (if full && (MAX_SEGMENTS <=? segment) then 0
     else (if full then 0 else current_offset st) + (28 + str_len key + zlen value)) ∧
  ((write_blob key value (st, d)).2 = Err (Internal "Max segments reached") ↔
     full && (MAX_SEGMENTS <=? segment) = true).
Proof.
  intros I Hwf Hmax Hp. pose proof (inv_segment _ _ _ _ I). pose proof (inv_offset _ _ _ _ I).
  apply wf_blob_spec in Hwf as (_ & Hk & Hv). pose proof (zlen_nonneg value). unfold str_len, ISIZE_MAX in *.
  assert (∀ seg off, 0 ≤ off ≤ SEGMENT_SIZE → ∃ d' loc n,
    write_blob_to_segment (compression st) (sync_policy st) (data_path st) seg off key value d = (d', Ok (loc, n)) ∧
    add64 (loc_offset loc) n = off + (28 + zlen (as_bytes key) + zlen value)) as Hw.
  { intros seg off Hoff. unfold SEGMENT_SIZE in Hoff.
    destruct (write_blob_spec (compression st) (sync_policy st) (data_path st) seg off key value d)
      as (d' & E & _); [unfold seek_ok; lia|].
    eexists d', _, _. split; [exact E|]. rewrite zlen_blob_record, compress_value_plain by done.
    cbn [loc_offset fst]. unfold str_len. rewrite wrap64_small by lia. rewrite add64_small by lia. done. }
  unfold write_blob, pbind. destruct (Z.ltb_spec SEGMENT_SIZE (current_offset st)) as [Hfull|Hfit]; cbn [andb].
  - rewrite add64_small by lia. cbn [current_segment with_position].
    destruct (Z.leb_spec MAX_SEGMENTS (current_segment st + 1)) as [Hlim|Hlim]; [done|].
    cbn [compression sync_policy data_path current_segment current_offset with_position].
    destruct (Hw (current_segment st + 1) 0) as (d' & loc & n & -> & Hn); [by unfold SEGMENT_SIZE|]. done.
  - destruct (Hw (current_segment st) (current_offset st)) as (d' & loc & n & -> & Hn); [lia|]. done.
Qed.

Lemma put_position es M st d now key value ttl :
  store_inv es M st d → wf_op (Put key value) = true → zlen es + 1 < 2 ^ 64 → current_segment st + 1 < 2 ^ 64 →
  stored_plain (compression st) value = true →
  let '((st', _), r) := put_with_ttl now key value ttl (st, d) in
  let '(s', r') := map_put now key value ttl (map_of M st) in
  r = r' ∧ current_segment st' = ms_segment s' ∧ current_offset st' = ms_used s'.
Proof.
  intros I Ho Hes Hseg Hp.
  destruct (store_append es M st d (Put key value) I Ho Hes) as (w' & d1 & E1 & _ & _ & _ & I1).
  unfold put_with_ttl. unfold pbind at 1. cbn [append_op] in E1. rewrite E1.
  unfold pbind at 1, on_store, pmodify at 1. cbn beta iota.
  set (st1 := with_bloom _ (with_wal w' st)).
  assert (store_inv (es ++ [mkEntry (zlen es) (Put key value)]) M st1 d1) as I2.
  { eapply store_inv_frame; [..|exact I1]; try done; [|apply (inv_wal _ _ _ _ I1)].
    intros k Hk. simpl. by apply bloom_check_mono. }
  pose proof (write_blob_position _ M st1 d1 key value I2 (wf_op_blob _ _ Ho) Hseg Hp) as (P1 & P2 & P3).
  unfold pbind, map_put, map_of. cbn [ms_used ms_segment ms_items].
  change (current_offset st) with (current_offset st1). change (current_segment st) with (current_segment st1).
  destruct (write_blob_inv _ M st1 d1 key value I2 (wf_op_blob _ _ Ho) Hseg) as
    [(st2 & d2 & loc & E2 & _)|(st2 & E2 & _)]; rewrite E2 in *; cbn [fst snd] in *.
  - destruct (_ && _) eqn:Ef; [by destruct P3 as [_ P3]; specialize (P3 eq_refl)|]. done.
  - destruct (_ && _) eqn:Ef; [|by destruct P3 as [P3 _]; specialize (P3 eq_refl)].
    apply andb_true_iff in Ef as [Ef _]. rewrite Ef in *. done.
Qed.

Lemma delete_offset key st d : current_offset (delete_key key (st, d)).1.1 = current_offset st.
Proof.
  unfold delete_key, pbind, on_wal. destruct (append_delete key (wal st, d)) as [[w d'] [n|e]]; done.
Qed.

(** ** One operation *)
Definition op_plain (mode : CompressionMode) (op : StoreOp) : bool :=
  match op with OpPut _ value _ => stored_plain mode value | _ => true end.

Lemma put_represents es s st d now key value ttl :
  represents es s st d → wf_op (Put key value) = true → zlen es + 1 < 2 ^ 64 → current_segment st + 1 < 2 ^ 64 →
  stored_plain (compression st) value = true →
  ∃ st' d', put_with_ttl now key value ttl (st, d) = ((st', d'), (map_put now key value ttl s).2) ∧
    represents (es ++ [mkEntry (zlen es) (Put key value)]) (map_put now key value ttl s).1 st' d' ∧
    compression st' = compression st ∧ current_segment st' ≤ current_segment st + 1.
Proof.
  intros (M & I & Hpl & ->) Ho Hes Hseg Hp.
  pose proof (put_position es M st d now key value ttl I Ho Hes Hseg Hp) as Hpos.
  destruct (put_inv es M st d now key value ttl I Ho Hes Hseg) as (st' & d' & r & M' & E & I' & C & S & Hr).
  rewrite E in *. exists st', d'. unfold map_put in *. cbn [ms_items map_of ms_segment ms_used] in *.
  destruct (_ && _) eqn:Ef; destruct Hpos as (-> & P1 & P2); cbn [fst snd ms_segment ms_used] in *;
    (split; [done|]; split; [exists M'; split; [done|]|done]).
  - destruct Hr as [[[=] _]|(_ & -> & _)]. split; [done|]. unfold map_of. by rewrite P1, P2.
  - destruct Hr as [[_ ->]|([=] & _)]. split; [by apply map_Forall_insert_2|].
    unfold map_of. by rewrite fmap_insert, P1, P2.
Qed.

(** One operation gives the answer of the map. *)
Lemma exec_represents es s st d now op :
  represents es s st d → wf_store_op op = true → op_plain (compression st) op = true →
  zlen es + 1 < 2 ^ 64 → current_segment st + 1 < 2 ^ 64 →
  ∃ st' d', exec now op (st, d) = ((st', d'), (map_op now op s).2) ∧
    represents (es ++ op_entries (zlen es) op) (map_op now op s).1 st' d' ∧
    compression st' = match op with OpSetCompression mode => mode | _ => compression st end ∧
    current_segment st' ≤ current_segment st + 1.
Proof.
  intros R Hwf Hp Hes Hseg. pose proof R as (M & I & Hpl & ->).
  destruct op as [key value ttl|key|key|key|key| | | |mode];
    cbn [exec wf_store_op op_entries map_op op_plain fst snd] in *; rewrite ?app_nil_r.
  - destruct (put_represents _ _ _ _ now key value ttl R Hwf Hes Hseg Hp) as (st' & d' & E & R' & HC & HS).
    rewrite E. destruct (map_put _ _ _ _ _) as [s' r]. eauto 10.
  - exists st, d. rewrite (get_spec es M st d) by done. rewrite (spec_get_map _ _ _ st) by done.
    split; [done|]. split; [done|]. split; [done|]. lia.
  - destruct (delete_inv es M st d key I Hwf Hes) as (st' & d' & E & I' & HC & HS). rewrite E.
    exists st', d'. split; [done|]. split; [|split; [done|lia]]. exists (delete key M).
    split; [done|]. split; [by apply map_Forall_delete|].
    unfold with_items, map_of. cbn [ms_items ms_segment ms_used]. rewrite fmap_delete, HS.
    by rewrite <- (delete_offset key st d), E.
  - exists st, d. rewrite (exists_spec es M st d) by done. rewrite live_item_map.
    split; [do 2 f_equal; apply bool_decide_ext; by rewrite fmap_is_Some|]. split; [done|]. split; [done|]. lia.
  - exists st, d. rewrite (ttl_spec es M st d) by done. rewrite spec_ttl_map.
    split; [done|]. split; [done|]. split; [done|]. lia.
  - destruct (cleanup_inv es M st d now I) as (st' & E & I' & HC & HS). pose proof E as E'. rewrite E.
    exists st', d. cbn [map_of ms_items]. rewrite cleanup_map, !map_size_fmap. split; [done|].
    split; [|split; [done|lia]]. eexists. split; [exact I'|]. split; [by intros k it [Hk _]%map_lookup_filter_Some; apply (Hpl k)|].
    unfold with_items, map_of. cbn [ms_items ms_segment ms_used]. rewrite HS.
    unfold store_cleanup_expired in E'. destruct (cleanup_expired _ _). by injection E' as <-.
  - destruct (compact_inv es M st d I) as (d' & E & I'). rewrite E.
    exists st, d'. split; [done|]. split; [by exists M|]. split; [done|]. lia.
  - exists st, (save_snapshot st d). split; [done|]. split; [exists M; by split; [apply snapshot_inv|]|].
    split; [done|]. lia.
  - exists (set_compression mode st), d. split; [done|]. split; [|split; [done|simpl; lia]].
    exists M. split; [|done].
    eapply store_inv_frame; [..|exact I]; try done. apply (inv_wal _ _ _ _ I).
Qed.

(** ** Properties *)

(** C1. The store is a map.  From any state that represents a map, every
    sequence of puts (with and without TTL), gets, deletes, existence and TTL
    queries, cleanups, snapshots, compactions and changes of the compression mode
    in which the values that are put are stored uncompressed (compression is off
    at that moment, or the value is shorter than 128 bytes) returns exactly what
    a map with expiration times returns, operation by operation: a get returns
    the value of the last put of its key, unless it was deleted or has expired.
    A put is refused exactly when it finds the segment full and the next one is
    beyond the limit; compaction is always refused.  The store then represents
    the resulting map. *)
Theorem store_is_map es s st d ops :
  represents es s st d → Forall (λ '(_, op), wf_store_op op = true) ops →
  plain_ops (compression st) ops = true →
  zlen es + zlen ops < 2 ^ 64 → current_segment st + zlen ops < 2 ^ 64 →
  ∃ es' st' d',
    exec_all ops (st, d) = ((st', d'), (map_ops ops s).2) ∧ represents es' (map_ops ops s).1 st' d'.
Proof.
  intros R Hops. revert es s st d R. induction Hops as [|[now op] ops Hop _ IH]; intros es s st d R Hp Hes Hseg.
  { by exists es, st, d. }
  rewrite zlen_cons in *. pose proof (zlen_nonneg ops).
  assert (op_plain (compression st) op = true ∧
    plain_ops (match op with OpSetCompression mode => mode | _ => compression st end) ops = true) as [Hp1 Hp2].
  { destruct op; try done. simpl in Hp. by apply andb_true_iff in Hp. }
  destruct (exec_represents es s st d now op R Hop Hp1) as (st1 & d1 & E1 & R1 & C1 & S1); [lia..|].
  pose proof (op_entries_length (zlen es) op). rewrite <- C1 in Hp2.
  cbn [exec_all map_ops]. rewrite E1. destruct (map_op now op s) as [s1 o]. cbn [fst snd] in *.
  destruct (IH _ _ _ _ R1 Hp2) as (es2 & st2 & d2 & E2 & R2); [rewrite zlen_app; lia|lia|].
  rewrite E2. destruct (map_ops ops s1) as [s2 os]. cbn [fst snd] in *. eauto.
Qed.

(** The limit of segments refuses one put per segment: a put that was refused
    leaves the store at the start of the segment beyond the limit, and the next
    put of any value that is stored uncompressed goes there. *)
Theorem segment_limit_refuses_once es s st d now key value ttl now' key' value' ttl' :
  represents es s st d → wf_op (Put key value) = true → wf_op (Put key' value') = true →
  zlen es + 2 < 2 ^ 64 → current_segment st + 2 < 2 ^ 64 →
  stored_plain (compression st) value = true → stored_plain (compression st) value' = true →
  SEGMENT_SIZE < current_offset st → MAX_SEGMENTS ≤ current_segment st + 1 →
  ∃ st1 d1 st2 d2,
    put_with_ttl now key value ttl (st, d) = ((st1, d1), Err (Internal "Max segments reached")) ∧
    put_with_ttl now' key' value' ttl' (st1, d1) = ((st2, d2), Ok tt).
Proof.
  intros R W1 W2 Hes Hseg P1 P2 Hfull Hlim.
  destruct (put_represents es s st d now key value ttl R W1) as (st1 & d1 & E1 & R1 & C1 & S1); [lia|lia|done|].
  destruct R as (M & _ & _ & ->). rewrite <- C1 in P2.
  destruct (put_represents _ _ st1 d1 now' key' value' ttl' R1 W2) as (st2 & d2 & E2 & _);
    [rewrite zlen_app; unfold zlen at 2; simpl; lia|lia|done|].
  unfold map_put in E1, E2. cbn [map_of ms_used ms_segment ms_items] in E1, E2.
  rewrite (proj2 (Z.ltb_lt _ _) Hfull), (proj2 (Z.leb_le _ _) Hlim) in E1, E2. eauto 10.
Qed.
End store_map.

(** ** Witness *)
#[local] Existing Instances crc32_ieee toy_blake3 toy_lz4 toy_bloom lower_hex sorted_iter plain_read_dir.

Definition ex_map_ops : list (Z * StoreOp) :=
  ex_store_ops ++ [(25, OpSetCompression CompressionLz4); (26, OpPut "k3" [x07] None); (27, OpGet "k3")].

Lemma store_is_map_witness :
  ∃ st' d',
    exec_all ex_map_ops (ex_store, ex_store_disk) =
      ((st', d'),
       [OutDone (Ok tt); OutDone (Ok tt); OutGet (Ok (Some [x01; x02])); OutGet (Ok None); OutCount 1;
        OutDone (Ok tt); OutDone (Err (Io InvalidInput)); OutBool false; OutDone (Ok tt); OutDone (Ok tt);
        OutGet (Ok (Some [x07]))]).
Proof.
  destruct (store_is_map [] (map_of ∅ ex_store) ex_store ex_store_disk ex_map_ops) as (es & st' & d' & E & _).
  - exists ∅. split; [apply ex_store_inv|]. split; [apply map_Forall_empty|reflexivity].
  - repeat constructor.
  - reflexivity.
  - reflexivity.
  - reflexivity.
  - exists st', d'. rewrite E. f_equal.
Defined.
