(* ===== verification/Recovery.v ===== *)
(** * Opening a store again

    What [BlobStore::open] of [src/volume/blob.rs] finds: from a snapshot and
    the log, or from the segment files alone. *)

From Stdlib Require Import ZArith Lia.
From Stdlib.Strings Require Import Byte.
From stdpp Require Import base option list gmap strings.
From S2P Require Import Prelude Bytes Text Errors Fs External Config Wal Hash Index Segment Blob.

Section recovery.
Context {CRC : Crc32Fast} {B3 : Blake3} {LZ : Lz4} {BF : BloomFilter} {HX : Hex}
  {HI : HashIter} {RD : ReadDir}.

(** ** Finding segment files *)
Lemma elem_of_read_dir d p q :
  q ∈ read_dir d p ↔ (p `prefix_of` q ∧ length q = S (length p)) ∧ path_exists d q = true.
Proof.
  rewrite read_dir_perm. unfold children, is_child, path_exists, is_dir, is_file.
  rewrite list_elem_of_filter, elem_of_app, elem_of_elements, andb_true_iff, bool_decide_eq_true.
  rewrite Nat.eqb_eq, orb_true_iff, !bool_decide_eq_true. f_equiv. f_equiv.
  rewrite list_elem_of_fmap. split.
  - intros ([q' f] & -> & H%elem_of_map_to_list). by exists f.
  - intros [f H]. exists (q, f). split; [done|]. by apply elem_of_map_to_list.
Qed.

Lemma elem_of_blob_files dp d p :
  p ∈ blob_files dp d ↔
  ∃ entry subentry, (entry ∈ read_dir d dp ∧ entry ∈ dirs d) ∧
    (subentry ∈ read_dir d entry ∧ subentry ∈ dirs d) ∧ p ∈ read_dir d subentry ∧
    extension (file_name p) = Some "blob"%string.
Proof.
  assert (∀ e, is_dir d e = true ↔ e ∈ dirs d) as Hd.
  { intros e. unfold is_dir. by rewrite bool_decide_eq_true. }
  unfold blob_files. rewrite list_elem_of_bind. split.
  - intros (e & H & [He1 He2]%list_elem_of_filter). apply list_elem_of_bind in H as (s & H & [Hs1 Hs2]%list_elem_of_filter).
    apply list_elem_of_filter in H as [H1 H2]. exists e, s. rewrite Hd in *. done.
  - intros (e & s & [He1 He2] & [Hs1 Hs2] & H1 & H2). exists e.
    rewrite list_elem_of_filter, Hd, list_elem_of_bind. split; [|done]. exists s.
    by rewrite !list_elem_of_filter, Hd.
Qed.

(** The file of a segment is found when its directories are there. *)
Lemma segment_in_blob_files dp d seg c :
  has_segment_dir dp seg d → file_at d (segment_path dp seg) = Some c →
  segment_path dp seg ∈ blob_files dp d.
Proof.
  intros [D1 D2] Hf. apply elem_of_blob_files.
  assert (∀ q, q ∈ dirs d → path_exists d q = true) as Hex.
  { intros q Hq. unfold path_exists, is_dir. by rewrite bool_decide_true. }
  exists (dp ++ [show_pad 2 (seg mod 100)]), (segment_dir dp seg).
  rewrite !elem_of_read_dir, (Hex _ D1), (Hex _ D2), (path_exists_file _ _ _ Hf).
  rewrite segment_extension. unfold segment_path, segment_dir.
  repeat split; try done; try (rewrite !length_app; simpl; lia).
  - by apply prefix_app_r.
  - change [?a; ?b] with ([a] ++ [b]). rewrite app_assoc. by apply prefix_app_r.
  - by apply prefix_app_r.
Qed.

(** ** The position after opening *)
Definition at_or_before (seg size s o : Z) : Prop := seg < s ∨ seg = s ∧ size ≤ o.

Lemma position_fold d ps s0 o0 s o :
  0 ≤ s0 < 2 ^ 64 → 0 ≤ o0 →
  fold_left (λ '(max_segment, max_offset) p,
      let segment := segment_of_path p in
      let size := zlen (unwrap_or [] (file_at d p)) in
      if (max_segment <? segment) || ((segment =? max_segment) && (max_offset <? size))
      then (segment, size) else (max_segment, max_offset)) ps (s0, o0) = (s, o) →
  0 ≤ s < 2 ^ 64 ∧ 0 ≤ o ∧ at_or_before s0 o0 s o ∧
  ∀ p, p ∈ ps → at_or_before (segment_of_path p) (zlen (unwrap_or [] (file_at d p))) s o.
Proof.
  unfold at_or_before. revert s0 o0. induction ps as [|p ps IH]; intros s0 o0 Hs0 Ho0; cbn [fold_left].
  { intros [= <- <-]. split; [done|]. split; [done|]. split; [lia|]. set_solver. }
  set (sp := segment_of_path p). set (zp := zlen (unwrap_or [] (file_at d p))).
  assert (0 ≤ sp < 2 ^ 64) as Hsp.
  { unfold sp, segment_of_path. destruct (strip_prefix _ _ ≫= parse_u64) eqn:E; [|done].
    apply bind_Some in E as (t & _ & E). by apply parse_u64_range in E. }
  assert (0 ≤ zp) as Hzp by apply zlen_nonneg.
  destruct ((s0 <? sp) || _) eqn:E; intros H; apply IH in H as (H1 & H2 & H3 & H4); try lia;
    (split; [done|]; split; [done|]; split; [lia|]);
    intros q [->|Hq]%elem_of_cons; try (by apply H4); fold sp zp; lia.
Qed.

Lemma find_current_position_spec dp d :
  dp ∈ dirs d →
  ∃ s o, find_current_position dp d = Ok (s, o) ∧ 0 ≤ s < 2 ^ 64 ∧ 0 ≤ o ∧
    ∀ seg c, 0 ≤ seg < 2 ^ 64 → has_segment_dir dp seg d →
      file_at d (segment_path dp seg) = Some c → at_or_before seg (zlen c) s o.
Proof.
  intros Hd. unfold find_current_position, path_exists, is_dir.
  rewrite bool_decide_true by done. cbn [orb negb].
  destruct (fold_left _ (blob_files dp d) (0, 0)) as [s o] eqn:E.
  apply position_fold in E as (H1 & H2 & _ & H4); [|lia|lia].
  exists s, o. split; [done|]. split; [done|]. split; [done|]. intros seg c Hseg Hdir Hf.
  specialize (H4 _ (segment_in_blob_files dp d seg c Hdir Hf)).
  by rewrite segment_of_segment_path, Hf in H4.
Qed.

(** ** Replaying the log into the index *)
Definition deleted_keys (es : list WalEntry) : list string :=
  omap (λ e, match we_op e with Delete key => Some key | Put _ _ => None end) es.

Lemma replay_entries es m b :
  ∃ m' b', foldM replay_entry es (m, b) = Ok (m', b') ∧
    (∀ k, m' !! k = if decide (k ∈ deleted_keys es) then None else m !! k) ∧
    (∀ x, bloom_check b x = true → bloom_check b' x = true).
Proof.
  revert m b. induction es as [|e es IH]; intros m b; [by exists m, b|].
  cbn [foldM replay_entry deleted_keys omap list_omap]. destruct (we_op e) as [key v|key]; cbn [rbind].
  - destruct (IH m (bloom_set b (bloom_key key))) as (m' & b' & E & Hm & Hb).
    exists m', b'. split; [done|]. split; [done|]. auto with minikv.
  - destruct (IH (index_remove key m).1 b) as (m' & b' & E & Hm & Hb).
    exists m', b'. split; [done|]. split; [|done]. intros k. rewrite Hm. simpl.
    fold (deleted_keys es). destruct (decide (k = key)) as [->|Hne].
    + rewrite lookup_delete_eq. repeat case_decide; set_solver.
    + rewrite lookup_delete_ne by done. repeat case_decide; set_solver.
Qed.

Lemma fold_bloom_set (ks : list string) b :
  (∀ x, bloom_check b x = true →
     bloom_check (fold_left (λ b key, bloom_set b (bloom_key key)) ks b) x = true) ∧
  ∀ k, k ∈ ks → bloom_check (fold_left (λ b key, bloom_set b (bloom_key key)) ks b) (bloom_key k) = true.
Proof.
  revert b. induction ks as [|k ks IH]; intros b; [set_solver|]. cbn [fold_left].
  destruct (IH (bloom_set b (bloom_key k))) as [H1 H2]. split; [auto with minikv|].
  intros k' [->|Hk]%elem_of_cons; [|by apply H2]. auto with minikv.
Qed.

(** Opening a log that was written completely. *)
Lemma wal_open_log p pol d es :
  file_at d p = Some (log_bytes es) → numbered es → Forall (λ e, wf_entry e = true) es →
  zlen es < 2 ^ 64 →
  ∃ w d', wal_open p pol d = (d', Ok w) ∧ wal_inv es w d' ∧ wal_path w = p ∧
    dirs d ⊆ dirs d' ∧ ∀ q, file_at d' q = file_at d q.
Proof.
  intros Hf Hn Hwf Hl. unfold wal_open. set (d1 := match p with [] => d | _ => _ end).
  assert (files d1 = files d ∧ dirs d ⊆ dirs d1) as [Ef Ed].
  { subst d1. destruct p; [done|]. split; [done|]. apply create_dir_all_dirs. }
  assert (open_create p d1 = d1) as ->.
  { unfold open_create. rewrite Ef. unfold file_at in Hf. by destruct (files d !! p). }
  assert (∀ q, file_at d1 q = file_at d q) as Hq by (intros q; unfold file_at; by rewrite Ef).
  assert (read_all (log_bytes es) = es) as Hr.
  { pose proof (read_all_log es []) as H. rewrite app_nil_r in H. rewrite H by done.
    unfold read_all. simpl. by rewrite app_nil_r. }
  rewrite (find_last_sequence_log p d1 (log_bytes es) es) by (rewrite ?Hq; done).
  eexists _, d1. split; [done|]. split; [|done]. split; [exists (log_bytes es); by rewrite Hq|].
  split; [done|]. split; [|done]. unfold written. simpl. by rewrite Hq, Hf, app_nil_r.
Qed.

(** ** Items as index entries *)
Definition expiry_ok (it : Item) : bool :=
  match it_expires it with Some t => (0 <? t) && (t <? 2 ^ 64) | None => true end.

Lemma item_ok_wf st d key loc it :
  item_ok st d key loc it → expiry_ok it = true → current_segment st < 2 ^ 64 →
  wf_location key loc = true.
Proof.
  intros (H1 & H2 & H3 & H4 & H5 & H6 & _) He Hs. apply wf_blob_spec in H1 as (V & K & S).
  apply wf_location_spec. rewrite H2, H3, H4. destruct (blake3_hash_text (it_value it)) as [B1 B2].
  rewrite B1. unfold seek_ok in H5. pose proof (zlen_nonneg (it_value it)).
  repeat (split; [done || lia|]). unfold expiry_ok in He. destruct (it_expires it); [lia|done].
Qed.

Lemma items_wf_index st d m M :
  map_Forall2 (item_ok st d) m M → 0 ≤ current_segment st < 2 ^ 64 →
  map_Forall (λ _ it, expiry_ok it = true) M → wf_index m.
Proof.
  intros HR Hs Hm key loc Hl. pose proof (HR key) as Hr. rewrite Hl in Hr.
  destruct (M !! key) as [it|] eqn:E; inversion Hr as [? ? Hok|]; subst.
  eapply item_ok_wf; [done|by apply (Hm key)|]. lia.
Qed.

(** Items keep their places when the position is the one found on disk. *)
Lemma item_ok_reopen st st' d d' key loc it s o :
  data_path st' = data_path st → current_segment st' = s → current_offset st' = o →
  current_segment st < 2 ^ 64 →
  dirs d ⊆ dirs d' → (∀ q, store_file st q → file_at d' q = file_at d q) →
  (∀ seg c, 0 ≤ seg < 2 ^ 64 → has_segment_dir (data_path st) seg d' →
     file_at d' (segment_path (data_path st) seg) = Some c → at_or_before seg (zlen c) s o) →
  item_ok st d key loc it → item_ok st' d' key loc it.
Proof.
  intros Hp Hs Ho Hmax Hd Hq Hpos (H1 & H2 & H3 & H4 & H5 & H6 & [D1 D2] & pre & post & H7 & H8 & H9).
  assert (has_segment_dir (data_path st) (loc_shard loc) d') as Hdir by (split; by apply Hd).
  rewrite <- Hq in H7 by (right; exists (loc_shard loc); split; [lia|done]).
  specialize (Hpos (loc_shard loc) _ ltac:(lia) Hdir H7). unfold at_or_before in Hpos.
  repeat (split; [done|]). rewrite Hp, Hs, Ho. split; [lia|]. split; [done|].
  exists pre, post. split; [done|]. split; [done|]. intros E.
  rewrite app_assoc, zlen_app in Hpos. pose proof (zlen_nonneg post). lia.
Qed.

(** What a snapshot leaves on the disk. *)
Lemma snapshot_files st d :
  file_at (save_snapshot st d) (snapshot_path (data_path st)) = Some (snapshot_bytes (index st)) ∧
  file_at (save_snapshot st d) (bloom_path (data_path st)) = Some (bloom_to_bytes (bloom st)).
Proof.
  unfold save_snapshot, open_truncate. set (p := snapshot_path (data_path st)).
  set (q := bloom_path (data_path st)).
  assert (p ≠ q) as Hpq by (unfold p, q, snapshot_path, bloom_path; by intros [=]%app_inv_head).
  rewrite !file_at_sync_all. split.
  - rewrite (same_but_file_at _ _ _ p (same_but_write_at _ _ _ _)) by done.
    rewrite file_at_set_content_ne by done. apply file_at_set_content.
  - unfold write_at. rewrite !file_at_set_content. by rewrite (overwrite_end _ []).
Qed.

Lemma map_Forall2_filter_keys {A B} (R : string → A → B → Prop) (ks : list string)
    (m1 m1' : gmap string A) (m2 : gmap string B) :
  map_Forall2 R m1 m2 →
  (∀ k, m1' !! k = if decide (k ∈ ks) then None else m1 !! k) →
  map_Forall2 R m1' (filter (λ '(k, _), k ∉ ks) m2).
Proof.
  intros H Hl k. rewrite Hl, lookup_filter_decide. specialize (H k).
  destruct (m1 !! k), (m2 !! k); inversion H; subst; simpl; repeat case_decide;
    simpl; try done; constructor; done.
Qed.

(** Opening on a disk with a snapshot of the index [m], which stands for the map
    [M0] on the segments of the store as it is now. *)
Lemma open_snapshotted es M st d m M0 b0 fuel wal_dir pol :
  store_inv es M st d → wal_path (wal st) = wal_dir ++ ["wal.log"] →
  bw_buf (wal_writer (wal st)) = [] → map_Forall (λ _ it, expiry_ok it = true) M0 →
  Z.of_nat (size M0) < 2 ^ 64 → zlen es < 2 ^ 64 → map_Forall2 (item_ok st d) m M0 →
  file_at d (snapshot_path (data_path st)) = Some (snapshot_bytes m) →
  file_at d (bloom_path (data_path st)) = Some (bloom_to_bytes b0) →
  ∃ st' d',
    open_store fuel (data_path st) wal_dir pol d = (d', Some (Ok st')) ∧
    store_inv es (filter (λ '(k, _), k ∉ deleted_keys es) M0) st' d'.
Proof.
  intros I Hw Hbuf Hexp Hsize Hes Hitems Fs Fb.
  unfold open_store. set (d0 := create_dir_all wal_dir (create_dir_all (data_path st) d)).
  assert (∀ q, file_at d0 q = file_at d q) as Hd0 by done.
  rewrite (path_exists_file d0 _ _ Fs).
  rewrite (load_saved_snapshot m _ d0); [|by eapply items_wf_index; [|apply (inv_segment _ _ _ _ I)|]| |done].
  2: { unfold index_len. by rewrite (map_Forall2_size _ _ _ Hitems). }
  unfold load_bloom. rewrite (path_exists_file d0 _ _ Fb), Hd0, Fb, bloom_from_to_bytes.
  cbn [unwrap_or].
  destruct (inv_wal _ _ _ _ I) as ((c & Hc & _) & Hp & Hwr & Hn & Hwf & _).
  assert (file_at d0 (wal_dir ++ ["wal.log"]) = Some (log_bytes es)) as Hlog.
  { rewrite Hd0, <- Hw, <- Hp. unfold written in Hwr. rewrite Hbuf, app_nil_r, Hc in Hwr.
    by rewrite Hc, <- Hwr. }
  destruct (wal_open_log _ pol d0 es Hlog Hn Hwf Hes) as (w & d1 & -> & Iw & Pw & Dd & Hd1).
  rewrite (wal_replay_read_all _ _ _ d1 (log_bytes es)) by by rewrite Hd1.
  pose proof (read_all_log es []) as Hr. rewrite app_nil_r in Hr. rewrite Hr by done.
  assert (read_all [] = []) as -> by done. rewrite app_nil_r.
  destruct (replay_entries es m b0) as (m' & b & -> & Hm & Hb).
  assert (path_exists d1 (snapshot_path (data_path st)) = true) as ->
    by (eapply path_exists_file; rewrite Hd1; exact Fs).
  cbn [negb]. assert (dirs d ⊆ dirs d1) as Hdirs.
  { etransitivity; [|exact Dd]. etransitivity; [apply create_dir_all_dirs|apply create_dir_all_dirs]. }
  destruct (find_current_position_spec (data_path st) d1) as (s & o & -> & Hs & Ho & Hpos).
  { apply Hdirs, (inv_dir _ _ _ _ I). }
  eexists _, d1. split; [done|]. split; simpl; try done; try lia.
  - rewrite Pw, <- Hw. apply (inv_apart _ _ _ _ I).
  - apply Hdirs, (inv_dir _ _ _ _ I).
  - eapply map_Forall2_filter_keys; [|exact Hm].
    eapply map_Forall2_impl; [exact Hitems|]. intros k loc it.
    apply (item_ok_reopen st _ d d1 k loc it s o); try done; try (intros; by rewrite Hd1).
    apply (inv_segment _ _ _ _ I).
  - intros key [l Hl]. apply fold_bloom_set. unfold index_keys.
    apply list_elem_of_fmap. exists (key, l). split; [done|]. by apply hash_iter_lookup.
Qed.

(** The map that is left when the keys of a list are deleted. *)
Lemma spec_get_without now key (ks : list string) (M : gmap string Item) :
  spec_get now key (filter (λ '(k, _), k ∉ ks) M) =
  if decide (key ∈ ks) then Ok None else spec_get now key M.
Proof.
  unfold spec_get, live_item. rewrite lookup_filter_decide.
  destruct (M !! key) as [it|]; repeat case_decide; done.
Qed.

(** A clean restart: after [save_snapshot], with the log flushed, [open]
    succeeds and the new store represents the old map, except for the keys
    that some entry of the log deletes.  (The log is not emptied by a snapshot
    and its deletions are applied to the index that the snapshot restored: a
    key that was deleted and written again before the snapshot is lost.) *)
Theorem reopen_from_snapshot es M st d fuel wal_dir pol :
  store_inv es M st d → wal_path (wal st) = wal_dir ++ ["wal.log"] →
  bw_buf (wal_writer (wal st)) = [] → map_Forall (λ _ it, expiry_ok it = true) M →
  Z.of_nat (size M) < 2 ^ 64 → zlen es < 2 ^ 64 →
  ∃ st' d',
    open_store fuel (data_path st) wal_dir pol (save_snapshot st d) = (d', Some (Ok st')) ∧
    store_inv es (filter (λ '(k, _), k ∉ deleted_keys es) M) st' d' ∧
    ∀ now key, get now key st' d' =
      if decide (key ∈ deleted_keys es) then Ok None else get now key st d.
Proof.
  intros I Hw Hbuf Hexp Hsize Hes. pose proof (snapshot_files st d) as [Fs Fb].
  pose proof (snapshot_inv es M st d I) as Is.
  destruct (open_snapshotted es M st (save_snapshot st d) (index st) M (bloom st) fuel wal_dir pol)
    as (st' & d' & E & I'); try done; [apply (inv_items _ _ _ _ Is)|].
  exists st', d'. split; [done|]. split; [done|]. intros now key.
  by rewrite (get_spec _ _ _ _ _ _ I'), (get_spec _ _ _ _ _ _ I), spec_get_without.
Qed.

(** ** Opening from the segment files alone *)

(** The last record of a key, with its offset. *)
Fixpoint last_at (off : Z) (k : string) (rs : list (string * bytes)) : option (Z * bytes) :=
  match rs with
  | [] => None
  | (key, v) :: rs =>
    match last_at (off + zlen (blob_record CompressionNone key v)) k rs with
    | Some r => Some r
    | None => if decide (key = k) then Some (off, v) else None
    end
  end.

Lemma scan_index_lookup seg off rs m k :
  scan_index CompressionNone seg off rs m !! k =
  match last_at off k rs with Some (o, v) => Some (scanned seg o k v) | None => m !! k end.
Proof.
  revert off m. induction rs as [|[key v] rs IH]; intros off m; [done|]. simpl. rewrite IH.
  destruct (last_at _ k rs) as [[o v']|]; [done|]. case_decide as E.
  - subst. by rewrite lookup_insert_eq.
  - by rewrite lookup_insert_ne.
Qed.

Lemma last_at_split off k rs o v :
  last_at off k rs = Some (o, v) →
  (∃ pre post, segment_bytes CompressionNone rs = pre ++ blob_record CompressionNone k v ++ post ∧
     o = off + zlen pre) ∧ (k, v) ∈ rs.
Proof.
  revert off. induction rs as [|[key v'] rs IH]; intros off; [done|]. simpl.
  rewrite segment_bytes_cons.
  destruct (last_at _ k rs) as [[o' v'']|] eqn:E.
  - intros [= -> ->]. destruct (IH _ E) as ((pre & post & Hs & Ho) & Hin).
    split; [|set_solver]. exists (blob_record CompressionNone key v' ++ pre), post.
    rewrite Hs, <- app_assoc. split; [done|]. rewrite zlen_app. lia.
  - case_decide; [|done]. intros [= <- <-]. subst. split; [|set_solver].
    exists [], (segment_bytes CompressionNone rs). split; [done|]. rewrite zlen_nil. lia.
Qed.

(** The values that were put last, whatever was deleted since. *)
Definition last_puts (rs : list (string * bytes)) : gmap string bytes :=
  fold_left (λ m '(k, v), <[k := v]> m) rs ∅.

Lemma last_at_last_puts off k rs : snd <$> last_at off k rs = last_puts rs !! k.
Proof.
  unfold last_puts.
  assert (∀ m : gmap string bytes, fold_left (λ m '(k, v), <[k := v]> m) rs m !! k =
    match snd <$> last_at off k rs with Some v => Some v | None => m !! k end) as H.
  { revert off. induction rs as [|[key v] rs IH]; intros off m; [done|]. simpl.
    rewrite (IH (off + zlen (blob_record CompressionNone key v))).
    destruct (last_at _ k rs) as [[o v']|]; [done|]. simpl.
    case_decide as E; simpl; [subst; by rewrite lookup_insert_eq|by rewrite lookup_insert_ne]. }
  rewrite H. by destruct (last_at off k rs) as [[o v]|].
Qed.

Lemma scan_bloom_spec rs b :
  (∀ x, bloom_check b x = true → bloom_check (scan_bloom rs b) x = true) ∧
  ∀ k v, (k, v) ∈ rs → bloom_check (scan_bloom rs b) (bloom_key k) = true.
Proof.
  unfold scan_bloom. revert b. induction rs as [|[k v] rs IH]; intros b; [set_solver|].
  cbn [fold_left]. destruct (IH (bloom_set b (bloom_key k))) as [H1 H2].
  split; [auto with minikv|]. intros k' v' [[= -> ->]|Hk]%elem_of_cons; [|by apply (H2 k' v')].
  auto with minikv.
Qed.

(** What the index and the filter hold after the scan of a segment. *)
Definition scanned_all (rs : list (string * bytes)) (m : Index) (b : Bloom) : Prop :=
  ∀ k, match last_at 0 k rs with
       | Some (o, v) => m !! k = Some (scanned 0 o k v) ∧ bloom_check b (bloom_key k) = true
       | None => m !! k = None
       end.

(** A file of segment 0 in which the scan finds the records [rs]. *)
Definition scans_as (fuel : nat) (c : bytes) (rs : list (string * bytes)) : Prop :=
  ∀ m b, scan_loop fuel c 0 0 0 m b =
    Some (Ok (scan_index CompressionNone 0 0 rs m, scan_bloom rs b)).

Lemma scans_as_records fuel rs :
  Forall (λ '(k, v), wf_blob k v = true) rs →
  zlen (segment_bytes CompressionNone rs) < 2 ^ 63 → (length rs < fuel)%nat →
  scans_as fuel (segment_bytes CompressionNone rs) rs.
Proof.
  intros Hwf Hlen Hfuel m b. exact (scan_loop_records CompressionNone 0 rs [] m b fuel Hwf Hlen Hfuel).
Qed.

(** Scanning the same file again changes nothing. *)
Lemma scan_segments_same rs ps p c m b fuel d :
  Forall (λ q, q = p) ps → file_at d p = Some c → segment_of_path p = 0 → scans_as fuel c rs →
  m = ∅ ∧ ps ≠ [] ∨ scanned_all rs m b →
  ∃ m' b', scan_segments fuel ps m b d = Some (Ok (m', b')) ∧ scanned_all rs m' b'.
Proof.
  intros Hps Hf Hseg Hscan. revert m b.
  induction Hps as [|q ps -> Hps IH]; intros m b Hm.
  { exists m, b. split; [done|]. by destruct Hm as [[_ ?]|?]. }
  cbn [scan_segments]. unfold scan_segment. rewrite Hf, Hseg, Hscan. apply IH. right. intros k.
  specialize (scan_index_lookup 0 0 rs m k) as Hl. destruct (last_at 0 k rs) as [[o v]|] eqn:E.
  - split; [done|]. apply last_at_split in E as [_ E]. by eapply scan_bloom_spec.
  - rewrite Hl. destruct Hm as [[-> _]|Hm]; [done|]. specialize (Hm k). by rewrite E in Hm.
Qed.

(** A data directory whose only segment is segment 0, with the content [c], and
    in which there is nothing else; and a store on it, with the records [rs]. *)
Record lone_disk (dp : path) (c : bytes) (d : Disk) : Prop := {
  lone_content : unwrap_or [] (file_at d (segment_path dp 0)) = c;
  lone_there : c ≠ [] → has_segment_dir dp 0 d ∧ is_Some (files d !! segment_path dp 0);
  lone_files : ∀ q, dp `prefix_of` q → is_Some (files d !! q) → q = segment_path dp 0;
  lone_dirs : ∀ q, dp `prefix_of` q → q ∈ dirs d → q `prefix_of` segment_dir dp 0;
}.

Record lone_segment (es : list WalEntry) (rs : list (string * bytes)) (st : BlobStore) (d : Disk)
    : Prop := {
  lone_wal : wal_inv es (wal st) d;
  lone_apart : ¬ data_path st `prefix_of` wal_path (wal st);
  lone_position : current_segment st = 0 ∧
    current_offset st = zlen (segment_bytes CompressionNone rs);
  lone_mode : compression st = CompressionNone;
  lone_on : lone_disk (data_path st) (segment_bytes CompressionNone rs) d;
  lone_synced : sync_policy st = Always → synced (segment_path (data_path st) 0) d;
}.

Definition put_record (o : WalOp) : list (string * bytes) :=
  match o with Put key value => [(key, value)] | Delete _ => [] end.

(** Put without a TTL, or delete. *)
Definition store_op (o : WalOp) : proc (BlobStore * Disk) Error unit :=
  match o with Put key value => put 0 key value | Delete key => delete_key key end.

Lemma ancestors_prefix (p q : path) : q ∈ ancestors p → q `prefix_of` p.
Proof.
  revert q. induction p as [|c p IH]; intros q; simpl.
  - intros ->%list_elem_of_singleton. done.
  - intros [->|H]%elem_of_cons; [apply prefix_nil|].
    apply list_elem_of_In, in_map_iff in H as (r & <- & H%list_elem_of_In).
    by apply prefix_cons, IH.
Qed.

Lemma elem_of_create_dir_all p q d :
  q ∈ dirs (create_dir_all p d) → q `prefix_of` p ∨ q ∈ dirs d.
Proof.
  unfold create_dir_all. simpl. intros [H|H]%elem_of_union; [left|by right].
  apply elem_of_list_to_set in H. by apply ancestors_prefix.
Qed.

Lemma files_same d d' q : file_at d' q = file_at d q → is_Some (files d' !! q) → is_Some (files d !! q).
Proof. unfold file_at. destruct (files d' !! q), (files d !! q); simpl; eauto; by intros ? [? ?]. Qed.

(** Changes outside the data directory do not matter. *)
Lemma lone_disk_frame dp c d d' :
  (∀ q, dp `prefix_of` q → files d' !! q = files d !! q ∨ file_at d' q = file_at d q) →
  (∀ q, dp `prefix_of` q → q ∈ dirs d' → q ∈ dirs d ∨ q = dp) → dirs d ⊆ dirs d' →
  lone_disk dp c d → lone_disk dp c d'.
Proof.
  intros Hf Hd Hsub [L1 L2 L3 L4].
  assert (∀ q, dp `prefix_of` q → file_at d' q = file_at d q) as Hq.
  { intros q Hq. destruct (Hf q Hq) as [E|E]; [|done]. unfold file_at. by rewrite E. }
  split.
  - by rewrite Hq by apply segment_path_under.
  - intros H. destruct (L2 H) as [[D1 D2] F]. split; [split; by apply Hsub|].
    eapply files_same; [|exact F]. symmetry. apply Hq, segment_path_under.
  - intros q Hpre Hs. apply L3; [done|]. eapply files_same; [|exact Hs]. by apply Hq.
  - intros q Hpre H. destruct (Hd q Hpre H) as [H'| ->]; [by apply L4|].
    unfold segment_dir. by apply prefix_app_r.
Qed.

Lemma lone_append es rs st d o :
  lone_segment es rs st d → wf_op o = true → zlen es + 1 < 2 ^ 64 →
  ∃ w' d', on_wal (append_op o) (st, d) = ((with_wal w' st, d'), Ok (zlen es)) ∧
    wal_path w' = wal_path (wal st) ∧
    lone_segment (es ++ [mkEntry (zlen es) o]) rs (with_wal w' st) d'.
Proof.
  intros [L1 L2 L3 L4 L5 L6] Ho Hmax.
  destruct (append_op_inv es o (wal st) d L1 Ho Hmax) as (w' & d' & E & Hw & Hp & _ & Hd & Hq).
  exists w', d'. unfold on_wal. rewrite E. split; [done|]. split; [done|].
  split; simpl; try done; [by rewrite Hp| |].
  2: { intros Hpol. eapply synced_frame; [|by apply L6]. apply Hq. intros E'. apply L2.
       rewrite <- E'. apply segment_path_under. }
  eapply lone_disk_frame; [..|exact L5].
  - intros q Hpre. left. apply Hq. by intros ->.
  - intros q _. rewrite Hd. by left.
  - by rewrite Hd.
Qed.

Lemma lone_write es rs st d key value :
  lone_segment es rs st d → wf_blob key value = true →
  zlen (segment_bytes CompressionNone rs) ≤ SEGMENT_SIZE →
  ∃ d' loc n,
    write_blob_to_segment (compression st) (sync_policy st) (data_path st)
      (current_segment st) (current_offset st) key value d = (d', Ok (loc, n)) ∧
    lone_segment es (rs ++ [(key, value)])
      (with_position (current_segment st) (add64 (loc_offset loc) n) st) d'.
Proof.
  intros [L1 L2 [L3 L3'] L4 [D1 D2 D3 D4] _] Hwf Hoff. unfold SEGMENT_SIZE in Hoff.
  pose proof (zlen_nonneg (segment_bytes CompressionNone rs)) as H0.
  assert (seek_ok (current_offset st) = true) as Hseek by (unfold seek_ok; lia).
  destruct (write_blob_spec (compression st) (sync_policy st) (data_path st) (current_segment st)
    (current_offset st) key value d Hseek) as (d' & E & Hf & Hsame & Hsync).
  pose proof (zlen_record_bound CompressionNone key value Hwf) as Hlen.
  rewrite L4, L3, L3' in *. rewrite wrap64_small in E by lia.
  rewrite D1, overwrite_end, <- segment_bytes_snoc in Hf.
  destruct Hsame as [Hdirs Hfiles]. eexists d', _, _. split; [exact E|].
  cbn [loc_offset]. rewrite add64_small by lia. split; simpl; try done.
  - eapply wal_inv_frame; [|done]. unfold file_at. rewrite Hfiles; [done|]. intros Hw.
    apply L2. rewrite Hw. apply segment_path_under.
  - by rewrite segment_bytes_snoc, zlen_app.
  - split.
    + by rewrite Hf.
    + intros _. split.
      * split; rewrite Hdirs; [|apply create_dir_all_elem]. unfold segment_dir.
        change [?a; ?b] with ([a] ++ [b]). rewrite app_assoc. apply create_dir_all_self.
      * unfold file_at in Hf. by destruct (files d' !! _).
    + intros q Hpre Hs. destruct (decide (q = segment_path (data_path st) 0)) as [|Hne]; [done|].
      apply D3; [done|]. by rewrite Hfiles in Hs.
    + intros q Hpre Hq. rewrite Hdirs in Hq. by apply elem_of_create_dir_all in Hq as [Hq|Hq]; [|apply D4].
Qed.

Lemma lone_step es rs st d o :
  lone_segment es rs st d → wf_op o = true → zlen es + 1 < 2 ^ 64 →
  zlen (segment_bytes CompressionNone rs) ≤ SEGMENT_SIZE →
  ∃ st' d', store_op o (st, d) = ((st', d'), Ok tt) ∧
    lone_segment (es ++ [mkEntry (zlen es) o]) (rs ++ put_record o) st' d' ∧
    data_path st' = data_path st ∧ sync_policy st' = sync_policy st.
Proof.
  intros L Ho Hmax Hfit.
  destruct (lone_append es rs st d o L Ho Hmax) as (w' & d1 & E1 & Hp & L1).
  destruct o as [key value|key]; cbn [store_op put_record append_op] in *.
  - unfold put, put_with_ttl. unfold pbind at 1. rewrite E1.
    unfold pbind at 1, on_store, pmodify at 1. cbn beta iota.
    set (st1 := with_bloom _ (with_wal w' st)).
    assert (lone_segment (es ++ [mkEntry (zlen es) (Put key value)]) rs st1 d1) as L2
      by (destruct L1; done).
    destruct (lone_write _ rs st1 d1 key value L2 (wf_op_blob _ _ Ho) Hfit) as (d2 & loc & n & E2 & L3).
    unfold pbind at 1, write_blob, pbind at 1.
    destruct (lone_position _ _ _ _ L2) as [_ Hoff]. rewrite <- Hoff in Hfit.
    destruct (Z.ltb_spec SEGMENT_SIZE (current_offset st1)); [lia|]. rewrite E2.
    eexists _, d2. split; [done|]. split; [|done]. by destruct L3.
  - unfold delete_key, pbind. rewrite E1. eexists _, d1. split; [done|].
    rewrite app_nil_r. split; [|done]. by destruct L1.
Qed.

Fixpoint store_run (ops : list WalOp) : proc (BlobStore * Disk) Error unit :=
  match ops with
  | [] => pret tt
  | o :: ops => let! _ := store_op o in store_run ops
  end.

Definition puts_of (ops : list WalOp) : list (string * bytes) := concat (map put_record ops).

Lemma segment_bytes_app rs rs' :
  segment_bytes CompressionNone (rs ++ rs') =
  segment_bytes CompressionNone rs ++ segment_bytes CompressionNone rs'.
Proof. unfold segment_bytes. by rewrite map_app, concat_app. Qed.

Lemma lone_run es rs st d ops :
  lone_segment es rs st d → Forall (λ o, wf_op o = true) ops → zlen es + zlen ops < 2 ^ 64 →
  zlen (segment_bytes CompressionNone (rs ++ puts_of ops)) ≤ SEGMENT_SIZE →
  ∃ es' st' d', store_run ops (st, d) = ((st', d'), Ok tt) ∧
    lone_segment es' (rs ++ puts_of ops) st' d' ∧
    data_path st' = data_path st ∧ sync_policy st' = sync_policy st ∧ zlen es' = zlen es + zlen ops.
Proof.
  intros L Hops. revert es rs st d L. induction Hops as [|o ops Ho _ IH]; intros es rs st d L Hmax Hfit.
  { exists es, st, d. unfold puts_of. simpl. rewrite app_nil_r. by rewrite Z.add_0_r. }
  rewrite zlen_cons in Hmax. pose proof (zlen_nonneg ops).
  change (puts_of (o :: ops)) with (put_record o ++ puts_of ops) in *. rewrite app_assoc in *.
  assert (zlen (segment_bytes CompressionNone rs) ≤ SEGMENT_SIZE) as Hfit1.
  { rewrite <- app_assoc, segment_bytes_app, zlen_app in Hfit.
    pose proof (zlen_nonneg (segment_bytes CompressionNone (put_record o ++ puts_of ops))). lia. }
  destruct (lone_step es rs st d o L Ho ltac:(lia) Hfit1) as (st1 & d1 & E1 & L1 & P1 & W1).
  destruct (IH _ _ _ _ L1) as (es2 & st2 & d2 & E2 & L2 & P2 & W2 & N2).
  { rewrite zlen_app. change (zlen [_]) with 1. lia. }
  { done. }
  exists es2, st2, d2. cbn [store_run]. unfold pbind. rewrite E1, E2.
  split; [done|]. split; [done|]. split; [congruence|]. split; [congruence|].
  rewrite N2, zlen_app. change (zlen [_]) with 1. rewrite (zlen_cons o ops). lia.
Qed.

Lemma wal_open_any wal_dir pol d :
  let p := wal_dir ++ ["wal.log"] in
  ∃ w d', wal_open p pol d = (d', Ok w) ∧ wal_path w = p ∧
    (∀ q, q ≠ p → files d' !! q = files d !! q) ∧ is_Some (file_at d' p) ∧
    dirs d ⊆ dirs d' ∧ (∀ q, q ∈ dirs d' → q `prefix_of` p ∨ q ∈ dirs d) ∧
    (files d !! p = None → wal_inv [] w d').
Proof.
  intros p. assert (p ≠ []) as Hne by by destruct wal_dir.
  destruct (wal_open_file p pol d) as (d0 & E & Hf & _ & _).
  assert (∃ n, find_last_sequence p d0 = Ok n) as [n Hn].
  { unfold find_last_sequence. rewrite Hf. eauto. }
  rewrite Hn in E. cbn [rbind] in E. eexists _, d0. split; [exact E|]. split; [done|].
  unfold wal_open in E. destruct p as [|c p']; [done|].
  set (d1 := create_dir_all (removelast (c :: p')) d) in *.
  assert (d0 = open_create (c :: p') d1) as -> by (by destruct (find_last_sequence _ _); simplify_eq).
  destruct (same_but_open_create (c :: p') d1) as [Hd Hq].
  split; [intros q Hne'; by rewrite Hq|]. split; [rewrite Hf; by eexists|].
  split; [rewrite Hd; apply create_dir_all_dirs|]. split.
  - intros q Hin. rewrite Hd in Hin. apply elem_of_create_dir_all in Hin as [Hin|Hin]; [left|by right].
    etransitivity; [exact Hin|].
    rewrite (app_removelast_last (l := c :: p') ""%string Hne) at 2. by apply prefix_app_r.
  - intros Hnone. destruct (wal_open_fresh (c :: p') pol d Hnone) as (d2 & E2 & I & _).
    unfold wal_open in E2. fold d1 in E2. rewrite Hn in E2. by simplify_eq.
Qed.

Lemma lone_blob_files dp c d :
  lone_disk dp c d →
  Forall (λ q, q = segment_path dp 0) (blob_files dp d) ∧ (c ≠ [] → blob_files dp d ≠ []).
Proof.
  intros [L1 L2 L3 L4]. split.
  - apply Forall_forall. intros q (e & s & [[[E1 E2] _]%elem_of_read_dir _] &
      [[[S1 S2] _]%elem_of_read_dir _] & [[Q1 Q2] Q3]%elem_of_read_dir & _)%elem_of_blob_files.
    assert (dp `prefix_of` q) as Hpre by (etransitivity; [exact E1|]; by etransitivity).
    unfold path_exists, is_dir, is_file in Q3.
    apply orb_true_iff in Q3 as [Hq%bool_decide_eq_true|Hq%bool_decide_eq_true]; [|by apply L3].
    apply L4, prefix_length in Hq; [|done]. unfold segment_dir in Hq.
    rewrite length_app in Hq. simpl in Hq. lia.
  - intros Hne Hnil. destruct (L2 Hne) as [D [f F]].
    pose proof (segment_in_blob_files dp d 0 (content f) D) as H.
    rewrite Hnil in H. unfold file_at in H. rewrite F in H. by apply (not_elem_of_nil (segment_path dp 0)), H.
Qed.

Lemma position_fold_same d p n ps o :
  Forall (λ q, q = p) ps → segment_of_path p = 0 → zlen (unwrap_or [] (file_at d p)) = n →
  o = n ∨ o = 0 ∧ (ps ≠ [] ∨ n = 0) →
  fold_left (λ '(max_segment, max_offset) p,
      let segment := segment_of_path p in
      let size := zlen (unwrap_or [] (file_at d p)) in
      if (max_segment <? segment) || ((segment =? max_segment) && (max_offset <? size))
      then (segment, size) else (max_segment, max_offset)) ps (0, o) = (0, n).
Proof.
  intros Hps Hseg Hn. pose proof (zlen_nonneg (unwrap_or [] (file_at d p))) as H0. revert o.
  induction Hps as [|q ps -> _ IH]; intros o Ho; cbn [fold_left].
  { destruct Ho as [->|[-> [?| ->]]]; done. }
  rewrite Hseg, Hn. destruct ((0 <? 0) || _) eqn:E; apply IH; [by left|].
  left. destruct Ho as [->|[-> _]]; [done|]. lia.
Qed.

Lemma lone_no_side_file dp c d name :
  lone_disk dp c d → parse_u64 name = None → path_exists d (dp ++ [name]) = false.
Proof.
  intros L Hname. unfold path_exists, is_dir, is_file. apply orb_false_iff.
  rewrite !bool_decide_eq_false. split; intros H.
  - apply (lone_dirs _ _ _ L) in H; [|by apply prefix_app_r].
    apply (segment_path_not_under dp name 0 Hname). etransitivity; [exact H|].
    unfold segment_path. by apply prefix_app_r.
  - apply (lone_files _ _ _ L) in H; [|by apply prefix_app_r].
    apply (segment_path_not_under dp name 0 Hname). by rewrite H.
Qed.

(** A segment file that is missing is not found. *)
Lemma lone_missing dp c d :
  lone_disk dp c d → file_at d (segment_path dp 0) = None → c = [] ∧ blob_files dp d = [].
Proof.
  intros L Hf. split.
  - rewrite <- (lone_content _ _ _ L). by rewrite Hf.
  - destruct (lone_blob_files dp c d L) as [Hall _].
    destruct (blob_files dp d) as [|q ps] eqn:Eb; [done|]. inversion Hall as [|? ? -> _]; subst.
    assert (segment_path dp 0 ∈ blob_files dp d) as Hin by (rewrite Eb; set_solver).
    apply elem_of_blob_files in Hin as (e & s0 & _ & _ & [_ Hex]%elem_of_read_dir & _).
    unfold path_exists, is_dir, is_file in Hex. unfold file_at in Hf.
    apply orb_true_iff in Hex as [Hx%bool_decide_eq_true|[f Hx]%bool_decide_eq_true].
    + apply (lone_dirs _ _ _ L), prefix_length in Hx; [|apply segment_path_under].
      rewrite length_segment_path in Hx. unfold segment_dir in Hx. rewrite length_app in Hx.
      simpl in Hx. lia.
    + by rewrite Hx in Hf.
Qed.

(** Rebuilding the index of such a directory. *)
Lemma lone_scan dp c rs b d fuel :
  lone_disk dp c d → scans_as fuel c rs → (c = [] → rs = []) →
  ∃ m' b', scan_segments fuel (blob_files dp d) ∅ b d = Some (Ok (m', b')) ∧ scanned_all rs m' b'.
Proof.
  intros L Hscan Hnil. destruct (lone_blob_files dp c d L) as [Hall Hne].
  pose proof (lone_content _ _ _ L) as Hcont.
  destruct (file_at d (segment_path dp 0)) as [c0|] eqn:Ef.
  - cbn [unwrap_or] in Hcont. subst c0.
    eapply (scan_segments_same rs _ (segment_path dp 0)); try done.
    + by apply segment_of_segment_path.
    + destruct c as [|x c]; [right; rewrite Hnil by done; by intros k|left; split; [done|by apply Hne]].
  - destruct (lone_missing dp c d L Ef) as [-> ->]. rewrite Hnil by done. by exists ∅, b.
Qed.

Lemma lone_current_position dp c d :
  lone_disk dp c d → dp ∈ dirs d → find_current_position dp d = Ok (0, zlen c).
Proof.
  intros L Hdp. unfold find_current_position, path_exists.
  assert (is_dir d dp = true) as -> by (by unfold is_dir; rewrite bool_decide_true).
  cbn [orb negb]. destruct (lone_blob_files dp c d L) as [Hall Hne]. f_equal.
  apply (position_fold_same d (segment_path dp 0)); [done|by apply segment_of_segment_path| |].
  - by rewrite (lone_content _ _ _ L).
  - destruct c; [by left|]. right. split; [done|]. left. by apply Hne.
Qed.

(** The directories that opening makes. *)
Lemma lone_open_dirs dp wal_dir c d dx :
  lone_disk dp c d → ¬ dp `prefix_of` (wal_dir ++ ["wal.log"]) →
  (∀ q, q ≠ wal_dir ++ ["wal.log"] → files dx !! q = files d !! q) →
  (∀ q, q ∈ dirs dx → q `prefix_of` (wal_dir ++ ["wal.log"]) ∨
     q ∈ dirs (create_dir_all wal_dir (create_dir_all dp d))) →
  dirs d ⊆ dirs dx → lone_disk dp c dx.
Proof.
  intros L Hapart Hf Hd Hsub. eapply lone_disk_frame; [| |exact Hsub|exact L].
  - intros q Hq. left. apply Hf. by intros ->.
  - intros q Hq H. apply Hd in H as [H|H]; [exfalso; apply Hapart; by etransitivity|].
    apply elem_of_create_dir_all in H as [H|H].
    + exfalso. apply Hapart. etransitivity; [exact Hq|]. etransitivity; [exact H|].
      by apply prefix_app_r.
    + apply elem_of_create_dir_all in H as [H|H]; [right|by left]. by apply (anti_symm prefix).
Qed.

(** Opening on such a directory, without a snapshot: what comes out is what the
    scan of the segment says. *)
Lemma open_lone dp wal_dir pol c d fuel :
  lone_disk dp c d → ¬ dp `prefix_of` (wal_dir ++ ["wal.log"]) →
  ∃ b w d1, lone_disk dp c d1 ∧ wal_path w = wal_dir ++ ["wal.log"] ∧
    (files d !! (wal_dir ++ ["wal.log"]) = None → wal_inv [] w d1) ∧
    (∀ q, q ≠ wal_dir ++ ["wal.log"] → files d1 !! q = files d !! q) ∧
    open_store fuel dp wal_dir pol d =
      (d1, match scan_segments fuel (blob_files dp d1) ∅ b d1 with
           | Some (Ok (m, b)) => Some (Ok (mkStore dp m b w 0 (zlen c) pol CompressionNone))
           | Some (Err e) => Some (Err e)
           | None => None
           end).
Proof.
  intros L Hapart. unfold open_store.
  set (d0 := create_dir_all wal_dir (create_dir_all dp d)).
  destruct (wal_open_any wal_dir pol d0) as (w & d1 & Ew & Pw & Fw & [wc Hc] & Dw & Dw' & Ww).
  assert (dirs d ⊆ dirs d0) as Hsub
    by (etransitivity; [apply create_dir_all_dirs|apply create_dir_all_dirs]).
  assert (lone_disk dp c d0) as L0 by (eapply lone_open_dirs; eauto).
  assert (dirs d ⊆ dirs d1) as Hsub1 by (etransitivity; [exact Hsub|exact Dw]).
  pose proof (lone_open_dirs dp wal_dir c d d1 L Hapart Fw Dw' Hsub1) as L1.
  unfold load_bloom, snapshot_path, bloom_path.
  rewrite !(lone_no_side_file dp c d0) by done. rewrite Ew. cbn [negb].
  rewrite (wal_replay_read_all _ _ _ _ wc Hc).
  destruct (replay_entries (read_all wc) index_new bloom_new) as (m & b & -> & Hm & _).
  assert (m = ∅) as -> by (apply map_empty; intros k; rewrite Hm; by case_decide).
  rewrite (lone_no_side_file dp c d1) by done. cbn [negb]. unfold rebuild_index_from_segments.
  assert (dp ∈ dirs d1) as Hdp by (apply Dw; apply create_dir_all_dirs, create_dir_all_elem).
  assert (is_dir d1 dp = true) as -> by (by unfold is_dir; rewrite bool_decide_true). cbn [negb].
  rewrite (lone_current_position dp c d1 L1 Hdp).
  exists b, w, d1. split; [done|]. split; [done|]. split; [done|]. split; [done|].
  by destruct (scan_segments _ _ _ _ _) as [[[m' b']|e]|].
Qed.

Lemma open_lone_ok dp wal_dir pol c rs d fuel :
  lone_disk dp c d → ¬ dp `prefix_of` (wal_dir ++ ["wal.log"]) → scans_as fuel c rs → (c = [] → rs = []) →
  ∃ st' d', open_store fuel dp wal_dir pol d = (d', Some (Ok st')) ∧
    data_path st' = dp ∧ wal_path (wal st') = wal_dir ++ ["wal.log"] ∧
    current_segment st' = 0 ∧ current_offset st' = zlen c ∧
    compression st' = CompressionNone ∧ lone_disk dp c d' ∧
    scanned_all rs (index st') (bloom st') ∧ sync_policy st' = pol ∧
    (∀ q, q ≠ wal_dir ++ ["wal.log"] → files d' !! q = files d !! q) ∧
    (files d !! (wal_dir ++ ["wal.log"]) = None → wal_inv [] (wal st') d').
Proof.
  intros L Hapart Hscan Hnil.
  destruct (open_lone dp wal_dir pol c d fuel L Hapart) as (b & w & d1 & L1 & Pw & Ww & Fw & ->).
  destruct (lone_scan dp c rs b d1 fuel L1 Hscan Hnil) as (m' & b' & -> & Hs).
  eexists _, d1. split; [done|]. repeat (split; [done|]). done.
Qed.

Lemma scanned_get rs tail st d now key :
  lone_disk (data_path st) (segment_bytes CompressionNone rs ++ tail) d →
  Forall (λ '(k, v), wf_blob k v = true) rs →
  zlen (segment_bytes CompressionNone rs) < 2 ^ 63 → scanned_all rs (index st) (bloom st) →
  get now key st d = Ok (last_puts rs !! key).
Proof.
  intros L Hwf Hlen Hs. specialize (Hs key). rewrite <- (last_at_last_puts 0). unfold get.
  destruct (last_at 0 key rs) as [[o v]|] eqn:E.
  - destruct Hs as [Hm Hb]. rewrite Hb. cbn [negb].
    assert (get_if_valid now key (index st) = Some (scanned 0 o key v)) as ->
      by (by apply get_if_valid_Some).
    apply last_at_split in E as ((pre & post & Hseg & Ho) & Hin).
    pose proof (proj1 (Forall_forall _ _) Hwf (key, v) Hin) as Hkv. simpl in Hkv.
    pose proof (lone_content _ _ _ L) as Hc. rewrite Hseg in Hc, Hlen.
    assert (file_at d (segment_path (data_path st) 0) =
      Some (pre ++ blob_record CompressionNone key v ++ post ++ tail)) as Hf.
    { rewrite <- !app_assoc in Hc. destruct (file_at d (segment_path (data_path st) 0)); simpl in Hc; [by subst|].
      pose proof (blob_record_nonempty CompressionNone key v). by destruct pre, (blob_record _ _ _). }
    rewrite (read_blob_record _ (scanned 0 o key v) d pre (post ++ tail) CompressionNone key v); [done|done|..].
    + simpl. lia.
    + rewrite !zlen_app in Hlen. pose proof (zlen_nonneg pre). pose proof (zlen_nonneg post).
      pose proof (zlen_nonneg (blob_record CompressionNone key v)). unfold seek_ok. simpl. lia.
    + done.
  - destruct (negb _); [done|]. unfold get_if_valid. rewrite Hs. by destruct (is_expired _ _ _).
Qed.

Lemma segment_bytes_nil rs : segment_bytes CompressionNone rs = [] → rs = [].
Proof.
  destruct rs as [|[k v] rs]; [done|]. rewrite segment_bytes_cons. intros [E _]%app_nil.
  by destruct (blob_record_nonempty CompressionNone k v).
Qed.

Lemma puts_of_wf ops :
  Forall (λ o, wf_op o = true) ops →
  Forall (λ '(k, v), wf_blob k v = true) (puts_of ops) ∧ (length (puts_of ops) ≤ length ops)%nat.
Proof.
  induction 1 as [|o ops Ho _ [IH1 IH2]]; [done|].
  change (puts_of (o :: ops)) with (put_record o ++ puts_of ops).
  rewrite length_app. destruct o as [k v|k]; simpl.
  - split; [|lia]. constructor; [|done]. by apply wf_op_blob.
  - split; [done|lia].
Qed.

(** An empty data directory, and a log that does not exist and is elsewhere. *)
Definition fresh_disk (dp wal_dir : path) (d : Disk) : Prop :=
  (∀ q, dp `prefix_of` q → files d !! q = None ∧ q ∉ dirs d) ∧
  files d !! (wal_dir ++ ["wal.log"]) = None ∧ ¬ dp `prefix_of` (wal_dir ++ ["wal.log"]).

(** A store opened on an empty directory, after some operations. *)
Lemma fresh_run dp wal_dir pol d ops fuel :
  fresh_disk dp wal_dir d → (0 < fuel)%nat →
  Forall (λ o, wf_op o = true) ops → zlen ops < 2 ^ 64 →
  zlen (segment_bytes CompressionNone (puts_of ops)) ≤ SEGMENT_SIZE →
  ∃ st0 d0 es1 st1 d1,
    open_store fuel dp wal_dir pol d = (d0, Some (Ok st0)) ∧
    store_run ops (st0, d0) = ((st1, d1), Ok tt) ∧
    lone_segment es1 (puts_of ops) st1 d1 ∧ data_path st1 = dp ∧ sync_policy st1 = pol ∧ zlen es1 = zlen ops.
Proof.
  intros (Hempty & Hwal & Hapart) Hfuel Hops Hn Hfit.
  assert (lone_disk dp [] d) as L.
  { split; [|done|..].
    - unfold file_at. by rewrite (proj1 (Hempty _ (segment_path_under dp 0))).
    - intros q Hq [f Hf]. by rewrite (proj1 (Hempty q Hq)) in Hf.
    - intros q Hq Hin. by destruct (proj2 (Hempty q Hq)). }
  destruct (open_lone_ok dp wal_dir pol [] [] d fuel L Hapart) as
    (st0 & d0 & E0 & P0 & W0 & S0 & O0 & C0 & L0 & _ & Y0 & F0 & I0); [by apply (scans_as_records fuel [])|done|].
  assert (lone_segment [] [] st0 d0) as LS0.
  { split; [by apply I0|by rewrite P0, W0|done|done|by rewrite P0|].
    intros _. rewrite P0. unfold synced, file_at. rewrite F0, (proj1 (Hempty _ (segment_path_under dp 0))); [done|].
    intros E. apply Hapart. rewrite <- E. apply segment_path_under. }
  destruct (lone_run [] [] st0 d0 ops LS0 Hops Hn Hfit) as (es1 & st1 & d1 & E1 & L1 & P1 & W1 & N1).
  exists st0, d0, es1, st1, d1. split; [done|]. split; [done|]. split; [done|]. split; [congruence|]. split; [congruence|done].
Qed.

(** C10. A restart without a snapshot reads the segment files alone: open a
    store on an empty directory, with compression off, put (without TTL) and
    delete, no more than fills one segment, and open it again without having
    saved a snapshot.  Everything succeeds, and the new store returns
    for every key the value that was put last; deletions are forgotten, since
    the log is replayed before the index is rebuilt. *)
Theorem reopen_without_snapshot dp wal_dir pol d ops fuel :
  fresh_disk dp wal_dir d →
  Forall (λ o, wf_op o = true) ops → zlen ops < 2 ^ 64 →
  zlen (segment_bytes CompressionNone (puts_of ops)) ≤ SEGMENT_SIZE → (length ops < fuel)%nat →
  ∃ st0 d0 st1 d1 st2 d2,
    open_store fuel dp wal_dir pol d = (d0, Some (Ok st0)) ∧
    store_run ops (st0, d0) = ((st1, d1), Ok tt) ∧
    open_store fuel dp wal_dir pol d1 = (d2, Some (Ok st2)) ∧
    ∀ now key, get now key st2 d2 = Ok (last_puts (puts_of ops) !! key).
Proof.
  intros Hfresh Hops Hn Hfit Hfuel. destruct (puts_of_wf ops Hops) as [Hwf Hlen].
  destruct (fresh_run dp wal_dir pol d ops fuel Hfresh ltac:(lia) Hops Hn Hfit)
    as (st0 & d0 & es1 & st1 & d1 & E0 & E1 & L1 & P1 & _).
  unfold SEGMENT_SIZE in Hfit. pose proof (lone_on _ _ _ _ L1) as LD1. rewrite P1 in LD1.
  destruct (open_lone_ok dp wal_dir pol _ (puts_of ops) d1 fuel LD1 (proj2 (proj2 Hfresh))) as
    (st2 & d2 & E2 & P2 & _ & _ & _ & _ & L2 & Hs & _).
  { apply scans_as_records; [done|lia|lia]. }
  { apply segment_bytes_nil. }
  exists st0, d0, st1, d1, st2, d2. repeat (split; [done|]). intros now key.
  apply (scanned_get _ []); [by rewrite P2, app_nil_r|done|lia|done].
Qed.
End recovery.

(** ** Examples *)
#[local] Existing Instances crc32_ieee toy_blake3 toy_lz4 toy_bloom lower_hex sorted_iter
  plain_read_dir.

Lemma reopen_from_snapshot_witness :
  ∃ st' d',
    open_store 10 ex_data ["wal"] Always (save_snapshot ex_store ex_store_disk) =
      (d', Some (Ok st')) ∧
    store_inv [] (filter (λ '(k, _), k ∉ deleted_keys []) ∅) st' d'.
Proof.
  destruct (reopen_from_snapshot [] ∅ ex_store ex_store_disk 10 ["wal"] Always)
    as (st' & d' & E & I & _).
  - apply ex_store_inv.
  - reflexivity.
  - reflexivity.
  - apply map_Forall_empty.
  - reflexivity.
  - reflexivity.
  - exists st', d'. split; [exact E|exact I].
Defined.

Definition ex_run : list WalOp := [Put "k1" [x01]; Put "k2" [x02; x03]; Delete "k1"; Put "k2" []].

Lemma reopen_without_snapshot_witness :
  ∃ st0 d0 st1 d1 st2 d2,
    open_store 10 ["data"] ["wal"] Always (mkDisk ∅ ∅) = (d0, Some (Ok st0)) ∧
    store_run ex_run (st0, d0) = ((st1, d1), Ok tt) ∧
    open_store 10 ["data"] ["wal"] Always d1 = (d2, Some (Ok st2)) ∧
    get 0 "k1" st2 d2 = Ok (Some [x01]).
Proof.
  destruct (reopen_without_snapshot ["data"] ["wal"] Always (mkDisk ∅ ∅) ex_run 10)
    as (st0 & d0 & st1 & d1 & st2 & d2 & E0 & E1 & E2 & H).
  - split; [intros q _; split; [reflexivity|]; set_solver|]. split; [reflexivity|]. intros [l [=]].
  - repeat constructor.
  - reflexivity.
  - vm_compute. discriminate.
  - simpl. lia.
  - exists st0, d0, st1, d1, st2, d2. split; [exact E0|]. split; [exact E1|].
    split; [exact E2|]. exact (H 0 "k1"%string).
Defined.
