(* ===== verification/Snapshots.v ===== *)
(** * Working on after a snapshot

    [save_snapshot] of [src/volume/blob.rs] is not the last thing a store does:
    operations go on, and [open] later loads the snapshot.  What is read then is
    the map as it was when the snapshot was saved. *)

From Stdlib Require Import ZArith Lia.
From Stdlib.Strings Require Import Byte.
From stdpp Require Import base option list gmap strings.
From S2P Require Import Prelude Bytes Text Errors Fs External Config Wal Hash Index Segment Blob.
From S2P Require Import Recovery.

Section snapshots.
Context {CRC : Crc32Fast} {B3 : Blake3} {LZ : Lz4} {BF : BloomFilter} {HX : Hex}
  {HI : HashIter} {RD : ReadDir}.

(** What was stored stays stored, and the snapshot files stay as they are. *)
Record keeps (st : BlobStore) (d : Disk) (st' : BlobStore) (d' : Disk) : Prop := {
  kp_data : data_path st' = data_path st;
  kp_wal : wal_path (wal st') = wal_path (wal st);
  kp_items key loc it : item_ok st d key loc it → item_ok st' d' key loc it;
  kp_files name : name = "index.snap"%string ∨ name = "bloom.filter"%string →
    file_at d' (data_path st ++ [name]) = file_at d (data_path st ++ [name]);
}.

Lemma keeps_refl st d : keeps st d st d.
Proof. by split. Qed.

Lemma keeps_trans st d st1 d1 st2 d2 : keeps st d st1 d1 → keeps st1 d1 st2 d2 → keeps st d st2 d2.
Proof.
  intros [A1 A2 A3 A4] [B1 B2 B3' B4]. split; [congruence|congruence|auto|].
  intros name Hn. rewrite <- A4 by done. rewrite <- A1. by apply B4.
Qed.

(** Changes to the index, the filter and the compression mode. *)
Lemma keeps_fields st d st' :
  data_path st' = data_path st → wal_path (wal st') = wal_path (wal st) →
  current_segment st' = current_segment st → current_offset st' = current_offset st →
  current_segment st < 2 ^ 64 → keeps st d st' d.
Proof.
  intros H1 H2 H3 H4 H5. split; [done|done| |done]. intros key loc it. by apply item_ok_frame.
Qed.

Lemma side_file_under dp name seg : parse_u64 name = None → dp ++ [name] ≠ segment_path dp seg.
Proof. intros Hn E. apply (segment_path_not_under dp name seg Hn). by rewrite E. Qed.

Lemma append_keeps es M st d o :
  store_inv es M st d → wf_op o = true → zlen es + 1 < 2 ^ 64 →
  ∃ w' d', on_wal (append_op o) (st, d) = ((with_wal w' st, d'), Ok (zlen es)) ∧
    keeps st d (with_wal w' st) d' ∧ store_inv (es ++ [mkEntry (zlen es) o]) M (with_wal w' st) d'.
Proof.
  intros I Ho Hes. destruct (store_append es M st d o I Ho Hes) as (w' & d' & E & Hd & Hq & Hp & I').
  exists w', d'. split; [done|]. split; [|done]. split; [done|done|..].
  - intros key loc it. apply item_ok_frame; [done|done|done|apply (inv_segment _ _ _ _ I)|by rewrite Hd|].
    intros seg _. unfold file_at. rewrite Hq; [done|]. by eapply segment_path_not_wal.
  - intros name _. unfold file_at. rewrite Hq; [done|]. intros E'. apply (inv_apart _ _ _ _ I).
    rewrite <- E'. by apply prefix_app_r.
Qed.

Lemma write_record_keeps es M st d key value d' loc n :
  store_inv es M st d → wf_blob key value = true → current_offset st ≤ SEGMENT_SIZE →
  write_blob_to_segment (compression st) (sync_policy st) (data_path st)
    (current_segment st) (current_offset st) key value d = (d', Ok (loc, n)) →
  keeps st d (with_position (current_segment st) (add64 (loc_offset loc) n) st) d'.
Proof.
  intros I Hwf Hoff E. pose proof (inv_segment _ _ _ _ I). pose proof (inv_offset _ _ _ _ I).
  unfold SEGMENT_SIZE in Hoff.
  assert (seek_ok (current_offset st) = true) as Hseek by (unfold seek_ok; lia).
  destruct (write_blob_spec (compression st) (sync_policy st) (data_path st) (current_segment st)
    (current_offset st) key value d Hseek) as (d1 & E1 & Hf & Hsame & _).
  pose proof (zlen_record_bound (compression st) key value Hwf) as Hlen.
  rewrite wrap64_small in E1 by lia. rewrite E in E1. injection E1 as <- -> ->. cbn [loc_offset].
  rewrite add64_small by lia.
  assert (∀ q, q ≠ segment_path (data_path st) (current_segment st) → file_at d' q = file_at d q) as Hq.
  { intros q Hq. by apply (same_but_file_at _ _ _ _ Hsame). }
  split; [done|done|..].
  - intros k l it. apply (item_ok_write st _ d d' (blob_record (compression st) key value)); simpl; try done; try lia.
    destruct Hsame as [Hdirs _]. rewrite Hdirs. apply create_dir_all_dirs.
  - intros name Hn. apply Hq, side_file_under. by destruct Hn as [-> | ->].
Qed.

Lemma write_blob_keeps es M st d key value st' d' r :
  store_inv es M st d → wf_blob key value = true → current_segment st + 1 < 2 ^ 64 →
  write_blob key value (st, d) = ((st', d'), r) → keeps st d st' d'.
Proof.
  intros I Hwf Hmax. unfold write_blob, pbind. pose proof (inv_segment _ _ _ _ I) as Hseg.
  destruct (Z.ltb_spec SEGMENT_SIZE (current_offset st)) as [Hfull|Hfit].
  - pose proof (store_inv_bump es M st d I Hmax) as I'.
    set (st1 := with_position (add64 (current_segment st) 1) 0 st) in *.
    assert (keeps st d st1 d) as K1.
    { split; [done|done| |done]. intros k l it. apply item_ok_bump; lia. }
    destruct (MAX_SEGMENTS <=? current_segment st1); [by intros [= <- <- _]|].
    destruct (write_record_inv es M st1 d key value I' Hwf) as (d2 & loc & n & E & _); [by unfold SEGMENT_SIZE|].
    rewrite E. intros [= <- <- _]. eapply keeps_trans; [exact K1|].
    by eapply write_record_keeps; [exact I'| | |exact E].
  - destruct (write_record_inv es M st d key value I Hwf Hfit) as (d2 & loc & n & E & _).
    rewrite E. intros [= <- <- _]. by eapply write_record_keeps.
Qed.
Lemma put_keeps es M st d now key value ttl st' d' r :
  store_inv es M st d → wf_op (Put key value) = true →
  zlen es + 1 < 2 ^ 64 → current_segment st + 1 < 2 ^ 64 →
  put_with_ttl now key value ttl (st, d) = ((st', d'), r) → keeps st d st' d'.
Proof.
  intros I Ho Hes Hseg. destruct (append_keeps es M st d (Put key value) I Ho Hes) as (w' & d1 & E1 & K1 & I1).
  unfold put_with_ttl. unfold pbind at 1. cbn [append_op] in E1. rewrite E1.
  unfold pbind at 1, on_store, pmodify at 1. cbn beta iota.
  set (st1 := with_bloom _ (with_wal w' st)).
  assert (store_inv (es ++ [mkEntry (zlen es) (Put key value)]) M st1 d1) as I2.
  { eapply store_inv_frame; [..|exact I1]; try done; [|apply (inv_wal _ _ _ _ I1)].
    intros k Hk. simpl. by apply bloom_check_mono. }
  assert (keeps st d st1 d1) as K2.
  { eapply keeps_trans; [exact K1|]. apply keeps_fields; try done. apply (inv_segment _ _ _ _ I1). }
  unfold pbind. destruct (write_blob key value (st1, d1)) as [[st2 d2] r2] eqn:E2.
  pose proof (write_blob_keeps _ _ _ _ _ _ _ _ _ I2 (wf_op_blob _ _ Ho) Hseg E2) as K3.
  pose proof (keeps_trans _ _ _ _ _ _ K2 K3) as K4. destruct r2 as [loc|e]; [|by intros [= <- <- _]].
  intros [= <- <- _]. eapply keeps_trans; [exact K4|]. apply keeps_fields; try done.
  destruct (write_blob_inv _ M st1 d1 key value I2 (wf_op_blob _ _ Ho) Hseg) as
    [(st3 & d3 & loc' & E3 & W & _)|(st3 & E3 & W & _)]; rewrite E2 in E3; injection E3 as <- <- _;
    apply (inv_segment _ _ _ _ W).
Qed.

Lemma exec_keeps es M st d now op st' d' o :
  store_inv es M st d → wf_store_op op = true → op ≠ OpSnapshot →
  zlen es + 1 < 2 ^ 64 → current_segment st + 1 < 2 ^ 64 →
  exec now op (st, d) = ((st', d'), o) → keeps st d st' d'.
Proof.
  intros I Hwf Hns Hes Hseg. pose proof (inv_segment _ _ _ _ I) as [_ Hmax].
  destruct op as [key value ttl|key|key|key|key| | | |mode]; unfold exec; cbn [wf_store_op] in *; try done.
  all: try (intros [= <- <- _]; by apply keeps_fields).
  - destruct (put_with_ttl now key value ttl (st, d)) as [[st1 d1] r] eqn:E. intros [= <- <- _].
    by eapply put_keeps.
  - destruct (append_keeps es M st d (Delete key) I Hwf Hes) as (w' & d1 & E1 & K1 & I1).
    unfold delete_key, pbind. cbn [append_op] in E1. rewrite E1. cbn. intros E. injection E as <- <- _.
    eapply keeps_trans; [exact K1|]. by apply keeps_fields.
  - destruct (compact_fails st d) as (d1 & E & _ & Hd & Hf). rewrite E. intros E'. injection E' as <- <- _.
    split; [done|done|..].
    + intros key loc it. apply item_ok_frame; try done. intros seg _. apply Hf.
      by apply (segment_path_not_under (data_path st) "compact_temp" seg).
    + intros name Hn. apply Hf. intros [l Hl]. rewrite <- app_assoc in Hl.
      apply app_inv_head in Hl. injection Hl as -> _. by destruct Hn.
Qed.

(** The keys that operations delete. *)
Definition op_deletes (ops : list (Z * StoreOp)) : list string :=
  omap (λ '(_, op), match op with OpDelete key => Some key | _ => None end) ops.

Lemma deleted_keys_op es n op now ops k :
  k ∈ deleted_keys (es ++ op_entries n op) ∨ k ∈ op_deletes ops ↔
  k ∈ deleted_keys es ∨ k ∈ op_deletes ((now, op) :: ops).
Proof.
  unfold deleted_keys, op_deletes. rewrite omap_app, elem_of_app. cbn [omap list_omap].
  destruct op; simpl; rewrite ?elem_of_nil, ?elem_of_cons, ?elem_of_nil; tauto.
Qed.

Lemma exec_all_keeps es M st d ops :
  store_inv es M st d → Forall (λ '(_, op), wf_store_op op = true ∧ op ≠ OpSnapshot) ops →
  zlen es + zlen ops < 2 ^ 64 → current_segment st + zlen ops < 2 ^ 64 →
  ∃ st' d' outs es' M', exec_all ops (st, d) = ((st', d'), outs) ∧ keeps st d st' d' ∧
    store_inv es' M' st' d' ∧ zlen es' < 2 ^ 64 ∧
    ∀ k, k ∈ deleted_keys es' ↔ k ∈ deleted_keys es ∨ k ∈ op_deletes ops.
Proof.
  intros I Hops. revert es M st d I.
  induction Hops as [|[now op] ops [Hwf Hns] _ IH]; intros es M st d I Hes Hseg.
  { exists st, d, [], es, M. split; [done|]. split; [apply keeps_refl|]. split; [done|].
    change (zlen []) with 0 in Hes. split; [lia|]. set_solver. }
  rewrite zlen_cons in *. pose proof (zlen_nonneg ops). pose proof (op_entries_length (zlen es) op).
  destruct (exec_refines es M st d now op I Hwf ltac:(lia) ltac:(lia))
    as (st1 & d1 & o & M1 & E1 & _ & I1 & G1).
  pose proof (exec_keeps es M st d now op st1 d1 o I Hwf Hns ltac:(lia) ltac:(lia) E1) as K.
  destruct (IH _ M1 st1 d1 I1 ltac:(rewrite zlen_app; lia) ltac:(lia))
    as (st2 & d2 & os & es2 & M2 & E2 & K2 & I2 & Hlen & Hdel).
  exists st2, d2, (o :: os), es2, M2. cbn [exec_all]. rewrite E1, E2. split; [done|].
  split; [by eapply keeps_trans|]. split; [done|]. split; [done|]. intros k. rewrite Hdel.
  apply deleted_keys_op.
Qed.

(** C11. What is written after a snapshot is lost: save a snapshot, go on with any
    operations but another snapshot, and open the store again.  Opening
    succeeds, and every key reads as it did when the snapshot was saved: later
    puts are forgotten, because [open] does not rebuild the index when there
    is a snapshot and takes only deletions from the log; and a key that was
    deleted at any time since the log was begun is gone. *)
Theorem writes_after_snapshot_lost es M st d ops fuel wal_dir pol :
  store_inv es M st d → wal_path (wal st) = wal_dir ++ ["wal.log"] →
  map_Forall (λ _ it, expiry_ok it = true) M → Z.of_nat (size M) < 2 ^ 64 →
  Forall (λ '(_, op), wf_store_op op = true ∧ op ≠ OpSnapshot) ops →
  zlen es + zlen ops < 2 ^ 64 → current_segment st + zlen ops < 2 ^ 64 →
  ∃ st1 d1 outs, exec_all ops (st, save_snapshot st d) = ((st1, d1), outs) ∧
    (bw_buf (wal_writer (wal st1)) = [] →
     ∃ st2 d2, open_store fuel (data_path st) wal_dir pol d1 = (d2, Some (Ok st2)) ∧
       ∀ now key, get now key st2 d2 =
         if decide (key ∈ deleted_keys es ++ op_deletes ops) then Ok None else get now key st d).
Proof.
  intros I Hw Hexp Hsize Hops Hes Hseg. pose proof (snapshot_files st d) as [Fs Fb].
  pose proof (snapshot_inv es M st d I) as Is.
  destruct (exec_all_keeps es M st (save_snapshot st d) ops Is Hops Hes Hseg)
    as (st1 & d1 & outs & es1 & M1 & E1 & [K1 K2 K3 K4] & I1 & Hlen & Hdel).
  exists st1, d1, outs. split; [done|]. intros Hbuf.
  destruct (open_snapshotted es1 M1 st1 d1 (index st) M (bloom st) fuel wal_dir pol)
    as (st2 & d2 & E2 & I2); try done; [by rewrite K2| | | |].
  - eapply map_Forall2_impl; [apply (inv_items _ _ _ _ Is)|]. intros k loc it. apply K3.
  - unfold snapshot_path. rewrite K1, K4 by by left. exact Fs.
  - unfold bloom_path. rewrite K1, K4 by by right. exact Fb.
  - rewrite K1 in E2. exists st2, d2. split; [done|]. intros now key.
    rewrite (get_spec _ _ _ _ _ _ I2), (get_spec _ _ _ _ _ _ I), spec_get_without.
    apply decide_ext. by rewrite Hdel, elem_of_app.
Qed.
End snapshots.

(** ** Witness *)
#[local] Existing Instances crc32_ieee toy_blake3 toy_lz4 toy_bloom lower_hex sorted_iter
  plain_read_dir.

Definition ex_late_put : list (Z * StoreOp) := [(10, OpPut "k" [x01] None)].
Abbreviation ex_late := (exec_all ex_late_put (ex_store, save_snapshot ex_store ex_store_disk)).

Lemma ex_late_get : get 20 "k" ex_late.1.1 ex_late.1.2 = Ok (Some [x01]).
Proof. vm_compute. reflexivity. Qed.
Lemma ex_late_flushed : bw_buf (wal_writer (wal ex_late.1.1)) = [].
Proof. vm_compute. reflexivity. Qed.

Lemma writes_after_snapshot_lost_witness :
  get 20 "k" ex_late.1.1 ex_late.1.2 = Ok (Some [x01]) ∧
  ∃ st2 d2, open_store 10 ex_data ["wal"] Always ex_late.1.2 = (d2, Some (Ok st2)) ∧
    get 20 "k" st2 d2 = Ok None.
Proof.
  split; [apply ex_late_get|].
  destruct (writes_after_snapshot_lost [] ∅ ex_store ex_store_disk ex_late_put 10 ["wal"] Always)
    as (st1 & d1 & outs & E1 & H).
  - apply ex_store_inv.
  - reflexivity.
  - apply map_Forall_empty.
  - reflexivity.
  - repeat constructor; discriminate.
  - reflexivity.
  - reflexivity.
  - pose proof ex_late_flushed as Hb. rewrite E1 in Hb |- *.
    cbn [fst snd] in Hb |- *. destruct (H Hb) as (st2 & d2 & E2 & Hg).
    exists st2, d2. split; [exact E2|]. rewrite Hg. vm_compute. reflexivity.
Defined.
