(* ===== verification/Rebuild.v ===== *)
(** * Rebuilding the index from several segments

    [rebuild_index_from_segments] of [src/volume/blob.rs] on a data directory
    with any number of segments.  It visits the files in the order in which
    [read_dir] lists them, which is not specified; the index keeps, for every
    key, the record that was visited last. *)

From Stdlib Require Import ZArith Lia.
From Stdlib.Strings Require Import Byte.
From stdpp Require Import base option list gmap strings.
From S2P Require Import Prelude Bytes Text Errors Fs External Config Wal Index Segment Blob Recovery.

Section rebuild.
Context {CRC : Crc32Fast} {B3 : Blake3} {LZ : Lz4} {BF : BloomFilter} {HX : Hex} {HI : HashIter} {RD : ReadDir}.

(** Segments in the order in which they are listed: the number of each and its
    records. *)
Abbreviation listing := (list (Z * list (string * bytes))).

(** The record of a key that is visited last: its segment, offset and value. *)
Fixpoint last_in (segs : listing) (k : string) : option (Z * Z * bytes) :=
  match segs with
  | [] => None
  | (s, rs) :: segs =>
      match last_in segs k with
      | Some r => Some r
      | None => (λ '(o, v), (s, o, v)) <$> last_at 0 k rs
      end
  end.

(** The files of the listing are there, with those records. *)
Definition segments_on (dp : path) (segs : listing) (d : Disk) : Prop :=
  Forall (λ '(s, rs), 0 ≤ s < 2 ^ 64 ∧
    file_at d (segment_path dp s) = Some (segment_bytes CompressionNone rs) ∧
    zlen (segment_bytes CompressionNone rs) < 2 ^ 63 ∧
    Forall (λ '(k, v), wf_blob k v = true) rs) segs.

Lemma last_in_value segs k :
  (λ '(_, _, v), v) <$> last_in segs k = last_puts (concat (map snd segs)) !! k.
Proof.
  assert (∀ rs1 rs2, last_puts (rs1 ++ rs2) !! k =
    match last_puts rs2 !! k with Some v => Some v | None => last_puts rs1 !! k end) as Happ.
  { intros rs1 rs2. rewrite <- !(last_at_last_puts 0). generalize 0.
    induction rs1 as [|[key v] rs1 IH]; intros off; cbn [app last_at].
    - by destruct (last_at off k rs2) as [[o v]|].
    - specialize (IH (off + zlen (blob_record CompressionNone key v))).
      rewrite (last_at_last_puts off) in *. rewrite (last_at_last_puts _ k rs2) in IH.
      destruct (last_at _ k (rs1 ++ rs2)) as [[o v']|] eqn:E1; cbn in *.
      + rewrite IH. destruct (last_puts rs2 !! k); [done|].
        by destruct (last_at _ k rs1) as [[o1 v1]|].
      + destruct (last_puts rs2 !! k); [done|]. by destruct (last_at _ k rs1) as [[o1 v1]|]. }
  induction segs as [|[s rs] segs IH]; [done|]. cbn [last_in map concat snd]. rewrite Happ, <- IH.
  destruct (last_in segs k) as [[[s' o] v]|]; [done|]. cbn. rewrite <- (last_at_last_puts 0).
  by destruct (last_at 0 k rs) as [[o v]|].
Qed.

Lemma scan_listing dp segs d fuel m b :
  segments_on dp segs d → Forall (λ sr, length sr.2 < fuel)%nat segs →
  ∃ m' b', scan_segments fuel (map (λ sr, segment_path dp sr.1) segs) m b d = Some (Ok (m', b')) ∧
    (∀ x, bloom_check b x = true → bloom_check b' x = true) ∧
    ∀ k, match last_in segs k with
         | Some (s, o, v) => m' !! k = Some (scanned s o k v) ∧ bloom_check b' (bloom_key k) = true
         | None => m' !! k = m !! k
         end.
Proof.
  intros Hon Hf. revert m b. induction Hon as [|[s rs] segs (Hs & Hfile & Hlen & Hwf) _ IH]; intros m b.
  { by exists m, b. }
  inversion Hf as [|? ? Hf1 Hf2]; subst. cbn [map scan_segments fst snd] in *.
  unfold scan_segment. rewrite Hfile, segment_of_segment_path by done.
  pose proof (scan_loop_records CompressionNone s rs [] m b fuel Hwf Hlen Hf1) as Hscan.
  change (zlen []) with 0 in Hscan. cbn [app] in Hscan. rewrite Hscan.
  destruct (IH Hf2 (scan_index CompressionNone s 0 rs m) (scan_bloom rs b)) as (m' & b' & E & Hb & Hk).
  exists m', b'. split; [done|]. destruct (scan_bloom_spec rs b) as [B1 B2]. split; [auto|].
  intros k. specialize (Hk k). cbn [last_in]. destruct (last_in segs k) as [[[s' o] v]|]; [done|].
  rewrite scan_index_lookup in Hk. destruct (last_at 0 k rs) as [[o v]|] eqn:E0; cbn; [|done].
  split; [done|]. apply last_at_split in E0 as [_ Hin]. apply Hb. by apply (B2 k v).
Qed.

Lemma last_in_found dp segs d k s o v :
  segments_on dp segs d → last_in segs k = Some (s, o, v) →
  ∃ rs, (s, rs) ∈ segs ∧ last_at 0 k rs = Some (o, v).
Proof.
  intros Hon. induction Hon as [|[s1 rs1] segs _ _ IH]; [done|]. cbn [last_in].
  destruct (last_in segs k) as [[[s2 o2] v2]|].
  - intros [= -> -> ->]. destruct IH as (rs & Hin & Hl); [done|]. exists rs.
    split; [by apply list_elem_of_further|done].
  - destruct (last_at 0 k rs1) as [[o1 v1]|] eqn:E; [|done]. intros [= -> -> ->].
    exists rs1. split; [apply list_elem_of_here|done].
Qed.

(** C33. A rebuilt index follows the listing, not the writes: whatever number of
    intact segment files a data directory has (each a sequence of whole,
    well-formed, uncompressed records), rebuilding succeeds, and a store with the rebuilt index
    returns for each key the value of the record visited last, in the order in
    which the file system lists the segments.  When a later segment is listed
    before an earlier one, keys that are in both get their old value back. *)
Theorem rebuild_follows_listing segs st d fuel b :
  data_path st ∈ dirs d →
  blob_files (data_path st) d = map (λ sr, segment_path (data_path st) sr.1) segs →
  segments_on (data_path st) segs d → Forall (λ sr, length sr.2 < fuel)%nat segs →
  ∃ m' b', rebuild_index_from_segments fuel ∅ b (data_path st) d = Some (Ok (m', b')) ∧
    (index st = m' → bloom st = b' →
     ∀ now key, get now key st d = Ok (last_puts (concat (map snd segs)) !! key)).
Proof.
  intros Hdir Hlist Hon Hf. unfold rebuild_index_from_segments.
  assert (is_dir d (data_path st) = true) as -> by (by unfold is_dir; rewrite bool_decide_true). cbn [negb].
  rewrite Hlist. destruct (scan_listing _ segs d fuel ∅ b Hon Hf) as (m' & b' & E & _ & Hk).
  exists m', b'. split; [done|]. intros Hm Hb now key. rewrite <- last_in_value. specialize (Hk key).
  unfold get. rewrite Hm, Hb. destruct (last_in segs key) as [[[s o] v]|] eqn:El.
  - destruct Hk as [Hm' Hbl]. rewrite Hbl. cbn [negb].
    assert (get_if_valid now key m' = Some (scanned s o key v)) as -> by (by apply get_if_valid_Some).
    destruct (last_in_found _ segs d key s o v Hon El) as (rs & Hin & Hl).
    pose proof (proj1 (Forall_forall _ _) Hon _ Hin) as (Hs & Hfile & Hlen & Hwf).
    apply last_at_split in Hl as ((pre & post & Hseg & Ho) & Hkv).
    pose proof (proj1 (Forall_forall _ _) Hwf (key, v) Hkv) as Hw. cbn in Hw.
    rewrite (read_blob_record _ (scanned s o key v) d pre post CompressionNone key v); [done|..].
    + cbn. by rewrite Hfile, Hseg.
    + cbn. lia.
    + rewrite Hseg, !zlen_app in Hlen. pose proof (zlen_nonneg pre). pose proof (zlen_nonneg post).
      pose proof (zlen_nonneg (blob_record CompressionNone key v)). unfold seek_ok. cbn. lia.
    + done.
  - destruct (negb _); [done|]. unfold get_if_valid. rewrite Hk, lookup_empty. by destruct (is_expired _ _ _).
Qed.
End rebuild.

(** ** Witness: the newer segment is listed first, and the old value returns *)
#[local] Existing Instances crc32_ieee toy_blake3 toy_lz4 toy_bloom lower_hex sorted_iter plain_read_dir.

Definition ex_listing : list (Z * list (string * bytes)) :=
  [(1, [("k", [x02])]); (0, [("k", [x01])])]%string.
Definition ex_two_segments : Disk :=
  mkDisk {[segment_path ["data"] 0 := mkFile (segment_bytes CompressionNone [("k", [x01])]) [];
           segment_path ["data"] 1 := mkFile (segment_bytes CompressionNone [("k", [x02])]) [] ]}
         {[ ["data"]; segment_dir ["data"] 0; segment_dir ["data"] 1; ["data"; "00"]; ["data"; "01"] ]}.
Definition ex_rebuilt : option (Index * Bloom) :=
  match rebuild_index_from_segments 5 ∅ bloom_new ["data"] ex_two_segments with
  | Some (Ok r) => Some r
  | _ => None
  end.
Definition ex_reopened : BlobStore :=
  match ex_rebuilt with
  | Some (m, b) => mkStore ["data"] m b (wal ex_store) 1 0 Always CompressionNone
  | None => ex_store
  end.
Lemma rebuild_follows_listing_witness : get 0 "k" ex_reopened ex_two_segments = Ok (Some [x01]).
Proof.
  destruct (rebuild_follows_listing ex_listing ex_reopened ex_two_segments 5 bloom_new) as (m & b & E & H).
  - apply (bool_decide_unpack _). vm_compute. exact I.
  - vm_compute. reflexivity.
  - repeat constructor; vm_compute; try reflexivity; discriminate.
  - repeat constructor; vm_compute; lia.
  - assert (ex_rebuilt = Some (m, b)) as HR.
    { unfold ex_rebuilt. change (data_path ex_reopened) with (["data"]%string) in E. by rewrite E. }
    assert (index ex_reopened = m) as H1 by (unfold ex_reopened; by rewrite HR).
    assert (bloom ex_reopened = b) as H2 by (unfold ex_reopened; by rewrite HR).
    exact (H H1 H2 0 "k"%string).
Defined.
