(* ===== verification/Crash.v ===== *)
(** * Power failures

    What [BlobStore::open] of [src/volume/blob.rs] finds after a power failure:
    of every file all that was synced and any part of what was appended after
    it.  (New directory entries are taken to survive; the code does not sync
    directories.) *)

From Stdlib Require Import ZArith Lia.
From Stdlib.Strings Require Import Byte.
From stdpp Require Import base option list gmap strings.
From S2P Require Import Prelude Bytes Text Errors Fs External Config Wal Hash Index Segment Blob.
From S2P Require Import Recovery.

(** The disk after a power failure. *)
Definition crashed (d d' : Disk) : Prop :=
  dirs d' = dirs d ∧
  ∀ p, match files d !! p with
       | Some f => ∃ c, files d' !! p = Some (mkFile c c) ∧ crash_of f c
       | None => files d' !! p = None
       end.

Section crash.
Context {CRC : Crc32Fast} {B3 : Blake3} {LZ : Lz4} {BF : BloomFilter} {HX : Hex}
  {HI : HashIter} {RD : ReadDir}.

(** ** A record that was cut off *)
Lemma zlen_drop_lt {A} (l : list A) pos n : zlen l < pos + n → 0 ≤ pos → 0 < n → zlen (drop (Z.to_nat pos) l) < n.
Proof. unfold zlen. rewrite length_drop. lia. Qed.

(** Reading [x] from a file in which the end, [rest], is missing. *)
Lemma cut_read bs rest x y n :
  bs ++ rest = x ++ y → zlen x = n →
  read_exact n bs = Err (Io UnexpectedEof) ∧ zlen bs < n ∨
  ∃ b, read_exact n bs = Ok (x, b) ∧ bs = x ++ b ∧ b ++ rest = y.
Proof.
  intros E Hn. destruct (Z.ltb_spec (zlen bs) n) as [Hlt|Hge].
  - left. split; [|done]. unfold read_exact. by rewrite (proj2 (take_exact_None _ _)).
  - right. unfold zlen in *. apply app_eq_inv in E as [(k & -> & ->)|(k & -> & ->)].
    + exists k. split; [by apply read_exact_app|done].
    + rewrite length_app in Hn. assert (k = []) as -> by (destruct k; simpl in *; [done|lia]).
      exists []. rewrite !app_nil_r in *. split; [|done].
      pose proof (read_exact_app bs [] n) as H. rewrite app_nil_r in H. apply H. unfold zlen. simpl in Hn. lia.
Qed.

Lemma scan_step_torn pre tail rest key value seg offset m b :
  tail ++ rest = blob_record CompressionNone key value → rest ≠ [] → wf_blob key value = true →
  zlen (pre ++ blob_record CompressionNone key value) < 2 ^ 63 →
  scan_step (pre ++ tail) seg (zlen pre) offset m b =
  if zlen tail <? 4 then Ok None else Err (Io UnexpectedEof).
Proof.
  intros Hrec Hrest Hwf Hlen. pose proof (wf_lengths_record CompressionNone key value Hwf) as (Hk & Hv & Ho).
  assert (zlen tail < zlen (blob_record CompressionNone key value)) as Hshort.
  { rewrite <- Hrec, zlen_app. destruct rest; [done|]. rewrite zlen_cons. pose proof (zlen_nonneg rest). lia. }
  rewrite zlen_app in Hlen. rewrite zlen_blob_record, compress_none in *. cbn [fst] in *.
  set (pos := zlen pre + 4 + 4 + 8 + 8 + str_len key + zlen value).
  assert (zlen (pre ++ tail) < pos + 4) as Hend by (rewrite zlen_app; unfold pos; lia).
  unfold scan_step. rewrite drop_zlen by done.
  destruct (Z.ltb_spec (zlen tail) 4) as [H4|H4]; [by rewrite (proj2 (take_exact_None _ _))|].
  unfold blob_record, blob_bytes, blob_body in Hrec. rewrite compress_none, <- !app_assoc in Hrec.
  destruct (cut_read _ _ _ _ 4 Hrec) as [[_ ?]|(b0 & E0 & -> & H0)]; [done|lia|].
  rewrite (take_exact_app BLOB_MAGIC) by done. cbn -[read_exact u32_le u64_le Z.add Z.to_nat].
  destruct (cut_read _ _ _ _ 4 H0) as [[-> _]|(b1 & -> & -> & H1)]; [apply zlen_u32_le|done|]. cbn [rbind].
  destruct (cut_read _ _ _ _ 8 H1) as [[-> _]|(b2 & -> & -> & H2)]; [apply zlen_u64_le|done|]. cbn [rbind].
  destruct (cut_read _ _ _ _ 8 H2) as [[-> _]|(b3 & -> & -> & H3)]; [apply zlen_u64_le|done|]. cbn [rbind].
  rewrite !from_u32_le_small, !from_u64_le_small by lia.
  destruct (cut_read _ _ _ _ (str_len key) H3) as [[-> _]|(b4 & -> & -> & H4')]; [done|done|]. cbn [rbind].
  pose proof (zlen_nonneg pre). pose proof (zlen_nonneg value).
  assert (as_i64 (zlen value) = zlen value) as ->.
  { unfold as_i64. rewrite Z.mod_small by lia. by rewrite (proj2 (Z.ltb_lt _ _)) by lia. }
  fold pos. assert (seek_ok pos = true) as -> by (unfold seek_ok, pos; lia). cbn [negb].
  unfold read_exact. rewrite (proj2 (take_exact_None _ _)); [done|].
  apply zlen_drop_lt; [exact Hend|unfold pos; lia|lia].
Qed.
(** A part of a segment: whole records, and a proper part of the next one. *)
Lemma segment_cut c rs :
  c `prefix_of` segment_bytes CompressionNone rs →
  ∃ rs1 rs2 tail, rs = rs1 ++ rs2 ∧ c = segment_bytes CompressionNone rs1 ++ tail ∧
    match rs2 with
    | [] => tail = []
    | (key, value) :: _ => ∃ rest, tail ++ rest = blob_record CompressionNone key value ∧ rest ≠ []
    end.
Proof.
  revert c. induction rs as [|[key value] rs IH]; intros c Hc.
  { apply prefix_nil_inv in Hc as ->. by exists [], [], []. }
  rewrite segment_bytes_cons in Hc. destruct Hc as [more Hc]. symmetry in Hc.
  apply app_eq_inv in Hc as [(k & -> & Hk)|(k & Hk & ->)].
  - destruct (IH k) as (rs1 & rs2 & tail & -> & -> & Ht); [by exists more|].
    exists ((key, value) :: rs1), rs2, tail. rewrite segment_bytes_cons, <- app_assoc. done.
  - destruct k as [|x k].
    + rewrite app_nil_r in Hk. exists [(key, value)], rs, []. rewrite segment_bytes_cons, <- Hk.
      change (segment_bytes CompressionNone []) with (@nil byte). rewrite !app_nil_r.
      split; [done|]. split; [done|]. destruct rs as [|[k' v'] rs]; [done|].
      eexists. split; [done|]. apply blob_record_nonempty.
    + exists [], ((key, value) :: rs), c. split; [done|]. split; [done|]. exists (x :: k). done.
Qed.

(** What the scan makes of it. *)
Lemma scan_loop_cut rs1 key value tail rest fuel m b :
  tail ++ rest = blob_record CompressionNone key value → rest ≠ [] →
  Forall (λ '(k, v), wf_blob k v = true) (rs1 ++ [(key, value)]) →
  zlen (segment_bytes CompressionNone (rs1 ++ [(key, value)])) < 2 ^ 63 → (length rs1 < fuel)%nat →
  scan_loop fuel (segment_bytes CompressionNone rs1 ++ tail) 0 0 0 m b =
  Some (if zlen tail <? 4
        then Ok (scan_index CompressionNone 0 0 rs1 m, scan_bloom rs1 b)
        else Err (Io UnexpectedEof)).
Proof.
  intros Hrec Hrest [Hwf1 [Hwf2 _]%Forall_cons]%Forall_app Hlen Hfuel. rewrite segment_bytes_snoc in Hlen.
  assert (zlen ([] ++ segment_bytes CompressionNone rs1) < 2 ^ 63) as Hlen1.
  { rewrite zlen_app in Hlen. pose proof (zlen_nonneg (blob_record CompressionNone key value)). simpl. lia. }
  replace fuel with (length rs1 + S (fuel - length rs1 - 1))%nat by lia.
  pose proof (scan_loop_skip CompressionNone 0 rs1 [] tail m b (S (fuel - length rs1 - 1)) Hwf1 Hlen1) as H.
  change (zlen []) with 0 in H. cbn [app] in H. rewrite H. cbn [scan_loop].
  rewrite (scan_step_torn _ tail rest key value); [by destruct (zlen tail <? 4)|done|done|exact Hwf2|done].
Qed.

Lemma scan_segments_error fuel ps c b d e p :
  Forall (λ q, q = p) ps → ps ≠ [] → file_at d p = Some c → segment_of_path p = 0 →
  scan_loop fuel c 0 0 0 ∅ b = Some (Err e) → scan_segments fuel ps ∅ b d = Some (Err e).
Proof.
  intros Hps Hne Hf Hseg Hscan. destruct Hps as [|q ps -> _]; [done|]. cbn [scan_segments].
  unfold scan_segment. by rewrite Hf, Hseg, Hscan.
Qed.
(** ** The data directory after a power failure *)
Lemma crashed_lone dp c d d' :
  lone_disk dp c d → crashed d d' →
  ∃ c', lone_disk dp c' d' ∧ c' `prefix_of` c ∧ (synced (segment_path dp 0) d → c' = c).
Proof.
  intros [L1 L2 L3 L4] [Hd Hf].
  assert (∀ q, is_Some (files d' !! q) ↔ is_Some (files d !! q)) as Hsome.
  { intros q. specialize (Hf q). destruct (files d !! q); [|by rewrite Hf].
    destruct Hf as (x & -> & _). split; by eexists. }
  exists (unwrap_or [] (file_at d' (segment_path dp 0))).
  assert (unwrap_or [] (file_at d' (segment_path dp 0)) `prefix_of` c ∧
    (synced (segment_path dp 0) d → unwrap_or [] (file_at d' (segment_path dp 0)) = c)) as [Hpre Hsync].
  { specialize (Hf (segment_path dp 0)). unfold synced, file_at in *.
    destruct (files d !! segment_path dp 0) as [f|]; simpl in L1.
    - destruct Hf as (x & -> & Hx1 & Hx2). simpl. subst c. split; [done|]. intros [= E].
      rewrite E in Hx1. by apply (anti_symm prefix).
    - rewrite Hf. simpl. subst c. done. }
  split; [|done]. split; [done|..].
  - intros Hne. destruct L2 as [D F].
    + intros ->. by apply prefix_nil_inv in Hpre.
    + split; [|by apply Hsome]. unfold has_segment_dir. by rewrite Hd.
  - intros q Hq H. by apply L3, Hsome.
  - intros q Hq. rewrite Hd. by apply L4.
Qed.

Lemma open_cut dp wal_dir pol rs1 rs2 tail d fuel :
  lone_disk dp (segment_bytes CompressionNone rs1 ++ tail) d → ¬ dp `prefix_of` (wal_dir ++ ["wal.log"]) →
  match rs2 with
  | [] => tail = []
  | (key, value) :: _ => ∃ rest, tail ++ rest = blob_record CompressionNone key value ∧ rest ≠ []
  end →
  Forall (λ '(k, v), wf_blob k v = true) (rs1 ++ rs2) →
  zlen (segment_bytes CompressionNone (rs1 ++ rs2)) < 2 ^ 63 → (length rs1 < fuel)%nat →
  if zlen tail <? 4
  then ∃ st' d', open_store fuel dp wal_dir pol d = (d', Some (Ok st')) ∧
         ∀ now key, get now key st' d' = Ok (last_puts rs1 !! key)
  else ∃ d', open_store fuel dp wal_dir pol d = (d', Some (Err (Io UnexpectedEof))) ∧
         lone_disk dp (segment_bytes CompressionNone rs1 ++ tail) d'.
Proof.
  intros L Hapart Htail Hwf Hlen Hfuel. set (c := segment_bytes CompressionNone rs1 ++ tail) in *.
  assert (Forall (λ '(k, v), wf_blob k v = true) rs1) as Hwf1 by by apply Forall_app in Hwf as [? _].
  assert (zlen (segment_bytes CompressionNone rs1) < 2 ^ 63) as Hlen1.
  { rewrite segment_bytes_app, zlen_app in Hlen. pose proof (zlen_nonneg (segment_bytes CompressionNone rs2)). lia. }
  assert (∀ m b, scan_loop fuel c 0 0 0 m b =
    Some (if zlen tail <? 4 then Ok (scan_index CompressionNone 0 0 rs1 m, scan_bloom rs1 b)
          else Err (Io UnexpectedEof))) as Hscan.
  { intros m b. destruct rs2 as [|[key value] rs2].
    - unfold c. subst tail. rewrite app_nil_r. by apply scans_as_records.
    - destruct Htail as (rest & Hrec & Hrest).
      replace (rs1 ++ (key, value) :: rs2) with ((rs1 ++ [(key, value)]) ++ rs2) in * by by rewrite <- app_assoc.
      rewrite segment_bytes_app, zlen_app in Hlen. pose proof (zlen_nonneg (segment_bytes CompressionNone rs2)).
      apply Forall_app in Hwf as [Hwf _]. apply (scan_loop_cut rs1 key value tail rest); [done|done|done|lia|done]. }
  destruct (zlen tail <? 4) eqn:E4.
  - destruct (open_lone_ok dp wal_dir pol c rs1 d fuel L Hapart Hscan) as
      (st' & d' & E & P & _ & _ & _ & _ & L' & Hs & _).
    { unfold c. intros [? _]%app_nil. by apply segment_bytes_nil. }
    exists st', d'. split; [done|]. intros now key.
    apply (scanned_get rs1 tail); [by rewrite P|done|done|done].
  - destruct (open_lone dp wal_dir pol c d fuel L Hapart) as (b & w & d1 & L1 & _ & _ & _ & ->).
    exists d1. apply Z.ltb_ge in E4. destruct (lone_blob_files dp c d1 L1) as [Hall Hne].
    assert (c ≠ []) as Hc by (unfold c; intros [_ ->]%app_nil; by vm_compute in E4).
    rewrite (scan_segments_error fuel (blob_files dp d1) c b d1 (Io UnexpectedEof) (segment_path dp 0));
      [by split|done|by apply Hne| |by apply segment_of_segment_path|done].
    destruct (lone_there _ _ _ L1 Hc) as [_ [f Hf]]. pose proof (lone_content _ _ _ L1) as Hcont.
    unfold file_at in *. rewrite Hf in *. simpl in *. by rewrite Hcont.
Qed.

(** ** Properties *)

(** C2. A power failure between two operations of a store that was opened on an
    empty directory, where the records of its puts (without TTL, compression
    off) fit one segment of 64 MiB and no snapshot was saved: of the puts a
    prefix survives, and under the policy [Always] all of them.  If the data end at
    the end of a record, or less than four bytes into the next, the store opens
    and returns for every key the last value that survived; but if they end
    further inside a record, it does not open at all: [open] returns the end of
    file that the scan of the segment runs into. *)
Theorem store_crash dp wal_dir pol d ops fuel :
  fresh_disk dp wal_dir d →
  Forall (λ o, wf_op o = true) ops → zlen ops < 2 ^ 64 →
  zlen (segment_bytes CompressionNone (puts_of ops)) ≤ SEGMENT_SIZE → (length ops < fuel)%nat →
  ∃ st0 d0 st1 d1,
    open_store fuel dp wal_dir pol d = (d0, Some (Ok st0)) ∧
    store_run ops (st0, d0) = ((st1, d1), Ok tt) ∧
    ∀ d2, crashed d1 d2 →
    ∃ rs1 rs2 tail, puts_of ops = rs1 ++ rs2 ∧
      unwrap_or [] (file_at d2 (segment_path dp 0)) = segment_bytes CompressionNone rs1 ++ tail ∧
      (pol = Always → rs1 = puts_of ops ∧ tail = []) ∧
      if zlen tail <? 4
      then ∃ st3 d3, open_store fuel dp wal_dir pol d2 = (d3, Some (Ok st3)) ∧
             ∀ now key, get now key st3 d3 = Ok (last_puts rs1 !! key)
      else ∃ d3, open_store fuel dp wal_dir pol d2 = (d3, Some (Err (Io UnexpectedEof))).
Proof.
  intros Hfresh Hops Hn Hfit Hfuel. destruct (puts_of_wf ops Hops) as [Hwf Hlen].
  destruct (fresh_run dp wal_dir pol d ops fuel Hfresh ltac:(lia) Hops Hn Hfit)
    as (st0 & d0 & es1 & st1 & d1 & E0 & E1 & L1 & P1 & Y1 & _).
  exists st0, d0, st1, d1. split; [done|]. split; [done|]. intros d2 Hcrash.
  pose proof (lone_on _ _ _ _ L1) as LD. pose proof (lone_synced _ _ _ _ L1) as LS. rewrite P1, Y1 in *.
  destruct (crashed_lone _ _ _ _ LD Hcrash) as (c & Lc & Hpre & Hsync).
  assert (∃ rs1 rs2 tail, (puts_of ops = rs1 ++ rs2 ∧ c = segment_bytes CompressionNone rs1 ++ tail ∧
    match rs2 with
    | [] => tail = []
    | (key, value) :: _ => ∃ rest, tail ++ rest = blob_record CompressionNone key value ∧ rest ≠ []
    end) ∧ (pol = Always → rs1 = puts_of ops ∧ tail = [])) as (rs1 & rs2 & tail & (Hrs & -> & Ht) & Hal).
  { destruct (decide (pol = Always)) as [Hp|Hp].
    - exists (puts_of ops), [], []. rewrite !app_nil_r. rewrite (Hsync (LS Hp)). done.
    - destruct (segment_cut c (puts_of ops) Hpre) as (rs1 & rs2 & tail & H). by exists rs1, rs2, tail. }
  exists rs1, rs2, tail. split; [done|]. split; [by rewrite (lone_content _ _ _ Lc)|]. split; [done|].
  unfold SEGMENT_SIZE in Hfit. rewrite Hrs in *. rewrite length_app in Hlen.
  pose proof (open_cut dp wal_dir pol rs1 rs2 tail d2 fuel Lc (proj2 (proj2 Hfresh)) Ht Hwf
    ltac:(lia) ltac:(lia)) as Ho.
  destruct (zlen tail <? 4); [done|]. destruct Ho as (d3 & E3 & _). eauto.
Qed.

(** ** A power failure inside a put *)
(** The disk of a put just before the [sync_all] of its record: the log has the
    entry, the writer of the segment is flushed. *)
Definition put_unsynced (key : string) (value : bytes) (s : BlobStore * Disk) : Disk :=
  let '((st, d), _) := on_wal (append_put key value) s in
  (write_blob_to_segment (compression st) Never (data_path st) (current_segment st) (current_offset st)
     key value d).1.

(** The [k]+1-th attempt to open the store, each on the disk that the attempt
    before has left. *)
Fixpoint open_attempt (k : nat) (fuel : nat) (dp wal_dir : path) (pol : WalSyncPolicy) (d : Disk)
    : Disk * option (Result BlobStore) :=
  match k with
  | O => open_store fuel dp wal_dir pol d
  | S k => open_attempt k fuel dp wal_dir pol (open_store fuel dp wal_dir pol d).1
  end.

(** Writing makes nothing durable. *)
Definition durable_at (d : Disk) (q : path) : bytes := unwrap_or [] (durable <$> files d !! q).

Lemma durable_set_content p c d q : durable_at (set_content p c d) q = durable_at d q.
Proof.
  unfold durable_at, set_content. simpl. destruct (decide (q = p)) as [->|]; [|by rewrite lookup_insert_ne].
  rewrite lookup_insert_eq. by destruct (files d !! p).
Qed.
Lemma durable_raw_write data w d q : durable_at (raw_write data w d).2 q = durable_at d q.
Proof.
  unfold raw_write, write_at. destruct (bw_mode w); simpl; destruct (file_at d (bw_path w)); [|done| |done];
    apply durable_set_content.
Qed.
Lemma durable_bw_flush wd q : durable_at (bw_flush wd).2 q = durable_at wd.2 q.
Proof.
  destruct wd as [w d]. unfold bw_flush. pose proof (durable_raw_write (bw_buf w) w d q).
  by destruct (raw_write (bw_buf w) w d).
Qed.
Lemma durable_bw_write_all data wd q : durable_at (bw_write_all data wd).2 q = durable_at wd.2 q.
Proof.
  destruct wd as [w d]. unfold bw_write_all. destruct (_ <? _); [done|].
  pose proof (durable_bw_flush (w, d) q) as Hf. cbn [snd] in *.
  destruct (BUF_CAPACITY - _ <? _); [destruct (bw_flush (w, d)) as [w1 d1]|]; destruct (_ <=? _); cbn [snd] in *;
    rewrite ?durable_raw_write; done.
Qed.

Lemma write_unsynced compression base seg off key value d :
  seek_ok off = true →
  let r := write_blob_to_segment compression Never base seg off key value d in
  durable_at r.1 (segment_path base seg) = durable_at d (segment_path base seg) ∧
  write_blob_to_segment compression Always base seg off key value d =
    (sync_all (segment_path base seg) r.1, r.2).
Proof.
  intros Hoff. unfold write_blob_to_segment. rewrite Hoff. cbn [negb].
  destruct (compress_value compression value) as [wv c].
  set (d0 := open_create _ _). set (wd := bw_write_all _ _).
  assert (durable_at (bw_flush wd).2 (segment_path base seg) = durable_at d (segment_path base seg)) as Hd.
  { unfold wd. rewrite durable_bw_flush, !durable_bw_write_all. unfold d0, open_create. cbn [snd].
    destruct (files (create_dir_all _ d) !! _); rewrite ?durable_set_content; reflexivity. }
  by destruct (bw_flush wd) as [w' d'].
Qed.

Lemma open_attempts_fail dp wal_dir pol rs key value tail rest d fuel k :
  lone_disk dp (segment_bytes CompressionNone rs ++ tail) d → ¬ dp `prefix_of` (wal_dir ++ ["wal.log"]) →
  tail ++ rest = blob_record CompressionNone key value → rest ≠ [] → 4 ≤ zlen tail →
  Forall (λ '(k, v), wf_blob k v = true) (rs ++ [(key, value)]) →
  zlen (segment_bytes CompressionNone (rs ++ [(key, value)])) < 2 ^ 63 → (length rs < fuel)%nat →
  (open_attempt k fuel dp wal_dir pol d).2 = Some (Err (Io UnexpectedEof)).
Proof.
  intros L Ha Hrec Hrest H4 Hwf Hlen Hfuel. revert d L. induction k as [|k IH]; intros d L;
    pose proof (open_cut dp wal_dir pol rs [(key, value)] tail d fuel L Ha (ex_intro _ rest (conj Hrec Hrest))
      Hwf Hlen Hfuel) as Ho; rewrite (proj2 (Z.ltb_ge _ _) H4) in Ho; destruct Ho as (d' & E & L'); cbn [open_attempt];
    rewrite E; [done|]. by apply IH.
Qed.

Lemma record_long key value : (28 ≤ length (blob_record CompressionNone key value))%nat.
Proof.
  pose proof (zlen_blob_record CompressionNone key value) as H. rewrite compress_none in H. unfold zlen, str_len in H.
  cbn [fst] in H. pose proof (zlen_nonneg (as_bytes key)). unfold zlen in *. lia.
Qed.

Lemma put_segment_bound ops key value :
  wf_op (Put key value) = true → zlen (segment_bytes CompressionNone (puts_of ops)) ≤ SEGMENT_SIZE →
  zlen (segment_bytes CompressionNone (puts_of ops ++ [(key, value)])) < 2 ^ 63.
Proof.
  intros Hput Hfit. rewrite segment_bytes_snoc, zlen_app, zlen_blob_record, compress_none. cbn [fst].
  unfold wf_op in Hput. simpl in Hput. rewrite !andb_true_iff, !is_u32_spec in Hput. unfold SEGMENT_SIZE in Hfit. lia.
Qed.

(** What the disk of a put has before the record is synced. *)
Lemma unsynced_lone es rs st d key value :
  lone_segment es rs st d → sync_policy st = Always → wf_op (Put key value) = true → zlen es + 1 < 2 ^ 64 →
  zlen (segment_bytes CompressionNone rs) ≤ SEGMENT_SIZE →
  let p := segment_path (data_path st) 0 in
  let before := put_unsynced key value (st, d) in
  (∀ now, ∃ st', put now key value (st, d) = ((st', sync_all p before), Ok tt)) ∧
  lone_disk (data_path st) (segment_bytes CompressionNone (rs ++ [(key, value)])) before ∧
  durable_at before p = segment_bytes CompressionNone rs.
Proof.
  intros L Hpol Ho Hes Hfit p before. unfold before, put_unsynced, put, put_with_ttl.
  destruct (lone_append es rs st d (Put key value) L Ho Hes) as (w' & d1 & E1 & Hp & L1).
  cbn [append_op] in E1. rewrite E1. unfold pbind at 1. rewrite E1.
  unfold pbind at 1, on_store, pmodify at 1. cbn beta iota.
  pose (stN := mkStore (data_path st) (index st) (bloom st) w' (current_segment st) (current_offset st)
    Never (compression st)).
  assert (lone_segment (es ++ [mkEntry (zlen es) (Put key value)]) rs stN d1) as LN by (by destruct L1).
  destruct (lone_write _ rs stN d1 key value LN (wf_op_blob _ _ Ho) Hfit) as (d2 & loc & n & E2 & L2).
  destruct (lone_position _ _ _ _ L) as [P1 P2].
  assert (seek_ok (current_offset st) = true) as Hseek.
  { rewrite P2. pose proof (zlen_nonneg (segment_bytes CompressionNone rs)). unfold seek_ok, SEGMENT_SIZE in *. lia. }
  destruct (write_unsynced (compression st) (data_path st) (current_segment st) (current_offset st) key value d1 Hseek)
    as [Hd Hsync]. cbn [stN compression sync_policy data_path current_segment current_offset] in E2.
  rewrite E2 in Hd, Hsync. cbn [fst snd] in Hd, Hsync. cbn [with_wal compression data_path current_segment current_offset].
  rewrite E2. cbn [fst]. split; [|split].
  - intros now. unfold pbind at 1, write_blob, pbind. cbn [current_offset with_bloom with_wal].
    rewrite (proj2 (Z.ltb_ge _ _)) by (rewrite P2; done).
    cbn [compression sync_policy data_path current_segment current_offset with_bloom with_wal].
    rewrite Hpol, Hsync. unfold p. rewrite <- P1. eauto.
  - apply (lone_on _ _ _ _ L2).
  - unfold p. rewrite <- P1, Hd. pose proof (lone_synced _ _ _ _ L1 Hpol) as Hs. pose proof (lone_on _ _ _ _ L1) as Hc.
    apply lone_content in Hc. unfold synced in Hs. unfold durable_at. cbn [data_path with_wal] in Hs, Hc.
    by rewrite P1, Hs.
Qed.

(** A power failure leaves what was there before and a part of the record. *)
Lemma crashed_cut dp old record before d2 :
  lone_disk dp (old ++ record) before → record ≠ [] → durable_at before (segment_path dp 0) = old →
  crashed before d2 →
  ∃ n, (n ≤ length record)%nat ∧ file_at d2 (segment_path dp 0) = Some (old ++ take n record) ∧
    lone_disk dp (old ++ take n record) d2.
Proof.
  intros L Hne Hold Hcr. destruct (crashed_lone _ _ _ _ L Hcr) as (c & Lc & Hpre & _).
  destruct (lone_there _ _ _ L) as [_ [f Hf]]; [by intros [_ ?]%app_nil|].
  destruct Hcr as [_ Hcr]. specialize (Hcr (segment_path dp 0)). unfold durable_at in Hold. rewrite Hf in Hold, Hcr.
  cbn in Hold. destruct Hcr as (c' & Hc' & Hdur & _).
  assert (c' = c) as -> by (pose proof (lone_content _ _ _ Lc) as H; unfold file_at in H; by rewrite Hc' in H).
  rewrite Hold in Hdur. destruct Hdur as [k ->]. apply prefix_app_inv in Hpre as [rest Hrest].
  exists (length k). rewrite Hrest, take_app_length, length_app. split; [lia|]. split; [|done].
  unfold file_at. by rewrite Hc'.
Qed.

(** ... and every part of the record can be what is left. *)
Lemma crashed_any dp old record before d2 n :
  lone_disk dp (old ++ record) before → record ≠ [] → durable_at before (segment_path dp 0) = old →
  crashed before d2 →
  ∃ d2', crashed before d2' ∧ file_at d2' (segment_path dp 0) = Some (old ++ take n record).
Proof.
  intros L Hne Hold [Hd Hcr]. set (p := segment_path dp 0) in *. set (c := old ++ take n record).
  exists (mkDisk (<[p := mkFile c c]> (files d2)) (dirs d2)).
  split; [|unfold file_at; simpl; by rewrite lookup_insert_eq]. split; [done|]. intros q. simpl.
  destruct (decide (q = p)) as [->|Hq]; [|rewrite lookup_insert_ne by done; apply Hcr].
  destruct (lone_there _ _ _ L) as [_ [f Hf]]; [by intros [_ ?]%app_nil|]. fold p in Hf. rewrite Hf.
  exists c. rewrite lookup_insert_eq. split; [done|]. pose proof (lone_content _ _ _ L) as Hcont. fold p in Hcont.
  unfold durable_at, file_at in *. rewrite Hf in Hold, Hcont. cbn in Hold, Hcont. split.
  - rewrite Hold. by apply prefix_app_r.
  - rewrite Hcont. unfold c. apply prefix_app. exists (drop n record). by rewrite take_drop.
Qed.

Lemma cut_inj (old record : bytes) n m :
  (n ≤ length record)%nat → (m ≤ length record)%nat →
  Some (old ++ take n record) = Some (old ++ take m record) → n = m.
Proof. intros Hn Hm [= H%app_inv_head%(f_equal length)]. rewrite !length_take in H. lia. Qed.

(** A power failure may leave everything that was written, if every file has at
    least what is durable of it. *)
Lemma crashed_all d :
  map_Forall (λ _ f, durable f `prefix_of` content f) (files d) →
  crashed d (mkDisk ((λ f, mkFile (content f) (content f)) <$> files d) (dirs d)).
Proof.
  intros H. split; [done|]. intros p. simpl. rewrite lookup_fmap.
  destruct (files d !! p) as [f|] eqn:E; [|done]. exists (content f). split; [done|]. split; [by apply (H p)|done].
Qed.

(** C39. A power failure inside a put, under the policy [Always]: take a store
    that was opened on an empty directory, where the records of its puts
    (without TTL, compression off) fit one segment and no snapshot was saved.
    When the power fails in a put before its record is synced, the segment has
    the records before it and the first bytes of the new one, and any number of
    bytes is possible.  With less than four bytes the store opens and has the
    old values; with the whole record it opens and has the new one too; with
    anything in between it does not open, however often it is tried, and none of
    the values that were put and synced before can be read. *)
Theorem torn_put_blocks_open dp wal_dir d ops fuel key value :
  fresh_disk dp wal_dir d →
  Forall (λ o, wf_op o = true) (ops ++ [Put key value]) → zlen ops + 1 < 2 ^ 64 →
  zlen (segment_bytes CompressionNone (puts_of ops)) ≤ SEGMENT_SIZE → (length ops + 1 < fuel)%nat →
  let p := segment_path dp 0 in
  let old := segment_bytes CompressionNone (puts_of ops) in
  let record := blob_record CompressionNone key value in
  ∃ st0 d0 st1 d1,
    open_store fuel dp wal_dir Always d = (d0, Some (Ok st0)) ∧
    store_run ops (st0, d0) = ((st1, d1), Ok tt) ∧
    let before := put_unsynced key value (st1, d1) in
    (∀ now, ∃ st2, put now key value (st1, d1) = ((st2, sync_all p before), Ok tt)) ∧
    ∀ d2, crashed before d2 →
      (∃ n, (n ≤ length record)%nat ∧ file_at d2 p = Some (old ++ take n record) ∧
        ((n < 4)%nat → ∃ st3 d3, open_store fuel dp wal_dir Always d2 = (d3, Some (Ok st3)) ∧
           ∀ now k, get now k st3 d3 = Ok (last_puts (puts_of ops) !! k)) ∧
        (n = length record → ∃ st3 d3, open_store fuel dp wal_dir Always d2 = (d3, Some (Ok st3)) ∧
           ∀ now k, get now k st3 d3 = Ok (last_puts (puts_of ops ++ [(key, value)]) !! k)) ∧
        ((4 ≤ n < length record)%nat →
           ∀ i, (open_attempt i fuel dp wal_dir Always d2).2 = Some (Err (Io UnexpectedEof)))) ∧
      (∀ n, (n ≤ length record)%nat →
        ∃ d2', crashed before d2' ∧ file_at d2' p = Some (old ++ take n record)).
Proof.
  intros Hfresh [Hops [Hput _]%Forall_cons]%Forall_app Hn Hfit Hfuel p old record.
  destruct (puts_of_wf ops Hops) as [Hwf Hlen].
  destruct (fresh_run dp wal_dir Always d ops fuel Hfresh ltac:(lia) Hops ltac:(lia) Hfit)
    as (st0 & d0 & es1 & st1 & d1 & E0 & E1 & L1 & P1 & Y1 & N1).
  exists st0, d0, st1, d1. split; [done|]. split; [done|].
  destruct (unsynced_lone es1 (puts_of ops) st1 d1 key value L1 Y1 Hput ltac:(lia) Hfit) as (Hs & Lb & Hdur).
  cbv zeta. rewrite P1 in Hs, Lb, Hdur. split; [exact Hs|]. intros d2 Hcr.
  rewrite segment_bytes_snoc in Lb. pose proof (blob_record_nonempty CompressionNone key value) as Hne.
  split; [|intros n _; by eapply crashed_any].
  destruct (crashed_cut _ _ _ _ _ Lb Hne Hdur Hcr) as (n & Hle & Hf & L2).
  exists n. split; [done|]. split; [done|]. fold old record in L2.
  pose proof (put_segment_bound ops key value Hput Hfit) as Hlong.
  assert (Forall (λ '(k, v), wf_blob k v = true) (puts_of ops ++ [(key, value)])) as Hwf2.
  { apply Forall_app. split; [done|]. constructor; [by apply wf_op_blob|constructor]. }
  assert (zlen (take n record) = Z.of_nat n) as Hz by (unfold zlen; rewrite length_take; fold record in Hle; lia).
  assert ((n < length record)%nat → take n record ++ drop n record = record ∧ drop n record ≠ []) as Hcut.
  { intros Hlt. rewrite take_drop. split; [done|]. intros E%(f_equal length).
    rewrite length_drop in E. cbn [length] in E. lia. }
  split; [|split].
  - intros H4. pose proof (open_cut dp wal_dir Always (puts_of ops) [(key, value)] (take n record) d2 fuel L2
      (proj2 (proj2 Hfresh))) as Ho. rewrite Hz, (proj2 (Z.ltb_lt (Z.of_nat n) 4)) in Ho by lia.
    apply Ho; [exists (drop n record); apply Hcut; pose proof (record_long key value); unfold record; lia|done|done|lia].
  - intros ->. rewrite firstn_all in L2. unfold old, record in L2. rewrite <- segment_bytes_snoc in L2.
    pose proof (open_cut dp wal_dir Always (puts_of ops ++ [(key, value)]) [] [] d2 fuel) as Ho.
    rewrite !app_nil_r in Ho. apply Ho; [done|apply Hfresh|done|done|done|]. rewrite length_app. simpl. lia.
  - intros [H4 Hlt] i. destruct (Hcut Hlt) as [C1 C2].
    apply (open_attempts_fail dp wal_dir Always (puts_of ops) key value (take n record) (drop n record));
      [done|apply Hfresh|done|done|lia|done|done|lia].
Qed.
End crash.

(** ** Witnesses *)
#[local] Existing Instances crc32_ieee toy_blake3 toy_lz4 toy_bloom lower_hex sorted_iter
  plain_read_dir.

Lemma fresh_empty : fresh_disk ["data"] ["wal"] (mkDisk ∅ ∅).
Proof.
  split; [intros q _; split; [reflexivity|]; set_solver|]. split; [reflexivity|]. intros [l [=]].
Qed.

Lemma store_crash_witness :
  ∃ st0 d0 st1 d1,
    open_store 10 ["data"] ["wal"] Always (mkDisk ∅ ∅) = (d0, Some (Ok st0)) ∧
    store_run ex_run (st0, d0) = ((st1, d1), Ok tt) ∧
    ∀ d2, crashed d1 d2 →
      ∃ st3 d3, open_store 10 ["data"] ["wal"] Always d2 = (d3, Some (Ok st3)) ∧
        get 0 "k1" st3 d3 = Ok (Some [x01]).
Proof.
  destruct (store_crash ["data"] ["wal"] Always (mkDisk ∅ ∅) ex_run 10)
    as (st0 & d0 & st1 & d1 & E0 & E1 & H).
  - apply fresh_empty.
  - repeat constructor.
  - reflexivity.
  - vm_compute. discriminate.
  - simpl. lia.
  - exists st0, d0, st1, d1. split; [exact E0|]. split; [exact E1|]. intros d2 Hc.
    destruct (H d2 Hc) as (rs1 & rs2 & tail & _ & _ & Hal & Ho).
    destruct (Hal eq_refl) as [-> ->]. destruct Ho as (st3 & d3 & E3 & Hg).
    exists st3, d3. split; [exact E3|]. exact (Hg 0 "k1"%string).
Defined.


Lemma ex_torn_solid :
  match open_store 10 ["data"] ["wal"] Always (mkDisk ∅ ∅) with
  | (d0, Some (Ok st0)) =>
      match store_run ex_run (st0, d0) with
      | ((st1, d1), _) =>
          bool_decide (map_Forall (λ _ f, durable f `prefix_of` content f) (files (put_unsynced "k3" [x04] (st1, d1))))
      end
  | _ => false
  end = true.
Proof. vm_compute. reflexivity. Qed.

Lemma torn_put_blocks_open_witness :
  ∃ st0 d0 st1 d1,
    open_store 10 ["data"] ["wal"] Always (mkDisk ∅ ∅) = (d0, Some (Ok st0)) ∧
    store_run ex_run (st0, d0) = ((st1, d1), Ok tt) ∧
    ∃ d2, crashed (put_unsynced "k3" [x04] (st1, d1)) d2 ∧
      (open_attempt 0 10 ["data"] ["wal"] Always d2).2 = Some (Err (Io UnexpectedEof)) ∧
      (open_attempt 5 10 ["data"] ["wal"] Always d2).2 = Some (Err (Io UnexpectedEof)).
Proof.
  destruct (torn_put_blocks_open ["data"] ["wal"] (mkDisk ∅ ∅) ex_run 10 "k3" [x04])
    as (st0 & d0 & st1 & d1 & E0 & E1 & _ & H).
  - apply fresh_empty.
  - repeat constructor.
  - reflexivity.
  - vm_compute. discriminate.
  - simpl. lia.
  - exists st0, d0, st1, d1. split; [exact E0|]. split; [exact E1|].
    assert (map_Forall (λ _ f, durable f `prefix_of` content f) (files (put_unsynced "k3" [x04] (st1, d1)))) as Hs.
    { pose proof ex_torn_solid as Hx. rewrite E0 in Hx. cbv beta iota in Hx. rewrite E1 in Hx. cbv beta iota in Hx.
      exact (bool_decide_eq_true_1 _ Hx). }
    destruct (H _ (crashed_all _ Hs)) as [_ Hany].
    destruct (Hany 7%nat) as (d2 & Hc & Hf); [vm_compute; lia|]. exists d2. split; [exact Hc|].
    destruct (H d2 Hc) as [(n & Hn & Hfn & _ & _ & Hfail) _].
    assert (7 ≤ length (blob_record CompressionNone "k3" [x04]))%nat as H7 by (vm_compute; lia).
    rewrite Hf in Hfn. pose proof (cut_inj _ _ _ _ H7 Hn Hfn) as H7n. rewrite <- H7n in Hfail.
    assert (4 ≤ 7 < length (blob_record CompressionNone "k3" [x04]))%nat as Hr by (vm_compute; lia).
    split; [exact (Hfail Hr 0%nat)|exact (Hfail Hr 5%nat)].
Defined.
