(* ===== verification/Utils.v ===== *)
(** * Utilities

    [src/common/utils.rs]: node states, key validation, durations, retries and
    upload identifiers.  ([encode_key], [decode_key] and [format_bytes] are in
    [Encode].) *)

From Stdlib Require Import ZArith Lia.
From Stdlib.Strings Require Import Byte.
From stdpp Require Import base option list gmap strings.
From S2P Require Import Prelude Bytes Text Errors.

(** ** Node states *)
Inductive NodeState := Alive | Suspect | Dead | Draining.

Definition is_healthy (s : NodeState) : bool := match s with Alive => true | _ => false end.
Definition can_write (s : NodeState) : bool := match s with Alive => true | _ => false end.
Definition can_read (s : NodeState) : bool :=
  match s with Alive | Draining => true | _ => false end.
Definition node_state_to_string (s : NodeState) : string :=
  match s with
  | Alive => "alive" | Suspect => "suspect" | Dead => "dead" | Draining => "draining"
  end.

(** ** The clock

    [SystemTime::now()] as nanoseconds since the epoch; before the epoch
    [duration_since] fails and [unwrap] panics. *)
Definition since_epoch (nanos : Z) : may_panic Z := if nanos <? 0 then Panics else Returns nanos.
Definition timestamp_now (nanos : Z) : may_panic Z :=
  mp_bind (since_epoch nanos) (λ d, Returns (d / 10 ^ 9)).
Definition timestamp_now_millis (nanos : Z) : may_panic Z :=
  mp_bind (since_epoch nanos) (λ d, Returns (wrap64 (d / 10 ^ 6))).

(** ** Keys *)

(** [key.chars().any(|c| c.is_control())]: U+0000-001F, U+007F and U+0080-009F,
    the last ones being [C2 80] to [C2 9F] in UTF-8. *)
Fixpoint has_control (bs : bytes) : bool :=
  match bs with
  | [] => false
  | b :: bs =>
      (Z_of_byte b <? 32) || (Z_of_byte b =? 127) ||
      ((Z_of_byte b =? 194) && match bs with c :: _ => in_range 128 159 c | [] => false end) ||
      has_control bs
  end.

Definition validate_key (key : string) : Result unit :=
  if str_len key =? 0 then Err (InvalidConfig "key cannot be empty") else
  if 1024 <? str_len key then Err (InvalidConfig "key too long (max 1024 bytes)") else
  if has_control (as_bytes key) then Err (InvalidConfig "key contains invalid characters") else
  Ok tt.

(** ** Durations *)

(** The white space of [str::trim], as UTF-8 sequences. *)
Definition white_space : list bytes :=
  [[x09]; [x0a]; [x0b]; [x0c]; [x0d]; [x20]; [xc2; x85]; [xc2; xa0]; [xe1; x9a; x80];
   [xe2; x80; x80]; [xe2; x80; x81]; [xe2; x80; x82]; [xe2; x80; x83]; [xe2; x80; x84];
   [xe2; x80; x85]; [xe2; x80; x86]; [xe2; x80; x87]; [xe2; x80; x88]; [xe2; x80; x89];
   [xe2; x80; x8a]; [xe2; x80; xa8]; [xe2; x80; xa9]; [xe2; x80; xaf]; [xe2; x81; x9f];
   [xe3; x80; x80]].

Fixpoint strip_first (ps : list bytes) (bs : bytes) : option bytes :=
  match ps with
  | [] => None
  | p :: ps => match strip_prefix_bytes p bs with Some r => Some r | None => strip_first ps bs end
  end.
Fixpoint strip_all (fuel : nat) (ps : list bytes) (bs : bytes) : bytes :=
  match fuel with
  | O => bs
  | S fuel => match strip_first ps bs with Some r => strip_all fuel ps r | None => bs end
  end.
Definition trim_start (bs : bytes) : bytes := strip_all (length bs) white_space bs.
Definition trim_end (bs : bytes) : bytes :=
  rev (strip_all (length bs) (map (@rev byte) white_space) (rev bs)).
Definition trim (bs : bytes) : bytes := trim_end (trim_start bs).

(** The number and the unit: the suffix [ms], or the last byte, which must
    start a character for the slice not to panic. *)
Definition split_unit (s : bytes) : may_panic (bytes * bytes) :=
  match strip_prefix_bytes (rev (as_bytes "ms")) (rev s) with
  | Some r => Returns (rev r, as_bytes "ms")
  | None =>
      match rev s with
      | [] => Panics
      | b :: r => if Z_of_byte b <? 128 then Returns (rev r, [b]) else Panics
      end
  end.

(** A [Duration], in milliseconds.  The products of seconds wrap. *)
Definition parse_duration (input : string) : may_panic (Result Z) :=
  let s := trim (as_bytes input) in
  if zlen s =? 0 then Returns (Err (InvalidConfig "empty duration")) else
  mp_bind (split_unit s) (λ '(num_str, unit),
  Returns
    (let? num := ok_or (InvalidConfig ("invalid duration: " +:+ of_bytes s))
                   (parse_u64 (of_bytes num_str)) in
     if bool_decide (unit = as_bytes "ms") then Ok num
     else if bool_decide (unit = as_bytes "s") then Ok (num * 1000)
     else if bool_decide (unit = as_bytes "m") then Ok (mul64 num 60 * 1000)
     else if bool_decide (unit = as_bytes "h") then Ok (mul64 num 3600 * 1000)
     else if bool_decide (unit = as_bytes "d") then Ok (mul64 num 86400 * 1000)
     else Err (InvalidConfig ("unknown duration unit: " +:+ of_bytes unit)))).

(** ** Retries

    [f] is an operation with a state; the list collects the delays slept.
    [remaining] is [max_retries - attempt]. *)
Section retry.
Context {S T : Type} (f : S → S * Result T).

Fixpoint retry_loop (remaining : nat) (delay : Z) (s : S) : S * list Z * Result T :=
  match remaining with
  | O => (s, [], Err (Internal "Max retries exceeded"))
  | Datatypes.S r =>
    match f s with
    | (s, Ok result) => (s, [], Ok result)
    | (s, Err e) =>
        if is_retryable e && (1 <? Z.of_nat remaining)
        then let '(s, slept, res) := retry_loop r (delay * 2) s in (s, delay :: slept, res)
        else (s, [], Err e)
    end
  end.

Definition retry_with_backoff (max_retries : Z) (initial_delay : Z) (s : S)
    : S * list Z * Result T :=
  retry_loop (Z.to_nat max_retries) initial_delay s.
End retry.

(** ** Upload identifiers

    The counter is a global [AtomicU64]; the time in milliseconds is an
    argument. *)
Definition generate_upload_id (timestamp : Z) (counter : Z) : Z * string :=
  (add64 counter 1, show_dec timestamp +:+ "-" +:+ show_dec counter).

Fixpoint generate_ids (timestamps : list Z) (counter : Z) : list string :=
  match timestamps with
  | [] => []
  | t :: ts => let '(counter, id) := generate_upload_id t counter in id :: generate_ids ts counter
  end.

(** ** Lemmas *)

(** *** Digits *)
Lemma show_dec_digits n :
  0 ≤ n < 2 ^ 64 →
  Forall (λ b, 48 ≤ Z_of_byte b ≤ 57) (as_bytes (show_dec n)) ∧ as_bytes (show_dec n) ≠ [].
Proof.
  intros Hn. unfold show_dec, show_pad, pad. simpl. rewrite as_bytes_of_bytes.
  destruct (digits_le_spec 64 10 n) as [_ Hd]; [lia|done|]. unfold digits. split.
  - apply Forall_fmap, Forall_rev. eapply Forall_impl; [exact Hd|]. intros d Hr. cbv beta in *. cbn [compose].
    unfold digit_byte. destruct (Z.ltb_spec d 10); rewrite Z_of_byte_of_Z, Z.mod_small; lia.
  - intros E. apply (f_equal length) in E. rewrite length_map, length_rev in E.
    pose proof (digits_le_nonempty 64 10 n ltac:(lia)). by destruct (digits_le 64 10 n).
Qed.

(** *** Identifiers *)
Fixpoint after_dash (bs : bytes) : bytes :=
  match bs with [] => [] | b :: bs => if byte_eqb b x2d then bs else after_dash bs end.

Lemma after_dash_app a b : Forall (λ c, 48 ≤ Z_of_byte c ≤ 57) a → after_dash (a ++ x2d :: b) = b.
Proof.
  induction 1 as [|c a Hc _ IH]; [done|]. simpl.
  destruct (byte_eqb c x2d) eqn:E; [|done]. apply Byte.byte_dec_bl in E as ->.
  change (Z_of_byte x2d) with 45 in Hc. lia.
Qed.

Lemma upload_id_inj t t' c c' :
  0 ≤ t < 2 ^ 64 → 0 ≤ t' < 2 ^ 64 → 0 ≤ c < 2 ^ 64 → 0 ≤ c' < 2 ^ 64 →
  (generate_upload_id t c).2 = (generate_upload_id t' c').2 → c = c'.
Proof.
  intros Ht Ht' Hc Hc' E. simpl in E. apply (f_equal (after_dash ∘ as_bytes)) in E.
  simpl in E. rewrite !as_bytes_app in E. change (as_bytes "-") with [x2d] in E. simpl in E.
  rewrite !after_dash_app in E by by apply show_dec_digits.
  apply as_bytes_inj in E. by apply show_pad_inj in E.
Qed.

Lemma generate_ids_elem ts c id :
  0 ≤ c → c + zlen ts ≤ 2 ^ 64 → id ∈ generate_ids ts c →
  ∃ t c', t ∈ ts ∧ c ≤ c' < c + zlen ts ∧ id = (generate_upload_id t c').2.
Proof.
  revert c. induction ts as [|t ts IH]; intros c H0 Hmax; [set_solver|].
  rewrite zlen_cons in *. pose proof (zlen_nonneg ts).
  intros [->|H']%elem_of_cons; [exists t, c; split; [set_solver|]; split; [lia|done]|].
  destruct (decide (ts = [])) as [->|Hne]; [set_solver|].
  assert (0 < zlen ts) by (destruct ts; [done|unfold zlen; simpl; lia]).
  rewrite add64_small in H' by lia. apply IH in H' as (t' & c' & Ht & Hc & ->); [|lia|lia].
  exists t', c'. split; [set_solver|]. split; [lia|done].
Qed.

(** *** Trimming *)
Lemma not_white_digit b r :
  48 ≤ Z_of_byte b ≤ 57 → strip_first white_space (b :: r) = None.
Proof. destruct b; vm_compute; intros [H1 H2]; try reflexivity; by destruct H1 || by destruct H2. Qed.

Lemma trim_start_digit b r : 48 ≤ Z_of_byte b ≤ 57 → trim_start (b :: r) = b :: r.
Proof. intros H. unfold trim_start. cbn [length strip_all]. by rewrite not_white_digit. Qed.

Definition duration_unit (u : string) : option Z :=
  if decide (u = "ms") then Some 1
  else if decide (u = "s") then Some 1000
  else if decide (u = "m") then Some 60000
  else if decide (u = "h") then Some 3600000
  else if decide (u = "d") then Some 86400000 else None.

(** A number followed by one of the unit letters is not trimmed. *)
Lemma trim_number n u :
  0 ≤ n < 2 ^ 64 → u ∈ ["ms"; "s"; "m"; "h"; "d"] →
  trim (as_bytes (show_dec n +:+ u)) = as_bytes (show_dec n) ++ as_bytes u.
Proof.
  intros Hn Hu. destruct (show_dec_digits n Hn) as [Hd Hne]. rewrite as_bytes_app. unfold trim.
  destruct (as_bytes (show_dec n)) as [|b ds]; [done|]. inversion Hd as [|? ? Hb _]; subst.
  cbn [app]. rewrite trim_start_digit by done. unfold trim_end. rewrite length_cons.
  change (b :: ds ++ as_bytes u) with ((b :: ds) ++ as_bytes u). rewrite rev_app_distr.
  set_unfold in Hu. destruct_or! Hu; subst; cbn [as_bytes String.list_byte_of_string rev app strip_all];
    (match goal with |- context [strip_first ?ps ?l] => change (strip_first ps l) with (@None bytes) end);
    cbn [rev app]; rewrite ?rev_app_distr, ?rev_involutive; cbn [rev app];
    rewrite ?rev_app_distr, ?rev_involutive; cbn [rev app]; by rewrite <- ?app_assoc.
Qed.

Lemma split_unit_letter ds c :
  c ∈ [x73; x6d; x68; x64] → Forall (λ b, 48 ≤ Z_of_byte b ≤ 57) ds →
  split_unit (ds ++ [c]) = Returns (ds, [c]).
Proof.
  intros Hc Hd. unfold split_unit. rewrite rev_app_distr. cbn [rev app].
  assert (strip_prefix_bytes (rev (as_bytes "ms")) (c :: rev ds) = None) as ->.
  { change (rev (as_bytes "ms")) with [x73; x6d]. simpl. destruct (byte_eqb x73 c); [|done].
    destruct (rev ds) as [|e r] eqn:E; [done|].
    assert (e ∈ ds) as He by (rewrite <- (rev_involutive ds), E; cbn [rev]; set_solver).
    rewrite Forall_forall in Hd. specialize (Hd e He).
    destruct (byte_eqb x6d e) eqn:Ee; [|done]. apply Byte.byte_dec_bl in Ee as <-.
    change (Z_of_byte x6d) with 109 in Hd. lia. }
  set_unfold in Hc. destruct_or! Hc; subst; cbn; by rewrite rev_involutive.
Qed.

Lemma split_unit_ms ds : split_unit (ds ++ as_bytes "ms") = Returns (ds, as_bytes "ms").
Proof.
  unfold split_unit. rewrite rev_app_distr, strip_prefix_bytes_app. by rewrite rev_involutive.
Qed.

(** The outcome of call number [i] of an operation that is called again and
    again. *)
Definition call {S T} (f : S → S * Result T) (s : S) (i : nat) : S * Result T :=
  f (Nat.iter i (λ s, (f s).1) s).

Definition fails_retryably {T} (r : Result T) : bool :=
  match r with Err e => is_retryable e | Ok _ => false end.

(** ** Properties *)

(** Upload identifiers are unique: no two of the identifiers that one
    process makes are equal, whatever the clock shows, up to the point where
    the 64-bit counter wraps. *)
Theorem upload_ids_unique ts counter :
  0 ≤ counter → counter + zlen ts ≤ 2 ^ 64 → Forall (λ t, 0 ≤ t < 2 ^ 64) ts →
  NoDup (generate_ids ts counter).
Proof.
  intros H0 Hmax Hts. revert counter H0 Hmax. induction Hts as [|t ts Ht Hts IH]; intros c H0 Hmax.
  { constructor. }
  rewrite zlen_cons in Hmax. pose proof (zlen_nonneg ts). cbn [generate_ids generate_upload_id].
  destruct (decide (ts = [])) as [->|Hne]; [simpl; by repeat constructor; set_solver|].
  assert (0 < zlen ts) by (destruct ts; [done|unfold zlen; simpl; lia]).
  rewrite add64_small by lia. constructor; [|apply IH; lia].
  intros (t' & c' & Ht' & Hc' & E)%generate_ids_elem; [|lia|lia].
  rewrite Forall_forall in Hts. specialize (Hts t' Ht').
  change (_ +:+ _) with (generate_upload_id t c).2 in E.
  apply upload_id_inj in E; lia.
Qed.

(** [retry_with_backoff] with at least one attempt: it returns the result
    of the first call that succeeds or fails with an error that is not
    retryable, and of the last call allowed if all fail retryably; it calls
    the operation exactly that often, and the delays between the calls are
    the initial delay, doubled each time. *)
Theorem retry_with_backoff_spec {S T} (f : S → S * Result T) max_retries delay s :
  0 < max_retries →
  ∃ k, Z.of_nat k < max_retries ∧
    (∀ i, (i < k)%nat → fails_retryably (call f s i).2 = true) ∧
    (fails_retryably (call f s k).2 = false ∨ Z.of_nat k = max_retries - 1) ∧
    retry_with_backoff f max_retries delay s =
      ((call f s k).1, map (λ i, delay * 2 ^ Z.of_nat i) (seq 0 k), (call f s k).2).
Proof.
  intros Hn. unfold retry_with_backoff. rewrite <- (Z2Nat.id max_retries) in * by lia.
  rewrite Nat2Z.id. generalize dependent (Z.to_nat max_retries). intros n Hn. revert delay s.
  induction n as [|n IH]; intros delay s; [lia|]. cbn [retry_loop].
  destruct (fails_retryably (call f s 0).2 && (1 <? Z.of_nat (Datatypes.S n))) eqn:E.
  - apply andb_true_iff in E as [E1 E2%Z.ltb_lt]. unfold call in E1. simpl in E1.
    destruct (f s) as [s1 [r|e]] eqn:Ef; [done|]. simpl in E1. rewrite E1.
    rewrite (proj2 (Z.ltb_lt _ _) E2). cbn [andb].
    destruct (IH ltac:(lia) (delay * 2) s1) as (k & Hk & Hi & Hlast & ->).
    assert (∀ i, call f s (Datatypes.S i) = call f s1 i) as Hc.
    { intros i. unfold call. rewrite Nat.iter_succ_r, Ef. done. }
    exists (Datatypes.S k). rewrite Hc. split; [lia|]. split; [|split].
    + intros [|i] Hlt; [unfold call; simpl; by rewrite Ef|]. rewrite Hc. apply Hi. lia.
    + destruct Hlast; [by left|right; lia].
    + f_equal. f_equal. cbn [seq map]. f_equal; [lia|]. rewrite <- seq_shift, map_map.
      apply map_ext. intros i. rewrite Nat2Z.inj_succ, Z.pow_succ_r by lia. lia.
  - exists 0%nat. split; [lia|]. split; [lia|]. apply andb_false_iff in E.
    unfold call in *. simpl in *. destruct (f s) as [s1 [r|e]]; simpl in *.
    + split; [by left|done].
    + rewrite Z.ltb_ge in E.
      assert (is_retryable e && (1 <? Z.of_nat (Datatypes.S n)) = false) as ->.
      { apply andb_false_iff. rewrite Z.ltb_ge. destruct E; [by left|right; lia]. }
      split; [|done]. destruct E; [by left|right; lia].
Qed.

(** Durations: a number and one of the units [ms], [s], [m], [h], [d] is
    read as that many milliseconds, as long as the number of seconds fits 64
    bits. *)
Theorem parse_duration_units n u k :
  0 ≤ n < 2 ^ 64 → duration_unit u = Some k → n * k < 1000 * 2 ^ 64 →
  parse_duration (show_dec n +:+ u) = Returns (Ok (n * k)).
Proof.
  intros Hn Hu Hmax. destruct (show_dec_digits n Hn) as [Hd Hne].
  assert (u ∈ ["ms"; "s"; "m"; "h"; "d"]) as Hin.
  { unfold duration_unit in Hu. repeat case_decide; simplify_eq; set_solver. }
  unfold parse_duration. rewrite trim_number by done.
  assert (0 < zlen (as_bytes (show_dec n) ++ as_bytes u)) as Hl.
  { rewrite zlen_app. pose proof (zlen_nonneg (as_bytes u)).
    destruct (as_bytes (show_dec n)); [done|unfold zlen; simpl; lia]. }
  rewrite (proj2 (Z.eqb_neq _ 0)) by lia.
  assert (split_unit (as_bytes (show_dec n) ++ as_bytes u) = Returns (as_bytes (show_dec n), as_bytes u)) as ->.
  { set_unfold in Hin. destruct_or! Hin; subst; [apply split_unit_ms|..];
      (apply split_unit_letter; [set_solver|done]). }
  cbn [mp_bind]. rewrite (of_bytes_as_bytes (show_dec n)).
  change (parse_u64 (show_dec n)) with (parse_u64 (show_pad 0 n)). rewrite parse_show_pad by done.
  cbn [ok_or rbind]. unfold mul64.
  set_unfold in Hin. destruct_or! Hin; subst; vm_compute in Hu; injection Hu as <-; simpl;
    rewrite ?wrap64_small by lia; do 2 f_equal; lia.
Qed.

(** A duration that ends, after trimming, in a character that is not ASCII
    makes [parse_duration] panic, instead of being an error: the unit is cut
    off at the last byte, inside the character. *)
Theorem parse_duration_panics input init b :
  trim (as_bytes input) = init ++ [b] → 128 ≤ Z_of_byte b → parse_duration input = Panics.
Proof.
  intros Ht Hb. unfold parse_duration. rewrite Ht.
  assert ((zlen (init ++ [b]) =? 0) = false) as ->.
  { rewrite zlen_app. pose proof (zlen_nonneg init). change (zlen [b]) with 1. lia. }
  unfold split_unit. rewrite rev_app_distr. cbn [rev app].
  change (rev (as_bytes "ms")) with [x73; x6d]. cbn [strip_prefix_bytes].
  destruct (byte_eqb x73 b) eqn:E.
  { apply Byte.byte_dec_bl in E as <-. change (Z_of_byte x73) with 115 in Hb. lia. }
  by rewrite (proj2 (Z.ltb_ge _ _) Hb).
Qed.

(** ** Witnesses *)
Lemma upload_ids_unique_witness : NoDup (generate_ids [1700000000000; 1700000000000] 0).
Proof.
  apply (upload_ids_unique [1700000000000; 1700000000000] 0); [lia|vm_compute; discriminate|].
  repeat (constructor; [lia|]). constructor.
Defined.

(** An operation that times out twice and then succeeds. *)
Definition ex_flaky (s : nat) : nat * Result nat :=
  (Datatypes.S s, if (s <? 2)%nat then Err (Timeout "t") else Ok s).

Lemma retry_with_backoff_spec_witness :
  ∃ k, Z.of_nat k < 5 ∧
    retry_with_backoff ex_flaky 5 100 0%nat =
      ((call ex_flaky 0%nat k).1, map (λ i, 100 * 2 ^ Z.of_nat i) (seq 0 k), (call ex_flaky 0%nat k).2).
Proof.
  destruct (retry_with_backoff_spec ex_flaky 5 100 0%nat) as (k & H1 & _ & _ & H2); [lia|].
  exists k. split; [exact H1|exact H2].
Defined.

Lemma parse_duration_units_witness : parse_duration (show_dec 5 +:+ "m") = Returns (Ok 300000).
Proof. apply (parse_duration_units 5 "m" 60000); [lia|reflexivity|lia]. Defined.

Lemma parse_duration_panics_witness : parse_duration (of_bytes [x35; xc2; xb5]) = Panics.
Proof. apply (parse_duration_panics _ [x35; xc2] xb5); [reflexivity|vm_compute; discriminate]. Defined.
