(* ===== verification/Encode.v ===== *)
(** * Keys in URLs and sizes for people

    [encode_key], [decode_key] and [format_bytes] of [src/common/utils.rs].  The
    [percent_encoding] crate is the class [PercentEncoding], with what its
    documentation says of one byte at a time. *)

From Stdlib Require Import ZArith Lia SpecFloat.
From Stdlib.Strings Require Import Byte.
From stdpp Require Import base option list strings.
From S2P Require Import Prelude Bytes Text Float64 FloatText Errors.

(** ** Percent-encoding *)
Definition hex_upper (d : Z) : byte := byte_of_Z (if d <? 10 then 48 + d else 55 + d).
Definition escape (b : byte) : bytes := [x25; hex_upper (Z_of_byte b / 16); hex_upper (Z_of_byte b mod 16)].
(** An [AsciiSet] says which ASCII bytes are encoded; the others always are. *)
Definition encoded (set : byte → bool) (b : byte) : bool := (128 <=? Z_of_byte b) || set b.

Class PercentEncoding := {
  utf8_percent_encode : bytes → (byte → bool) → bytes;
  percent_decode : bytes → bytes;
  percent_encode_nil set : utf8_percent_encode [] set = [];
  percent_encode_cons b bs set :
    utf8_percent_encode (b :: bs) set =
    (if encoded set b then escape b else [b]) ++ utf8_percent_encode bs set;
  percent_decode_nil : percent_decode [] = [];
  percent_decode_plain b bs : b ≠ x25 → percent_decode (b :: bs) = b :: percent_decode bs;
  percent_decode_escape b bs : percent_decode (escape b ++ bs) = b :: percent_decode bs;
}.

(** [CONTROLS], and the bytes added to it. *)
Definition CONTROLS (b : byte) : bool := (Z_of_byte b <? 32) || (Z_of_byte b =? 127).
Definition KEY_ENCODE_SET (b : byte) : bool :=
  CONTROLS b || bool_decide (b ∈ [x2f; x25; x20; x3f; x23; x26]).

Section codec.
Context {PE : PercentEncoding}.
(** How [Utf8Error] prints for these bytes. *)
Context (utf8_error : bytes → string).

Definition encode_key (key : string) : string := of_bytes (utf8_percent_encode (as_bytes key) KEY_ENCODE_SET).
Definition decode_key (enc : string) : Result string :=
  let bs := percent_decode (as_bytes enc) in
  match from_utf8 bs with
  | Some s => Ok s
  | None => Err (Other ("Failed to decode key: " +:+ utf8_error bs))
  end.

Lemma percent_roundtrip bs : percent_decode (utf8_percent_encode bs KEY_ENCODE_SET) = bs.
Proof.
  induction bs as [|b bs IH]; [by rewrite percent_encode_nil, percent_decode_nil|].
  rewrite percent_encode_cons. destruct (encoded KEY_ENCODE_SET b) eqn:E.
  - by rewrite percent_decode_escape, IH.
  - cbn [app]. rewrite percent_decode_plain, IH; [done|]. by intros ->.
Qed.

(** Encoding a key loses nothing: decoding the encoded key gives the key
    back, for every Rust string. *)
Theorem key_codec_roundtrip key : valid_str key = true → decode_key (encode_key key) = Ok key.
Proof.
  intros Hv. unfold decode_key, encode_key. rewrite as_bytes_of_bytes, percent_roundtrip.
  by rewrite from_utf8_as_bytes.
Qed.

(** A byte that a path segment or a file name can hold as it is. *)
Definition safe_byte (b : byte) : bool :=
  (33 <=? Z_of_byte b) && (Z_of_byte b <=? 126) && negb (bool_decide (b ∈ [x2f; x3f; x23; x26])).

Lemma escape_safe b : Forall (λ c, safe_byte c = true) (escape b).
Proof. destruct b; repeat constructor. Qed.
Lemma plain_safe b : encoded KEY_ENCODE_SET b = false → safe_byte b = true.
Proof. destruct b; vm_compute; done. Qed.

(** Encoded keys are safe in a URL path and as a file name: they contain
    only printable ASCII characters, and none of the separators. *)
Theorem encode_key_safe key : Forall (λ b, safe_byte b = true) (as_bytes (encode_key key)).
Proof.
  unfold encode_key. rewrite as_bytes_of_bytes. induction (as_bytes key) as [|b bs IH].
  { by rewrite percent_encode_nil. }
  rewrite percent_encode_cons. apply Forall_app. split; [|done].
  destruct (encoded KEY_ENCODE_SET b) eqn:E; [apply escape_safe|].
  constructor; [by apply plain_safe|done].
Qed.
End codec.

(** ** Sizes *)
Definition UNITS : list string := ["B"; "KB"; "MB"; "GB"; "TB"; "PB"]%string.

(** [while size >= 1024.0 && unit_idx < UNITS.len() - 1]: [rest] is what is
    left of the index. *)
Fixpoint format_loop (rest : nat) (size : f64) (unit_idx : nat) : f64 * nat :=
  match rest with
  | O => (size, unit_idx)
  | S rest =>
      if fleb (f64_of_Z 1024) size
      then format_loop rest (fdiv size (f64_of_Z 1024)) (S unit_idx)
      else (size, unit_idx)
  end.
Definition format_bytes (n : Z) : string :=
  let '(size, unit_idx) := format_loop 5 (f64_of_Z n) 0 in
  show_f64_2 size +:+ " " +:+ nth unit_idx UNITS ""%string.

(** Dividing by 1024 is exact. *)
Lemma fdiv_1024 m e :
  2 ^ 52 ≤ Zpos m < 2 ^ 53 → -900 ≤ e ≤ 0 →
  fdiv (S754_finite false m e) (f64_of_Z 1024) = S754_finite false m (e - 10).
Proof.
  intros Hm He. change (f64_of_Z 1024) with (S754_finite false 4503599627370496 (-42)).
  unfold fdiv, SFdiv, SFdiv_core_binary.
  assert (Z.log2 (Zpos m) = 52) as HL by (apply Z.log2_unique; [done|exact Hm]).
  rewrite Zdigits2_log2, HL by done. change (Zdigits2 4503599627370496) with 53. cbv zeta. rewrite fexp_eq.
  replace (Z.min (Z.max (52 + 1 + e - (53 + -42) - 53) (-1074)) (e - -42)) with (e - 11) by lia.
  replace (e - -42 - (e - 11)) with 53 by lia.
  rewrite Z.shiftl_mul_pow2 by done.
  assert (Z.div_eucl (Zpos m * 2 ^ 53) 4503599627370496 = (2 * Zpos m, 0)) as ->.
  { pose proof (Z.div_mod_unique 4503599627370496) as HU.
    pose proof (Z_div_mod (Zpos m * 2 ^ 53) 4503599627370496 eq_refl) as HD.
    destruct (Z.div_eucl _ _) as [q r]. destruct HD as [HD Hr]. f_equal; lia. }
  change (new_location 4503599627370496 0) with loc_Exact. cbn [xorb].
  destruct (round_aux_spec false (2 * Zpos m) (e - 11)) as (q & _ & Hq & ->).
  { lia. }
  { rewrite Z.log2_double, HL, fexp_eq by done. lia. }
  rewrite Z.log2_double, HL, fexp_eq in * by done.
  replace (Z.max (Z.succ 52 + 1 + (e - 11) - 53) (-1074)) with (e - 10) in * by lia.
  replace (e - 10 - (e - 11)) with 1 in Hq by lia. change (2 ^ 1) with 2 in Hq.
  rewrite Hq by (by rewrite Z.mul_comm, Z.mod_mul). rewrite Z.mul_comm, Z.div_mul by done.
  unfold finish, mk_float. destruct (Z.eqb_spec (Zpos m) 0); [lia|].
  destruct (Z.eqb_spec (Zpos m) (2 ^ 53)); [lia|]. destruct (Z.leb_spec (e - 10) 971); [done|lia].
Qed.

Lemma fleb_1024 m e :
  2 ^ 52 ≤ Zpos m < 2 ^ 53 → -900 ≤ e ≤ 0 →
  fleb (f64_of_Z 1024) (S754_finite false m e) = (-42 <=? e).
Proof.
  intros Hm He. assert (fvalid (S754_finite false m e) = true) as V by (apply valid_bounds; lia).
  rewrite fleb_fv by done.
  destruct (Z.leb_spec (-42) e) as [H|H].
  - apply Z.leb_le. change (fv (f64_of_Z 1024)) with (2 ^ 52 * 2 ^ (-42 + 1074)). cbn [fv].
    apply Z.mul_le_mono_nonneg; [done|lia|by vm_compute|apply Z.pow_le_mono_r; lia].
  - apply Z.leb_gt. apply (valid_exp_lt m e 4503599627370496 (-42) V); [done|lia].
Qed.

Lemma format_loop_spec rest m e idx :
  2 ^ 52 ≤ Zpos m < 2 ^ 53 → -800 ≤ e ≤ 0 → (rest ≤ 6)%nat →
  let j := Z.min (Z.of_nat rest) (Z.max 0 ((52 + e) / 10)) in
  format_loop rest (S754_finite false m e) idx = (S754_finite false m (e - 10 * j), (idx + Z.to_nat j)%nat).
Proof.
  intros Hm. cbv zeta. revert e idx. induction rest as [|rest IH]; intros e idx He Hl.
  { cbn [format_loop]. rewrite Z.min_l by lia. f_equal; [f_equal; lia|lia]. }
  cbn [format_loop]. rewrite fleb_1024 by lia. destruct (Z.leb_spec (-42) e) as [H|H].
  - rewrite fdiv_1024, IH by lia. replace (52 + (e - 10)) with (52 + e + (-1) * 10) by lia.
    rewrite Z.div_add by done. assert (1 ≤ (52 + e) / 10) by (apply Z.div_le_lower_bound; lia).
    f_equal; [f_equal; lia|lia].
  - assert ((52 + e) / 10 < 1) by (apply Z.div_lt_upper_bound; lia).
    rewrite Z.max_l, Z.min_r by lia. f_equal; [f_equal; lia|lia].
Qed.

Lemma round_half_even_scale n d c : 0 < c → 0 < d → round_half_even (n * c) (d * c) = round_half_even n d.
Proof.
  intros Hc Hd. unfold round_half_even. rewrite Z.div_mul_cancel_r, Z.mul_mod_distr_r by lia.
  replace (2 * (n mod d * c)) with (2 * (n mod d) * c) by lia.
  assert ((d * c <? 2 * (n mod d) * c) = (d <? 2 * (n mod d))) as ->.
  { destruct (Z.ltb_spec d (2 * (n mod d))); [apply Z.ltb_lt|apply Z.ltb_ge]; nia. }
  assert ((2 * (n mod d) * c =? d * c) = (2 * (n mod d) =? d)) as ->; [|done].
  destruct (Z.eqb_spec (2 * (n mod d)) d) as [->|Hne]; [apply Z.eqb_refl|]. apply Z.eqb_neq. nia.
Qed.

(** C34. Sizes print right: [format_bytes n] is [n] divided by the largest power
    of 1024 that is not above it (at most 1024^5), rounded to two decimals, with
    the unit of that power, for every size below 2^53. *)
Theorem format_bytes_spec n :
  0 ≤ n < 2 ^ 53 →
  let j := Z.min 5 (Z.log2 n / 10) in
  format_bytes n =
  show_decimal (round_half_even (n * 100) (1024 ^ j)) (-2) +:+ " " +:+ nth (Z.to_nat j) UNITS ""%string.
Proof.
  intros Hn. cbv zeta. destruct (Z.eq_dec n 0) as [->|H0]; [reflexivity|].
  destruct (f64_of_Z_exact n Hn) as [_ HV].
  destruct (f64_of_Z_normal n ltac:(lia)) as (m & e & E & Hm & He). unfold format_bytes. rewrite E in *.
  rewrite format_loop_spec by lia. cbn [fv] in HV.
  assert (Zpos m = n * 2 ^ (- e)) as HM.
  { apply (Z.mul_reg_r _ _ (2 ^ (e + 1074))); [apply Z.pow_nonzero; lia|].
    rewrite HV, <- Z.mul_assoc, <- Z.pow_add_r by lia. unfold ONE. f_equal. f_equal. lia. }
  assert (Z.log2 n = 52 + e) as HL.
  { assert (Z.log2 (Zpos m) = 52) as H by (apply Z.log2_unique; [done|exact Hm]).
    rewrite HM, Z.log2_mul_pow2 in H by lia. lia. }
  rewrite HL. assert (0 ≤ (52 + e) / 10) by (apply Z.div_pos; lia).
  rewrite Z.max_r by done. change (Z.of_nat 5) with 5. set (j := Z.min 5 ((52 + e) / 10)) in *.
  assert (0 ≤ j ≤ 5) by lia. cbn [show_f64_2 sign_text Nat.add]. f_equal. f_equal.
  unfold frac_num, frac_den. replace (Z.max (e - 10 * j) 0) with 0 by lia.
  replace (Z.max (- (e - 10 * j)) 0) with (10 * j + - e) by lia.
  rewrite Z.mul_1_r, HM, Z.pow_add_r, (Z.pow_mul_r 2 10) by lia. change (2 ^ 10) with 1024.
  replace (n * 2 ^ (- e) * 100) with (n * 100 * 2 ^ (- e)) by lia.
  rewrite round_half_even_scale; [done|apply Z.pow_pos_nonneg; lia|apply Z.pow_pos_nonneg; lia].
Qed.

(** ** Witnesses *)
Definition hex_value (b : byte) : option Z :=
  let x := Z_of_byte b in
  if (48 <=? x) && (x <=? 57) then Some (x - 48)
  else if (65 <=? x) && (x <=? 70) then Some (x - 55)
  else if (97 <=? x) && (x <=? 102) then Some (x - 87) else None.
Fixpoint plain_decode (bs : bytes) : bytes :=
  match bs with
  | [] => []
  | x25 :: ((h :: l :: bs2) as bs1) =>
      match hex_value h, hex_value l with
      | Some a, Some b => byte_of_Z (16 * a + b) :: plain_decode bs2
      | _, _ => x25 :: plain_decode bs1
      end
  | b :: bs => b :: plain_decode bs
  end.
Fixpoint plain_encode (bs : bytes) (set : byte → bool) : bytes :=
  match bs with
  | [] => []
  | b :: bs => (if encoded set b then escape b else [b]) ++ plain_encode bs set
  end.
Definition plain_percent : PercentEncoding.
Proof.
  refine {| utf8_percent_encode := plain_encode; percent_decode := plain_decode |}; try done.
  - intros b bs Hb. by destruct b.
  - intros b bs. destruct b; reflexivity.
Defined.

Lemma key_codec_roundtrip_witness :
  encode_key (PE := plain_percent) "a/b c%" = "a%2Fb%20c%25"%string ∧
  decode_key (PE := plain_percent) (λ _, ""%string) (encode_key (PE := plain_percent) "a/b c%") = Ok "a/b c%"%string.
Proof. split; [reflexivity|]. by apply (key_codec_roundtrip (PE := plain_percent)). Defined.

Lemma format_bytes_spec_witness :
  format_bytes 1536 = "1.50 KB"%string ∧
  format_bytes 1536 = show_decimal (round_half_even (1536 * 100) (1024 ^ Z.min 5 (Z.log2 1536 / 10))) (-2) +:+ " " +:+ "KB".
Proof. split; [reflexivity|]. apply (format_bytes_spec 1536). split; by vm_compute. Defined.
