(* ===== verification/Metadata.v ===== *)
(** * Metadata of keys and volumes

    [src/coordinator/metadata.rs]: the coordinator's store, on RocksDB (column
    families [keys], [volumes] and [config]) with records serialized by
    bincode.  Both crates are parameters ([Rocks], [Bincode]).  The operations
    take [&self]; the database they leave behind is made explicit. *)

From Stdlib Require Import ZArith Lia.
From Stdlib.Strings Require Import Byte.
From stdpp Require Import base option list gmap strings countable.
From S2P Require Import Prelude Bytes Text Errors External Utils.

Definition CF_KEYS : string := "keys".
Definition CF_VOLUMES : string := "volumes".
Definition CF_CONFIG : string := "config".

Inductive KeyState := Active | Tombstone.

Record KeyMetadata := mkKeyMetadata {
  km_key : string;
  km_replicas : list string;
  km_size : Z;
  km_blake3 : string;
  km_created_at : Z;
  km_updated_at : Z;
  km_state : KeyState;
}.

Record VolumeMetadata := mkVolumeMetadata {
  vm_volume_id : string;
  vm_address : string;
  vm_grpc_address : string;
  vm_state : NodeState;
  vm_shards : list Z;
  vm_total_keys : Z;
  vm_total_bytes : Z;
  vm_free_bytes : Z;
  vm_last_heartbeat : Z;
}.

#[export] Instance KeyState_eq_dec : EqDecision KeyState.
Proof. solve_decision. Defined.
#[export] Instance NodeState_eq_dec : EqDecision NodeState.
Proof. solve_decision. Defined.
#[export] Instance KeyMetadata_eq_dec : EqDecision KeyMetadata.
Proof. solve_decision. Defined.
#[export] Instance VolumeMetadata_eq_dec : EqDecision VolumeMetadata.
Proof. solve_decision. Defined.

Section metadata.
Context {RK : Rocks} {BK : Bincode KeyMetadata} {BV : Bincode VolumeMetadata}.

(** [MetadataStore] holds the database. *)
Abbreviation MetadataStore := DB.

(** [?] on a RocksDB result, and the two [map_err] of the file. *)
Definition rocks {A} (r : result string A) : Result A := map_err RocksDb r.
Definition serialized {A} (r : result string A) : Result A :=
  map_err (λ e, Internal ("Serialize error: " +:+ e)) r.
Definition deserialized {A} (r : result string A) : Result A := map_err MetadataCorrupted r.

(** ** Keys *)
Definition meta_put_key (meta : KeyMetadata) (s : MetadataStore) : Result MetadataStore :=
  let? value := serialized (serialize meta) in
  rocks (rocks_put_cf s CF_KEYS (as_bytes (km_key meta)) value).

Definition meta_get_key (key : string) (s : MetadataStore) : Result (option KeyMetadata) :=
  let? o := rocks (rocks_get_cf s CF_KEYS (as_bytes key)) in
  match o with
  | Some bytes => let? meta := deserialized (deserialize bytes) in Ok (Some meta)
  | None => Ok None
  end.

Definition meta_delete_key (key : string) (s : MetadataStore) : Result MetadataStore :=
  rocks (rocks_delete_cf s CF_KEYS (as_bytes key)).

Fixpoint list_keys_loop (items : list (result string (bytes * bytes))) : Result (list string) :=
  match items with
  | [] => Ok []
  | item :: items =>
      let? '(key_bytes, _) := rocks item in
      let? key := ok_or (MetadataCorrupted "Invalid UTF-8") (from_utf8 key_bytes) in
      let? keys := list_keys_loop items in
      Ok (key :: keys)
  end.
Definition list_keys (s : MetadataStore) : Result (list string) :=
  list_keys_loop (rocks_iterator_cf s CF_KEYS).

(** ** Volumes *)
Definition put_volume (meta : VolumeMetadata) (s : MetadataStore) : Result MetadataStore :=
  let? value := serialized (serialize meta) in
  rocks (rocks_put_cf s CF_VOLUMES (as_bytes (vm_volume_id meta)) value).

Definition get_volume (volume_id : string) (s : MetadataStore) : Result (option VolumeMetadata) :=
  let? o := rocks (rocks_get_cf s CF_VOLUMES (as_bytes volume_id)) in
  match o with
  | Some bytes => let? meta := deserialized (deserialize bytes) in Ok (Some meta)
  | None => Ok None
  end.

Fixpoint list_volumes_loop (items : list (result string (bytes * bytes)))
    : Result (list VolumeMetadata) :=
  match items with
  | [] => Ok []
  | item :: items =>
      let? '(_, value_bytes) := rocks item in
      let? meta := deserialized (deserialize value_bytes) in
      let? volumes := list_volumes_loop items in
      Ok (meta :: volumes)
  end.
Definition list_volumes (s : MetadataStore) : Result (list VolumeMetadata) :=
  list_volumes_loop (rocks_iterator_cf s CF_VOLUMES).

Definition get_healthy_volumes (s : MetadataStore) : Result (list VolumeMetadata) :=
  let? volumes := list_volumes s in
  Ok (filter (λ v, is_healthy (vm_state v) = true) volumes).

(** ** Configuration *)
Definition put_config (key : string) (value : bytes) (s : MetadataStore) : Result MetadataStore :=
  rocks (rocks_put_cf s CF_CONFIG (as_bytes key) value).
Definition get_config (key : string) (s : MetadataStore) : Result (option bytes) :=
  rocks (rocks_get_cf s CF_CONFIG (as_bytes key)).
Definition meta_flush (s : MetadataStore) : Result unit := rocks (rocks_flush s).

(** ** Specification

    A store represents a map of key records and a map of volume records. *)
Definition represents (s : MetadataStore) (ks : gmap string KeyMetadata)
    (vs : gmap string VolumeMetadata) : Prop :=
  (∀ b, match rocks_view s CF_KEYS !! b with
        | Some bs => ∃ k m, as_bytes k = b ∧ valid_str k = true ∧ ks !! k = Some m ∧
                            deserialize bs = Ok m
        | None => ∀ k, as_bytes k = b → ks !! k = None
        end) ∧
  (∀ b, match rocks_view s CF_VOLUMES !! b with
        | Some bs => ∃ k m, as_bytes k = b ∧ vs !! k = Some m ∧ deserialize bs = Ok m
        | None => ∀ k, as_bytes k = b → vs !! k = None
        end).

(** ** Lemmas *)
Lemma rocks_Ok {A} (r : result string A) a : rocks r = Ok a ↔ r = Ok a.
Proof. destruct r; simpl; split; congruence. Qed.
Lemma serialized_Ok {A} (r : result string A) a : serialized r = Ok a ↔ r = Ok a.
Proof. destruct r; simpl; split; congruence. Qed.

Lemma represents_put_key s ks vs meta s' :
  represents s ks vs → valid_str (km_key meta) = true → meta_put_key meta s = Ok s' →
  represents s' (<[km_key meta := meta]> ks) vs.
Proof.
  intros [Hk Hv] Hval H. unfold meta_put_key in H. bind_inv H.
  apply serialized_Ok in E. apply rocks_Ok, rocks_put_view in H as [E1 E2].
  split; [|intros b; rewrite E2 by done; apply Hv]. intros b. rewrite E1.
  destruct (decide (as_bytes (km_key meta) = b)) as [<-|Hne].
  - rewrite lookup_insert_eq. exists (km_key meta), meta. rewrite lookup_insert_eq.
    repeat split; try done. by apply deserialize_serialize.
  - rewrite lookup_insert_ne by done. specialize (Hk b). destruct (rocks_view s CF_KEYS !! b).
    + destruct Hk as (k & m & <- & H1 & H2 & H3). exists k, m. rewrite lookup_insert_ne by congruence. done.
    + intros k Hkb. rewrite lookup_insert_ne by congruence. by apply Hk.
Qed.

Lemma represents_delete_key s ks vs key s' :
  represents s ks vs → meta_delete_key key s = Ok s' → represents s' (delete key ks) vs.
Proof.
  intros [Hk Hv] H. apply rocks_Ok, rocks_delete_view in H as [E1 E2].
  split; [|intros b; rewrite E2 by done; apply Hv]. intros b. rewrite E1.
  destruct (decide (as_bytes key = b)) as [<-|Hne].
  - rewrite lookup_delete_eq. intros k ->%as_bytes_inj. apply lookup_delete_eq.
  - rewrite lookup_delete_ne by done. specialize (Hk b). destruct (rocks_view s CF_KEYS !! b).
    + destruct Hk as (k & m & <- & H1 & H2 & H3). exists k, m. rewrite lookup_delete_ne by congruence. done.
    + intros k Hkb. apply lookup_delete_None. right. by apply Hk.
Qed.

Lemma represents_put_volume s ks vs meta s' :
  represents s ks vs → put_volume meta s = Ok s' →
  represents s' ks (<[vm_volume_id meta := meta]> vs).
Proof.
  intros [Hk Hv] H. unfold put_volume in H. bind_inv H.
  apply serialized_Ok in E. apply rocks_Ok, rocks_put_view in H as [E1 E2].
  split; [intros b; rewrite E2 by done; apply Hk|]. intros b. rewrite E1.
  destruct (decide (as_bytes (vm_volume_id meta) = b)) as [<-|Hne].
  - rewrite lookup_insert_eq. exists (vm_volume_id meta), meta. rewrite lookup_insert_eq.
    repeat split; try done. by apply deserialize_serialize.
  - rewrite lookup_insert_ne by done. specialize (Hv b). destruct (rocks_view s CF_VOLUMES !! b).
    + destruct Hv as (k & m & <- & H1 & H2). exists k, m. rewrite lookup_insert_ne by congruence. done.
    + intros k Hkb. rewrite lookup_insert_ne by congruence. by apply Hv.
Qed.

Lemma get_key_represents s ks vs key o :
  represents s ks vs → meta_get_key key s = Ok o → o = ks !! key.
Proof.
  intros [Hk _] H. unfold meta_get_key in H. bind_inv H. apply rocks_Ok, rocks_get_view in E.
  specialize (Hk (as_bytes key)). rewrite <- E in Hk. destruct a as [bs|].
  - destruct Hk as (k & m & ->%as_bytes_inj & _ & -> & Hd). rewrite Hd in H. simpl in H. congruence.
  - rewrite Hk by done. congruence.
Qed.

Lemma get_volume_represents s ks vs id o :
  represents s ks vs → get_volume id s = Ok o → o = vs !! id.
Proof.
  intros [_ Hv] H. unfold get_volume in H. bind_inv H. apply rocks_Ok, rocks_get_view in E.
  specialize (Hv (as_bytes id)). rewrite <- E in Hv. destruct a as [bs|].
  - destruct Hv as (k & m & ->%as_bytes_inj & -> & Hd). rewrite Hd in H. simpl in H. congruence.
  - rewrite Hv by done. congruence.
Qed.

Lemma represents_put_config s ks vs key value s' :
  represents s ks vs → put_config key value s = Ok s' → represents s' ks vs.
Proof.
  intros [Hk Hv] H. apply rocks_Ok, rocks_put_view in H as [_ E2].
  split; intros b; rewrite E2 by done; [apply Hk|apply Hv].
Qed.

(** Lists of records that were read without an error. *)
Lemma list_volumes_loop_Ok items l :
  list_volumes_loop items = Ok l →
  ∃ es, items = map Ok es ∧ Forall2 (λ e m, deserialize e.2 = Ok m) es l.
Proof.
  revert l. induction items as [|item items IH]; intros l H; simpl in H.
  { exists []. simplify_eq. split; [done|constructor]. }
  bind_inv H. destruct a as [b bs]. bind_inv H. bind_inv H. simplify_eq.
  destruct (IH _ E1) as (es & -> & F). apply rocks_Ok in E as ->. exists ((b, bs) :: es).
  split; [done|]. constructor; [|done]. simpl. by destruct (deserialize bs); simplify_eq/=.
Qed.

Lemma list_keys_loop_Ok items l :
  list_keys_loop items = Ok l →
  ∃ es, items = map Ok es ∧ map as_bytes l = es.*1.
Proof.
  revert l. induction items as [|item items IH]; intros l H; simpl in H.
  { exists []. by simplify_eq. }
  bind_inv H. destruct a as [b bs]. bind_inv H. bind_inv H. simplify_eq.
  destruct (IH _ E1) as (es & -> & F). apply rocks_Ok in E as ->. exists ((b, bs) :: es).
  split; [done|]. apply ok_or_Ok, from_utf8_Some in E0 as [E0 _]. simpl. by rewrite E0, F.
Qed.

Lemma list_keys_spec s ks vs l :
  represents s ks vs → list_keys s = Ok l → NoDup l ∧ ∀ k, k ∈ l ↔ is_Some (ks !! k).
Proof.
  intros [Hk _] H. apply list_keys_loop_Ok in H as (es & Hi & Hl).
  apply rocks_iterator_view in Hi. split.
  - apply (NoDup_fmap_1 as_bytes). change (as_bytes <$> l) with (map as_bytes l).
    rewrite Hl, Hi. apply NoDup_fst_map_to_list.
  - intros k. specialize (Hk (as_bytes k)).
    assert (k ∈ l ↔ is_Some (rocks_view s CF_KEYS !! as_bytes k)) as ->.
    { transitivity (as_bytes k ∈ map as_bytes l).
      - rewrite !list_elem_of_In, in_map_iff. split; [eauto|]. by intros (x & ->%as_bytes_inj & ?).
      - rewrite Hl, Hi, list_elem_of_fmap. split.
        + intros ([b v] & -> & E%elem_of_map_to_list). by exists v.
        + intros [v E]. exists (as_bytes k, v). split; [done|]. by apply elem_of_map_to_list. }
    destruct (rocks_view s CF_KEYS !! as_bytes k).
    + destruct Hk as (k' & m & ->%as_bytes_inj & _ & -> & _). split; eauto.
    + rewrite Hk by done. split; by intros [? ?].
Qed.

Lemma list_volumes_elem s ks vs l :
  represents s ks vs → list_volumes s = Ok l → ∀ m, m ∈ l ↔ ∃ id, vs !! id = Some m.
Proof.
  intros [_ Hv] H m. apply list_volumes_loop_Ok in H as (es & Hi & F).
  apply rocks_iterator_view in Hi. split.
  - intros (i & Him)%list_elem_of_lookup.
    destruct (Forall2_lookup_r _ _ _ _ _ F Him) as ([b bs] & He & Hd). simpl in Hd.
    apply list_elem_of_lookup_2 in He. rewrite Hi in He. apply elem_of_map_to_list in He.
    specialize (Hv b). rewrite He in Hv. destruct Hv as (k & m' & _ & Hvs & Hd').
    exists k. congruence.
  - intros [id Hid]. specialize (Hv (as_bytes id)).
    destruct (rocks_view s CF_VOLUMES !! as_bytes id) as [bs|] eqn:E; [|rewrite Hv in Hid; done].
    destruct Hv as (k & m' & ->%as_bytes_inj & Hvs & Hd).
    apply elem_of_map_to_list in E. rewrite <- Hi in E. apply list_elem_of_lookup in E as [i Hei].
    destruct (Forall2_lookup_l _ _ _ _ _ F Hei) as (m'' & Hl & Hd'). simpl in Hd'.
    apply list_elem_of_lookup. exists i. congruence.
Qed.

(** ** Properties *)

(** C19. The metadata store implements two maps, from keys to key records and
    from volume ids to volume records: every operation that succeeds acts on
    the map it is about and leaves the other alone, what is put is what is
    read, [list_keys] lists every key once, and [get_healthy_volumes] lists
    the volumes that are alive. *)
Theorem metadata_implements_maps s ks vs :
  represents s ks vs →
  (∀ meta s', valid_str (km_key meta) = true → meta_put_key meta s = Ok s' →
     represents s' (<[km_key meta := meta]> ks) vs) ∧
  (∀ key s', meta_delete_key key s = Ok s' → represents s' (delete key ks) vs) ∧
  (∀ meta s', put_volume meta s = Ok s' → represents s' ks (<[vm_volume_id meta := meta]> vs)) ∧
  (∀ key value s', put_config key value s = Ok s' → represents s' ks vs) ∧
  (∀ key o, meta_get_key key s = Ok o → o = ks !! key) ∧
  (∀ id o, get_volume id s = Ok o → o = vs !! id) ∧
  (∀ l, list_keys s = Ok l → NoDup l ∧ ∀ k, k ∈ l ↔ is_Some (ks !! k)) ∧
  (∀ l, get_healthy_volumes s = Ok l →
     ∀ m, m ∈ l ↔ vm_state m = Alive ∧ ∃ id, vs !! id = Some m).
Proof.
  intros R. split; [intros; by apply (represents_put_key s)|].
  split; [intros; by apply (represents_delete_key s)|].
  split; [intros; by apply (represents_put_volume s)|].
  split; [intros; by eapply (represents_put_config s)|].
  split; [intros; by eapply get_key_represents|]. split; [intros; by eapply get_volume_represents|].
  split; [intros; by eapply list_keys_spec|].
  intros l H m. unfold get_healthy_volumes in H. bind_inv H. simplify_eq.
  rewrite list_elem_of_filter, (list_volumes_elem s ks vs a R E). f_equiv.
  unfold is_healthy. by destruct (vm_state m).
Qed.
End metadata.

(** ** Witness *)
#[export] Instance NodeState_countable : Countable NodeState.
Proof.
  apply (inj_countable' (λ s, match s with Alive => 0 | Suspect => 1 | Dead => 2 | Draining => 3 end)
    (λ z, if z =? 0 then Alive else if z =? 1 then Suspect else if z =? 2 then Dead else Draining)).
  by intros [].
Defined.
#[export] Instance KeyState_countable : Countable KeyState.
Proof.
  apply (inj_countable' (λ s, match s with Active => true | Tombstone => false end)
    (λ b : bool, if b then Active else Tombstone)). by intros [].
Defined.
#[export] Instance KeyMetadata_countable : Countable KeyMetadata.
Proof.
  apply (inj_countable' (λ m, (km_key m, km_replicas m, km_size m, km_blake3 m, km_created_at m,
      km_updated_at m, km_state m)) (λ '(a, b, c, d, e, f, g), mkKeyMetadata a b c d e f g)).
  by intros [].
Defined.
#[export] Instance VolumeMetadata_countable : Countable VolumeMetadata.
Proof.
  apply (inj_countable' (λ m, (vm_volume_id m, vm_address m, vm_grpc_address m, vm_state m,
      vm_shards m, vm_total_keys m, vm_total_bytes m, vm_free_bytes m, vm_last_heartbeat m))
    (λ '(a, b, c, d, e, f, g, h, i), mkVolumeMetadata a b c d e f g h i)).
  by intros [].
Defined.

Definition ex_meta : KeyMetadata := mkKeyMetadata "k" ["v1"] 3 "" 1 2 Active.

Definition ex_db : DB (Rocks := mem_rocks) := λ _, ∅.
Definition ex_db_put : DB (Rocks := mem_rocks) :=
  match meta_put_key (RK := mem_rocks) (BK := countable_bincode KeyMetadata) ex_meta ex_db with
  | Ok s => s
  | Err _ => ex_db
  end.

Lemma metadata_implements_maps_witness :
  represents (RK := mem_rocks) (BK := countable_bincode KeyMetadata)
    (BV := countable_bincode VolumeMetadata) ex_db_put (<[km_key ex_meta := ex_meta]> ∅) ∅.
Proof.
  apply (metadata_implements_maps (RK := mem_rocks) (BK := countable_bincode KeyMetadata)
    (BV := countable_bincode VolumeMetadata) ex_db ∅ ∅).
  - split; intros b; simpl; unfold ex_db; rewrite lookup_empty; intros k _; apply lookup_empty.
  - reflexivity.
  - reflexivity.
Defined.
