(* ===== verification/Placement.v ===== *)
(** * Placement of keys on volumes

    [src/coordinator/placement.rs]: selecting the volumes of a key among the
    healthy ones, and assigning shards to volumes. *)

From Stdlib Require Import ZArith Lia.
From stdpp Require Import base option list gmap strings.
From S2P Require Import Prelude Bytes Text Errors External Utils Hash Metadata.

Record PlacementManager := mkPlacement {
  ring : ConsistentHashRing;
  replicas : Z;
  pm_num_shards : Z;
}.

Section placement.
Context {B3 : Blake3}.

Definition placement_new (num_shards replicas : Z) : PlacementManager :=
  mkPlacement (ring_new num_shards) replicas num_shards.

(** [volumes.iter().filter(|v| v.state.is_healthy()).map(|v| v.volume_id.clone())] *)
Definition healthy_ids (volumes : list VolumeMetadata) : list string :=
  map vm_volume_id (filter (λ v, is_healthy (vm_state v) = true) volumes).

Definition select_volumes (pm : PlacementManager) (key : string) (volumes : list VolumeMetadata)
    : Result (list string) :=
  if bool_decide (volumes = []) then Err NoHealthyVolumes else
  let healthy := healthy_ids volumes in
  if bool_decide (healthy = []) then Err NoHealthyVolumes else
  let selected := select_replicas key healthy (replicas pm) in
  if zlen selected <? replicas pm
  then Err (InsufficientReplicas (replicas pm) (zlen selected))
  else Ok selected.

Definition get_shard (pm : PlacementManager) (key : string) : may_panic Z :=
  shard_key key (pm_num_shards pm).

Definition placement_rebalance (volumes : list VolumeMetadata) (pm : PlacementManager)
    : PlacementManager :=
  let available := healthy_ids volumes in
  mkPlacement (ring_rebalance available (replicas pm) (ring pm)) (replicas pm) (pm_num_shards pm).

Definition get_shard_volumes (pm : PlacementManager) (shard : Z) : option (list string) :=
  get_shard_nodes shard (ring pm).

(** ** Lemmas *)
Lemma elem_of_healthy_ids volumes id :
  id ∈ healthy_ids volumes ↔ ∃ v, v ∈ volumes ∧ vm_state v = Alive ∧ vm_volume_id v = id.
Proof.
  unfold healthy_ids. rewrite list_elem_of_In, in_map_iff. split.
  - intros (v & <- & [Hh Hv]%list_elem_of_In%list_elem_of_filter). exists v.
    unfold is_healthy in Hh. destruct (vm_state v) eqn:E; done.
  - intros (v & Hv & Hs & <-). exists v. split; [done|].
    apply list_elem_of_In, list_elem_of_filter. by rewrite Hs.
Qed.

(** ** Properties *)

(** C17. [select_volumes], on every branch.  It succeeds exactly when the
    number of healthy volumes is at least the number of replicas and not zero,
    and then it returns that many different healthy volumes.  Otherwise it
    says that there is no healthy volume, or how many replicas it needs and
    how many there are. *)
Theorem select_volumes_spec pm key volumes :
  NoDup (map vm_volume_id volumes) → 0 ≤ replicas pm →
  match select_volumes pm key volumes with
  | Ok selected =>
      zlen selected = replicas pm ∧ NoDup selected ∧ healthy_ids volumes ≠ [] ∧
      ∀ id, id ∈ selected → ∃ v, v ∈ volumes ∧ vm_state v = Alive ∧ vm_volume_id v = id
  | Err e =>
      healthy_ids volumes = [] ∧ e = NoHealthyVolumes ∨
      healthy_ids volumes ≠ [] ∧ zlen (healthy_ids volumes) < replicas pm ∧
      e = InsufficientReplicas (replicas pm) (zlen (healthy_ids volumes))
  end.
Proof.
  intros Hnd Hr. unfold select_volumes.
  assert (NoDup (healthy_ids volumes)) as Hnd'.
  { apply (sublist_NoDup _ (map vm_volume_id volumes)); [done|].
    apply fmap_sublist, sublist_filter. }
  case_bool_decide as Hv; [left; by subst|]. case_bool_decide as Hh; [by left|].
  pose proof (length_select_replicas key (healthy_ids volumes) (replicas pm) Hr) as Hl.
  destruct (Z.ltb_spec (zlen (select_replicas key (healthy_ids volumes) (replicas pm))) (replicas pm)).
  - right. split; [done|]. split; [lia|]. f_equal. lia.
  - split; [lia|]. split; [by apply select_replicas_nodup|]. split; [done|].
    intros id Hid. apply select_replicas_incl in Hid. by apply elem_of_healthy_ids.
Qed.

(** After [rebalance] the ring has an assignment for every shard, to
    healthy volumes only, with as many replicas as asked for when there are
    that many healthy volumes; and the shard of every key is assigned. *)
Theorem placement_rebalance_assigns pm volumes :
  0 ≤ replicas pm → num_shards (ring pm) = pm_num_shards pm → 0 < pm_num_shards pm →
  let pm' := placement_rebalance volumes pm in
  (∀ shard, 0 ≤ shard < pm_num_shards pm → ∃ ids,
     get_shard_volumes pm' shard = Some ids ∧
     zlen ids = Z.min (replicas pm) (zlen (healthy_ids volumes)) ∧
     ∀ id, id ∈ ids → id ∈ healthy_ids volumes) ∧
  (∀ key, ∃ shard ids, get_shard pm' key = Returns shard ∧
     get_shard_volumes pm' shard = Some ids).
Proof.
  intros Hr Hn Hpos. simpl.
  assert (∀ shard, 0 ≤ shard < pm_num_shards pm →
    get_shard_volumes (placement_rebalance volumes pm) shard =
    Some (select_replicas ("shard-" +:+ show_dec shard) (healthy_ids volumes) (replicas pm))) as Hall.
  { intros shard Hs. unfold get_shard_volumes, placement_rebalance, get_shard_nodes, ring_rebalance.
    simpl. destruct (ring_rebalance_lookup (healthy_ids volumes) (replicas pm)
      (shard_range (num_shards (ring pm))) (ring pm) shard) as [_ ->].
    by rewrite decide_True by (apply elem_of_shard_range; lia). }
  split.
  - intros shard Hs. eexists. split; [by apply Hall|]. split; [by apply length_select_replicas|].
    intros id. apply select_replicas_incl.
  - intros key. unfold get_shard. simpl. unfold shard_key.
    rewrite (proj2 (Z.eqb_neq _ 0)) by lia. eexists _, _. split; [done|].
    apply Hall. by apply Z.mod_pos_bound.
Qed.
End placement.

(** ** Witnesses *)
Definition ex_volume (id : string) (s : NodeState) : VolumeMetadata :=
  mkVolumeMetadata id "" "" s [] 0 0 0 0.
Definition ex_volumes : list VolumeMetadata :=
  [ex_volume "vol-1" Alive; ex_volume "vol-2" Dead; ex_volume "vol-3" Alive].

Lemma select_volumes_spec_witness :
  match select_volumes (B3 := toy_blake3) (placement_new 256 2) "test-key" ex_volumes with
  | Ok selected => zlen selected = 2
  | Err e => e = NoHealthyVolumes ∨ e = InsufficientReplicas 2 (zlen (healthy_ids ex_volumes))
  end.
Proof.
  pose proof (select_volumes_spec (B3 := toy_blake3) (placement_new 256 2) "test-key" ex_volumes) as H.
  destruct (select_volumes _ _ _).
  - apply H; [by apply (bool_decide_unpack _)|vm_compute; discriminate].
  - destruct H as [[_ H]|(_ & _ & H)];
      [by apply (bool_decide_unpack _)|vm_compute; discriminate|left; exact H|right; exact H].
Defined.

Lemma placement_rebalance_assigns_witness :
  ∃ shard ids,
    get_shard (B3 := toy_blake3)
      (placement_rebalance (B3 := toy_blake3) ex_volumes (placement_new 256 2)) "k" = Returns shard ∧
    get_shard_volumes
      (placement_rebalance (B3 := toy_blake3) ex_volumes (placement_new 256 2)) shard = Some ids.
Proof.
  destruct (placement_rebalance_assigns (B3 := toy_blake3) (placement_new 256 2) ex_volumes)
    as [_ H]; [vm_compute; discriminate|reflexivity|reflexivity|]. exact (H "k"%string).
Defined.
