(* ===== verification/Threads.v ===== *)
(** * Threads that share data behind locks

    The components of [src/] are shared between tasks, their fields behind
    [Mutex] and [RwLock].  A method is here a program that takes and drops
    guards and reads and writes the field a guard gives access to; a pool of
    threads runs such programs, one step of one thread at a time, in any order.
    A lock that is not free blocks the thread; a [Mutex] is an [RwLock] that is
    only taken for writing.  Whether readers wait behind a writer that waits is
    left to the platform by [std::sync::RwLock]; both policies are modelled
    ([writers_first]).

    Two theorems for all programs: threads that take their locks in the order
    of a rank all finish, whatever the schedule ([ordered_complete]); programs
    that hold one common lock from their first to their last step are atomic,
    every interleaving is one of the serial executions ([critical_atomic]). *)

From Stdlib Require Import ZArith Lia Wellfounded.
From stdpp Require Import base option list relations.
From S2P Require Import Prelude.

Inductive lock_mode := Shared | Exclusive.
#[export] Instance lock_mode_eq_dec : EqDecision lock_mode.
Proof. solve_decision. Defined.

(** Data of type [S] whose fields are behind locks of their own. *)
Class Guarded (S : Type) := {
  lock : Type;
  lock_eq_dec :: EqDecision lock;
  cell : lock → Type;
  read_cell : ∀ l, S → cell l;
  write_cell : ∀ l, cell l → S → S;
}.

Section programs.
Context {S : Type} {GS : Guarded S}.

(** [Release] is the end of the scope of a guard; [Load] and [Store] go
    through the guard of a lock that is held. *)
Inductive prog (A : Type) : Type :=
  | Done (a : A)
  | Acquire (l : lock) (m : lock_mode) (k : prog A)
  | Release (l : lock) (k : prog A)
  | Load (l : lock) (k : cell l → prog A)
  | Store (l : lock) (v : cell l) (k : prog A).
#[global] Arguments Done {A} a.
#[global] Arguments Acquire {A} l m k.
#[global] Arguments Release {A} l k.
#[global] Arguments Load {A} l k.
#[global] Arguments Store {A} l v k.

(** Calling a method of the same object. *)
Fixpoint prog_bind {A B} (p : prog A) (f : A → prog B) : prog B :=
  match p with
  | Done a => f a
  | Acquire l m k => Acquire l m (prog_bind k f)
  | Release l k => Release l (prog_bind k f)
  | Load l k => Load l (λ v, prog_bind (k v) f)
  | Store l v k => Store l v (prog_bind k f)
  end.

(** [self.l.lock().unwrap().clone()] and [*self.l.lock().unwrap() = v]: the guard
    is a temporary of the statement. *)
Definition peek (l : lock) : prog (cell l) := Acquire l Exclusive (Load l (λ v, Release l (Done v))).
Definition poke (l : lock) (v : cell l) : prog unit :=
  Acquire l Exclusive (Store l v (Release l (Done tt))).

(** Running alone, where every lock is free. *)
Fixpoint exec {A} (p : prog A) (s : S) : S * A :=
  match p with
  | Done a => (s, a)
  | Acquire _ _ k | Release _ k => exec k s
  | Load l k => exec (k (read_cell l s)) s
  | Store l v k => exec k (write_cell l v s)
  end.

(** ** Pools *)
Record thread (A : Type) := mkThread { held : list (lock * lock_mode); code : prog A }.
#[global] Arguments mkThread {A} held code.
#[global] Arguments held {A} t.
#[global] Arguments code {A} t.

Definition waits_to_write {A} (l : lock) (t : thread A) : bool :=
  match code t with Acquire l' Exclusive _ => bool_decide (l' = l) | _ => false end.
Definition has_lock {A} (l : lock) (t : thread A) : bool := existsb (λ x, bool_decide (x.1 = l)) (held t).
Definition has_write_lock {A} (l : lock) (t : thread A) : bool :=
  existsb (λ x, bool_decide (x = (l, Exclusive))) (held t).

(** A writer needs the lock to itself; a reader must not meet a writer, nor,
    with [writers_first], one that waits for the lock to become free. *)
Definition can_acquire {A} (writers_first : bool) (ts : list (thread A)) (l : lock) (m : lock_mode) : bool :=
  match m with
  | Exclusive => negb (existsb (has_lock l) ts)
  | Shared => negb (existsb (has_write_lock l) ts)
              && negb (writers_first && existsb (has_lock l) ts && existsb (waits_to_write l) ts)
  end.

Definition release (l : lock) (h : list (lock * lock_mode)) : list (lock * lock_mode) :=
  filter (λ x, x.1 ≠ l) h.

(** One step of thread [i]; [None] when it has finished or is blocked. *)
Definition step_thread {A} (writers_first : bool) (i : nat) (c : list (thread A) * S)
    : option (list (thread A) * S) :=
  let '(ts, s) := c in
  t ← ts !! i;
  match code t with
  | Done _ => None
  | Acquire l m k =>
      if can_acquire writers_first ts l m
      then Some (<[i := mkThread ((l, m) :: held t) k]> ts, s) else None
  | Release l k => Some (<[i := mkThread (release l (held t)) k]> ts, s)
  | Load l k => Some (<[i := mkThread (held t) (k (read_cell l s))]> ts, s)
  | Store l v k => Some (<[i := mkThread (held t) k]> ts, write_cell l v s)
  end.

Definition pool_step {A} (writers_first : bool) (c c' : list (thread A) * S) : Prop :=
  ∃ i, step_thread writers_first i c = Some c'.

Fixpoint run_schedule {A} (writers_first : bool) (schedule : list nat) (c : list (thread A) * S)
    : option (list (thread A) * S) :=
  match schedule with
  | [] => Some c
  | i :: schedule => c' ← step_thread writers_first i c; run_schedule writers_first schedule c'
  end.

Definition start {A} (ps : list (prog A)) (s : S) : list (thread A) * S := (map (mkThread []) ps, s).
Definition finished {A} (t : thread A) : Prop := ∃ a, code t = Done a.
(** Nobody can move, and somebody has not finished. *)
Definition deadlock {A} (writers_first : bool) (c : list (thread A) * S) : Prop :=
  nf (pool_step writers_first) c ∧ ¬ Forall finished c.1.

Lemma run_schedule_rtc {A} wf schedule (c c' : list (thread A) * S) :
  run_schedule wf schedule c = Some c' → rtc (pool_step wf) c c'.
Proof.
  revert c. induction schedule as [|i schedule IH]; intros c; simpl; [intros [= <-]; constructor|].
  intros (c1 & H1 & H2)%bind_Some. eapply rtc_l; [by exists i|]. by apply IH.
Qed.

(** ** Every execution is finite *)
Definition smaller {A} (q p : prog A) : Prop :=
  match p with
  | Done _ => False
  | Acquire _ _ k | Release _ k | Store _ _ k => q = k
  | Load _ k => ∃ v, q = k v
  end.

Lemma smaller_wf {A} : well_founded (@smaller A).
Proof.
  intros p. induction p as [a|l m k IH|l k IH|l k IH|l v k IH]; constructor; simpl; intros q Hq.
  - contradiction.
  - by rewrite Hq.
  - by rewrite Hq.
  - destruct Hq as [v ->]. apply IH.
  - by rewrite Hq.
Qed.

(** Replacing one element of a list by a smaller one. *)
Definition one_smaller {A} (ts' ts : list (thread A)) : Prop :=
  ∃ i t t', ts !! i = Some t ∧ ts' = <[i := t']> ts ∧ smaller (code t') (code t).

Lemma one_smaller_cons {A} (p : prog A) h ts : Acc one_smaller ts → Acc one_smaller (mkThread h p :: ts).
Proof.
  intros Hts. revert h ts Hts. induction (smaller_wf p) as [p _ IHp]. intros h ts Hts.
  revert h. induction Hts as [ts Hts IHts]. intros h. constructor.
  intros ts' ([|i] & t & t' & Ht & -> & Hs); simpl in *.
  - injection Ht as <-. destruct t' as [h' p']. apply IHp; [exact Hs|]. by constructor.
  - apply IHts. exists i, t, t'. done.
Qed.

Lemma one_smaller_wf {A} : well_founded (@one_smaller A).
Proof.
  intros ts. induction ts as [|[h p] ts IH]; [|by apply one_smaller_cons].
  constructor. intros ts' (i & t & t' & Ht & _). rewrite lookup_nil in Ht. discriminate.
Qed.

Lemma step_thread_smaller {A} wf i (c c' : list (thread A) * S) :
  step_thread wf i c = Some c' → one_smaller c'.1 c.1.
Proof.
  destruct c as [ts s]. simpl. intros (t & Ht & H)%bind_Some.
  destruct (code t) eqn:E; [done|destruct (can_acquire _ _ _ _); [|done]|..];
    injection H as <-; exists i, t; eexists; (split; [done|]; split; [done|]); rewrite E; simpl; eauto.
Qed.

Lemma pool_step_sn {A} wf (c : list (thread A) * S) : sn (pool_step wf) c.
Proof.
  destruct c as [ts s]. revert s. induction (one_smaller_wf ts) as [ts _ IH].
  intros s. constructor. intros [ts' s'] [i Hi]. apply IH. by apply (step_thread_smaller wf i (ts, s) (ts', s')).
Qed.

(** ** Locks taken in order

    [want l m] is the rank of a request for a lock, [hold l m] that of a lock
    that is held.  Whoever waits for a lock must not have a higher rank than
    those it waits for. *)
Record ranking := mkRanking { want : lock → lock_mode → nat; hold : lock → lock_mode → nat }.
(** The same rank for every use of a lock. *)
Definition lock_rank (rank : lock → nat) : ranking := mkRanking (λ l _, rank l) (λ l _, rank l).

Definition ranking_ok (writers_first : bool) (r : ranking) : Prop :=
  (∀ l m, want r l m ≤ hold r l Exclusive)%nat ∧ (∀ l, want r l Exclusive ≤ hold r l Shared)%nat ∧
  (writers_first = true → ∀ l, want r l Shared ≤ want r l Exclusive)%nat.

Lemma lock_rank_ok writers_first rank : ranking_ok writers_first (lock_rank rank).
Proof. unfold ranking_ok. simpl. auto. Qed.

(** [ordered r h p h']: started with the locks [h], the program requests only
    locks of a higher rank than those it holds, uses only what it has locked
    (for writing, if it writes), and ends with the locks [h']. *)
Fixpoint ordered {A} (r : ranking) (h : list (lock * lock_mode)) (p : prog A)
    (h' : list (lock * lock_mode)) : Prop :=
  match p with
  | Done _ => h = h'
  | Acquire l m k => Forall (λ x, hold r x.1 x.2 < want r l m)%nat h ∧ ordered r ((l, m) :: h) k h'
  | Release l k => ordered r (release l h) k h'
  | Load l k => l ∈ h.*1 ∧ ∀ v, ordered r h (k v) h'
  | Store l v k => (l, Exclusive) ∈ h ∧ ordered r h k h'
  end.

Definition orderly {A} (r : ranking) (t : thread A) : Prop := ordered r (held t) (code t) [].

Lemma step_orderly {A} wf r (c c' : list (thread A) * S) :
  pool_step wf c c' → Forall (orderly r) c.1 → Forall (orderly r) c'.1.
Proof.
  destruct c as [ts s]. intros [i Hi] HF. simpl in *. apply bind_Some in Hi as (t & Ht & H).
  pose proof (Forall_lookup_1 _ _ _ _ HF Ht) as Ho. unfold orderly in Ho.
  destruct (code t); simpl in Ho; [done|destruct (can_acquire _ _ _ _); [|done]|..];
    injection H as <-; simpl; (apply Forall_insert; [done|]); unfold orderly; simpl; naive_solver.
Qed.

Lemma exists_maximum {B} (f : B → nat) (l : list B) :
  l ≠ [] → ∃ x, x ∈ l ∧ ∀ y, y ∈ l → (f y ≤ f x)%nat.
Proof.
  induction l as [|x l IH]; [done|intros _]. destruct l as [|y l].
  - exists x. set_solver.
  - destruct IH as (z & Hz & Hmax); [done|]. destruct (decide (f z ≤ f x)%nat).
    + exists x. split; [set_solver|]. intros w [->|Hw]%elem_of_cons; [done|]. specialize (Hmax w Hw). lia.
    + exists z. split; [set_solver|]. intros w [->|Hw]%elem_of_cons; [lia|]. by apply Hmax.
Qed.

(** The lock an unfinished thread that cannot move is waiting for. *)
Lemma stuck_waits {A} wf ts s (t : thread A) :
  nf (pool_step wf) (ts, s) → t ∈ ts → ¬ finished t →
  ∃ l m k, code t = Acquire l m k ∧ can_acquire wf ts l m = false.
Proof.
  intros Hnf [i Hi]%list_elem_of_lookup Hf.
  assert (step_thread wf i (ts, s) = None) as HN.
  { destruct (step_thread wf i (ts, s)) as [c|] eqn:E; [|done]. destruct Hnf. exists c. by exists i. }
  simpl in HN. rewrite Hi in HN. simpl in HN. destruct (code t) as [a|l m k| | |] eqn:E; try done.
  - destruct Hf. by exists a.
  - exists l, m, k. split; [done|]. by destruct (can_acquire wf ts l m).
Qed.

(** Who stands in the way of a request. *)
Lemma blocked_writer {A} wf (ts : list (thread A)) l :
  can_acquire wf ts l Exclusive = false → ∃ t m, t ∈ ts ∧ (l, m) ∈ held t.
Proof.
  simpl. rewrite negb_false_iff, existsb_exists. intros (t & Ht & Hx).
  apply existsb_exists in Hx as ([l' m] & Hx & E%bool_decide_eq_true). simpl in E. subst l'.
  exists t, m. split; by apply list_elem_of_In.
Qed.

Lemma blocked_reader {A} wf (ts : list (thread A)) l :
  can_acquire wf ts l Shared = false →
  ∃ t, t ∈ ts ∧ ((l, Exclusive) ∈ held t ∨ wf = true ∧ ∃ k, code t = Acquire l Exclusive k).
Proof.
  simpl. rewrite andb_false_iff, !negb_false_iff, !andb_true_iff, !existsb_exists.
  intros [(t & Ht & Hx)|[[Hwf _] (t & Ht & Hx)]]; exists t; (split; [by apply list_elem_of_In|]).
  - left. apply existsb_exists in Hx as (x & Hx & E%bool_decide_eq_true). subst x.
    by apply list_elem_of_In.
  - right. split; [done|]. unfold waits_to_write in Hx. destruct (code t) as [|l' [] k| | |]; try done.
    apply bool_decide_eq_true in Hx as ->. by exists k.
Qed.

Definition wanted_rank {A} (r : ranking) (t : thread A) : nat :=
  match code t with Acquire l m _ => (1 + want r l m)%nat | _ => 0%nat end.

Lemma ordered_holder {A} wf r ts s (t : thread A) l m :
  Forall (orderly r) ts → nf (pool_step wf) (ts, s) → t ∈ ts → (l, m) ∈ held t →
  (1 + hold r l m < wanted_rank r t)%nat.
Proof.
  intros HF Hnf Ht Hl. pose proof (proj1 (Forall_forall _ _) HF t Ht) as Ho. unfold orderly in Ho.
  destruct (stuck_waits wf ts s t Hnf Ht) as (l' & m' & k & E & _).
  - intros [a E]. rewrite E in Ho. simpl in Ho. rewrite Ho in Hl. set_solver.
  - unfold wanted_rank. rewrite E in *. destruct Ho as [Ho _].
    pose proof (proj1 (Forall_forall _ _) Ho (l, m) Hl) as Hlt. simpl in Hlt. lia.
Qed.

(** A thread that waits, waits for one that waits for something higher. *)
Lemma ordered_waits_up {A} wf r ts s (t : thread A) :
  ranking_ok wf r → Forall (orderly r) ts → nf (pool_step wf) (ts, s) → t ∈ ts → ¬ finished t →
  (0 < wanted_rank r t)%nat ∧ ∃ t', t' ∈ ts ∧ (wanted_rank r t < wanted_rank r t')%nat.
Proof.
  intros (R1 & R2 & R3) HF Hnf Ht Hu.
  destruct (stuck_waits wf ts s t Hnf Ht Hu) as (l & m & k & E & B).
  unfold wanted_rank at 1 2. rewrite E. split; [lia|].
  assert (∃ t' m', (t' ∈ ts ∧ (l, m') ∈ held t') ∧ (want r l m ≤ hold r l m')%nat)
    as (t' & m' & [Ht' Hl] & Hle).
  { destruct m.
    - destruct (blocked_reader _ _ _ B) as (t' & Ht' & [Hl|[Hwf [k' E']]]); [by exists t', Exclusive|].
      destruct (stuck_waits wf ts s t' Hnf Ht') as (l' & m' & k'' & E'' & B'); [intros [a Ha]; congruence|].
      rewrite E' in E''. injection E'' as <- <- <-.
      destruct (blocked_writer _ _ _ B') as (t'' & m'' & Ht'' & Hl''). exists t'', m''. split; [done|].
      specialize (R3 Hwf l). specialize (R2 l). specialize (R1 l Exclusive). destruct m''; lia.
    - destruct (blocked_writer _ _ _ B) as (t' & m' & Ht' & Hl). exists t', m'. split; [done|].
      destruct m'; auto. }
  exists t'. split; [done|].
  pose proof (ordered_holder wf r ts s t' l m' HF Hnf Ht' Hl). lia.
Qed.

Lemma ordered_progress {A} wf r (c : list (thread A) * S) :
  ranking_ok wf r → Forall (orderly r) c.1 → nf (pool_step wf) c → Forall finished c.1.
Proof.
  destruct c as [ts s]. simpl. intros Hr HF Hnf. apply Forall_forall. intros u Hu.
  destruct (exists_maximum (wanted_rank r) ts) as (t & Ht & Hmax); [by intros ->; set_solver|].
  assert (∀ v : thread A, finished v ∨ ¬ finished v) as Hdec.
  { intros v. unfold finished. destruct (code v); [by left; eexists|right; by intros [? ?]..]. }
  destruct (Hdec u) as [|Hnu]; [done|exfalso].
  destruct (ordered_waits_up wf r ts s u Hr HF Hnf Hu Hnu) as [Hpos _].
  destruct (Hdec t) as [[a E]|Hnt].
  - specialize (Hmax u Hu). unfold wanted_rank at 2 in Hmax. rewrite E in Hmax. lia.
  - destruct (ordered_waits_up wf r ts s t Hr HF Hnf Ht Hnt) as (_ & t' & Ht' & Hlt).
    specialize (Hmax t' Ht'). lia.
Qed.

(** Threads that take their locks in order finish: every execution is finite,
    and one that cannot go on has finished all of them. *)
Lemma ordered_complete {A} wf r (ps : list (prog A)) s :
  ranking_ok wf r → Forall (λ p, ordered r [] p []) ps →
  sn (pool_step wf) (start ps s) ∧
  ∀ c, rtc (pool_step wf) (start ps s) c → nf (pool_step wf) c → Forall finished c.1.
Proof.
  intros Hr HF. split; [apply pool_step_sn|]. intros c Hrtc Hnf.
  apply (ordered_progress wf r); [done| |done].
  assert (Forall (orderly r) (start ps s).1) as H0 by (simpl; by apply Forall_map).
  clear Hnf HF. induction Hrtc as [|c1 c2 c3 Hs _ IH]; [done|].
  by apply IH, (step_orderly wf r c1).
Qed.

(** ** Programs under one lock

    From its first to its last step the program holds [g] for writing. *)
Fixpoint inside {A} (g : lock) (p : prog A) : Prop :=
  match p with
  | Done _ => False
  | Acquire l _ k => l ≠ g ∧ inside g k
  | Release l k => if decide (l = g) then ∃ a, k = Done a else inside g k
  | Load _ k => ∀ v, inside g (k v)
  | Store _ _ k => inside g k
  end.
Definition critical {A} (g : lock) (p : prog A) : Prop :=
  match p with Acquire l Exclusive k => l = g ∧ inside g k | _ => False end.

(** The programs run one after the other, each alone. *)
Fixpoint serial {A} (ps : list (prog A)) (order : list nat) (s : S) : S * list (nat * A) :=
  match order with
  | [] => (s, [])
  | i :: order =>
      match ps !! i with
      | Some p => let '(s1, a) := exec p s in
                  let '(s2, rs) := serial ps order s1 in (s2, (i, a) :: rs)
      | None => serial ps order s
      end
  end.

Lemma serial_snoc {A} (ps : list (prog A)) order i p s :
  ps !! i = Some p →
  serial ps (order ++ [i]) s =
  let '(s1, rs) := serial ps order s in let '(s2, a) := exec p s1 in (s2, rs ++ [(i, a)]).
Proof.
  intros Hp. revert s. induction order as [|j order IH]; intros s; simpl.
  { rewrite Hp. by destruct (exec p s). }
  destruct (ps !! j) as [q|]; [|apply IH]. destruct (exec q s) as [s1 b]. rewrite IH.
  destruct (serial ps order s1) as [s2 rs]. by destruct (exec p s2).
Qed.

(** During a run of critical programs: those of [order] have finished, with
    the results of the serial execution; at most one is under way, and what is
    left of it does from here what all of it does from the serial state; the
    others have not begun. *)
Record atomic_inv {A} (g : lock) (ps : list (prog A)) (s0 : S) (order : list nat)
    (active : option nat) (ts : list (thread A)) (s : S) : Prop := {
  ai_length : length ts = length ps;
  ai_nodup : NoDup order;
  ai_waiting i p : ps !! i = Some p → i ∉ order → active ≠ Some i → ts !! i = Some (mkThread [] p);
  ai_done i : i ∈ order →
    ∃ t a, ts !! i = Some t ∧ code t = Done a ∧ (i, a) ∈ (serial ps order s0).2;
  ai_state : match active with
             | None => s = (serial ps order s0).1
             | Some i => (i ∉ order) ∧ ∃ p t, ps !! i = Some p ∧ ts !! i = Some t ∧
                 (g, Exclusive) ∈ held t ∧ inside g (code t) ∧
                 exec (code t) s = exec p (serial ps order s0).1
             end;
}.

Lemma atomic_inv_start {A} g (ps : list (prog A)) s :
  atomic_inv g ps s [] None (start ps s).1 s.
Proof.
  split; simpl; [by rewrite length_map|constructor|..|done].
  - intros i p Hp _ _. by rewrite list_lookup_fmap, Hp.
  - intros i Hi. set_solver.
Qed.

(** While one is under way nobody else gets the lock. *)
Lemma atomic_inv_exclusive {A} wf g ps s0 order active (ts : list (thread A)) s :
  atomic_inv g ps s0 order active ts s → can_acquire wf ts g Exclusive = true → active = None.
Proof.
  intros I H. destruct active as [i|]; [exfalso|done].
  destruct (ai_state _ _ _ _ _ _ _ I) as (_ & p & t & _ & Ht & Hg & _).
  revert H. simpl. rewrite negb_true_iff. intros H%not_true_iff_false. apply H.
  apply existsb_exists. exists t. split; [apply list_elem_of_In; by eapply list_elem_of_lookup_2|].
  apply existsb_exists. exists (g, Exclusive). split; [by apply list_elem_of_In|].
  by rewrite bool_decide_true.
Qed.
(** Entering, and going on. *)
Lemma atomic_inv_active {A} g ps s0 order active i p (ts : list (thread A)) s t' s' :
  atomic_inv g ps s0 order active ts s → active = None ∨ active = Some i → i ∉ order →
  ps !! i = Some p → (g, Exclusive) ∈ held t' → inside g (code t') →
  exec (code t') s' = exec p (serial ps order s0).1 →
  atomic_inv g ps s0 order (Some i) (<[i := t']> ts) s'.
Proof.
  intros I Ha Hi Hp Hg Hin He. assert (i < length ts)%nat as Hlt.
  { rewrite (ai_length _ _ _ _ _ _ _ I). by eapply lookup_lt_Some. }
  split; [by rewrite length_insert, (ai_length _ _ _ _ _ _ _ I)|apply I|..].
  - intros j q Hq Hj Hij. rewrite list_lookup_insert_ne by congruence.
    apply (ai_waiting _ _ _ _ _ _ _ I); [done|done|]. destruct Ha as [->| ->]; congruence.
  - intros j Hj. rewrite list_lookup_insert_ne by congruence. by apply (ai_done _ _ _ _ _ _ _ I).
  - split; [done|]. exists p, t'. rewrite list_lookup_insert_eq by done. done.
Qed.

Lemma atomic_inv_finish {A} g ps s0 order i (ts : list (thread A)) s t t' a :
  atomic_inv g ps s0 order (Some i) ts s → ts !! i = Some t → exec (code t) s = (s, a) → code t' = Done a →
  atomic_inv g ps s0 (order ++ [i]) None (<[i := t']> ts) s.
Proof.
  intros I Ht He Hd. destruct (ai_state _ _ _ _ _ _ _ I) as (Hi & p & t1 & Hp & Ht1 & _ & _ & Hex).
  rewrite Ht in Ht1. injection Ht1 as <-. rewrite He in Hex. pose proof (serial_snoc ps order i p s0 Hp) as Hs.
  destruct (serial ps order s0) as [s1 rs] eqn:E1. simpl in Hex. rewrite <- Hex in Hs.
  split; [by rewrite length_insert, (ai_length _ _ _ _ _ _ _ I)|..].
  - apply NoDup_app. split; [apply I|]. split; [set_solver|apply NoDup_singleton].
  - intros j q Hq Hj _. rewrite list_lookup_insert_ne by set_solver.
    apply (ai_waiting _ _ _ _ _ _ _ I); [done|set_solver|set_solver].
  - intros j [Hj| ->%list_elem_of_singleton]%elem_of_app; rewrite Hs; simpl.
    + rewrite list_lookup_insert_ne by congruence.
      destruct (ai_done _ _ _ _ _ _ _ I j Hj) as (u & b & Hu & Hb & Hr). rewrite E1 in Hr.
      exists u, b. set_solver.
    + rewrite list_lookup_insert_eq by (by eapply lookup_lt_Some). exists t', a. set_solver.
  - by rewrite Hs.
Qed.

Lemma atomic_inv_step {A} wf g ps s0 order active (ts : list (thread A)) s c' :
  Forall (critical g) ps → atomic_inv g ps s0 order active ts s → pool_step wf (ts, s) c' →
  ∃ order' active', atomic_inv g ps s0 order' active' c'.1 c'.2.
Proof.
  intros Hcrit I [i Hi]. simpl in Hi. apply bind_Some in Hi as (t & Ht & H).
  assert (∃ p, ps !! i = Some p) as [p Hp].
  { apply lookup_lt_is_Some. rewrite <- (ai_length _ _ _ _ _ _ _ I). by eapply lookup_lt_Some. }
  destruct (decide (i ∈ order)) as [Hio|Hio].
  { destruct (ai_done _ _ _ _ _ _ _ I i Hio) as (u & a & Hu & Ea & _). rewrite Ht in Hu.
    injection Hu as <-. by rewrite Ea in H. }
  destruct (decide (active = Some i)) as [->|Hact].
  - destruct (ai_state _ _ _ _ _ _ _ I) as (_ & p1 & t1 & Hp1 & Ht1 & Hg & Hin & Hex).
    rewrite Hp in Hp1. injection Hp1 as <-. rewrite Ht in Ht1. injection Ht1 as <-.
    destruct (code t) as [a|l m k|l k|l k|l v k] eqn:Ec; simpl in Hin, Hex; [done|..].
    + destruct (can_acquire wf ts l m); [|done]. injection H as <-.
      exists order, (Some i). eapply (atomic_inv_active g ps s0 order (Some i) i p ts s); simpl; auto.
      * by apply elem_of_cons; right.
      * apply Hin.
    + injection H as <-. destruct (decide (l = g)) as [->|Hl].
      * destruct Hin as [a ->]. exists (order ++ [i]), None.
        eapply (atomic_inv_finish g ps s0 order i ts s t _ a); [done|done|by rewrite Ec|done].
      * exists order, (Some i). eapply (atomic_inv_active g ps s0 order (Some i) i p ts s); simpl; auto.
        apply list_elem_of_filter. simpl. split; [congruence|done].
    + injection H as <-. exists order, (Some i).
      eapply (atomic_inv_active g ps s0 order (Some i) i p ts s); simpl; auto.
    + injection H as <-. exists order, (Some i).
      eapply (atomic_inv_active g ps s0 order (Some i) i p ts s); simpl; auto.
  - pose proof (ai_waiting _ _ _ _ _ _ _ I i p Hp Hio Hact) as Hw. rewrite Ht in Hw. injection Hw as ->.
    pose proof (Forall_lookup_1 _ _ _ _ Hcrit Hp) as Hc. simpl in H.
    destruct p as [|l [] k| | |]; simpl in Hc; try done. destruct Hc as [-> Hin].
    change (negb _) with (can_acquire wf ts g Exclusive) in H.
    destruct (can_acquire wf ts g Exclusive) eqn:Hca; [|done]. injection H as <-. pose proof (atomic_inv_exclusive _ _ _ _ _ _ _ _ I Hca) as ->.
    exists order, (Some i). eapply (atomic_inv_active g ps s0 order None i _ ts s); simpl; eauto.
    + by left.
    + simpl. by rewrite (ai_state _ _ _ _ _ _ _ I).
Qed.

(** Programs under one lock are atomic: however a pool of them is scheduled,
    when all have finished the data and the results are those of running them
    one after the other, in some order. *)
Lemma critical_atomic {A} wf g (ps : list (prog A)) s0 ts s :
  Forall (critical g) ps → rtc (pool_step wf) (start ps s0) (ts, s) → Forall finished ts →
  ∃ order, order ≡ₚ seq 0 (length ps) ∧ (serial ps order s0).1 = s ∧
    ∀ i, (i < length ps)%nat → ∃ t a, ts !! i = Some t ∧ code t = Done a ∧ (i, a) ∈ (serial ps order s0).2.
Proof.
  intros Hcrit Hrtc Hfin.
  assert (∃ order active, atomic_inv g ps s0 order active ts s) as (order & active & I).
  { assert (∀ c c' : list (thread A) * S, rtc (pool_step wf) c c' →
      (∃ o a, atomic_inv g ps s0 o a c.1 c.2) → ∃ o a, atomic_inv g ps s0 o a c'.1 c'.2) as Hstar.
    { induction 1 as [|[ts1 s1] c2 c3 Hs _ IH]; [done|]. intros (o & a & I). apply IH.
      by eapply atomic_inv_step. }
    apply (Hstar _ _ Hrtc). exists [], None. apply atomic_inv_start. }
  assert (active = None) as ->.
  { destruct active as [i|]; [exfalso|done].
    destruct (ai_state _ _ _ _ _ _ _ I) as (_ & p & t & _ & Ht & _ & Hin & _).
    destruct (Forall_lookup_1 _ _ _ _ Hfin Ht) as [a Ea]. by rewrite Ea in Hin. }
  assert (∀ i, i ∈ order ↔ (i < length ps)%nat) as Hall.
  { intros i. split.
    - intros Hi. destruct (ai_done _ _ _ _ _ _ _ I i Hi) as (t & _ & Ht & _).
      rewrite <- (ai_length _ _ _ _ _ _ _ I). by eapply lookup_lt_Some.
    - intros [p Hp]%lookup_lt_is_Some. destruct (decide (i ∈ order)); [done|exfalso].
      pose proof (ai_waiting _ _ _ _ _ _ _ I i p Hp ltac:(done) ltac:(done)) as Ht.
      destruct (Forall_lookup_1 _ _ _ _ Hfin Ht) as [a Ea]. simpl in Ea. subst p.
      by pose proof (Forall_lookup_1 _ _ _ _ Hcrit Hp). }
  exists order. split.
  { apply NoDup_Permutation; [apply I|apply NoDup_seq|]. intros i. rewrite Hall, elem_of_seq. lia. }
  split; [by rewrite (ai_state _ _ _ _ _ _ _ I)|].
  intros i Hi. apply (ai_done _ _ _ _ _ _ _ I). by apply Hall.
Qed.
End programs.

(** ** Following a program step by step *)
Ltac order_rule :=
  match goal with
  | |- _ = _ => reflexivity
  | |- Forall _ _ ∧ _ => split; [repeat (constructor; [cbn; lia|]); constructor|]
  | |- _ ∈ _ ∧ _ => split; [cbn; repeat constructor|]
  | |- ∀ _, _ => intros ?
  | |- context [release ?l ?h] => let h' := eval vm_compute in (release l h) in change (release l h) with h'
  | |- context [if ?b then _ else _] => destruct b
  end.

Ltac critical_rule :=
  match goal with
  | |- _ = _ ∧ _ => split; [reflexivity|]
  | |- _ ≠ _ ∧ _ => split; [discriminate|]
  | |- ∀ _, _ => intros ?
  | |- ∃ _, _ => by eexists
  | |- context [decide (?a = ?b)] =>
      let E := fresh in destruct (decide (a = b)) as [E|E]; [try discriminate E|try (by destruct E)]
  | |- context [if ?b then _ else _] => destruct b
  end.
