(* ===== verification/Invariants.v ===== *)
(** * Invariants of data that threads share

    A proof rule for the programs of [Threads].  An invariant [I] of the data
    is kept by a pool of threads if each program, taken alone, keeps it whatever
    the other threads do to the fields it has not locked ([keeps]); and what a
    program answers then satisfies its postcondition.  A program may rely on
    [I], and on the fields it has locked not changing under its hands. *)

From stdpp Require Import base option list relations.
From S2P Require Import Prelude Threads.

(** The fields are independent of each other. *)
Class GuardedLaws (S : Type) `{!Guarded S} := {
  read_write_eq (l : lock) (v : cell l) s : read_cell l (write_cell l v s) = v;
  read_write_ne (l l' : lock) (v : cell l') s : l ≠ l' → read_cell l (write_cell l' v s) = read_cell l s;
}.

Section keeps.
Context {S : Type} {GS : Guarded S} {GL : GuardedLaws S}.
Context (I : S → Prop).

(** The two states have the same values in the fields that are locked. *)
Definition agree (h : list (lock * lock_mode)) (s s' : S) : Prop :=
  ∀ l, l ∈ h.*1 → read_cell l s = read_cell l s'.

(** [keeps Q h p s]: with the locks [h], on data that agree with [s] as far as
    they are locked, the program keeps [I] and answers something in [Q]. *)
Fixpoint keeps {A} (Q : A → Prop) (h : list (lock * lock_mode)) (p : prog A) (s : S) : Prop :=
  match p with
  | Done a => Q a
  | Acquire l m k => ∀ s', I s' → agree h s s' → keeps Q ((l, m) :: h) k s'
  | Release l k => keeps Q (release l h) k s
  | Load l k => l ∈ h.*1 ∧ keeps Q h (k (read_cell l s)) s
  | Store l v k =>
      (l, Exclusive) ∈ h ∧ (∀ s', I s' → agree h s s' → I (write_cell l v s')) ∧
      keeps Q h k (write_cell l v s)
  end.

(** Nobody holds a lock that somebody else holds for writing. *)
Definition exclusion {A} (ts : list (thread A)) : Prop :=
  ∀ i j ti tj l, i ≠ j → ts !! i = Some ti → ts !! j = Some tj →
    (l, Exclusive) ∈ held ti → l ∉ (held tj).*1.

(** The thread is on its way to keep [I] and to answer something in [Q]. *)
Definition keeping {A} (s : S) (Q : A → Prop) (t : thread A) : Prop :=
  ∃ s0, agree (held t) s0 s ∧ keeps Q (held t) (code t) s0.

Lemma agree_release h l s s' : agree h s s' → agree (release l h) s s'.
Proof.
  intros H k Hk. apply H. apply list_elem_of_fmap in Hk as (x & -> & [_ Hx]%list_elem_of_filter).
  apply list_elem_of_fmap. eauto.
Qed.
Lemma agree_write h l v s s' : agree h s s' → agree h (write_cell l v s) (write_cell l v s').
Proof.
  intros H k Hk. destruct (decide (k = l)) as [->|Hne]; [by rewrite !read_write_eq|].
  rewrite !read_write_ne by done. by apply H.
Qed.
Lemma agree_frame h l v s s' : l ∉ h.*1 → agree h s s' → agree h s (write_cell l v s').
Proof. intros Hl H k Hk. rewrite read_write_ne; [by apply H|]. by intros ->. Qed.

(** *** Exclusion *)
Lemma acquire_free {A} wf (ts : list (thread A)) l m t :
  can_acquire wf ts l m = true → t ∈ ts →
  ((l, Exclusive) ∉ held t) ∧ (m = Exclusive → l ∉ (held t).*1).
Proof.
  intros H Ht. assert ((l, Exclusive) ∈ held t → has_write_lock l t = true) as Hw.
  { intros Hin. apply existsb_exists. exists (l, Exclusive). rewrite <- list_elem_of_In.
    split; [done|]. by apply bool_decide_eq_true. }
  assert (l ∈ (held t).*1 → has_lock l t = true) as Hl.
  { intros ([l' m'] & -> & Hin)%list_elem_of_fmap. apply existsb_exists. exists (l', m').
    rewrite <- list_elem_of_In. split; [done|]. by apply bool_decide_eq_true. }
  apply list_elem_of_In in Ht. destruct m; simpl in H.
  - apply andb_true_iff in H as [H _]. apply negb_true_iff in H. split; [|done].
    intros Hin. apply Hw in Hin. apply not_true_iff_false in H. apply H, existsb_exists. eauto.
  - apply negb_true_iff, not_true_iff_false in H.
    assert (l ∉ (held t).*1) as Hno by (intros Hin; apply H, existsb_exists; eauto).
    split; [|done]. intros Hin. apply Hno, list_elem_of_fmap. by exists (l, Exclusive).
Qed.

Lemma exclusion_smaller {A} (ts : list (thread A)) i t t' :
  exclusion ts → ts !! i = Some t → (∀ x, x ∈ held t' → x ∈ held t) → exclusion (<[i := t']> ts).
Proof.
  intros H Ht Hsub a b ta tb l Hab Ha Hb Hx Hy.
  assert (∀ c tc, <[i := t']> ts !! c = Some tc → ∃ tc', ts !! c = Some tc' ∧ ∀ x, x ∈ held tc → x ∈ held tc') as Hc.
  { intros c tc [(-> & -> & _)|[Hne ?]]%list_lookup_insert_Some; eauto. }
  destruct (Hc a ta Ha) as (ta' & Ha' & Sa). destruct (Hc b tb Hb) as (tb' & Hb' & Sb).
  apply (H a b ta' tb' l Hab Ha' Hb'); [auto|].
  apply list_elem_of_fmap in Hy as (x & -> & Hx'). apply list_elem_of_fmap. eauto.
Qed.

Lemma exclusion_acquire {A} wf (ts : list (thread A)) i t l m k :
  exclusion ts → ts !! i = Some t → can_acquire wf ts l m = true →
  exclusion (<[i := mkThread ((l, m) :: held t) k]> ts).
Proof.
  intros H Ht Hc a b ta tb l' Hab Ha Hb Hx Hy.
  apply list_lookup_insert_Some in Ha as [(-> & <- & _)|[Ha1 Ha]];
    apply list_lookup_insert_Some in Hb as [(Eb & <- & _)|[Hb1 Hb]]; [done| | |].
  - simpl in Hx. apply elem_of_cons in Hx as [[= -> <-]|Hx]; [|by apply (H a b t tb l')].
    destruct (acquire_free _ _ _ _ tb Hc) as [_ Hf]; [by eapply list_elem_of_lookup_2|]. by apply Hf.
  - subst b. simpl in Hy. apply elem_of_cons in Hy as [->|Hy]; [|by apply (H a i ta t l')].
    destruct (acquire_free _ _ _ _ ta Hc) as [Hf _]; [by eapply list_elem_of_lookup_2|]. done.
  - by apply (H a b ta tb l').
Qed.

(** ** The rule *)
Section pool.
Context {A C : Type} (prog_of : C → prog A) (post : C → A → Prop).

Record pool_inv (cs : list C) (ts : list (thread A)) (s : S) : Prop := {
  pi_inv : I s;
  pi_exclusion : exclusion ts;
  pi_threads : Forall2 (λ c t, keeping s (post c) t) cs ts;
}.

Lemma keeping_insert cs ts i c t t' s s' :
  Forall2 (λ c t, keeping s (post c) t) cs ts → cs !! i = Some c → ts !! i = Some t →
  keeping s' (post c) t' →
  (∀ j u, j ≠ i → ts !! j = Some u → ∀ s0, agree (held u) s0 s → agree (held u) s0 s') →
  Forall2 (λ c t, keeping s' (post c) t) cs (<[i := t']> ts).
Proof.
  intros HF Hc Ht Hk Hother. apply Forall2_same_length_lookup_2.
  { rewrite length_insert. by eapply Forall2_length. }
  intros j d u Hd Hu. apply list_lookup_insert_Some in Hu as [(-> & -> & _)|[Hne Hu]].
  - rewrite Hc in Hd. by injection Hd as <-.
  - destruct (Forall2_lookup_lr _ _ _ _ _ _ HF Hd Hu) as (s0 & Ha & Hs). exists s0. split; [|done].
    by apply (Hother j).
Qed.

Lemma pool_inv_step wf cs ts s ts' s' :
  pool_inv cs ts s → pool_step wf (ts, s) (ts', s') → pool_inv cs ts' s'.
Proof.
  intros [HI HX HF] [i Hi]. simpl in Hi. apply bind_Some in Hi as (t & Ht & H).
  destruct (Forall2_lookup_r _ _ _ _ _ HF Ht) as (c & Hc & s0 & Ha & Hk).
  destruct (code t) as [a|l m k|l k|l k|l v k]; simpl in Hk; [done|..].
  - destruct (can_acquire wf ts l m) eqn:Hca; [|done]. injection H as <- <-.
    split; [done|by eapply exclusion_acquire|]. eapply keeping_insert; [done|done|done| |by auto].
    exists s. split; [by intros ? ?|]. by apply Hk.
  - injection H as <- <-. split; [done| |].
    + eapply exclusion_smaller; [done|done|]. simpl. intros x [_ ?]%list_elem_of_filter. done.
    + eapply keeping_insert; [done|done|done| |by auto]. exists s0. split; [by apply agree_release|done].
  - injection H as <- <-. destruct Hk as [Hl Hk]. rewrite (Ha l Hl) in Hk. split; [done| |].
    + by eapply exclusion_smaller.
    + eapply keeping_insert; [done|done|done| |by auto]. by exists s0.
  - injection H as <- <-. destruct Hk as (Hl & Hw & Hk). split; [by apply Hw| |].
    + by eapply exclusion_smaller.
    + eapply keeping_insert; [done|done|done| |].
      * exists (write_cell l v s0). split; [by apply agree_write|done].
      * intros j u Hne Hu s1 H1. apply agree_frame; [|done]. by apply (HX i j t u l).
Qed.

(** Whatever the schedule, the invariant holds all the time, and the threads
    that have finished have answered as promised. *)
Lemma pool_keeps wf cs s0 ts s :
  I s0 → Forall (λ c, ∀ s, keeps (post c) [] (prog_of c) s) cs →
  rtc (pool_step wf) (start (map prog_of cs) s0) (ts, s) →
  I s ∧ ∀ i c t a, cs !! i = Some c → ts !! i = Some t → code t = Done a → post c a.
Proof.
  intros HI HF Hr. assert (pool_inv cs ts s) as [H1 _ H3].
  { assert (∀ c c' : list (thread A) * S, rtc (pool_step wf) c c' →
      pool_inv cs c.1 c.2 → pool_inv cs c'.1 c'.2) as Hstar.
    { induction 1 as [|[ts1 s1] [ts2 s2] c3 Hs _ IH]; [done|]. intros Hp. apply IH. by eapply pool_inv_step. }
    apply (Hstar _ _ Hr). split; simpl; [done| |].
    - intros i j ti tj l _ Hti _ Hin. rewrite !list_lookup_fmap in Hti.
      destruct (cs !! i); [|done]. injection Hti as <-. by apply not_elem_of_nil in Hin.
    - apply Forall2_fmap_r, Forall2_fmap_r, Forall_Forall2_diag. eapply Forall_impl; [exact HF|].
      intros c Hc. exists s0. split; [by intros ? ?|]. apply Hc. }
  split; [done|]. intros i c t a Hc Ht Ha.
  destruct (Forall2_lookup_lr _ _ _ _ _ _ H3 Hc Ht) as (s1 & _ & Hk). by rewrite Ha in Hk.
Qed.
End pool.
End keeps.
