(* ===== verification/Raft.v ===== *)
(** * Consensus

    [src/common/raft.rs] and [src/coordinator/raft_node.rs]: the messages and
    the node of a simplified Raft.  The node's fields are each behind a mutex;
    a handler is one step.  An election and a replication wait for the answers
    of the peers without holding a lock, so other handlers can run meanwhile:
    they are two steps with the answers and what ran in between ([during]) as
    arguments.  The remote procedure calls of raft_rpc_client.rs appear by
    their results. *)

From Stdlib Require Import ZArith Lia.
From Stdlib.Strings Require Import Byte.
From stdpp Require Import base option list gmap strings.
From S2P Require Import Prelude Bytes Text Errors.

(** ** Messages *)
Record LogEntry := mkLogEntry { le_term : Z; le_index : Z; le_data : bytes }.
Record VoteRequest := mkVoteRequest {
  vr_term : Z; vr_candidate_id : string; vr_last_log_index : Z; vr_last_log_term : Z }.
Record VoteResponse := mkVoteResponse { vp_term : Z; vp_vote_granted : bool }.
Record AppendRequest := mkAppendRequest {
  ar_term : Z; ar_leader_id : string; ar_prev_log_index : Z; ar_prev_log_term : Z;
  ar_entries : list LogEntry; ar_leader_commit : Z }.
Record AppendResponse := mkAppendResponse {
  ap_term : Z; ap_success : bool; ap_conflict_index : Z }.

(** ** The node *)
Inductive RaftRole := Follower | Candidate | Leader.

Definition raft_role_to_string (r : RaftRole) : string :=
  match r with Follower => "follower" | Candidate => "candidate" | Leader => "leader" end.

Record RaftNode := mkRaft {
  node_id : string;
  role : RaftRole;
  term : Z;
  voted_for : option string;
  leader_id : option string;
  log : list LogEntry;
  peers : list string;
  commit_index : Z;
  last_applied : Z;
  snapshot : option bytes;
}.

Definition raft_new (id : string) : RaftNode :=
  mkRaft id Follower 0 None None [] [] 0 0 None.

Definition with_role (r : RaftRole) (n : RaftNode) : RaftNode :=
  mkRaft (node_id n) r (term n) (voted_for n) (leader_id n) (log n) (peers n)
    (commit_index n) (last_applied n) (snapshot n).
Definition with_term (t : Z) (n : RaftNode) : RaftNode :=
  mkRaft (node_id n) (role n) t (voted_for n) (leader_id n) (log n) (peers n)
    (commit_index n) (last_applied n) (snapshot n).
Definition with_voted_for (v : option string) (n : RaftNode) : RaftNode :=
  mkRaft (node_id n) (role n) (term n) v (leader_id n) (log n) (peers n)
    (commit_index n) (last_applied n) (snapshot n).
Definition with_leader (l : option string) (n : RaftNode) : RaftNode :=
  mkRaft (node_id n) (role n) (term n) (voted_for n) l (log n) (peers n)
    (commit_index n) (last_applied n) (snapshot n).
Definition with_log (l : list LogEntry) (n : RaftNode) : RaftNode :=
  mkRaft (node_id n) (role n) (term n) (voted_for n) (leader_id n) l (peers n)
    (commit_index n) (last_applied n) (snapshot n).
Definition with_commit (c a : Z) (n : RaftNode) : RaftNode :=
  mkRaft (node_id n) (role n) (term n) (voted_for n) (leader_id n) (log n) (peers n)
    c a (snapshot n).
Definition with_snapshot (s : option bytes) (n : RaftNode) : RaftNode :=
  mkRaft (node_id n) (role n) (term n) (voted_for n) (leader_id n) (log n) (peers n)
    (commit_index n) (last_applied n) s.

Definition is_leader (n : RaftNode) : bool :=
  match role n with Leader => true | _ => false end.

(** [log.last().map(|e| e.index).unwrap_or(0)] and the same for the term *)
Definition last_index (l : list LogEntry) : Z := unwrap_or 0 (le_index <$> last l).
Definition last_term (l : list LogEntry) : Z := unwrap_or 0 (le_term <$> last l).

(** ** Roles and votes *)
Definition become_leader (n : RaftNode) : RaftNode :=
  with_leader (Some (node_id n)) (with_role Leader n).

Definition step_down (new_term : Z) (leader : option string) (n : RaftNode) : RaftNode :=
  with_voted_for None (with_leader leader (with_term new_term (with_role Follower n))).

Definition start_election (n : RaftNode) : RaftNode * Z :=
  let new_term := add64 (term n) 1 in
  (with_leader None (with_voted_for (Some (node_id n)) (with_role Candidate (with_term new_term n))),
   new_term).

Definition handle_request_vote (req : VoteRequest) (n : RaftNode) : RaftNode * VoteResponse :=
  let current_term := term n in
  let '(n, vote_granted) :=
    if vr_term req <? current_term then (n, false)
    else
      let n := if current_term <? vr_term req
               then with_voted_for None (with_term (vr_term req) n) else n in
      if bool_decide (voted_for n = None) || bool_decide (voted_for n = Some (vr_candidate_id req))
      then (with_voted_for (Some (vr_candidate_id req)) n, true)
      else (n, false) in
  (n, mkVoteResponse (term n) vote_granted).

Definition grant_vote (t : Z) (candidate_id : string) (n : RaftNode) : RaftNode * bool :=
  if t <? term n then (n, false) else
  let n := if term n <? t then with_voted_for None (with_term t n) else n in
  if bool_decide (voted_for n = None) || bool_decide (voted_for n = Some candidate_id)
  then (with_voted_for (Some candidate_id) n, true)
  else (n, false).

(** ** The log *)
Definition handle_append_entries (req : AppendRequest) (n : RaftNode) : RaftNode * AppendResponse :=
  let current_term := term n in
  if ar_term req <? current_term then (n, mkAppendResponse (term n) false 0) else
  let n := if current_term <? ar_term req then with_term (ar_term req) n else n in
  if ar_prev_log_index req <=? zlen (log n)
  then
    let l := log n ++ ar_entries req in
    let n := with_log l n in
    let n := if commit_index n <? ar_leader_commit req
             then with_commit (Z.min (ar_leader_commit req) (last_index l)) (last_applied n) n
             else n in
    (n, mkAppendResponse (term n) true 0)
  else (n, mkAppendResponse (term n) false (zlen (log n))).

Definition save_raft_snapshot (data : bytes) (n : RaftNode) : RaftNode := with_snapshot (Some data) n.
Definition load_raft_snapshot (n : RaftNode) : option bytes := snapshot n.

Definition apply_snapshot (data : bytes) (last_included_index last_included_term : Z)
    (n : RaftNode) : RaftNode :=
  let n := save_raft_snapshot data n in
  let n := with_log (filter (λ e, (last_included_index <? le_index e) = true) (log n)) n in
  let n := with_commit last_included_index last_included_index n in
  with_term last_included_term n.

Definition recover (n : RaftNode) : RaftNode := with_commit (commit_index n) (commit_index n) n.

(** The heartbeat sent to every peer. *)
Definition heartbeat_request (n : RaftNode) : AppendRequest :=
  mkAppendRequest (term n) (node_id n) (last_index (log n)) (last_term (log n)) []
    (last_index (log n)).
Definition send_heartbeats (n : RaftNode) : list (string * AppendRequest) :=
  map (λ peer, (peer, heartbeat_request n)) (peers n).

(** ** Elections *)

(** [(peers.len() + 1).div_ceil(2)] *)
Definition majority (num_peers : Z) : Z := (num_peers + 1 + 1) / 2.

Definition vote_request (new_term : Z) (n : RaftNode) : VoteRequest :=
  mkVoteRequest new_term (node_id n) (last_index (log n)) (last_term (log n)).

(** One vote for itself, and one for every peer that answered so. *)
Definition count_votes (responses : list (result Status VoteResponse)) : Z :=
  fold_left (λ votes r, match r with
                        | Ok resp => if vp_vote_granted resp then votes + 1 else votes
                        | Err _ => votes
                        end) responses 1.

Definition start_election_and_collect_votes (election_peers : list string)
    (call : string → VoteRequest → result Status VoteResponse) (during : RaftNode → RaftNode)
    (n : RaftNode) : RaftNode * bool :=
  let '(n, new_term) := start_election n in
  let req := vote_request new_term n in
  let votes := count_votes (map (λ peer, call peer req) election_peers) in
  let n := during n in
  if majority (zlen election_peers) <=? votes
  then (become_leader n, true)
  else (step_down new_term None n, false).

(** ** Replication *)
Definition next_index (l : list LogEntry) : Z :=
  unwrap_or 1 ((λ e, add64 (le_index e) 1) <$> last l).

Definition append_request (index t : Z) (entry : LogEntry) (n : RaftNode) : AppendRequest :=
  mkAppendRequest t (node_id n) (wrap64 (index - 1)) t [entry] index.

Definition count_acks (responses : list (result Status AppendResponse)) : Z :=
  fold_left (λ acks r, match r with
                       | Ok resp => if ap_success resp then acks + 1 else acks
                       | Err _ => acks
                       end) responses 1.

(** [while *applied < *commit { *applied += 1 }] *)
Fixpoint apply_loop (fuel : nat) (applied commit : Z) : Z :=
  match fuel with
  | O => applied
  | S fuel => if applied <? commit then apply_loop fuel (applied + 1) commit else applied
  end.

Definition replicate (data : bytes) (call : string → AppendRequest → result Status AppendResponse)
    (during : RaftNode → RaftNode) (n : RaftNode) : RaftNode * Result unit :=
  if negb (is_leader n) then (n, Err (NotLeader (unwrap_or "unknown"%string (leader_id n)))) else
  let index := next_index (log n) in
  let t := term n in
  let entry := mkLogEntry t index data in
  let n := with_log (log n ++ [entry]) n in
  let ps := peers n in
  let acks := count_acks (map (λ peer, call peer (append_request index t entry n)) ps) in
  let n := during n in
  if majority (zlen ps) <=? acks
  then (with_commit index (apply_loop (Z.to_nat (index - last_applied n)) (last_applied n) index) n,
        Ok tt)
  else (n, Err (Internal "Raft: no majority for commit")).

(** ** Services

    What answers the Raft requests sent to a node, and what becomes of the node.
    [node_service] hands them to the handlers of the [RaftNode], as the tests of
    the repository do; the gRPC service of the coordinator is another one. *)
Record RaftService := mkService {
  answer_vote : VoteRequest → RaftNode → RaftNode * result Status VoteResponse;
  answer_append : AppendRequest → RaftNode → RaftNode * result Status AppendResponse;
}.
Definition node_service : RaftService :=
  mkService
    (λ req n, let r := handle_request_vote req n in (r.1, Ok r.2))
    (λ req n, let r := handle_append_entries req n in (r.1, Ok r.2)).

(** ** Votes cast by a node

    The events that make a node vote, apart from a failed election of its own:
    requests of others, and starting an election, in which it votes for
    itself. *)
Inductive RaftEvent :=
  | EvVote (req : VoteRequest)
  | EvAppend (req : AppendRequest)
  | EvElection.

Definition raft_event (ev : RaftEvent) (n : RaftNode) : RaftNode * list (Z * string) :=
  match ev with
  | EvVote req =>
      let '(n', resp) := handle_request_vote req n in
      (n', if vp_vote_granted resp then [(vr_term req, vr_candidate_id req)] else [])
  | EvAppend req => ((handle_append_entries req n).1, [])
  | EvElection => let '(n', t) := start_election n in (n', [(t, node_id n)])
  end.

Fixpoint raft_run (evs : list RaftEvent) (n : RaftNode) : RaftNode * list (Z * string) :=
  match evs with
  | [] => (n, [])
  | ev :: evs =>
      let '(n, vs) := raft_event ev n in
      let '(n, vs') := raft_run evs n in (n, vs ++ vs')
  end.

Definition event_term (ev : RaftEvent) : Z :=
  match ev with EvVote req => vr_term req | EvAppend req => ar_term req | EvElection => 0 end.

(** The votes cast so far are not of later terms, and those of this term are
    for [voted_for]. *)
Definition votes_inv (vs : list (Z * string)) (n : RaftNode) : Prop :=
  (∀ t c, (t, c) ∈ vs → t ≤ term n ∧ (t = term n → voted_for n = Some c)) ∧
  ∀ t c c', (t, c) ∈ vs → (t, c') ∈ vs → c = c'.

Lemma handle_request_vote_cases req n :
  let '(n', resp) := handle_request_vote req n in
  (vr_term req < term n ∧ n' = n ∧ vp_vote_granted resp = false) ∨
  (term n ≤ vr_term req ∧ term n' = vr_term req ∧
   (vp_vote_granted resp = true ∧ voted_for n' = Some (vr_candidate_id req) ∧
      (vr_term req = term n → voted_for n = None ∨ voted_for n = Some (vr_candidate_id req)) ∨
    vp_vote_granted resp = false ∧ vr_term req = term n ∧ voted_for n' = voted_for n)).
Proof.
  unfold handle_request_vote. destruct (Z.ltb_spec (vr_term req) (term n)); [by left|].
  destruct (Z.ltb_spec (term n) (vr_term req)); simpl; repeat case_bool_decide; simpl;
    right; (split; [lia|]); (split; [lia|]); first [left; split; [done|]; split; [done|]; lia || tauto
    | right; split; [done|]; split; [lia|done]].
Qed.

Lemma handle_append_entries_term req n :
  let n' := (handle_append_entries req n).1 in
  voted_for n' = voted_for n ∧ node_id n' = node_id n ∧ term n' = Z.max (term n) (ar_term req).
Proof.
  unfold handle_append_entries. destruct (Z.ltb_spec (ar_term req) (term n)); simpl.
  { split; [done|]. split; [done|lia]. }
  destruct (Z.ltb_spec (term n) (ar_term req)); simpl; destruct (_ <=? _); simpl;
    try destruct (_ <? _); simpl; (split; [done|]); (split; [done|lia]).
Qed.

Lemma votes_inv_event ev vs n B :
  votes_inv vs n → event_term ev ≤ B → term n ≤ B → 0 ≤ term n → B + 1 < 2 ^ 64 →
  let '(n', vs') := raft_event ev n in
  votes_inv (vs ++ vs') n' ∧ term n ≤ term n' ≤ B + 1.
Proof.
  intros [H1 H2] Hev Hn H0 HB. destruct ev as [req|req|]; simpl in *.
  - pose proof (handle_request_vote_cases req n) as Hc.
    destruct (handle_request_vote req n) as [n' resp].
    destruct Hc as [(Hlt & -> & ->)|(Hle & Ht & [(-> & Hv & Hsame)|(-> & Heq & Hv)])].
    + rewrite app_nil_r. split; [by split|lia].
    + split; [|lia]. split.
      * intros t c [Hin|Hin]%elem_of_app.
        -- destruct (H1 t c Hin) as [Hle' Hcur]. split; [lia|]. intros E. rewrite Hv.
           destruct (Hsame ltac:(lia)) as [E'|E']; rewrite Hcur in E' by lia; congruence.
        -- apply list_elem_of_singleton in Hin as [= -> ->]. split; [lia|done].
      * intros t c c' [Hin|Hin]%elem_of_app [Hin'|Hin']%elem_of_app; [by eapply H2| | |].
        -- apply list_elem_of_singleton in Hin' as [= -> ->]. destruct (H1 _ _ Hin) as [Hle' Hcur].
           destruct (Hsame ltac:(lia)) as [E'|E']; rewrite Hcur in E' by lia; congruence.
        -- apply list_elem_of_singleton in Hin as [= -> ->]. destruct (H1 _ _ Hin') as [Hle' Hcur].
           destruct (Hsame ltac:(lia)) as [E'|E']; rewrite Hcur in E' by lia; congruence.
        -- apply list_elem_of_singleton in Hin as [= -> ->].
           apply list_elem_of_singleton in Hin' as [= ->]. done.
    + rewrite app_nil_r. split; [|lia]. split; [|done]. intros t c Hin.
      destruct (H1 t c Hin) as [Hle' Hcur]. split; [lia|]. rewrite Hv. intros E. apply Hcur. lia.
  - destruct (handle_append_entries_term req n) as (Hv & _ & Ht). rewrite app_nil_r.
    split; [|lia]. split; [|done]. intros t c Hin. destruct (H1 t c Hin) as [Hle' Hcur].
    split; [lia|]. rewrite Hv. intros E. apply Hcur. lia.
  - rewrite add64_small by lia. split; [|lia]. split.
    + intros t c [Hin|Hin]%elem_of_app; simpl.
      * destruct (H1 t c Hin) as [Hle' _]. split; lia.
      * apply list_elem_of_singleton in Hin as [= -> ->]. split; [lia|done].
    + intros t c c' [Hin|Hin]%elem_of_app [Hin'|Hin']%elem_of_app; [by eapply H2| | |].
      * apply list_elem_of_singleton in Hin' as [= -> ->]. destruct (H1 _ _ Hin). lia.
      * apply list_elem_of_singleton in Hin as [= -> ->]. destruct (H1 _ _ Hin'). lia.
      * apply list_elem_of_singleton in Hin as [= -> ->].
        apply list_elem_of_singleton in Hin' as [= ->]. done.
Qed.

Lemma votes_inv_run evs vs n B :
  votes_inv vs n → Forall (λ ev, event_term ev ≤ B) evs → term n ≤ B → 0 ≤ term n →
  B + zlen evs < 2 ^ 64 →
  votes_inv (vs ++ (raft_run evs n).2) (raft_run evs n).1.
Proof.
  intros I Hevs. revert vs n B I Hevs. induction evs as [|ev evs IH]; intros vs n B I Hevs Hn H0 HB.
  { simpl. by rewrite app_nil_r. }
  inversion Hevs as [|? ? Hev Hevs']; subst. rewrite zlen_cons in HB. pose proof (zlen_nonneg evs).
  pose proof (votes_inv_event ev vs n B I Hev Hn H0 ltac:(lia)) as Hs. cbn [raft_run].
  destruct (raft_event ev n) as [n1 vs1]. destruct Hs as [I1 Ht].
  specialize (IH (vs ++ vs1) n1 (B + 1) I1). destruct (raft_run evs n1) as [n2 vs2]. simpl in *.
  rewrite app_assoc. apply IH; [|lia|lia|lia].
  eapply Forall_impl; [exact Hevs'|]. simpl. lia.
Qed.

(** ** Counting *)
Definition granted (r : result Status VoteResponse) : bool :=
  match r with Ok resp => vp_vote_granted resp | Err _ => false end.
Definition acked (r : result Status AppendResponse) : bool :=
  match r with Ok resp => ap_success resp | Err _ => false end.

Lemma count_votes_filter rs :
  count_votes rs = 1 + zlen (filter (λ r, granted r = true) rs).
Proof.
  unfold count_votes.
  assert (∀ z, fold_left (λ votes r, match r with
     | Ok resp => if vp_vote_granted resp then votes + 1 else votes | Err _ => votes end) rs z =
     z + zlen (filter (λ r, granted r = true) rs)) as H.
  { induction rs as [|r rs IH]; intros z; [unfold zlen; simpl; lia|]. cbn [fold_left].
    rewrite IH, filter_cons. destruct r as [resp|e]; simpl; [|done].
    destruct (vp_vote_granted resp); simpl; [rewrite zlen_cons; lia|done]. }
  by rewrite H.
Qed.

(** Voters for two different candidates are different voters. *)
Lemma disjoint_ballots (ballot : string → option string) (members : list string) a b :
  a ≠ b →
  zlen (filter (λ v, ballot v = Some a) members) + zlen (filter (λ v, ballot v = Some b) members)
  ≤ zlen members.
Proof.
  intros Hab. induction members as [|v members IH]; [done|]. rewrite !filter_cons.
  case_decide; case_decide; rewrite ?zlen_cons; [congruence|lia..].
Qed.

(** A candidate that collects votes from the other members of a cluster has at
    most as many votes as there are ballots for it. *)
Lemma votes_le_ballots ballot members c (call : string → VoteRequest → result Status VoteResponse) req :
  c ∈ members → ballot c = Some c →
  (∀ peer, granted (call peer req) = true → ballot peer = Some c) →
  count_votes (map (λ peer, call peer req) (filter (λ v, v ≠ c) members)) ≤
  zlen (filter (λ v, ballot v = Some c) members).
Proof.
  intros Hc Hself Hg. rewrite count_votes_filter, zlen_filter_map.
  etransitivity; [apply Z.add_le_mono_l, (zlen_filter_le _ (λ v, ballot v = Some c)), Hg|].
  apply elem_of_Permutation in Hc as [k Hk]. rewrite Hk.
  rewrite filter_cons_False, filter_cons_True, zlen_cons by naive_solver.
  apply Z.add_le_mono_l, zlen_filter_filter.
Qed.

Lemma apply_loop_max fuel applied commit :
  commit - applied ≤ Z.of_nat fuel → apply_loop fuel applied commit = Z.max applied commit.
Proof.
  revert applied. induction fuel as [|fuel IH]; intros applied H; simpl; [lia|].
  destruct (Z.ltb_spec applied commit); [|lia]. rewrite IH; lia.
Qed.

(** A log numbered from 1. *)
Definition log_wf (l : list LogEntry) : Prop :=
  ∀ i e, l !! i = Some e → le_index e = Z.of_nat i + 1.

Lemma log_wf_last l : log_wf l → last_index l = zlen l.
Proof.
  intros H. unfold last_index. rewrite last_lookup.
  destruct (l !! pred (length l)) as [e|] eqn:E; simpl.
  - rewrite (H _ _ E). apply lookup_lt_Some in E. unfold zlen. lia.
  - apply lookup_ge_None in E. unfold zlen. destruct l; simpl in *; lia.
Qed.

Lemma log_wf_next l : log_wf l → zlen l + 1 < 2 ^ 64 → next_index l = zlen l + 1.
Proof.
  intros H Hl. unfold next_index. rewrite last_lookup.
  destruct (l !! pred (length l)) as [e|] eqn:E; simpl.
  - rewrite (H _ _ E). apply lookup_lt_Some in E. unfold zlen in *.
    rewrite add64_small by lia. lia.
  - apply lookup_ge_None in E. unfold zlen. destruct l; simpl in *; lia.
Qed.

Lemma log_wf_snoc l t data : log_wf l → log_wf (l ++ [mkLogEntry t (zlen l + 1) data]).
Proof.
  intros H i e [Hi|[Hle Hi]]%lookup_app_Some; [by apply H|].
  apply list_lookup_singleton_Some in Hi as [Hi <-]. simpl. unfold zlen. lia.
Qed.

(** ** Properties *)

(** C5. A node votes at most once per term: in any run of vote requests,
    append requests and elections it starts itself, the votes it casts in one
    term all go to one candidate.  (Losing an election is not part of the runs:
    the node then forgets the vote it gave itself.) *)
Theorem vote_once_per_term evs n B t c c' :
  0 ≤ term n ≤ B → Forall (λ ev, event_term ev ≤ B) evs → B + zlen evs < 2 ^ 64 →
  (t, c) ∈ (raft_run evs n).2 → (t, c') ∈ (raft_run evs n).2 → c = c'.
Proof.
  intros Hn Hevs HB. apply (votes_inv_run evs [] n B); [|done|lia|lia|done].
  split; intros *; by intros ?%not_elem_of_nil.
Qed.

(** With an odd number of members there is at most one leader per term: if
    two candidates of the same cluster both win an election in which every
    member votes for at most one candidate (the candidates for themselves), in
    spite of lost answers and of whatever the nodes do meanwhile, they are the
    same node. *)
Theorem one_leader_odd_cluster members ballot (na nb : RaftNode) calla callb da db :
  Z.Odd (zlen members) → node_id na ∈ members → node_id nb ∈ members →
  ballot (node_id na) = Some (node_id na) → ballot (node_id nb) = Some (node_id nb) →
  (∀ peer req, granted (calla peer req) = true → ballot peer = Some (vr_candidate_id req)) →
  (∀ peer req, granted (callb peer req) = true → ballot peer = Some (vr_candidate_id req)) →
  NoDup members →
  (start_election_and_collect_votes (filter (λ v, v ≠ node_id na) members) calla da na).2 = true →
  (start_election_and_collect_votes (filter (λ v, v ≠ node_id nb) members) callb db nb).2 = true →
  node_id na = node_id nb.
Proof.
  intros [k Hodd] Ha Hb Sa Sb Ga Gb Hnd Wa Wb. apply dec_stable. intros Hne.
  assert (∀ c, c ∈ members → zlen (filter (λ v, v ≠ c) members) = zlen members - 1) as Hpeers.
  { intros c Hc. apply elem_of_Permutation in Hc as [l Hl]. pose proof Hnd as Hnd'.
    rewrite Hl in Hnd'. apply NoDup_cons in Hnd' as [Hc _]. rewrite Hl, zlen_cons.
    rewrite filter_cons_False by naive_solver.
    rewrite filter_keep; [lia|]. apply Forall_forall. intros x Hx ->. done. }
  assert (∀ n call d, (start_election_and_collect_votes (filter (λ v, v ≠ node_id n) members) call d n).2 = true →
    node_id n ∈ members → ballot (node_id n) = Some (node_id n) →
    (∀ peer req, granted (call peer req) = true → ballot peer = Some (vr_candidate_id req)) →
    majority (zlen members - 1) ≤ zlen (filter (λ v, ballot v = Some (node_id n)) members)) as Hwin.
  { intros n call d W Hin Hs Hg. unfold start_election_and_collect_votes, start_election in W.
    cbv zeta in W. match type of W with context [count_votes ?l] => set (votes := count_votes l) in W end.
    rewrite (Hpeers _ Hin) in W. destruct (Z.leb_spec (majority (zlen members - 1)) votes) as [Hm|Hm]; [|done].
    etransitivity; [exact Hm|]. apply votes_le_ballots; [done|done|]. intros peer. apply Hg. }
  pose proof (Hwin na calla da Wa Ha Sa Ga) as H1. pose proof (Hwin nb callb db Wb Hb Sb Gb) as H2.
  pose proof (disjoint_ballots ballot members _ _ Hne) as H3.
  unfold majority in *. rewrite Hodd in *.
  replace (2 * k + 1 - 1 + 1 + 1) with ((k + 1) * 2) in * by lia. rewrite Z.div_mul in * by lia. lia.
Qed.

(** With an even number of members half of them is enough to win, so two
    candidates can become leader in the same term: in a cluster of four in
    which two members vote for [a] and two for [b], both elections succeed. *)
Theorem even_cluster_two_leaders :
  let members := ["a"; "b"; "c"; "d"]%string in
  let ballot v := if decide (v ∈ ["a"; "c"]%string) then Some "a"%string else Some "b"%string in
  let call peer req := Ok (mkVoteResponse (vr_term req)
                             (bool_decide (ballot peer = Some (vr_candidate_id req)))) in
  let run c := start_election_and_collect_votes (filter (λ v, v ≠ c) members) call id (raft_new c) in
  (∀ k, 0 < k → majority (2 * k - 1) = k) ∧
  (run "a"%string).2 = true ∧ (run "b"%string).2 = true ∧
  is_leader (run "a"%string).1 = true ∧ is_leader (run "b"%string).1 = true ∧
  term (run "a"%string).1 = term (run "b"%string).1.
Proof.
  simpl. split; [|by vm_compute]. intros k Hk. unfold majority.
  replace (2 * k - 1 + 1 + 1) with (1 + k * 2) by lia. rewrite Z.div_add by lia. done.
Qed.

(** A failed election makes a node vote twice in one term: it voted for
    itself, steps down to the term of its own election, which clears its vote,
    and then grants a vote in that term to any other candidate. *)
Theorem failed_election_votes_twice peers call during n n' req :
  0 ≤ term n < 2 ^ 64 - 1 →
  start_election_and_collect_votes peers call during n = (n', false) →
  vr_term req = term n + 1 →
  (start_election n).1.(voted_for) = Some (node_id n) ∧ term (start_election n).1 = term n + 1 ∧
  (handle_request_vote req n').2 = mkVoteResponse (term n + 1) true.
Proof.
  intros Hn H Hreq. unfold start_election_and_collect_votes in H. simpl in H.
  destruct (majority _ <=? _); [done|]. injection H as <-. rewrite add64_small by lia.
  split; [done|]. simpl. rewrite add64_small by lia. split; [done|].
  unfold handle_request_vote. simpl. rewrite Hreq, Z.ltb_irrefl. done.
Qed.

(** Replication, on every branch.  A node that is not the leader refuses
    and names the leader it knows.  The leader appends the entry with the next
    index; with a majority of acknowledgements it commits and applies exactly
    up to that index, and without it returns an error, with the entry still
    in its log. *)
Theorem replicate_spec data call n :
  log_wf (log n) → zlen (log n) + 1 < 2 ^ 64 → last_applied n ≤ zlen (log n) →
  let '(n', r) := replicate data call id n in
  if is_leader n
  then
    let index := zlen (log n) + 1 in
    let entry := mkLogEntry (term n) index data in
    log n' = log n ++ [entry] ∧ log_wf (log n') ∧ term n' = term n ∧ role n' = Leader ∧
    let acks := count_acks (map (λ peer, call peer (append_request index (term n) entry n)) (peers n)) in
    if majority (zlen (peers n)) <=? acks
    then r = Ok tt ∧ commit_index n' = index ∧ last_applied n' = index
    else r = Err (Internal "Raft: no majority for commit") ∧
         commit_index n' = commit_index n ∧ last_applied n' = last_applied n
  else n' = n ∧ r = Err (NotLeader (unwrap_or "unknown"%string (leader_id n))).
Proof.
  intros Hwf Hl Ha. unfold replicate. destruct (is_leader n) eqn:El; cbn [negb]; [|done].
  rewrite log_wf_next by done.
  assert (role n = Leader) as Er by (unfold is_leader in El; by destruct (role n)).
  cbv zeta. change (peers (with_log ?l n)) with (peers n).
  change (append_request ?i ?t ?e (with_log ?l n)) with (append_request i t e n).
  destruct (majority (zlen (peers n)) <=? _); simpl; (split; [done|]);
    (split; [by apply log_wf_snoc|]); repeat (split; [done|]); [|done].
  rewrite apply_loop_max by lia. lia.
Qed.

(** A follower whose log equals the leader's takes the replicated entry
    and its log equals the leader's again.  It also takes the entry as
    committed at once, since the request carries the new index as the
    leader's commit index, before any majority has acknowledged it. *)
Theorem replicate_keeps_follower_in_sync data n f :
  log_wf (log n) → log f = log n → term f ≤ term n → zlen (log n) + 1 < 2 ^ 64 →
  commit_index f ≤ zlen (log n) →
  let index := zlen (log n) + 1 in
  let entry := mkLogEntry (term n) index data in
  let '(f', resp) := handle_append_entries (append_request index (term n) entry n) f in
  ap_success resp = true ∧ log f' = log n ++ [entry] ∧ term f' = term n ∧
  commit_index f' = index.
Proof.
  intros Hwf Hlog Ht Hl Hc. cbv zeta. unfold handle_append_entries. simpl.
  pose proof (zlen_nonneg (log n)).
  destruct (Z.ltb_spec (term n) (term f)); [lia|]. rewrite wrap64_small by lia.
  set (g := if term f <? term n then with_term (term n) f else f).
  assert (log g = log n ∧ term g = term n ∧ commit_index g = commit_index f) as (Lg & Tg & Cg).
  { unfold g. destruct (Z.ltb_spec (term f) (term n)); simpl; [done|]. split; [done|]. split; [lia|done]. }
  rewrite Lg. destruct (Z.leb_spec (zlen (log n) + 1 - 1) (zlen (log n))); [|lia]. simpl.
  rewrite Cg. destruct (Z.ltb_spec (commit_index f) (zlen (log n) + 1)); [|lia]. simpl.
  repeat (split; [done|]).
  rewrite log_wf_last by by apply log_wf_snoc.
  rewrite zlen_app. change (zlen [_]) with 1. lia.
Qed.

(** Delivering an append request twice appends its entries twice, so that
    a retransmission leaves a log with repeated indexes: neither the index nor
    the term of the previous entry is compared with the log. *)
Theorem append_entries_not_idempotent req n :
  term n ≤ ar_term req → ar_prev_log_index req ≤ zlen (log n) →
  let n1 := (handle_append_entries req n).1 in
  let '(n2, resp) := handle_append_entries req n1 in
  ap_success resp = true ∧ log n2 = log n ++ ar_entries req ++ ar_entries req ∧
  (ar_entries req ≠ [] → ¬ log_wf (log n2)).
Proof.
  intros Ht Hp.
  assert (∀ m, term m ≤ ar_term req → ar_prev_log_index req ≤ zlen (log m) →
    let '(m', resp) := handle_append_entries req m in
    ap_success resp = true ∧ log m' = log m ++ ar_entries req ∧ term m' ≤ ar_term req) as Hstep.
  { intros m Hm Hpm. unfold handle_append_entries.
    destruct (Z.ltb_spec (ar_term req) (term m)); [lia|].
    destruct (Z.ltb_spec (term m) (ar_term req)); simpl;
      (destruct (Z.leb_spec (ar_prev_log_index req) (zlen (log m))); [|lia]); simpl;
      destruct (_ <? _); simpl; (split; [done|]); (split; [done|lia]). }
  pose proof (Hstep n Ht Hp) as H1. destruct (handle_append_entries req n) as [n1 r1].
  destruct H1 as (_ & L1 & T1). cbn [fst].
  pose proof (Hstep n1 T1) as H2. destruct (handle_append_entries req n1) as [n2 r2].
  destruct H2 as (S2 & L2 & _).
  { rewrite L1, zlen_app. pose proof (zlen_nonneg (ar_entries req)). lia. }
  split; [done|]. rewrite L2, L1, <- app_assoc. split; [done|]. intros Hne Hwf.
  destruct (ar_entries req) as [|e es]; [done|].
  pose proof (Hwf (length (log n)) e) as I1. pose proof (Hwf (length (log n) + length (e :: es))%nat e) as I2.
  cbn [app] in I1. rewrite list_lookup_middle in I1 by done. specialize (I1 eq_refl).
  rewrite app_assoc, lookup_app_r in I2 by (rewrite length_app; lia).
  rewrite length_app, Nat.sub_diag in I2. specialize (I2 eq_refl).
  rewrite I1 in I2. simpl in I2. lia.
Qed.

(** As long as its log is numbered from 1 and its commit index lies in the
    log, a node that takes an append request never lowers its commit index and
    keeps it in the log. *)
Theorem append_entries_commit_monotone req n :
  log_wf (log n ++ ar_entries req) → commit_index n ≤ zlen (log n) →
  let n' := (handle_append_entries req n).1 in
  commit_index n ≤ commit_index n' ≤ zlen (log n').
Proof.
  intros Hwf Hc. unfold handle_append_entries. pose proof (zlen_nonneg (ar_entries req)).
  destruct (ar_term req <? term n); [simpl; lia|].
  set (g := if term n <? ar_term req then with_term (ar_term req) n else n).
  assert (log g = log n ∧ commit_index g = commit_index n) as [Lg Cg]
    by (unfold g; by destruct (_ <? _)).
  rewrite Lg. destruct (_ <=? _); cbn [fst]; [|rewrite Lg, Cg; lia].
  simpl. rewrite Cg. destruct (Z.ltb_spec (commit_index n) (ar_leader_commit req)); simpl;
    rewrite ?log_wf_last, ?Cg, ?zlen_app by done; lia.
Qed.

(** After a snapshot was installed the log can be empty, and then the next
    heartbeat with a newer commit index sets the commit index back to 0. *)
Theorem heartbeat_after_snapshot_resets_commit data index t req n :
  log n = [] → 0 < index → t ≤ ar_term req → ar_entries req = [] →
  ar_prev_log_index req ≤ 0 → index < ar_leader_commit req →
  commit_index (apply_snapshot data index t n) = index ∧
  commit_index (handle_append_entries req (apply_snapshot data index t n)).1 = 0.
Proof.
  intros Hlog Hi Ht He Hp Hlc. split; [done|].
  unfold apply_snapshot, handle_append_entries, save_raft_snapshot. simpl.
  rewrite Hlog, He, filter_nil. simpl.
  destruct (Z.ltb_spec (ar_term req) t); [lia|].
  destruct (Z.ltb_spec t (ar_term req)); simpl; change (zlen (@nil LogEntry)) with 0;
    rewrite (proj2 (Z.leb_le _ _) Hp); simpl; rewrite (proj2 (Z.ltb_lt _ _) Hlc); simpl; unfold last_index; simpl; lia.
Qed.

(** [grant_vote] and the handler of vote requests decide alike and leave
    the same state. *)
Lemma grant_vote_agrees req n :
  handle_request_vote req n =
  let '(n', vote) := grant_vote (vr_term req) (vr_candidate_id req) n in
  (n', mkVoteResponse (term n') vote).
Proof.
  unfold handle_request_vote, grant_vote. destruct (vr_term req <? term n); [done|].
  destruct (term n <? vr_term req); simpl; by repeat case_bool_decide.
Qed.

(** ** Witnesses *)
Definition ex_vote (t : Z) (c : string) : VoteRequest := mkVoteRequest t c 0 0.
Definition ex_events : list RaftEvent :=
  [EvVote (ex_vote 1 "a"); EvVote (ex_vote 1 "b"); EvElection; EvVote (ex_vote 2 "b")].

Lemma vote_once_per_term_witness :
  (raft_run ex_events (raft_new "n")).2 = [(1, "a"%string); (2, "n"%string)] ∧ "a"%string = "a"%string.
Proof.
  split; [reflexivity|].
  apply (vote_once_per_term ex_events (raft_new "n") 2 1 "a" "a").
  - vm_compute. split; discriminate.
  - repeat (constructor; [vm_compute; discriminate|]). constructor.
  - reflexivity.
  - apply (bool_decide_unpack _). vm_compute. exact I.
  - apply (bool_decide_unpack _). vm_compute. exact I.
Defined.

Definition ex_ballot (v : string) : option string := if decide (v = "b"%string) then Some "b"%string else Some "a"%string.
Definition ex_call (peer : string) (req : VoteRequest) : result Status VoteResponse :=
  Ok (mkVoteResponse (vr_term req) (bool_decide (ex_ballot peer = Some (vr_candidate_id req)))).

Lemma one_leader_odd_cluster_witness :
  (start_election_and_collect_votes (filter (λ v, v ≠ "a"%string) ["a"; "b"; "c"]%string) ex_call id
     (raft_new "a")).2 = true ∧ node_id (raft_new "a") = node_id (raft_new "a").
Proof.
  split; [reflexivity|].
  apply (one_leader_odd_cluster ["a"; "b"; "c"]%string ex_ballot (raft_new "a") (raft_new "a")
           ex_call ex_call id id).
  - exists 1. reflexivity.
  - apply (bool_decide_unpack _). exact I.
  - apply (bool_decide_unpack _). exact I.
  - reflexivity.
  - reflexivity.
  - intros peer req H. apply bool_decide_eq_true in H. exact H.
  - intros peer req H. apply bool_decide_eq_true in H. exact H.
  - apply (bool_decide_unpack _). exact I.
  - reflexivity.
  - reflexivity.
Defined.

Definition ex_refuse (peer : string) (req : VoteRequest) : result Status VoteResponse :=
  Ok (mkVoteResponse (vr_term req) false).
Definition ex_peers : list string := ["b"; "c"]%string.
Definition ex_lost : RaftNode :=
  (start_election_and_collect_votes ex_peers ex_refuse id (raft_new "a")).1.

Lemma failed_election_votes_twice_witness :
  (handle_request_vote (ex_vote 1 "b") ex_lost).2 = mkVoteResponse 1 true.
Proof.
  apply (failed_election_votes_twice ex_peers ex_refuse id (raft_new "a") ex_lost (ex_vote 1 "b"));
    [vm_compute; split; [discriminate|reflexivity]|reflexivity|reflexivity].
Defined.

Definition ex_leader : RaftNode :=
  with_log [mkLogEntry 1 1 [x01]] (become_leader (with_term 1 (raft_new "a"))).
Definition ex_ack (peer : string) (req : AppendRequest) : result Status AppendResponse :=
  Ok (mkAppendResponse (ar_term req) true 0).

Lemma ex_leader_log : log_wf (log ex_leader).
Proof. intros [|i] e H; simpl in H; [by simplify_eq|]. by rewrite lookup_nil in H. Qed.

Lemma replicate_spec_witness :
  replicate [x02] ex_ack id ex_leader =
    (with_commit 2 2 (with_log [mkLogEntry 1 1 [x01]; mkLogEntry 1 2 [x02]] ex_leader), Ok tt) ∧
  log (replicate [x02] ex_ack id ex_leader).1 = log ex_leader ++ [mkLogEntry 1 2 [x02]].
Proof.
  split; [reflexivity|].
  pose proof (replicate_spec [x02] ex_ack ex_leader ex_leader_log) as H.
  destruct (replicate [x02] ex_ack id ex_leader) as [n' r].
  destruct H as [H _]; [reflexivity|vm_compute; discriminate|]. exact H.
Defined.

Definition ex_follower : RaftNode := with_log [mkLogEntry 1 1 [x01]] (raft_new "f").

Lemma replicate_keeps_follower_in_sync_witness :
  log (handle_append_entries (append_request 2 1 (mkLogEntry 1 2 [x02]) ex_leader) ex_follower).1 =
  log ex_leader ++ [mkLogEntry 1 2 [x02]].
Proof.
  pose proof (replicate_keeps_follower_in_sync [x02] ex_leader ex_follower ex_leader_log eq_refl) as H.
  change (zlen (log ex_leader) + 1) with 2 in H. change (term ex_leader) with 1 in H. cbv zeta in H.
  destruct (handle_append_entries _ _) as [f' resp].
  destruct H as (_ & H & _); [vm_compute; discriminate|reflexivity|vm_compute; discriminate|]. exact H.
Defined.

Definition ex_append : AppendRequest := mkAppendRequest 1 "a" 0 0 [mkLogEntry 1 1 [x01]] 0.

Lemma append_entries_not_idempotent_witness :
  log (handle_append_entries ex_append (handle_append_entries ex_append (raft_new "f")).1).1 =
  [mkLogEntry 1 1 [x01]; mkLogEntry 1 1 [x01]].
Proof.
  pose proof (append_entries_not_idempotent ex_append (raft_new "f")) as H. cbv zeta in H.
  destruct (handle_append_entries ex_append _) as [n2 resp].
  destruct H as (_ & H & _); [vm_compute; discriminate|vm_compute; discriminate|]. exact H.
Defined.

Lemma append_entries_commit_monotone_witness :
  0 ≤ commit_index (handle_append_entries ex_append (raft_new "f")).1.
Proof.
  apply (append_entries_commit_monotone ex_append (raft_new "f")); [|vm_compute; discriminate].
  apply ex_leader_log.
Defined.

Lemma heartbeat_after_snapshot_resets_commit_witness :
  commit_index (handle_append_entries (mkAppendRequest 1 "a" 0 0 [] 6)
    (apply_snapshot [] 5 1 (raft_new "f"))).1 = 0.
Proof.
  apply (heartbeat_after_snapshot_resets_commit [] 5 1 (mkAppendRequest 1 "a" 0 0 [] 6) (raft_new "f"));
    first [reflexivity | vm_compute; discriminate].
Defined.
