(* ===== verification/RaftLocks.v ===== *)
(** * The locks of a Raft node

    [src/coordinator/raft_node.rs] again, with its locks: every field of
    [RaftNode] is behind a mutex of its own, and the node is shared between the
    timer task and the services.  Each method is the program of [Threads] that
    takes the guards in the order of the source and drops them where their scope
    ends.  Run alone the programs are the functions of [Raft]; this file shows
    what becomes of them when they run at the same time. *)

From Stdlib Require Import ZArith Lia.
From Stdlib.Strings Require Import Byte.
From stdpp Require Import base option list relations gmap strings.
From S2P Require Import Prelude Bytes Text Errors Threads Raft.

Inductive RaftField :=
  | FRole | FTerm | FVotedFor | FLeaderId | FLog | FPeers | FCommitIndex | FLastApplied | FSnapshot.
#[export] Instance RaftField_eq_dec : EqDecision RaftField.
Proof. solve_decision. Defined.

Definition raft_cell (f : RaftField) : Type :=
  match f with
  | FRole => RaftRole | FTerm => Z | FVotedFor => option string | FLeaderId => option string
  | FLog => list LogEntry | FPeers => list string | FCommitIndex => Z | FLastApplied => Z
  | FSnapshot => option bytes
  end.
Definition raft_read (f : RaftField) (n : RaftNode) : raft_cell f :=
  match f with
  | FRole => role n | FTerm => term n | FVotedFor => voted_for n | FLeaderId => leader_id n
  | FLog => log n | FPeers => peers n | FCommitIndex => commit_index n | FLastApplied => last_applied n
  | FSnapshot => snapshot n
  end.
Definition raft_write (f : RaftField) : raft_cell f → RaftNode → RaftNode :=
  match f with
  | FRole => with_role | FTerm => with_term | FVotedFor => with_voted_for | FLeaderId => with_leader
  | FLog => with_log
  | FPeers => λ ps n, mkRaft (node_id n) (role n) (term n) (voted_for n) (leader_id n) (log n) ps
                        (commit_index n) (last_applied n) (snapshot n)
  | FCommitIndex => λ c n, with_commit c (last_applied n) n
  | FLastApplied => λ a n, with_commit (commit_index n) a n
  | FSnapshot => with_snapshot
  end.

#[export] Instance raft_guarded : Guarded RaftNode := {|
  lock := RaftField; lock_eq_dec := RaftField_eq_dec; cell := raft_cell;
  read_cell := raft_read; write_cell := raft_write;
|}.

Abbreviation rprog := (@prog RaftNode raft_guarded).
Notation "'let*' x := p 'in' k" := (prog_bind p (λ x, k))
  (at level 10, x binder, p at level 100, k at level 200) : minikv_scope.
Abbreviation Lock f k := (@Acquire RaftNode raft_guarded _ f Exclusive k).
Abbreviation Drop f k := (@Release RaftNode raft_guarded _ f k).
Abbreviation Get f k := (@Load RaftNode raft_guarded _ f k).
Abbreviation Set_ f v k := (@Store RaftNode raft_guarded _ f v k).

Section methods.
(** [self.node_id], which has no lock. *)
Context (id : string).

Definition get_peers_code : rprog (list string) := peek (GS := raft_guarded) FPeers.
Definition get_role_code : rprog RaftRole := peek (GS := raft_guarded) FRole.
Definition get_leader_code : rprog (option string) := peek (GS := raft_guarded) FLeaderId.
Definition get_term_code : rprog Z := peek (GS := raft_guarded) FTerm.
(** [get_log] returns the guard itself: the log is still locked when the method
    has returned, and stays so until the caller drops the guard. *)
Definition get_log_code : rprog (list LogEntry) := Lock FLog (Get FLog (λ l, Done l)).
Definition is_leader_code : rprog bool :=
  let* r := get_role_code in Done (match r with Leader => true | _ => false end).

Definition become_leader_code : rprog unit :=
  let* _ := poke (GS := raft_guarded) FRole Leader in
  poke (GS := raft_guarded) FLeaderId (Some id).

Definition step_down_code (new_term : Z) (leader : option string) : rprog unit :=
  let* _ := poke (GS := raft_guarded) FRole Follower in
  let* _ := poke (GS := raft_guarded) FTerm new_term in
  let* _ := poke (GS := raft_guarded) FLeaderId leader in
  poke (GS := raft_guarded) FVotedFor None.

Definition start_election_code : rprog Z :=
  Lock FTerm (Get FTerm (λ t,
  let new_term := add64 t 1 in
  Set_ FTerm new_term (
  let* _ := poke (GS := raft_guarded) FRole Candidate in
  let* _ := poke (GS := raft_guarded) FVotedFor (Some id) in
  let* _ := poke (GS := raft_guarded) FLeaderId None in
  Drop FTerm (Done new_term)))).

Definition vote_block (t : Z) (candidate_id : string) : rprog bool :=
  Get FTerm (λ current_term,
  if t <? current_term then Done false else
  let* _ := if current_term <? t then Set_ FTerm t (Set_ FVotedFor None (Done tt)) else Done tt in
  Get FVotedFor (λ v : option string,
  if bool_decide (v = None) || bool_decide (v = Some candidate_id)
  then Set_ FVotedFor (Some candidate_id) (Done true) else Done false)).

Definition handle_request_vote_code (req : VoteRequest) : rprog VoteResponse :=
  Lock FTerm (Lock FVotedFor (
  let* vote_granted := vote_block (vr_term req) (vr_candidate_id req) in
  Get FTerm (λ t, Drop FVotedFor (Drop FTerm (Done (mkVoteResponse t vote_granted)))))).

Definition grant_vote_code (t : Z) (candidate_id : string) : rprog bool :=
  Lock FTerm (Lock FVotedFor (
  let* granted := vote_block t candidate_id in
  Drop FVotedFor (Drop FTerm (Done granted)))).

Definition handle_append_entries_code (req : AppendRequest) : rprog AppendResponse :=
  Lock FTerm (Get FTerm (λ current_term, Lock FLog (
  let* r :=
    if ar_term req <? current_term then Done (false, 0) else
    let* _ := if current_term <? ar_term req then Set_ FTerm (ar_term req) (Done tt) else Done tt in
    Get FLog (λ l : list LogEntry,
    if ar_prev_log_index req <=? zlen l
    then
      Set_ FLog (l ++ ar_entries req) (Lock FCommitIndex (Get FCommitIndex (λ commit : Z,
      let* _ := if commit <? ar_leader_commit req
                then Get FLog (λ l', Set_ FCommitIndex (Z.min (ar_leader_commit req) (last_index l')) (Done tt))
                else Done tt in
      Drop FCommitIndex (Done (true, 0)))))
    else Done (false, zlen l)) in
  Get FTerm (λ t, Drop FLog (Drop FTerm (Done (mkAppendResponse t r.1 r.2))))))).

Definition save_snapshot_code (data : bytes) : rprog unit :=
  Lock FSnapshot (Set_ FSnapshot (Some data) (Drop FSnapshot (Done tt))).
Definition load_snapshot_code : rprog (option bytes) := peek (GS := raft_guarded) FSnapshot.

Definition apply_snapshot_code (data : bytes) (last_included_index last_included_term : Z) : rprog unit :=
  let* _ := save_snapshot_code data in
  Lock FLog (Get FLog (λ l : list LogEntry,
  Set_ FLog (filter (λ e, (last_included_index <? le_index e) = true) l) (
  Lock FCommitIndex (Set_ FCommitIndex last_included_index (
  Lock FLastApplied (Set_ FLastApplied last_included_index (
  Lock FTerm (Set_ FTerm last_included_term (
  Drop FTerm (Drop FLastApplied (Drop FCommitIndex (Drop FLog (Done tt))))))))))))).

Definition recover_code : rprog unit :=
  let* _ := load_snapshot_code in
  let* _ := peek (GS := raft_guarded) FLog in
  Lock FLastApplied (
  Lock FCommitIndex (Get FCommitIndex (λ c, Set_ FLastApplied c (Drop FCommitIndex (
  Drop FLastApplied (Done tt)))))).

(** The requests that are sent. *)
Definition send_heartbeats_code : rprog (list (string * AppendRequest)) :=
  let* ps := get_peers_code in
  let* t := get_term_code in
  let* l := peek (GS := raft_guarded) FLog in
  Done (map (λ peer, (peer, mkAppendRequest t id (last_index l) (last_term l) [] (last_index l))) ps).

(** The calls of the peers are made without a lock; [call] has their answers. *)
Definition collect_votes_code (election_peers : list string)
    (call : string → VoteRequest → result Status VoteResponse) : rprog bool :=
  let* new_term := start_election_code in
  let* l := peek (GS := raft_guarded) FLog in
  let req := mkVoteRequest new_term id (last_index l) (last_term l) in
  let votes := count_votes (map (λ peer, call peer req) election_peers) in
  if majority (zlen election_peers) <=? votes
  then let* _ := become_leader_code in Done true
  else let* _ := step_down_code new_term None in Done false.

Definition replicate_code (data : bytes) (call : string → AppendRequest → result Status AppendResponse)
    : rprog (Result unit) :=
  let* leader := is_leader_code in
  if negb leader
  then let* l := get_leader_code in Done (Err (NotLeader (unwrap_or "unknown"%string l)))
  else
    Lock FLog (Get FLog (λ l : list LogEntry,
    let index := next_index l in
    let* t := get_term_code in
    let entry := mkLogEntry t index data in
    Set_ FLog (l ++ [entry]) (Drop FLog (
    let* ps := get_peers_code in
    let req := mkAppendRequest t id (wrap64 (index - 1)) t [entry] index in
    let acks := count_acks (map (λ peer, call peer req) ps) in
    if majority (zlen ps) <=? acks
    then
      Lock FCommitIndex (Set_ FCommitIndex index (
      Lock FLastApplied (Get FLastApplied (λ applied : Z, Get FCommitIndex (λ commit : Z,
      Set_ FLastApplied (apply_loop (Z.to_nat (commit - applied)) applied commit) (
      Drop FLastApplied (Drop FCommitIndex (Done (Ok tt)))))))))
    else Done (Err (Internal "Raft: no majority for commit")))))).
End methods.

(** ** Calls *)
(** The log is only reached through the guard, which the callers use as a
    temporary, as in [node.get_log().push(entry)] or [node.get_log().len()]:
    [use] is what the statement does to the log before the guard is dropped. *)
Definition with_log_code (use : list LogEntry → list LogEntry) : rprog (list LogEntry) :=
  let* l := get_log_code in Set_ FLog (use l) (Drop FLog (Done l)).

Inductive RaftCall :=
  | CallGetPeers | CallGetRole | CallGetLeader | CallGetTerm
  | CallWithLog (use : list LogEntry → list LogEntry) | CallIsLeader
  | CallBecomeLeader | CallStepDown (new_term : Z) (leader : option string) | CallStartElection
  | CallRequestVote (req : VoteRequest) | CallGrantVote (t : Z) (candidate_id : string)
  | CallAppendEntries (req : AppendRequest)
  | CallSaveSnapshot (data : bytes) | CallLoadSnapshot
  | CallApplySnapshot (data : bytes) (last_included_index last_included_term : Z) | CallRecover
  | CallSendHeartbeats
  | CallCollectVotes (ps : list string) (call : string → VoteRequest → result Status VoteResponse)
  | CallReplicate (data : bytes) (call : string → AppendRequest → result Status AppendResponse).

Inductive RaftReply :=
  | RUnit (u : unit) | RBool (b : bool) | RTerm (t : Z) | RRole (r : RaftRole) | RId (i : option string)
  | RPeers (ps : list string) | RLog (l : list LogEntry) | RVote (r : VoteResponse)
  | RAppend (r : AppendResponse) | RSnapshot (s : option bytes)
  | RHeartbeats (hs : list (string * AppendRequest)) | RResult (r : Result unit).

Definition reply {A} (f : A → RaftReply) (p : rprog A) : rprog RaftReply := prog_bind p (λ a, Done (f a)).

Definition call_code (id : string) (c : RaftCall) : rprog RaftReply :=
  match c with
  | CallGetPeers => reply RPeers get_peers_code
  | CallGetRole => reply RRole get_role_code
  | CallGetLeader => reply RId get_leader_code
  | CallGetTerm => reply RTerm get_term_code
  | CallWithLog use => reply RLog (with_log_code use)
  | CallIsLeader => reply RBool is_leader_code
  | CallBecomeLeader => reply RUnit (become_leader_code id)
  | CallStepDown t l => reply RUnit (step_down_code t l)
  | CallStartElection => reply RTerm (start_election_code id)
  | CallRequestVote req => reply RVote (handle_request_vote_code req)
  | CallGrantVote t c => reply RBool (grant_vote_code t c)
  | CallAppendEntries req => reply RAppend (handle_append_entries_code req)
  | CallSaveSnapshot data => reply RUnit (save_snapshot_code data)
  | CallLoadSnapshot => reply RSnapshot load_snapshot_code
  | CallApplySnapshot data i t => reply RUnit (apply_snapshot_code data i t)
  | CallRecover => reply RUnit recover_code
  | CallSendHeartbeats => reply RHeartbeats (send_heartbeats_code id)
  | CallCollectVotes ps call => reply RBool (collect_votes_code id ps call)
  | CallReplicate data call => reply RResult (replicate_code id data call)
  end.

(** The same calls in the sequential model. *)
Definition with_reply {A} (f : A → RaftReply) (r : RaftNode * A) : RaftNode * RaftReply := (r.1, f r.2).

Definition raft_call (c : RaftCall) (n : RaftNode) : RaftNode * RaftReply :=
  match c with
  | CallGetPeers => (n, RPeers (peers n))
  | CallGetRole => (n, RRole (role n))
  | CallGetLeader => (n, RId (leader_id n))
  | CallGetTerm => (n, RTerm (term n))
  | CallWithLog use => (with_log (use (log n)) n, RLog (log n))
  | CallIsLeader => (n, RBool (is_leader n))
  | CallBecomeLeader => (become_leader n, RUnit tt)
  | CallStepDown t l => (step_down t l n, RUnit tt)
  | CallStartElection => with_reply RTerm (start_election n)
  | CallRequestVote req => with_reply RVote (handle_request_vote req n)
  | CallGrantVote t c => with_reply RBool (grant_vote t c n)
  | CallAppendEntries req => with_reply RAppend (handle_append_entries req n)
  | CallSaveSnapshot data => (save_raft_snapshot data n, RUnit tt)
  | CallLoadSnapshot => (n, RSnapshot (load_raft_snapshot n))
  | CallApplySnapshot data i t => (apply_snapshot data i t n, RUnit tt)
  | CallRecover => (recover n, RUnit tt)
  | CallSendHeartbeats => (n, RHeartbeats (send_heartbeats n))
  | CallCollectVotes ps call => with_reply RBool (start_election_and_collect_votes ps call id n)
  | CallReplicate data call => with_reply RResult (replicate data call id n)
  end.

(** One goal per branch of the code. *)
Ltac branches := repeat (cbn -[Z.leb Z.ltb zlen majority last_index last_term count_votes count_acks
    add64 next_index wrap64]; match goal with
  | |- context [if ?b then _ else _] => destruct b
  | |- context [match ?b with Follower => _ | Candidate => _ | Leader => _ end] => destruct b
  end).

Lemma exec_call c n : exec (call_code (node_id n) c) n = raft_call c n.
Proof.
  destruct n as [i ro te vo le lo pe co ap sn].
  destruct c; unfold raft_call, with_reply, handle_request_vote, grant_vote, handle_append_entries,
    start_election_and_collect_votes, replicate, is_leader, vote_request, append_request;
    branches; reflexivity.
Qed.




(** ** Handlers *)
Definition holds_term (c : RaftCall) : bool :=
  match c with
  | CallStartElection | CallRequestVote _ | CallGrantVote _ _ | CallAppendEntries _ => true
  | _ => false
  end.

Lemma call_critical id c : holds_term c = true → critical (GS := raft_guarded) FTerm (call_code id c).
Proof.
  destruct c; intros Hc; try discriminate Hc; clear Hc.
  all: unfold call_code, reply; repeat (cbn -[Z.leb Z.ltb zlen decide]; critical_rule).
Qed.

(** The calls made one after the other. *)
Fixpoint raft_calls (cs : list RaftCall) (order : list nat) (n : RaftNode) : RaftNode * list (nat * RaftReply) :=
  match order with
  | [] => (n, [])
  | i :: order =>
      match cs !! i with
      | Some c => let '(n1, r) := raft_call c n in
                  let '(n2, rs) := raft_calls cs order n1 in (n2, (i, r) :: rs)
      | None => raft_calls cs order n
      end
  end.

Lemma raft_call_id c n : holds_term c = true → node_id (raft_call c n).1 = node_id n.
Proof.
  destruct c as [| | | | | | | | |req| |req| | | | | | |]; intros Hc; try discriminate Hc; simpl; [done|..].
  - unfold handle_request_vote. by branches.
  - unfold grant_vote. by branches.
  - apply (handle_append_entries_term req n).
Qed.

Lemma serial_calls cs order n :
  Forall (λ c, holds_term c = true) cs →
  serial (map (call_code (node_id n)) cs) order n = raft_calls cs order n.
Proof.
  intros HF. revert n. induction order as [|i order IH]; intros n; simpl; [done|].
  rewrite list_lookup_fmap. destruct (cs !! i) as [c|] eqn:E; simpl; [|by apply IH].
  rewrite exec_call. pose proof (raft_call_id c n (Forall_lookup_1 _ _ _ _ HF E)) as Hid.
  destruct (raft_call c n) as [n1 r]. simpl in Hid. rewrite <- Hid, IH. done.
Qed.

(** ** Properties *)

(** C6. The handlers of a node are atomic: however the vote and append
    handlers and the starts of elections of any number of threads interleave,
    lock by lock, when all have returned the node and their answers are those
    of the handlers run one after the other, in some order. *)
Theorem raft_handlers_atomic writers_first cs n ts n' :
  Forall (λ c, holds_term c = true) cs →
  rtc (pool_step writers_first) (start (map (call_code (node_id n)) cs) n) (ts, n') →
  Forall finished ts →
  ∃ order, order ≡ₚ seq 0 (length cs) ∧ (raft_calls cs order n).1 = n' ∧
    ∀ i, (i < length cs)%nat →
      ∃ t r, ts !! i = Some t ∧ code t = Done r ∧ (i, r) ∈ (raft_calls cs order n).2.
Proof.
  intros HF Hrun Hfin.
  destruct (critical_atomic (GS := raft_guarded) writers_first FTerm
    (map (call_code (node_id n)) cs) n ts n') as (order & Hp & Hs & Hr); [|done..|].
  { apply Forall_map. eapply Forall_impl; [exact HF|]. intros c. apply call_critical. }
  rewrite serial_calls in Hs, Hr by done. rewrite length_map in Hp, Hr. eauto.
Qed.


(** A caller that keeps the guard of [get_log] and then calls a method that
    reads the log waits for itself, alone in the pool. *)
Theorem kept_log_guard_blocks writers_first n :
  let p := let* _ := get_log_code in send_heartbeats_code (node_id n) in
  ∃ c, rtc (pool_step writers_first) (start [p] n) c ∧ deadlock writers_first c.
Proof.
  intros p. destruct n as [i ro te vo le lo pe co ap sn]. eexists.
  split; [apply (run_schedule_rtc writers_first (List.repeat 0 8)%nat); reflexivity|].
  split; [|intros [[a Ha] _]%Forall_cons; discriminate Ha].
  intros [c [j Hj]]. destruct j as [|j]; discriminate Hj.
Qed.

(** C38. [replicate] and [handle_append_entries] can block each other for ever:
    one holds the log and waits for the term, the other holds the term and
    waits for the log.  Every leader that receives an append request while it
    replicates can get there. *)
Theorem replicate_append_deadlock writers_first n data call req :
  role n = Leader →
  ∃ c, rtc (pool_step writers_first)
         (start (map (call_code (node_id n)) [CallReplicate data call; CallAppendEntries req]) n) c ∧
       deadlock writers_first c.
Proof.
  intros Hl. destruct n as [i ro te vo le lo pe co ap sn]. simpl in Hl. subst ro.
  eexists. split; [apply (run_schedule_rtc writers_first [0; 0; 0; 0; 0; 1; 1]%nat); reflexivity|].
  split; [|intros [[a Ha] _]%Forall_cons; discriminate Ha].
  intros [c [j Hj]]. destruct j as [|[|j]]; discriminate Hj.
Qed.

(** Two calls of [replicate] at the same time can take back a commit: on a
    leader without peers both succeed and append their entries, but the commit
    index ends at the first of them, although the second was acknowledged
    too. *)
Theorem concurrent_replicate_uncommits writers_first n data1 data2 call :
  role n = Leader → peers n = [] →
  let index := next_index (log n) in
  0 ≤ index → index + 1 < 2 ^ 64 →
  ∃ ts n', rtc (pool_step writers_first)
      (start (map (call_code (node_id n)) [CallReplicate data1 call; CallReplicate data2 call]) n) (ts, n') ∧
    map code ts = [Done (RResult (Ok tt)); Done (RResult (Ok tt))] ∧
    log n' = log n ++ [mkLogEntry (term n) index data1] ++ [mkLogEntry (term n) (index + 1) data2] ∧
    commit_index n' = index.
Proof.
  intros Hl Hp index H0 H1. destruct n as [i ro te vo le lo pe co ap sn]. simpl in Hl, Hp. subst ro pe.
  eexists _, _. split.
  { apply (run_schedule_rtc writers_first
      (List.repeat 0 13 ++ List.repeat 1 21 ++ List.repeat 0 8)%nat). reflexivity. }
  split; [reflexivity|]. split; [|reflexivity]. unfold index in *.
  cbn -[next_index app] in *. rewrite <- app_assoc. do 3 f_equal. unfold next_index at 1.
  rewrite last_snoc. cbn -[next_index]. rewrite add64_small by lia. done.
Qed.

(** ** Witnesses *)
Definition ex_handlers : list RaftCall := [CallRequestVote (mkVoteRequest 1 "b" 0 0); CallStartElection].
Definition ex_handlers_end : list (thread RaftReply) * RaftNode :=
  unwrap_or ([], raft_new "a")
    (run_schedule true (List.repeat 0 10 ++ List.repeat 1 13)%nat
       (start (map (call_code "a") ex_handlers) (raft_new "a"))).

Lemma raft_handlers_atomic_witness :
  ∃ order, order ≡ₚ [0; 1]%nat ∧ (raft_calls ex_handlers order (raft_new "a")).1 = ex_handlers_end.2.
Proof.
  destruct (raft_handlers_atomic true ex_handlers (raft_new "a") ex_handlers_end.1 ex_handlers_end.2)
    as (order & Hp & Hn & _).
  - repeat constructor.
  - apply (run_schedule_rtc true (List.repeat 0 10 ++ List.repeat 1 13)%nat). vm_compute. reflexivity.
  - vm_compute. repeat (constructor; [eexists; reflexivity|]). constructor.
  - exists order. split; [exact Hp|exact Hn].
Defined.



Definition ex_leader : RaftNode := become_leader (raft_new "a").

Lemma replicate_append_deadlock_witness :
  ∃ c, rtc (pool_step false)
         (start (map (call_code "a")
            [CallReplicate [x01] (λ _ _, Err (mkStatus (CodeOther 14) "down" None));
             CallAppendEntries (mkAppendRequest 1 "b" 0 0 [] 0)]) ex_leader) c ∧
       deadlock false c.
Proof. apply (replicate_append_deadlock false ex_leader). reflexivity. Defined.

Lemma concurrent_replicate_uncommits_witness :
  ∃ ts n', rtc (pool_step false)
      (start (map (call_code "a")
         [CallReplicate [x01] (λ _ _, Err (mkStatus (CodeOther 14) "down" None));
          CallReplicate [x02] (λ _ _, Err (mkStatus (CodeOther 14) "down" None))]) ex_leader) (ts, n') ∧
    commit_index n' = 1 ∧ length (log n') = 2%nat.
Proof.
  destruct (concurrent_replicate_uncommits false ex_leader [x01] [x02]
    (λ _ _, Err (mkStatus (CodeOther 14) "down" None))) as (ts & n' & Hr & _ & Hl & Hc); try done.
  exists ts, n'. split; [exact Hr|]. split; [exact Hc|]. rewrite Hl. reflexivity.
Defined.
