(* ===== verification/Cluster.v ===== *)
(** * Elections in a cluster

    The nodes of a cluster together: each is a [RaftNode], any number of
    elections run at the same time, and every request can be lost, delayed or
    answered in vain.  An election is [start_election_and_collect_votes] of
    [src/coordinator/raft_node.rs] cut where it waits: it starts, it asks one
    peer after the other, it ends.  Between the cuts the nodes answer requests.

    The steps of a cluster are those of a service that answers the requests
    ([RaftService]).  The theorems of this file are about clusters whose nodes
    answer with their handlers ([node_service]), each of which is atomic
    ([RaftLocks]); [Wiring] is about clusters wired as the coordinator's gRPC
    service wires them. *)

From Stdlib Require Import ZArith Lia.
From stdpp Require Import base option list relations gmap strings.
From S2P Require Import Prelude Bytes Text Errors Raft.

(** ** Elections in phases *)
Record Election := mkElection {
  el_request : VoteRequest;
  el_peers : Z;
  (** The peers that were not asked yet. *)
  el_ask : list string;
  el_votes : Z;
}.
Definition el_term (e : Election) : Z := vr_term (el_request e).
Definition el_candidate (e : Election) : string := vr_candidate_id (el_request e).
Definition el_key (e : Election) : Z * string := (el_term e, el_candidate e).

Definition election_start (election_peers : list string) (n : RaftNode) : RaftNode * Election :=
  let '(n, new_term) := start_election n in
  (n, mkElection (vote_request new_term n) (zlen election_peers) election_peers 1).
Definition election_answer (r : result Status VoteResponse) (e : Election) : Election :=
  mkElection (el_request e) (el_peers e) (tail (el_ask e))
    (match r with
     | Ok resp => if vp_vote_granted resp then el_votes e + 1 else el_votes e
     | Err _ => el_votes e
     end).
Definition election_end (e : Election) (n : RaftNode) : RaftNode * bool :=
  if majority (el_peers e) <=? el_votes e
  then (become_leader n, true)
  else (step_down (el_term e) None n, false).

(** ** The cluster *)
Record Cluster := mkCluster {
  nodes : gmap string RaftNode;
  elections : list Election;
  (** The elections that were won so far, as terms and candidates. *)
  elected : list (Z * string);
}.
Definition cluster_new (members : list string) : Cluster :=
  mkCluster (list_to_map (map (λ id, (id, raft_new id)) members)) [] [].

(** One step.  Terms stay below the last one.  Where [undisturbed] is set, an
    election that is lost ends before its candidate has seen a later term. *)
Section step.
Context (SV : RaftService) (members : list string) (undisturbed : bool).

Inductive cluster_step (cl : Cluster) : Cluster → Prop :=
  | cs_start c n n' e :
      nodes cl !! c = Some n → term n + 1 < U64_MAX →
      election_start (filter (λ v, v ≠ c) members) n = (n', e) →
      cluster_step cl (mkCluster (<[c := n']> (nodes cl)) (e :: elections cl) (elected cl))
  (** The next peer is asked and its answer arrives. *)
  | cs_answer es1 e es2 v vs n n' r :
      elections cl = es1 ++ e :: es2 → el_ask e = v :: vs →
      nodes cl !! v = Some n → answer_vote SV (el_request e) n = (n', r) →
      cluster_step cl (mkCluster (<[v := n']> (nodes cl)) (es1 ++ election_answer r e :: es2) (elected cl))
  (** The call of the next peer fails. *)
  | cs_no_answer es1 e es2 v vs error :
      elections cl = es1 ++ e :: es2 → el_ask e = v :: vs →
      cluster_step cl (mkCluster (nodes cl) (es1 ++ election_answer (Err error) e :: es2) (elected cl))
  (** A request whose answer nobody waits for any more: late, repeated, or forged. *)
  | cs_request v n req :
      nodes cl !! v = Some n → vr_term req < U64_MAX →
      cluster_step cl (mkCluster (<[v := (answer_vote SV req n).1]> (nodes cl)) (elections cl) (elected cl))
  | cs_append v n req :
      nodes cl !! v = Some n → ar_term req < U64_MAX →
      cluster_step cl (mkCluster (<[v := (answer_append SV req n).1]> (nodes cl)) (elections cl) (elected cl))
  (** What a node does to its log, commit index, snapshot and role. *)
  | cs_local v n n' :
      nodes cl !! v = Some n →
      node_id n' = node_id n → term n' = term n → voted_for n' = voted_for n →
      cluster_step cl (mkCluster (<[v := n']> (nodes cl)) (elections cl) (elected cl))
  | cs_end es1 e es2 n n' won :
      elections cl = es1 ++ e :: es2 → el_ask e = [] →
      nodes cl !! el_candidate e = Some n → election_end e n = (n', won) →
      (undisturbed = true → won = false → term n = el_term e) →
      cluster_step cl (mkCluster (<[el_candidate e := n']> (nodes cl)) (es1 ++ es2)
        (if won then elected cl ++ [el_key e] else elected cl)).
End step.

(** ** The phases are the election of [Raft] *)
Lemma answers_fold rs e :
  fold_left (λ e r, election_answer r e) rs e =
  mkElection (el_request e) (el_peers e) (drop (length rs) (el_ask e))
    (fold_left (λ votes r, match r with
                           | Ok resp => if vp_vote_granted resp then votes + 1 else votes
                           | Err _ => votes
                           end) rs (el_votes e)).
Proof.
  revert e. induction rs as [|r rs IH]; intros e; cbn [fold_left]; [by destruct e|].
  rewrite IH. simpl. by destruct (el_ask e) as [|v vs]; cbn [tail]; rewrite ?drop_nil, ?skipn_cons.
Qed.

Lemma election_phases ps call during n :
  start_election_and_collect_votes ps call during n =
  let '(n1, e) := election_start ps n in
  let e := fold_left (λ e r, election_answer r e) (map (λ peer, call peer (el_request e)) ps) e in
  election_end e (during n1).
Proof. unfold election_start. simpl. rewrite answers_fold. reflexivity. Qed.

(** ** Invariant

    [V] holds the votes that each node has cast, without those for itself in
    elections it has lost. *)
Definition Votes : Type := string → list (Z * string).

Record election_ok (members : list string) (V : Votes) (e : Election) : Prop := {
  eo_member : el_candidate e ∈ members;
  eo_term : el_term e < U64_MAX;
  eo_peers : el_peers e = zlen members - 1;
  eo_ask : NoDup (el_ask e) ∧ (el_candidate e ∉ el_ask e) ∧ (el_ask e ⊆ members);
  eo_self : el_key e ∈ V (el_candidate e);
  eo_granted : ∃ gs, NoDup gs ∧ el_votes e = 1 + zlen gs ∧
    ∀ g, g ∈ gs → (g ∈ members) ∧ g ≠ el_candidate e ∧ (g ∉ el_ask e) ∧ el_key e ∈ V g;
}.
Definition elected_ok (members : list string) (V : Votes) (k : Z * string) : Prop :=
  majority (zlen members - 1) ≤ zlen (filter (λ v, k ∈ V v) members).

Record cluster_inv (members : list string) (cl : Cluster) (V : Votes) : Prop := {
  ci_nodes v n : nodes cl !! v = Some n → v ∈ members ∧ node_id n = v ∧ 0 ≤ term n < U64_MAX;
  ci_votes v n : nodes cl !! v = Some n → votes_inv (V v) n;
  ci_elections : Forall (election_ok members V) (elections cl);
  ci_elected : Forall (elected_ok members V) (elected cl);
  ci_once : NoDup (map el_key (elections cl) ++ elected cl);
  ci_past t c n : (t, c) ∈ map el_key (elections cl) ++ elected cl → nodes cl !! c = Some n → t ≤ term n;
  ci_node v : v ∈ members → is_Some (nodes cl !! v);
}.

Lemma election_ok_mono members V V' e :
  (∀ v, el_key e ∈ V v → el_key e ∈ V' v) → election_ok members V e → election_ok members V' e.
Proof.
  intros HV [H1 H2 H3 H4 H5 (gs & G1 & G2 & G3)]. split; try done; [by apply HV|].
  exists gs. split; [done|]. split; [done|]. intros g Hg. destruct (G3 g Hg) as (? & ? & ? & ?). auto.
Qed.
Lemma elected_ok_mono members V V' k :
  (∀ v, k ∈ V v → k ∈ V' v) → elected_ok members V k → elected_ok members V' k.
Proof. intros HV H. unfold elected_ok in *. etransitivity; [exact H|]. apply zlen_filter_le. auto. Qed.

(** A vote of the voter [v]. *)
Definition cast (v : string) (vs : list (Z * string)) (V : Votes) : Votes :=
  λ u, if decide (u = v) then V u ++ vs else V u.
Lemma cast_old v vs V u k : k ∈ V u → k ∈ cast v vs V u.
Proof. intros H. unfold cast. case_decide; [|done]. apply elem_of_app. by left. Qed.

(** A node that moves on without an election of its own: it may cast votes, and
    the elections that run learn of them. *)
Lemma inv_node members cl V v n n' vs :
  cluster_inv members cl V → nodes cl !! v = Some n →
  node_id n' = node_id n → term n ≤ term n' < U64_MAX → votes_inv (V v ++ vs) n' →
  cluster_inv members (mkCluster (<[v := n']> (nodes cl)) (elections cl) (elected cl)) (cast v vs V).
Proof.
  intros [I1 I2 I3 I4 I5 I6 I7] Hv Hid Ht Hvotes. split; simpl.
  - intros u m [[<- <-]|[Hne Hu]]%lookup_insert_Some; [|by apply I1].
    destruct (I1 _ _ Hv) as (? & ? & ?). split_and!; [done|congruence|lia|lia].
  - intros u m [[<- <-]|[Hne Hu]]%lookup_insert_Some; unfold cast; case_decide; try done. by apply I2.
  - eapply Forall_impl; [exact I3|]. intros e. apply election_ok_mono. intros u. apply cast_old.
  - eapply Forall_impl; [exact I4|]. intros k. apply elected_ok_mono. intros u. apply cast_old.
  - done.
  - intros t c m Hin [[<- <-]|[Hne Hu]]%lookup_insert_Some; [|by eapply I6].
    specialize (I6 _ _ _ Hin Hv). lia.
  - intros u Hu. destruct (decide (u = v)) as [->|]; [rewrite lookup_insert_eq; eauto|].
    rewrite lookup_insert_ne by done. auto.
Qed.

(** *** Voting *)
Lemma handle_request_vote_frame req n :
  node_id (handle_request_vote req n).1 = node_id n ∧
  term (handle_request_vote req n).1 = Z.max (term n) (vr_term req).
Proof.
  unfold handle_request_vote. destruct (Z.ltb_spec (vr_term req) (term n)); simpl; [split; [done|lia]|].
  destruct (Z.ltb_spec (term n) (vr_term req)); simpl;
    repeat case_bool_decide; simpl; (split; [done|lia]).
Qed.

Lemma votes_after_request (V : Votes) v req n n' resp :
  votes_inv (V v) n → 0 ≤ term n < U64_MAX → vr_term req < U64_MAX →
  handle_request_vote req n = (n', resp) →
  votes_inv (V v ++ if vp_vote_granted resp then [(vr_term req, vr_candidate_id req)] else []) n'.
Proof.
  intros HV Hn Hreq E. unfold U64_MAX in *.
  pose proof (votes_inv_event (EvVote req) (V v) n (Z.max (term n) (vr_term req)) HV) as H.
  simpl in H. rewrite E in H. apply H; lia.
Qed.

Lemma inv_request members cl V v n req n' resp :
  cluster_inv members cl V → nodes cl !! v = Some n → vr_term req < U64_MAX →
  handle_request_vote req n = (n', resp) →
  cluster_inv members (mkCluster (<[v := n']> (nodes cl)) (elections cl) (elected cl))
    (cast v (if vp_vote_granted resp then [(vr_term req, vr_candidate_id req)] else []) V).
Proof.
  intros I Hv Hreq E. destruct (ci_nodes _ _ _ I _ _ Hv) as (_ & _ & Ht).
  pose proof (handle_request_vote_frame req n) as [F1 F2]. rewrite E in F1, F2. simpl in F1, F2.
  eapply inv_node; [done|done|done|lia|]. eapply votes_after_request; eauto using ci_votes.
Qed.

(** An election hears of one more peer; [granted] says that the vote was cast. *)
Lemma inv_heard members cl V es1 e es2 v vs r :
  cluster_inv members cl V → elections cl = es1 ++ e :: es2 → el_ask e = v :: vs →
  (granted r = true → el_key e ∈ V v) →
  cluster_inv members (mkCluster (nodes cl) (es1 ++ election_answer r e :: es2) (elected cl)) V.
Proof.
  intros I Hes Hask Hg. destruct I as [I1 I2 I3 I4 I5 I6 I7]. rewrite Hes in *.
  assert (map el_key (es1 ++ election_answer r e :: es2) = map el_key (es1 ++ e :: es2)) as Hk
    by by rewrite !map_app.
  split; simpl; rewrite ?Hk; try done.
  apply Forall_app in I3 as [F1 F2]. apply Forall_cons in F2 as [[H1 H2 H3 [H4 [H5 H6]] H7 (gs & G1 & G2 & G3)] F3].
  apply Forall_app. split; [done|]. apply Forall_cons. split; [|done]. rewrite Hask in H4, H5, H6.
  apply NoDup_cons in H4 as [Hv H4]. split; try done.
  { unfold election_answer; simpl. rewrite Hask. simpl. split_and!; [done|set_solver|set_solver]. }
  unfold election_answer; simpl. rewrite Hask; simpl. destruct (granted r) eqn:Er.
  - exists (v :: gs). split_and!.
    + constructor; [|done]. intros Hin. destruct (G3 v Hin) as (_ & _ & Hn & _). rewrite Hask in Hn. set_solver.
    + rewrite zlen_cons. destruct r as [resp|]; simpl in Er; [|done]. rewrite Er. lia.
    + intros g [->|Hin]%elem_of_cons.
      * split_and!; [set_solver|set_solver|done|]. by apply Hg.
      * destruct (G3 g Hin) as (? & ? & Hn & ?). rewrite Hask in Hn. set_solver.
  - exists gs. split_and!; [done| |].
    + destruct r as [resp|]; simpl in Er; [by rewrite Er|done].
    + intros g Hin. destruct (G3 g Hin) as (? & ? & Hn & ?). rewrite Hask in Hn. set_solver.
Qed.

(** *** Starting and ending an election *)
Lemma other_members (members : list string) c :
  NoDup members → c ∈ members →
  zlen (filter (λ v, v ≠ c) members) = zlen members - 1 ∧ NoDup (filter (λ v, v ≠ c) members).
Proof.
  intros Hnd Hc. split; [|by apply NoDup_filter]. pose proof Hnd as Hnd'.
  apply elem_of_Permutation in Hc as [l Hl]. rewrite Hl in Hnd' |- *.
  apply NoDup_cons in Hnd' as [Hc _]. rewrite zlen_cons, filter_cons_False by naive_solver.
  rewrite filter_keep; [lia|]. apply Forall_forall. by intros x Hx ->.
Qed.

Lemma election_start_spec ps V n n' e :
  election_start ps n = (n', e) → votes_inv V n → 0 ≤ term n → term n + 1 < U64_MAX →
  node_id n' = node_id n ∧ term n' = term n + 1 ∧ votes_inv (V ++ [(term n + 1, node_id n)]) n' ∧
  el_key e = (term n + 1, node_id n) ∧ el_peers e = zlen ps ∧ el_ask e = ps ∧ el_votes e = 1.
Proof.
  unfold election_start, U64_MAX. intros E HV H0 Ht.
  pose proof (votes_inv_event EvElection V n (term n) HV) as H. cbn [raft_event] in H.
  cbn [start_election] in *. rewrite (add64_small (term n) 1) in * by lia. injection E as <- <-.
  split_and!; try done. apply H; simpl; lia.
Qed.

Lemma inv_start members cl V c n n' e :
  NoDup members → cluster_inv members cl V → nodes cl !! c = Some n → term n + 1 < U64_MAX →
  election_start (filter (λ v, v ≠ c) members) n = (n', e) →
  cluster_inv members (mkCluster (<[c := n']> (nodes cl)) (e :: elections cl) (elected cl))
    (cast c [el_key e] V).
Proof.
  intros Hnd I Hc Ht E. destruct (ci_nodes _ _ _ I _ _ Hc) as (Hm & Hid & Hn).
  destruct (other_members _ _ Hnd Hm) as [Hlen Hnd2].
  destruct (election_start_spec _ _ _ _ _ E (ci_votes _ _ _ I _ _ Hc) (proj1 Hn) Ht)
    as (E1 & E2 & E3 & E4 & E5 & E6 & E7). rewrite Hid in E3, E4.
  destruct (inv_node members cl V c n n' [el_key e] I Hc) as [J1 J2 J3 J4 J5 J6 J7];
    [done|lia|by rewrite E4|]. cbn [nodes elections elected] in *.
  split; cbn [nodes elections elected map]; [exact J1|exact J2| |exact J4| | |exact J7].
  - apply Forall_cons. split; [|exact J3]. pose proof E4 as [= Et Ec]. split; rewrite ?Ec, ?Et, ?E4, ?E5, ?E6; try done.
    + split_and!; [done|rewrite list_elem_of_filter; tauto|]. intros x. rewrite list_elem_of_filter. tauto.
    + unfold cast. rewrite decide_True by done. set_solver.
    + exists []. split; [constructor|]. split; [done|]. by intros g ?%not_elem_of_nil.
  - constructor; [|exact J5]. rewrite E4. intros Hin. pose proof (ci_past _ _ _ I _ _ _ Hin Hc). lia.
  - intros t u m [Hh|Hin]%elem_of_cons Hu; [|by eapply J6]. rewrite E4 in Hh. injection Hh as -> ->.
    rewrite lookup_insert_eq in Hu. injection Hu as <-. lia.
Qed.

(** The candidate that ends an election keeps its place among the others. *)
Lemma once_end (es1 es2 : list (Z * string)) k ks (won : bool) :
  NoDup ((es1 ++ k :: es2) ++ ks) →
  NoDup ((es1 ++ es2) ++ if won then ks ++ [k] else ks) ∧
  (∀ x, x ∈ (es1 ++ es2) ++ (if won then ks ++ [k] else ks) → x ∈ (es1 ++ k :: es2) ++ ks) ∧
  k ∉ (es1 ++ es2) ++ ks.
Proof.
  intros H. assert ((es1 ++ k :: es2) ++ ks ≡ₚ ((es1 ++ es2) ++ ks) ++ [k]) as P
    by solve_Permutation.
  rewrite P in H. pose proof H as (H1 & H2 & _)%NoDup_app. split_and!.
  - destruct won; [by rewrite <- app_assoc in H|done].
  - intros x. rewrite P. destruct won; set_solver.
  - intros Hk. apply (H2 k Hk), list_elem_of_here.
Qed.

Lemma votes_filter_mono k k' (V : Votes) c v :
  k ≠ k' → k ∈ V v → k ∈ if decide (v = c) then filter (λ x, x ≠ k') (V v) else V v.
Proof. intros Hne H. case_decide; [|done]. by apply list_elem_of_filter. Qed.

Lemma step_down_votes V n t c :
  votes_inv V n → (t, c) ∈ V → term n = t →
  votes_inv (filter (λ x, x ≠ (t, c)) V) (step_down t None n).
Proof.
  intros [H1 H2] Hin <-. split.
  - intros t' c' [Hne Hin']%list_elem_of_filter. destruct (H1 _ _ Hin') as [Hle Hcur]. split; [done|].
    simpl. intros ->. destruct (H1 _ _ Hin) as [_ Hcur']. rewrite Hcur in Hcur' by done.
    exfalso. apply Hne. specialize (Hcur' eq_refl). congruence.
  - intros t' c1 c2 [_ ?]%list_elem_of_filter [_ ?]%list_elem_of_filter. eauto.
Qed.

Lemma won_elected members V e :
  NoDup members → election_ok members V e → majority (el_peers e) ≤ el_votes e →
  elected_ok members V (el_key e).
Proof.
  intros Hnd [H1 H2 H3 H4 H5 (gs & G1 & G2 & G3)] Hm. unfold elected_ok. rewrite <- H3.
  etransitivity; [exact Hm|]. rewrite G2.
  assert (el_candidate e :: gs ⊆+ filter (λ v, el_key e ∈ V v) members) as Hs.
  { apply NoDup_submseteq.
    - constructor; [|done]. intros Hin. by destruct (G3 _ Hin) as (_ & ? & _).
    - intros v [->|Hin]%elem_of_cons; apply list_elem_of_filter; [done|].
      destruct (G3 _ Hin) as (? & _ & _ & ?). done. }
  apply submseteq_length in Hs. simpl in Hs. unfold zlen. lia.
Qed.

Lemma inv_end members cl V es1 e es2 n n' won :
  NoDup members → cluster_inv members cl V → elections cl = es1 ++ e :: es2 →
  nodes cl !! el_candidate e = Some n → election_end e n = (n', won) →
  (won = false → term n = el_term e) →
  ∃ V', cluster_inv members (mkCluster (<[el_candidate e := n']> (nodes cl)) (es1 ++ es2)
          (if won then elected cl ++ [el_key e] else elected cl)) V'.
Proof.
  intros Hnd I Hes Hn Hend Hlost. pose proof I as [I1 I2 I3 I4 I5 I6 I7].
  destruct (I1 _ _ Hn) as (Hm & Hid & Ht). rewrite Hes in I3, I5, I6.
  rewrite map_app in I5, I6. simpl in I5, I6.
  destruct (once_end _ _ _ _ won I5) as (Honce & Hsub & Hnew). rewrite <- map_app in Honce, Hsub, Hnew.
  assert (He : election_ok members V e) by (eapply Forall_forall; [exact I3|set_solver]).
  assert (HF : Forall (election_ok members V) (es1 ++ es2)).
  { apply Forall_app in I3 as [F1 [_ F2]%Forall_cons]. by apply Forall_app. }
  unfold election_end in Hend. destruct (Z.leb_spec (majority (el_peers e)) (el_votes e)) as [Hmaj|Hmaj];
    injection Hend as <- <-.
  - exists (cast (el_candidate e) [] V).
    destruct (inv_node members cl V (el_candidate e) n (become_leader n) [] I Hn) as [J1 J2 J3 J4 J5 J6 J7];
      [done|simpl; lia|rewrite app_nil_r; by destruct (I2 _ _ Hn)|]. cbn [nodes elections elected] in *.
    split; cbn [nodes elections elected]; [exact J1|exact J2| | |exact Honce| |exact J7].
    + eapply Forall_impl; [exact HF|]. intros e'. apply election_ok_mono. intros u. apply cast_old.
    + apply Forall_app. split; [exact J4|]. apply Forall_singleton.
      eapply elected_ok_mono; [intros u; apply cast_old|]. by apply won_elected.
    + intros t c m Hin [[<- <-]|[Hne Hu]]%lookup_insert_Some; apply Hsub in Hin; simpl; [by eapply I6|by eapply I6].
  - specialize (Hlost eq_refl).
    exists (λ u, if decide (u = el_candidate e) then filter (λ x, x ≠ el_key e) (V u) else V u).
    assert (∀ k, k ∈ map el_key (es1 ++ es2) ++ elected cl → k ≠ el_key e) as Hother by (by intros k Hin ->).
    split; cbn [nodes elections elected].
    + intros u m [[<- <-]|[Hne Hu]]%lookup_insert_Some; [|by apply I1]. simpl. split_and!; [done|done|lia|lia].
    + intros u m [[<- <-]|[Hne Hu]]%lookup_insert_Some; case_decide; try done; [|by apply I2].
      apply step_down_votes; [by apply I2|apply He|done].
    + apply Forall_forall. intros e' Hin'. eapply election_ok_mono; [|by eapply Forall_forall in HF].
      intros u. apply votes_filter_mono, Hother, elem_of_app. left. apply list_elem_of_fmap. eauto.
    + apply Forall_forall. intros k Hk. eapply elected_ok_mono; [|by eapply Forall_forall in I4].
      intros u. apply votes_filter_mono, Hother, elem_of_app. by right.
    + exact Honce.
    + intros t c m Hin [[<- <-]|[Hne Hu]]%lookup_insert_Some; apply Hsub in Hin; [|by eapply I6].
      simpl. rewrite <- Hlost. by eapply I6.
    + intros u Hu. destruct (decide (u = el_candidate e)) as [->|]; [rewrite lookup_insert_eq; eauto|].
      rewrite lookup_insert_ne by done. auto.
Qed.

(** ** Every step keeps the invariant *)
Lemma inv_step members cl cl' V :
  NoDup members → cluster_inv members cl V → cluster_step node_service members true cl cl' →
  ∃ V', cluster_inv members cl' V'.
Proof.
  intros Hnd I [c n n' e Hc Ht E|es1 e es2 v vs n n' r Hes Hask Hv E|es1 e es2 v vs error Hes Hask
    |v n req Hv Hreq|v n req Hv Hreq|v n n' Hv E1 E2 E3|es1 e es2 n n' won Hes _ Hn E Hlost].
  - eauto using inv_start.
  - assert (election_ok members V e) as He.
    { pose proof (ci_elections _ _ _ I) as HF. rewrite Hes in HF. by apply Forall_app in HF as [_ [? _]%Forall_cons]. }
    simpl in E. destruct (handle_request_vote (el_request e) n) as [m resp] eqn:Er. injection E as -> <-.
    pose proof (inv_request members cl V v n (el_request e) n' resp I Hv (eo_term _ _ _ He) Er) as J.
    eexists. apply (inv_heard _ _ _ es1 e es2 v vs (Ok resp) J); [done|done|].
    simpl. intros ->. unfold cast. rewrite decide_True by done. apply elem_of_app. right. by apply list_elem_of_here.
  - exists V. by eapply inv_heard.
  - simpl. destruct (handle_request_vote req n) as [n' resp] eqn:E. eauto using inv_request.
  - exists (cast v [] V). destruct (ci_nodes _ _ _ I _ _ Hv) as (_ & _ & Ht). unfold U64_MAX in *.
    pose proof (handle_append_entries_term req n) as (F1 & F2 & F3). cbn [answer_append node_service fst].
    eapply inv_node; [done|done|done|unfold U64_MAX; lia|].
    pose proof (votes_inv_event (EvAppend req) (V v) n (Z.max (term n) (ar_term req)) (ci_votes _ _ _ I _ _ Hv)) as H.
    apply H; simpl; lia.
  - exists (cast v [] V). destruct (ci_nodes _ _ _ I _ _ Hv) as (_ & _ & Ht).
    eapply inv_node; [done|done|done|lia|]. rewrite app_nil_r.
    destruct (ci_votes _ _ _ I _ _ Hv) as [H1 H2]. split; [|done]. by rewrite E2, E3.
  - eapply inv_end; eauto.
Qed.

Lemma cluster_new_lookup members v n :
  nodes (cluster_new members) !! v = Some n → v ∈ members ∧ n = raft_new v.
Proof.
  simpl. intros (m & [= <- ->] & Hm)%elem_of_list_to_map_2%list_elem_of_fmap. done.
Qed.
Lemma inv_new members : NoDup members → cluster_inv members (cluster_new members) (λ _, []).
Proof.
  intros Hnd. split; simpl; try done.
  - intros v n [Hin ->]%cluster_new_lookup. done.
  - intros v n _. split; intros *; by intros ?%not_elem_of_nil.
  - constructor.
  - intros t c n []%not_elem_of_nil.
  - intros v Hv. exists (raft_new v). apply elem_of_list_to_map_1.
    + by rewrite <- list_fmap_compose, list_fmap_id.
    + apply list_elem_of_fmap. eauto.
Qed.

Lemma inv_reachable members cl :
  NoDup members → rtc (cluster_step node_service members true) (cluster_new members) cl → ∃ V, cluster_inv members cl V.
Proof.
  intros Hnd H. assert (∃ V, cluster_inv members (cluster_new members) V) as HI by eauto using inv_new.
  revert HI. induction H as [cl|cl cl1 cl2 Hs _ IH]; intros [V I]; [eauto|]. eauto using inv_step.
Qed.

(** In a term two candidates cannot both have a majority of an odd cluster. *)
Lemma majorities_meet members (V : Votes) t a b :
  (∀ v c c', v ∈ members → (t, c) ∈ V v → (t, c') ∈ V v → c = c') →
  Z.Odd (zlen members) → elected_ok members V (t, a) → elected_ok members V (t, b) → a = b.
Proof.
  intros Hu [k Hk] Ha Hb. apply dec_stable. intros Hne.
  set (ballot v := snd <$> (snd <$> list_find (λ p, p.1 = t) (V v))).
  assert (∀ c, zlen (filter (λ v, (t, c) ∈ V v) members) ≤ zlen (filter (λ v, ballot v = Some c) members)) as Hle.
  { intros c. assert (∀ ms, (∀ v, v ∈ ms → v ∈ members) →
      zlen (filter (λ v, (t, c) ∈ V v) ms) ≤ zlen (filter (λ v, ballot v = Some c) ms)) as Hms; [|by apply Hms].
    induction ms as [|v ms IH]; intros Hsub; [done|]. specialize (IH ltac:(set_solver)). rewrite !filter_cons.
    case_decide as Hin; case_decide as Hb'; rewrite ?zlen_cons; try lia. exfalso. apply Hb'. unfold ballot.
    destruct (list_find_elem_of (λ p, p.1 = t) (V v) (t, c) Hin eq_refl) as [[i [t' c']] Hf].
    rewrite Hf. simpl. f_equal. apply list_find_Some in Hf as (Hl & Et & _). simpl in Et. subst t'.
    apply list_elem_of_lookup_2 in Hl. eapply Hu; [|done|done]. set_solver. }
  pose proof (disjoint_ballots ballot members a b Hne). pose proof (Hle a). pose proof (Hle b).
  unfold elected_ok, majority in *. rewrite Hk in *.
  replace (2 * k + 1 - 1 + 1 + 1) with ((k + 1) * 2) in * by lia. rewrite Z.div_mul in * by lia. lia.
Qed.

(** ** Properties *)

(** C12. Election safety of the [RaftNode] protocol: in a cluster with an odd
    number of members whose nodes answer requests with
    [RaftNode::handle_request_vote] and [RaftNode::handle_append_entries],
    however elections, vote requests and append requests interleave and whatever
    answers are lost, two elections of one term that were won were won by the
    same node, as long as no candidate that loses an election has seen a later
    term meanwhile.  The coordinator's gRPC service does not answer with these
    handlers, and clusters wired through it have no such property (see
    [Wiring]). *)
Theorem election_safety members cl t a b :
  NoDup members → Z.Odd (zlen members) →
  rtc (cluster_step node_service members true) (cluster_new members) cl →
  (t, a) ∈ elected cl → (t, b) ∈ elected cl → a = b.
Proof.
  intros Hnd Hodd Hr Ha Hb. destruct (inv_reachable _ _ Hnd Hr) as [V I].
  pose proof (ci_elected _ _ _ I) as HF. rewrite Forall_forall in HF.
  eapply majorities_meet; [|done|by apply HF|by apply HF].
  intros v c c' Hv H1 H2. destruct (ci_node _ _ _ I v Hv) as [n Hn].
  destruct (ci_votes _ _ _ I _ _ Hn) as [_ Hu]. eauto.
Qed.

(** ** Runs of a cluster *)
Inductive Move :=
  | MStart (c : string)
  (** The election at a position of the list asks its next peer, and the answer
      arrives, or only the request does, or nothing. *)
  | MAnswer (i : nat)
  | MUnheard (i : nat)
  | MNoAnswer (i : nat)
  | MEnd (i : nat).

Definition set_election (i : nat) (e : Election) (cl : Cluster) : Cluster :=
  mkCluster (nodes cl) (take i (elections cl) ++ e :: drop (S i) (elections cl)) (elected cl).
Definition set_node (v : string) (n : RaftNode) (cl : Cluster) : Cluster :=
  mkCluster (<[v := n]> (nodes cl)) (elections cl) (elected cl).
Definition lost_answer : result Status VoteResponse := Err (mkStatus CodeInternal "" None).

Definition cluster_move (SV : RaftService) (members : list string) (undisturbed : bool) (m : Move) (cl : Cluster) : option Cluster :=
  match m with
  | MStart c =>
      n ← nodes cl !! c;
      if term n + 1 <? U64_MAX then
        let '(n', e) := election_start (filter (λ v, v ≠ c) members) n in
        Some (mkCluster (<[c := n']> (nodes cl)) (e :: elections cl) (elected cl))
      else None
  | MAnswer i =>
      e ← elections cl !! i; v ← head (el_ask e); n ← nodes cl !! v;
      let '(n', r) := answer_vote SV (el_request e) n in
      Some (set_node v n' (set_election i (election_answer r e) cl))
  | MUnheard i =>
      e ← elections cl !! i; v ← head (el_ask e); n ← nodes cl !! v;
      if el_term e <? U64_MAX
      then Some (set_election i (election_answer lost_answer e)
                   (set_node v (answer_vote SV (el_request e) n).1 cl))
      else None
  | MNoAnswer i =>
      e ← elections cl !! i; v ← head (el_ask e); Some (set_election i (election_answer lost_answer e) cl)
  | MEnd i =>
      e ← elections cl !! i; n ← nodes cl !! el_candidate e;
      let '(n', won) := election_end e n in
      if bool_decide (el_ask e = []) && (negb undisturbed || won || (term n =? el_term e))
      then Some (mkCluster (<[el_candidate e := n']> (nodes cl)) (take i (elections cl) ++ drop (S i) (elections cl))
             (if won then elected cl ++ [el_key e] else elected cl))
      else None
  end.
Fixpoint cluster_moves (SV : RaftService) (members : list string) (undisturbed : bool) (ms : list Move) (cl : Cluster)
    : option Cluster :=
  match ms with
  | [] => Some cl
  | m :: ms => cl ← cluster_move SV members undisturbed m cl; cluster_moves SV members undisturbed ms cl
  end.

Lemma cluster_move_step SV members undisturbed m cl cl' :
  cluster_move SV members undisturbed m cl = Some cl' → rtc (cluster_step SV members undisturbed) cl cl'.
Proof.
  destruct m as [c|i|i|i|i]; cbn [cluster_move].
  - intros (n & Hn & H)%bind_Some. destruct (Z.ltb_spec (term n + 1) U64_MAX); [|done].
    destruct (election_start _ n) as [n' e] eqn:E. injection H as <-. apply rtc_once. by eapply cs_start.
  - intros (e & He & (v & Hv & (n & Hn & H)%bind_Some)%bind_Some)%bind_Some.
    destruct (answer_vote SV _ n) as [n' r] eqn:E. injection H as <-. apply rtc_once.
    destruct (el_ask e) as [|v' vs] eqn:Ea; [done|]. injection Hv as ->.
    by apply (cs_answer SV members undisturbed cl (take i (elections cl)) e (drop (S i) (elections cl)) v vs n n' r);
      [rewrite take_drop_middle|..].
  - intros (e & He & (v & Hv & (n & Hn & H)%bind_Some)%bind_Some)%bind_Some.
    destruct (Z.ltb_spec (el_term e) U64_MAX); [|done]. injection H as <-.
    destruct (el_ask e) as [|v' vs] eqn:Ea; [done|]. injection Hv as ->.
    eapply rtc_l; [by apply (cs_request SV members undisturbed cl v n (el_request e))|]. apply rtc_once.
    by apply (cs_no_answer SV members undisturbed (set_node v _ cl) (take i (elections cl)) e
      (drop (S i) (elections cl)) v vs); [simpl; rewrite take_drop_middle|].
  - intros (e & He & (v & Hv & [= <-])%bind_Some)%bind_Some. apply rtc_once.
    destruct (el_ask e) as [|v' vs] eqn:Ea; [done|]. injection Hv as ->.
    by apply (cs_no_answer SV members undisturbed cl (take i (elections cl)) e (drop (S i) (elections cl)) v vs);
      [rewrite take_drop_middle|].
  - intros (e & He & (n & Hn & H)%bind_Some)%bind_Some.
    destruct (election_end e n) as [n' won] eqn:E. case_bool_decide; [|done]. simpl in H.
    destruct (negb undisturbed || won || (term n =? el_term e)) eqn:Eu; [|done]. injection H as <-. apply rtc_once.
    apply (cs_end SV members undisturbed cl (take i (elections cl)) e (drop (S i) (elections cl)) n n' won);
      [by rewrite take_drop_middle|done..|]. intros -> ->. simpl in Eu. by apply Z.eqb_eq in Eu.
Qed.
Lemma cluster_moves_steps SV members undisturbed ms cl cl' :
  cluster_moves SV members undisturbed ms cl = Some cl' → rtc (cluster_step SV members undisturbed) cl cl'.
Proof.
  revert cl. induction ms as [|m ms IH]; intros cl; cbn [cluster_moves]; [by intros [= <-]|].
  intros (cl1 & H1 & H2)%bind_Some. etransitivity; [by eapply cluster_move_step|]. eauto.
Qed.

(** [c] starts an election in term 1 that reaches [a] and [b], whose answers are
    lost; [a] is elected in term 2 with the vote of [c]; now the election of [c]
    ends, which takes it back to term 1 without a vote; [b] is elected in term 2
    with the vote of [c] as well. *)
Definition split_brain : list Move :=
  [MStart "c"; MUnheard 0; MUnheard 0; MStart "a"; MNoAnswer 0; MAnswer 0; MEnd 0;
   MEnd 0; MStart "b"; MAnswer 0; MAnswer 0; MEnd 0]%string.

(** Without that condition a cluster of three can have two leaders in one
    term: when an election is lost the candidate goes back to the term of the
    election and forgets whom it voted for, also if it voted in a later term
    meanwhile. *)
Example three_nodes_two_leaders :
  let members := ["a"; "b"; "c"]%string in
  ∃ cl, rtc (cluster_step node_service members false) (cluster_new members) cl ∧
    elected cl = [(2, "a"); (2, "b")]%string ∧
    ∀ v, v = "a"%string ∨ v = "b"%string → ∃ n, nodes cl !! v = Some n ∧ role n = Leader ∧ term n = 2.
Proof.
  intros members. destruct (cluster_moves node_service members false split_brain (cluster_new members)) as [cl|] eqn:E;
    [|by vm_compute in E].
  exists cl. split; [by eapply cluster_moves_steps|]. vm_compute in E. injection E as <-.
  split; [reflexivity|]. intros v [-> | ->]; eexists; (split; [reflexivity|split; reflexivity]).
Qed.

(** ** Witness *)
Lemma election_safety_witness :
  ∃ cl, rtc (cluster_step node_service ["a"; "b"; "c"]%string true) (cluster_new ["a"; "b"; "c"]%string) cl ∧
    (1, "c"%string) ∈ elected cl ∧ ∀ b, (1, b) ∈ elected cl → b = "c"%string.
Proof.
  destruct (cluster_moves node_service ["a"; "b"; "c"]%string true [MStart "c"%string; MAnswer 0; MAnswer 0; MEnd 0]
    (cluster_new ["a"; "b"; "c"]%string)) as [cl|] eqn:E; [|by vm_compute in E].
  pose proof (cluster_moves_steps _ _ _ _ _ _ E) as Hr.
  assert (elected cl = [(1, "c"%string)]) as He by (vm_compute in E; injection E as <-; reflexivity).
  exists cl. split; [exact Hr|]. split; [rewrite He; apply list_elem_of_here|]. intros b Hb.
  apply (election_safety ["a"; "b"; "c"]%string cl 1 b "c"); [| |exact Hr|exact Hb|rewrite He; apply list_elem_of_here].
  - apply (bool_decide_unpack _). by vm_compute.
  - by exists 1.
Defined.
