(* ===== verification/Replication.v ===== *)
(** * Replication in a group

    A leader and its followers, as [replicate], [send_heartbeats] and
    [handle_append_entries] of [src/coordinator/raft_node.rs] make them work
    together while no other node leads.  Any number of calls of [replicate] run
    at the same time; each is cut where it waits: it appends the entry, it asks
    one peer after the other, it ends.  A request of which the caller hears
    nothing is still under way: it arrives later, in any order with the others,
    or never.  A request arrives at most once, since the client sends it once.

    The moves of a group are those of a service that answers the requests
    ([RaftService]).  The theorems of this file are about followers that answer
    with their handlers ([node_service]); [Wiring] is about followers behind the
    coordinator's gRPC service. *)

From Stdlib Require Import ZArith Lia.
From Stdlib.Strings Require Import Byte.
From stdpp Require Import base option list gmap strings.
From S2P Require Import Prelude Bytes Text Errors Raft.

#[export] Instance log_entry_eq_dec : EqDecision LogEntry.
Proof. solve_decision. Defined.

(** ** A replication in phases *)
Record Replication := mkReplication {
  rp_request : AppendRequest;
  rp_entry : LogEntry;
  rp_peers : Z;
  (** The peers that were not asked yet. *)
  rp_ask : list string;
  rp_acks : Z;
}.

Definition replication_start (data : bytes) (n : RaftNode) : RaftNode * Replication :=
  let index := next_index (log n) in
  let t := term n in
  let entry := mkLogEntry t index data in
  let n := with_log (log n ++ [entry]) n in
  (n, mkReplication (append_request index t entry n) entry (zlen (peers n)) (peers n) 1).
Definition replication_answer (r : result Status AppendResponse) (c : Replication) : Replication :=
  mkReplication (rp_request c) (rp_entry c) (rp_peers c) (tail (rp_ask c))
    (match r with
     | Ok resp => if ap_success resp then rp_acks c + 1 else rp_acks c
     | Err _ => rp_acks c
     end).
Definition replication_end (c : Replication) (n : RaftNode) : RaftNode * Result unit :=
  let index := le_index (rp_entry c) in
  if majority (rp_peers c) <=? rp_acks c
  then (with_commit index (apply_loop (Z.to_nat (index - last_applied n)) (last_applied n) index) n,
        Ok tt)
  else (n, Err (Internal "Raft: no majority for commit")).

(** ** The group *)
Record Group := mkGroup {
  leader : RaftNode;
  followers : gmap string RaftNode;
  calls : list Replication;
  (** Requests under way whose answers nobody waits for. *)
  late : list (string * AppendRequest);
  (** The entries whose [replicate] returned [Ok]. *)
  acknowledged : list LogEntry;
}.
Definition group_new (n : RaftNode) : Group :=
  mkGroup n (list_to_map (map (λ v, (v, with_log (log n) (raft_new v))) (peers n))) [] [] [].

Definition lost : result Status AppendResponse := Err (mkStatus CodeInternal "" None).

Inductive GroupMove :=
  | GReplicate (data : bytes)
  (** Call [i] asks its next peer and hears its answer, or gives up on it. *)
  | GAnswer (i : nat)
  | GFail (i : nat)
  | GEnd (i : nat)
  | GHeartbeat (v : string)
  (** Request [i] of those under way arrives, or is lost. *)
  | GArrive (i : nat)
  | GDrop (i : nat)
  (** Somebody asks a follower, or the leader, for its vote. *)
  | GVote (v : option string) (req : VoteRequest).

Definition group_move (SV : RaftService) (m : GroupMove) (g : Group) : option Group :=
  match m with
  | GReplicate data =>
      if is_leader (leader g) && (zlen (log (leader g)) + 1 <? 2 ^ 64) then
        let '(n, c) := replication_start data (leader g) in
        Some (mkGroup n (followers g) (c :: calls g) (late g) (acknowledged g))
      else None
  | GAnswer i =>
      c ← calls g !! i; v ← head (rp_ask c); f ← followers g !! v;
      let '(f', r) := answer_append SV (rp_request c) f in
      Some (mkGroup (leader g) (<[v := f']> (followers g))
              (replication_answer r c :: delete i (calls g)) (late g) (acknowledged g))
  | GFail i =>
      c ← calls g !! i; v ← head (rp_ask c);
      Some (mkGroup (leader g) (followers g) (replication_answer lost c :: delete i (calls g))
              ((v, rp_request c) :: late g) (acknowledged g))
  | GEnd i =>
      c ← calls g !! i;
      if bool_decide (rp_ask c = []) then
        let '(n, r) := replication_end c (leader g) in
        Some (mkGroup n (followers g) (delete i (calls g)) (late g)
                (match r with Ok _ => rp_entry c :: acknowledged g | Err _ => acknowledged g end))
      else None
  | GHeartbeat v =>
      if is_leader (leader g) then
        Some (mkGroup (leader g) (followers g) (calls g)
                ((v, heartbeat_request (leader g)) :: late g) (acknowledged g))
      else None
  | GArrive i =>
      '(v, req) ← late g !! i; f ← followers g !! v;
      Some (mkGroup (leader g) (<[v := (answer_append SV req f).1]> (followers g)) (calls g)
              (delete i (late g)) (acknowledged g))
  | GDrop i =>
      _ ← late g !! i;
      Some (mkGroup (leader g) (followers g) (calls g) (delete i (late g)) (acknowledged g))
  | GVote None req =>
      Some (mkGroup (answer_vote SV req (leader g)).1 (followers g) (calls g) (late g) (acknowledged g))
  | GVote (Some v) req =>
      f ← followers g !! v;
      Some (mkGroup (leader g) (<[v := (answer_vote SV req f).1]> (followers g)) (calls g) (late g)
              (acknowledged g))
  end.
Fixpoint group_moves (SV : RaftService) (ms : list GroupMove) (g : Group) : option Group :=
  match ms with
  | [] => Some g
  | m :: ms => g ← group_move SV m g; group_moves SV ms g
  end.

(** ** Several nodes, one call after the other

    [up] says which nodes a call reaches; those handle the request and their
    answers arrive. *)
Section reach.
Context {Req Resp : Type} (handle : Req → RaftNode → RaftNode * Resp).
Context (up : string → bool) (ns : gmap string RaftNode).

Definition reach (v : string) (req : Req) : result Status Resp :=
  match ns !! v with
  | Some n => if up v then Ok (handle req n).2 else Err (mkStatus CodeInternal "" None)
  | None => Err (mkStatus CodeInternal "" None)
  end.
Definition reached (req : Req) (vs : list string) : gmap string RaftNode :=
  foldr (λ v ns, if up v then alter (λ n, (handle req n).1) v ns else ns) ns vs.
End reach.

Definition elect (c : string) (up : string → bool) (ns : gmap string RaftNode)
    : option (gmap string RaftNode * bool) :=
  n ← ns !! c;
  let '(n1, new_term) := start_election n in
  let '(n', won) := start_election_and_collect_votes (peers n) (reach handle_request_vote up ns) id n in
  Some (<[c := n']> (reached handle_request_vote up ns (vote_request new_term n1) (peers n)), won).
Definition replicate_from (c : string) (data : bytes) (up : string → bool) (ns : gmap string RaftNode)
    : option (gmap string RaftNode * Result unit) :=
  n ← ns !! c;
  let '(_, call) := replication_start data n in
  let '(n', r) := replicate data (reach handle_append_entries up ns) id n in
  Some (<[c := n']> (if is_leader n then reached handle_append_entries up ns (rp_request call) (peers n) else ns), r).

Definition with_peers (ps : list string) (n : RaftNode) : RaftNode :=
  mkRaft (node_id n) (role n) (term n) (voted_for n) (leader_id n) (log n) ps
    (commit_index n) (last_applied n) (snapshot n).
Definition nodes_new (members : list string) : gmap string RaftNode :=
  list_to_map (map (λ v, (v, with_peers (filter (λ u, u ≠ v) members) (raft_new v))) members).

(** [a] is elected and replicates [x] to [b] only; then [c] is elected by [b] and
    replicates [y] to [b]. *)
Definition takeover (x y : bytes)
    : option (gmap string RaftNode * (bool * Result unit) * (bool * Result unit)) :=
  let b_only v := bool_decide (v = "b"%string) in
  '(ns, won_a) ← elect "a" (λ _, true) (nodes_new ["a"; "b"; "c"]%string);
  '(ns, ra) ← replicate_from "a" x b_only ns;
  '(ns, won_c) ← elect "c" b_only ns;
  '(ns, rc) ← replicate_from "c" y b_only ns;
  Some (ns, (won_a, ra), (won_c, rc)).

(** The commit index and the log of a node *)
Definition committed_log (ns : gmap string RaftNode) (v : string) : option (Z * list LogEntry) :=
  (λ n, (commit_index n, log n)) <$> ns !! v.

(** The requests under way, and the entries they carry, with their
    addressees. *)
Definition requests (g : Group) : list (string * AppendRequest) :=
  (calls g ≫= λ c, (λ v, (v, rp_request c)) <$> rp_ask c) ++ late g.
Definition carried (r : string * AppendRequest) : list (string * LogEntry) := pair r.1 <$> ar_entries r.2.
Definition outstanding (g : Group) : list (string * LogEntry) := requests g ≫= carried.

(** The place of an entry in a log numbered from 1. *)
Definition place (e : LogEntry) : nat := Z.to_nat (le_index e - 1).
Definition holds (fs : gmap string RaftNode) (e : LogEntry) (v : string) : bool :=
  match fs !! v with Some f => bool_decide (log f !! place e = Some e) | None => false end.

(** ** The phases are the replication of [Raft] *)
Lemma rp_answers_fold rs c :
  fold_left (λ c r, replication_answer r c) rs c =
  mkReplication (rp_request c) (rp_entry c) (rp_peers c) (drop (length rs) (rp_ask c))
    (fold_left (λ acks r, match r with
                          | Ok resp => if ap_success resp then acks + 1 else acks
                          | Err _ => acks
                          end) rs (rp_acks c)).
Proof.
  revert c. induction rs as [|r rs IH]; intros c; cbn [fold_left]; [by destruct c|].
  rewrite IH. simpl. by destruct (rp_ask c) as [|v vs]; cbn [tail]; rewrite ?drop_nil, ?skipn_cons.
Qed.

Lemma replication_phases data call during n :
  is_leader n = true →
  replicate data call during n =
  let '(n1, c) := replication_start data n in
  let c := fold_left (λ c r, replication_answer r c)
             (map (λ peer, call peer (rp_request c)) (rp_ask c)) c in
  replication_end c (during n1).
Proof.
  intros Hl. unfold replicate, replication_start. rewrite Hl. cbn [negb]. cbv zeta.
  rewrite rp_answers_fold. reflexivity.
Qed.

(** ** What a request does to a follower *)
Lemma append_outcome req f f' resp :
  handle_append_entries req f = (f', resp) →
  (ap_success resp = true ∧ ar_prev_log_index req ≤ zlen (log f) ∧ log f' = log f ++ ar_entries req ∧
   (commit_index f' = commit_index f ∨ commit_index f' ≤ last_index (log f'))) ∨
  (ap_success resp = false ∧ log f' = log f ∧ commit_index f' = commit_index f).
Proof.
  unfold handle_append_entries. destruct (ar_term req <? term f); [intros [= <- <-]; by right|].
  set (m := if term f <? ar_term req then with_term (ar_term req) f else f).
  assert (log m = log f ∧ commit_index m = commit_index f) as [Lm Cm] by (unfold m; by destruct (_ <? _)).
  rewrite Lm. destruct (Z.leb_spec (ar_prev_log_index req) (zlen (log f))) as [Hp|Hp]; [|intros [= <- <-]; by right].
  intros [= <- <-]. left. split; [done|]. split; [done|].
  destruct (_ <? ar_leader_commit req); (split; [done|]); [right; apply Z.le_min_r|by left].
Qed.

Lemma log_wf_prefix l k : l `prefix_of` k → log_wf k → log_wf l.
Proof. intros Hp Hk i e Hi. apply Hk. by eapply prefix_lookup_Some. Qed.
Lemma log_wf_place l e i : log_wf l → l !! i = Some e → place e = i.
Proof. intros Hl Hi. unfold place. rewrite (Hl _ _ Hi). lia. Qed.

(** ** The logs and the requests under way

    [L] is the log of the leader, [F] the followers and [R] the requests under
    way.  A request for an entry that is under way has not arrived: the log of
    its addressee ends before the place of the entry. *)
Record core (L : list LogEntry) (F : gmap string RaftNode) (R : list (string * AppendRequest)) : Prop := {
  co_wf : log_wf L;
  co_prefix v f : F !! v = Some f → log f `prefix_of` L ∧ commit_index f ≤ zlen (log f);
  co_req r : r ∈ R → ar_entries r.2 = [] ∨
    ∃ e, ar_entries r.2 = [e] ∧ ar_prev_log_index r.2 = le_index e - 1 ∧ L !! place e = Some e ∧
      ∀ f, F !! r.1 = Some f → (length (log f) ≤ place e)%nat;
  co_once : NoDup (R ≫= carried);
}.

#[export] Instance core_perm L F : Proper ((≡ₚ) ==> iff) (core L F).
Proof.
  assert (∀ R R', R ≡ₚ R' → core L F R → core L F R') as H.
  { intros R R' HR [C1 C2 C3 C4]. split; [done|done| |by rewrite <- HR].
    intros r Hr. apply C3. by rewrite HR. }
  intros R R' HR. split; apply H; [done|by symmetry].
Qed.

Lemma core_drop L F r R : core L F (r :: R) → core L F R.
Proof.
  intros [C1 C2 C3 C4]. split; [done|done| |].
  - intros r' Hr. apply C3. by right.
  - by apply NoDup_app in C4 as (_ & _ & ?).
Qed.

(** The leader appends an entry and addresses it to its peers. *)
Lemma core_append L F R ps req e :
  NoDup ps → core L F R → ar_entries req = [e] → ar_prev_log_index req = le_index e - 1 →
  le_index e = zlen L + 1 → log_wf (L ++ [e]) →
  core (L ++ [e]) F (((λ v, (v, req)) <$> ps) ++ R).
Proof.
  intros Hnd [C1 C2 C3 C4] He Hp Hi Hwf.
  assert (place e = length L) as Hpl by (unfold place, zlen in *; lia).
  assert (((λ v, (v, req)) <$> ps) ≫= carried = (λ v, (v, e)) <$> ps) as Hc.
  { clear Hnd. induction ps as [|v ps IH]; [done|].
    rewrite fmap_cons, bind_cons, IH. unfold carried at 1. cbn [fst snd]. by rewrite He. }
  split; [done| | |].
  - intros v f Hf. destruct (C2 v f Hf). split; [by apply prefix_app_r|done].
  - intros r [(v & -> & Hv)%list_elem_of_fmap|Hr]%elem_of_app.
    + right. exists e. split; [done|]. split; [done|]. rewrite Hpl. split; [by apply list_lookup_middle|].
      intros f Hf. destruct (C2 _ _ Hf) as [Hpre%prefix_length _]. exact Hpre.
    + destruct (C3 r Hr) as [?|(e' & ? & ? & Hl & ?)]; [by left|]. right. exists e'.
      split_and!; [done|done|by apply lookup_app_l_Some|done].
  - rewrite bind_app, Hc. apply NoDup_app. split; [|split; [|done]].
    + apply NoDup_fmap_2; [|done]. intros ? ? [=]; done.
    + intros [u x] (v & [= -> ->] & Hv)%list_elem_of_fmap (r & Hx & Hr)%list_elem_of_bind.
      destruct (C3 r Hr) as [Hn|(e' & He' & _ & Hl & _)]; unfold carried in Hx.
      * by rewrite Hn in Hx; apply not_elem_of_nil in Hx.
      * rewrite He' in Hx. apply list_elem_of_singleton in Hx as [= _ ->].
        rewrite Hpl in Hl. apply lookup_lt_Some in Hl. lia.
Qed.

(** A request arrives: what its addressee takes from it, and that its log
    stays a prefix of the leader's. *)
Section arrive.
Context (L : list LogEntry) (F : gmap string RaftNode) (R : list (string * AppendRequest)).
Context (v : string) (req : AppendRequest) (f f' : RaftNode) (resp : AppendResponse).
Context (C : core L F ((v, req) :: R)) (Hf : F !! v = Some f).
Context (E : handle_append_entries req f = (f', resp)).

Lemma arrive_took e :
  e ∈ ar_entries req → ap_success resp = true →
  log f' = log f ++ [e] ∧ length (log f) = place e ∧ L !! place e = Some e.
Proof.
  intros He Hs. destruct (append_outcome _ _ _ _ E) as [(_ & Hp & Hl & _)|(Hn & _)]; [|congruence].
  destruct (co_req _ _ _ C (v, req)) as [Hnil|(e' & He' & Hpe & HL & Hlen)]; [by left|..]; cbn [fst snd] in *;
    [by rewrite Hnil in He; apply not_elem_of_nil in He|].
  rewrite He' in He, Hl. apply list_elem_of_singleton in He as ->. specialize (Hlen _ Hf).
  pose proof (co_wf _ _ _ C _ _ HL). unfold zlen in *. split; [done|]. split; [lia|done].
Qed.

(** The log is as before, or one entry longer. *)
Lemma arrive_cases :
  log f' = log f ∨
  ∃ e, ar_entries req = [e] ∧ log f' = log f ++ [e] ∧ length (log f) = place e ∧ L !! place e = Some e.
Proof.
  destruct (append_outcome _ _ _ _ E) as [(Hs & _ & Hl & _)|(_ & -> & _)]; [|by left].
  destruct (co_req _ _ _ C (v, req)) as [Hnil|(e & He & _)]; [by left|..]; cbn [fst snd] in *.
  - left. by rewrite Hl, Hnil, app_nil_r.
  - right. exists e. split; [done|]. apply arrive_took; [by rewrite He; left|done].
Qed.

Lemma arrive_prefix : log f' `prefix_of` L ∧ commit_index f' ≤ zlen (log f').
Proof.
  destruct (co_prefix _ _ _ C _ _ Hf) as [Hpre Hcom].
  assert (log f' `prefix_of` L) as Hp'.
  { destruct arrive_cases as [->|(e & _ & -> & Hlen & HL)]; [done|].
    destruct Hpre as [k Hk]. rewrite Hk, lookup_app_r, Hlen, Nat.sub_diag in HL by lia.
    destruct k as [|x k]; [done|]. injection HL as ->. exists k. by rewrite Hk, <- app_assoc. }
  split; [done|].
  assert (last_index (log f') = zlen (log f')) as Hlast
    by (eapply log_wf_last, log_wf_prefix; [done|apply (co_wf _ _ _ C)]).
  destruct (append_outcome _ _ _ _ E) as [(_ & _ & Hl & Hc)|(_ & -> & ->)]; [|done].
  rewrite Hlast, Hl in Hc. rewrite Hl, zlen_app in *. pose proof (zlen_nonneg (ar_entries req)). lia.
Qed.

Lemma arrive_core : core L (<[v := f']> F) R.
Proof.
  pose proof (core_drop _ _ _ _ C) as [D1 D2 D3 D4]. split; [done| | |done].
  - intros u m [[<- <-]|[Hne Hu]]%lookup_insert_Some; [apply arrive_prefix|by eapply D2].
  - intros r Hr. destruct (D3 r Hr) as [?|(e & He & Hpe & HL & Hlen)]; [by left|]. right. exists e.
    split_and!; [done..|]. intros m [[Hv <-]|[Hne Hu]]%lookup_insert_Some; [|by apply Hlen].
    rewrite <- Hv in Hlen. specialize (Hlen _ Hf).
    destruct arrive_cases as [->|(e' & He' & -> & Hlen' & HL')]; [done|].
    rewrite length_app. simpl. destruct (decide (place e = place e')) as [Hp|]; [|lia].
    rewrite Hp, HL' in HL. injection HL as <-. exfalso.
    pose proof (co_once _ _ _ C) as Hnd. rewrite bind_cons in Hnd. apply NoDup_app in Hnd as (_ & Hnd & _).
    apply (Hnd (v, e')); [unfold carried; cbn; rewrite He'; by left|].
    apply list_elem_of_bind. exists r. split; [|done]. unfold carried. rewrite He, Hv. by left.
Qed.

Lemma arrive_holds e u : holds F e u = true → holds (<[v := f']> F) e u = true.
Proof.
  unfold holds. destruct (decide (u = v)) as [->|Hne]; [|by rewrite lookup_insert_ne].
  rewrite Hf, lookup_insert_eq, !bool_decide_eq_true. intros H. eapply prefix_lookup_Some; [exact H|].
  destruct arrive_cases as [->|(e' & _ & -> & _)]; [done|by apply prefix_app_r].
Qed.

Lemma arrive_held e :
  e ∈ ar_entries req → ap_success resp = true → holds (<[v := f']> F) e v = true.
Proof.
  intros He Hs. destruct (arrive_took e He Hs) as (Hl & Hlen & _). unfold holds.
  rewrite lookup_insert_eq, Hl, <- Hlen. apply bool_decide_eq_true. by apply list_lookup_middle.
Qed.
End arrive.

(** A follower that votes keeps its log. *)
Lemma vote_keeps_log req n :
  log (handle_request_vote req n).1 = log n ∧ commit_index (handle_request_vote req n).1 = commit_index n ∧
  peers (handle_request_vote req n).1 = peers n.
Proof.
  unfold handle_request_vote. destruct (_ <? _); [done|]. destruct (_ <? _); simpl; by repeat case_bool_decide.
Qed.
Lemma core_same_log L F R v f f' :
  core L F R → F !! v = Some f → log f' = log f → commit_index f' = commit_index f →
  core L (<[v := f']> F) R ∧ ∀ e u, holds (<[v := f']> F) e u = holds F e u.
Proof.
  intros [C1 C2 C3 C4] Hf Hl Hc. split; [split; [done| | |done]|].
  - intros u m [[<- <-]|[Hne Hu]]%lookup_insert_Some; [|by eapply C2]. rewrite Hl, Hc. by eapply C2.
  - intros r Hr. destruct (C3 r Hr) as [?|(e & ? & ? & ? & Hlen)]; [by left|]. right. exists e.
    split_and!; [done..|]. intros m [[Hv <-]|[Hne Hu]]%lookup_insert_Some; [rewrite Hl|]; apply Hlen; congruence.
  - intros e u. unfold holds. destruct (decide (u = v)) as [->|]; [|by rewrite lookup_insert_ne].
    by rewrite lookup_insert_eq, Hf, Hl.
Qed.

(** ** The invariant of the group *)
Record call_ok (ps : list string) (L : list LogEntry) (F : gmap string RaftNode) (c : Replication) : Prop := {
  ca_entry : ar_entries (rp_request c) = [rp_entry c];
  ca_peers : rp_peers c = zlen ps;
  ca_place : L !! place (rp_entry c) = Some (rp_entry c);
  ca_ask : NoDup (rp_ask c) ∧ rp_ask c ⊆ ps;
  ca_acks : ∃ gs, NoDup gs ∧ rp_acks c = 1 + zlen gs ∧
    ∀ v, v ∈ gs → v ∈ ps ∧ (v ∉ rp_ask c) ∧ holds F (rp_entry c) v = true;
}.
(** An entry is in the log of the leader and in those of enough followers. *)
Definition replicated (ps : list string) (L : list LogEntry) (F : gmap string RaftNode) (e : LogEntry) : Prop :=
  L !! place e = Some e ∧ majority (zlen ps) ≤ 1 + zlen (filter (λ v, holds F e v = true) ps).

Record group_inv (ps : list string) (g : Group) : Prop := {
  gi_core : core (log (leader g)) (followers g) (requests g);
  gi_peers : peers (leader g) = ps;
  gi_calls : Forall (call_ok ps (log (leader g)) (followers g)) (calls g);
  gi_acknowledged : Forall (replicated ps (log (leader g)) (followers g)) (acknowledged g);
}.

Section grow.
Context (ps : list string) (L L' : list LogEntry) (F F' : gmap string RaftNode).
Context (HL : L `prefix_of` L') (HF : ∀ e v, holds F e v = true → holds F' e v = true).

Lemma call_ok_grow c : call_ok ps L F c → call_ok ps L' F' c.
Proof.
  intros [A1 A2 A3 A4 (gs & G1 & G2 & G3)]. split; try done; [by eapply prefix_lookup_Some|].
  exists gs. split; [done|]. split; [done|]. intros v Hv. destruct (G3 v Hv) as (? & ? & ?). auto.
Qed.
Lemma replicated_grow e : replicated ps L F e → replicated ps L' F' e.
Proof.
  intros [R1 R2]. split; [by eapply prefix_lookup_Some|]. etransitivity; [exact R2|].
  apply Z.add_le_mono_l, zlen_filter_le. auto.
Qed.
Lemma calls_grow cs : Forall (call_ok ps L F) cs → Forall (call_ok ps L' F') cs.
Proof. intros H. eapply Forall_impl; [exact H|]. apply call_ok_grow. Qed.
Lemma acknowledged_grow es : Forall (replicated ps L F) es → Forall (replicated ps L' F') es.
Proof. intros H. eapply Forall_impl; [exact H|]. apply replicated_grow. Qed.
End grow.

(** The code's majority is at least half of the nodes. *)
Lemma majority_half num_peers k : majority num_peers ≤ k → num_peers + 1 ≤ 2 * k.
Proof. unfold majority. intros H. pose proof (Z.mod_pos_bound (num_peers + 1 + 1) 2). pose proof (Z.div_mod (num_peers + 1 + 1) 2). lia. Qed.

Lemma call_replicated ps L F c :
  call_ok ps L F c → majority (rp_peers c) ≤ rp_acks c → replicated ps L F (rp_entry c).
Proof.
  intros [_ A2 A3 _ (gs & G1 & G2 & G3)] Hm. split; [done|]. rewrite A2, G2 in Hm. etransitivity; [exact Hm|].
  apply Z.add_le_mono_l. unfold zlen. apply inj_le, submseteq_length, NoDup_submseteq; [done|].
  intros v Hv. destruct (G3 v Hv) as (? & _ & ?). by apply list_elem_of_filter.
Qed.

(** A call hears of its next peer. *)
Lemma call_answered ps L F c v vs r :
  call_ok ps L F c → rp_ask c = v :: vs → (acked r = true → holds F (rp_entry c) v = true) →
  call_ok ps L F (replication_answer r c).
Proof.
  intros [A1 A2 A3 [A4 A5] (gs & G1 & G2 & G3)] Hask Hr. rewrite Hask in *. apply NoDup_cons in A4 as [Hv A4].
  unfold replication_answer. split; cbn [rp_request rp_entry rp_peers rp_ask rp_acks]; rewrite ?Hask; cbn [tail];
    [done..|split; [done|set_solver]|].
  destruct (acked r) eqn:Ea.
  - exists (v :: gs). split_and!.
    + constructor; [|done]. intros Hin. destruct (G3 v Hin) as (_ & Hn & _). set_solver.
    + rewrite zlen_cons. destruct r as [resp|]; simpl in Ea; [|done]. rewrite Ea. lia.
    + intros u [->|Hin]%elem_of_cons; [split_and!; [set_solver|done|by apply Hr]|].
      destruct (G3 u Hin) as (? & ? & ?). set_solver.
  - exists gs. split_and!; [done| |].
    + destruct r as [resp|]; simpl in Ea; [by rewrite Ea|done].
    + intros u Hin. destruct (G3 u Hin) as (? & ? & ?). set_solver.
Qed.

(** ** The requests under way after a step *)
Lemma requests_cons c cs l (n : RaftNode) fs es :
  requests (mkGroup n fs (c :: cs) l es) = ((λ v, (v, rp_request c)) <$> rp_ask c) ++ requests (mkGroup n fs cs l es).
Proof. unfold requests. cbn [calls late]. by rewrite bind_cons, <- app_assoc. Qed.
Lemma requests_pick g i c :
  calls g !! i = Some c →
  requests g ≡ₚ ((λ v, (v, rp_request c)) <$> rp_ask c) ++
    requests (mkGroup (leader g) (followers g) (delete i (calls g)) (late g) (acknowledged g)).
Proof.
  intros Hi. rewrite <- (requests_cons c). unfold requests. cbn [calls late].
  by rewrite (delete_Permutation _ _ _ Hi) at 1.
Qed.
Lemma requests_late g i r n fs es :
  late g !! i = Some r → requests g ≡ₚ r :: requests (mkGroup n fs (calls g) (delete i (late g)) es).
Proof.
  intros Hi. unfold requests. cbn [calls late]. rewrite (delete_Permutation _ _ _ Hi) at 1.
  by rewrite Permutation_middle.
Qed.

Lemma calls_pick ps L F cs i c :
  Forall (call_ok ps L F) cs → cs !! i = Some c → call_ok ps L F c ∧ Forall (call_ok ps L F) (delete i cs).
Proof. intros H Hi. rewrite (delete_Permutation _ _ _ Hi) in H. by apply Forall_cons in H. Qed.

(** ** The invariant holds *)
Lemma group_replicate_inv ps g data :
  NoDup ps → group_inv ps g → zlen (log (leader g)) + 1 < 2 ^ 64 →
  let '(n, c) := replication_start data (leader g) in
  group_inv ps (mkGroup n (followers g) (c :: calls g) (late g) (acknowledged g)).
Proof.
  intros Hnd [I1 I2 I3 I4] Hlen. unfold replication_start. rewrite log_wf_next by (done || apply I1).
  pose proof (zlen_nonneg (log (leader g))) as H0.
  set (e := mkLogEntry _ _ data). assert (log_wf (log (leader g) ++ [e])) as Hwf by (apply log_wf_snoc, I1).
  assert (place e = length (log (leader g))) as Hpl by (unfold place, e; cbn [le_index]; unfold zlen; lia).
  split; cbn [leader followers calls acknowledged]; [| |apply Forall_cons; split|].
  - rewrite requests_cons. cbn [rp_ask rp_request peers with_log]. rewrite I2.
    apply core_append; try done; simpl. rewrite wrap64_small by lia. lia.
  - by rewrite <- I2.
  - split; cbn [rp_request rp_entry rp_peers rp_ask rp_acks]; [done|by rewrite <- I2| | |].
    + rewrite Hpl. by apply list_lookup_middle.
    + cbn [peers with_log]. by rewrite I2.
    + exists []. split; [constructor|]. split; [done|]. by intros v ?%not_elem_of_nil.
  - eapply calls_grow; [|done|exact I3]. by apply prefix_app_r.
  - eapply acknowledged_grow; [|done|exact I4]. by apply prefix_app_r.
Qed.

Lemma group_answer_inv ps g i c v vs f f' resp :
  group_inv ps g → calls g !! i = Some c → rp_ask c = v :: vs → followers g !! v = Some f →
  handle_append_entries (rp_request c) f = (f', resp) →
  group_inv ps (mkGroup (leader g) (<[v := f']> (followers g))
                  (replication_answer (Ok resp) c :: delete i (calls g)) (late g) (acknowledged g)).
Proof.
  intros [I1 I2 I3 I4] Hi Hask Hf E. destruct (calls_pick _ _ _ _ _ _ I3 Hi) as [Hc Hcs].
  rewrite (requests_pick _ _ _ Hi), Hask in I1. cbn [fmap list_fmap app] in I1.
  assert (∀ e u, holds (followers g) e u = true → holds (<[v := f']> (followers g)) e u = true) as Hh
    by (intros e u; by eapply arrive_holds).
  split; cbn [leader followers calls acknowledged]; [|done|apply Forall_cons; split|].
  - rewrite requests_cons. unfold replication_answer. cbn [rp_ask rp_request]. rewrite Hask. cbn [tail].
    by eapply arrive_core.
  - eapply call_answered; [by eapply call_ok_grow|done|]. simpl. intros Hs.
    eapply arrive_held; [exact I1|done..| |done]. rewrite (ca_entry _ _ _ _ Hc). by left.
  - by eapply calls_grow.
  - by eapply acknowledged_grow.
Qed.

Lemma group_fail_inv ps g i c v vs :
  group_inv ps g → calls g !! i = Some c → rp_ask c = v :: vs →
  group_inv ps (mkGroup (leader g) (followers g) (replication_answer lost c :: delete i (calls g))
                  ((v, rp_request c) :: late g) (acknowledged g)).
Proof.
  intros [I1 I2 I3 I4] Hi Hask. destruct (calls_pick _ _ _ _ _ _ I3 Hi) as [Hc Hcs].
  split; cbn [leader followers calls acknowledged]; [|done|apply Forall_cons; split|]; try done.
  - rewrite requests_cons. unfold replication_answer. cbn [rp_ask rp_request]. rewrite Hask. cbn [tail].
    rewrite (requests_pick _ _ _ Hi), Hask in I1. cbn [fmap list_fmap app] in I1.
    unfold requests in *. cbn [calls late] in *. by rewrite <- Permutation_middle, <- Permutation_middle.
  - by eapply call_answered.
Qed.

Lemma group_end_inv ps g i c :
  group_inv ps g → calls g !! i = Some c → rp_ask c = [] →
  let '(n, r) := replication_end c (leader g) in
  group_inv ps (mkGroup n (followers g) (delete i (calls g)) (late g)
    (match r with Ok _ => rp_entry c :: acknowledged g | Err _ => acknowledged g end)).
Proof.
  intros [I1 I2 I3 I4] Hi Hask. destruct (calls_pick _ _ _ _ _ _ I3 Hi) as [Hc Hcs].
  rewrite (requests_pick _ _ _ Hi), Hask in I1. unfold replication_end.
  destruct (Z.leb_spec (majority (rp_peers c)) (rp_acks c)); split; try done.
  apply Forall_cons. split; [by apply call_replicated|done].
Qed.

Lemma group_arrive_inv ps g i v req f :
  group_inv ps g → late g !! i = Some (v, req) → followers g !! v = Some f →
  group_inv ps (mkGroup (leader g) (<[v := (handle_append_entries req f).1]> (followers g)) (calls g)
                  (delete i (late g)) (acknowledged g)).
Proof.
  intros [I1 I2 I3 I4] Hi Hf. rewrite (requests_late _ _ _ (leader g) (followers g) (acknowledged g) Hi) in I1.
  destruct (handle_append_entries req f) as [f' resp] eqn:E. cbn [fst].
  assert (∀ e u, holds (followers g) e u = true → holds (<[v := f']> (followers g)) e u = true) as Hh
    by (intros e u; by eapply arrive_holds).
  split; cbn [leader followers calls acknowledged]; [|done|by eapply calls_grow|by eapply acknowledged_grow].
  by eapply arrive_core.
Qed.

Lemma group_heartbeat_inv ps g v :
  group_inv ps g →
  group_inv ps (mkGroup (leader g) (followers g) (calls g) ((v, heartbeat_request (leader g)) :: late g)
                  (acknowledged g)).
Proof.
  intros [[C1 C2 C3 C4] I2 I3 I4]. split; try done. unfold requests. cbn [calls late].
  rewrite <- Permutation_middle. split; try done.
  intros r [->|Hr]%elem_of_cons; [by left|by apply C3].
Qed.

Lemma group_vote_inv ps g v f req :
  group_inv ps g → followers g !! v = Some f →
  group_inv ps (mkGroup (leader g) (<[v := (handle_request_vote req f).1]> (followers g)) (calls g) (late g)
                  (acknowledged g)).
Proof.
  intros [I1 I2 I3 I4] Hf. destruct (vote_keeps_log req f) as (Hl & Hc & _).
  destruct (core_same_log _ _ _ _ _ _ I1 Hf Hl Hc) as [Hcore Hh].
  split; [done|done|eapply (calls_grow ps _ _ (followers g))|eapply (acknowledged_grow ps _ _ (followers g))];
    try done; intros e u; cbn [followers]; by rewrite Hh.
Qed.

Lemma group_move_inv ps m g g' : NoDup ps → group_inv ps g → group_move node_service m g = Some g' → group_inv ps g'.
Proof.
  intros Hnd I. destruct m as [data|i|i|i|v|i|i|[v|] req]; cbn [group_move].
  - pose proof (group_replicate_inv ps g data Hnd I) as H. destruct (is_leader (leader g)); [|done].
    destruct (Z.ltb_spec (zlen (log (leader g)) + 1) (2 ^ 64)) as [Hl|]; [|done]. specialize (H Hl).
    destruct (replication_start data (leader g)) as [n c]. intros H'. by injection H' as <-.
  - intros (c & Hi & (v & Hv & (f & Hf & H)%bind_Some)%bind_Some)%bind_Some.
    destruct (rp_ask c) as [|v' vs] eqn:Ea; [done|]. injection Hv as ->.
    cbn in H. destruct (handle_append_entries _ f) as [f' resp] eqn:E. injection H as <-. by eapply group_answer_inv.
  - intros (c & Hi & (v & Hv & [= <-])%bind_Some)%bind_Some.
    destruct (rp_ask c) as [|v' vs] eqn:Ea; [done|]. injection Hv as ->. by eapply group_fail_inv.
  - intros (c & Hi & H)%bind_Some. case_bool_decide as Ha; [|done].
    pose proof (group_end_inv ps g i c I Hi Ha) as H'. destruct (replication_end c (leader g)). by injection H as <-.
  - destruct (is_leader (leader g)); [|done]. intros [= <-]. by apply group_heartbeat_inv.
  - intros ([v req] & Hi & (f & Hf & [= <-])%bind_Some)%bind_Some.
    by eapply group_arrive_inv.
  - intros (r & Hi & [= <-])%bind_Some. destruct I as [I1 I2 I3 I4]. split; try done.
    rewrite (requests_late _ _ _ (leader g) (followers g) (acknowledged g) Hi) in I1. by eapply core_drop.
  - intros (f & Hf & [= <-])%bind_Some. by apply group_vote_inv.
  - intros [= <-]. destruct I as [I1 I2 I3 I4]. destruct (vote_keeps_log req (leader g)) as (Hl & _ & Hp).
    by split; cbn [leader followers calls acknowledged]; rewrite ?Hl, ?Hp.
Qed.

Lemma group_moves_inv ps ms g g' : NoDup ps → group_inv ps g → group_moves node_service ms g = Some g' → group_inv ps g'.
Proof.
  intros Hnd. revert g. induction ms as [|m ms IH]; intros g I; cbn [group_moves]; [by intros [= <-]|].
  intros (g1 & H1 & H2)%bind_Some. eauto using group_move_inv.
Qed.

Lemma group_new_inv n : NoDup (peers n) → log_wf (log n) → group_inv (peers n) (group_new n).
Proof.
  intros Hnd Hwf. split; [|done|constructor|constructor]. split; [done| | |constructor].
  - intros v f Hf. apply elem_of_list_to_map_2 in Hf as (u & [= -> ->] & _)%list_elem_of_fmap.
    simpl. split; [done|apply zlen_nonneg].
  - by intros r ?%not_elem_of_nil.
Qed.

(** ** A follower that missed an entry

    Its log is shorter than the leader's and the entry that comes next is not
    under way. *)
Record stuck (v : string) (l : list LogEntry) (L : list LogEntry) (F : gmap string RaftNode)
    (R : list (string * AppendRequest)) : Prop := {
  su_log : log <$> F !! v = Some l;
  su_short : (length l < length L)%nat;
  su_next e : (v, e) ∈ R ≫= carried → place e ≠ length l;
}.

#[export] Instance stuck_perm v l L F : Proper ((≡ₚ) ==> iff) (stuck v l L F).
Proof.
  intros R R' HR. split; intros [S1 S2 S3]; split; try done; intros e; [rewrite <- HR|rewrite HR]; apply S3.
Qed.
Lemma stuck_drop v l L F r R : stuck v l L F (r :: R) → stuck v l L F R.
Proof.
  intros [S1 S2 S3]. split; [done..|]. intros e He. apply S3. rewrite bind_cons. apply elem_of_app. by right.
Qed.
Lemma stuck_same_log v l L F R u f f' :
  F !! u = Some f → log f' = log f → stuck v l L F R → stuck v l L (<[u := f']> F) R.
Proof.
  intros Hf Hl [S1 S2 S3]. split; [|done..]. destruct (decide (v = u)) as [->|]; [|by rewrite lookup_insert_ne].
  rewrite Hf in S1. rewrite lookup_insert_eq. cbn in *. congruence.
Qed.
Lemma stuck_arrive v l L F R u req f f' resp :
  core L F ((u, req) :: R) → F !! u = Some f → handle_append_entries req f = (f', resp) →
  stuck v l L F ((u, req) :: R) → stuck v l L (<[u := f']> F) R.
Proof.
  intros C Hf E S. destruct (decide (v = u)) as [<-|Hne].
  - eapply stuck_same_log; [done| |by eapply stuck_drop].
    destruct (arrive_cases _ _ _ _ _ _ _ _ C Hf E) as [?|(e & He & _ & Hlen & _)]; [done|].
    pose proof (su_log _ _ _ _ _ S) as Hl. rewrite Hf in Hl. injection Hl as Hl.
    destruct (su_next _ _ _ _ _ S e); [|by rewrite <- Hl].
    rewrite bind_cons. apply elem_of_app. left. unfold carried. cbn. rewrite He. by left.
  - apply stuck_drop in S as [S1 S2 S3]. split; [by rewrite lookup_insert_ne|done..].
Qed.
Lemma stuck_append v l L F R ps req e :
  ar_entries req = [e] → place e = length L →
  stuck v l L F R → stuck v l (L ++ [e]) F (((λ u, (u, req)) <$> ps) ++ R).
Proof.
  intros He Hpl [S1 S2 S3]. split; [done|rewrite length_app; simpl; lia|].
  intros x. rewrite bind_app. intros [Hx|Hx]%elem_of_app; [|by apply S3].
  apply list_elem_of_bind in Hx as (r & Hx & (u & -> & _)%list_elem_of_fmap). unfold carried in Hx. cbn in Hx.
  rewrite He in Hx. apply list_elem_of_singleton in Hx as [= _ ->]. lia.
Qed.

Definition group_stuck (v : string) (l : list LogEntry) (g : Group) : Prop :=
  stuck v l (log (leader g)) (followers g) (requests g).

Lemma stuck_move ps v l m g g' :
  group_inv ps g → group_stuck v l g → group_move node_service m g = Some g' → group_stuck v l g'.
Proof.
  unfold group_stuck. intros [I1 I2 I3 I4] S. destruct m as [data|i|i|i|u|i|i|[u|] req]; cbn [group_move].
  - destruct (is_leader (leader g)); [|done].
    destruct (Z.ltb_spec (zlen (log (leader g)) + 1) (2 ^ 64)) as [Hl|]; [|done].
    unfold replication_start. rewrite log_wf_next by (done || apply I1). intros [= <-].
    rewrite requests_cons. apply stuck_append; [done| |done]. unfold place; cbn [le_index]. unfold zlen. lia.
  - intros (c & Hi & (u & Hu & (f & Hf & H)%bind_Some)%bind_Some)%bind_Some.
    destruct (rp_ask c) as [|u' us] eqn:Ea; [done|]. injection Hu as ->.
    cbn in H. destruct (handle_append_entries _ f) as [f' resp] eqn:E. injection H as <-.
    rewrite (requests_pick _ _ _ Hi), Ea in S, I1. rewrite requests_cons. cbn [rp_ask replication_answer].
    rewrite Ea. cbn [leader followers fmap list_fmap app tail] in *. eapply stuck_arrive; [exact I1|done..|exact S].
  - intros (c & Hi & (u & Hu & [= <-])%bind_Some)%bind_Some.
    destruct (rp_ask c) as [|u' us] eqn:Ea; [done|]. injection Hu as ->.
    rewrite (requests_pick _ _ _ Hi), Ea in S. rewrite requests_cons. cbn [rp_ask replication_answer]. rewrite Ea.
    unfold requests in *. cbn [calls late leader followers] in *. by rewrite <- !Permutation_middle.
  - intros (c & Hi & H)%bind_Some. case_bool_decide as Ha; [|done]. rewrite (requests_pick _ _ _ Hi), Ha in S.
    unfold replication_end in H. by destruct (_ <=? _); injection H as <-.
  - destruct (is_leader (leader g)); [|done]. intros [= <-]. unfold requests. cbn [calls late leader followers].
    rewrite <- Permutation_middle. destruct S as [S1 S2 S3]. by split.
  - intros ([u req] & Hi & (f & Hf & [= <-])%bind_Some)%bind_Some. cbn [leader followers].
    rewrite (requests_late _ _ _ (leader g) (followers g) (acknowledged g) Hi) in S, I1.
    destruct (handle_append_entries req f) as [f' resp] eqn:E. by eapply stuck_arrive.
  - intros (r & Hi & [= <-])%bind_Some.
    rewrite (requests_late _ _ _ (leader g) (followers g) (acknowledged g) Hi) in S. by eapply stuck_drop.
  - intros (f & Hf & [= <-])%bind_Some.
    eapply stuck_same_log; [done| |exact S]. apply vote_keeps_log.
  - intros [= <-]. cbn [leader followers]. by rewrite (proj1 (vote_keeps_log req (leader g))).
Qed.

Lemma stuck_moves ps v l ms g g' :
  NoDup ps → group_inv ps g → group_stuck v l g → group_moves node_service ms g = Some g' → group_stuck v l g'.
Proof.
  intros Hnd. revert g. induction ms as [|m ms IH]; intros g I S; cbn [group_moves]; [by intros [= <-]|].
  intros (g1 & H1 & H2)%bind_Some. eauto using group_move_inv, stuck_move.
Qed.

(** ** Properties *)

(** C13. While one node leads and its followers answer requests with
    [RaftNode::handle_append_entries] and [RaftNode::handle_request_vote],
    replication is safe whatever the network does: with any number of
    [replicate] calls at the same time, requests that arrive late, out of order
    or never, heartbeats and votes in between, the log of every follower stays a
    prefix of the leader's and its commit index inside its own log, and every
    entry whose [replicate] returned [Ok] stays at its index in the log of the
    leader and in the logs of at least half of the nodes, leader included: of
    more than half when the number of nodes is odd, of exactly half at worst
    when it is even.  Followers behind the coordinator's gRPC service store
    nothing (see [Wiring]). *)
Theorem replication_safe n ms g :
  NoDup (peers n) → log_wf (log n) → group_moves node_service ms (group_new n) = Some g →
  (∀ v f, followers g !! v = Some f → log f `prefix_of` log (leader g) ∧ commit_index f ≤ zlen (log f)) ∧
  (∀ e, e ∈ acknowledged g →
     log (leader g) !! place e = Some e ∧
     zlen (peers n) + 1 ≤ 2 * (1 + zlen (filter (λ v, holds (followers g) e v = true) (peers n)))).
Proof.
  intros Hnd Hwf H. destruct (group_moves_inv _ _ _ _ Hnd (group_new_inv n Hnd Hwf) H) as [[_ C2 _ _] _ _ I4].
  split; [exact C2|]. intros e He. rewrite Forall_forall in I4. destruct (I4 e He) as [HL Hm]. split; [exact HL|].
  by apply majority_half.
Qed.

(** C35. A follower that missed an entry never recovers, also if requests are
    answered with the handlers of the [RaftNode]: once its log is
    shorter than the leader's and no request for the entry that comes next is
    under way any more, its log stays as it is in every continuation, however
    many entries the leader replicates and heartbeats it sends.  Nothing is
    sent a second time, and every later entry comes behind the gap. *)
Theorem missed_entry_never_recovered n ms g v f ms' g' :
  NoDup (peers n) → log_wf (log n) → group_moves node_service ms (group_new n) = Some g →
  followers g !! v = Some f → (length (log f) < length (log (leader g)))%nat →
  (∀ e, (v, e) ∈ outstanding g → place e ≠ length (log f)) →
  group_moves node_service ms' g = Some g' →
  ∃ f', followers g' !! v = Some f' ∧ log f' = log f ∧ (length (log f') < length (log (leader g')))%nat.
Proof.
  intros Hnd Hwf H Hf Hs Ho H'. pose proof (group_moves_inv _ _ _ _ Hnd (group_new_inv n Hnd Hwf) H) as I.
  assert (group_stuck v (log f) g) as S by (split; [by rewrite Hf|done..]).
  destruct (stuck_moves _ _ _ _ _ _ Hnd I S H') as [Hl Hs' _].
  destruct (followers g' !! v) as [f'|] eqn:E; [|done]. injection Hl as Hl. exists f'.
  split; [done|]. rewrite Hl. done.
Qed.

(** A change of leader can undo what was committed: of three nodes, [a] is
    elected and commits [x] with [b]; [c], which has heard of nothing, is elected
    in the next term, since votes are given without a look at the logs, and
    commits [y] with [b].  Both calls of [replicate] return [Ok], both entries
    have index 1, and [a] and [c] have committed different entries. *)
Example committed_entries_differ x y :
  (λ '(ns, ra, rc), (ra, rc, committed_log ns "a", committed_log ns "b", committed_log ns "c")) <$> takeover x y =
  Some ((true, Ok tt), (true, Ok tt),
        Some (1, [mkLogEntry 1 1 x]),
        Some (1, [mkLogEntry 1 1 x; mkLogEntry 2 1 y]),
        Some (1, [mkLogEntry 2 1 y])).
Proof. vm_compute. reflexivity. Qed.

(** ** Witnesses

    [a] replicates two entries at the same time; [b] gets both, the first
    request to [c] arrives late and the second comes too early and is
    refused, as is every later one. *)
Definition ex_group_leader : RaftNode :=
  with_peers ["b"; "c"]%string (become_leader (with_term 1 (raft_new "a"))).
Definition ex_group_moves : list GroupMove :=
  [GReplicate [x01]; GReplicate [x02]; GAnswer 1; GFail 0; GAnswer 1; GAnswer 0; GArrive 0; GEnd 0; GEnd 0].
Definition ex_more_moves : list GroupMove :=
  [GReplicate [x03]; GHeartbeat "c"; GAnswer 0; GAnswer 0; GArrive 0; GEnd 0].

Lemma ex_group_wf : NoDup (peers ex_group_leader) ∧ log_wf (log ex_group_leader).
Proof. split; [apply (bool_decide_unpack _); by vm_compute|]. intros i e H. by rewrite (lookup_nil i : log ex_group_leader !! i = None) in H. Qed.

Lemma replication_safe_witness :
  ∃ g, group_moves node_service ex_group_moves (group_new ex_group_leader) = Some g ∧ zlen (acknowledged g) = 2 ∧
    ∀ v f, followers g !! v = Some f → log f `prefix_of` log (leader g).
Proof.
  destruct (group_moves node_service ex_group_moves (group_new ex_group_leader)) as [g|] eqn:E; [|by vm_compute in E]. exists g. split; [done|].
  split; [vm_compute in E; injection E as <-; reflexivity|]. intros v f Hf.
  apply (proj1 (replication_safe ex_group_leader ex_group_moves g (proj1 ex_group_wf) (proj2 ex_group_wf) E)
           v f Hf).
Defined.

(** After the first moves, [c] has the first of two entries and nothing is under way. *)
Lemma ex_group_gap g :
  group_moves node_service ex_group_moves (group_new ex_group_leader) = Some g →
  log <$> followers g !! "c"%string = Some [mkLogEntry 1 1 [x01]] ∧ length (log (leader g)) = 2%nat ∧
  outstanding g = [] ∧
  ∃ g', group_moves node_service ex_more_moves g = Some g' ∧ zlen (log (leader g')) = 3.
Proof.
  intros E. vm_compute in E. injection E as <-. split_and!; [vm_compute; reflexivity..|].
  eexists. split; vm_compute; reflexivity.
Qed.

Lemma missed_entry_never_recovered_witness :
  ∃ g', (g ← group_moves node_service ex_group_moves (group_new ex_group_leader);
     group_moves node_service ex_more_moves g) = Some g' ∧
    log <$> followers g' !! "c"%string = Some [mkLogEntry 1 1 [x01]] ∧ zlen (log (leader g')) = 3.
Proof.
  destruct (group_moves node_service ex_group_moves (group_new ex_group_leader)) as [g|] eqn:E; [|by vm_compute in E].
  destruct (ex_group_gap g E) as (Hc & HL & Ho & g' & E' & H3). exists g'. split; [exact E'|]. split; [|exact H3].
  destruct (followers g !! "c"%string) as [f|] eqn:Hf; [|done]. injection Hc as Hc.
  destruct (missed_entry_never_recovered ex_group_leader ex_group_moves g "c" f ex_more_moves g'
    (proj1 ex_group_wf) (proj2 ex_group_wf) E Hf) as (f' & H1 & H2 & _).
  - rewrite Hc, HL. simpl. lia.
  - rewrite Ho. intros e He. destruct (not_elem_of_nil _ He).
  - exact E'.
  - rewrite H1. simpl. rewrite H2, Hc. reflexivity.
Defined.
