(* ===== verification/RaftTask.v ===== *)
(** * Raft: the timer tasks

    The background task that [start_raft_tasks] (src/coordinator/raft_node.rs)
    spawns, one turn of its endless loop at a time, [run_election_timer] and
    [detect_partition].  What the network answers, the random numbers and the readings of
    the clock are inputs of a turn, and so is what other tasks do to the node
    while this one waits. *)

From Stdlib Require Import ZArith Lia.
From stdpp Require Import base option list strings.
From S2P Require Import Prelude Bytes Text Errors Float64 Raft.

Definition MILLIS : Z := 1000000.
(** [Duration::from_millis(150 + rand::random::<u64>() % 150)] *)
Definition random_timeout (random : Z) : Z := (150 + random mod 150) * MILLIS.

Definition detect_partition (last_heartbeat now timeout : Z) : bool :=
  timeout <? duration_since now last_heartbeat.

(** ** The task *)
Record RaftTask := mkTask {
  rt_node : RaftNode;
  rt_last_heartbeat : Z;
  rt_election_timeout : Z;
}.
Definition start_task (n : RaftNode) (now random : Z) : RaftTask := mkTask n now (random_timeout random).

Record TurnInput := mkTurn {
  (** What others do to the node while the task sleeps, asks for votes, and
      sends heartbeats. *)
  ti_sleep : RaftNode → RaftNode;
  ti_voting : RaftNode → RaftNode;
  ti_sending : RaftNode → RaftNode;
  (** The clock when the election timeout is tested, after an election and
      after heartbeats. *)
  ti_now : Z;
  ti_after_election : Z;
  ti_after_heartbeats : Z;
  ti_random : Z;
  ti_call : string → VoteRequest → result Status VoteResponse;
}.

Definition raft_turn (i : TurnInput) (t : RaftTask) : RaftTask * list (string * AppendRequest) :=
  let n := ti_sleep i (rt_node t) in
  let ps := peers n in
  let t :=
    if negb (is_leader n) && (rt_election_timeout t <? duration_since (ti_now i) (rt_last_heartbeat t))
    then mkTask (start_election_and_collect_votes ps (ti_call i) (ti_voting i) n).1
           (ti_after_election i) (random_timeout (ti_random i))
    else mkTask n (rt_last_heartbeat t) (rt_election_timeout t) in
  if is_leader (rt_node t)
  then (mkTask (ti_sending i (rt_node t)) (ti_after_heartbeats i) (rt_election_timeout t),
        send_heartbeats (rt_node t))
  else (t, []).
Definition raft_turns (t : RaftTask) (turns : list TurnInput) : RaftTask :=
  foldl (λ t i, (raft_turn i t).1) t turns.

(** One turn of [run_election_timer], after its sleep. *)
Definition election_timer_turn (call : string → VoteRequest → result Status VoteResponse)
    (during : RaftNode → RaftNode) (n : RaftNode) : RaftNode :=
  if negb (is_leader n) then (start_election_and_collect_votes (peers n) call during n).1 else n.

(** ** A node on its own *)
Definition quiet (i : TurnInput) : Prop :=
  ti_sleep i = id ∧ ti_voting i = id ∧ ti_sending i = id.

Lemma random_timeout_bounds r : 150 * MILLIS ≤ random_timeout r < 300 * MILLIS.
Proof. unfold random_timeout, MILLIS. pose proof (Z.mod_pos_bound r 150 eq_refl). lia. Qed.

(** An election without peers is won. *)
Lemma lone_election call n :
  peers n = [] →
  start_election_and_collect_votes [] call id n = (become_leader (start_election n).1, true).
Proof. done. Qed.

Definition elected (n : RaftNode) : RaftNode := become_leader (start_election n).1.

Lemma quiet_turn i n t0 d :
  quiet i → peers n = [] → is_leader n = false →
  (raft_turn i (mkTask n t0 d)).1 =
  if d <? duration_since (ti_now i) t0
  then mkTask (elected n) (ti_after_heartbeats i) (random_timeout (ti_random i))
  else mkTask n t0 d.
Proof.
  intros (H1 & H2 & H3) Hp Hl. unfold raft_turn. rewrite H1, H2, H3.
  cbn [rt_node rt_last_heartbeat rt_election_timeout id]. unfold id in *. rewrite Hl, Hp. cbn [negb andb].
  destruct (d <? duration_since (ti_now i) t0); cbn [rt_node]; [done|]. by rewrite Hl.
Qed.

Lemma leader_turn i n t0 d :
  quiet i → is_leader n = true → (raft_turn i (mkTask n t0 d)).1 = mkTask n (ti_after_heartbeats i) d.
Proof.
  intros (H1 & H2 & H3) Hl. unfold raft_turn. rewrite H1, H3.
  cbn [rt_node rt_last_heartbeat rt_election_timeout id]. unfold id in *. rewrite Hl. cbn [negb andb rt_node].
  by rewrite Hl.
Qed.

Lemma quiet_turns_leader turns n t0 d :
  Forall quiet turns → is_leader n = true → rt_node (raft_turns (mkTask n t0 d) turns) = n.
Proof.
  intros Hq Hl. revert t0 d. unfold raft_turns. induction Hq as [|i turns Hi _ IH]; intros t0 d; [done|].
  cbn [foldl]. rewrite leader_turn by done. apply IH.
Qed.

(** Liveness of an election without peers: a node that no other task
    touches is leader, in the next term, once a turn of its timer task comes
    300 ms or more after the task started, and it stays leader. *)
Lemma lone_node_elected n now random turns :
  peers n = [] → is_leader n = false → Forall quiet turns →
  Exists (λ i, 300 * MILLIS ≤ ti_now i - now) turns →
  rt_node (raft_turns (start_task n now random) turns) = elected n ∧
  is_leader (elected n) = true ∧ term (elected n) = add64 (term n) 1.
Proof.
  intros Hp Hl Hq Hex. split; [|done]. unfold start_task.
  pose proof (random_timeout_bounds random) as Hd. set (d := random_timeout random) in *. clearbody d.
  induction Hq as [|i turns Hi Hturns IH]; [by apply Exists_nil in Hex|].
  unfold raft_turns in *. cbn [foldl]. rewrite quiet_turn by done.
  destruct (Z.ltb_spec d (duration_since (ti_now i) now)) as [H|H].
  - by apply quiet_turns_leader.
  - apply Exists_cons in Hex as [Hi'|Hex]; [|by apply IH].
    unfold duration_since in H. lia.
Qed.

(** ** Heartbeats and the timer *)
Lemma start_election_term n : term (start_election n).1 = add64 (term n) 1.
Proof. done. Qed.

Lemma election_term ps call n : term (start_election_and_collect_votes ps call id n).1 = add64 (term n) 1.
Proof.
  unfold start_election_and_collect_votes. cbn [start_election]. by destruct (_ <=? _).
Qed.

Lemma append_keeps_role req n : role (handle_append_entries req n).1 = role n.
Proof.
  unfold handle_append_entries. destruct (ar_term req <? term n); [done|].
  destruct (term n <? ar_term req); cbn; destruct (_ <=? _); try done; by destruct (_ <? _).
Qed.

(** Heartbeats do not hold elections back: whatever append requests a
    follower takes from its leader while the task sleeps, it starts an election
    and leaves the leader's term as soon as its own timeout has passed since the
    task last led or campaigned, because the task never learns of them. *)
Theorem heartbeats_do_not_stop_elections reqs i t :
  let n := foldl (λ n req, (handle_append_entries req n).1) (rt_node t) reqs in
  is_leader (rt_node t) = false → ti_sleep i = (λ _, n) → ti_voting i = id → ti_sending i = id →
  rt_election_timeout t < ti_now i - rt_last_heartbeat t →
  term (rt_node (raft_turn i t).1) = add64 (term n) 1.
Proof.
  intros n Hl Hs Hv Hse Hd. unfold raft_turn. rewrite Hs, Hv, Hse.
  assert (is_leader n = false) as Hn.
  { unfold is_leader in *. assert (role n = role (rt_node t)) as ->; [|done]. subst n. clear.
    generalize (rt_node t). induction reqs as [|req reqs IH]; intros m; [done|]. cbn [foldl].
    by rewrite IH, append_keeps_role. }
  rewrite Hn. cbn [negb andb].
  assert ((rt_election_timeout t <? duration_since (ti_now i) (rt_last_heartbeat t)) = true) as ->
    by (apply Z.ltb_lt; unfold duration_since; lia).
  cbn [rt_node]. rewrite <- (election_term (peers n) (ti_call i) n).
  by destruct (is_leader (start_election_and_collect_votes _ _ _ _).1).
Qed.

(** A leader that was replaced stays leader: a heartbeat of a leader with a
    later term only raises the term of the old one, so that both are then
    leaders of the same term. *)
Theorem stale_leader_joins_term (old new : RaftNode) :
  is_leader old = true → is_leader new = true → term old < term new →
  let old' := (handle_append_entries (heartbeat_request new) old).1 in
  is_leader old' = true ∧ term old' = term new.
Proof.
  intros Ho Hn Ht. cbv zeta. split.
  - unfold is_leader in *. by rewrite append_keeps_role.
  - destruct (handle_append_entries_term (heartbeat_request new) old) as (_ & _ & ->). cbn. lia.
Qed.

(** ** Witnesses *)
Definition late_turn : TurnInput :=
  mkTurn id id id (400 * MILLIS) (401 * MILLIS) (402 * MILLIS) 7 (λ _ _, Err (mkStatus (CodeOther 14) "down" None)).
Lemma lone_node_elected_witness :
  rt_node (raft_turns (start_task (raft_new "a") 0 42) [late_turn]) = elected (raft_new "a").
Proof.
  apply (lone_node_elected (raft_new "a") 0 42 [late_turn]); [done|done|by repeat constructor|].
  constructor. by vm_compute.
Defined.

Definition ex_heartbeat : AppendRequest := mkAppendRequest 4 "leader" 0 0 [] 0.
Definition fed_turn : TurnInput :=
  mkTurn (λ _, (handle_append_entries ex_heartbeat (raft_new "f")).1) id id
    (400 * MILLIS) (401 * MILLIS) (402 * MILLIS) 7 (λ _ _, Err (mkStatus (CodeOther 14) "down" None)).
Lemma heartbeats_do_not_stop_elections_witness :
  term (rt_node (raft_turn fed_turn (start_task (raft_new "f") 0 42)).1) = 5.
Proof.
  apply (heartbeats_do_not_stop_elections [ex_heartbeat] fed_turn (start_task (raft_new "f") 0 42));
    first [reflexivity | by vm_compute].
Defined.

Lemma stale_leader_joins_term_witness :
  term (handle_append_entries (heartbeat_request (with_term 3 (become_leader (raft_new "b"))))
    (become_leader (raft_new "a"))).1 = 3.
Proof.
  apply (stale_leader_joins_term (become_leader (raft_new "a")) (with_term 3 (become_leader (raft_new "b"))));
    first [reflexivity | by vm_compute].
Defined.
