(* ===== verification/Ops.v ===== *)
(** * Operations tooling and the command line

    [src/ops/]: the cluster operations, of which only [auto_rebalance_cluster]
    and [stream_large_blob] do anything (the others return constants), the admin
    endpoints of [src/coordinator/http.rs] that call them, and the command line
    client [src/bin/cli.rs].  The log output of [tracing] is left out; the HTTP
    client of the command line ([reqwest]) is a parameter. *)

From Stdlib Require Import ZArith Lia.
From Stdlib.Strings Require Import Byte.
From stdpp Require Import base option list gmap strings.
From S2P Require Import Prelude Bytes Text Errors Fs External Utils Metadata.

(** ** Reports *)
Record CompactReport := mkCompactReport { volumes_compacted : Z; bytes_freed : Z }.
Record RepairReport := mkRepairReport { keys_checked : Z; keys_repaired : Z; bytes_copied : Z }.
Record VerifyReport := mkVerifyReport {
  v_total_keys : Z; v_healthy : Z; v_under_replicated : Z; v_corrupted : Z; v_orphaned : Z }.

Definition compact_cluster (coordinator_url : string) (shard : option Z) : Result CompactReport :=
  Ok (mkCompactReport 1 (1024 * 1024 * 1024)).
Definition repair_cluster (coordinator_url : string) (replicas : Z) (dry_run : bool) : Result RepairReport :=
  Ok (mkRepairReport 1000 10 (10 * 1024 * 1024)).
Definition verify_cluster (coordinator_url : string) (deep : bool) (concurrency : Z) : Result VerifyReport :=
  Ok (mkVerifyReport 1000 980 10 5 5).
Definition prepare_seamless_upgrade (coordinator_url : string) : Result unit := Ok tt.

(** ** Streaming a blob

    What [reader.read] does, within the timeout of five seconds or not. *)
Inductive ReadOutcome := ReadOk (n : Z) | ReadErr (e : string) | ReadTimeout.
Definition CHUNK : Z := 4 * 1024 * 1024.

(** The loop: [read pos] is the outcome at position [pos] of the file; [None]
    when [fuel] turns were not enough. *)
Fixpoint stream_loop (fuel : nat) (read : Z → ReadOutcome) (pos : Z) : option (Result unit) :=
  match fuel with
  | O => None
  | S fuel =>
      match read pos with
      | ReadOk n => if n =? 0 then Some (Ok tt) else stream_loop fuel read (pos + n)
      | ReadErr e => Some (Err (Internal ("stream error: " +:+ e)))
      | ReadTimeout => Some (Err (Internal "stream timeout"))
      end
  end.

(** [/data/volumes/{volume_id}/{key}.blob], for names without slashes. *)
Definition blob_file (volume_id key : string) : path :=
  ["data"; "volumes"; volume_id; key +:+ ".blob"]%string.

Definition stream_large_blob (fuel : nat) (read : Z → ReadOutcome) (volume_id key : string) (d : Disk)
    : option (Result unit) :=
  match file_at d (blob_file volume_id key) with
  | None => Some (Err (NotFound key))
  | Some _ => stream_loop fuel read 0
  end.

(** ** Rebalancing *)
Section rebalance.
Context {RK : Rocks} {BV : Bincode VolumeMetadata}.
Context (io_display : IoErrorKind → string) (status_display : Status → string).

Definition OVERLOADED : Z := 10 * 1024 * 1024 * 1024.
Definition overloaded (volumes : list VolumeMetadata) : list VolumeMetadata :=
  filter (λ v, OVERLOADED < vm_total_bytes v) volumes.

(** [opened] is the result of opening the database at [/data/coord.db]; what is
    returned with the answer are the volumes named in the log. *)
Definition auto_rebalance_cluster (opened : Result DB) : Result (list string) :=
  let? metadata := map_err (λ e, Internal ("metadata: " +:+ to_string io_display status_display e)) opened in
  let? volumes := map_err (λ e, Internal ("volumes: " +:+ to_string io_display status_display e))
                    (get_healthy_volumes metadata) in
  Ok (map vm_volume_id (overloaded volumes)).
End rebalance.

(** ** The admin endpoints *)
Inductive AdminAnswer (R : Type) := AdminOk (report : R) | AdminError (e : string).
Arguments AdminOk {R} report.
Arguments AdminError {R} e.
Section admin.
Context (show_error : Error → string).
Definition admin_answer {R} (res : Result R) : AdminAnswer R :=
  match res with Ok report => AdminOk report | Err e => AdminError (show_error e) end.
Definition admin_repair : AdminAnswer RepairReport :=
  admin_answer (repair_cluster "http://localhost:5000" 3 false).
Definition admin_compact : AdminAnswer CompactReport :=
  admin_answer (compact_cluster "http://localhost:5000" None).
Definition admin_verify : AdminAnswer VerifyReport :=
  admin_answer (verify_cluster "http://localhost:5000" false 16).
Definition admin_scale : string := "scaling triggered".
End admin.

(** ** The command line *)
Inductive Command :=
  | Verify (deep : bool) (concurrency : Z)
  | Repair (replicas : Z) (dry_run : bool)
  | Compact (shard : option Z)
  | Put (key : string) (file : path)
  | Get (key : string) (output : path)
  | Delete (key : string)
  | Rebalance
  | Upgrade
  | Stream (key : string).

Inductive CliError := CliError_minikv (e : Error) | CliError_io (e : IoErrorKind) | CliError_http (e : string).

(** [reqwest]: sending a request changes the state [W] of the world outside and
    gives a status (as it prints) and a body, or an error. *)
Section cli.
Context {W : Type}.
Context (send : string → string → option bytes → W → W * result string (string * string)).
Context (rebalanced : Result (list string)) (fuel : nat) (read : Z → ReadOutcome).

Definition minikv {A} (r : Result A) : result CliError A := map_err CliError_minikv r.
Definition write_file (p : path) (content : bytes) (d : Disk) : Disk := set_content p content d.

(** The disk, the world and the lines printed.  [None]: a stream that did not
    end within [fuel] turns. *)
Definition cli_main (coordinator : string) (command : Command) (d : Disk) (w : W)
    : option (Disk * W * result CliError (list string)) :=
  let url key := coordinator +:+ "/" +:+ key in
  match command with
  | Verify deep concurrency =>
      Some (d, w,
        let? report := minikv (verify_cluster coordinator deep concurrency) in
        Ok ["Verification report:"%string;
            "  Total keys: " +:+ show_dec (v_total_keys report);
            "  Healthy: " +:+ show_dec (v_healthy report);
            "  Under-replicated: " +:+ show_dec (v_under_replicated report);
            "  Corrupted: " +:+ show_dec (v_corrupted report);
            "  Orphaned: " +:+ show_dec (v_orphaned report)])
  | Repair replicas dry_run =>
      Some (d, w,
        let? report := minikv (repair_cluster coordinator replicas dry_run) in
        Ok ["Repair report:"%string;
            "  Keys checked: " +:+ show_dec (keys_checked report);
            "  Keys repaired: " +:+ show_dec (keys_repaired report);
            "  Bytes copied: " +:+ show_dec (bytes_copied report)])
  | Compact shard =>
      Some (d, w,
        let? report := minikv (compact_cluster coordinator shard) in
        Ok ["Compaction report:"%string;
            "  Volumes compacted: " +:+ show_dec (volumes_compacted report);
            "  Bytes freed: " +:+ show_dec (bytes_freed report)])
  | Put key file =>
      Some (match file_at d file with
            | None => (d, w, Err (CliError_io IoNotFound))
            | Some value =>
                let '(w, r) := send "POST" (url key) (Some value) w in
                (d, w, let? '(status, _) := map_err CliError_http r in
                       Ok ["PUT " +:+ key +:+ ": " +:+ status])
            end)
  | Rebalance =>
      Some (d, w, let? _ := minikv rebalanced in Ok ["Auto-rebalancing triggered."%string])
  | Upgrade =>
      Some (d, w, let? _ := minikv (prepare_seamless_upgrade coordinator) in
                  Ok ["Seamless upgrade prepared."%string])
  | Stream key =>
      r ← stream_large_blob fuel read "volume-1" key d;
      Some (d, w, let? _ := minikv r in Ok ["Streaming large blob for key: " +:+ key])
  | Get key output =>
      let '(w, r) := send "GET" (url key) None w in
      Some (match r with
            | Err e => (d, w, Err (CliError_http e))
            | Ok (_, value) =>
                if bool_decide (output = [])
                then (d, w, Ok ["GET " +:+ key +:+ ": " +:+ value])
                else (write_file output (as_bytes value) d, w,
                      Ok ["GET " +:+ key +:+ ": value written to file"])
            end)
  | Delete key =>
      let '(w, r) := send "DELETE" (url key) None w in
      Some (d, w, let? '(status, _) := map_err CliError_http r in
                  Ok ["DELETE " +:+ key +:+ ": " +:+ status])
  end.
End cli.

(** ** Properties *)

(** How reads of a file of [len] bytes behave: at least one byte and at most
    what is left and fits the buffer, nothing at the end. *)
Definition reads_file (len : Z) (read : Z → ReadOutcome) : Prop :=
  ∀ pos, 0 ≤ pos ≤ len →
    match read pos with
    | ReadOk n => 0 ≤ n ≤ Z.min CHUNK (len - pos) ∧ (n = 0 ↔ pos = len)
    | _ => True
    end.

Lemma stream_loop_returns fuel len read pos :
  reads_file len read → 0 ≤ pos ≤ len → len - pos < Z.of_nat fuel →
  ∃ r, stream_loop fuel read pos = Some r ∧
    ((∀ p, 0 ≤ p ≤ len → ∃ n, read p = ReadOk n) → r = Ok tt).
Proof.
  intros Hr. revert pos. induction fuel as [|fuel IH]; intros pos Hp Hf; [lia|]. cbn [stream_loop].
  specialize (Hr pos Hp) as Hpos. destruct (read pos) as [n|e|] eqn:E.
  - destruct Hpos as [Hn H0]. destruct (Z.eqb_spec n 0) as [->|Hne]; [by eexists|].
    apply IH; lia.
  - eexists. split; [done|]. intros H. destruct (H pos Hp) as [n Hn]. congruence.
  - eexists. split; [done|]. intros H. destruct (H pos Hp) as [n Hn]. congruence.
Qed.

(** C32. Streaming a blob terminates: whatever sizes the reads return, after at
    most one turn per byte and one more the loop has ended, with an error if a
    read failed or timed out and successfully if none did. *)
Theorem stream_terminates volume_id key d content read fuel :
  file_at d (blob_file volume_id key) = Some content →
  reads_file (zlen content) read → (length content < fuel)%nat →
  ∃ r, stream_large_blob fuel read volume_id key d = Some r ∧
    ((∀ p, 0 ≤ p ≤ zlen content → ∃ n, read p = ReadOk n) → r = Ok tt).
Proof.
  intros Hf Hr Hl. unfold stream_large_blob. rewrite Hf. pose proof (zlen_nonneg content).
  apply (stream_loop_returns fuel (zlen content)); [done|lia|unfold zlen in *; lia].
Qed.

(** The commands of the client, and what they leave alone: [verify],
    [repair], [compact], [rebalance], [upgrade] and [stream] send nothing and
    write nothing; [put] sends the content of the file to the key and changes
    no file; [get] writes the answer to the output file and changes no other
    file; [delete] changes no file. *)
Theorem cli_effects {W} send rebalanced fuel read coordinator command d (w : W) d' w' r :
  cli_main send rebalanced fuel read coordinator command d w = Some (d', w', r) →
  match command with
  | Put key file =>
      d' = d ∧ match file_at d file with
               | Some value => w' = (send "POST" (coordinator +:+ "/" +:+ key) (Some value) w).1
               | None => w' = w ∧ r = Err (CliError_io IoNotFound)
               end
  | Get key output =>
      w' = (send "GET" (coordinator +:+ "/" +:+ key) None w).1 ∧
      (∀ p, p ≠ output → files d' !! p = files d !! p) ∧
      match (send "GET" (coordinator +:+ "/" +:+ key) None w).2 with
      | Ok (_, value) => output ≠ [] → file_at d' output = Some (as_bytes value)
      | Err _ => d' = d
      end
  | Delete key => d' = d ∧ w' = (send "DELETE" (coordinator +:+ "/" +:+ key) None w).1
  | _ => d' = d ∧ w' = w
  end.
Proof.
  destruct command; cbn [cli_main]; try (intros [= <- <- <-]; done).
  - destruct (file_at d file) as [value|]; [|intros [= <- <- <-]; done].
    destruct (send _ _ _ _) as [w1 r1]. intros [= <- <- <-]. done.
  - destruct (send _ _ _ _) as [w1 [[status value]|e]]; [|intros [= <- <- <-]; done].
    case_bool_decide as Ho; intros [= <- <- <-].
    { split; [done|]. split; [done|]. cbn. intros Hne. by destruct Hne. }
    split; [done|]. cbn. split.
    + intros p Hp. by rewrite lookup_insert_ne.
    + intros _. unfold write_file, file_at, set_content. cbn. by rewrite lookup_insert_eq.
  - destruct (send _ _ _ _) as [w1 r1]. intros [= <- <- <-]. done.
  - destruct (stream_large_blob _ _ _ _ _) as [r1|]; [|done]. cbn. intros [= <- <- <-]. done.
Qed.

(** ** Witnesses *)
Definition ex_ops_disk : Disk :=
  mkDisk {[blob_file "volume-1" "k" := mkFile [x01; x02; x03] []]} ∅.
Definition two_bytes_at_a_time (pos : Z) : ReadOutcome := ReadOk (Z.min 2 (3 - pos)).
Lemma stream_terminates_witness :
  ∃ r, stream_large_blob 4 two_bytes_at_a_time "volume-1" "k" ex_ops_disk = Some r ∧ r = Ok tt.
Proof.
  destruct (stream_terminates "volume-1" "k" ex_ops_disk [x01; x02; x03] two_bytes_at_a_time 4) as (r & H1 & H2).
  - by vm_compute.
  - intros pos Hp. unfold two_bytes_at_a_time. change (zlen [x01; x02; x03]) with 3 in *.
    unfold CHUNK. split; [lia|]. split; lia.
  - cbn. lia.
  - exists r. split; [exact H1|]. apply H2. intros p _. by eexists.
Defined.

Definition ex_send (method url : string) (body : option bytes) (w : list string)
    : list string * result string (string * string) :=
  (w ++ [method +:+ " " +:+ url], Ok ("200 OK", "v")%string).
Lemma cli_effects_witness :
  ex_ops_disk = ex_ops_disk ∧
  ["DELETE http://h/k"%string] = (ex_send "DELETE" ("http://h" +:+ "/" +:+ "k") None []).1.
Proof.
  apply (cli_effects ex_send (Ok []) 4 two_bytes_at_a_time "http://h" (Delete "k") ex_ops_disk []
    ex_ops_disk ["DELETE http://h/k"%string] (Ok ["DELETE k: 200 OK"%string])).
  reflexivity.
Defined.
