(* ===== verification/Quota.v ===== *)
(** * Quotas

    [src/common/quota.rs]: per-tenant limits on storage, on the number of
    objects and on the rate of requests.  Instants are numbers of nanoseconds
    and are passed as arguments. *)

From Stdlib Require Import ZArith Lia Sorted.
From stdpp Require Import base option list gmap strings.
From S2P Require Import Prelude Bytes Text External.

Definition DEFAULT_STORAGE_LIMIT : Z := 10 * 1024 * 1024 * 1024.
Definition DEFAULT_OBJECT_LIMIT : Z := 1000000.
Definition DEFAULT_RATE_LIMIT : Z := 1000.
(** One second. *)
Definition DEFAULT_RATE_WINDOW : Z := 1000000000.

Record TenantQuota := mkQuota {
  tenant_id : string;
  storage_limit : Z;
  object_limit : Z;
  rate_limit : Z;
  enabled : bool;
  created_at : option Z;
}.

Definition quota_new (now : Z) (id : string) : TenantQuota :=
  mkQuota id DEFAULT_STORAGE_LIMIT DEFAULT_OBJECT_LIMIT DEFAULT_RATE_LIMIT true (Some now).
Definition quota_unlimited (now : Z) (id : string) : TenantQuota :=
  mkQuota id 0 0 0 true (Some now).
Definition quota_with_limits (now : Z) (id : string) (storage objects rate : Z) : TenantQuota :=
  mkQuota id storage objects rate true (Some now).

Record TenantUsage := mkUsage {
  storage_used : Z;
  object_count : Z;
  request_times : list Z;
}.
Definition usage_default : TenantUsage := mkUsage 0 0 [].

(** ** One tenant *)
Definition usage_check_storage (u : TenantUsage) (quota : TenantQuota) (additional_bytes : Z) : bool :=
  if storage_limit quota =? 0 then true
  else add64 (storage_used u) additional_bytes <=? storage_limit quota.

Definition usage_check_objects (u : TenantUsage) (quota : TenantQuota) (additional_objects : Z) : bool :=
  if object_limit quota =? 0 then true
  else add64 (object_count u) additional_objects <=? object_limit quota.

Definition check_rate (now : Z) (quota : TenantQuota) (u : TenantUsage) : TenantUsage * bool :=
  if rate_limit quota =? 0 then (u, true) else
  let window_start := now - DEFAULT_RATE_WINDOW in
  let times := filter (λ t, (window_start <? t) = true) (request_times u) in
  (mkUsage (storage_used u) (object_count u) times, as_u32 (zlen times) <? rate_limit quota).

Definition record_request (now : Z) (u : TenantUsage) : TenantUsage :=
  mkUsage (storage_used u) (object_count u) (request_times u ++ [now]).
Definition add_storage (bytes : Z) (u : TenantUsage) : TenantUsage :=
  mkUsage (saturating_add64 (storage_used u) bytes) (object_count u) (request_times u).
Definition remove_storage (bytes : Z) (u : TenantUsage) : TenantUsage :=
  mkUsage (saturating_sub64 (storage_used u) bytes) (object_count u) (request_times u).
Definition add_objects (count : Z) (u : TenantUsage) : TenantUsage :=
  mkUsage (storage_used u) (saturating_add64 (object_count u) count) (request_times u).
Definition remove_objects (count : Z) (u : TenantUsage) : TenantUsage :=
  mkUsage (storage_used u) (saturating_sub64 (object_count u) count) (request_times u).

(** ** Results *)
Inductive QuotaCheckResult :=
  | Allowed
  | TenantNotFound
  | StorageLimitExceeded (limit used requested : Z)
  | ObjectLimitExceeded (limit count : Z)
  | RateLimitExceeded (limit window_secs : Z)
  | TenantDisabled.

Definition is_allowed (r : QuotaCheckResult) : bool :=
  match r with Allowed | TenantNotFound => true | _ => false end.

Definition error_message (r : QuotaCheckResult) : option string :=
  match r with
  | Allowed | TenantNotFound => None
  | StorageLimitExceeded limit used requested =>
      Some ("Storage quota exceeded: limit=" +:+ show_dec limit +:+ " bytes, used=" +:+
            show_dec used +:+ " bytes, requested=" +:+ show_dec requested +:+ " bytes")
  | ObjectLimitExceeded limit count =>
      Some ("Object count quota exceeded: limit=" +:+ show_dec limit +:+ ", current count=" +:+
            show_dec count)
  | RateLimitExceeded limit window_secs =>
      Some ("Rate limit exceeded: " +:+ show_dec limit +:+ " requests per " +:+
            show_dec window_secs +:+ " second(s)")
  | TenantDisabled => Some "Tenant is disabled"%string
  end.

(** ** The manager *)
Record QuotaManager := mkManager {
  quotas : gmap string TenantQuota;
  usage : gmap string TenantUsage;
  default_quota : TenantQuota;
}.

Definition manager_new (now : Z) : QuotaManager := mkManager ∅ ∅ (quota_new now "__default__").
Definition set_default_quota (q : TenantQuota) (m : QuotaManager) : QuotaManager :=
  mkManager (quotas m) (usage m) q.
Definition set_quota (q : TenantQuota) (m : QuotaManager) : QuotaManager :=
  mkManager (<[tenant_id q := q]> (quotas m)) (usage m) (default_quota m).
Definition get_quota (id : string) (m : QuotaManager) : option TenantQuota := quotas m !! id.
Definition remove_quota (id : string) (m : QuotaManager) : QuotaManager * option TenantQuota :=
  (mkManager (delete id (quotas m)) (usage m) (default_quota m), quotas m !! id).
Definition get_usage (id : string) (m : QuotaManager) : TenantUsage :=
  unwrap_or usage_default (usage m !! id).
Definition with_usage (us : gmap string TenantUsage) (m : QuotaManager) : QuotaManager :=
  mkManager (quotas m) us (default_quota m).

(** [quotas.get(tenant_id).unwrap_or(&self.default_quota)] *)
Definition quota_of (id : string) (m : QuotaManager) : TenantQuota :=
  unwrap_or (default_quota m) (quotas m !! id).

Definition check_storage (id : string) (additional_bytes : Z) (m : QuotaManager) : QuotaCheckResult :=
  let quota := quota_of id m in
  if negb (enabled quota) then TenantDisabled else
  let tenant_usage := get_usage id m in
  if usage_check_storage tenant_usage quota additional_bytes then Allowed
  else StorageLimitExceeded (storage_limit quota) (storage_used tenant_usage) additional_bytes.

Definition check_objects (id : string) (m : QuotaManager) : QuotaCheckResult :=
  let quota := quota_of id m in
  if negb (enabled quota) then TenantDisabled else
  let tenant_usage := get_usage id m in
  if usage_check_objects tenant_usage quota 1 then Allowed
  else ObjectLimitExceeded (object_limit quota) (object_count tenant_usage).

Definition check_and_record_request (now : Z) (id : string) (m : QuotaManager)
    : QuotaManager * QuotaCheckResult :=
  let quota := quota_of id m in
  if negb (enabled quota) then (m, TenantDisabled) else
  let '(u, ok) := check_rate now quota (get_usage id m) in
  if ok then (with_usage (<[id := record_request now u]> (usage m)) m, Allowed)
  else (with_usage (<[id := u]> (usage m)) m,
        RateLimitExceeded (rate_limit quota) (DEFAULT_RATE_WINDOW / 1000000000)).

Definition record_storage_add (id : string) (bytes : Z) (m : QuotaManager) : QuotaManager :=
  with_usage (<[id := add_objects 1 (add_storage bytes (get_usage id m))]> (usage m)) m.

Definition record_storage_remove (id : string) (bytes : Z) (m : QuotaManager) : QuotaManager :=
  match usage m !! id with
  | Some u => with_usage (<[id := remove_objects 1 (remove_storage bytes u)]> (usage m)) m
  | None => m
  end.

(** [to_prometheus] and [list_quotas], in the order of the maps' iteration. *)
Section iteration.
Context {HI : HashIter}.

Definition list_quotas (m : QuotaManager) : list TenantQuota := (hash_iter (quotas m)).*2.

Definition DQ : string := of_bytes [Byte.x22].
Definition metric_line (name id : string) (value : Z) : string :=
  name +:+ "{tenant=" +:+ DQ +:+ id +:+ DQ +:+ "} " +:+ show_dec value +:+ of_bytes [Byte.x0a].

Definition quota_to_prometheus (m : QuotaManager) : string :=
  fold_left (λ out '(id, u),
      let quota := quota_of id m in
      out +:+ metric_line "minikv_tenant_storage_used_bytes" id (storage_used u)
          +:+ metric_line "minikv_tenant_storage_limit_bytes" id (storage_limit quota)
          +:+ metric_line "minikv_tenant_object_count" id (object_count u)
          +:+ metric_line "minikv_tenant_object_limit" id (object_limit quota))
    (hash_iter (usage m)) ""%string.
End iteration.

(** ** Runs *)

(** The requests of one tenant, at the given times; the times of those that
    were allowed. *)
Fixpoint request_run (id : string) (times : list Z) (m : QuotaManager) : QuotaManager * list Z :=
  match times with
  | [] => (m, [])
  | now :: times =>
      let '(m, r) := check_and_record_request now id m in
      let '(m, allowed) := request_run id times m in
      (m, if is_allowed r then now :: allowed else allowed)
  end.

(** Writers that share the manager.  A write is two calls, [check_storage] and,
    if that allows it, [record_storage_add]; between them other threads go on.
    A writer has a slot for the write that was allowed and not yet recorded. *)
Abbreviation Slots := (list (option (string * Z))).

Inductive WriterEvent :=
  | WCheck (w : nat) (id : string) (bytes : Z)
  | WRecord (w : nat)
  (** The write failed and is not recorded. *)
  | WGiveUp (w : nat)
  | WRemove (id : string) (bytes : Z).

Definition writer_step (s : QuotaManager * Slots) (e : WriterEvent) : QuotaManager * Slots :=
  let '(m, slots) := s in
  match e with
  | WCheck w id bytes =>
      match slots !! w with
      | Some None => if is_allowed (check_storage id bytes m) then (m, <[w := Some (id, bytes)]> slots) else s
      | _ => s
      end
  | WRecord w =>
      match slots !! w with
      | Some (Some (id, bytes)) => (record_storage_add id bytes m, <[w := None]> slots)
      | _ => s
      end
  | WGiveUp w => (m, <[w := None]> slots)
  | WRemove id bytes => (record_storage_remove id bytes m, slots)
  end.
Definition writer_run (es : list WriterEvent) (s : QuotaManager * Slots) : QuotaManager * Slots :=
  fold_left writer_step es s.

(** ** The sliding window *)
Definition in_window (t x : Z) : bool := (t - DEFAULT_RATE_WINDOW <? x) && (x <=? t).

(** The requests allowed so far, [acc], and what a tenant's usage remembers of
    them, [rt]: from [now] on both agree on what is in the window. *)
Definition window_inv (L now : Z) (acc rt : list Z) : Prop :=
  Forall (λ x, x ≤ now) acc ∧
  (∀ now', now ≤ now' →
     filter (λ x, (now' - DEFAULT_RATE_WINDOW <? x) = true) rt =
     filter (λ x, (now' - DEFAULT_RATE_WINDOW <? x) = true) acc) ∧
  ∀ t, zlen (filter (λ x, in_window t x = true) acc) ≤ L.

Lemma filter_narrow (a b : Z) (l : list Z) :
  a ≤ b →
  filter (λ x, (b <? x) = true) (filter (λ x, (a <? x) = true) l) = filter (λ x, (b <? x) = true) l.
Proof.
  intros Hab. apply list_filter_filter_l. intros x. rewrite !Z.ltb_lt. lia.
Qed.

Lemma window_inv_later L now now' acc rt :
  window_inv L now acc rt → now ≤ now' → window_inv L now' acc rt.
Proof.
  intros (H1 & H2 & H3) Hle. split; [eapply Forall_impl; [exact H1|]; simpl; lia|].
  split; [|done]. intros n Hn. apply H2. lia.
Qed.

Lemma window_inv_purge L now acc rt :
  window_inv L now acc rt →
  window_inv L now acc (filter (λ x, (now - DEFAULT_RATE_WINDOW <? x) = true) rt).
Proof.
  intros (H1 & H2 & H3). split; [done|]. split; [|done]. intros n Hn.
  rewrite filter_narrow by lia. by apply H2.
Qed.

Lemma window_inv_count L now acc rt :
  window_inv L now acc rt →
  zlen (filter (λ x, (now - DEFAULT_RATE_WINDOW <? x) = true) rt) ≤ L.
Proof.
  intros (H1 & H2 & H3). rewrite H2 by lia. etransitivity; [|apply (H3 now)].
  clear H2 H3. induction H1 as [|x acc Hx _ IH]; [done|]. rewrite !filter_cons.
  case_decide; case_decide as Hw; rewrite ?zlen_cons; unfold in_window in Hw; lia.
Qed.

Lemma window_inv_record L now acc rt :
  window_inv L now acc rt →
  zlen (filter (λ x, (now - DEFAULT_RATE_WINDOW <? x) = true) rt) < L →
  window_inv L now (acc ++ [now]) (filter (λ x, (now - DEFAULT_RATE_WINDOW <? x) = true) rt ++ [now]).
Proof.
  intros (H1 & H2 & H3) Hlt. split; [apply Forall_app; split; [done|]; by repeat constructor|]. split.
  - intros n Hn. rewrite !filter_app, filter_narrow by lia. by rewrite H2.
  - intros t. rewrite filter_app, zlen_app. destruct (decide (t < now)) as [Ht|Ht].
    + rewrite (filter_cons_False _ now []); [|unfold in_window; lia]. specialize (H3 t).
      rewrite filter_nil, zlen_nil. lia.
    + assert (zlen (filter (λ x, in_window t x = true) acc) ≤
              zlen (filter (λ x, (now - DEFAULT_RATE_WINDOW <? x) = true) acc)) as Hle.
      { apply zlen_filter_le. intros x. unfold in_window. lia. }
      rewrite <- H2 in Hle by lia. rewrite filter_cons. case_decide; rewrite filter_nil; unfold zlen in *; simpl; lia.
Qed.

Lemma get_usage_with id us m u : get_usage id (with_usage (<[id := u]> us) m) = u.
Proof. unfold get_usage. simpl. by rewrite lookup_insert_eq. Qed.

Lemma request_run_inv id L times m now acc :
  rate_limit (quota_of id m) = L → enabled (quota_of id m) = true → 0 < L < 2 ^ 32 →
  StronglySorted Z.le (now :: times) →
  window_inv L now acc (request_times (get_usage id m)) →
  ∀ t, zlen (filter (λ x, in_window t x = true) (acc ++ (request_run id times m).2)) ≤ L.
Proof.
  revert m now acc. induction times as [|n times IH]; intros m now acc HL He HL0 Hs Hinv t.
  { simpl. rewrite app_nil_r. by destruct Hinv as (_ & _ & H). }
  inversion Hs as [|? ? Hs' Hnow]; subst. inversion Hnow as [|? ? Hn _]; subst.
  cbn [request_run]. unfold check_and_record_request. rewrite He. cbn [negb].
  unfold check_rate. rewrite (proj2 (Z.eqb_neq _ 0)) by lia.
  pose proof (window_inv_later _ _ n _ _ Hinv Hn) as Hinv'.
  pose proof (window_inv_count _ _ _ _ Hinv') as Hc.
  set (rt := filter _ (request_times (get_usage id m))) in *.
  pose proof (zlen_nonneg rt). unfold as_u32 at 1. rewrite Z.mod_small by (unfold U32_MOD; lia).
  destruct (Z.ltb_spec (zlen rt) (rate_limit (quota_of id m))) as [Hlt|Hge].
  - set (m' := with_usage _ m).
    specialize (IH m' n (acc ++ [n]) eq_refl He HL0 Hs').
    destruct (request_run id times m') as [m'' allowed]. simpl in *.
    rewrite <- app_assoc in IH. apply IH. unfold m'. rewrite get_usage_with. simpl.
    by apply window_inv_record.
  - set (m' := with_usage _ m). specialize (IH m' n acc eq_refl He HL0 Hs').
    destruct (request_run id times m') as [m'' allowed]. simpl in *.
    apply IH. unfold m'. rewrite get_usage_with. simpl. by apply window_inv_purge.
Qed.

(** ** Storage *)
Lemma get_usage_insert id id' u m :
  get_usage id' (with_usage (<[id := u]> (usage m)) m) = if decide (id' = id) then u else get_usage id' m.
Proof.
  unfold get_usage. simpl. case_decide; [subst; by rewrite lookup_insert_eq|].
  by rewrite lookup_insert_ne.
Qed.

(** What the writers have in hand for a tenant. *)
Definition slot_bytes (id : string) (o : option (string * Z)) : Z :=
  match o with Some (id', bytes) => if decide (id' = id) then bytes else 0 | None => 0 end.
Definition in_hand (id : string) (slots : Slots) : Z := foldr (λ o n, slot_bytes id o + n) 0 slots.

Lemma in_hand_app id l k : in_hand id (l ++ k) = in_hand id l + in_hand id k.
Proof. induction l as [|o l IH]; [done|]. cbn [app in_hand foldr]. fold (in_hand id (l ++ k)) (in_hand id l). lia. Qed.
Lemma in_hand_insert id w o o' slots :
  slots !! w = Some o → in_hand id (<[w := o']> slots) = in_hand id slots - slot_bytes id o + slot_bytes id o'.
Proof.
  intros H. rewrite <- (take_drop_middle _ _ _ H) at 2. pose proof (lookup_lt_Some _ _ _ H).
  rewrite insert_take_drop by done. rewrite !in_hand_app. cbn [in_hand foldr].
  fold (in_hand id (drop (S w) slots)). lia.
Qed.

(** A slot holds at most [M] bytes. *)
Definition slot_ok (M : Z) (o : option (string * Z)) : Prop :=
  match o with Some (_, bytes) => 0 ≤ bytes ≤ M | None => True end.
Lemma slot_bytes_bound M id o : 0 ≤ M → slot_ok M o → 0 ≤ slot_bytes id o ≤ M.
Proof. intros H0. destruct o as [[id' bytes]|]; simpl; [case_decide|]; lia. Qed.
Lemma in_hand_bound M id slots :
  0 ≤ M → Forall (slot_ok M) slots → 0 ≤ in_hand id slots ≤ zlen slots * M.
Proof.
  intros H0. induction 1 as [|o slots Ho _ IH]; [done|]. cbn [in_hand foldr]. fold (in_hand id slots).
  rewrite zlen_cons. pose proof (slot_bytes_bound M id o H0 Ho). lia.
Qed.
(** An idle writer has nothing in hand. *)
Lemma in_hand_idle M id w slots :
  0 ≤ M → Forall (slot_ok M) slots → slots !! w = Some None → in_hand id slots ≤ (zlen slots - 1) * M.
Proof.
  intros H0 HF H. rewrite <- (take_drop_middle _ _ _ H) in *. apply Forall_app in HF as [F1 [_ F2]%Forall_cons].
  rewrite in_hand_app, zlen_app, zlen_cons. cbn [in_hand foldr slot_bytes]. fold (in_hand id (drop (S w) slots)).
  pose proof (in_hand_bound M id _ H0 F1). pose proof (in_hand_bound M id _ H0 F2). lia.
Qed.

(** Usage and writes in hand stay below the limit plus what all writers but one
    can add. *)
Section writers.
Context (id : string) (M excess : Z).

Definition writers_inv (s : QuotaManager * Slots) : Prop :=
  Forall (slot_ok M) s.2 ∧ 0 ≤ storage_used (get_usage id s.1) ∧
  storage_used (get_usage id s.1) + in_hand id s.2 ≤ storage_limit (quota_of id s.1) + excess.

Context (HM : 0 ≤ M).

Lemma record_add_usage id' bytes m :
  get_usage id (record_storage_add id' bytes m) =
  if decide (id = id') then add_objects 1 (add_storage bytes (get_usage id' m)) else get_usage id m.
Proof. unfold record_storage_add. apply get_usage_insert. Qed.

Lemma record_remove_usage id' bytes m :
  0 ≤ bytes → 0 ≤ storage_used (get_usage id m) →
  0 ≤ storage_used (get_usage id (record_storage_remove id' bytes m)) ≤ storage_used (get_usage id m).
Proof.
  intros Hb H0. unfold record_storage_remove. destruct (usage m !! id') as [u|] eqn:E; [|lia].
  rewrite get_usage_insert. case_decide as Ed; [|lia]. subst id'.
  assert (get_usage id m = u) as <- by (unfold get_usage; by rewrite E).
  simpl. unfold saturating_sub64. lia.
Qed.

Lemma writer_step_inv s e :
  writers_inv s → (zlen s.2 - 1) * M ≤ excess →
  storage_limit (quota_of id s.1) ≠ 0 → storage_limit (quota_of id s.1) + excess + M < 2 ^ 64 →
  match e with WCheck _ _ bytes => 0 ≤ bytes ≤ M | WRemove _ bytes => 0 ≤ bytes | _ => True end →
  writers_inv (writer_step s e) ∧ zlen (writer_step s e).2 = zlen s.2 ∧
  quota_of id (writer_step s e).1 = quota_of id s.1.
Proof.
  destruct s as [m slots]. intros (I1 & I2 & I3) Hx Hl Hmax He. cbn [fst snd] in *.
  pose proof (in_hand_bound M id slots HM I1) as Hh.
  destruct e as [w id' bytes|w|w|id' bytes]; cbn [writer_step].
  - destruct (slots !! w) as [[[? ?]|]|] eqn:Ew; [done| |done].
    destruct (is_allowed (check_storage id' bytes m)) eqn:Ec; [|done].
    split; [|split; [unfold zlen; cbn [snd]; by rewrite length_insert|done]].
    split; [by apply Forall_insert|]. split; [done|]. cbn [fst snd].
    rewrite (in_hand_insert _ _ _ _ _ Ew). cbn [slot_bytes]. case_decide as Ed; [|lia]. subst id'.
    unfold check_storage in Ec. destruct (enabled (quota_of id m)); cbn [negb] in Ec; [|done].
    unfold usage_check_storage in Ec. rewrite (proj2 (Z.eqb_neq _ 0) Hl) in Ec.
    rewrite add64_small in Ec by lia. pose proof (in_hand_idle M id w slots HM I1 Ew).
    destruct (Z.leb_spec (storage_used (get_usage id m) + bytes) (storage_limit (quota_of id m))); [lia|done].
  - destruct (slots !! w) as [[[id' bytes]|]|] eqn:Ew; [|done|done].
    assert (0 ≤ bytes ≤ M) as Hb by exact (Forall_lookup_1 _ _ _ _ I1 Ew).
    split; [|split; [unfold zlen; cbn [snd]; by rewrite length_insert|done]].
    split; [by apply Forall_insert|]. cbn [fst snd]. rewrite (in_hand_insert _ _ _ _ _ Ew), record_add_usage.
    change (quota_of id (record_storage_add id' bytes m)) with (quota_of id m).
    cbn [slot_bytes]. destruct (decide (id = id')) as [<-|Hne].
    + rewrite decide_True by done. simpl. unfold saturating_add64, U64_MAX. lia.
    + rewrite decide_False by done. lia.
  - split; [|split; [unfold zlen; cbn [snd]; by rewrite length_insert|done]].
    split; [by apply Forall_insert|]. split; [done|]. cbn [fst snd].
    destruct (slots !! w) as [o|] eqn:Ew.
    + rewrite (in_hand_insert _ _ _ _ _ Ew). cbn [slot_bytes].
      pose proof (slot_bytes_bound M id o HM (Forall_lookup_1 _ _ _ _ I1 Ew)). lia.
    + rewrite list_insert_ge by by apply lookup_ge_None. lia.
  - pose proof (record_remove_usage id' bytes m He I2) as Hr.
    assert (quota_of id (record_storage_remove id' bytes m) = quota_of id m) as Hq
      by (unfold record_storage_remove; by destruct (usage m !! id')).
    split; [|done]. split; [done|]. cbn [fst snd]. rewrite Hq. lia.
Qed.
End writers.

(** ** Properties *)

(** C7. The request limit holds in every window of one second: whenever the
    requests of a tenant arrive, at most [rate_limit] of those that fall
    between [t - 1 s] (excluded) and [t] are allowed, for every [t]. *)
Theorem rate_limit_every_window id times m :
  enabled (quota_of id m) = true → 0 < rate_limit (quota_of id m) < 2 ^ 32 →
  StronglySorted Z.le times → request_times (get_usage id m) = [] →
  ∀ t, zlen (filter (λ x, in_window t x = true) (request_run id times m).2) ≤ rate_limit (quota_of id m).
Proof.
  intros He HL Hs Hrt t. destruct times as [|now times]; [simpl; unfold zlen; simpl; lia|].
  change ((request_run id (now :: times) m).2) with ([] ++ (request_run id (now :: times) m).2).
  apply (request_run_inv id _ (now :: times) m now []); [done|done|done| |].
  - constructor; [done|]. inversion Hs; subst. by constructor; [lia|].
  - rewrite Hrt. split; [constructor|]. split; [done|]. intros t'. unfold zlen. simpl. lia.
Qed.

(** C20. Storage accounting under concurrent writers: of any number of threads
    that share the manager, each records a write only after [check_storage]
    allowed it, in a call of its own, with any calls of the others in between.
    Then a tenant with a limit never uses more than its limit and the largest
    write times the number of threads less one; so a single writer keeps the
    limit.  The sizes are such that the sum stays below 2^64, and the quota is
    not changed meanwhile. *)
Theorem guarded_storage_within_limit id m writers es M :
  let L := storage_limit (quota_of id m) in
  let N := Z.of_nat writers in
  0 ≤ storage_used (get_usage id m) ≤ L → 0 < L → (0 < writers)%nat → 0 ≤ M → L + N * M < 2 ^ 64 →
  Forall (λ e, match e with WCheck _ _ bytes => 0 ≤ bytes ≤ M | WRemove _ bytes => 0 ≤ bytes | _ => True end) es →
  storage_used (get_usage id (writer_run es (m, replicate writers None)).1) ≤ L + (N - 1) * M.
Proof.
  intros L N Hu HL Hw HM Hmax Hes.
  assert (∀ s, writers_inv id M ((N - 1) * M) s → zlen s.2 = N → quota_of id s.1 = quota_of id m →
    storage_used (get_usage id (writer_run es s).1) ≤ L + (N - 1) * M) as H.
  { clear Hu. induction Hes as [|e es He _ IH]; intros s I Hn Hq.
    - destruct I as (I1 & _ & I3). rewrite Hq in I3. pose proof (in_hand_bound M id s.2 HM I1). simpl. lia.
    - unfold writer_run. cbn [fold_left].
      destruct (writer_step_inv id M ((N - 1) * M) HM s e I) as (I' & Hn' & Hq'); rewrite ?Hn, ?Hq; try done; [lia|lia|].
      apply IH; [done|lia|congruence]. }
  apply H; [|unfold zlen; cbn [snd]; by rewrite length_replicate|done]. split; [apply Forall_replicate; done|].
  split; [apply Hu|]. cbn [fst snd].
  assert (in_hand id (replicate writers None) = 0) as -> by (clear; induction writers; simpl; [done|exact IHwriters]).
  fold L. pose proof (Z.mul_nonneg_nonneg (N - 1) M). lia.
Qed.

(** The storage check adds the request to the usage in 64 bits and wraps: a
    request of [2^64 - used] bytes or a little more is allowed, and recording
    it takes the usage to the maximum, above every limit. *)
Theorem storage_check_wraps id m bytes :
  enabled (quota_of id m) = true → 0 < storage_limit (quota_of id m) < 2 ^ 64 - 1 →
  0 < storage_used (get_usage id m) < 2 ^ 64 → bytes = 2 ^ 64 - storage_used (get_usage id m) →
  check_storage id bytes m = Allowed ∧
  storage_limit (quota_of id m) < storage_used (get_usage id (record_storage_add id bytes m)).
Proof.
  intros He Hl Hu Hb. unfold check_storage, usage_check_storage. rewrite He. cbn [negb].
  rewrite (proj2 (Z.eqb_neq _ 0)) by lia.
  assert (add64 (storage_used (get_usage id m)) bytes = 0) as ->.
  { subst bytes. unfold add64, wrap64, U64_MOD.
    replace (_ + _) with (1 * 2 ^ 64) by lia. apply Z.mod_mul. lia. }
  rewrite (proj2 (Z.leb_le _ _)) by lia. split; [done|].
  unfold record_storage_add. rewrite get_usage_insert, decide_True by done. simpl.
  unfold saturating_add64, U64_MAX. lia.
Qed.

(** ** Witnesses *)
Definition ex_manager : QuotaManager := set_quota (quota_with_limits 0 "t" 1000 10 2) (manager_new 0).

Lemma rate_limit_every_window_witness :
  zlen (filter (λ x, in_window 500 x = true) (request_run "t" [100; 200; 300] ex_manager).2) ≤ 2.
Proof.
  apply (rate_limit_every_window "t" [100; 200; 300] ex_manager).
  - reflexivity.
  - split; reflexivity.
  - repeat constructor; lia.
  - reflexivity.
Defined.

(** Two writers that are both allowed 700 bytes of 1000. *)
Lemma guarded_storage_within_limit_witness :
  let es := [WCheck 0 "t" 700; WCheck 1 "t" 700; WRecord 0; WRecord 1; WRemove "t" 100] in
  storage_used (get_usage "t" (writer_run es (ex_manager, replicate 2 None)).1) ≤ 1000 + (2 - 1) * 700 ∧
  storage_used (get_usage "t" (writer_run es (ex_manager, replicate 2 None)).1) = 1300.
Proof.
  intros es. split; [|reflexivity]. apply (guarded_storage_within_limit "t" ex_manager 2 es 700).
  - by vm_compute.
  - reflexivity.
  - lia.
  - lia.
  - reflexivity.
  - repeat constructor; lia.
Defined.
