(* ===== verification/QuotaLocks.v ===== *)
(** * The locks of the quota manager

    [QuotaManager] of [src/common/quota.rs] keeps its two maps behind [RwLock]s
    and is shared by all requests.  Its methods as programs of [Threads]; run
    alone they are the functions of [Quota]. *)

From Stdlib Require Import ZArith Lia.
From stdpp Require Import base option list relations gmap strings.
From S2P Require Import Prelude Bytes Text External Threads Quota.

Inductive QuotaField := FQuotas | FUsage.
#[export] Instance QuotaField_eq_dec : EqDecision QuotaField.
Proof. solve_decision. Defined.

Definition quota_cell (f : QuotaField) : Type :=
  match f with FQuotas => gmap string TenantQuota | FUsage => gmap string TenantUsage end.
Definition quota_read (f : QuotaField) (m : QuotaManager) : quota_cell f :=
  match f with FQuotas => quotas m | FUsage => usage m end.
Definition quota_write (f : QuotaField) : quota_cell f → QuotaManager → QuotaManager :=
  match f with
  | FQuotas => λ qs m, mkManager qs (usage m) (default_quota m)
  | FUsage => with_usage
  end.

#[export] Instance quota_guarded : Guarded QuotaManager := {|
  lock := QuotaField; lock_eq_dec := QuotaField_eq_dec; cell := quota_cell;
  read_cell := quota_read; write_cell := quota_write;
|}.

Abbreviation qprog := (@prog QuotaManager quota_guarded).
Abbreviation LockRead f k := (@Acquire QuotaManager quota_guarded _ f Shared k).
Abbreviation LockWrite f k := (@Acquire QuotaManager quota_guarded _ f Exclusive k).
Abbreviation QDrop f k := (@Release QuotaManager quota_guarded _ f k).
Abbreviation QGet f k := (@Load QuotaManager quota_guarded _ f k).
Abbreviation QSet f v k := (@Store QuotaManager quota_guarded _ f v k).

Section methods.
Context {HI : HashIter}.
(** [self.default_quota], which has no lock. *)
Context (dq : TenantQuota).

Definition set_quota_code (q : TenantQuota) : qprog unit :=
  LockWrite FQuotas (QGet FQuotas (λ qs : gmap string TenantQuota,
  QSet FQuotas (<[tenant_id q := q]> qs) (QDrop FQuotas (Done tt)))).
Definition get_quota_code (id : string) : qprog (option TenantQuota) :=
  LockRead FQuotas (QGet FQuotas (λ qs : gmap string TenantQuota, QDrop FQuotas (Done (qs !! id)))).
Definition remove_quota_code (id : string) : qprog (option TenantQuota) :=
  LockWrite FQuotas (QGet FQuotas (λ qs : gmap string TenantQuota,
  QSet FQuotas (delete id qs) (QDrop FQuotas (Done (qs !! id))))).
Definition get_usage_code (id : string) : qprog TenantUsage :=
  LockRead FUsage (QGet FUsage (λ us : gmap string TenantUsage,
  QDrop FUsage (Done (unwrap_or usage_default (us !! id))))).
Definition list_quotas_code : qprog (list TenantQuota) :=
  LockRead FQuotas (QGet FQuotas (λ qs : gmap string TenantQuota,
  QDrop FQuotas (Done ((hash_iter qs).*2)))).

Definition check_storage_code (id : string) (additional_bytes : Z) : qprog QuotaCheckResult :=
  LockRead FQuotas (QGet FQuotas (λ qs : gmap string TenantQuota,
  let quota := unwrap_or dq (qs !! id) in
  if negb (enabled quota) then QDrop FQuotas (Done TenantDisabled) else
  LockRead FUsage (QGet FUsage (λ us : gmap string TenantUsage,
  let tenant_usage := unwrap_or usage_default (us !! id) in
  let r := if usage_check_storage tenant_usage quota additional_bytes then Allowed
           else StorageLimitExceeded (storage_limit quota) (storage_used tenant_usage) additional_bytes in
  QDrop FUsage (QDrop FQuotas (Done r)))))).

Definition check_objects_code (id : string) : qprog QuotaCheckResult :=
  LockRead FQuotas (QGet FQuotas (λ qs : gmap string TenantQuota,
  let quota := unwrap_or dq (qs !! id) in
  if negb (enabled quota) then QDrop FQuotas (Done TenantDisabled) else
  LockRead FUsage (QGet FUsage (λ us : gmap string TenantUsage,
  let tenant_usage := unwrap_or usage_default (us !! id) in
  let r := if usage_check_objects tenant_usage quota 1 then Allowed
           else ObjectLimitExceeded (object_limit quota) (object_count tenant_usage) in
  QDrop FUsage (QDrop FQuotas (Done r)))))).

Definition check_and_record_request_code (now : Z) (id : string) : qprog QuotaCheckResult :=
  LockRead FQuotas (QGet FQuotas (λ qs : gmap string TenantQuota,
  let quota := unwrap_or dq (qs !! id) in
  if negb (enabled quota) then QDrop FQuotas (Done TenantDisabled) else
  LockWrite FUsage (QGet FUsage (λ us : gmap string TenantUsage,
  let '(u, ok) := check_rate now quota (unwrap_or usage_default (us !! id)) in
  if ok
  then QSet FUsage (<[id := record_request now u]> us) (QDrop FUsage (QDrop FQuotas (Done Allowed)))
  else QSet FUsage (<[id := u]> us) (QDrop FUsage (QDrop FQuotas (Done
         (RateLimitExceeded (rate_limit quota) (DEFAULT_RATE_WINDOW / 1000000000))))))))).

Definition record_storage_add_code (id : string) (bytes : Z) : qprog unit :=
  LockWrite FUsage (QGet FUsage (λ us : gmap string TenantUsage,
  QSet FUsage (<[id := add_objects 1 (add_storage bytes (unwrap_or usage_default (us !! id)))]> us)
    (QDrop FUsage (Done tt)))).
Definition record_storage_remove_code (id : string) (bytes : Z) : qprog unit :=
  LockWrite FUsage (QGet FUsage (λ us : gmap string TenantUsage,
  match us !! id with
  | Some u => QSet FUsage (<[id := remove_objects 1 (remove_storage bytes u)]> us) (QDrop FUsage (Done tt))
  | None => QDrop FUsage (Done tt)
  end)).

Definition quota_to_prometheus_code : qprog string :=
  LockRead FUsage (LockRead FQuotas (
  QGet FUsage (λ us : gmap string TenantUsage, QGet FQuotas (λ qs : gmap string TenantQuota,
  QDrop FQuotas (QDrop FUsage (Done (quota_to_prometheus (mkManager qs us dq)))))))).
End methods.

(** ** Calls *)
Inductive QuotaCall :=
  | CallSetQuota (q : TenantQuota) | CallGetQuota (id : string) | CallRemoveQuota (id : string)
  | CallGetUsage (id : string) | CallListQuotas
  | CallCheckStorage (id : string) (additional_bytes : Z) | CallCheckObjects (id : string)
  | CallCheckAndRecord (now : Z) (id : string)
  | CallRecordAdd (id : string) (bytes : Z) | CallRecordRemove (id : string) (bytes : Z)
  | CallToPrometheus.

Inductive QuotaReply :=
  | QRUnit (u : unit) | QRQuota (q : option TenantQuota) | QRUsage (u : TenantUsage)
  | QRQuotas (qs : list TenantQuota) | QRCheck (r : QuotaCheckResult) | QRText (s : string).

Section calls.
Context {HI : HashIter}.

Definition quota_reply {A} (f : A → QuotaReply) (p : qprog A) : qprog QuotaReply :=
  prog_bind p (λ a, Done (f a)).

Definition quota_call_code (dq : TenantQuota) (c : QuotaCall) : qprog QuotaReply :=
  match c with
  | CallSetQuota q => quota_reply QRUnit (set_quota_code q)
  | CallGetQuota id => quota_reply QRQuota (get_quota_code id)
  | CallRemoveQuota id => quota_reply QRQuota (remove_quota_code id)
  | CallGetUsage id => quota_reply QRUsage (get_usage_code id)
  | CallListQuotas => quota_reply QRQuotas list_quotas_code
  | CallCheckStorage id b => quota_reply QRCheck (check_storage_code dq id b)
  | CallCheckObjects id => quota_reply QRCheck (check_objects_code dq id)
  | CallCheckAndRecord now id => quota_reply QRCheck (check_and_record_request_code dq now id)
  | CallRecordAdd id b => quota_reply QRUnit (record_storage_add_code id b)
  | CallRecordRemove id b => quota_reply QRUnit (record_storage_remove_code id b)
  | CallToPrometheus => quota_reply QRText (quota_to_prometheus_code dq)
  end.

Definition quota_call (c : QuotaCall) (m : QuotaManager) : QuotaManager * QuotaReply :=
  match c with
  | CallSetQuota q => (set_quota q m, QRUnit tt)
  | CallGetQuota id => (m, QRQuota (get_quota id m))
  | CallRemoveQuota id => let '(m', q) := remove_quota id m in (m', QRQuota q)
  | CallGetUsage id => (m, QRUsage (get_usage id m))
  | CallListQuotas => (m, QRQuotas (list_quotas m))
  | CallCheckStorage id b => (m, QRCheck (check_storage id b m))
  | CallCheckObjects id => (m, QRCheck (check_objects id m))
  | CallCheckAndRecord now id => let '(m', r) := check_and_record_request now id m in (m', QRCheck r)
  | CallRecordAdd id b => (record_storage_add id b m, QRUnit tt)
  | CallRecordRemove id b => (record_storage_remove id b m, QRUnit tt)
  | CallToPrometheus => (m, QRText (quota_to_prometheus m))
  end.

Lemma exec_quota_call c m : exec (quota_call_code (default_quota m) c) m = quota_call c m.
Proof.
  destruct m as [qs us dq]. destruct c; try reflexivity; cbn.
  - unfold check_storage, quota_of. cbn. by destruct (negb _).
  - unfold check_objects, quota_of. cbn. by destruct (negb _).
  - unfold check_and_record_request, quota_of, get_usage. cbn. destruct (negb _); [done|].
    cbn. by destruct (check_rate _ _ _) as [u [|]].
  - unfold record_storage_remove. cbn. by destruct (us !! id).
Qed.

(** ** Order

    [quotas] before [usage], for all methods but [to_prometheus]. *)
Definition quota_rank (f : QuotaField) : nat := match f with FQuotas => 0 | FUsage => 1 end.

(** Where readers do not wait for waiting writers, a request to read [quotas]
    waits only for one of the two methods that write them, which need nothing
    else. *)
Definition readers_first_rank : ranking (GS := quota_guarded) :=
  mkRanking (GS := quota_guarded)
    (λ (f : QuotaField) m, match f, m with FQuotas, Exclusive => 0 | FUsage, _ => 1 | FQuotas, Shared => 2 end)%nat
    (λ (f : QuotaField) m, match f, m with FQuotas, Shared => 0 | FUsage, _ => 1 | FQuotas, Exclusive => 2 end)%nat.

Definition in_quota_order (c : QuotaCall) : bool := match c with CallToPrometheus => false | _ => true end.

Ltac quota_order := unfold quota_call_code, quota_reply;
  repeat (cbn -[usage_check_storage usage_check_objects check_rate elem_of fmap release];
          first [order_rule | match goal with
            | |- context [match ?o with Some _ => _ | None => _ end] => destruct o
            | |- context [check_rate ?a ?b ?c] => destruct (check_rate a b c)
            end]).

Lemma quota_call_ordered dq c :
  in_quota_order c = true →
  ordered (GS := quota_guarded) (lock_rank (GS := quota_guarded) quota_rank) [] (quota_call_code dq c) [].
Proof. destruct c; intros Hc; try discriminate Hc; clear Hc; quota_order. Qed.

Lemma quota_call_ordered_readers dq c :
  ordered (GS := quota_guarded) readers_first_rank [] (quota_call_code dq c) [].
Proof. destruct c; quota_order. Qed.
(** ** Properties *)

(** C15. Quota calls all return: any number of threads that run any methods of
    the manager finish, however they are scheduled, provided that readers do not
    wait behind waiting writers or that nobody renders the metrics. *)
Theorem quota_calls_return writers_first dq cs m :
  writers_first = false ∨ Forall (λ c, in_quota_order c = true) cs →
  sn (pool_step writers_first) (start (map (quota_call_code dq) cs) m) ∧
  ∀ c, rtc (pool_step writers_first) (start (map (quota_call_code dq) cs) m) c →
    nf (pool_step writers_first) c → Forall finished c.1.
Proof.
  intros [->|HF].
  - apply (ordered_complete (GS := quota_guarded) false readers_first_rank).
    + split; [intros [] []; simpl; lia|]. split; [intros []; simpl; lia|done].
    + apply Forall_map, Forall_forall. intros c _. apply quota_call_ordered_readers.
  - apply (ordered_complete (GS := quota_guarded) _ (lock_rank (GS := quota_guarded) quota_rank)); [apply lock_rank_ok|].
    apply Forall_map. eapply Forall_impl; [exact HF|]. intros c. apply quota_call_ordered.
Qed.

(** Rendering the metrics can block the quota manager for ever, where
    readers wait behind waiting writers: a request holds [quotas] and waits for
    [usage], [to_prometheus] holds [usage] and waits for [quotas] behind a
    [set_quota] that waits for the request. *)
Theorem quota_scrape_deadlock m now id q :
  enabled (quota_of id m) = true →
  ∃ c, rtc (pool_step true)
         (start (map (quota_call_code (default_quota m))
            [CallCheckAndRecord now id; CallToPrometheus; CallSetQuota q]) m) c ∧
       deadlock true c.
Proof.
  intros He. destruct m as [qs us dq]. unfold quota_of in He. simpl in He.
  eexists. split.
  { apply (run_schedule_rtc true [0; 0; 1]%nat). cbn -[unwrap_or enabled]. rewrite He. reflexivity. }
  split; [|intros [[a Ha] _]%Forall_cons; discriminate Ha].
  intros [c [j Hj]]. destruct j as [|[|[|j]]]; discriminate Hj.
Qed.
End calls.

(** ** Witnesses *)
#[local] Existing Instance sorted_iter.

Lemma quota_calls_return_witness :
  sn (pool_step false)
    (start (map (quota_call_code (quota_new 0 "d")) [CallCheckAndRecord 5 "t"; CallToPrometheus]) (manager_new 0)).
Proof. apply (quota_calls_return false). left. reflexivity. Defined.

Lemma quota_scrape_deadlock_witness :
  ∃ c, rtc (pool_step true)
         (start (map (quota_call_code (default_quota (manager_new 0)))
            [CallCheckAndRecord 5 "t"; CallToPrometheus; CallSetQuota (quota_new 0 "u")]) (manager_new 0)) c ∧
       deadlock true c.
Proof. apply (quota_scrape_deadlock (manager_new 0)). reflexivity. Defined.
