(* ===== verification/Storage.v ===== *)
(** * Storage backends

    [src/common/storage.rs]: the trait [KVStore], its in-memory implementation
    and the [Storage] wrapper that the HTTP handlers use.  The trait is a
    class; [KVStoreLaws] states what a backend promises, so that the handlers
    can be verified for every backend.  The RocksDB and Sled backends (optional
    features) forward to their crates and unwrap the results: they panic where
    the database reports an error. *)

From Stdlib Require Import ZArith.
From stdpp Require Import base option list gmap strings.
From S2P Require Import Prelude Bytes Text.

(** The methods take [&self]; the state they leave is made explicit. *)
Class KVStore (S : Type) := {
  kv_get : string → S → option bytes;
  kv_put : string → bytes → S → S;
  kv_delete : string → S → S;
}.

(** A backend is a map. *)
Class KVStoreLaws (S : Type) `{!KVStore S} := {
  kv_view : S → gmap string bytes;
  kv_get_view key s : kv_get key s = kv_view s !! key;
  kv_put_view key value s : kv_view (kv_put key value s) = <[key := value]> (kv_view s);
  kv_delete_view key s : kv_view (kv_delete key s) = delete key (kv_view s);
}.

(** ** The in-memory store *)
Record MemStore := mkMem { mem_map : gmap string bytes }.

Definition mem_new : MemStore := mkMem ∅.
Definition mem_get (key : string) (s : MemStore) : option bytes := mem_map s !! key.
Definition mem_put (key : string) (value : bytes) (s : MemStore) : MemStore :=
  mkMem (<[key := value]> (mem_map s)).
Definition mem_delete (key : string) (s : MemStore) : MemStore := mkMem (delete key (mem_map s)).

#[export] Instance mem_kvstore : KVStore MemStore :=
  {| kv_get := mem_get; kv_put := mem_put; kv_delete := mem_delete |}.
#[export] Instance mem_kvstore_laws : KVStoreLaws MemStore.
Proof. by refine {| kv_view := mem_map |}. Defined.

(** ** [Storage], whose backend is chosen when it is made *)
Record Storage := mkStorage {
  backend_type : Type;
  backend_ops : KVStore backend_type;
  backend : backend_type;
}.

Definition storage_new_memory : Storage := mkStorage MemStore mem_kvstore mem_new.
Definition storage_get (key : string) (s : Storage) : option bytes :=
  @kv_get _ (backend_ops s) key (backend s).
Definition storage_put (key : string) (value : bytes) (s : Storage) : Storage :=
  mkStorage _ (backend_ops s) (@kv_put _ (backend_ops s) key value (backend s)).
Definition storage_delete (key : string) (s : Storage) : Storage :=
  mkStorage _ (backend_ops s) (@kv_delete _ (backend_ops s) key (backend s)).

(** ** RocksDB and Sled

    An embedded database: a map from byte strings, every operation of which can
    fail.  [RocksStore] and [SledStore] each hold one. *)
Class EmbeddedDb := {
  EDB : Type;
  edb_view : EDB → gmap (list Byte.byte) bytes;
  edb_open : string → result string EDB;
  edb_get : EDB → bytes → result string (option bytes);
  edb_insert : EDB → bytes → bytes → result string EDB;
  edb_remove : EDB → bytes → result string EDB;
  edb_get_view db k o : edb_get db k = Ok o → o = edb_view db !! k;
  edb_insert_view db k v db' : edb_insert db k v = Ok db' → edb_view db' = <[k := v]> (edb_view db);
  edb_remove_view db k db' : edb_remove db k = Ok db' → edb_view db' = delete k (edb_view db);
}.

(** [r.unwrap()] *)
Definition unwrap {E A} (r : result E A) : may_panic A :=
  match r with Ok a => Returns a | Err _ => Panics end.

Section embedded.
Context {ED : EmbeddedDb}.

Definition RocksStore_new (path : string) : may_panic EDB := unwrap (edb_open path).
Definition RocksStore_get (key : string) (db : EDB) : may_panic (option bytes) := unwrap (edb_get db (as_bytes key)).
Definition RocksStore_put (key : string) (value : bytes) (db : EDB) : may_panic EDB :=
  unwrap (edb_insert db (as_bytes key) value).
Definition RocksStore_delete (key : string) (db : EDB) : may_panic EDB := unwrap (edb_remove db (as_bytes key)).

Definition SledStore_new (path : string) : may_panic EDB := unwrap (edb_open path).
Definition SledStore_get (key : string) (db : EDB) : may_panic (option bytes) :=
  mp_bind (unwrap (edb_get db (as_bytes key))) (λ o, Returns ((λ ivec, ivec) <$> o)).
Definition SledStore_put (key : string) (value : bytes) (db : EDB) : may_panic EDB :=
  unwrap (edb_insert db (as_bytes key) value).
Definition SledStore_delete (key : string) (db : EDB) : may_panic EDB := unwrap (edb_remove db (as_bytes key)).

(** ** A run of operations, on a persistent backend and on the in-memory one *)
Inductive KvOp := KGet (key : string) | KPut (key : string) (value : bytes) | KDelete (key : string).

Definition rocks_op (op : KvOp) (db : EDB) : may_panic (EDB * option bytes) :=
  match op with
  | KGet k => mp_bind (RocksStore_get k db) (λ o, Returns (db, o))
  | KPut k v => mp_bind (RocksStore_put k v db) (λ db, Returns (db, None))
  | KDelete k => mp_bind (RocksStore_delete k db) (λ db, Returns (db, None))
  end.
Definition sled_op (op : KvOp) (db : EDB) : may_panic (EDB * option bytes) :=
  match op with
  | KGet k => mp_bind (SledStore_get k db) (λ o, Returns (db, o))
  | KPut k v => mp_bind (SledStore_put k v db) (λ db, Returns (db, None))
  | KDelete k => mp_bind (SledStore_delete k db) (λ db, Returns (db, None))
  end.
(** [Storage] over one of these: its operations go to the backend it was made
    with, and panic when that does. *)
Record DbStorage := mkDbStorage {
  db_backend_op : KvOp → EDB → may_panic (EDB * option bytes);
  db_backend : EDB;
}.
Definition storage_new_rocks (path : string) : may_panic DbStorage :=
  mp_bind (RocksStore_new path) (λ db, Returns (mkDbStorage rocks_op db)).
Definition storage_new_sled (path : string) : may_panic DbStorage :=
  mp_bind (SledStore_new path) (λ db, Returns (mkDbStorage sled_op db)).
Definition db_storage_op (op : KvOp) (s : DbStorage) : may_panic (DbStorage * option bytes) :=
  mp_bind (db_backend_op s op (db_backend s)) (λ '(db, o), Returns (mkDbStorage (db_backend_op s) db, o)).
Definition kv_op {S} `{!KVStore S} (op : KvOp) (s : S) : S * option bytes :=
  match op with
  | KGet k => (s, kv_get k s)
  | KPut k v => (kv_put k v s, None)
  | KDelete k => (kv_delete k s, None)
  end.
Fixpoint kv_run {S} `{!KVStore S} (ops : list KvOp) (s : S) : S * list (option bytes) :=
  match ops with
  | [] => (s, [])
  | op :: ops => let '(s, o) := kv_op op s in let '(s, os) := kv_run ops s in (s, o :: os)
  end.
Fixpoint db_run (step : KvOp → EDB → may_panic (EDB * option bytes)) (ops : list KvOp) (db : EDB)
    : may_panic (EDB * list (option bytes)) :=
  match ops with
  | [] => Returns (db, [])
  | op :: ops =>
      mp_bind (step op db) (λ '(db, o), mp_bind (db_run step ops db) (λ '(db, os), Returns (db, o :: os)))
  end.
Fixpoint db_storage_run (ops : list KvOp) (s : DbStorage) : may_panic (EDB * list (option bytes)) :=
  match ops with
  | [] => Returns (db_backend s, [])
  | op :: ops =>
      mp_bind (db_storage_op op s) (λ '(s, o), mp_bind (db_storage_run ops s) (λ '(db, os), Returns (db, o :: os)))
  end.

(** The database and the map have the same content. *)
Definition holds {S} `{!KVStore S, !KVStoreLaws S} (db : EDB) (s : S) : Prop :=
  ∀ k, edb_view db !! as_bytes k = kv_view s !! k.

Lemma holds_put {S} `{!KVStore S, !KVStoreLaws S} db db' (s : S) k v :
  holds db s → edb_view db' = <[as_bytes k := v]> (edb_view db) → holds db' (kv_put k v s).
Proof.
  intros H E q. rewrite E, kv_put_view. destruct (decide (q = k)) as [->|Hne].
  - by rewrite !lookup_insert_eq.
  - rewrite !lookup_insert_ne; [apply H|done|]. intros Hq. by apply as_bytes_inj in Hq.
Qed.
Lemma holds_delete {S} `{!KVStore S, !KVStoreLaws S} db db' (s : S) k :
  holds db s → edb_view db' = delete (as_bytes k) (edb_view db) → holds db' (kv_delete k s).
Proof.
  intros H E q. rewrite E, kv_delete_view. destruct (decide (q = k)) as [->|Hne].
  - by rewrite !lookup_delete_eq.
  - rewrite !lookup_delete_ne; [apply H|done|]. intros Hq. by apply as_bytes_inj in Hq.
Qed.

Lemma rocks_op_simulates {S} `{!KVStore S, !KVStoreLaws S} op db (s : S) db' o :
  holds db s → rocks_op op db = Returns (db', o) → ∃ s', kv_op op s = (s', o) ∧ holds db' s'.
Proof.
  intros H E. destruct op as [k|k v|k]; cbn in E.
  - unfold RocksStore_get, unwrap in E. destruct (edb_get db (as_bytes k)) as [o'|] eqn:G; [|done].
    cbn in E. injection E as <- <-. exists s. split; [|done]. cbn.
    by rewrite (edb_get_view _ _ _ G), kv_get_view, (H k).
  - unfold RocksStore_put, unwrap in E. destruct (edb_insert db (as_bytes k) v) as [d|] eqn:G; [|done].
    cbn in E. injection E as <- <-. eexists. split; [done|].
    by apply (holds_put db d s k v H), (edb_insert_view db).
  - unfold RocksStore_delete, unwrap in E. destruct (edb_remove db (as_bytes k)) as [d|] eqn:G; [|done].
    cbn in E. injection E as <- <-. eexists. split; [done|].
    by apply (holds_delete db d s k H), (edb_remove_view db).
Qed.

Lemma sled_op_rocks op db : sled_op op db = rocks_op op db.
Proof.
  destruct op; try done. cbn. unfold SledStore_get, RocksStore_get.
  destruct (unwrap _) as [[?|]|]; done.
Qed.

Lemma db_run_sled ops db : db_run rocks_op ops db = db_run sled_op ops db.
Proof.
  revert db. induction ops as [|op ops IH]; intros db; [done|]. cbn [db_run].
  rewrite sled_op_rocks. destruct (rocks_op op db) as [[d o]|]; [|done]. cbn. by rewrite IH.
Qed.

(** The persistent backends are maps: as long as no operation panics, a run
    of gets, puts and deletes on RocksDB or Sled answers what any lawful backend
    with the same content answers, and they end with the same content. *)
Theorem persistent_backend_refines {S} `{!KVStore S, !KVStoreLaws S} ops db (s : S) db' outs :
  holds db s →
  db_run rocks_op ops db = Returns (db', outs) ∨ db_run sled_op ops db = Returns (db', outs) →
  ∃ s', kv_run ops s = (s', outs) ∧ holds db' s'.
Proof.
  intros H E.
  assert (db_run rocks_op ops db = Returns (db', outs)) as E' by (rewrite <- db_run_sled in E; by destruct E). clear E.
  revert db s db' outs H E'. induction ops as [|op ops IH]; intros db s db' outs H E; cbn in E.
  { injection E as <- <-. by exists s. }
  destruct (rocks_op op db) as [[d o]|] eqn:E1; [|done]. cbn in E.
  destruct (db_run rocks_op ops d) as [[d2 os]|] eqn:E2; [|done]. cbn in E. injection E as <- <-.
  destruct (rocks_op_simulates op db s d o H E1) as (s1 & K1 & H1).
  destruct (IH d s1 d2 os H1 E2) as (s2 & K2 & H2). exists s2. split; [|done]. cbn. by rewrite K1, K2.
Qed.

(** [Storage] does what its backend does, so that over the same database its
    two persistent backends cannot be told apart. *)
Lemma db_storage_run_backend step ops db : db_storage_run ops (mkDbStorage step db) = db_run step ops db.
Proof.
  revert db. induction ops as [|op ops IH]; intros db; [done|]. cbn [db_storage_run db_run].
  unfold db_storage_op. cbn [db_backend_op db_backend]. destruct (step op db) as [[d o]|]; [|done]. cbn [mp_bind].
  by rewrite IH.
Qed.
Lemma storage_backends_agree path ops :
  mp_bind (storage_new_rocks path) (db_storage_run ops) = mp_bind (storage_new_sled path) (db_storage_run ops).
Proof.
  unfold storage_new_rocks, storage_new_sled, RocksStore_new, SledStore_new.
  destruct (unwrap (edb_open path)) as [db|]; [|done]. cbn. rewrite !db_storage_run_backend. apply db_run_sled.
Qed.
End embedded.

(** ** Witness *)
#[local] Instance map_edb : EmbeddedDb.
Proof.
  refine {| EDB := gmap (list Byte.byte) bytes; edb_view db := db; edb_open _ := Ok ∅;
    edb_get db k := Ok (db !! k); edb_insert db k v := Ok (<[k := v]> db); edb_remove db k := Ok (delete k db) |};
    congruence.
Defined.
Lemma persistent_backend_refines_witness :
  ∃ s', kv_run [KPut "k" [Byte.x01]; KGet "k"; KDelete "k"; KGet "k"] mem_new =
    (s', [None; Some [Byte.x01]; None; None]).
Proof.
  destruct (persistent_backend_refines [KPut "k" [Byte.x01]; KGet "k"; KDelete "k"; KGet "k"]
    (∅ : EDB) mem_new ∅ [None; Some [Byte.x01]; None; None]) as (s' & H & _).
  - intros k. cbn. by rewrite !lookup_empty.
  - left. reflexivity.
  - by exists s'.
Defined.
