(* ===== verification/AuditLog.v ===== *)
(** * Audit log and change events

    The entries of the audit log ([src/common/audit.rs]) and the events that the
    HTTP handlers send to watchers ([src/coordinator/http.rs]).  For the handlers
    the log and the channel are lists that grow at the end; [AuditLogger] is what
    becomes of the entries, lines of JSON in a file and on the standard output. *)

From Stdlib Require Import ZArith.
From Stdlib.Strings Require Import Byte.
From stdpp Require Import base option list gmap strings.
From S2P Require Import Prelude Bytes Text Errors Fs.

Inductive AuditEventType :=
  | AuthSuccess | AuthFailure | ApiKeyCreated | ApiKeyRevoked | ApiKeyDeleted | RoleChanged
  | DataPut | DataDelete | ConfigChanged | QuotaExceeded | System.

(** [meta] is text of JSON; every call passes [None]. *)
Record AuditEntry := mkAudit {
  ae_timestamp : Z;
  ae_event : AuditEventType;
  ae_actor : string;
  ae_target : option string;
  ae_message : string;
  ae_meta : option string;
}.

Definition log_event (now : Z) (event : AuditEventType) (actor : string) (target : option string)
    (message : string) (meta : option string) (audit : list AuditEntry) : list AuditEntry :=
  audit ++ [mkAudit now event actor target message meta].

Record KeyChangeEvent := mkEvent {
  ev_event : string; ev_key : string; ev_tenant : option string; ev_timestamp : Z }.

(** [WATCH_CHANNEL.send] *)
Definition send_event (e : KeyChangeEvent) (events : list KeyChangeEvent) : list KeyChangeEvent :=
  events ++ [e].

(** ** The logger *)
Record AuditLogger := mkLogger {
  (** The file, if it could be opened. *)
  al_file : option path;
  al_to_stdout : bool;
}.

(** [can_open]: whether the file can be opened for appending. *)
Definition AuditLogger_new (can_open : bool) (p : path) (to_stdout : bool) (d : Disk) : Disk * AuditLogger :=
  if can_open then (open_create p d, mkLogger (Some p) to_stdout) else (d, mkLogger None to_stdout).

(** [serde_json::to_string], [None] for an error. *)
Section logger.
Context (to_json : AuditEntry → option string).

Definition audit_line (entry : AuditEntry) : string := unwrap_or "{}"%string (to_json entry).
Definition append_file (p : path) (data : bytes) (d : Disk) : Disk :=
  match file_at d p with Some c => set_content p (c ++ data) d | None => d end.

(** The disk and the lines on the standard output. *)
Definition audit_log (l : AuditLogger) (entry : AuditEntry) (w : Disk * list string) : Disk * list string :=
  let '(d, out) := w in
  let line := audit_line entry in
  let d := match al_file l with Some p => append_file p (as_bytes line ++ [x0a]) d | None => d end in
  let out := if al_to_stdout l then out ++ ["[AUDIT] " +:+ line] else out in
  (d, out).
Definition audit_log_event (l : AuditLogger) (now : Z) (event : AuditEventType) (actor : string)
    (target : option string) (message : string) (meta : option string) (w : Disk * list string)
    : Disk * list string :=
  audit_log l (mkAudit now event actor target message meta) w.

Definition audit_all (l : AuditLogger) (entries : list AuditEntry) (w : Disk * list string)
    : Disk * list string :=
  fold_left (λ w e, audit_log l e w) entries w.

Lemma audit_all_file l p entries d out c :
  al_file l = Some p → file_at d p = Some c →
  let '(d', out') := audit_all l entries (d, out) in
  file_at d' p = Some (c ++ concat (map (λ e, as_bytes (audit_line e) ++ [x0a]) entries)) ∧
  (∀ q, q ≠ p → files d' !! q = files d !! q) ∧
  out' = out ++ (if al_to_stdout l then map (λ e, "[AUDIT] " +:+ audit_line e) entries else []).
Proof.
  intros Hp. revert d out c. induction entries as [|e es IH]; intros d out c Hc.
  { cbn. rewrite app_nil_r. destruct (al_to_stdout l); by rewrite app_nil_r. }
  cbn [audit_all fold_left audit_log]. rewrite Hp. unfold append_file. rewrite Hc.
  set (d1 := set_content p _ d).
  assert (file_at d1 p = Some (c ++ as_bytes (audit_line e) ++ [x0a])) as H1
    by (unfold file_at, d1, set_content; cbn; by rewrite lookup_insert_eq).
  specialize (IH d1 (if al_to_stdout l then out ++ ["[AUDIT] " +:+ audit_line e] else out) _ H1).
  unfold audit_all in IH. destruct (fold_left _ es _) as [d' out']. destruct IH as (I1 & I2 & I3).
  split; [rewrite I1; cbn [map concat]; by rewrite !app_assoc|]. split.
  - intros q Hq. rewrite I2 by done. unfold d1, set_content. cbn. by rewrite lookup_insert_ne.
  - rewrite I3. destruct (al_to_stdout l); [|done]. cbn [map]. by rewrite <- app_assoc.
Qed.

(** The audit file is append-only and complete: a logger that could open its
    file keeps what was in it and adds one line per entry, in order, and changes
    no other file; with [to_stdout] the same lines are printed. *)
Theorem audit_file_complete p to_stdout entries d out :
  let '(d1, l) := AuditLogger_new true p to_stdout d in
  let '(d', out') := audit_all l entries (d1, out) in
  file_at d' p = Some (unwrap_or [] (file_at d p) ++
                       concat (map (λ e, as_bytes (audit_line e) ++ [x0a]) entries)) ∧
  (∀ q, q ≠ p → files d' !! q = files d !! q) ∧
  out' = out ++ (if to_stdout then map (λ e, "[AUDIT] " +:+ audit_line e) entries else []).
Proof.
  cbn [AuditLogger_new].
  assert (file_at (open_create p d) p = Some (unwrap_or [] (file_at d p))) as H.
  { unfold open_create, file_at. destruct (files d !! p) as [f|] eqn:E; [by rewrite E|].
    unfold set_content. cbn. by rewrite lookup_insert_eq. }
  pose proof (audit_all_file (mkLogger (Some p) to_stdout) p entries _ out _ eq_refl H) as HA.
  destruct (audit_all _ _ _) as [d' out']. destruct HA as (H1 & H2 & H3). split; [done|]. split; [|done].
  intros q Hq. rewrite H2 by done. unfold open_create. destruct (files d !! p); [done|].
  unfold set_content. cbn. by rewrite lookup_insert_ne.
Qed.
End logger.
