(* ===== verification/Tracing.v ===== *)
(** * Request tracing and change notifications

    [src/common/tracing_middleware.rs]: the middlewares that give every request
    an identifier; and the two endpoints of [src/coordinator/http.rs] that
    forward change events to clients ([watch_sse], [watch_ws]).  What [tracing]
    prints is the list of the events; a request identifier made by [Uuid] is an
    argument. *)

From Stdlib Require Import ZArith Lia.
From stdpp Require Import base option list gmap strings.
From S2P Require Import Prelude Bytes Text Float64 RateLimit AuditLog.

Definition REQUEST_ID_HEADER : string := "x-request-id".

Record TracedRequest := mkTraced {
  tr_method : string;
  tr_path : string;
  (** The text of the headers that are visible ASCII ([to_str]), by lower case name. *)
  tr_headers : gmap string string;
}.

Inductive Level := LInfo | LWarn.
Record LogLine := mkLog {
  lg_level : Level; lg_message : string; lg_request_id : string; lg_method : string; lg_path : string;
  (** The address of the client, when the request starts; the status and the
      time in milliseconds when it ends. *)
  lg_client_ip : option string; lg_outcome : option (Z * Z);
}.

Definition is_success (status : Z) : bool := (200 <=? status) && (status <? 300).
Definition is_client_error (status : Z) : bool := (400 <=? status) && (status <? 500).
Definition as_millis (d : Z) : Z := d / 1000000.

(** The identifier of the request, or the fresh one. *)
Definition request_id_of (uuid : string) (r : TracedRequest) : string :=
  unwrap_or uuid (tr_headers r !! REQUEST_ID_HEADER).

Section tracing.
Context {St : Type} (next : TracedRequest → St → St * HttpResponse).

Definition request_tracing_middleware (uuid client_ip : string) (start finish : Z) (request : TracedRequest)
    (s : St) : St * HttpResponse * list LogLine :=
  let request_id := request_id_of uuid request in
  let log level message ip outcome :=
    mkLog level message request_id (tr_method request) (tr_path request) ip outcome in
  let started := log LInfo "Request started"%string (Some client_ip) None in
  let '(s, response) := next request s in
  let duration := duration_since finish start in
  let status := hr_status response in
  let response := insert_header REQUEST_ID_HEADER request_id response in
  let outcome := Some (status, as_millis duration) in
  let finished :=
    if is_success status then log LInfo "Request completed"%string None outcome
    else if is_client_error status then log LWarn "Client error"%string None outcome
    else log LWarn "Server error"%string None outcome in
  (s, response, [started; finished]).

Definition request_id_middleware (uuid : string) (request : TracedRequest) (s : St) : St * HttpResponse :=
  let request_id := request_id_of uuid request in
  let '(s, response) := next request s in
  (s, insert_header REQUEST_ID_HEADER request_id response).

(** Tracing is transparent: the tracing middleware runs the handler once,
    on the request as it came, answers what the handler answered with the
    request identifier added (the client's own if it sent one), exactly like the
    simple middleware, and logs one line before and one after, the second a
    warning unless the answer is a success. *)
Theorem tracing_transparent uuid ip start finish request s :
  let '(s', response, lines) := request_tracing_middleware uuid ip start finish request s in
  let inner := (next request s).2 in
  (s', response) = request_id_middleware uuid request s ∧
  s' = (next request s).1 ∧ hr_status response = hr_status inner ∧ hr_body response = hr_body inner ∧
  hr_headers response !! REQUEST_ID_HEADER =
    Some (match tr_headers request !! REQUEST_ID_HEADER with Some id => id | None => uuid end) ∧
  (∀ k, k ≠ REQUEST_ID_HEADER → hr_headers response !! k = hr_headers inner !! k) ∧
  Forall (λ l, hr_headers response !! REQUEST_ID_HEADER = Some (lg_request_id l)) lines ∧
  map lg_level lines = [LInfo; if is_success (hr_status inner) then LInfo else LWarn].
Proof.
  unfold request_tracing_middleware, request_id_middleware, request_id_of.
  destruct (next request s) as [s' inner]. cbn [fst snd insert_header hr_status hr_headers hr_body].
  rewrite lookup_insert_eq. split; [done|]. split; [done|]. split; [done|]. split; [done|].
  split; [by destruct (tr_headers request !! REQUEST_ID_HEADER)|].
  split; [intros k Hk; by rewrite lookup_insert_ne|].
  destruct (is_success (hr_status inner)); [|destruct (is_client_error (hr_status inner))];
    (split; [by repeat constructor|done]).
Qed.
End tracing.

(** ** Change notifications

    What [recv] of a subscription returns, call after call: the next event, or
    an error, which is not only the end of the channel: a subscriber that is
    more than 100 events behind is told so once, and would get events again. *)
Inductive RecvOutcome := Received (e : KeyChangeEvent) | Lagged (missed : Z) | Closed.
Definition CHANNEL_CAPACITY : Z := 100.

Section watch.
Context (event_json : KeyChangeEvent → string).

(** [while let Ok(event) = rx.recv().await]: the data of the SSE events. *)
Fixpoint watch_sse (recv : list RecvOutcome) : list string :=
  match recv with
  | Received e :: recv => event_json e :: watch_sse recv
  | _ => []
  end.

(** The same for a WebSocket, up to the first message that cannot be sent;
    [can_send] says which can. *)
Fixpoint handle_ws (recv : list RecvOutcome) (can_send : list bool) : list string :=
  match recv, can_send with
  | Received e :: recv, true :: can_send => event_json e :: handle_ws recv can_send
  | _, _ => []
  end.

Definition events_of (recv : list RecvOutcome) : list KeyChangeEvent :=
  omap (λ o, match o with Received e => Some e | _ => None end) recv.

(** A watcher sees every event, in order, until it first falls behind: the
    events before the first error of the channel are forwarded, and nothing
    after it, so that a subscriber that lagged once is cut off from later events
    although the channel still has them. *)
Theorem watch_until_lag es o later :
  match o with Received _ => False | _ => True end →
  watch_sse (map Received es ++ o :: later) = map event_json es ∧
  handle_ws (map Received es ++ o :: later) (repeat true (length es + length later)) = map event_json es.
Proof.
  intros Ho. split.
  - induction es as [|e es IH]; cbn; [by destruct o|by rewrite IH].
  - induction es as [|e es IH]; cbn; [by destruct o|by rewrite IH].
Qed.
End watch.

(** ** Witness *)
Definition ex_event (k : string) : KeyChangeEvent := mkEvent "put" k None 0.
Lemma watch_until_lag_witness :
  watch_sse ev_key [Received (ex_event "a"); Lagged 3; Received (ex_event "z")] = ["a"%string].
Proof.
  apply (watch_until_lag ev_key [ex_event "a"] (Lagged 3) [Received (ex_event "z")]). exact I.
Defined.
