(* ===== verification/Http.v ===== *)
(** * The HTTP handlers of the coordinator

    [src/coordinator/http.rs]: what each endpoint does to the storage, to the
    metadata, to the audit log and to the channel of change events, and what it
    answers.  Routing is in [Router], the dispatch of
    requests in [Api] and the delivery of events to subscribers in
    [Tracing].  The JSON encoding of bodies ([serde_json]) is not modelled: a body
    is the record it is made from, and an event that is published is appended
    to a list.  The storage is any backend with the [KVStore] interface. *)

From Stdlib Require Import ZArith Lia Sorted.
From Stdlib.Strings Require Import Byte.
From stdpp Require Import base option list gmap strings.
From S2P Require Import Prelude Bytes Text Errors External Utils Hash Metadata Placement Raft Storage AuditLog Metrics.

Record Response (B : Type) := mkResponse { status : Z; body : B }.
Arguments mkResponse {B} status body.
Arguments status {B} r.
Arguments body {B} r.

Definition HTTP_OK : Z := 200.
Definition HTTP_NOT_FOUND : Z := 404.
Definition HTTP_INTERNAL_SERVER_ERROR : Z := 500.
Definition HTTP_SERVICE_UNAVAILABLE : Z := 503.

Record KeyValueEntry := mkKV { kv_key : string; kv_value : string }.
Record Operation := mkOperation { op_op : string; op_key : string; op_value : option string }.
Record TransactionResult := mkTxResult {
  tx_op : string; tx_key : string; tx_success : bool; tx_error : option string }.
Record TransactionResponse := mkTxResponse {
  txr_results : list TransactionResult; txr_total : Z; txr_successful : Z }.
Record BatchResultResp := mkBatchResult {
  br_ok : bool; br_key : string; br_value : option string; br_error : option string }.
Record ReadyBody := mkReady {
  rd_ready : bool; rd_healthy_volumes : Z; rd_is_leader : bool; rd_reason : option string }.
Record AdminStatus := mkAdminStatus {
  as_role : string; as_is_leader : bool; as_nb_peers : Z; as_nb_volumes : Z;
  as_volume_ids : list string; as_nb_s3_objects : Z }.

Definition CARGO_PKG_VERSION : string := "0.7.0".
Record HealthBody := mkHealth {
  hb_status : string; hb_role : string; hb_is_leader : bool; hb_version : string }.
Record LiveBody := mkLive { lb_alive : bool; lb_version : string; lb_timestamp : Z }.

Section http.
Context {B3 : Blake3} {RK : Rocks} {BK : Bincode KeyMetadata} {BV : Bincode VolumeMetadata}.
Context {S : Type} `{!KVStore S}.
(** How the errors of other crates print, and the JSON text that [serde_json]
    makes of a key record. *)
Context (io_display : IoErrorKind → string) (status_display : Status → string).
Context (meta_to_json : KeyMetadata → string).

(** [format!("{}", e)] *)
Definition show_error (e : Error) : string := to_string io_display status_display e.

Record Coord := mkCoord {
  c_metadata : DB;
  c_placement : PlacementManager;
  c_raft : RaftNode;
  c_storage : S;
  c_events : list KeyChangeEvent;
  c_audit : list AuditEntry;
}.

Definition with_storage (s : S) (c : Coord) : Coord :=
  mkCoord (c_metadata c) (c_placement c) (c_raft c) s (c_events c) (c_audit c).
Definition with_metadata (db : DB) (c : Coord) : Coord :=
  mkCoord db (c_placement c) (c_raft c) (c_storage c) (c_events c) (c_audit c).
Definition publish (e : KeyChangeEvent) (c : Coord) : Coord :=
  mkCoord (c_metadata c) (c_placement c) (c_raft c) (c_storage c) (send_event e (c_events c)) (c_audit c).
(** [AUDIT_LOGGER.log_event(AuditEventType::System, actor, None, message, None)] *)
Definition log_system (now : Z) (actor message : string) (c : Coord) : Coord :=
  mkCoord (c_metadata c) (c_placement c) (c_raft c) (c_storage c) (c_events c)
    (log_event now System actor None message None (c_audit c)).

Definition ok_or_default {A} (d : A) (r : Result A) : A :=
  match r with Ok a => a | Err _ => d end.

(** [get_healthy_volumes().unwrap_or_default()] and the volumes selected, again
    with an error turned into no volume at all. *)
Definition healthy_volumes (c : Coord) : list VolumeMetadata :=
  ok_or_default [] (get_healthy_volumes (c_metadata c)).
Definition target_volumes (key : string) (c : Coord) : list string :=
  ok_or_default [] (select_volumes (c_placement c) key (healthy_volumes c)).

(** The prepare phase: every volume is taken to be prepared. *)
Definition prepare_phase (targets : list string) : bool :=
  forallb (λ _volume_id, let simulated_prepare := true in simulated_prepare) targets.

(** ** S3 objects *)
Definition s3_put_object (now : Z) (bucket key : string) (ttl_header : option string)
    (value : bytes) (c : Coord) : Coord * Response string :=
  let full_key := bucket +:+ "/" +:+ key in
  let ttl_secs := s ← ttl_header; parse_u64 s in
  let c := with_storage (kv_put full_key value (c_storage c)) c in
  let c := publish (mkEvent "put" full_key (Some "default"%string) now) c in
  let targets := target_volumes full_key c in
  if negb (prepare_phase targets)
  then (c, mkResponse HTTP_INTERNAL_SERVER_ERROR
             ("PUT S3 " +:+ bucket +:+ "/" +:+ key +:+ " failed: prepare phase error (2PC)"))
  else
    let ttl_info := match ttl_secs with Some t => ", TTL: " +:+ show_dec t +:+ "s" | None => ""%string end in
    (c, mkResponse HTTP_OK
          ("PUT S3 " +:+ bucket +:+ "/" +:+ key +:+ " committed via 2PC (" +:+
           show_dec (zlen value) +:+ " bytes" +:+ ttl_info +:+ ")")).

Definition s3_get_object (bucket key : string) (c : Coord) : Response bytes :=
  let full_key := bucket +:+ "/" +:+ key in
  match kv_get full_key (c_storage c) with
  | Some data => mkResponse HTTP_OK data
  | None => mkResponse HTTP_NOT_FOUND
              (as_bytes ("S3 object " +:+ bucket +:+ "/" +:+ key +:+ " not found"))
  end.

(** ** Import, export, transactions, search *)
Definition admin_import (now : Z) (entries : list KeyValueEntry) (c : Coord) : Coord * (Z * list string) :=
  let '(s, success_count) :=
    fold_left (λ '(s, n) e, (kv_put (kv_key e) (as_bytes (kv_value e)) s, n + 1))
      entries (c_storage c, 0) in
  let c := log_system now "admin" ("Imported " +:+ show_dec success_count +:+ " keys") (with_storage s c) in
  (c, (success_count, [])).

Definition admin_export (c : Coord) : Response (string + list (string * string)) :=
  match list_keys (c_metadata c) with
  | Err e => mkResponse HTTP_INTERNAL_SERVER_ERROR (inl ("list_keys error: " +:+ show_error e))
  | Ok keys =>
      mkResponse HTTP_OK (inr
        (omap (λ key, (λ value, (key, of_bytes (from_utf8_lossy value))) <$> kv_get key (c_storage c))
          keys))
  end.

(** One turn of the loop, on the storage, the results so far and
    [success_count]. *)
Definition transaction_op (st : S * list TransactionResult * Z) (op : Operation)
    : S * list TransactionResult * Z :=
  let '(s, results, success_count) := st in
  if bool_decide (op_op op = "put"%string) then
    match op_value op with
    | Some value =>
        (kv_put (op_key op) (as_bytes value) s,
         results ++ [mkTxResult (op_op op) (op_key op) true None], success_count + 1)
    | None =>
        (s, results ++ [mkTxResult (op_op op) (op_key op) false (Some "value required for put"%string)],
         success_count)
    end
  else if bool_decide (op_op op = "delete"%string) then
    (kv_delete (op_key op) s,
     results ++ [mkTxResult (op_op op) (op_key op) true None], success_count + 1)
  else
    (s, results ++ [mkTxResult (op_op op) (op_key op) false (Some "unknown operation"%string)],
     success_count).

Definition transaction_ops (now : Z) (operations : list Operation) (c : Coord)
    : Coord * TransactionResponse :=
  let total_operations := zlen operations in
  let '(s, results, success_count) := fold_left transaction_op operations (c_storage c, [], 0) in
  let c := log_system now "transaction"
             ("Executed " +:+ show_dec success_count +:+ " operations in transaction")
             (with_storage s c) in
  (c, mkTxResponse results total_operations success_count).

Definition search_keys (value : string) (c : Coord) : string + list string :=
  match list_keys (c_metadata c) with
  | Err e => inl ("list_keys error: " +:+ show_error e)
  | Ok keys =>
      inr (filter (λ key,
             match kv_get key (c_storage c) with
             | Some value_bytes => utf8_valid value_bytes && bytes_contains (as_bytes value) value_bytes
             | None => false
             end = true) keys)
  end.

(** ** Range and batch, on the metadata *)
Definition in_key_range (start stop k : string) : bool := str_leb start k && str_leb k stop.

Definition range_query (start stop : string) (include_values : option bool) (c : Coord)
    : Response (string + list string * option (list (option KeyMetadata))) :=
  match list_keys (c_metadata c) with
  | Err e => mkResponse HTTP_INTERNAL_SERVER_ERROR (inl ("list_keys error: " +:+ show_error e))
  | Ok keys =>
      let filtered := sort_strings (filter (λ k, in_key_range start stop k = true) keys) in
      mkResponse HTTP_OK (inr (filtered,
        if unwrap_or false include_values
        then Some (map (λ k, ok_or_default None (meta_get_key k (c_metadata c))) filtered)
        else None))
  end.

Definition batch_op (db : DB) (op : Operation) : DB * BatchResultResp :=
  let key := op_key op in
  if bool_decide (op_op op = "put"%string) then
    match op_value op with
    | Some val =>
        let meta := mkKeyMetadata key [] (str_len val) "" 0 0 Active in
        match meta_put_key meta db with
        | Ok db => (db, mkBatchResult true key None None)
        | Err e => (db, mkBatchResult false key None (Some (show_error e)))
        end
    | None => (db, mkBatchResult false key None (Some "Missing value for put"%string))
    end
  else if bool_decide (op_op op = "get"%string) then
    match meta_get_key key db with
    | Ok (Some meta) => (db, mkBatchResult true key (Some (meta_to_json meta)) None)
    | Ok None => (db, mkBatchResult false key None (Some "Not found"%string))
    | Err e => (db, mkBatchResult false key None (Some (show_error e)))
    end
  else if bool_decide (op_op op = "delete"%string) then
    match meta_delete_key key db with
    | Ok db => (db, mkBatchResult true key None None)
    | Err e => (db, mkBatchResult false key None (Some (show_error e)))
    end
  else (db, mkBatchResult false key None (Some "Unknown op"%string)).

Fixpoint batch_loop (ops : list Operation) (db : DB) : DB * list BatchResultResp :=
  match ops with
  | [] => (db, [])
  | op :: ops =>
      let '(db, r) := batch_op db op in
      let '(db, rs) := batch_loop ops db in (db, r :: rs)
  end.

Definition batch_ops (ops : list Operation) (c : Coord) : Coord * list BatchResultResp :=
  let '(db, results) := batch_loop ops (c_metadata c) in (with_metadata db c, results).

(** ** Keys *)
Definition http_put_key (key : string) (value : bytes) (c : Coord) : Coord * Response string :=
  let targets := target_volumes key c in
  if negb (prepare_phase targets)
  then (c, mkResponse HTTP_INTERNAL_SERVER_ERROR ("PUT " +:+ key +:+ " failed: prepare phase error (2PC)"))
  else (c, mkResponse HTTP_OK ("PUT " +:+ key +:+ " committed via 2PC")).

Definition http_get_key (key : string) (c : Coord) : Response string :=
  mkResponse HTTP_OK ("Value for key " +:+ key +:+ " (fetched from volume)").

Definition http_delete_key (key : string) (c : Coord) : Coord * Response string :=
  (c, mkResponse HTTP_OK ("DELETE " +:+ key +:+ " succeeded")).

(** ** Health *)
Definition health_ready (c : Coord) : Response ReadyBody :=
  let volumes := healthy_volumes c in
  let has_leader := is_leader (c_raft c) || negb (bool_decide (peers (c_raft c) = [])) in
  if negb (bool_decide (volumes = [])) && has_leader
  then mkResponse HTTP_OK (mkReady true (zlen volumes) (is_leader (c_raft c)) None)
  else mkResponse HTTP_SERVICE_UNAVAILABLE
         (mkReady false (zlen volumes) (is_leader (c_raft c))
            (Some (if bool_decide (volumes = []) then "No healthy volumes"%string else "No Raft leader"%string))).

Definition admin_status (c : Coord) : AdminStatus :=
  let volumes := healthy_volumes c in
  mkAdminStatus (if is_leader (c_raft c) then "Leader" else "Follower")%string (is_leader (c_raft c))
    (zlen (peers (c_raft c))) (zlen volumes) (map vm_volume_id volumes) 0.

(** ** Status and metrics *)
Definition role_name (c : Coord) : string := if is_leader (c_raft c) then "Leader" else "Follower".
Definition health (c : Coord) : HealthBody :=
  mkHealth "healthy" (role_name c) (is_leader (c_raft c)) CARGO_PKG_VERSION.
Definition health_live (now_s : Z) : Response LiveBody := mkResponse HTTP_OK (mkLive true CARGO_PKG_VERSION now_s).

(** [volumes.iter().map(|v| v.total_keys).sum()] *)
Definition sum_keys (volumes : list VolumeMetadata) : Z :=
  foldl (λ n v, add64 n (vm_total_keys v)) 0 volumes.
Definition volume_sample (name : string) (v : VolumeMetadata) (n : Z) : string :=
  line (name +:+ " {volume_id=" +:+ quoted (vm_volume_id v) +:+ "} " +:+ show_dec n).
Definition volume_lines (v : VolumeMetadata) : string :=
  volume_sample "minikv_volume_bytes" v (vm_total_bytes v) +:+
  volume_sample "minikv_volume_free_bytes" v (vm_free_bytes v) +:+
  volume_sample "minikv_volume_total_keys" v (vm_total_keys v).
Definition metrics `{HashIter} (now : Z) (registry : MetricsRegistry) (c : Coord) : Response string :=
  let volumes := healthy_volumes c in
  let role := if is_leader (c_raft c) then "leader"%string else "follower"%string in
  mkResponse HTTP_OK
    (sample "minikv_total_keys {}" (sum_keys volumes) +:+
     sample "minikv_healthy_volumes {}" (zlen volumes) +:+
     concat_map volume_lines volumes +:+
     line ("minikv_raft_role {} " +:+ quoted role) +:+
     to_prometheus now registry +:+
     sample "minikv_s3_objects_total {}" 0 +:+
     sample "minikv_s3_objects_with_ttl {}" 0).

(** ** Specification of transactions and batches *)
Definition tx_valid (op : Operation) : bool :=
  (bool_decide (op_op op = "put"%string) && bool_decide (is_Some (op_value op))) ||
  bool_decide (op_op op = "delete"%string).

Definition tx_apply (m : gmap string bytes) (op : Operation) : gmap string bytes :=
  if bool_decide (op_op op = "put"%string)
  then <[op_key op := as_bytes (unwrap_or ""%string (op_value op))]> m
  else delete (op_key op) m.

(** What a batch operation may answer on a map of key records, and the map it
    leaves: an operation that is not [ok] leaves the map as it was. *)
Inductive batch_step (ks : gmap string KeyMetadata) :
    Operation → BatchResultResp → gmap string KeyMetadata → Prop :=
  | batch_put key v :
      batch_step ks (mkOperation "put" key (Some v)) (mkBatchResult true key None None)
        (<[key := mkKeyMetadata key [] (str_len v) "" 0 0 Active]> ks)
  | batch_get_found key v m :
      ks !! key = Some m →
      batch_step ks (mkOperation "get" key v) (mkBatchResult true key (Some (meta_to_json m)) None) ks
  | batch_get_missing key v :
      ks !! key = None →
      batch_step ks (mkOperation "get" key v)
        (mkBatchResult false key None (Some "Not found"%string)) ks
  | batch_delete key v :
      batch_step ks (mkOperation "delete" key v) (mkBatchResult true key None None) (delete key ks)
  | batch_put_no_value key :
      batch_step ks (mkOperation "put" key None)
        (mkBatchResult false key None (Some "Missing value for put"%string)) ks
  | batch_unknown o key v :
      o ∉ ["put"; "get"; "delete"]%string →
      batch_step ks (mkOperation o key v)
        (mkBatchResult false key None (Some "Unknown op"%string)) ks
  | batch_store_error o key v e :
      o ∈ ["put"; "get"; "delete"]%string →
      batch_step ks (mkOperation o key v) (mkBatchResult false key None (Some (show_error e))) ks.

Inductive batch_run : gmap string KeyMetadata → list Operation → list BatchResultResp →
    gmap string KeyMetadata → Prop :=
  | batch_run_nil ks : batch_run ks [] [] ks
  | batch_run_cons ks op r ks1 ops rs ks2 :
      batch_step ks op r ks1 → batch_run ks1 ops rs ks2 →
      batch_run ks (op :: ops) (r :: rs) ks2.

(** ** Lemmas *)
Context `{!KVStoreLaws S}.

Lemma transaction_op_spec st op :
  kv_view (transaction_op st op).1.1 =
    (if tx_valid op then tx_apply (kv_view st.1.1) op else kv_view st.1.1) ∧
  map (λ r, (tx_op r, tx_key r, tx_success r)) (transaction_op st op).1.2 =
    map (λ r, (tx_op r, tx_key r, tx_success r)) st.1.2 ++ [(op_op op, op_key op, tx_valid op)] ∧
  (transaction_op st op).2 = st.2 + (if tx_valid op then 1 else 0).
Proof.
  destruct st as [[s rs] n], op as [o k v]. unfold transaction_op, tx_valid, tx_apply; simpl.
  destruct (bool_decide_reflect (o = "put"%string)) as [->|Ho]; simpl;
    [destruct v as [v|]; simpl|destruct (bool_decide_reflect (o = "delete"%string)) as [->|Ho2]; simpl];
    rewrite ?map_app, ?kv_put_view, ?kv_delete_view; auto with lia.
Qed.

Lemma transaction_fold_spec ops st :
  kv_view (fold_left transaction_op ops st).1.1 =
    fold_left tx_apply (filter (λ op, tx_valid op = true) ops) (kv_view st.1.1) ∧
  map (λ r, (tx_op r, tx_key r, tx_success r)) (fold_left transaction_op ops st).1.2 =
    map (λ r, (tx_op r, tx_key r, tx_success r)) st.1.2 ++
    map (λ op, (op_op op, op_key op, tx_valid op)) ops ∧
  (fold_left transaction_op ops st).2 = st.2 + zlen (filter (λ op, tx_valid op = true) ops).
Proof.
  revert st. induction ops as [|op ops IH]; intros st; cbn [fold_left map].
  { rewrite app_nil_r, Z.add_0_r. auto. }
  destruct (transaction_op_spec st op) as (E1 & E2 & E3).
  destruct (IH (transaction_op st op)) as (-> & -> & ->). rewrite E1, E2, E3, <- app_assoc, filter_cons.
  destruct (tx_valid op); [rewrite decide_True by done|rewrite decide_False by done];
    rewrite ?zlen_cons; auto with lia.
Qed.

Lemma prepare_phase_ok targets : prepare_phase targets = true.
Proof. by induction targets. Qed.

Lemma batch_op_spec db ks vs op db' r :
  represents db ks vs → valid_str (op_key op) = true → batch_op db op = (db', r) →
  ∃ ks', batch_step ks op r ks' ∧ represents db' ks' vs.
Proof.
  intros R Hval H. destruct op as [o key v]. unfold batch_op in H; simpl in *.
  destruct (bool_decide_reflect (o = "put"%string)) as [->|H1].
  { destruct v as [v|]; [|simplify_eq; eauto using batch_put_no_value].
    destruct (meta_put_key _ db) as [db1|e] eqn:E; simplify_eq.
    - eexists. split; [apply batch_put|]. by apply (represents_put_key _ _ _ _ _ R) in E.
    - exists ks. split; [apply batch_store_error; set_solver|done]. }
  destruct (bool_decide_reflect (o = "get"%string)) as [->|H2].
  { destruct (meta_get_key key db) as [[m|]|e] eqn:E; simplify_eq;
      [| |exists ks; split; [apply batch_store_error; set_solver|done]];
      apply (get_key_represents _ _ _ _ _ R) in E; eauto using batch_get_found, batch_get_missing. }
  destruct (bool_decide_reflect (o = "delete"%string)) as [->|H3].
  - destruct (meta_delete_key key db) as [db1|e] eqn:E; simplify_eq.
    + eexists. split; [apply batch_delete|]. by apply (represents_delete_key _ _ _ _ _ R) in E.
    + exists ks. split; [apply batch_store_error; set_solver|done].
  - simplify_eq. exists ks. split; [apply batch_unknown; set_solver|done].
Qed.

(** ** Properties *)

(** [s3_put_object] answers 200, stores the body under [bucket/key] and
    publishes one event for it: [s3_get_object] then answers the body for every
    bucket and key that spell the same path, and what it answered before for
    the others.  No volume is needed for the 200: the handler never contacts
    one, whatever volumes are healthy, and the TTL header is only echoed. *)
Theorem s3_put_get now bucket key ttl value c c' resp :
  s3_put_object now bucket key ttl value c = (c', resp) →
  status resp = HTTP_OK ∧
  (∀ bucket' key',
     s3_get_object bucket' key' c' =
       if decide (bucket' +:+ "/" +:+ key' = bucket +:+ "/" +:+ key)
       then mkResponse HTTP_OK value else s3_get_object bucket' key' c) ∧
  c_metadata c' = c_metadata c ∧ c_raft c' = c_raft c ∧ c_placement c' = c_placement c ∧
  c_events c' = c_events c ++ [mkEvent "put" (bucket +:+ "/" +:+ key) (Some "default"%string) now].
Proof.
  unfold s3_put_object. rewrite prepare_phase_ok. cbn [negb]. intros [= <- <-].
  repeat split; try done. intros bucket' key'. unfold s3_get_object; simpl.
  rewrite !kv_get_view, kv_put_view. case_decide as E.
  - by rewrite E, lookup_insert_eq.
  - by rewrite lookup_insert_ne.
Qed.

(** [transaction_ops] runs its operations in order, one result each: the
    storage it leaves is the one the well-formed operations make one after the
    other, and one entry is added to the audit log.  A malformed operation is reported as failed, and neither stops the
    ones after it nor undoes the ones before it: the "transaction" is not
    atomic. *)
Theorem transaction_sequential now ops c c' resp :
  transaction_ops now ops c = (c', resp) →
  kv_view (c_storage c') =
    fold_left tx_apply (filter (λ op, tx_valid op = true) ops) (kv_view (c_storage c)) ∧
  map (λ r, (tx_op r, tx_key r, tx_success r)) (txr_results resp) =
    map (λ op, (op_op op, op_key op, tx_valid op)) ops ∧
  txr_total resp = zlen ops ∧
  txr_successful resp = zlen (filter (λ op, tx_valid op = true) ops) ∧
  c_metadata c' = c_metadata c ∧ zlen (c_audit c') = zlen (c_audit c) + 1.
Proof.
  unfold transaction_ops. destruct (transaction_fold_spec ops (c_storage c, [], 0)) as (E1 & E2 & E3).
  destruct (fold_left _ ops _) as [[s rs] n]. intros [= <- <-]. simpl in *.
  unfold log_event. rewrite zlen_app. by split_and!.
Qed.

(** [range_query] over the metadata: when the listing succeeds it answers
    every key of the range exactly once, in increasing order, and with
    [include_values] the record of each key beside it ([null] where the record
    cannot be read). *)
Theorem range_query_exact ks vs start stop include c keys :
  represents (c_metadata c) ks vs → list_keys (c_metadata c) = Ok keys →
  ∃ found values,
    range_query start stop include c = mkResponse HTTP_OK (inr (found, values)) ∧
    NoDup found ∧ StronglySorted (λ a b, str_leb a b = true) found ∧
    (∀ k, k ∈ found ↔ is_Some (ks !! k) ∧ str_leb start k = true ∧ str_leb k stop = true) ∧
    (values = if unwrap_or false include then
                Some (map (λ k, match meta_get_key k (c_metadata c) with
                                | Ok _ => ks !! k | Err _ => None end) found)
              else None).
Proof.
  intros R H. unfold range_query. rewrite H. destruct (list_keys_spec _ _ _ _ R H) as [Hnd Hel].
  eexists _, _. split; [reflexivity|]. split_and!.
  - unfold sort_strings. rewrite sort_by_perm. by apply NoDup_filter.
  - apply sort_strings_sorted.
  - intros k. unfold sort_strings. rewrite sort_by_perm, list_elem_of_filter, Hel.
    unfold in_key_range. rewrite andb_true_iff. tauto.
  - destruct (unwrap_or false include); [|done]. f_equal. apply map_ext. intros k.
    destruct (meta_get_key k _) eqn:E; [|done]. simpl. by apply (get_key_represents _ _ _ _ _ R) in E.
Qed.

(** [batch_ops] on a metadata store that represents a map of records: the
    answers and the records left are those of the operations one after the
    other, each [ok] put or delete acting on the map, each [get] answering the
    record the map holds at that point, and an operation that is not [ok]
    leaving the map as it was. *)
Theorem batch_refines_map ks vs ops c c' results :
  represents (c_metadata c) ks vs → Forall (λ op, valid_str (op_key op) = true) ops →
  batch_ops ops c = (c', results) →
  ∃ ks', batch_run ks ops results ks' ∧ represents (c_metadata c') ks' vs ∧
    c_storage c' = c_storage c.
Proof.
  intros R Hv H. unfold batch_ops in H. destruct (batch_loop _ _) as [db rs] eqn:E. simplify_eq. simpl.
  cut (∃ ks', batch_run ks ops results ks' ∧ represents db ks' vs); [naive_solver|].
  revert ks R results E. generalize (c_metadata c). induction Hv as [|op ops Hop _ IH]; intros d ks R rs E; simpl in E.
  { simplify_eq. eauto using batch_run_nil. }
  destruct (batch_op d op) as [d1 r] eqn:E1. destruct (batch_loop ops d1) as [d2 rs'] eqn:E2. simplify_eq.
  destruct (batch_op_spec _ _ _ _ _ _ R Hop E1) as (ks1 & Hs & R1).
  destruct (IH _ _ R1 _ E2) as (ks2 & Hr & R2). eauto using batch_run_cons.
Qed.

(** [search_keys] finds the keys the metadata knows whose stored value is
    text that contains the query.  An object that only the storage holds, as
    the S3 endpoint leaves it, is not found. *)
Theorem search_keys_exact ks vs query c found :
  represents (c_metadata c) ks vs → search_keys query c = inr found →
  ∀ k, k ∈ found ↔
    is_Some (ks !! k) ∧
    ∃ v, kv_view (c_storage c) !! k = Some v ∧ utf8_valid v = true ∧
         ∃ pre post, v = pre ++ as_bytes query ++ post.
Proof.
  intros R H k. unfold search_keys in H. destruct (list_keys _) as [keys|] eqn:E; simplify_eq.
  rewrite list_elem_of_filter, (proj2 (list_keys_spec _ _ _ _ R E) k), kv_get_view.
  setoid_rewrite <- bytes_contains_spec.
  destruct (kv_view (c_storage c) !! k) as [v|]; [|naive_solver].
  rewrite andb_true_iff. naive_solver.
Qed.
End http.

(** ** Witnesses *)
Section witnesses.
Local Existing Instance toy_blake3.
Local Existing Instance mem_rocks.
Local Existing Instance countable_bincode.

Definition ex_coord : Coord (RK := mem_rocks) (S := MemStore) :=
  mkCoord ex_db_put (placement_new 256 3) (raft_new "n1")
    (kv_put "k" (as_bytes "hello") mem_new) [] [].
Definition ex_io_display (_ : IoErrorKind) : string := "io error".
Definition ex_status_display (_ : Status) : string := "status".
Definition ex_to_json (m : KeyMetadata) : string := km_key m.

Lemma ex_coord_represents :
  represents (c_metadata ex_coord) (<[km_key ex_meta := ex_meta]> ∅) ∅.
Proof.
  apply (represents_put_key ex_db ∅ ∅ ex_meta); [|reflexivity|reflexivity].
  split; intros b; simpl; unfold ex_db; rewrite lookup_empty; intros k _; apply lookup_empty.
Qed.

Lemma s3_put_get_witness :
  s3_get_object "photos" "cat" (s3_put_object 7 "photos" "cat" (Some "60"%string) [x01; x02] ex_coord).1
    = mkResponse HTTP_OK [x01; x02].
Proof.
  destruct (s3_put_object 7 "photos" "cat" (Some "60"%string) [x01; x02] ex_coord) as [c' resp] eqn:E.
  apply (s3_put_get 7 "photos" "cat" (Some "60"%string) [x01; x02] ex_coord c' resp E).
Defined.

Definition ex_transaction : list Operation :=
  [mkOperation "put" "a" (Some "1"%string); mkOperation "put" "b" None; mkOperation "delete" "k" None].

Lemma transaction_sequential_witness :
  kv_view (c_storage (transaction_ops 5 ex_transaction ex_coord).1) = {[ "a"%string := [x31] ]} ∧
  txr_successful (transaction_ops 5 ex_transaction ex_coord).2 = 2.
Proof.
  destruct (transaction_ops 5 ex_transaction ex_coord) as [c' resp] eqn:E.
  destruct (transaction_sequential 5 ex_transaction ex_coord c' resp E) as (H1 & _ & _ & H2 & _).
  cbn [fst snd]. rewrite H1, H2. split; reflexivity.
Defined.

Lemma range_query_exact_witness :
  ∃ found values,
    range_query ex_io_display ex_status_display "a" "z" (Some true) ex_coord = mkResponse HTTP_OK (inr (found, values)) ∧
    "k"%string ∈ found.
Proof.
  destruct (range_query_exact ex_io_display ex_status_display _ ∅ "a" "z" (Some true) ex_coord ["k"%string]
    ex_coord_represents) as (found & values & E & _ & _ & H & _); [vm_compute; reflexivity|].
  exists found, values. split; [exact E|]. apply H. split; [by exists ex_meta|split; reflexivity].
Defined.

Definition ex_batch : list Operation :=
  [mkOperation "put" "k2" (Some "v"%string); mkOperation "get" "k2" None; mkOperation "swap" "k" None].

Lemma ex_batch_results :
  (batch_ops ex_io_display ex_status_display ex_to_json ex_batch ex_coord).2 =
  [mkBatchResult true "k2" None None; mkBatchResult true "k2" (Some "k2"%string) None;
   mkBatchResult false "k" None (Some "Unknown op"%string)].
Proof. vm_compute. reflexivity. Qed.

Lemma batch_refines_map_witness :
  ∃ ks', represents (c_metadata (batch_ops ex_io_display ex_status_display ex_to_json ex_batch ex_coord).1) ks' ∅ ∧
    batch_run ex_io_display ex_status_display ex_to_json (<[km_key ex_meta := ex_meta]> ∅) ex_batch
      [mkBatchResult true "k2" None None; mkBatchResult true "k2" (Some "k2"%string) None;
       mkBatchResult false "k" None (Some "Unknown op"%string)] ks'.
Proof.
  rewrite <- ex_batch_results.
  destruct (batch_ops ex_io_display ex_status_display ex_to_json ex_batch ex_coord) as [c' results] eqn:E.
  destruct (batch_refines_map ex_io_display ex_status_display ex_to_json _ ∅ ex_batch ex_coord c' results
    ex_coord_represents ltac:(repeat constructor) E) as (ks' & H1 & H2 & _).
  exists ks'. split; [exact H2|exact H1].
Defined.

Lemma search_keys_exact_witness :
  search_keys ex_io_display ex_status_display "ell" ex_coord = inr ["k"%string] ∧
  ∃ v, kv_view (c_storage ex_coord) !! "k"%string = Some v ∧ utf8_valid v = true ∧
       ∃ pre post, v = pre ++ as_bytes "ell" ++ post.
Proof.
  assert (search_keys ex_io_display ex_status_display "ell" ex_coord = inr ["k"%string]) as E
    by (vm_compute; reflexivity).
  split; [exact E|].
  apply (search_keys_exact ex_io_display ex_status_display _ ∅ "ell" ex_coord ["k"%string] ex_coord_represents E).
  by apply list_elem_of_singleton.
Defined.
End witnesses.
