(* ===== verification/StorageLocks.v ===== *)
(** * Transactions at the same time

    [MemStore] of [src/coordinator/storage.rs] keeps its map behind one
    [Mutex], which each operation takes and gives back; [transaction_ops] of
    [src/coordinator/http.rs] calls one operation after the other.  Both as
    programs of [Threads], and what any number of transactions that run at the
    same time do: each operation is atomic, a transaction is not. *)

From Stdlib Require Import ZArith Lia.
From Stdlib.Strings Require Import Byte.
From stdpp Require Import base option list relations gmap strings.
From S2P Require Import Prelude Bytes Text Storage Http Threads Invariants.

#[export] Instance mem_guarded : Guarded MemStore := {|
  lock := unit; cell := λ _, gmap string bytes;
  read_cell := λ _, mem_map; write_cell := λ _ m _, mkMem m;
|}.
#[export] Instance mem_guarded_laws : GuardedLaws MemStore (Guarded0 := mem_guarded).
Proof. split; [done|by intros [] []]. Qed.

Abbreviation mprog := (@prog MemStore mem_guarded).
Abbreviation MLock k := (@Acquire MemStore mem_guarded _ tt Exclusive k).
Abbreviation MDrop k := (@Release MemStore mem_guarded _ tt k).
Abbreviation MGet k := (@Load MemStore mem_guarded _ tt k).
Abbreviation MSet v k := (@Store MemStore mem_guarded _ tt v k).

(** ** The operations *)
Definition mem_get_code (key : string) : mprog (option bytes) :=
  MLock (MGet (λ m : gmap string bytes, MDrop (Done (m !! key)))).
Definition mem_put_code (key : string) (value : bytes) : mprog unit :=
  MLock (MGet (λ m : gmap string bytes, MSet (<[key := value]> m) (MDrop (Done tt)))).
Definition mem_delete_code (key : string) : mprog unit :=
  MLock (MGet (λ m : gmap string bytes, MSet (delete key m) (MDrop (Done tt)))).

(** ** Transactions *)
Abbreviation TxAnswer := (list TransactionResult * Z)%type.
Fixpoint transaction_code (ops : list Operation) (results : list TransactionResult) (success_count : Z)
    : mprog TxAnswer :=
  match ops with
  | [] => Done (results, success_count)
  | op :: ops =>
      let ok := mkTxResult (op_op op) (op_key op) true None in
      let failed e := mkTxResult (op_op op) (op_key op) false (Some e) in
      if bool_decide (op_op op = "put"%string) then
        match op_value op with
        | Some value =>
            prog_bind (mem_put_code (op_key op) (as_bytes value)) (λ _,
            transaction_code ops (results ++ [ok]) (success_count + 1))
        | None => transaction_code ops (results ++ [failed "value required for put"%string]) success_count
        end
      else if bool_decide (op_op op = "delete"%string) then
        prog_bind (mem_delete_code (op_key op)) (λ _,
        transaction_code ops (results ++ [ok]) (success_count + 1))
      else transaction_code ops (results ++ [failed "unknown operation"%string]) success_count
  end.

(** Run alone, the programs are the functions of [Storage] and [Http]. *)
Lemma exec_mem key value s :
  exec (mem_get_code key) s = (s, mem_get key s) ∧ exec (mem_put_code key value) s = (mem_put key value s, tt) ∧
  exec (mem_delete_code key) s = (mem_delete key s, tt).
Proof. done. Qed.
Lemma exec_transaction ops results n s :
  exec (transaction_code ops results n) s =
  let '(s', results', n') := fold_left transaction_op ops (s, results, n) in (s', (results', n')).
Proof.
  revert results n s. induction ops as [|op ops IH]; intros results n s; [done|]. cbn [transaction_code fold_left].
  unfold transaction_op at 2. destruct (bool_decide _); [destruct (op_value op) as [v|]; apply IH|].
  destruct (bool_decide _); apply IH.
Qed.

(** ** One operation after the other

    The transactions with what is left of them and what they have collected, and
    the store; one step is one operation of one transaction, as
    [Http.transaction_op] does it. *)
Record Tx := mkTx { tx_left : list Operation; tx_results : list TransactionResult; tx_count : Z }.
Definition tx_begin (ops : list Operation) : Tx := mkTx ops [] 0.

Inductive tx_step : list Tx * MemStore → list Tx * MemStore → Prop :=
  | tx_one i txs s op ops results n s' results' n' :
      txs !! i = Some (mkTx (op :: ops) results n) →
      transaction_op (s, results, n) op = (s', results', n') →
      tx_step (txs, s) (<[i := mkTx ops results' n']> txs, s').

(** ** The threads do that *)

(** Where a thread is in its transaction: between two operations; with the lock;
    with the map it has read; with the new map written. *)
Inductive at_point (s : MemStore) : Tx → thread (GS := mem_guarded) TxAnswer → Prop :=
  | at_between tx : at_point s tx (mkThread [] (transaction_code (tx_left tx) (tx_results tx) (tx_count tx)))
  | at_locked tx k :
      transaction_code (tx_left tx) (tx_results tx) (tx_count tx) = MLock k →
      at_point s tx (mkThread [(tt, Exclusive)] k)
  | at_read tx k :
      transaction_code (tx_left tx) (tx_results tx) (tx_count tx) = MLock (MGet k) →
      at_point s tx (mkThread [(tt, Exclusive)] (k (mem_map s)))
  | at_written tx :
      at_point s tx (mkThread [(tt, Exclusive)] (MDrop (transaction_code (tx_left tx) (tx_results tx) (tx_count tx)))).

(** What a transaction does next: it is over, or its next operations do nothing
    up to one that writes a map. *)
Definition tx_next (i : nat) (txs : list Tx) (s : MemStore) (p : mprog TxAnswer) : Prop :=
  (∃ results n, p = Done (results, n) ∧ rtc tx_step (txs, s) (<[i := mkTx [] results n]> txs, s)) ∨
  (∃ (w : gmap string bytes → gmap string bytes) ops results n,
     p = MLock (MGet (λ m, MSet (w m) (MDrop (transaction_code ops results n)))) ∧
     rtc tx_step (txs, s) (<[i := mkTx ops results n]> txs, mkMem (w (mem_map s)))).

Lemma transaction_code_next i txs s ops results n :
  txs !! i = Some (mkTx ops results n) → tx_next i txs s (transaction_code ops results n).
Proof.
  revert results n txs. induction ops as [|op ops IH]; intros results n txs Hi.
  { left. exists results, n. split; [done|]. by rewrite list_insert_id. }
  assert (∀ results', transaction_op (s, results, n) op = (s, results', n) →
    tx_next i txs s (transaction_code ops results' n)) as Hskip.
  { intros results1 Ht. pose proof (tx_one i txs s op ops results n s results1 n Hi Ht) as Hs.
    destruct (IH results1 n (<[i := mkTx ops results1 n]> txs)) as [(r & k & E & Hr)|(w & o & r & k & E & Hr)].
    - apply list_lookup_insert_eq. by eapply lookup_lt_Some.
    - left. exists r, k. split; [done|]. rewrite list_insert_insert_eq in Hr. by eapply rtc_l.
    - right. exists w, o, r, k. split; [done|]. rewrite list_insert_insert_eq in Hr. by eapply rtc_l. }
  destruct op as [o key value]. cbn [transaction_code op_op op_key op_value] in *. unfold transaction_op in Hskip.
  cbn [op_op op_key op_value] in Hskip.
  destruct (bool_decide (o = "put"%string)) eqn:Ep; [destruct value as [value|]; [|by eapply Hskip]|
    destruct (bool_decide (o = "delete"%string)) eqn:Ed; [|by eapply Hskip]]; right.
  - exists (λ m, <[key := as_bytes value]> m). do 3 eexists. split; [reflexivity|]. apply rtc_once.
    eapply tx_one; [done|]. unfold transaction_op. cbn [op_op op_key op_value]. by rewrite Ep.
  - exists (λ m, delete key m). do 3 eexists. split; [reflexivity|]. apply rtc_once.
    eapply tx_one; [done|]. unfold transaction_op. cbn [op_op op_key op_value]. by rewrite Ep, Ed.
Qed.

Record tx_sim (txs : list Tx) (ts : list (thread (GS := mem_guarded) TxAnswer)) (s : MemStore) : Prop := {
  ts_exclusion : exclusion (GS := mem_guarded) ts;
  ts_points : Forall2 (at_point s) txs ts;
}.

(** A thread moves on; the others stay where they are. *)
Lemma points_insert txs ts s s' i tx t' :
  Forall2 (at_point s) txs ts → at_point s' tx t' →
  (∀ j u, j ≠ i → ts !! j = Some u → s' = s ∨ held u = []) →
  Forall2 (at_point s') (<[i := tx]> txs) (<[i := t']> ts).
Proof.
  intros HF Hp Hother. apply Forall2_same_length_lookup_2.
  { rewrite !length_insert. by eapply Forall2_length. }
  intros j x u Hx Hu. apply list_lookup_insert_Some in Hx as [(-> & <- & Hl)|[Hne Hx]].
  - rewrite list_lookup_insert_eq in Hu; [by injection Hu as <-|]. by rewrite <- (Forall2_length _ _ _ HF).
  - rewrite list_lookup_insert_ne in Hu by done. pose proof (Forall2_lookup_lr _ _ _ _ _ _ HF Hx Hu) as Hxu.
    destruct (Hother j u) as [->|Hh]; [done..|]. destruct Hxu; [constructor|done..].
Qed.

Lemma tx_sim_step wf txs ts s ts' s' :
  tx_sim txs ts s → pool_step wf (ts, s) (ts', s') →
  ∃ txs', rtc tx_step (txs, s) (txs', s') ∧ tx_sim txs' ts' s'.
Proof.
  intros [HX HF] [i Hi]. simpl in Hi. apply bind_Some in Hi as (t & Ht & H).
  destruct (Forall2_lookup_r _ _ _ _ _ HF Ht) as (tx & Htx & Hp).
  assert (∀ t', at_point s tx t' → exclusion (GS := mem_guarded) (<[i := t']> ts) →
    ∃ txs', rtc tx_step (txs, s) (txs', s) ∧ tx_sim txs' (<[i := t']> ts) s) as Hstay.
  { intros t' Ht' HX'. exists txs. split; [done|]. split; [done|].
    rewrite <- (list_insert_id txs i tx) by done. by eapply points_insert; eauto. }
  destruct tx as [ops results n].
  pose proof (transaction_code_next i txs s ops results n Htx) as Hn.
  inversion Hp as [|? k E|? k E|]; subst; cbn [tx_left tx_results tx_count code held] in *.
  - destruct Hn as [(? & ? & E & _)|(w & ops' & results' & n' & E & _)]; rewrite E in H; [done|].
    destruct (can_acquire wf ts tt Exclusive) eqn:Hc; [|done]. injection H as <- <-.
    apply Hstay; [by apply (at_locked s (mkTx ops results n))|].
    by apply (exclusion_acquire (GS := mem_guarded) wf ts i _ tt Exclusive _ HX Ht).
  - destruct Hn as [(? & ? & E' & _)|(w & ops' & results' & n' & E' & Hr)]; rewrite E in E'; [done|].
    injection E' as ->. simpl in H. injection H as <- <-. apply Hstay.
    + by apply (at_read s (mkTx ops results n) _ E).
    + by eapply exclusion_smaller.
  - destruct Hn as [(? & ? & E' & _)|(w & ops' & results' & n' & E' & Hr)]; rewrite E in E'; [done|].
    injection E' as ->. simpl in H. injection H as <- <-. eexists. split; [exact Hr|]. split.
    + by eapply exclusion_smaller.
    + eapply points_insert; [done|by apply (at_written _ (mkTx ops' results' n'))|].
      intros j u Hne Hu. right. destruct (held u) as [|[[] m] h] eqn:Eh; [done|]. exfalso.
      apply (HX i j _ u tt (not_eq_sym Hne) Ht Hu); simpl; [by left|]. rewrite Eh. by left.
  - simpl in H. injection H as <- <-. apply Hstay.
    + apply (at_between s (mkTx ops results n)).
    + eapply exclusion_smaller; [done|done|]. intros x Hx. by apply not_elem_of_nil in Hx.
Qed.

Lemma tx_sim_run wf c c' txs :
  rtc (pool_step wf) c c' → tx_sim txs c.1 c.2 →
  ∃ txs', rtc tx_step (txs, c.2) (txs', c'.2) ∧ tx_sim txs' c'.1 c'.2.
Proof.
  intros Hr. revert txs. induction Hr as [c|[ts s] [ts1 s1] c' Hs _ IH]; intros txs Hsim; [by exists txs|].
  destruct (tx_sim_step wf _ _ _ _ _ Hsim Hs) as (txs1 & R1 & S1).
  destruct (IH txs1 S1) as (txs2 & R2 & S2). exists txs2. split; [by etransitivity|done].
Qed.

Definition transactions (txs : list (list Operation)) : list (mprog TxAnswer) :=
  map (λ ops, transaction_code ops [] 0) txs.

Lemma tx_sim_start txs s : tx_sim (map tx_begin txs) (start (transactions txs) s).1 s.
Proof.
  split.
  - intros i j ti tj l _ Hti _ Hin. simpl in Hti. unfold transactions in Hti. rewrite !list_lookup_fmap in Hti.
    destruct (txs !! i); [|done]. injection Hti as <-. by apply not_elem_of_nil in Hin.
  - simpl. unfold transactions. rewrite map_map. apply Forall2_fmap_2, Forall_Forall2_diag, Forall_forall.
    intros ops _. apply (at_between s (tx_begin ops)).
Qed.

(** The transaction of a thread that has finished is over. *)
Lemma tx_step_cons tx txs s txs' s' :
  rtc tx_step (txs, s) (txs', s') → rtc tx_step (tx :: txs, s) (tx :: txs', s').
Proof.
  intros H. refine (rtc_congruence (λ c : list Tx * MemStore, (tx :: c.1, c.2)) tx_step _ _ _ H).
  intros c c' [i txs1 s1 op ops results n s2 results' n' Hi Ht].
  exact (tx_one (S i) (tx :: txs1) s1 op ops results n s2 results' n' Hi Ht).
Qed.

Definition is_over (tx : Tx) (t : thread (GS := mem_guarded) TxAnswer) : Prop :=
  tx_left tx = [] ∧ code t = Done (tx_results tx, tx_count tx).
Lemma finished_over txs ts s :
  Forall2 (at_point s) txs ts → Forall finished ts →
  ∃ txs', rtc tx_step (txs, s) (txs', s) ∧ Forall2 is_over txs' ts.
Proof.
  induction 1 as [|tx t txs ts Hp _ IH]; intros Hf; [by exists []|].
  apply Forall_cons in Hf as [[a Ha] Hf]. destruct (IH Hf) as (txs' & Hr & Ho).
  assert (∃ results n, code t = Done (results, n) ∧ rtc tx_step (tx :: txs, s) (mkTx [] results n :: txs, s))
    as (results & n & Hc & Hr0).
  { destruct tx as [ops results n]. pose proof (transaction_code_next 0 (mkTx ops results n :: txs) s ops results n eq_refl) as Hn.
    inversion Hp as [|? k E|? k E|]; subst; cbn [tx_left tx_results tx_count code] in *; try rewrite E in Hn;
      destruct Hn as [(? & ? & E' & ?)|(? & ? & ? & ? & E' & _)]; try done; [eauto|congruence|..];
      injection E' as ->; done. }
  exists (mkTx [] results n :: txs'). split; [etransitivity; [exact Hr0|by apply tx_step_cons]|].
  by constructor.
Qed.

(** ** Keys that one transaction has to itself *)
Definition alone (ops : list Operation) (s : MemStore) : MemStore * list TransactionResult * Z :=
  fold_left transaction_op ops (s, [], 0).

(** The answer of a transaction does not depend on the store. *)
Lemma transaction_op_answer s1 s2 results n op :
  (transaction_op (s1, results, n) op).1.2 = (transaction_op (s2, results, n) op).1.2 ∧
  (transaction_op (s1, results, n) op).2 = (transaction_op (s2, results, n) op).2.
Proof. unfold transaction_op. destruct (bool_decide _); [by destruct (op_value op)|by destruct (bool_decide _)]. Qed.
(** An operation changes its own key only, and in a way that does not depend
    on the rest of the store. *)
Lemma transaction_op_key s1 s2 r1 r2 n1 n2 op k :
  mem_map s1 !! k = mem_map s2 !! k →
  mem_map (transaction_op (s1, r1, n1) op).1.1 !! k = mem_map (transaction_op (s2, r2, n2) op).1.1 !! k.
Proof.
  intros H. unfold transaction_op. destruct (bool_decide _); [destruct (op_value op); [|done]|destruct (bool_decide _); [|done]].
  - cbn. destruct (decide (k = op_key op)) as [->|]; [by rewrite !lookup_insert_eq|by rewrite !lookup_insert_ne].
  - cbn. destruct (decide (k = op_key op)) as [->|]; [by rewrite !lookup_delete_eq|by rewrite !lookup_delete_ne].
Qed.
Lemma transaction_op_frame s results n op k :
  k ≠ op_key op → mem_map (transaction_op (s, results, n) op).1.1 !! k = mem_map s !! k.
Proof.
  intros Hk. unfold transaction_op. destruct (bool_decide _); [destruct (op_value op); [|done]|destruct (bool_decide _); [|done]];
    cbn; [by rewrite lookup_insert_ne|by rewrite lookup_delete_ne].
Qed.
Lemma transaction_fold_key ops s1 s2 r1 r2 n1 n2 k :
  mem_map s1 !! k = mem_map s2 !! k →
  mem_map (fold_left transaction_op ops (s1, r1, n1)).1.1 !! k =
  mem_map (fold_left transaction_op ops (s2, r2, n2)).1.1 !! k.
Proof.
  revert s1 s2 r1 r2 n1 n2. induction ops as [|op ops IH]; intros s1 s2 r1 r2 n1 n2 H; [done|]. cbn [fold_left].
  pose proof (transaction_op_key s1 s2 r1 r2 n1 n2 op k H) as Hk.
  destruct (transaction_op (s1, r1, n1) op) as [[? ?] ?], (transaction_op (s2, r2, n2) op) as [[? ?] ?]. by apply IH.
Qed.
Lemma transaction_fold_answer ops s1 s2 r n :
  (fold_left transaction_op ops (s1, r, n)).1.2 = (fold_left transaction_op ops (s2, r, n)).1.2 ∧
  (fold_left transaction_op ops (s1, r, n)).2 = (fold_left transaction_op ops (s2, r, n)).2.
Proof.
  revert s1 s2 r n. induction ops as [|op ops IH]; intros s1 s2 r n; [done|]. cbn [fold_left].
  pose proof (transaction_op_answer s1 s2 r n op) as [H1 H2].
  destruct (transaction_op (s1, r, n) op) as [[? ?] ?], (transaction_op (s2, r, n) op) as [[? ?] ?].
  simpl in H1, H2. subst. apply IH.
Qed.

(** What is left of the transactions takes their keys and their answers to
    where they end alone. *)
Record tx_inv (txs0 : list (list Operation)) (s0 : MemStore) (txs : list Tx) (s : MemStore) : Prop := {
  tv_tx i ops : txs0 !! i = Some ops → ∃ tx, txs !! i = Some tx ∧ (tx_left tx `suffix_of` ops) ∧
    (fold_left transaction_op (tx_left tx) (s, tx_results tx, tx_count tx)).1.2 = (alone ops s0).1.2 ∧
    (fold_left transaction_op (tx_left tx) (s, tx_results tx, tx_count tx)).2 = (alone ops s0).2 ∧
    ∀ k, (∀ j ops', j ≠ i → txs0 !! j = Some ops' → k ∉ map op_key ops') →
      mem_map (fold_left transaction_op (tx_left tx) (s, tx_results tx, tx_count tx)).1.1 !! k =
      mem_map (alone ops s0).1.1 !! k;
  tv_length : length txs = length txs0;
}.

Lemma tx_inv_step txs0 s0 txs s txs' s' :
  tx_inv txs0 s0 txs s → tx_step (txs, s) (txs', s') → tx_inv txs0 s0 txs' s'.
Proof.
  intros [I1 I2] H. inversion H as [i ? ? op ops results n ? results' n' Hi Ht E1 E2]; subst.
  split; [|by rewrite length_insert]. intros j ops0 Hj. destruct (decide (j = i)) as [->|Hne].
  - destruct (I1 i ops0 Hj) as (tx & Htx & Hsuf & Ha & Hc & Hk). rewrite Hi in Htx. injection Htx as <-.
    eexists. split; [apply list_lookup_insert_eq; by eapply lookup_lt_Some|].
    cbn [tx_left tx_results tx_count fold_left] in *. rewrite Ht in Ha, Hc, Hk.
    split; [by eapply suffix_cons_l|done].
  - destruct (I1 j ops0 Hj) as (tx & Htx & Hsuf & Ha & Hc & Hk). exists tx. rewrite list_lookup_insert_ne by done.
    split; [done|]. split; [done|].
    destruct (transaction_fold_answer (tx_left tx) s' s (tx_results tx) (tx_count tx)) as [-> ->].
    split; [done|]. split; [done|]. intros k Hown. rewrite <- Hk by done. apply transaction_fold_key.
    assert (k ≠ op_key op) as Hko.
    { intros ->. assert (∃ opsi, txs0 !! i = Some opsi) as [opsi Hopsi]
        by (apply lookup_lt_is_Some; rewrite <- I2; by eapply lookup_lt_Some).
      destruct (I1 i opsi Hopsi) as (txi & Htxi & [pre Hpre] & _). rewrite Hi in Htxi. injection Htxi as <-.
      apply (Hown i opsi (not_eq_sym Hne) Hopsi). rewrite Hpre, map_app. apply elem_of_app. right. by left. }
    pose proof (transaction_op_frame s results n op k Hko) as Hf. by rewrite Ht in Hf.
Qed.

Lemma tx_inv_start txs s : tx_inv txs s (map tx_begin txs) s.
Proof.
  split; [|by rewrite length_map]. intros i ops Hi. exists (tx_begin ops).
  rewrite list_lookup_fmap, Hi. split; [done|]. split; [done|]. by split_and!.
Qed.
Lemma tx_inv_run txs s0 c c' :
  rtc tx_step c c' → tx_inv txs s0 c.1 c.2 → tx_inv txs s0 c'.1 c'.2.
Proof. induction 1 as [|[] [] ? Hs _ IH]; [done|]. intros I. apply IH. by eapply tx_inv_step. Qed.

Lemma transactions_refine wf txs s0 ts s :
  rtc (pool_step wf) (start (transactions txs) s0) (ts, s) → Forall finished ts →
  ∃ txs', rtc tx_step (map tx_begin txs, s0) (txs', s) ∧ Forall2 is_over txs' ts.
Proof.
  intros Hr Hf. destruct (tx_sim_run wf _ _ _ Hr (tx_sim_start txs s0)) as (txs1 & R1 & [_ S1]).
  destruct (finished_over _ _ _ S1 Hf) as (txs2 & R2 & O2). exists txs2. split; [by etransitivity|done].
Qed.

(** ** Properties *)

(** Transactions all return, however they are scheduled. *)
Theorem transactions_return wf txs s :
  sn (pool_step wf) (start (transactions txs) s) ∧
  ∀ c, rtc (pool_step wf) (start (transactions txs) s) c → nf (pool_step wf) c → Forall finished c.1.
Proof.
  apply (ordered_complete (GS := mem_guarded) _ (lock_rank (GS := mem_guarded) (λ _, 0%nat))); [apply lock_rank_ok|].
  apply Forall_map, Forall_forall. intros ops _. generalize (@nil TransactionResult) 0.
  induction ops as [|op ops IH]; intros results n; [done|]. cbn [transaction_code].
  destruct (bool_decide _); [destruct (op_value op); [|apply IH]|destruct (bool_decide _); [|apply IH]];
    cbn -[elem_of]; (split; [constructor|]); (split; [by left|]); (split; [by left|]); apply IH.
Qed.

(** C22. Transactions at the same time: whatever the schedule, when all have
    returned each has answered as if it had run alone, and every key that only
    one of them names has the value that one gives it alone; the store is one
    that the operations leave when they run one after the other, each
    transaction's in its order. *)
Theorem transactions_own_keys wf txs s0 ts s :
  rtc (pool_step wf) (start (transactions txs) s0) (ts, s) → Forall finished ts →
  (∃ txs', rtc tx_step (map tx_begin txs, s0) (txs', s) ∧ Forall (λ tx, tx_left tx = []) txs') ∧
  ∀ i ops, txs !! i = Some ops →
    (∃ t, ts !! i = Some t ∧ code t = Done ((alone ops s0).1.2, (alone ops s0).2)) ∧
    ∀ k, (∀ j ops', j ≠ i → txs !! j = Some ops' → k ∉ map op_key ops') →
      mem_map s !! k = mem_map (alone ops s0).1.1 !! k.
Proof.
  intros Hr Hf. destruct (transactions_refine wf txs s0 ts s Hr Hf) as (txs' & R & O). split.
  { exists txs'. split; [done|]. eapply Forall2_Forall_l; [exact O|]. apply Forall_forall. by intros t _ tx [? _]. }
  intros i ops Hi. destruct (tx_inv_run _ _ _ _ R (tx_inv_start txs s0)) as [I1 _].
  destruct (I1 i ops Hi) as (tx & Htx & _ & Ha & Hc & Hk).
  destruct (Forall2_lookup_l _ _ _ _ _ O Htx) as (t & Ht & Hl & Hd). cbn [fst snd] in *.
  rewrite Hl in Ha, Hc, Hk. cbn [fold_left fst snd] in *. split; [|done].
  exists t. split; [done|]. by rewrite Hd, Ha, Hc.
Qed.

(** A thread that has returned, as a test *)
Definition returned_tx (t : thread (GS := mem_guarded) TxAnswer) : bool :=
  match code t with Done _ => true | _ => false end.
Lemma returned_finished ts : forallb returned_tx ts = true → Forall finished ts.
Proof.
  intros H. apply Forall_forall. intros t Ht. apply list_elem_of_In in Ht.
  apply forallb_forall with (x := t) in H; [|exact Ht].
  unfold returned_tx in H. destruct (code t) as [a| | | |] eqn:Ec; try discriminate H. exists a. exact Ec.
Qed.

(** The first transaction puts its first key, then the second runs, then the
    first goes on. *)
Definition mixed_schedule : list nat := [0; 0; 0; 0; 1; 1; 1; 1; 1; 1; 1; 1; 0; 0; 0; 0]%nat.
Definition put_op (key value : string) : Operation := mkOperation "put" key (Some value).

(** A transaction is not isolated: two that put the same two keys can leave
    one key from the first and the other from the second, which neither order of
    the two does. *)
Theorem transactions_interleave wf :
  let t1 := [put_op "a" "1"; put_op "b" "1"]%string in
  let t2 := [put_op "a" "2"; put_op "b" "2"]%string in
  let serially ops ops' := (alone ops' (alone ops mem_new).1.1).1.1 in
  ∃ ts s, rtc (pool_step wf) (start (transactions [t1; t2]) mem_new) (ts, s) ∧ Forall finished ts ∧
    mem_map s !! "a"%string = Some (as_bytes "2") ∧ mem_map s !! "b"%string = Some (as_bytes "1") ∧
    s ≠ serially t1 t2 ∧ s ≠ serially t2 t1.
Proof.
  intros t1 t2 serially.
  assert (match run_schedule wf mixed_schedule (start (transactions [t1; t2]) mem_new) with
          | Some (ts, s) => forallb returned_tx ts && bool_decide (mem_map s !! "a"%string = Some (as_bytes "2"))
                            && bool_decide (mem_map s !! "b"%string = Some (as_bytes "1"))
          | None => false
          end = true) as H by (destruct wf; vm_compute; reflexivity).
  destruct (run_schedule wf mixed_schedule _) as [[ts s]|] eqn:Hr; [|done].
  apply andb_true_iff in H as [[Hf%returned_finished Ha%bool_decide_eq_true]%andb_true_iff Hb%bool_decide_eq_true].
  exists ts, s. split; [by eapply run_schedule_rtc|]. do 3 (split; [done|]).
  split; intros ->; [vm_compute in Hb; discriminate Hb|vm_compute in Ha; discriminate Ha].
Qed.

(** ** Witness *)
Definition ex_txs : list (list Operation) :=
  [[put_op "a" "1"; mkOperation "get" "a" None; mkOperation "delete" "c" None]; [put_op "b" "2"]]%string.
Definition ex_tx_run : option (list (thread (GS := mem_guarded) TxAnswer) * MemStore) :=
  run_schedule (GS := mem_guarded) false [0; 0; 0; 0; 1; 1; 1; 1; 0; 0; 0; 0]%nat (start (transactions ex_txs) mem_new).

Lemma transactions_own_keys_witness :
  match ex_tx_run with
  | Some (ts, s) => mem_map s !! "b"%string = Some (as_bytes "2") ∧ Forall finished ts
  | None => False
  end.
Proof.
  assert (match ex_tx_run with Some c => forallb returned_tx c.1 | None => false end = true) as Hd
    by (vm_compute; reflexivity).
  destruct ex_tx_run as [[ts s]|] eqn:E; [|discriminate Hd].
  pose proof (returned_finished ts Hd) as Hf. split; [|exact Hf].
  destruct (transactions_own_keys false ex_txs mem_new ts s (run_schedule_rtc _ _ _ _ E) Hf) as [_ H].
  destruct (H 1%nat [put_op "b" "2"]%string eq_refl) as [_ Hk].
  rewrite Hk; [vm_compute; reflexivity|]. intros [|[|j]] ops' Hj Ho; [|congruence|discriminate Ho].
  injection Ho as <-. apply (bool_decide_unpack _). vm_compute. exact I.
Defined.
