(* ===== verification/Router.v ===== *)
(** * Routing

    [create_router] of [src/coordinator/http.rs]: its routes, in their order,
    and how axum selects one.  A path is the list of its segments (after the
    leading slash, percent-decoded); a parameter matches any segment that is not
    empty; a literal segment is preferred to a parameter; a path with no handler
    for the method is answered with 405, also when a parameter would match it,
    and [get] also serves [HEAD]. *)

From Stdlib Require Import ZArith Lia.
From stdpp Require Import base option list strings.
From S2P Require Import Prelude Text.

Inductive Handler :=
  | Hwatch_sse | Hwatch_ws | Hs3_put_object | Hs3_get_object
  | Hhealth | Hhealth_ready | Hhealth_live
  | Hput_key | Hget_key | Hdelete_key
  | Hadmin_repair | Hadmin_compact | Hadmin_verify | Hadmin_scale | Hadmin_status
  | Hadmin_create_key | Hadmin_list_keys | Hadmin_get_key | Hadmin_revoke_key | Hadmin_delete_key
  | Hadmin_import | Hadmin_export | Htransaction_ops | Hsearch_keys | Hmetrics | Hrange_query | Hbatch_ops.
#[export] Instance Handler_eq_dec : EqDecision Handler.
Proof. solve_decision. Defined.

Inductive Seg := Lit (s : string) | Param (name : string).
#[export] Instance Seg_eq_dec : EqDecision Seg.
Proof. solve_decision. Defined.

Record Route := mkRoute { rt_pattern : list Seg; rt_method : string; rt_handler : Handler }.

Definition create_router : list Route :=
  [mkRoute [Lit "watch"; Lit "sse"] "GET" Hwatch_sse;
   mkRoute [Lit "watch"; Lit "ws"] "GET" Hwatch_ws;
   mkRoute [Lit "s3"; Param "bucket"; Param "key"] "PUT" Hs3_put_object;
   mkRoute [Lit "s3"; Param "bucket"; Param "key"] "GET" Hs3_get_object;
   mkRoute [Lit "health"] "GET" Hhealth;
   mkRoute [Lit "health"; Lit "ready"] "GET" Hhealth_ready;
   mkRoute [Lit "health"; Lit "live"] "GET" Hhealth_live;
   mkRoute [Param "key"] "POST" Hput_key;
   mkRoute [Param "key"] "GET" Hget_key;
   mkRoute [Param "key"] "DELETE" Hdelete_key;
   mkRoute [Lit "admin"; Lit "repair"] "POST" Hadmin_repair;
   mkRoute [Lit "admin"; Lit "compact"] "POST" Hadmin_compact;
   mkRoute [Lit "admin"; Lit "verify"] "POST" Hadmin_verify;
   mkRoute [Lit "admin"; Lit "scale"] "POST" Hadmin_scale;
   mkRoute [Lit "admin"; Lit "status"] "GET" Hadmin_status;
   mkRoute [Lit "admin"; Lit "keys"] "POST" Hadmin_create_key;
   mkRoute [Lit "admin"; Lit "keys"] "GET" Hadmin_list_keys;
   mkRoute [Lit "admin"; Lit "keys"; Param "key_id"] "GET" Hadmin_get_key;
   mkRoute [Lit "admin"; Lit "keys"; Param "key_id"; Lit "revoke"] "POST" Hadmin_revoke_key;
   mkRoute [Lit "admin"; Lit "keys"; Param "key_id"] "DELETE" Hadmin_delete_key;
   mkRoute [Lit "admin"; Lit "import"] "POST" Hadmin_import;
   mkRoute [Lit "admin"; Lit "export"] "GET" Hadmin_export;
   mkRoute [Lit "transaction"] "POST" Htransaction_ops;
   mkRoute [Lit "search"] "GET" Hsearch_keys;
   mkRoute [Lit "metrics"] "GET" Hmetrics;
   mkRoute [Lit "range"] "GET" Hrange_query;
   mkRoute [Lit "batch"] "POST" Hbatch_ops]%string.

(** ** Selection *)
(** The parameters of a path that the pattern matches. *)
Fixpoint match_path (pattern : list Seg) (segs : list string) : option (list (string * string)) :=
  match pattern, segs with
  | [], [] => Some []
  | Lit l :: pattern, s :: segs => if bool_decide (l = s) then match_path pattern segs else None
  | Param name :: pattern, s :: segs =>
      if bool_decide (s = ""%string) then None else cons (name, s) <$> match_path pattern segs
  | _, _ => None
  end.

(** Whether the first of two patterns that match one path is preferred. *)
Fixpoint preferred (p q : list Seg) : bool :=
  match p, q with
  | Lit _ :: p, Lit _ :: q => preferred p q
  | Lit _ :: _, Param _ :: _ => true
  | Param _ :: p, Param _ :: q => preferred p q
  | _, _ => false
  end.
Definition matching (routes : list Route) (segs : list string) : list (list Seg) :=
  filter (λ p, is_Some (match_path p segs)) (map rt_pattern routes).
Definition select_pattern (routes : list Route) (segs : list string) : option (list Seg) :=
  foldl (λ best p,
    match best with
    | None => Some p
    | Some q => if preferred p q then Some p else best
    end) None (matching routes segs).

Inductive Routed :=
  | Handled (h : Handler) (params : list (string * string))
  | MethodNotAllowed
  | NoRoute.

Definition serves (method : string) (r : Route) : bool :=
  bool_decide (rt_method r = method) ||
  (bool_decide (method = "HEAD"%string) && bool_decide (rt_method r = "GET"%string)).

Definition route (routes : list Route) (method : string) (segs : list string) : Routed :=
  match select_pattern routes segs with
  | None => NoRoute
  | Some p =>
      match list_find (λ r, rt_pattern r = p ∧ serves method r = true) routes, match_path p segs with
      | Some (_, r), Some params => Handled (rt_handler r) params
      | _, _ => MethodNotAllowed
      end
  end.

(** ** Properties *)
Definition reserved : list string :=
  ["health"; "transaction"; "search"; "metrics"; "range"; "batch"]%string.

Lemma not_reserved key l : key ∉ reserved → l ∈ reserved → l ≠ key.
Proof. congruence. Qed.
Ltac is_reserved := match goal with |- ?P => apply (bool_decide_unpack P); vm_compute; exact I end.

(** Evaluate [match_path] on segments of which only some are known. *)
Ltac match_segs tac :=
  cbn [match_path];
  repeat match goal with
  | |- context [bool_decide (?a = ?b)] =>
      first [rewrite (bool_decide_true (a = b)) by reflexivity
            | rewrite (bool_decide_false (a = b)) by first [discriminate | tac]]; cbn [match_path]
  end.
Ltac filter_routes tac :=
  repeat first
    [rewrite filter_cons_True by (match_segs tac; by eexists)
    | rewrite filter_cons_False by (match_segs tac; repeat case_bool_decide; intros [? [=]])];
  rewrite ?filter_nil.

Lemma select_pattern_one key :
  key ≠ ""%string →
  select_pattern create_router [key] =
  Some (if decide (key ∈ reserved) then [Lit key] else [Param "key"]).
Proof.
  intros Hne. destruct (decide (key ∈ reserved)) as [Hin|Hout].
  - assert (Forall (λ k, select_pattern create_router [k] = Some [Lit k]) reserved) as HF by (by repeat constructor).
    rewrite Forall_forall in HF. by apply HF.
  - unfold select_pattern, matching, create_router. cbn [map rt_pattern].
    filter_routes ltac:(first [done | apply (not_reserved key _ Hout); is_reserved]).
    reflexivity.
Qed.

(** The key endpoints: a request for [/key] reaches [put_key], [get_key] or
    [delete_key] for every key except six, which name endpoints of their own:
    those keys cannot be written, read or deleted over HTTP. *)
Theorem key_routes key :
  key ≠ ""%string →
  if decide (key ∈ reserved)
  then ∀ method h params, route create_router method [key] = Handled h params →
         (h ∉ [Hput_key; Hget_key; Hdelete_key]) ∧ params = []
  else route create_router "POST" [key] = Handled Hput_key [("key"%string, key)] ∧
       route create_router "GET" [key] = Handled Hget_key [("key"%string, key)] ∧
       route create_router "DELETE" [key] = Handled Hdelete_key [("key"%string, key)].
Proof.
  intros Hne. pose proof (select_pattern_one key Hne) as HS. unfold route. rewrite HS.
  destruct (decide (key ∈ reserved)) as [Hin|Hout].
  - intros method h params H.
    destruct (list_find _ create_router) as [[i r]|] eqn:E; [|done].
    apply list_find_Some in E as (E1 & [E2 _] & _). apply list_elem_of_lookup_2 in E1.
    cbn [match_path] in H. rewrite bool_decide_true in H by done. injection H as <- <-. split; [|done].
    assert (Forall (λ r, ∀ k, rt_pattern r = [Lit k] → rt_handler r ∉ [Hput_key; Hget_key; Hdelete_key])
      create_router) as HF by (repeat constructor; intros k Hk; try discriminate Hk; is_reserved).
    rewrite Forall_forall in HF. by apply (HF r E1 key).
  - cbn [match_path]. rewrite (bool_decide_false (key = "")) by done. done.
Qed.

Definition find_handler (routes : list Route) (h : Handler) : list Route :=
  filter (λ r, rt_handler r = h) routes.

(** Every handler is mounted once, and reached: for each route of the
    router, the path made of its pattern (any text that names no other endpoint
    for the parameters) is served by the route's handler, with the parameters
    in their places. *)
Theorem routes_reachable r (value : string → string) :
  r ∈ create_router →
  (∀ name, value name ≠ ""%string ∧ value name ∉ reserved) →
  route create_router (rt_method r)
    (map (λ s, match s with Lit l => l | Param name => value name end) (rt_pattern r)) =
  Handled (rt_handler r)
    (omap (λ s, match s with Lit _ => None | Param name => Some (name, value name) end) (rt_pattern r)) ∧
  find_handler create_router (rt_handler r) = [r].
Proof.
  intros Hr Hv.
  assert (∀ name l, l ∈ reserved → l ≠ value name) as HL 
    by (intros name l Hl E; subst l; by destruct (Hv name)).
  revert r Hr. apply Forall_forall.
  repeat apply Forall_cons_2; [..|apply Forall_nil_2]; (split; [|reflexivity]);
    cbn [map rt_pattern rt_method rt_handler omap list_omap]; unfold route, select_pattern, matching;
    cbn [create_router map rt_pattern];
    filter_routes ltac:(first [apply Hv | apply HL; is_reserved]); cbn [foldl preferred list_find];
    match_segs ltac:(first [apply Hv | apply HL; is_reserved]); reflexivity.
Qed.

(** ** Witnesses *)
Lemma key_routes_witness :
  route create_router "GET" ["user1"]%string = Handled Hget_key [("key", "user1")]%string ∧
  route create_router "POST" ["range"]%string = MethodNotAllowed.
Proof. split; [|reflexivity]. apply (key_routes "user1"). discriminate. Defined.

Lemma routes_reachable_witness :
  route create_router "PUT" ["s3"; "v"; "v"]%string = Handled Hs3_put_object [("bucket", "v"); ("key", "v")]%string.
Proof.
  refine (proj1 (routes_reachable (mkRoute [Lit "s3"; Param "bucket"; Param "key"] "PUT" Hs3_put_object)
    (λ _, "v"%string) _ _)); [by apply (list_elem_of_lookup_2 _ 2)|]. intros _. split; [discriminate|is_reserved].
Defined.
