(* ===== verification/Auth.v ===== *)
(** * API keys and tokens

    [src/common/auth.rs]: the store of API keys, which are kept as Argon2
    hashes, their validation, and JSON web tokens.  Random bytes, identifiers,
    salts and the clock ([now] in milliseconds, [now_s] in seconds) are
    arguments; the crates [argon2], [base64] and [jsonwebtoken] are classes
    with the facts that the code relies on. *)

From Stdlib Require Import ZArith Lia.
From Stdlib.Strings Require Import Byte.
From stdpp Require Import base option list gmap strings countable.
From S2P Require Import Prelude Bytes Text External.

Definition DEFAULT_JWT_SECRET : bytes := as_bytes "minikv-default-secret-change-in-production".
Definition API_KEY_PREFIX : string := "mkv_".
Definition JWT_EXPIRATION_HOURS : Z := 24.

Inductive Role := Admin | ReadWrite | ReadOnly.
#[export] Instance Role_eq_dec : EqDecision Role.
Proof. solve_decision. Defined.

Definition role_can_write (r : Role) : bool := match r with Admin | ReadWrite => true | _ => false end.
Definition role_can_admin (r : Role) : bool := match r with Admin => true | _ => false end.
Definition role_can_read (r : Role) : bool := true.
(** [format!("{:?}", role)] *)
Definition role_debug (r : Role) : string :=
  match r with Admin => "Admin" | ReadWrite => "ReadWrite" | ReadOnly => "ReadOnly" end.

Record ApiKey := mkApiKey {
  ak_id : string;
  ak_name : string;
  ak_key_hash : string;
  ak_tenant : string;
  ak_role : Role;
  ak_created_at : Z;
  ak_expires_at : option Z;
  ak_active : bool;
  ak_last_used_at : option Z;
}.

Definition ak_is_expired (now : Z) (k : ApiKey) : bool :=
  match ak_expires_at k with Some expires_at => expires_at <=? now | None => false end.
Definition ak_is_valid (now : Z) (k : ApiKey) : bool := ak_active k && negb (ak_is_expired now k).

Record Claims := mkClaims {
  cl_sub : string; cl_tenant : string; cl_role : Role; cl_exp : Z; cl_iat : Z }.

Record AuthContext := mkAuthContext { ctx_key_id : string; ctx_tenant : string; ctx_role : Role }.
Definition ctx_can_write (c : AuthContext) : bool := role_can_write (ctx_role c).
Definition ctx_can_admin (c : AuthContext) : bool := role_can_admin (ctx_role c).

Inductive AuthResult :=
  | AuthOk (ctx : AuthContext)
  | AuthMissing
  | AuthInvalid (msg : string)
  | AuthExpired
  | AuthForbidden (msg : string).

Inductive AuthError :=
  | HashError (msg : string)
  | JwtError (msg : string)
  | KeyNotFound (id : string)
  | Unauthorized (msg : string)
  | AuthErrForbidden (msg : string).

Definition auth_error_to_string (e : AuthError) : string :=
  match e with
  | HashError m => "Hash error: " +:+ m
  | JwtError m => "JWT error: " +:+ m
  | KeyNotFound m => "Key not found: " +:+ m
  | Unauthorized m => "Unauthorized: " +:+ m
  | AuthErrForbidden m => "Forbidden: " +:+ m
  end.

(** ** The crates

    [hash_password] and [PasswordHash::new] with [verify_password]: the hash of
    a password verifies it. *)
Class Argon2 := {
  hash_password : bytes → bytes → result string string;
  verify_password : bytes → string → bool;
  verify_hashed pw salt h : hash_password pw salt = Ok h → verify_password pw h = true;
}.

(** [URL_SAFE_NO_PAD.encode] *)
Class Base64 := { base64_url : bytes → string }.

(** [jsonwebtoken::encode] and [decode] with the default validation: a token
    is decoded, with the key it was made with, to the claims it was made from,
    and until it expires it is decoded. *)
Class Jwt := {
  jwt_encode : bytes → Claims → result string string;
  jwt_decode : bytes → Z → string → result string Claims;
  jwt_decode_encode s c t now_s :
    jwt_encode s c = Ok t → now_s ≤ cl_exp c → jwt_decode s now_s t = Ok c;
  jwt_decode_claims s c t now_s c' :
    jwt_encode s c = Ok t → jwt_decode s now_s t = Ok c' → c' = c;
}.

(** [s.to_lowercase()], as far as a comparison with an ASCII word can tell:
    ASCII letters, and the Kelvin sign, the only other character whose lower
    case is ASCII. *)
Definition lower_byte (b : byte) : byte :=
  let z := Z_of_byte b in if (65 <=? z) && (z <=? 90) then byte_of_Z (z + 32) else b.
Fixpoint lower_bytes (bs : bytes) : bytes :=
  match bs with
  | [] => []
  | b :: bs' =>
      match b, bs' with
      | xe2, x84 :: xaa :: bs'' => x6b :: lower_bytes bs''
      | _, _ => lower_byte b :: lower_bytes bs'
      end
  end.
Definition to_lowercase (s : string) : string := of_bytes (lower_bytes (as_bytes s)).

(** [s.splitn(2, ' ')], when it has two parts. *)
Fixpoint split_space_bytes (bs : bytes) : option (bytes * bytes) :=
  match bs with
  | [] => None
  | b :: bs =>
      if byte_eqb b x20 then Some ([], bs)
      else (λ '(l, r), (b :: l, r)) <$> split_space_bytes bs
  end.
Definition split_space (s : string) : option (string * string) :=
  (λ '(l, r), (of_bytes l, of_bytes r)) <$> split_space_bytes (as_bytes s).

Section auth.
Context {A2 : Argon2} {B64 : Base64} {JW : Jwt} {HI : HashIter}.

(** [jwt_secret] is the secret of [jwt_encoding_key] and [jwt_decoding_key]. *)
Record KeyStore := mkKeyStore {
  keys : gmap string ApiKey;
  hash_to_id : gmap string string;
  jwt_secret : bytes;
}.

Definition ks_with_secret (secret : bytes) : KeyStore := mkKeyStore ∅ ∅ secret.
Definition ks_new : KeyStore := ks_with_secret DEFAULT_JWT_SECRET.

Definition plaintext_of (random_bytes : bytes) : string := API_KEY_PREFIX +:+ base64_url random_bytes.

(** [expires_in] in milliseconds, a [u128]. *)
Definition ks_generate_key (now : Z) (random_bytes : bytes) (key_id : string) (salt : bytes)
    (name tenant : string) (role : Role) (expires_in : option Z) (ks : KeyStore)
    : KeyStore * result AuthError (string * string) :=
  let plaintext_key := plaintext_of random_bytes in
  match hash_password (as_bytes plaintext_key) salt with
  | Err e => (ks, Err (HashError e))
  | Ok key_hash =>
      let expires_at := (λ d, add64 now (wrap64 d)) <$> expires_in in
      let api_key := mkApiKey key_id name key_hash tenant role now expires_at true None in
      (mkKeyStore (<[key_id := api_key]> (keys ks)) (<[key_hash := key_id]> (hash_to_id ks))
         (jwt_secret ks),
       Ok (key_id, plaintext_key))
  end.

Definition context_of (k : ApiKey) : AuthContext := mkAuthContext (ak_id k) (ak_tenant k) (ak_role k).

(** What [validate_key] answers for the first key whose hash verifies. *)
Definition judge_key (now : Z) (k : ApiKey) : AuthResult :=
  if negb (ak_active k) then AuthInvalid "Key is disabled"
  else if ak_is_expired now k then AuthExpired
  else AuthOk (context_of k).

Fixpoint validate_loop (now : Z) (key : string) (values : list ApiKey) : AuthResult :=
  match values with
  | [] => AuthInvalid "Invalid API key"
  | api_key :: values =>
      if verify_password (as_bytes key) (ak_key_hash api_key) then judge_key now api_key
      else validate_loop now key values
  end.

Definition ks_validate_key (now : Z) (key : string) (ks : KeyStore) : AuthResult :=
  if negb (starts_with API_KEY_PREFIX key) then AuthInvalid "Invalid key format"
  else validate_loop now key (hash_iter (keys ks)).*2.

Definition generate_jwt (now_s : Z) (auth : AuthContext) (ks : KeyStore) : result AuthError string :=
  let claims := mkClaims (ctx_key_id auth) (ctx_tenant auth) (ctx_role auth)
                  (add64 now_s (JWT_EXPIRATION_HOURS * 3600)) now_s in
  map_err JwtError (jwt_encode (jwt_secret ks) claims).

Definition validate_jwt (now_s : Z) (token : string) (ks : KeyStore) : AuthResult :=
  match jwt_decode (jwt_secret ks) now_s token with
  | Ok claims =>
      if cl_exp claims <=? now_s then AuthExpired
      else AuthOk (mkAuthContext (cl_sub claims) (cl_tenant claims) (cl_role claims))
  | Err e => AuthInvalid ("Invalid JWT: " +:+ e)
  end.

Definition authenticate (now now_s : Z) (auth_header : string) (ks : KeyStore) : AuthResult :=
  match split_space auth_header with
  | None => AuthInvalid "Invalid Authorization header format"
  | Some (scheme, credential) =>
      if bool_decide (to_lowercase scheme = "bearer"%string) then validate_jwt now_s credential ks
      else if bool_decide (to_lowercase scheme = "apikey"%string) then ks_validate_key now credential ks
      else AuthInvalid ("Unknown auth scheme: " +:+ scheme)
  end.

Definition ks_get_key (key_id : string) (ks : KeyStore) : option ApiKey := keys ks !! key_id.
Definition ks_list_keys (ks : KeyStore) : list ApiKey := (hash_iter (keys ks)).*2.
Definition list_keys_for_tenant (tenant : string) (ks : KeyStore) : list ApiKey :=
  filter (λ k, ak_tenant k = tenant) (hash_iter (keys ks)).*2.

Definition set_active (b : bool) (k : ApiKey) : ApiKey :=
  mkApiKey (ak_id k) (ak_name k) (ak_key_hash k) (ak_tenant k) (ak_role k) (ak_created_at k)
    (ak_expires_at k) b (ak_last_used_at k).
Definition set_last_used (t : Z) (k : ApiKey) : ApiKey :=
  mkApiKey (ak_id k) (ak_name k) (ak_key_hash k) (ak_tenant k) (ak_role k) (ak_created_at k)
    (ak_expires_at k) (ak_active k) (Some t).

Definition revoke_key (key_id : string) (ks : KeyStore) : KeyStore * result AuthError unit :=
  match keys ks !! key_id with
  | Some key =>
      (mkKeyStore (<[key_id := set_active false key]> (keys ks)) (hash_to_id ks) (jwt_secret ks), Ok tt)
  | None => (ks, Err (KeyNotFound key_id))
  end.

Definition ks_delete_key (key_id : string) (ks : KeyStore) : KeyStore * result AuthError unit :=
  match keys ks !! key_id with
  | Some key =>
      (mkKeyStore (delete key_id (keys ks)) (delete (ak_key_hash key) (hash_to_id ks)) (jwt_secret ks),
       Ok tt)
  | None => (ks, Err (KeyNotFound key_id))
  end.

Definition touch_key (now : Z) (key_id : string) (ks : KeyStore) : KeyStore :=
  match keys ks !! key_id with
  | Some key =>
      mkKeyStore (<[key_id := set_last_used now key]> (keys ks)) (hash_to_id ks) (jwt_secret ks)
  | None => ks
  end.

(** ** Runs of the store *)
Inductive KeyOp :=
  | OpGenerate (now : Z) (random_bytes : bytes) (key_id : string) (salt : bytes)
      (name tenant : string) (role : Role) (expires_in : option Z)
  | OpRevoke (key_id : string)
  | OpDelete (key_id : string)
  | OpTouch (now : Z) (key_id : string).

Definition key_op (op : KeyOp) (ks : KeyStore) : KeyStore :=
  match op with
  | OpGenerate now rb id salt name tenant role exp =>
      (ks_generate_key now rb id salt name tenant role exp ks).1
  | OpRevoke id => (revoke_key id ks).1
  | OpDelete id => (ks_delete_key id ks).1
  | OpTouch now id => touch_key now id ks
  end.
Definition key_run (ops : list KeyOp) (ks : KeyStore) : KeyStore := fold_left (λ ks op, key_op op ks) ops ks.

(** No operation makes a key with the identifier [id] (a random UUID). *)
Definition not_generated (id : string) (ops : list KeyOp) : Prop :=
  Forall (λ op, match op with OpGenerate _ _ id' _ _ _ _ _ => id' ≠ id | _ => True end) ops.

(** Keys are stored under their identifiers. *)
Definition ks_inv (ks : KeyStore) : Prop := ∀ id k, keys ks !! id = Some k → ak_id k = id.

(** The key is gone, or disabled. *)
Definition unusable (id : string) (ks : KeyStore) : Prop :=
  ∀ k, keys ks !! id = Some k → ak_active k = false.

(** ** Lemmas *)
Lemma ks_values_elem ks k : k ∈ (hash_iter (keys ks)).*2 ↔ ∃ id, keys ks !! id = Some k.
Proof.
  rewrite list_elem_of_fmap. split.
  - intros ([id k'] & -> & H%hash_iter_lookup). by exists id.
  - intros [id H%hash_iter_lookup]. by exists (id, k).
Qed.

Lemma validate_loop_None now key l :
  Forall (λ k, verify_password (as_bytes key) (ak_key_hash k) = false) l →
  validate_loop now key l = AuthInvalid "Invalid API key".
Proof. induction 1 as [|k l Hk _ IH]; simpl; [done|]. by rewrite Hk. Qed.

Lemma validate_loop_found now key l k0 :
  k0 ∈ l → verify_password (as_bytes key) (ak_key_hash k0) = true →
  (∀ k, k ∈ l → verify_password (as_bytes key) (ak_key_hash k) = true → k = k0) →
  validate_loop now key l = judge_key now k0.
Proof.
  intros Hin Hv Hu. induction l as [|k l IH]; [by apply not_elem_of_nil in Hin|]. simpl.
  destruct (verify_password (as_bytes key) (ak_key_hash k)) eqn:E.
  - by rewrite (Hu k (list_elem_of_here _ _) E).
  - apply IH.
    + apply elem_of_cons in Hin as [->|]; [congruence|done].
    + intros k' Hk'. apply Hu. by apply list_elem_of_further.
Qed.

Lemma validate_loop_Ok now key l ctx :
  validate_loop now key l = AuthOk ctx →
  ∃ k, k ∈ l ∧ verify_password (as_bytes key) (ak_key_hash k) = true ∧
       ak_is_valid now k = true ∧ ctx = context_of k.
Proof.
  induction l as [|k l IH]; simpl; [done|].
  destruct (verify_password _ _) eqn:E.
  - unfold judge_key. destruct (ak_active k) eqn:Ea; simpl; [|done].
    destruct (ak_is_expired now k) eqn:Ee; simpl; [done|]. intros [= <-].
    exists k. split; [apply list_elem_of_here|]. unfold ak_is_valid. by rewrite Ea, Ee.
  - intros (k' & ? & ?)%IH. exists k'. split; [by apply list_elem_of_further|done].
Qed.

(** The key of a store in which only one hash verifies it. *)
Lemma validate_unique now key ks id k0 :
  starts_with API_KEY_PREFIX key = true →
  keys ks !! id = Some k0 → verify_password (as_bytes key) (ak_key_hash k0) = true →
  (∀ id' k, id' ≠ id → keys ks !! id' = Some k →
     verify_password (as_bytes key) (ak_key_hash k) = false) →
  ks_validate_key now key ks = judge_key now k0.
Proof.
  intros Hp Hk Hv Ho. unfold ks_validate_key. rewrite Hp. simpl. apply validate_loop_found; [|done|].
  - apply ks_values_elem. by exists id.
  - intros k [id' Hid']%ks_values_elem Hvk. destruct (decide (id' = id)) as [->|Hne]; [congruence|].
    by rewrite (Ho _ _ Hne Hid') in Hvk.
Qed.

Lemma validate_none now key ks :
  starts_with API_KEY_PREFIX key = true →
  (∀ id k, keys ks !! id = Some k → verify_password (as_bytes key) (ak_key_hash k) = false) →
  ks_validate_key now key ks = AuthInvalid "Invalid API key".
Proof.
  intros Hp Ho. unfold ks_validate_key. rewrite Hp. simpl. apply validate_loop_None.
  apply Forall_forall. intros k Hk%list_elem_of_In. apply ks_values_elem in Hk as [id Hk]. by eapply Ho.
Qed.

Lemma ks_inv_new secret : ks_inv (ks_with_secret secret).
Proof. intros id k H. simpl in H. by rewrite lookup_empty in H. Qed.

Lemma ks_inv_op op ks : ks_inv ks → ks_inv (key_op op ks).
Proof.
  intros I. destruct op; simpl; unfold ks_generate_key, revoke_key, ks_delete_key, touch_key.
  - destruct (hash_password _ _); [|done]. intros i k. simpl.
    rewrite lookup_insert_Some. intros [[<- <-]|[_ H]]; [done|by apply I].
  - destruct (keys ks !! key_id) eqn:E; [|done]. intros i k. simpl.
    rewrite lookup_insert_Some. intros [[<- <-]|[_ H]]; simpl; by apply I.
  - destruct (keys ks !! key_id) eqn:E; [|done]. intros i k. simpl.
    intros [_ H]%lookup_delete_Some. by apply I.
  - destruct (keys ks !! key_id) eqn:E; [|done]. intros i k. simpl.
    rewrite lookup_insert_Some. intros [[<- <-]|[_ H]]; simpl; by apply I.
Qed.

Lemma ks_inv_run ops ks : ks_inv ks → ks_inv (key_run ops ks).
Proof.
  revert ks. induction ops as [|op ops IH]; intros ks I; simpl; [done|]. by apply IH, ks_inv_op.
Qed.

Lemma unusable_op id op ks :
  not_generated id [op] → unusable id ks → unusable id (key_op op ks).
Proof.
  unfold not_generated. rewrite Forall_singleton. intros Hg U.
  destruct op; simpl in *; unfold ks_generate_key, revoke_key, ks_delete_key, touch_key.
  - destruct (hash_password _ _); [|done]. intros k. simpl. rewrite lookup_insert_ne by done. apply U.
  - destruct (keys ks !! key_id) eqn:E; [|done]. intros k. simpl.
    rewrite lookup_insert_Some. intros [[<- <-]|[_ H]]; [done|by apply U].
  - destruct (keys ks !! key_id) eqn:E; [|done]. intros k. simpl.
    intros [_ H]%lookup_delete_Some. by apply U.
  - destruct (keys ks !! key_id) eqn:E; [|done]. intros k. simpl.
    rewrite lookup_insert_Some. intros [[<- <-]|[_ H]]; simpl; by apply U.
Qed.

Lemma unusable_run id ops ks :
  not_generated id ops → unusable id ks → unusable id (key_run ops ks).
Proof.
  revert ks. induction ops as [|op ops IH]; intros ks Hg U; simpl; [done|].
  inversion_clear Hg as [|? ? Hop Hops]. apply IH; [done|].
  apply unusable_op; [by apply Forall_singleton|done].
Qed.

Lemma validate_key_unusable now key ks id ctx :
  ks_inv ks → unusable id ks → ks_validate_key now key ks = AuthOk ctx → ctx_key_id ctx ≠ id.
Proof.
  intros I U H. unfold ks_validate_key in H. destruct (starts_with _ _); [|done]. simpl in H.
  apply validate_loop_Ok in H as (k & [id' Hk]%ks_values_elem & _ & Hv & ->). simpl.
  rewrite (I _ _ Hk). intros ->. apply andb_true_iff in Hv as [Ha _]. by rewrite (U _ Hk) in Ha.
Qed.

Lemma key_run_secret ops ks : jwt_secret (key_run ops ks) = jwt_secret ks.
Proof.
  revert ks. induction ops as [|op ops IH]; intros ks; simpl; [done|]. rewrite IH.
  destruct op; simpl; unfold ks_generate_key, revoke_key, ks_delete_key, touch_key; by case_match.
Qed.

Lemma plaintext_prefix rb : starts_with API_KEY_PREFIX (plaintext_of rb) = true.
Proof. unfold starts_with, plaintext_of. by rewrite as_bytes_app, strip_prefix_bytes_app. Qed.

Lemma generated_key_validates now rb id salt name tenant role expires ks ks' plaintext now' :
  (∀ id' k, id' ≠ id → keys ks !! id' = Some k →
     verify_password (as_bytes (plaintext_of rb)) (ak_key_hash k) = false) →
  ks_generate_key now rb id salt name tenant role expires ks = (ks', Ok (id, plaintext)) →
  ks_validate_key now' plaintext ks' =
    match expires with
    | Some d => if add64 now (wrap64 d) <=? now' then AuthExpired
                else AuthOk (mkAuthContext id tenant role)
    | None => AuthOk (mkAuthContext id tenant role)
    end.
Proof.
  intros Hother H. unfold ks_generate_key in H.
  destruct (hash_password _ salt) as [h|] eqn:Eh; simplify_eq. apply verify_hashed in Eh.
  erewrite (validate_unique now' _ _ id);
    [|apply plaintext_prefix|apply lookup_insert_eq|done|].
  - unfold judge_key, ak_is_expired; simpl. by destruct expires.
  - intros id' k Hne. simpl. rewrite lookup_insert_ne by done. by apply Hother.
Qed.

(** No operation answers [AuthForbidden]. *)
Lemma ks_validate_key_not_forbidden now key ks m : ks_validate_key now key ks ≠ AuthForbidden m.
Proof.
  unfold ks_validate_key. case_match; [done|]. generalize (hash_iter (keys ks)).*2. intros l.
  induction l as [|k l IH]; simpl; [done|]. unfold judge_key. by repeat case_match.
Qed.

Lemma authenticate_not_forbidden now now_s h ks m : authenticate now now_s h ks ≠ AuthForbidden m.
Proof.
  unfold authenticate, validate_jwt. repeat case_match; try done. apply ks_validate_key_not_forbidden.
Qed.

(** The header [ApiKey <key>]. *)
Lemma authenticate_apikey now now_s key ks :
  authenticate now now_s ("ApiKey " +:+ key) ks = ks_validate_key now key ks.
Proof.
  unfold authenticate, split_space. rewrite as_bytes_app. simpl. by rewrite of_bytes_as_bytes.
Qed.

(** ** Properties *)

(** The life of an API key: a key that was just generated, whose text no
    other stored hash verifies, is accepted with the tenant and role it was made
    for until it expires, and afterwards is reported as expired; once revoked it
    is reported as disabled, and once deleted as unknown. *)
Theorem api_key_lifecycle now rb id salt name tenant role expires ks ks' plaintext :
  keys ks !! id = None →
  (∀ id' k, keys ks !! id' = Some k →
     verify_password (as_bytes (plaintext_of rb)) (ak_key_hash k) = false) →
  ks_generate_key now rb id salt name tenant role expires ks = (ks', Ok (id, plaintext)) →
  (∀ now', ks_validate_key now' plaintext ks' =
     match expires with
     | Some d => if add64 now (wrap64 d) <=? now' then AuthExpired
                 else AuthOk (mkAuthContext id tenant role)
     | None => AuthOk (mkAuthContext id tenant role)
     end) ∧
  (∀ now', ks_validate_key now' plaintext (revoke_key id ks').1 = AuthInvalid "Key is disabled") ∧
  (∀ now', ks_validate_key now' plaintext (ks_delete_key id ks').1 = AuthInvalid "Invalid API key").
Proof.
  intros Hfresh Hother H. split; [intros now'; eapply generated_key_validates; [|exact H]; eauto|].
  unfold ks_generate_key in H.
  destruct (hash_password _ salt) as [h|] eqn:Eh; simplify_eq. apply verify_hashed in Eh.
  split; intros now'.
  - unfold revoke_key; simpl. rewrite lookup_insert_eq. simpl.
    erewrite (validate_unique now' _ _ id);
      [|apply plaintext_prefix|apply lookup_insert_eq|done|]; [done|].
    intros id' k Hne. simpl. rewrite !lookup_insert_ne by done. apply Hother.
  - unfold ks_delete_key; simpl. rewrite lookup_insert_eq. apply validate_none; [apply plaintext_prefix|].
    intros id' k. cbn [fst keys]. rewrite delete_insert_id by done. apply Hother.
Qed.

(** A key that was revoked or deleted is never accepted again: whatever
    keys are generated, revoked, deleted or used afterwards, no API key
    authenticates as it, as long as its identifier is not drawn again. *)
Theorem revoked_key_stays_out ops ks ks1 id now key ctx :
  ks_inv ks → revoke_key id ks = (ks1, Ok tt) ∨ ks_delete_key id ks = (ks1, Ok tt) →
  not_generated id ops →
  ks_validate_key now key (key_run ops ks1) = AuthOk ctx → ctx_key_id ctx ≠ id.
Proof.
  intros I H Hg. assert (ks_inv ks1 ∧ unusable id ks1) as [I1 U1].
  { unfold revoke_key, ks_delete_key in H.
    split; [destruct H as [H|H]; [pose proof (ks_inv_op (OpRevoke id) ks I) as I1
                                 |pose proof (ks_inv_op (OpDelete id) ks I) as I1];
            unfold key_op, revoke_key, ks_delete_key in I1; by rewrite H in I1|].
    destruct (keys ks !! id) as [k0|]; destruct H as [H|H]; simplify_eq; intros k; simpl.
    - rewrite lookup_insert_eq. by intros [= <-].
    - by rewrite lookup_delete_eq. }
  apply validate_key_unusable; [by apply ks_inv_run|by apply unusable_run].
Qed.

(** A token authenticates the context it was made for up to the second it
    expires, and no more from then on.  The store of keys plays no role: this
    holds whatever operations come in between, revocation and deletion of the
    key included. *)
Theorem jwt_valid_until_expiry now_s auth ks token ops now_s' :
  0 ≤ now_s ≤ now_s' → now_s' + 86400 < 2 ^ 64 →
  generate_jwt now_s auth ks = Ok token →
  (now_s' < now_s + 86400 → validate_jwt now_s' token (key_run ops ks) = AuthOk auth) ∧
  (now_s + 86400 ≤ now_s' → ∀ ctx, validate_jwt now_s' token (key_run ops ks) ≠ AuthOk ctx).
Proof.
  intros Hn Hmax H. unfold generate_jwt in H. destruct (jwt_encode _ _) as [t|] eqn:E; simplify_eq/=.
  change (24 * 3600) with 86400 in E. unfold JWT_EXPIRATION_HOURS in E. change (24 * 3600) with 86400 in E.
  rewrite add64_small in E by lia. unfold validate_jwt. rewrite key_run_secret. split.
  - intros Hlt. rewrite (jwt_decode_encode _ _ _ now_s' E) by (simpl; lia). simpl.
    destruct (Z.leb_spec (now_s + 86400) now_s'); [lia|]. by destruct auth.
  - intros Hle ctx. destruct (jwt_decode _ _ _) as [c|] eqn:Ed; [|done].
    rewrite (jwt_decode_claims _ _ _ _ _ E Ed). simpl.
    destruct (Z.leb_spec (now_s + 86400) now_s'); [done|lia].
Qed.
End auth.

(** ** Witnesses *)
#[export] Instance Role_countable : Countable Role.
Proof.
  apply (inj_countable' (λ r, match r with Admin => 0 | ReadWrite => 1 | ReadOnly => 2 end)
    (λ z, if z =? 0 then Admin else if z =? 1 then ReadWrite else ReadOnly)).
  by intros [].
Defined.
#[export] Instance Claims_eq_dec : EqDecision Claims.
Proof. solve_decision. Defined.
#[export] Instance Claims_countable : Countable Claims.
Proof.
  apply (inj_countable' (λ c, (cl_sub c, cl_tenant c, cl_role c, cl_exp c, cl_iat c))
    (λ '(a, b, c, d, e), mkClaims a b c d e)).
  by intros [].
Defined.

(** A "hash" that shows the password, and tokens that show secret and claims. *)
Definition toy_argon2 : Argon2.
Proof.
  refine {| hash_password pw salt := Ok (of_bytes pw);
            verify_password pw h := bool_decide (h = of_bytes pw) |}.
  intros pw salt h [= <-]. by apply bool_decide_eq_true.
Defined.
Definition toy_base64 : Base64 := {| base64_url bs := of_bytes bs |}.
Definition toy_jwt_decode (secret : bytes) (token : string) : result string Claims :=
  match decode (A := bytes * Claims) (pos_of_bytes (as_bytes token)) with
  | Some (s, c) => if bool_decide (s = secret) then Ok c else Err "invalid signature"%string
  | None => Err "invalid token"%string
  end.
Definition toy_jwt : Jwt.
Proof.
  assert (∀ s c, toy_jwt_decode s (of_bytes (bytes_of_pos (encode (s, c)))) = Ok c) as H.
  { intros s c. unfold toy_jwt_decode. rewrite as_bytes_of_bytes, pos_of_bytes_of_pos, decode_encode.
    by rewrite bool_decide_true. }
  refine {| jwt_encode s c := Ok (of_bytes (bytes_of_pos (encode (s, c))));
            jwt_decode s _ t := toy_jwt_decode s t |}.
  - intros s c t _ [= <-] _. apply H.
  - intros s c t _ c' [= <-]. rewrite H. congruence.
Defined.

Section witnesses.
Local Existing Instance toy_argon2.
Local Existing Instance toy_base64.
Local Existing Instance toy_jwt.
Local Existing Instance sorted_iter.

Definition ex_keys : KeyStore :=
  (ks_generate_key 1000 [x61; x62] "id-1" [] "test" "acme" ReadWrite (Some 500) ks_new).1.

Lemma ex_keys_inv : ks_inv ex_keys.
Proof. apply (ks_inv_op (OpGenerate 1000 [x61; x62] "id-1" [] "test" "acme" ReadWrite (Some 500)) ks_new), ks_inv_new. Qed.

Lemma api_key_lifecycle_witness :
  ks_validate_key 1200 "mkv_ab" ex_keys = AuthOk (mkAuthContext "id-1" "acme" ReadWrite) ∧
  ks_validate_key 1500 "mkv_ab" ex_keys = AuthExpired ∧
  ks_validate_key 1200 "mkv_ab" (revoke_key "id-1" ex_keys).1 = AuthInvalid "Key is disabled".
Proof.
  destruct (api_key_lifecycle 1000 [x61; x62] "id-1" [] "test" "acme" ReadWrite (Some 500) ks_new
    ex_keys "mkv_ab") as (H1 & H2 & _).
  - reflexivity.
  - intros id' k H. exfalso. revert H. unfold ks_new, ks_with_secret; simpl. by rewrite lookup_empty.
  - reflexivity.
  - split; [exact (H1 1200)|]. split; [exact (H1 1500)|exact (H2 1200)].
Defined.

Definition ex_later_ops : list KeyOp :=
  [OpTouch 1100 "id-1"; OpGenerate 1150 [x63] "id-2" [] "other" "acme" ReadOnly None].

Lemma revoked_key_stays_out_witness :
  match ks_validate_key 1200 "mkv_c" (key_run ex_later_ops (revoke_key "id-1" ex_keys).1) with
  | AuthOk ctx => ctx_key_id ctx ≠ "id-1"%string
  | _ => False
  end.
Proof.
  destruct (ks_validate_key 1200 "mkv_c" (key_run ex_later_ops (revoke_key "id-1" ex_keys).1)) eqn:E;
    try by vm_compute in E.
  apply (revoked_key_stays_out ex_later_ops ex_keys (revoke_key "id-1" ex_keys).1 "id-1" 1200 "mkv_c" ctx);
    [exact ex_keys_inv|by left|by repeat constructor|exact E].
Defined.

Definition ex_context : AuthContext := mkAuthContext "id-1" "acme" ReadWrite.
Definition ex_token : string :=
  match generate_jwt 10 ex_context ex_keys with Ok t => t | Err _ => ""%string end.

Lemma jwt_valid_until_expiry_witness :
  validate_jwt 100 ex_token (key_run [OpRevoke "id-1"] ex_keys) = AuthOk ex_context.
Proof.
  apply (jwt_valid_until_expiry 10 ex_context ex_keys ex_token [OpRevoke "id-1"] 100);
    [lia|lia|vm_compute; reflexivity|lia].
Defined.
End witnesses.
