(* ===== verification/KeyLocks.v ===== *)
(** * The locks of the key store

    [KeyStore] of [src/common/auth.rs] keeps its two maps behind [RwLock]s and
    is one global object that all requests use.  Its methods as programs of
    [Threads]; run alone they are the functions of [Auth].  [generate_key] fills
    the two maps one after the other, [delete_key] holds both. *)

From Stdlib Require Import ZArith Lia.
From Stdlib.Strings Require Import Byte.
From stdpp Require Import base option list relations gmap strings.
From S2P Require Import Prelude Bytes Text External Auth Threads Invariants.

Inductive KeyField := FKeys | FHashes.
#[export] Instance KeyField_eq_dec : EqDecision KeyField.
Proof. solve_decision. Defined.

Definition key_cell (f : KeyField) : Type :=
  match f with FKeys => gmap string ApiKey | FHashes => gmap string string end.
Definition key_read (f : KeyField) (ks : KeyStore) : key_cell f :=
  match f with FKeys => keys ks | FHashes => hash_to_id ks end.
Definition key_write (f : KeyField) : key_cell f → KeyStore → KeyStore :=
  match f with
  | FKeys => λ m ks, mkKeyStore m (hash_to_id ks) (jwt_secret ks)
  | FHashes => λ m ks, mkKeyStore (keys ks) m (jwt_secret ks)
  end.

#[export] Instance key_guarded : Guarded KeyStore := {|
  lock := KeyField; lock_eq_dec := KeyField_eq_dec; cell := key_cell;
  read_cell := key_read; write_cell := key_write;
|}.
#[export] Instance key_guarded_laws : GuardedLaws KeyStore (Guarded0 := key_guarded).
Proof. split; [by intros []|by intros [] []]. Qed.

Abbreviation kprog := (@prog KeyStore key_guarded).
Abbreviation KRead f k := (@Acquire KeyStore key_guarded _ f Shared k).
Abbreviation KWrite f k := (@Acquire KeyStore key_guarded _ f Exclusive k).
Abbreviation KDrop f k := (@Release KeyStore key_guarded _ f k).
Abbreviation KGet f k := (@Load KeyStore key_guarded _ f k).
Abbreviation KSet f v k := (@Store KeyStore key_guarded _ f v k).

Section methods.
Context {A2 : Argon2} {B64 : Base64} {JW : Jwt} {HI : HashIter}.

Definition generate_key_code (now : Z) (random_bytes : bytes) (key_id : string) (salt : bytes)
    (name tenant : string) (role : Role) (expires_in : option Z)
    : kprog (result AuthError (string * string)) :=
  let plaintext_key := plaintext_of random_bytes in
  match hash_password (as_bytes plaintext_key) salt with
  | Err e => Done (Err (HashError e))
  | Ok key_hash =>
      let expires_at := (λ d, add64 now (wrap64 d)) <$> expires_in in
      let api_key := mkApiKey key_id name key_hash tenant role now expires_at true None in
      KWrite FKeys (KGet FKeys (λ keys : gmap string ApiKey,
      KSet FKeys (<[key_id := api_key]> keys) (KDrop FKeys (
      KWrite FHashes (KGet FHashes (λ hashes : gmap string string,
      KSet FHashes (<[key_hash := key_id]> hashes) (KDrop FHashes (
      Done (Ok (key_id, plaintext_key))))))))))
  end.
Definition validate_key_code (now : Z) (key : string) : kprog AuthResult :=
  if negb (starts_with API_KEY_PREFIX key) then Done (AuthInvalid "Invalid key format") else
  KRead FKeys (KGet FKeys (λ keys : gmap string ApiKey,
  KDrop FKeys (Done (validate_loop now key (hash_iter keys).*2)))).
Definition get_key_code (key_id : string) : kprog (option ApiKey) :=
  KRead FKeys (KGet FKeys (λ keys : gmap string ApiKey, KDrop FKeys (Done (keys !! key_id)))).
Definition list_keys_code : kprog (list ApiKey) :=
  KRead FKeys (KGet FKeys (λ keys : gmap string ApiKey, KDrop FKeys (Done (hash_iter keys).*2))).
Definition list_keys_for_tenant_code (tenant : string) : kprog (list ApiKey) :=
  KRead FKeys (KGet FKeys (λ keys : gmap string ApiKey,
  KDrop FKeys (Done (filter (λ k, ak_tenant k = tenant) (hash_iter keys).*2)))).
Definition revoke_key_code (key_id : string) : kprog (result AuthError unit) :=
  KWrite FKeys (KGet FKeys (λ keys : gmap string ApiKey,
  match keys !! key_id with
  | Some key => KSet FKeys (<[key_id := set_active false key]> keys) (KDrop FKeys (Done (Ok tt)))
  | None => KDrop FKeys (Done (Err (KeyNotFound key_id)))
  end)).
Definition delete_key_code (key_id : string) : kprog (result AuthError unit) :=
  KWrite FKeys (KGet FKeys (λ keys : gmap string ApiKey,
  match keys !! key_id with
  | Some key =>
      KSet FKeys (delete key_id keys) (
      KWrite FHashes (KGet FHashes (λ hashes : gmap string string,
      KSet FHashes (delete (ak_key_hash key) hashes) (KDrop FHashes (KDrop FKeys (Done (Ok tt)))))))
  | None => KDrop FKeys (Done (Err (KeyNotFound key_id)))
  end)).
Definition touch_key_code (now : Z) (key_id : string) : kprog unit :=
  KWrite FKeys (KGet FKeys (λ keys : gmap string ApiKey,
  match keys !! key_id with
  | Some key => KSet FKeys (<[key_id := set_last_used now key]> keys) (KDrop FKeys (Done tt))
  | None => KDrop FKeys (Done tt)
  end)).
(** A token is checked without the maps. *)
Definition authenticate_code (secret : bytes) (now now_s : Z) (auth_header : string) : kprog AuthResult :=
  match split_space auth_header with
  | None => Done (AuthInvalid "Invalid Authorization header format")
  | Some (scheme, credential) =>
      if bool_decide (to_lowercase scheme = "bearer"%string)
      then Done (validate_jwt now_s credential (ks_with_secret secret))
      else if bool_decide (to_lowercase scheme = "apikey"%string) then validate_key_code now credential
      else Done (AuthInvalid ("Unknown auth scheme: " +:+ scheme))
  end.
End methods.

(** ** Calls *)
Inductive KeyCall :=
  | CallGenerate (now : Z) (random_bytes : bytes) (key_id : string) (salt : bytes)
      (name tenant : string) (role : Role) (expires_in : option Z)
  | CallValidate (now : Z) (key : string)
  | CallAuthenticate (now now_s : Z) (auth_header : string)
  | CallGetKey (key_id : string) | CallListKeys | CallListForTenant (tenant : string)
  | CallRevoke (key_id : string) | CallDelete (key_id : string) | CallTouch (now : Z) (key_id : string).

Inductive KeyReply :=
  | KRGenerated (r : result AuthError (string * string)) | KRAuth (r : AuthResult)
  | KRKey (k : option ApiKey) | KRKeys (ks : list ApiKey) | KRResult (r : result AuthError unit) | KRUnit.

Section calls.
Context {A2 : Argon2} {B64 : Base64} {JW : Jwt} {HI : HashIter}.

Definition key_reply {A} (f : A → KeyReply) (p : kprog A) : kprog KeyReply := prog_bind p (λ a, Done (f a)).

(** [secret] is the key of the tokens, which has no lock. *)
Definition key_call_code (secret : bytes) (c : KeyCall) : kprog KeyReply :=
  match c with
  | CallGenerate now rb id salt name tenant role expires =>
      key_reply KRGenerated (generate_key_code now rb id salt name tenant role expires)
  | CallValidate now key => key_reply KRAuth (validate_key_code now key)
  | CallAuthenticate now now_s h => key_reply KRAuth (authenticate_code secret now now_s h)
  | CallGetKey id => key_reply KRKey (get_key_code id)
  | CallListKeys => key_reply KRKeys list_keys_code
  | CallListForTenant t => key_reply KRKeys (list_keys_for_tenant_code t)
  | CallRevoke id => key_reply KRResult (revoke_key_code id)
  | CallDelete id => key_reply KRResult (delete_key_code id)
  | CallTouch now id => key_reply (λ _, KRUnit) (touch_key_code now id)
  end.

Definition key_call (c : KeyCall) (ks : KeyStore) : KeyStore * KeyReply :=
  match c with
  | CallGenerate now rb id salt name tenant role expires =>
      let '(ks', r) := ks_generate_key now rb id salt name tenant role expires ks in (ks', KRGenerated r)
  | CallValidate now key => (ks, KRAuth (ks_validate_key now key ks))
  | CallAuthenticate now now_s h => (ks, KRAuth (authenticate now now_s h ks))
  | CallGetKey id => (ks, KRKey (ks_get_key id ks))
  | CallListKeys => (ks, KRKeys (ks_list_keys ks))
  | CallListForTenant t => (ks, KRKeys (list_keys_for_tenant t ks))
  | CallRevoke id => let '(ks', r) := revoke_key id ks in (ks', KRResult r)
  | CallDelete id => let '(ks', r) := ks_delete_key id ks in (ks', KRResult r)
  | CallTouch now id => (touch_key now id ks, KRUnit)
  end.

Lemma exec_key_call c ks : exec (key_call_code (jwt_secret ks) c) ks = key_call c ks.
Proof.
  destruct ks as [m hs secret]. destruct c; try reflexivity; cbn.
  - unfold generate_key_code, ks_generate_key. by destruct (hash_password _ _).
  - unfold validate_key_code, ks_validate_key. by destruct (negb _).
  - unfold authenticate_code, authenticate, validate_key_code, ks_validate_key.
    destruct (split_space _) as [[scheme cred]|]; [|done].
    destruct (bool_decide _); [done|]. destruct (bool_decide _); [|done]. by destruct (negb _).
  - unfold revoke_key; simpl. by destruct (m !! key_id).
  - unfold ks_delete_key; simpl. by destruct (m !! key_id).
  - unfold touch_key; simpl. by destruct (m !! key_id).
Qed.

(** ** A key that is out stays out *)
Definition key_out (id : string) (ks : KeyStore) : Prop := ks_inv ks ∧ unusable id ks.
Definition makes_key (id : string) (c : KeyCall) : bool :=
  match c with CallGenerate _ _ id' _ _ _ _ _ => bool_decide (id' = id) | _ => false end.
(** The credentials are an API key, not a token. *)
Definition with_api_key (c : KeyCall) : bool :=
  match c with
  | CallValidate _ _ => true
  | CallAuthenticate _ _ h =>
      match split_space h with
      | Some (scheme, _) => negb (bool_decide (to_lowercase scheme = "bearer"%string))
      | None => true
      end
  | _ => false
  end.
(** The answer does not let the key in. *)
Definition keeps_out (id : string) (c : KeyCall) (r : KeyReply) : Prop :=
  with_api_key c = true → ∀ ctx, r = KRAuth (AuthOk ctx) → ctx_key_id ctx ≠ id.

(** The invariant is about the map of keys alone. *)
Lemma key_out_keys id ks ks' : key_out id ks → keys ks' = keys ks → key_out id ks'.
Proof. intros [H1 H2] E. split; [intros i k|intros k]; rewrite E; [apply H1|apply H2]. Qed.
Lemma key_out_insert id ks m i k :
  key_out id ks → keys ks = m → ak_id k = i → (i = id → ak_active k = false) →
  key_out id (mkKeyStore (<[i := k]> m) (hash_to_id ks) (jwt_secret ks)).
Proof.
  intros [H1 H2] <- Hi Ha. unfold key_out, ks_inv, unusable. simpl. split.
  - intros j k' [[<- <-]|[_ H]]%lookup_insert_Some; [done|by apply H1].
  - intros k' [[<- <-]|[_ H]]%lookup_insert_Some; [by apply Ha|by apply H2].
Qed.
Lemma key_out_delete id ks m i :
  key_out id ks → keys ks = m → key_out id (mkKeyStore (delete i m) (hash_to_id ks) (jwt_secret ks)).
Proof.
  intros [H1 H2] <-. unfold key_out, ks_inv, unusable. simpl. split; [intros j k [_ H]%lookup_delete_Some|intros k [_ H]%lookup_delete_Some];
    [by apply H1|by apply H2].
Qed.

Lemma agree_keys h ks ks' :
  agree (GS := key_guarded) h ks ks' → (FKeys : lock (Guarded := key_guarded)) ∈ h.*1 → keys ks' = keys ks.
Proof. intros H Hin. symmetry. exact (H FKeys Hin). Qed.

Lemma validate_keeps id now key c (f : AuthResult → KeyReply) s :
  (∀ r, f r = KRAuth r) →
  keeps (GS := key_guarded) (key_out id) (keeps_out id c) [] (key_reply f (validate_key_code now key)) s.
Proof.
  intros Hf. unfold validate_key_code. destruct (starts_with API_KEY_PREFIX key) eqn:Ep; cbn -[starts_with].
  - intros ks [H1 H2] _. split; [repeat constructor|]. intros _ ctx E.
    rewrite Hf in E. injection E as E. apply (validate_key_unusable now key ks id ctx H1 H2).
    unfold ks_validate_key. by rewrite Ep.
  - intros _ ctx E. by rewrite Hf in E.
Qed.

Lemma key_call_keeps id secret c s :
  makes_key id c = false →
  keeps (GS := key_guarded) (key_out id) (keeps_out id c) [] (key_call_code secret c) s.
Proof.
  intros Hc. destruct c as [now rb i salt name tenant role exp|now key|now now_s h|i| |t|i|i|now i].
  - cbn in Hc. apply bool_decide_eq_false in Hc. cbn. unfold generate_key_code.
    destruct (hash_password _ _) as [h|e]; cbn; [|by intros _ ctx].
    intros s1 H1 _. split; [repeat constructor|]. split; [repeat constructor|]. split.
    { intros s2 H2 Ha. apply key_out_insert; [done|eapply agree_keys; [done|repeat constructor]|done|done]. }
    intros s2 H2 _. split; [repeat constructor|]. split; [repeat constructor|]. split; [|by intros _ ctx].
    intros s3 H3 _. by eapply key_out_keys.
  - by apply validate_keeps.
  - unfold key_call_code, authenticate_code.
    destruct (split_space h) as [[scheme cred]|] eqn:Eh; [|by intros _ ctx].
    destruct (bool_decide (to_lowercase scheme = "bearer"%string)) eqn:Eb.
    { intros Hk. cbn in Hk. by rewrite Eh, Eb in Hk. }
    destruct (bool_decide (to_lowercase scheme = "apikey"%string)); [by apply validate_keeps|by intros _ ctx].
  - cbn. intros s1 _ _. split; [repeat constructor|by intros ?].
  - cbn. intros s1 _ _. split; [repeat constructor|by intros ?].
  - cbn. intros s1 _ _. split; [repeat constructor|by intros ?].
  - cbn. intros s1 H1 _. split; [repeat constructor|]. destruct (keys s1 !! i) as [k|] eqn:E; cbn; [|by intros ?].
    split; [repeat constructor|]. split; [|by intros ?]. intros s2 H2 Ha.
    apply key_out_insert; [done|eapply agree_keys; [done|repeat constructor]|exact (proj1 H1 i k E)|done].
  - cbn. intros s1 H1 _. split; [repeat constructor|]. destruct (keys s1 !! i) as [k|] eqn:E; cbn; [|by intros ?].
    split; [repeat constructor|]. split.
    { intros s2 H2 Ha. apply key_out_delete; [done|eapply agree_keys; [done|repeat constructor]]. }
    intros s2 H2 _. split; [repeat constructor|]. split; [repeat constructor|]. split; [|by intros ?].
    intros s3 H3 _. by eapply key_out_keys.
  - cbn. intros s1 H1 _. split; [repeat constructor|]. destruct (keys s1 !! i) as [k|] eqn:E; cbn; [|by intros ?].
    split; [repeat constructor|]. split; [|by intros ?]. intros s2 H2 Ha.
    apply key_out_insert; [done|eapply agree_keys; [done|repeat constructor]|exact (proj1 H1 i k E)|].
    intros ->. exact (proj2 H1 k E).
Qed.

(** ** Order *)
Definition key_rank (f : KeyField) : nat := match f with FKeys => 0 | FHashes => 1 end.
Lemma key_call_ordered secret c :
  ordered (GS := key_guarded) (lock_rank (GS := key_guarded) key_rank) [] (key_call_code secret c) [].
Proof.
  destruct c; unfold key_call_code, key_reply, generate_key_code, authenticate_code, validate_key_code;
    repeat (cbn -[elem_of fmap release starts_with hash_password split_space]; first [order_rule | match goal with
      | |- context [match ?o with Some _ => _ | None => _ end] => destruct o
      | |- context [match ?o with Ok _ => _ | Err _ => _ end] => destruct o
      | |- context [let (_, _) := ?o in _] => destruct o
      end]).
Qed.

(** ** Properties *)

(** C21. Revocation is immediate: after [revoke_key] or [delete_key] has
    returned, whatever calls any number of threads make, however they interleave
    and as long as no new key draws the same identifier, the key stays out, and no
    call that presents an API key, as a header or directly, is answered with the
    identity of that key. *)
Theorem revocation_immediate writers_first id ks ks1 cs ts ks2 :
  ks_inv ks → revoke_key id ks = (ks1, Ok tt) ∨ ks_delete_key id ks = (ks1, Ok tt) →
  Forall (λ c, makes_key id c = false) cs →
  rtc (pool_step writers_first) (start (map (key_call_code (jwt_secret ks)) cs) ks1) (ts, ks2) →
  unusable id ks2 ∧
  ∀ i c t r, cs !! i = Some c → ts !! i = Some t → code t = Done r → keeps_out id c r.
Proof.
  intros Hinv Hout HF Hr.
  assert (key_out id ks1) as H1.
  { destruct Hout as [E|E]; [unfold revoke_key in E|unfold ks_delete_key in E];
      destruct (keys ks !! id) as [k|] eqn:Ek; simplify_eq.
    - split; [by apply (ks_inv_op (OpRevoke id)) in Hinv; simpl in Hinv; unfold revoke_key in Hinv; rewrite Ek in Hinv|].
      intros k'. simpl. rewrite lookup_insert_eq. by intros [= <-].
    - split; [by apply (ks_inv_op (OpDelete id)) in Hinv; simpl in Hinv; unfold ks_delete_key in Hinv; rewrite Ek in Hinv|].
      intros k'. simpl. by rewrite lookup_delete_eq. }
  destruct (pool_keeps (GS := key_guarded) (key_out id) (key_call_code (jwt_secret ks)) (keeps_out id)
    writers_first cs ks1 ts ks2 H1) as [[_ H2] H3]; [|done|done].
  eapply Forall_impl; [exact HF|]. intros c Hc s. by apply key_call_keeps.
Qed.

(** Calls of the key store all return, however they are scheduled: both locks are
    taken in one order. *)
Theorem key_calls_return writers_first secret cs ks :
  sn (pool_step writers_first) (start (map (key_call_code secret) cs) ks) ∧
  ∀ c, rtc (pool_step writers_first) (start (map (key_call_code secret) cs) ks) c →
    nf (pool_step writers_first) c → Forall finished c.1.
Proof.
  apply (ordered_complete (GS := key_guarded) _ (lock_rank (GS := key_guarded) key_rank)); [apply lock_rank_ok|].
  apply Forall_map, Forall_forall. intros c _. apply key_call_ordered.
Qed.
End calls.

(** ** Witness *)
Section witnesses.
Local Existing Instance toy_argon2.
Local Existing Instance toy_base64.
Local Existing Instance toy_jwt.
Local Existing Instance sorted_iter.

(** Between the two maps of a new key, a touch and a check of the revoked key. *)
Definition ex_key_calls : list KeyCall :=
  [CallGenerate 1150 [x63] "id-2" [] "other" "acme" ReadOnly None; CallTouch 1160 "id-1"; CallValidate 1200 "mkv_ab"].
Definition ex_key_schedule : list nat := [0; 0; 0; 0; 1; 1; 1; 1; 2; 2; 2; 0; 0; 0; 0]%nat.

Definition ex_key_run : option (list (thread (GS := key_guarded) KeyReply) * KeyStore) :=
  run_schedule (GS := key_guarded) true ex_key_schedule
    (start (map (key_call_code (jwt_secret ex_keys)) ex_key_calls) (revoke_key "id-1" ex_keys).1).
Definition returned {A} (t : thread (GS := key_guarded) A) : bool := match code t with Done _ => true | _ => false end.

Lemma revocation_immediate_witness :
  match ex_key_run with
  | Some (ts, ks2) =>
      forallb returned ts = true ∧ unusable "id-1" ks2 ∧
      ∀ t r, ts !! 2%nat = Some t → code t = Done r → keeps_out "id-1" (CallValidate 1200 "mkv_ab") r
  | None => False
  end.
Proof.
  assert (match ex_key_run with Some c => forallb returned c.1 | None => false end = true) as Hd
    by (vm_compute; reflexivity).
  destruct ex_key_run as [[ts ks2]|] eqn:E; [|discriminate Hd].
  destruct (revocation_immediate true "id-1" ex_keys (revoke_key "id-1" ex_keys).1 ex_key_calls ts ks2)
    as [H1 H2]; [exact ex_keys_inv|by left|by repeat constructor|exact (run_schedule_rtc _ _ _ _ E)|].
  split; [exact Hd|]. split; [exact H1|]. intros t r Ht. exact (H2 2%nat _ t r eq_refl Ht).
Defined.
End witnesses.
