(* ===== verification/Access.v ===== *)
(** * Access control

    [src/common/auth_middleware.rs]: the middleware that authenticates requests
    and the ones that ask for a permission, and the API key endpoints of
    [src/coordinator/http.rs].  A middleware either runs the rest of the stack
    ([Next], with the request it passes on) or answers itself ([Reply]).  A
    header is its text, where [to_str] has one. *)

From Stdlib Require Import ZArith Lia.
From Stdlib.Strings Require Import Byte.
From stdpp Require Import base option list gmap strings.
From S2P Require Import Prelude Bytes Text External Auth AuditLog.

(** ** Requests *)
Record Request := mkRequest {
  rq_method : string;
  rq_path : string;
  rq_authorization : option string;
  rq_x_api_key : option string;
  (** The [AuthExtension] of the request, if one was inserted. *)
  rq_auth : option (option AuthContext);
}.
Definition with_auth (a : option AuthContext) (r : Request) : Request :=
  mkRequest (rq_method r) (rq_path r) (rq_authorization r) (rq_x_api_key r) (Some a).

(** [Reply status error detail]: the detail is the [message], [hint] or [role]. *)
Inductive Outcome :=
  | Next (r : Request)
  | Reply (status : Z) (error : string) (detail : string).

Record AuthConfig := mkAuthConfig {
  enabled : bool;
  cfg_jwt_secret : option string;
  require_auth_for_reads : bool;
  public_paths : list string;
}.
Definition AuthConfig_default : AuthConfig :=
  mkAuthConfig false None false ["/health"; "/health/ready"; "/health/live"; "/metrics"]%string.

Definition HTTP_UNAUTHORIZED : Z := 401.
Definition HTTP_FORBIDDEN : Z := 403.
Definition HTTP_CREATED : Z := 201.
Definition HTTP_BAD_REQUEST : Z := 400.

Section access.
Context {A2 : Argon2} {B64 : Base64} {JW : Jwt} {HI : HashIter}.

Definition is_public (config : AuthConfig) (path : string) : bool :=
  existsb (λ p, starts_with p path) (public_paths config).
Definition is_read (method : string) : bool :=
  bool_decide (method = "GET"%string) || bool_decide (method = "HEAD"%string) ||
  bool_decide (method = "OPTIONS"%string).

Definition auth_middleware (now now_s : Z) (config : AuthConfig) (r : Request) (ks : KeyStore)
    : KeyStore * Outcome :=
  if negb (enabled config) then (ks, Next (with_auth None r)) else
  if is_public config (rq_path r) then (ks, Next (with_auth None r)) else
  let proceed (auth_result : AuthResult) :=
    match auth_result with
    | AuthOk ctx => (touch_key now (ctx_key_id ctx) ks, Next (with_auth (Some ctx) r))
    | AuthMissing =>
        (ks, Reply HTTP_UNAUTHORIZED "Authentication required"
               "Provide Authorization header with 'Bearer <jwt>' or 'ApiKey <key>'")
    | AuthInvalid msg => (ks, Reply HTTP_UNAUTHORIZED "Invalid credentials" msg)
    | AuthExpired =>
        (ks, Reply HTTP_UNAUTHORIZED "Credentials expired"
               "Please generate a new API key or refresh your token")
    | AuthForbidden msg => (ks, Reply HTTP_FORBIDDEN "Access denied" msg)
    end in
  match rq_authorization r with
  | Some header => proceed (authenticate now now_s header ks)
  | None =>
      match rq_x_api_key r with
      | Some key => proceed (ks_validate_key now key ks)
      | None =>
          if is_read (rq_method r) && negb (require_auth_for_reads config)
          then (ks, Next (with_auth None r))
          else proceed AuthMissing
      end
  end.

Definition require_write_middleware (r : Request) : Outcome :=
  match rq_auth r with
  | Some (Some ctx) =>
      if negb (ctx_can_write ctx)
      then Reply HTTP_FORBIDDEN "Write permission required" (role_debug (ctx_role ctx))
      else Next r
  | _ => Next r
  end.

Definition require_admin_middleware (r : Request) : Outcome :=
  match rq_auth r with
  | Some (Some ctx) =>
      if negb (ctx_can_admin ctx)
      then Reply HTTP_FORBIDDEN "Admin permission required" (role_debug (ctx_role ctx))
      else Next r
  | _ => Reply HTTP_FORBIDDEN "Admin permission required" "Authenticate with an admin API key"
  end.

Definition get_tenant_from_request (r : Request) : string :=
  match rq_auth r with Some (Some ctx) => ctx_tenant ctx | _ => "default" end.
Definition is_admin_request (r : Request) : bool :=
  match rq_auth r with Some (Some ctx) => ctx_can_admin ctx | _ => false end.

(** A middleware behind [auth_middleware]. *)
Definition behind_auth (m : Request → Outcome) (now now_s : Z) (config : AuthConfig) (r : Request)
    (ks : KeyStore) : KeyStore * Outcome :=
  let '(ks, o) := auth_middleware now now_s config r ks in
  (ks, match o with Next r => m r | Reply s e d => Reply s e d end).

(** ** Endpoints for API keys *)
(** The key store, what was audited and what was sent to the watchers. *)
Record KeyAdmin := mkKeyAdmin {
  ad_keys : KeyStore; ad_audit : list AuditEntry; ad_events : list KeyChangeEvent }.

Record CreateKeyRequest := mkCreateKey {
  ck_name : string; ck_tenant : string; ck_role : string; ck_expires_in_secs : option Z }.
Record CreateKeyResponse := mkCreateKeyResponse {
  cr_id : string; cr_key : string; cr_tenant : string; cr_role : string; cr_warning : string }.

Definition default_tenant : string := "default".

(** [match req.role.to_lowercase().as_str()] *)
Definition parse_role (s : string) : option Role :=
  let l := to_lowercase s in
  if bool_decide (l = "admin"%string) then Some Admin
  else if bool_decide (l ∈ ["read_write"; "readwrite"; "rw"]%string) then Some ReadWrite
  else if bool_decide (l ∈ ["read_only"; "readonly"; "ro"; ""]%string) then Some ReadOnly
  else None.

Definition admin_create_key (now : Z) (random_bytes : bytes) (key_id : string) (salt : bytes)
    (req : CreateKeyRequest) (st : KeyAdmin) : KeyAdmin * (Z * (string + CreateKeyResponse)) :=
  match parse_role (ck_role req) with
  | None => (st, (HTTP_BAD_REQUEST, inl "Invalid role"%string))
  | Some role =>
      let expires_in := (λ s, s * 1000) <$> ck_expires_in_secs req in
      let '(ks, r) := ks_generate_key now random_bytes key_id salt (ck_name req) (ck_tenant req) role
                        expires_in (ad_keys st) in
      match r with
      | Ok (id, key) =>
          let response := mkCreateKeyResponse id key (ck_tenant req) (role_debug role)
                            "Store this key securely - it cannot be retrieved again!" in
          let audit := log_event now ApiKeyCreated (ck_name req) (Some id)
                         ("API key created for tenant " +:+ ck_tenant req +:+ " with role " +:+ role_debug role)
                         None (ad_audit st) in
          (mkKeyAdmin ks audit (ad_events st), (HTTP_CREATED, inr response))
      | Err e =>
          (mkKeyAdmin ks (ad_audit st) (ad_events st), (500, inl (auth_error_to_string e)))
      end
  end.

(** What the endpoints show of a key: everything but its hash. *)
Record SafeKey := mkSafeKey {
  sk_id : string; sk_name : string; sk_tenant : string; sk_role : string; sk_active : bool;
  sk_created_at : Z; sk_expires_at : option Z; sk_last_used_at : option Z }.
Definition safe_key (k : ApiKey) : SafeKey :=
  mkSafeKey (ak_id k) (ak_name k) (ak_tenant k) (role_debug (ak_role k)) (ak_active k)
    (ak_created_at k) (ak_expires_at k) (ak_last_used_at k).

Definition admin_list_keys (tenant : option string) (st : KeyAdmin) : list SafeKey * Z :=
  let ks := match tenant with
            | Some t => list_keys_for_tenant t (ad_keys st)
            | None => ks_list_keys (ad_keys st)
            end in
  (map safe_key ks, zlen (map safe_key ks)).

Definition admin_get_key (key_id : string) (st : KeyAdmin) : Z * (string + SafeKey) :=
  match ks_get_key key_id (ad_keys st) with
  | Some k => (200, inr (safe_key k))
  | None => (404, inl "Key not found"%string)
  end.

(** Revoking and deleting: the operation on the store, the names it is audited
    and published under, and the answer. *)
Definition admin_key_change (op : string → KeyStore → KeyStore * result AuthError unit)
    (event : AuditEventType) (message event_name answer : string) (now timestamp : Z) (key_id : string)
    (st : KeyAdmin) : KeyAdmin * (Z * string) :=
  let '(ks, r) := op key_id (ad_keys st) in
  match r with
  | Ok _ =>
      (mkKeyAdmin ks (log_event now event "admin" (Some key_id) message None (ad_audit st))
         (send_event (mkEvent event_name key_id None timestamp) (ad_events st)), (200, answer))
  | Err e => (mkKeyAdmin ks (ad_audit st) (ad_events st), (404, auth_error_to_string e))
  end.
Definition admin_revoke_key : Z → Z → string → KeyAdmin → KeyAdmin * (Z * string) :=
  admin_key_change revoke_key ApiKeyRevoked "API key revoked" "revoke" "revoked".
Definition admin_delete_key : Z → Z → string → KeyAdmin → KeyAdmin * (Z * string) :=
  admin_key_change ks_delete_key ApiKeyDeleted "API key deleted" "delete" "deleted".

(** ** Specification

    The credentials of a request, and what they prove. *)
Definition credentials (now now_s : Z) (r : Request) (ks : KeyStore) : AuthResult :=
  match rq_authorization r, rq_x_api_key r with
  | Some header, _ => authenticate now now_s header ks
  | None, Some key => ks_validate_key now key ks
  | None, None => AuthMissing
  end.

(** Requests that are let through without credentials. *)
Definition exempt (config : AuthConfig) (r : Request) : bool :=
  negb (enabled config) || is_public config (rq_path r) ||
  (bool_decide (rq_authorization r = None) && bool_decide (rq_x_api_key r = None) &&
   is_read (rq_method r) && negb (require_auth_for_reads config)).

(** ** Lemmas *)
Lemma credentials_not_forbidden now now_s r ks m : credentials now now_s r ks ≠ AuthForbidden m.
Proof.
  unfold credentials. repeat case_match; try done;
    [apply authenticate_not_forbidden|apply ks_validate_key_not_forbidden].
Qed.

Lemma auth_middleware_cases now now_s config r ks :
  auth_middleware now now_s config r ks =
    if exempt config r then (ks, Next (with_auth None r)) else
    match credentials now now_s r ks with
    | AuthOk ctx => (touch_key now (ctx_key_id ctx) ks, Next (with_auth (Some ctx) r))
    | AuthMissing =>
        (ks, Reply HTTP_UNAUTHORIZED "Authentication required"
               "Provide Authorization header with 'Bearer <jwt>' or 'ApiKey <key>'")
    | AuthInvalid msg => (ks, Reply HTTP_UNAUTHORIZED "Invalid credentials" msg)
    | AuthExpired =>
        (ks, Reply HTTP_UNAUTHORIZED "Credentials expired"
               "Please generate a new API key or refresh your token")
    | AuthForbidden msg => (ks, Reply HTTP_FORBIDDEN "Access denied" msg)
    end.
Proof.
  unfold auth_middleware, exempt, credentials.
  destruct (enabled config); simpl; [|done]. destruct (is_public config (rq_path r)); simpl; [done|].
  by destruct (rq_authorization r), (rq_x_api_key r); simpl; try done; destruct (is_read _ && _).
Qed.

(** ** Properties *)

(** C23. [auth_middleware]: a request that is not exempt reaches the handler
    only with valid credentials, and then with the context that they prove and
    nothing else changed; otherwise it is answered with 401.  Exempt are: all
    requests when authentication is disabled, paths that begin with a public
    path, and reads without credentials unless reads require them. *)
Theorem auth_middleware_guards now now_s config r ks :
  exempt config r = false →
  match (auth_middleware now now_s config r ks).2 with
  | Next r' =>
      ∃ ctx, credentials now now_s r ks = AuthOk ctx ∧ r' = with_auth (Some ctx) r ∧
        (auth_middleware now now_s config r ks).1 = touch_key now (ctx_key_id ctx) ks
  | Reply status _ _ =>
      status = HTTP_UNAUTHORIZED ∧ (auth_middleware now now_s config r ks).1 = ks ∧
      ∀ ctx, credentials now now_s r ks ≠ AuthOk ctx
  end.
Proof.
  intros He. rewrite auth_middleware_cases, He.
  pose proof (credentials_not_forbidden now now_s r ks) as Hf.
  destruct (credentials now now_s r ks) as [ctx| | | |m] eqn:E; simpl; eauto;
    try (repeat split; congruence).
Qed.

(** C24. What stands behind [require_admin_middleware] is reached only with
    credentials that prove the role [Admin], also when authentication is
    disabled or the path is public (there the middleware refuses).  Behind
    [require_write_middleware], a request with credentials needs a role that
    may write, but an exempt request without them goes through. *)
Theorem permission_middleware_guards now now_s config r ks :
  (∀ ks' r', behind_auth require_admin_middleware now now_s config r ks = (ks', Next r') →
     exempt config r = false ∧
     ∃ ctx, credentials now now_s r ks = AuthOk ctx ∧ ctx_role ctx = Admin ∧
            rq_auth r' = Some (Some ctx)) ∧
  (∀ ks' r', behind_auth require_write_middleware now now_s config r ks = (ks', Next r') →
     if exempt config r then rq_auth r' = Some None
     else ∃ ctx, credentials now now_s r ks = AuthOk ctx ∧ ctx_role ctx ≠ ReadOnly ∧
            rq_auth r' = Some (Some ctx)).
Proof.
  unfold behind_auth, require_admin_middleware, require_write_middleware, ctx_can_admin, ctx_can_write.
  rewrite auth_middleware_cases.
  destruct (exempt config r); [split; intros ks' r' H; simpl in H; by simplify_eq|].
  destruct (credentials now now_s r ks) as [ctx| | | |] eqn:E; simpl;
    [|split; intros ks' r' H; by simplify_eq..].
  split; intros ks' r'; destruct (ctx_role ctx) eqn:Er; simpl; intros; simplify_eq;
    try (split; [done|]); exists ctx; split_and!; first [done|congruence].
Qed.

(** A created key works: when [admin_create_key] answers 201, the key it
    shows passes the middleware in an [ApiKey] header, with the tenant asked
    for and the role that was named, until it expires; nothing of the stored
    record but its hash is hidden from [admin_get_key], and the creation is in
    the audit log. *)
Theorem created_key_passes now rb id salt req st st' resp role now' now_s' config method path :
  enabled config = true → is_public config path = false →
  parse_role (ck_role req) = Some role →
  (∀ id' k, id' ≠ id → keys (ad_keys st) !! id' = Some k →
     verify_password (as_bytes (plaintext_of rb)) (ak_key_hash k) = false) →
  admin_create_key now rb id salt req st = (st', (HTTP_CREATED, inr resp)) →
  match ck_expires_in_secs req with Some s => now' < add64 now (wrap64 (s * 1000)) | None => True end →
  (auth_middleware now' now_s' config
     (mkRequest method path (Some ("ApiKey " +:+ cr_key resp)) None None) (ad_keys st')).2 =
  Next (mkRequest method path (Some ("ApiKey " +:+ cr_key resp)) None
          (Some (Some (mkAuthContext id (ck_tenant req) role)))) ∧
  admin_get_key id st' =
    (200, inr (mkSafeKey id (ck_name req) (ck_tenant req) (role_debug role) true now
                 ((λ s, add64 now (wrap64 (s * 1000))) <$> ck_expires_in_secs req) None)) ∧
  map ae_target (ad_audit st') = map ae_target (ad_audit st) ++ [Some id].
Proof.
  intros He Hp Hr Hother H Hexp. unfold admin_create_key in H. rewrite Hr in H.
  destruct (ks_generate_key _ _ _ _ _ _ _ _ _) as [ks r] eqn:Eg.
  destruct r as [[id' key]|e]; simplify_eq.
  pose proof Eg as Eg'. unfold ks_generate_key in Eg'.
  destruct (hash_password _ _) as [h|] eqn:Eh; simplify_eq. split_and!.
  - rewrite auth_middleware_cases. unfold exempt; simpl. rewrite He, Hp. unfold credentials; simpl.
    rewrite authenticate_apikey.
    rewrite (generated_key_validates _ _ _ _ _ _ _ _ _ _ _ now' Hother Eg).
    destruct (ck_expires_in_secs req) as [s|]; simpl in *; [|done].
    destruct (Z.leb_spec (add64 now (wrap64 (s * 1000))) now'); [lia|done].
  - unfold admin_get_key, ks_get_key; simpl. rewrite lookup_insert_eq. unfold safe_key; simpl.
    by destruct (ck_expires_in_secs req).
  - simpl. unfold log_event. by rewrite map_app.
Qed.
End access.

(** ** Witnesses *)
Section witnesses.
Local Existing Instance toy_argon2.
Local Existing Instance toy_base64.
Local Existing Instance toy_jwt.
Local Existing Instance sorted_iter.

Definition ex_config : AuthConfig := mkAuthConfig true None false (public_paths AuthConfig_default).
Definition ex_put (authorization : option string) : Request :=
  mkRequest "PUT" "/s3/a/b" authorization None None.

Lemma auth_middleware_guards_witness :
  (∃ r', (auth_middleware 1200 1 ex_config (ex_put (Some "ApiKey mkv_ab"%string)) ex_keys).2 = Next r' ∧
         rq_auth r' = Some (Some ex_context)) ∧
  (auth_middleware 1200 1 ex_config (ex_put None) ex_keys).1 = ex_keys.
Proof.
  split.
  - pose proof (auth_middleware_guards 1200 1 ex_config (ex_put (Some "ApiKey mkv_ab"%string)) ex_keys
      eq_refl) as H.
    destruct (auth_middleware 1200 1 ex_config (ex_put (Some "ApiKey mkv_ab"%string)) ex_keys).2 as [r'|];
      [|destruct H as (_ & _ & H); by destruct (H ex_context)].
    destruct H as (ctx & H1 & -> & _). exists (with_auth (Some ctx) (ex_put (Some "ApiKey mkv_ab"%string))).
    split; [reflexivity|]. assert (AuthOk ctx = AuthOk ex_context) as [= ->] by (rewrite <- H1; reflexivity).
    reflexivity.
  - pose proof (auth_middleware_guards 1200 1 ex_config (ex_put None) ex_keys eq_refl) as H.
    destruct (auth_middleware 1200 1 ex_config (ex_put None) ex_keys).2 as [r'|];
      [destruct H as (ctx & H1 & _); discriminate H1|]. apply H.
Defined.

Lemma permission_middleware_guards_witness :
  ∃ ks' r', behind_auth require_write_middleware 1200 1 ex_config
              (ex_put (Some "ApiKey mkv_ab"%string)) ex_keys = (ks', Next r') ∧
    ∃ ctx, ctx_role ctx ≠ ReadOnly ∧ rq_auth r' = Some (Some ctx).
Proof.
  destruct (permission_middleware_guards 1200 1 ex_config (ex_put (Some "ApiKey mkv_ab"%string)) ex_keys)
    as [_ H].
  destruct (behind_auth require_write_middleware 1200 1 ex_config
    (ex_put (Some "ApiKey mkv_ab"%string)) ex_keys) as [ks' [r'|s e d]] eqn:E; [|by vm_compute in E].
  destruct (H ks' r' eq_refl) as (ctx & _ & H2 & H3). exists ks', r'. eauto.
Defined.

Definition ex_admin : KeyAdmin := mkKeyAdmin ks_new [] [].
Definition ex_create : CreateKeyRequest := mkCreateKey "ci" "acme" "RW" (Some 3600).

Lemma created_key_passes_witness :
  ∃ st' resp, admin_create_key 1000 [x61] "id-9" [] ex_create ex_admin = (st', (HTTP_CREATED, inr resp)) ∧
    (auth_middleware 2000 2 ex_config
       (mkRequest "PUT" "/s3/a/b" (Some ("ApiKey " +:+ cr_key resp)) None None) (ad_keys st')).2 =
    Next (mkRequest "PUT" "/s3/a/b" (Some ("ApiKey " +:+ cr_key resp)) None
            (Some (Some (mkAuthContext "id-9" "acme" ReadWrite)))).
Proof.
  destruct (admin_create_key 1000 [x61] "id-9" [] ex_create ex_admin) as [st' [code [e|resp]]] eqn:E;
    [by vm_compute in E|].
  assert (code = HTTP_CREATED) as -> by (apply (f_equal (λ x, x.2.1)) in E; exact (eq_sym E)).
  exists st', resp. split; [reflexivity|].
  apply (created_key_passes 1000 [x61] "id-9" [] ex_create ex_admin st' resp ReadWrite 2000 2 ex_config
    "PUT" "/s3/a/b"); [reflexivity|reflexivity|reflexivity| |exact E|reflexivity].
  intros id' k _ H. exfalso. revert H. unfold ex_admin, ks_new, ks_with_secret; simpl. by rewrite lookup_empty.
Defined.
End witnesses.
