(* ===== verification/Api.v ===== *)
(** * The HTTP API of a coordinator, end to end

    [Router], the handlers of [Http], [Ops] and [Access], and the state they
    share, put together: a request is routed, its parts are extracted for the
    handler, and the handler runs on the one state of the process, which has the
    coordinator's stores, the key store, the metrics, the audit log and the
    channel of change events.  What [axum] and [serde] make of the query and of
    the body of a request is a parameter; a part that cannot be extracted is
    answered without calling the handler. *)

From Stdlib Require Import ZArith Lia Sorted.
From Stdlib.Strings Require Import Byte.
From stdpp Require Import base option list gmap strings.
From S2P Require Import Prelude Bytes Text Errors External Utils Hash Metadata Placement Raft Storage AuditLog.
From S2P Require Import Metrics Ops Http Router Auth Access.

(** ** Requests *)
Record ApiRequest := mkApiRequest {
  ar_method : string;
  ar_segments : list string;
  ar_query : string;
  ar_headers : list (string * string);
  ar_body : bytes;
}.

Record ListKeysQuery := mkListKeysQuery { lq_tenant : option string }.
Record ImportRequest := mkImport { ir_entries : list KeyValueEntry }.
Record TransactionRequest := mkTransaction { tr_operations : list Operation }.
Record SearchQuery := mkSearch { sq_value : string }.
Record RangeQuery := mkRange { rg_start : string; rg_end : string; rg_include_values : option bool }.
(** A [BatchOpReq] has the fields of an [Operation]. *)
Record BatchReq := mkBatch { bq_ops : list Operation }.

(** The extractors: the part of a request, or the status of the rejection.  A
    body that is extracted is the body of the request, and the strings that are
    deserialized are UTF-8. *)
Class Extract := {
  body_bytes : ApiRequest → result Z bytes;
  body_create_key : ApiRequest → result Z CreateKeyRequest;
  body_import : ApiRequest → result Z ImportRequest;
  body_transaction : ApiRequest → result Z TransactionRequest;
  body_batch : ApiRequest → result Z BatchReq;
  query_list_keys : ApiRequest → result Z ListKeysQuery;
  query_search : ApiRequest → result Z SearchQuery;
  query_range : ApiRequest → result Z RangeQuery;
  ws_upgrade : ApiRequest → result Z unit;
  body_bytes_body r b : body_bytes r = Ok b → b = ar_body r;
  body_batch_utf8 r q : body_batch r = Ok q → Forall (λ op, valid_str (op_key op) = true) (bq_ops q);
}.

(** [headers.get(name)]: names are compared in lower case, and the first value
    counts. *)
Definition header (name : string) (r : ApiRequest) : option string :=
  snd <$> (snd <$> list_find (λ h, to_lowercase h.1 = name) (ar_headers r)).

(** ** Answers *)
Inductive ApiBody :=
  | BNone
  | BText (s : string)
  | BBytes (b : bytes)
  | BError (e : string)
  | BImport (imported : Z) (errors : list string)
  | BExport (entries : list (string * string))
  | BTransaction (t : TransactionResponse)
  | BSearch (query : string) (matching_keys : list string) (total_matches : Z)
  | BRange (keys : list string) (values : option (list (option KeyMetadata)))
  | BBatch (results : list BatchResultResp)
  | BHealth (h : HealthBody) | BReady (r : ReadyBody) | BLive (l : LiveBody) | BStatus (s : AdminStatus)
  | BRepair (a : AdminAnswer RepairReport) | BCompact (a : AdminAnswer CompactReport)
  | BVerify (a : AdminAnswer VerifyReport)
  | BKeyCreated (k : CreateKeyResponse) | BKeys (ks : list SafeKey) (total : Z) | BKey (k : SafeKey)
  | BKeyChanged (status id : string)
  | BEvents.
Definition ApiReply : Type := Response ApiBody.

Definition HTTP_SWITCHING_PROTOCOLS : Z := 101.
Definition HTTP_METHOD_NOT_ALLOWED : Z := 405.

(** What the handlers take from the outside: the clocks and the random numbers. *)
Record Env := mkEnv {
  env_millis : Z; env_secs : Z; env_random : bytes; env_key_id : string; env_salt : bytes }.

Section api.
Context {B3 : Blake3} {RK : Rocks} {BK : Bincode KeyMetadata} {BV : Bincode VolumeMetadata}.
Context {S : Type} `{!KVStore S}.
Context {A2 : Argon2} {B64 : Base64} {JW : Jwt} {HI : HashIter} {EX : Extract}.
Context (io_display : IoErrorKind → string) (status_display : Status → string).
Context (meta_to_json : KeyMetadata → string).

(** ** The state of the process *)
Record ApiState := mkApi {
  a_coord : Coord (S := S);
  a_keys : KeyStore;
  a_metrics : MetricsRegistry;
}.
Definition with_coord (c : Coord) (st : ApiState) : ApiState := mkApi c (a_keys st) (a_metrics st).
(** The key endpoints see the key store and the two global logs. *)
Definition key_admin (st : ApiState) : KeyAdmin :=
  mkKeyAdmin (a_keys st) (c_audit (a_coord st)) (c_events (a_coord st)).
Definition with_key_admin (k : KeyAdmin) (st : ApiState) : ApiState :=
  let c := a_coord st in
  mkApi (mkCoord (c_metadata c) (c_placement c) (c_raft c) (c_storage c) (ad_events k) (ad_audit k))
    (ad_keys k) (a_metrics st).

(** ** Dispatch *)
Definition reply {B} (f : B → ApiBody) (r : Response B) : ApiReply := mkResponse (status r) (f (body r)).
Definition reply_json (b : ApiBody) : ApiReply := mkResponse HTTP_OK b.
Definition reply_or_error {B} (f : B → ApiBody) (r : string + B) : ApiBody :=
  match r with inl e => BError e | inr b => f b end.
Definition key_changed (code : Z) (answer id : string) : ApiReply :=
  mkResponse code (if code =? HTTP_OK then BKeyChanged answer id else BError answer).
(** An extractor that fails answers in the place of the handler. *)
Definition extracted {A} (e : result Z A) (st : ApiState) (k : A → ApiState * ApiReply)
    : ApiState * ApiReply :=
  match e with Ok a => k a | Err code => (st, mkResponse code BNone) end.
Definition param (name : string) (params : list (string * string)) : string :=
  default ""%string (snd <$> (snd <$> list_find (λ p, p.1 = name) params)).

Definition dispatch (h : Handler) (params : list (string * string)) (env : Env) (r : ApiRequest)
    (st : ApiState) : ApiState * ApiReply :=
  let c := a_coord st in
  let show := show_error io_display status_display in
  let key := param "key" params in
  let bucket := param "bucket" params in
  let key_id := param "key_id" params in
  match h with
  | Hwatch_sse => (st, reply_json BEvents)
  | Hwatch_ws => extracted (ws_upgrade r) st (λ _, (st, mkResponse HTTP_SWITCHING_PROTOCOLS BEvents))
  | Hs3_put_object =>
      extracted (body_bytes r) st (λ value,
        let '(c, resp) := s3_put_object (env_secs env) bucket key (header "x-minikv-ttl" r) value c in
        (with_coord c st, reply BText resp))
  | Hs3_get_object => (st, reply BBytes (s3_get_object bucket key c))
  | Hhealth => (st, reply_json (BHealth (health c)))
  | Hhealth_ready => (st, reply BReady (health_ready c))
  | Hhealth_live => (st, reply BLive (health_live (env_secs env)))
  | Hput_key =>
      extracted (body_bytes r) st (λ value,
        let '(c, resp) := http_put_key key value c in (with_coord c st, reply BText resp))
  | Hget_key => (st, reply BText (http_get_key key c))
  | Hdelete_key => let '(c, resp) := http_delete_key key c in (with_coord c st, reply BText resp)
  | Hadmin_repair => (st, reply_json (BRepair (admin_repair show)))
  | Hadmin_compact => (st, reply_json (BCompact (admin_compact show)))
  | Hadmin_verify => (st, reply_json (BVerify (admin_verify show)))
  | Hadmin_scale => (st, reply_json (BText admin_scale))
  | Hadmin_status => (st, reply_json (BStatus (admin_status c)))
  | Hadmin_create_key =>
      extracted (body_create_key r) st (λ q,
        let '(k, (code, b)) := admin_create_key (env_millis env) (env_random env) (env_key_id env)
                                 (env_salt env) q (key_admin st) in
        (with_key_admin k st, mkResponse code (reply_or_error BKeyCreated b)))
  | Hadmin_list_keys =>
      extracted (query_list_keys r) st (λ q,
        let '(ks, total) := admin_list_keys (lq_tenant q) (key_admin st) in
        (st, reply_json (BKeys ks total)))
  | Hadmin_get_key =>
      let '(code, b) := admin_get_key key_id (key_admin st) in
      (st, mkResponse code (reply_or_error BKey b))
  | Hadmin_revoke_key =>
      let '(k, (code, answer)) := admin_revoke_key (env_millis env) (env_secs env) key_id (key_admin st) in
      (with_key_admin k st, key_changed code answer key_id)
  | Hadmin_delete_key =>
      let '(k, (code, answer)) := admin_delete_key (env_millis env) (env_secs env) key_id (key_admin st) in
      (with_key_admin k st, key_changed code answer key_id)
  | Hadmin_import =>
      extracted (body_import r) st (λ q,
        let '(c, (n, errors)) := admin_import (env_millis env) (ir_entries q) c in
        (with_coord c st, reply_json (BImport n errors)))
  | Hadmin_export => (st, reply (reply_or_error BExport) (admin_export io_display status_display c))
  | Htransaction_ops =>
      extracted (body_transaction r) st (λ q,
        let '(c, t) := transaction_ops (env_millis env) (tr_operations q) c in
        (with_coord c st, reply_json (BTransaction t)))
  | Hsearch_keys =>
      extracted (query_search r) st (λ q,
        (st, reply_json (reply_or_error (λ found, BSearch (sq_value q) found (zlen found))
                           (search_keys io_display status_display (sq_value q) c))))
  | Hmetrics => (st, reply BText (metrics (env_millis env) (a_metrics st) c))
  | Hrange_query =>
      extracted (query_range r) st (λ q,
        (st, reply (reply_or_error (λ kv, BRange kv.1 kv.2))
               (range_query io_display status_display (rg_start q) (rg_end q) (rg_include_values q) c)))
  | Hbatch_ops =>
      extracted (body_batch r) st (λ q,
        let '(c, results) := batch_ops io_display status_display meta_to_json (bq_ops q) c in
        (with_coord c st, reply_json (BBatch results)))
  end.

(** [HEAD] is served by the handler of [GET], and loses the body. *)
Definition strip_head (r : ApiRequest) (a : ApiReply) : ApiReply :=
  if bool_decide (ar_method r = "HEAD"%string) then mkResponse (status a) BNone else a.

Definition serve (env : Env) (r : ApiRequest) (st : ApiState) : ApiState * ApiReply :=
  match route create_router (ar_method r) (ar_segments r) with
  | NoRoute => (st, mkResponse HTTP_NOT_FOUND BNone)
  | MethodNotAllowed => (st, mkResponse HTTP_METHOD_NOT_ALLOWED BNone)
  | Handled h params =>
      let '(st, a) := dispatch h params env r st in (st, strip_head r a)
  end.

(** A client's requests, one after the other. *)
Fixpoint serve_all (rs : list (Env * ApiRequest)) (st : ApiState) : ApiState * list ApiReply :=
  match rs with
  | [] => (st, [])
  | (env, r) :: rs =>
      let '(st, a) := serve env r st in
      let '(st, answers) := serve_all rs st in (st, a :: answers)
  end.

(** ** Specification

    Two maps: the objects in the storage and the records in the metadata. *)
Record Abs := mkAbs { objects : gmap string bytes; records : gmap string KeyMetadata }.

(** The handlers that read or write them. *)
Definition data_handlers : list Handler :=
  [Hs3_put_object; Hs3_get_object; Hadmin_import; Hadmin_export; Htransaction_ops; Hsearch_keys;
   Hrange_query; Hbatch_ops].

Definition path_of (params : list (string * string)) : string :=
  param "bucket" params +:+ "/" +:+ param "key" params.
(** The status of the rejection, if a part the handler asks for is not there. *)
Definition rejection (h : Handler) (r : ApiRequest) : option Z :=
  let err {A} (x : result Z A) := match x with Ok _ => None | Err code => Some code end in
  match h with
  | Hs3_put_object => err (body_bytes r)
  | Hadmin_import => err (body_import r)
  | Htransaction_ops => err (body_transaction r)
  | Hsearch_keys => err (query_search r)
  | Hrange_query => err (query_range r)
  | Hbatch_ops => err (body_batch r)
  | _ => None
  end.

Inductive api_step (r : ApiRequest) (params : list (string * string)) (a : Abs) :
    Handler → ApiReply → Abs → Prop :=
  | step_put text :
      rejection Hs3_put_object r = None →
      api_step r params a Hs3_put_object (mkResponse HTTP_OK (BText text))
        (mkAbs (<[path_of params := ar_body r]> (objects a)) (records a))
  | step_get data :
      objects a !! path_of params = Some data →
      api_step r params a Hs3_get_object (mkResponse HTTP_OK (BBytes data)) a
  | step_get_missing text :
      objects a !! path_of params = None →
      api_step r params a Hs3_get_object (mkResponse HTTP_NOT_FOUND (BBytes text)) a
  | step_import q :
      body_import r = Ok q →
      api_step r params a Hadmin_import (mkResponse HTTP_OK (BImport (zlen (ir_entries q)) []))
        (mkAbs (fold_left (λ m e, <[kv_key e := as_bytes (kv_value e)]> m) (ir_entries q) (objects a))
           (records a))
  | step_export entries :
      (∀ k v, (k, v) ∈ entries ↔
         is_Some (records a !! k) ∧
         ∃ data, objects a !! k = Some data ∧ v = of_bytes (from_utf8_lossy data)) →
      api_step r params a Hadmin_export (mkResponse HTTP_OK (BExport entries)) a
  | step_transaction q t :
      body_transaction r = Ok q →
      map (λ r, (tx_op r, tx_key r, tx_success r)) (txr_results t) =
        map (λ op, (op_op op, op_key op, tx_valid op)) (tr_operations q) →
      txr_total t = zlen (tr_operations q) →
      txr_successful t = zlen (filter (λ op, tx_valid op = true) (tr_operations q)) →
      api_step r params a Htransaction_ops (mkResponse HTTP_OK (BTransaction t))
        (mkAbs (fold_left tx_apply (filter (λ op, tx_valid op = true) (tr_operations q)) (objects a))
           (records a))
  | step_search q found :
      query_search r = Ok q →
      (∀ k, k ∈ found ↔ is_Some (records a !! k) ∧
         ∃ data, objects a !! k = Some data ∧ utf8_valid data = true ∧
           ∃ pre post, data = pre ++ as_bytes (sq_value q) ++ post) →
      api_step r params a Hsearch_keys
        (mkResponse HTTP_OK (BSearch (sq_value q) found (zlen found))) a
  | step_range q found values :
      query_range r = Ok q →
      NoDup found → StronglySorted (λ x y, str_leb x y = true) found →
      (∀ k, k ∈ found ↔ is_Some (records a !! k) ∧ str_leb (rg_start q) k = true ∧ str_leb k (rg_end q) = true) →
      match values with
      | Some vs => rg_include_values q = Some true ∧
                   Forall2 (λ k v, v = records a !! k ∨ v = None) found vs
      | None => rg_include_values q ≠ Some true
      end →
      api_step r params a Hrange_query (mkResponse HTTP_OK (BRange found values)) a
  | step_batch q results ks :
      body_batch r = Ok q →
      batch_run io_display status_display meta_to_json (records a) (bq_ops q) results ks →
      api_step r params a Hbatch_ops (mkResponse HTTP_OK (BBatch results)) (mkAbs (objects a) ks)
  (** A request that is rejected, or a metadata store that cannot be listed. *)
  | step_rejected h code :
      rejection h r = Some code → api_step r params a h (mkResponse code BNone) a
  | step_list_error h code e :
      h ∈ [Hadmin_export; Hsearch_keys; Hrange_query] →
      api_step r params a h (mkResponse code (BError ("list_keys error: " +:+ e))) a
  (** All other handlers neither read nor write the maps. *)
  | step_other h ans : h ∉ data_handlers → api_step r params a h ans a.

Inductive api_served (a : Abs) (r : ApiRequest) : ApiReply → Abs → Prop :=
  | served_routed h params ans a' :
      route create_router (ar_method r) (ar_segments r) = Handled h params →
      api_step r params a h ans a' → api_served a r (strip_head r ans) a'
  | served_unrouted code :
      (∀ h params, route create_router (ar_method r) (ar_segments r) ≠ Handled h params) →
      code = HTTP_NOT_FOUND ∨ code = HTTP_METHOD_NOT_ALLOWED →
      api_served a r (mkResponse code BNone) a.

Inductive api_run : Abs → list ApiRequest → list ApiReply → Abs → Prop :=
  | api_run_nil a : api_run a [] [] a
  | api_run_cons a r ans a1 rs answers a2 :
      api_served a r ans a1 → api_run a1 rs answers a2 →
      api_run a (r :: rs) (ans :: answers) a2.

(** ** Lemmas *)
Context `{!KVStoreLaws S}.

(** The state [st] api_holds the maps [a], and the volumes [vs]. *)
Definition api_holds (vs : gmap string VolumeMetadata) (st : ApiState) (a : Abs) : Prop :=
  kv_view (c_storage (a_coord st)) = objects a ∧
  represents (c_metadata (a_coord st)) (records a) vs.

Lemma api_holds_frame vs st st' a :
  api_holds vs st a → c_storage (a_coord st') = c_storage (a_coord st) →
  c_metadata (a_coord st') = c_metadata (a_coord st) → api_holds vs st' a.
Proof. intros [H1 H2] E1 E2. split; [by rewrite E1|by rewrite E2]. Qed.

Lemma import_fold entries s n :
  let '(s', n') := fold_left (λ '(s, n) e, (kv_put (kv_key e) (as_bytes (kv_value e)) s, n + 1))
                     entries (s, n) in
  kv_view s' = fold_left (λ m e, <[kv_key e := as_bytes (kv_value e)]> m) entries (kv_view s) ∧
  n' = n + zlen entries.
Proof.
  revert s n. induction entries as [|e entries IH]; intros s n; cbn [fold_left].
  { split; [done|]. unfold zlen; simpl; lia. }
  specialize (IH (kv_put (kv_key e) (as_bytes (kv_value e)) s) (n + 1)).
  destruct (fold_left _ entries _) as [s' n']. destruct IH as [-> ->].
  rewrite kv_put_view, zlen_cons. auto with lia.
Qed.

Lemma api_holds_object vs st a k : api_holds vs st a → kv_get k (c_storage (a_coord st)) = objects a !! k.
Proof. intros [<- _]. apply kv_get_view. Qed.

(** *** The handlers of the data, one by one *)
Lemma put_object_step vs st a params env r st' ans :
  api_holds vs st a → dispatch Hs3_put_object params env r st = (st', ans) →
  ∃ a', api_step r params a Hs3_put_object ans a' ∧ api_holds vs st' a'.
Proof.
  intros [H1 H2]. unfold dispatch, extracted.
  destruct (body_bytes r) as [b|code] eqn:E; [unfold s3_put_object; rewrite prepare_phase_ok|];
    intros [= <- <-].
  - eexists. split; [apply step_put; simpl; by rewrite E|]. apply body_bytes_body in E as ->.
    split; [|done]. simpl. by rewrite kv_put_view, H1.
  - exists a. split; [apply step_rejected; simpl; by rewrite E|done].
Qed.

Lemma get_object_step vs st a params env r st' ans :
  api_holds vs st a → dispatch Hs3_get_object params env r st = (st', ans) →
  ∃ a', api_step r params a Hs3_get_object ans a' ∧ api_holds vs st' a'.
Proof.
  intros H [= <- <-]. exists a. split; [|done]. unfold s3_get_object, reply.
  rewrite (api_holds_object _ _ _ _ H).
  destruct (objects a !! _) as [data|] eqn:E; [by apply step_get|by apply step_get_missing].
Qed.

Lemma import_step vs st a params env r st' ans :
  api_holds vs st a → dispatch Hadmin_import params env r st = (st', ans) →
  ∃ a', api_step r params a Hadmin_import ans a' ∧ api_holds vs st' a'.
Proof.
  intros [H1 H2]. unfold dispatch, extracted, admin_import.
  destruct (body_import r) as [q|code] eqn:E.
  - pose proof (import_fold (ir_entries q) (c_storage (a_coord st)) 0) as HF.
    destruct (fold_left _ (ir_entries q) _) as [s n]. destruct HF as [HF ->]. intros [= <- <-].
    eexists. split; [by apply step_import|]. split; [|done]. simpl. by rewrite HF, H1.
  - intros [= <- <-]. exists a. split; [apply step_rejected; simpl; by rewrite E|done].
Qed.

Lemma export_step vs st a params env r st' ans :
  api_holds vs st a → dispatch Hadmin_export params env r st = (st', ans) →
  ∃ a', api_step r params a Hadmin_export ans a' ∧ api_holds vs st' a'.
Proof.
  intros H [= <- <-]. exists a. split; [|done]. unfold admin_export.
  destruct (list_keys _) as [ks|e] eqn:E; [|apply step_list_error; set_solver].
  apply step_export. intros k v. rewrite list_elem_of_omap.
  setoid_rewrite (proj2 (list_keys_spec _ _ _ _ (proj2 H) E)).
  setoid_rewrite (api_holds_object _ _ _ _ H). split.
  - intros (k' & Hk & Hv). destruct (objects a !! k') eqn:Eo; simplify_eq/=. eauto.
  - intros (Hk & data & Hd & ->). exists k. split; [done|]. by rewrite Hd.
Qed.

Lemma transaction_step vs st a params env r st' ans :
  api_holds vs st a → dispatch Htransaction_ops params env r st = (st', ans) →
  ∃ a', api_step r params a Htransaction_ops ans a' ∧ api_holds vs st' a'.
Proof.
  intros [H1 H2]. unfold dispatch, extracted.
  destruct (body_transaction r) as [q|code] eqn:E.
  - destruct (transaction_ops _ _ _) as [c t] eqn:Et. intros [= <- <-].
    destruct (transaction_sequential _ _ _ _ _ Et) as (E1 & E2 & E3 & E4 & E5 & _).
    eexists. split; [by apply step_transaction|]. split; simpl; [by rewrite E1, H1|by rewrite E5].
  - intros [= <- <-]. exists a. split; [apply step_rejected; simpl; by rewrite E|done].
Qed.

Lemma search_step vs st a params env r st' ans :
  api_holds vs st a → dispatch Hsearch_keys params env r st = (st', ans) →
  ∃ a', api_step r params a Hsearch_keys ans a' ∧ api_holds vs st' a'.
Proof.
  intros H. pose proof H as [H1 H2]. unfold dispatch, extracted.
  destruct (query_search r) as [q|code] eqn:E; intros [= <- <-]; exists a; (split; [|done]).
  - destruct (search_keys _ _ _ _) as [e|found] eqn:Es; unfold reply_json; simpl.
    + unfold search_keys in Es. destruct (list_keys _); simplify_eq. apply step_list_error. set_solver.
    + apply step_search; [done|]. rewrite <- H1. by apply (search_keys_exact _ _ _ _ _ _ _ H2 Es).
  - apply step_rejected. simpl. by rewrite E.
Qed.

Lemma range_step vs st a params env r st' ans :
  api_holds vs st a → dispatch Hrange_query params env r st = (st', ans) →
  ∃ a', api_step r params a Hrange_query ans a' ∧ api_holds vs st' a'.
Proof.
  intros H. pose proof H as [H1 H2]. unfold dispatch, extracted.
  destruct (query_range r) as [q|code] eqn:E; intros [= <- <-]; exists a; (split; [|done]).
  - destruct (list_keys (c_metadata (a_coord st))) as [ks|e] eqn:El.
    + destruct (range_query_exact io_display status_display _ _ (rg_start q) (rg_end q) (rg_include_values q)
        _ _ H2 El) as (found & values & -> & Hnd & Hs & Hin & ->).
      apply step_range with (q := q); try done.
      destruct (rg_include_values q) as [[]|]; simpl; [|done|done]. split; [done|].
      apply Forall2_fmap_r, Forall_Forall2_diag, Forall_forall. intros k _. simpl.
      destruct (meta_get_key k _); auto.
    + unfold range_query. rewrite El. apply step_list_error. set_solver.
  - apply step_rejected. simpl. by rewrite E.
Qed.

Lemma batch_step' vs st a params env r st' ans :
  api_holds vs st a → dispatch Hbatch_ops params env r st = (st', ans) →
  ∃ a', api_step r params a Hbatch_ops ans a' ∧ api_holds vs st' a'.
Proof.
  intros [H1 H2]. unfold dispatch, extracted.
  destruct (body_batch r) as [q|code] eqn:E.
  - destruct (batch_ops _ _ _ _ _) as [c results] eqn:Eb. intros [= <- <-].
    destruct (batch_refines_map _ _ _ _ _ _ _ _ _ H2 (body_batch_utf8 _ _ E) Eb) as (ks & Hr & R & Es).
    eexists. split; [by eapply step_batch|]. split; simpl; [by rewrite Es|done].
  - intros [= <- <-]. exists a. split; [apply step_rejected; simpl; by rewrite E|done].
Qed.
#[local] Hint Resolve put_object_step get_object_step import_step export_step transaction_step search_step
  range_step batch_step' : core.

(** The components of the pairs that the goal takes apart. *)
Ltac open_pairs := repeat match goal with |- context [match ?x with (_, _) => _ end] => destruct x end.

(** The other handlers leave the storage and the metadata as they are. *)
Lemma put_key_stores_nothing key value (c : Coord (S := S)) :
  http_put_key key value c = (c, mkResponse HTTP_OK ("PUT " +:+ key +:+ " committed via 2PC")).
Proof. unfold http_put_key. by rewrite prepare_phase_ok. Qed.

Lemma extracted_frame {A B} (f : ApiState → B) (e : result Z A) st k :
  (∀ x, f (k x).1 = f st) → f (extracted e st k).1 = f st.
Proof. destruct e; simpl; auto. Qed.

Lemma other_frame h params env r st :
  h ∉ data_handlers →
  c_storage (a_coord (dispatch h params env r st).1) = c_storage (a_coord st) ∧
  c_metadata (a_coord (dispatch h params env r st).1) = c_metadata (a_coord st).
Proof.
  intros Hh. destruct h; try (exfalso; apply Hh; is_reserved); try (split; reflexivity);
    unfold dispatch; 
    (split; [try apply (extracted_frame (λ st, c_storage (a_coord st)))
            |try apply (extracted_frame (λ st, c_metadata (a_coord st)))]); intros;
    cbv beta zeta; rewrite ?put_key_stores_nothing;
    open_pairs; reflexivity.
Qed.

Lemma dispatch_step vs h params env r st a st' ans :
  api_holds vs st a → dispatch h params env r st = (st', ans) →
  ∃ a', api_step r params a h ans a' ∧ api_holds vs st' a'.
Proof.
  intros H E. destruct (decide (h ∈ data_handlers)) as [Hin|Hout].
  - unfold data_handlers in Hin. repeat (apply elem_of_cons in Hin as [->|Hin]; [by eauto|]).
    by apply elem_of_nil in Hin.
  - exists a. split; [by apply step_other|]. destruct (other_frame h params env r st Hout) as [E1 E2]. rewrite E in E1, E2.
    eauto using api_holds_frame.
Qed.

Lemma serve_step vs env r st a st' ans :
  api_holds vs st a → serve env r st = (st', ans) → ∃ a', api_served a r ans a' ∧ api_holds vs st' a'.
Proof.
  intros H. unfold serve. destruct (route _ _ _) as [h params| |] eqn:E.
  - destruct (dispatch _ _ _ _ _) as [st1 ans1] eqn:Ed. intros [= <- <-].
    destruct (dispatch_step _ _ _ _ _ _ _ _ _ H Ed) as (a' & Hs & H'). eauto using served_routed.
  - intros [= <- <-]. exists a. split; [apply served_unrouted; [by rewrite E|by right]|done].
  - intros [= <- <-]. exists a. split; [apply served_unrouted; [by rewrite E|by left]|done].
Qed.

(** ** Properties *)

(** C4. Any sequence of requests, routed and dispatched to whichever endpoints,
    acts on two maps and is answered from them: objects, which S3 puts, imports
    and transactions write, and records, which batches write.  S3 gets,
    transactions, imports, exports, searches, ranges and batches answer from the
    maps as the requests before left them; no other endpoint, no request that is
    rejected, and no path or method that is not routed touches them. *)
Theorem api_refines_maps vs rs st a st' answers :
  api_holds vs st a → serve_all rs st = (st', answers) →
  ∃ a', api_run a rs.*2 answers a' ∧ api_holds vs st' a'.
Proof.
  revert st a answers. induction rs as [|[env r] rs IH]; intros st a answers H Hr; cbn [serve_all] in Hr.
  { simplify_eq. eauto using api_run_nil. }
  destruct (serve env r st) as [st1 ans] eqn:E1. destruct (serve_all rs st1) as [st2 answers'] eqn:E2.
  simplify_eq. destruct (serve_step _ _ _ _ _ _ _ H E1) as (a1 & Hs & H1).
  destruct (IH _ _ _ H1 E2) as (a2 & Hr & H2). eauto using api_run_cons.
Qed.

(** The handlers of [GET] routes; they serve [GET] and [HEAD]. *)
Lemma route_method method segs h params :
  route create_router method segs = Handled h params →
  ∃ rt, rt ∈ create_router ∧ rt_handler rt = h ∧ serves method rt = true.
Proof.
  unfold route. destruct (select_pattern _ _) as [p|]; [|done].
  destruct (list_find _ _) as [[i rt]|] eqn:E; [|done]. destruct (match_path _ _); [|done].
  intros [= <- <-]. apply list_find_Some in E as (E1 & [_ E2] & _).
  apply list_elem_of_lookup_2 in E1. eauto.
Qed.

Definition get_handlers : list Handler :=
  map rt_handler (filter (λ rt, rt_method rt = "GET"%string) create_router).

Lemma safe_route method segs h params :
  method = "GET"%string ∨ method = "HEAD"%string →
  route create_router method segs = Handled h params → h ∈ get_handlers.
Proof.
  intros Hm (rt & Hrt & <- & Hs)%route_method. apply list_elem_of_fmap. exists rt. split; [done|].
  apply list_elem_of_filter. split; [|done]. revert rt Hrt Hs.
  apply (proj1 (Forall_forall (λ rt, serves method rt = true → rt_method rt = "GET"%string) create_router)).
  destruct Hm as [-> | ->]; is_reserved.
Qed.

Lemma get_handler_frame h params env r st : h ∈ get_handlers → (dispatch h params env r st).1 = st.
Proof.
  intros Hh. destruct h; try (exfalso; revert Hh; is_reserved);
    try reflexivity; unfold dispatch; try (apply (extracted_frame (λ st, st)); intros);
    cbv beta zeta; open_pairs; reflexivity.
Qed.

(** C25. The methods that HTTP calls safe are: whatever its path, query and
    headers, a [GET] or [HEAD] request leaves the whole state of the coordinator as
    it was: storage, metadata, keys, metrics, audit log and change events. *)
Theorem safe_methods env r st :
  ar_method r = "GET"%string ∨ ar_method r = "HEAD"%string → (serve env r st).1 = st.
Proof.
  intros Hm. unfold serve. destruct (route _ _ _) as [h params| |] eqn:E; [|done|done].
  pose proof (get_handler_frame h params env r st (safe_route _ _ _ _ Hm E)) as HF.
  by destruct (dispatch _ _ _ _ _).
Qed.

(** The key endpoints, [POST], [GET] and [DELETE] of [/key], are stubs: a
    write and a deletion are answered with 200 and change nothing, and a read is
    answered with 200 and a text that is the same whatever was stored.  The six
    keys that name endpoints of their own reach no key handler at all. *)
Theorem key_endpoints_stub key env r st :
  key ≠ ""%string → ar_segments r = [key] →
  if decide (key ∈ reserved)
  then ∀ h params, route create_router (ar_method r) [key] = Handled h params →
         h ∉ [Hput_key; Hget_key; Hdelete_key]
  else (ar_method r = "POST"%string → rejection Hs3_put_object r = None →
          serve env r st = (st, mkResponse HTTP_OK (BText ("PUT " +:+ key +:+ " committed via 2PC")))) ∧
       (ar_method r = "DELETE"%string →
          serve env r st = (st, mkResponse HTTP_OK (BText ("DELETE " +:+ key +:+ " succeeded")))) ∧
       (ar_method r = "GET"%string →
          serve env r st =
            (st, mkResponse HTTP_OK (BText ("Value for key " +:+ key +:+ " (fetched from volume)")))).
Proof.
  intros Hne Hs. pose proof (key_routes key Hne) as HR.
  destruct (decide (key ∈ reserved)); [intros h params H; by apply HR in H as [? _]|].
  destruct HR as (R1 & R2 & R3). unfold serve, strip_head. rewrite Hs. split_and!; intros ->.
  - intros Hb. rewrite R1. unfold dispatch, rejection in *.
    destruct (body_bytes r); [|done]. cbn [extracted]. rewrite put_key_stores_nothing. by destruct st.
  - rewrite R3. by destruct st.
  - rewrite R2. by destruct st.
Qed.

(** C40. Nothing guards the key endpoints: whatever headers it has, and so with no
    credentials at all, a request to [POST /admin/keys] for the role [admin]
    without an expiration time is answered with 201 and a key that authenticates
    as [Admin] from then on, when hashing the new key succeeds and no key of
    another id accepts it. *)
Theorem anyone_becomes_admin env r st q h :
  ar_method r = "POST"%string → ar_segments r = ["admin"; "keys"]%string →
  body_create_key r = Ok q → parse_role (ck_role q) = Some Admin → ck_expires_in_secs q = None →
  hash_password (as_bytes (plaintext_of (env_random env))) (env_salt env) = Ok h →
  (∀ id k, id ≠ env_key_id env → keys (a_keys st) !! id = Some k →
     verify_password (as_bytes (plaintext_of (env_random env))) (ak_key_hash k) = false) →
  ∃ st' k, serve env r st = (st', mkResponse HTTP_CREATED (BKeyCreated k)) ∧
    ∀ now now_s, authenticate now now_s ("ApiKey " +:+ cr_key k) (a_keys st') =
      AuthOk (mkAuthContext (env_key_id env) (ck_tenant q) Admin).
Proof.
  intros Hm Hs Hq Hrole Hexp Hhash Hother. unfold serve, strip_head. rewrite Hm, Hs.
  replace (route create_router _ _) with (Handled Hadmin_create_key []) by reflexivity.
  unfold dispatch. rewrite Hq. unfold extracted, admin_create_key. rewrite Hrole, Hexp. cbn [fmap option_fmap option_map].
  destruct (ks_generate_key _ _ _ _ _ _ _ _ _) as [ks g] eqn:Eg. pose proof Eg as Eg'.
  unfold ks_generate_key in Eg'. rewrite Hhash in Eg'. injection Eg' as <- <-.
  eexists _, _. split; [reflexivity|]. intros now now_s. simpl. rewrite authenticate_apikey.
  exact (generated_key_validates _ _ _ _ _ _ _ None _ _ _ now Hother Eg).
Qed.
End api.

(** ** Witnesses *)
Section witnesses.
Local Existing Instance toy_blake3.
Local Existing Instance mem_rocks.
Local Existing Instance countable_bincode.
Local Existing Instance toy_argon2.
Local Existing Instance toy_base64.
Local Existing Instance toy_jwt.
Local Existing Instance sorted_iter.

(** Bodies and queries that are the value themselves. *)
Definition toy_extract : Extract.
Proof.
  refine {|
    body_bytes r := Ok (ar_body r);
    body_create_key r := Ok (mkCreateKey "ops" "default" (of_bytes (ar_body r)) None);
    body_import r := Ok (mkImport [mkKV "k" (of_bytes (ar_body r))]);
    body_transaction r := Ok (mkTransaction [mkOperation "put" "k" (Some (of_bytes (ar_body r)))]);
    body_batch r := Ok (mkBatch [mkOperation "put" "k" (Some (of_bytes (ar_body r)))]);
    query_list_keys r := Ok (mkListKeysQuery None);
    query_search r := Ok (mkSearch (ar_query r));
    query_range r := if bool_decide (ar_query r = ""%string) then Err 400
                     else Ok (mkRange "a" (ar_query r) (Some true));
    ws_upgrade r := Err 426 |}.
  - by intros r b [= <-].
  - intros r q [= <-]. by repeat constructor.
Defined.
Local Existing Instance toy_extract.

Definition ex_api : ApiState := mkApi ex_coord ks_new (MetricsRegistry_new 0).
Definition ex_abs : Abs := mkAbs {[ "k"%string := as_bytes "hello" ]} (<[km_key ex_meta := ex_meta]> ∅).
Definition ex_env : Env := mkEnv 1000 1 [x61] "id-1" [].
Definition ex_req (method : string) (segs : list string) (body : string) : ApiRequest :=
  mkApiRequest method segs "" [] (as_bytes body).
Definition ex_session : list (Env * ApiRequest) :=
  [(ex_env, ex_req "PUT" ["s3"; "photos"; "cat"] "meow"); (ex_env, ex_req "POST" ["transaction"] "bye");
   (ex_env, ex_req "GET" ["s3"; "photos"; "cat"] ""); (ex_env, ex_req "POST" ["range"] "")]%string.
Definition ex_serve := serve (RK := mem_rocks) (S := MemStore) ex_io_display ex_status_display ex_to_json.

Lemma api_refines_maps_witness :
  ∃ st' answers a', serve_all ex_io_display ex_status_display ex_to_json ex_session ex_api = (st', answers) ∧
    map status answers = [200; 200; 200; 405] ∧
    api_run ex_io_display ex_status_display ex_to_json ex_abs ex_session.*2 answers a' ∧ api_holds ∅ st' a'.
Proof.
  destruct (serve_all ex_io_display ex_status_display ex_to_json ex_session ex_api) as [st' answers] eqn:E.
  destruct (api_refines_maps ex_io_display ex_status_display ex_to_json ∅ ex_session ex_api ex_abs st' answers)
    as (a' & H1 & H2); [split; [reflexivity|exact ex_coord_represents]|exact E|].
  exists st', answers, a'. split; [reflexivity|]. split; [|done].
  apply (f_equal (λ x, map status x.2)) in E. simpl snd in E. rewrite <- E. vm_compute. reflexivity.
Defined.

Lemma safe_methods_witness :
  (ex_serve ex_env (ex_req "HEAD" ["admin"; "export"]%string "") ex_api).1 = ex_api.
Proof. apply (safe_methods ex_io_display ex_status_display ex_to_json). by right. Defined.

Lemma key_endpoints_stub_witness :
  ex_serve ex_env (ex_req "POST" ["k"]%string "new") ex_api =
    (ex_api, mkResponse HTTP_OK (BText "PUT k committed via 2PC")).
Proof.
  apply (key_endpoints_stub ex_io_display ex_status_display ex_to_json "k" ex_env
    (ex_req "POST" ["k"]%string "new") ex_api); [discriminate|reflexivity|reflexivity|reflexivity].
Defined.

Lemma anyone_becomes_admin_witness :
  ∃ st' k, ex_serve ex_env (ex_req "POST" ["admin"; "keys"]%string "Admin") ex_api =
      (st', mkResponse HTTP_CREATED (BKeyCreated k)) ∧
    authenticate 5000 5 ("ApiKey " +:+ cr_key k) (a_keys st') =
      AuthOk (mkAuthContext "id-1" "default" Admin).
Proof.
  destruct (anyone_becomes_admin ex_io_display ex_status_display ex_to_json ex_env
    (ex_req "POST" ["admin"; "keys"]%string "Admin") ex_api (mkCreateKey "ops" "default" "Admin" None)
    (match hash_password (as_bytes (plaintext_of [x61])) [] with Ok h => h | Err _ => ""%string end))
    as (st' & k & E & H); try reflexivity.
  - intros id k _ H. exfalso. revert H. simpl. by rewrite lookup_empty.
  - exists st', k. split; [exact E|apply H].
Defined.
End witnesses.
