(* ===== verification/Grpc.v ===== *)
(** * The gRPC services

    [src/coordinator/grpc.rs], the internal service of the coordinator, with
    the clients of [raft_rpc_client.rs] and [volume_client.rs] beside it, and
    [src/volume/grpc.rs], the internal service of a volume.  The messages are
    those of [proto/]. *)

From Stdlib Require Import ZArith Lia Sorted.
From Stdlib.Strings Require Import Byte.
From stdpp Require Import base option list gmap strings.
From S2P Require Import Prelude Bytes Text Errors Fs External Config Wal Hash Index Segment Blob.
From S2P Require Import Utils Metadata Placement Raft Storage Http.

Definition status_internal (msg : string) : Status := mkStatus CodeInternal msg None.
Definition status_unimplemented (msg : string) : Status := mkStatus CodeUnimplemented msg None.

(** ** Messages *)
Record RangeRequest := mkRangeRequest {
  rg_start : string; rg_end : string; rg_include_values : bool }.
Record RangeResponse := mkRangeResponse { rr_keys : list string; rr_values : list bytes }.
Record BatchOp := mkBatchOp { bo_type : Z; bo_key : string; bo_value : bytes }.
Record BatchResult := mkGrpcResult {
  gr_ok : bool; gr_key : string; gr_value : bytes; gr_error : string }.
Record PrepareRequest := mkPrepare {
  pr_key : string; pr_upload_id : string; pr_expected_size : Z; pr_expected_blake3 : string }.
Record OkResponse := mkOkResponse { or_ok : bool; or_error : string }.
Record JoinResponse := mkJoinResponse { jr_ok : bool; jr_cluster_id : string }.
Record PingResponse := mkPing {
  pg_volume_id : string; pg_uptime_secs : Z; pg_total_keys : Z; pg_total_bytes : Z }.
Record StatsResponse := mkStatsResponse {
  sr_total_keys : Z; sr_total_bytes : Z; sr_free_bytes : Z; sr_shards : list string }.

(** ** The coordinator *)
Section coordinator.
Context {RK : Rocks} {BK : Bincode KeyMetadata} {BV : Bincode VolumeMetadata}.
Context (io_display : IoErrorKind → string) (status_display : Status → string).

(** [bincode::serialize(&meta).unwrap_or_default()] *)
Definition meta_bytes (m : KeyMetadata) : bytes :=
  match serialize m with Ok bs => bs | Err _ => [] end.

Definition grpc_range (params : RangeRequest) (store : DB) : result Status RangeResponse :=
  match list_keys store with
  | Err e => Err (status_internal ("list_keys error: " +:+ to_string io_display status_display e))
  | Ok keys =>
      let filtered := sort_strings (filter (λ k, in_key_range (rg_start params) (rg_end params) k = true) keys) in
      let values :=
        if rg_include_values params
        then map (λ k, match meta_get_key k store with
                       | Ok (Some meta) => meta_bytes meta
                       | _ => []
                       end) filtered
        else [] in
      Ok (mkRangeResponse filtered values)
  end.

Definition grpc_batch_op (store : DB) (op : BatchOp) : DB * BatchResult :=
  let key := bo_key op in
  let '(store, (ok, value, error)) :=
    if bo_type op =? 0 then
      match meta_put_key (mkKeyMetadata key [] (zlen (bo_value op)) "" 0 0 Active) store with
      | Ok store => (store, (true, [], None))
      | Err e => (store, (false, [], Some (to_string io_display status_display e)))
      end
    else if bo_type op =? 1 then
      match meta_get_key key store with
      | Ok (Some meta) => (store, (true, meta_bytes meta, None))
      | Ok None => (store, (false, [], Some "Not found"%string))
      | Err e => (store, (false, [], Some (to_string io_display status_display e)))
      end
    else if bo_type op =? 2 then
      match meta_delete_key key store with
      | Ok store => (store, (true, [], None))
      | Err e => (store, (false, [], Some (to_string io_display status_display e)))
      end
    else (store, (false, [], Some "Unknown op"%string)) in
  (store, mkGrpcResult ok key value (unwrap_or ""%string error)).

Fixpoint grpc_batch (ops : list BatchOp) (store : DB) : DB * list BatchResult :=
  match ops with
  | [] => (store, [])
  | op :: ops =>
      let '(store, r) := grpc_batch_op store op in
      let '(store, rs) := grpc_batch ops store in (store, r :: rs)
  end.

(** ** What the HTTP interface makes of the same requests *)
Context (meta_to_json : KeyMetadata → string).

Definition http_op (op : BatchOp) : Operation :=
  mkOperation
    (if bo_type op =? 0 then "put"%string else if bo_type op =? 1 then "get"%string
     else if bo_type op =? 2 then "delete"%string else "unknown"%string)
    (bo_key op) (Some (of_bytes (bo_value op))).

(** The two answers to one operation agree. *)
Definition same_result (h : BatchResultResp) (g : BatchResult) : Prop :=
  br_ok h = gr_ok g ∧ br_key h = gr_key g ∧ unwrap_or ""%string (br_error h) = gr_error g ∧
  match br_value h with
  | Some json => ∃ m, json = meta_to_json m ∧ gr_value g = meta_bytes m
  | None => gr_value g = []
  end.

Lemma grpc_batch_op_agrees store op :
  let '(db, h) := batch_op io_display status_display meta_to_json store (http_op op) in
  let '(db', g) := grpc_batch_op store op in
  db = db' ∧ same_result h g.
Proof.
  unfold batch_op, grpc_batch_op, http_op, same_result, str_len, show_error; simpl.
  rewrite as_bytes_of_bytes.
  destruct (bo_type op =? 0); simpl; [by destruct (meta_put_key _ _)|].
  destruct (bo_type op =? 1); simpl; [destruct (meta_get_key _ _) as [[m|]|]; simpl; eauto 10|].
  destruct (bo_type op =? 2); simpl; [by destruct (meta_delete_key _ _)|done].
Qed.
End coordinator.

(** ** Raft messages

    The messages on the wire, and the conversions of [src/common/raft.rs] to and
    from them. *)
Record ProtoLogEntry := mkProtoEntry { pl_term : Z; pl_index : Z; pl_data : bytes }.
Record ProtoVoteRequest := mkProtoVote {
  pv_term : Z; pv_candidate_id : string; pv_last_log_index : Z; pv_last_log_term : Z }.
Record ProtoVoteResponse := mkProtoVoteResp { pvr_term : Z; pvr_vote_granted : bool }.
Record ProtoAppendRequest := mkProtoAppend {
  pa_term : Z; pa_leader_id : string; pa_prev_log_index : Z; pa_prev_log_term : Z;
  pa_entries : list ProtoLogEntry; pa_leader_commit : Z }.
Record ProtoAppendResponse := mkProtoAppendResp {
  par_term : Z; par_success : bool; par_conflict_index : Z }.

Definition proto_of_vote (req : VoteRequest) : ProtoVoteRequest :=
  mkProtoVote (vr_term req) (vr_candidate_id req) (vr_last_log_index req) (vr_last_log_term req).
Definition vote_of_proto (resp : ProtoVoteResponse) : VoteResponse :=
  mkVoteResponse (pvr_term resp) (pvr_vote_granted resp).
Definition proto_of_entry (e : LogEntry) : ProtoLogEntry := mkProtoEntry (le_term e) (le_index e) (le_data e).
Definition proto_of_append (req : AppendRequest) : ProtoAppendRequest :=
  mkProtoAppend (ar_term req) (ar_leader_id req) (ar_prev_log_index req) (ar_prev_log_term req)
    (map proto_of_entry (ar_entries req)) (ar_leader_commit req).
Definition append_of_proto (resp : ProtoAppendResponse) : AppendResponse :=
  mkAppendResponse (par_term resp) (par_success resp) (par_conflict_index resp).

(** The service answers by itself: it has no access to the [RaftNode]. *)
Definition grpc_request_vote (vote_req : ProtoVoteRequest) : result Status ProtoVoteResponse :=
  let current_term := 1 in
  Ok (mkProtoVoteResp current_term (current_term <=? pv_term vote_req)).
Definition grpc_append_entries (append_req : ProtoAppendRequest) : result Status ProtoAppendResponse :=
  let current_term := 1 in
  Ok (mkProtoAppendResp current_term (current_term <=? pa_term append_req) 0).
Definition grpc_install_snapshot : result Status unit :=
  Err (status_unimplemented "InstallSnapshot not implemented").
Definition grpc_join : result Status JoinResponse := Ok (mkJoinResponse true "cluster-1").
Definition grpc_heartbeat : result Status (bool * list string) := Ok (true, []).

(** The client: [connect] is the error of the connection, if there is one. *)
Definition send_request_vote_rpc (connect : string → option string) (peer_addr : string)
    (req : VoteRequest) : result Status VoteResponse :=
  match connect peer_addr with
  | Some e => Err (status_internal e)
  | None => let? resp := grpc_request_vote (proto_of_vote req) in Ok (vote_of_proto resp)
  end.
Definition send_append_entries_rpc (connect : string → option string) (peer_addr : string)
    (req : AppendRequest) : result Status AppendResponse :=
  match connect peer_addr with
  | Some e => Err (status_internal e)
  | None => let? resp := grpc_append_entries (proto_of_append req) in Ok (append_of_proto resp)
  end.

(** ** The volume *)
Section volume.
Context {CRC : Crc32Fast} {B3 : Blake3} {LZ : Lz4} {BF : BloomFilter} {HX : Hex} {HI : HashIter}.
Context (io_display : IoErrorKind → string) (status_display : Status → string).

Definition volume_prepare (req : PrepareRequest) : result Status OkResponse :=
  if bool_decide (pr_key req = "") then Ok (mkOkResponse false "key cannot be empty")
  else Ok (mkOkResponse true "").
Definition volume_commit (upload_id key : string) : result Status OkResponse := Ok (mkOkResponse true "").
Definition volume_abort (upload_id : string) : result Status bool := Ok true.
Definition volume_pull : result Status unit := Err (status_unimplemented "Pull not implemented").
Definition volume_delete (key : string) (s : BlobStore * Disk)
    : (BlobStore * Disk) * result Status OkResponse :=
  let '(s, r) := delete_key key s in
  (s, match r with
      | Ok _ => Ok (mkOkResponse true "")
      | Err e => Ok (mkOkResponse false (to_string io_display status_display e))
      end).

(** The coordinator's client of a volume: [connect] is the error of the
    connection, if there is one. *)
Definition client_call {A} (connect : string → option string) (addr : string) (call : result Status A)
    : result (string + Status) A :=
  match connect addr with
  | Some e => Err (inl e)
  | None => map_err inr call
  end.
Definition client_prepare (connect : string → option string) (addr key upload_id : string)
    (expected_size : Z) (expected_blake3 : string) : result (string + Status) OkResponse :=
  client_call connect addr (volume_prepare (mkPrepare key upload_id expected_size expected_blake3)).
Definition client_commit (connect : string → option string) (addr upload_id key : string)
    : result (string + Status) OkResponse :=
  client_call connect addr (volume_commit upload_id key).
Definition client_abort (connect : string → option string) (addr upload_id : string)
    : result (string + Status) bool :=
  client_call connect addr (volume_abort upload_id).

(** [src/volume/http.rs] *)
Record Location := mkLocation { lc_size : Z; lc_blake3 : bytes }.
Definition get_location (store : BlobStore) : result string Location := Ok (mkLocation 0 (repeat x00 32)).

Definition volume_ping : result Status PingResponse := Ok (mkPing "vol-1" 0 0 0).
Definition volume_stats : result Status StatsResponse := Ok (mkStatsResponse 0 0 0 []).
End volume.

(** ** Properties *)

(** The gRPC batch and the HTTP batch do the same: run on the same store
    with the same operations they leave the same store and give, operation by
    operation, the same verdict, the same error and the same record (encoded
    with bincode in one and as JSON in the other). *)
Theorem grpc_batch_agrees {RK : Rocks} {BK : Bincode KeyMetadata} {BV : Bincode VolumeMetadata}
    io_display status_display meta_to_json ops store :
  let '(db, hs) := batch_loop io_display status_display meta_to_json (map http_op ops) store in
  let '(db', gs) := grpc_batch io_display status_display ops store in
  db = db' ∧ Forall2 (same_result meta_to_json) hs gs.
Proof.
  revert store. induction ops as [|op ops IH]; intros store; simpl; [by split|].
  pose proof (grpc_batch_op_agrees io_display status_display meta_to_json store op) as H1.
  destruct (batch_op _ _ _ _ _) as [db h]. destruct (grpc_batch_op _ _ _ _) as [db' g].
  destruct H1 as [-> Hr]. specialize (IH db').
  destruct (batch_loop _ _ _ _ _) as [db1 hs]. destruct (grpc_batch _ _ _ _) as [db2 gs].
  destruct IH as [-> Hrs]. split; [done|by constructor].
Qed.

(** The gRPC range query answers the keys that the HTTP range query
    answers, with the same records when they are asked for, or an internal
    status with the same message when the keys cannot be listed. *)
Theorem grpc_range_agrees {B3 : Blake3} {RK : Rocks} {BK : Bincode KeyMetadata}
    {BV : Bincode VolumeMetadata} {S} `{!KVStore S} io_display status_display params
    (c : Coord (S := S)) :
  grpc_range io_display status_display params (c_metadata c) =
  match body (range_query io_display status_display (rg_start params) (rg_end params)
                (Some (rg_include_values params)) c) with
  | inl msg => Err (status_internal msg)
  | inr (keys, values) =>
      Ok (mkRangeResponse keys
            (map (λ v, match v with Some m => meta_bytes m | None => [] end) (unwrap_or [] values)))
  end.
Proof.
  unfold grpc_range, range_query. destruct (list_keys (c_metadata c)) as [keys|e]; [|done]. simpl.
  destruct (rg_include_values params); simpl; [|done]. f_equal. f_equal.
  rewrite map_map. apply map_ext. intros k. by destruct (meta_get_key k _) as [[m|]|].
Qed.

(** Votes that come from the gRPC service elect everybody: the service
    grants every vote of a term from 1 on, without asking its node, so a
    candidate that reaches its peers becomes leader, whatever the peers are,
    whomever they voted for and whatever term they are in. *)
Theorem grpc_elects_everybody election_peers connect during n :
  0 ≤ term n < 2 ^ 64 - 1 → (∀ p, p ∈ election_peers → connect p = None) →
  (start_election_and_collect_votes election_peers (send_request_vote_rpc connect) during n).2 = true.
Proof.
  intros Ht Hc. unfold start_election_and_collect_votes.
  destruct (start_election n) as [n' t] eqn:E.
  assert (1 ≤ t) as H1.
  { unfold start_election in E. simplify_eq/=. rewrite add64_small by lia. lia. }
  rewrite count_votes_filter.
  assert (∀ l, (∀ p, p ∈ l → connect p = None) →
    zlen (filter (λ r, granted r = true) (map (λ p, send_request_vote_rpc connect p (vote_request t n')) l))
    = zlen l) as Hl.
  { induction l as [|p l IH]; intros Hp; [done|]. simpl. unfold send_request_vote_rpc at 1.
    rewrite (Hp p) by apply list_elem_of_here. rewrite filter_cons_True, !zlen_cons.
    - rewrite IH; [done|]. intros q Hq. apply Hp. by apply list_elem_of_further.
    - unfold granted, grpc_request_vote; simpl. by apply Z.leb_le. }
  rewrite Hl by done. pose proof (zlen_nonneg election_peers).
  destruct (Z.leb_spec (majority (zlen election_peers)) (1 + zlen election_peers)) as [|Hm]; [done|].
  unfold majority in Hm. pose proof (Z.div_le_upper_bound (zlen election_peers + 1 + 1) 2
    (1 + zlen election_peers)). lia.
Qed.

(** Deleting over gRPC deletes: on a store that represents a map, the
    volume answers [ok], the store then represents the map without the key,
    and a read of the key finds nothing. *)
Theorem volume_delete_deletes {CRC : Crc32Fast} {B3 : Blake3} {LZ : Lz4} {BF : BloomFilter}
    {HX : Hex} {HI : HashIter} io_display status_display es M st d key :
  store_inv es M st d → wf_op (Delete key) = true → zlen es + 1 < 2 ^ 64 →
  ∃ st' d', volume_delete io_display status_display key (st, d) = ((st', d'), Ok (mkOkResponse true "")) ∧
    (∀ now, get now key st' d' = Ok None) ∧
    (∀ now other, other ≠ key → get now other st' d' = get now other st d).
Proof.
  intros I Hw Hes. destruct (delete_inv es M st d key I Hw Hes) as (st' & d' & E & I' & _).
  exists st', d'. unfold volume_delete. rewrite E. split; [done|]. split.
  - intros now. rewrite (get_spec _ _ _ _ _ _ I'). unfold spec_get, live_item. by rewrite lookup_delete_eq.
  - intros now other Hne. rewrite (get_spec _ _ _ _ _ _ I'), (get_spec _ _ _ _ _ _ I).
    unfold spec_get, live_item. by rewrite lookup_delete_ne.
Qed.

(** ** Witnesses *)
#[local] Existing Instances crc32_ieee toy_blake3 toy_lz4 toy_bloom lower_hex sorted_iter.

Lemma grpc_elects_everybody_witness :
  (start_election_and_collect_votes ["b"; "c"]%string (send_request_vote_rpc (λ _, None)) id (raft_new "a")).2
    = true ∧
  (start_election_and_collect_votes ["a"; "c"]%string (send_request_vote_rpc (λ _, None)) id (raft_new "b")).2
    = true.
Proof.
  split; apply grpc_elects_everybody; simpl; [lia|done|lia|done].
Defined.

Lemma volume_delete_deletes_witness :
  ∃ st' d', volume_delete (λ _, ""%string) (λ _, ""%string) "k" (ex_store, ex_store_disk) =
    ((st', d'), Ok (mkOkResponse true "")) ∧ get 5 "k" st' d' = Ok None.
Proof.
  destruct (volume_delete_deletes (λ _, ""%string) (λ _, ""%string) [] ∅ ex_store ex_store_disk "k"
    ex_store_inv eq_refl eq_refl) as (st' & d' & E & H & _).
  exists st', d'. split; [exact E|exact (H 5)].
Defined.
