(* ===== verification/Wiring.v ===== *)
(** * Clusters wired through the gRPC service

    The coordinator's gRPC service ([src/coordinator/grpc.rs]) answers the Raft
    requests of other nodes by itself, from a constant term, and leaves the
    [RaftNode] of its process alone.  This file is about clusters and groups
    whose requests go to that service instead of the handlers of the nodes:
    what [Cluster] and [Replication] show for the handlers does not hold for
    them. *)

From Stdlib Require Import ZArith Lia.
From Stdlib.Strings Require Import Byte.
From stdpp Require Import base option list relations gmap strings.
From S2P Require Import Prelude Bytes Text Errors Raft Cluster Replication Grpc.

Definition grpc_service : RaftService :=
  mkService
    (λ req n, (n, let? resp := grpc_request_vote (proto_of_vote req) in Ok (vote_of_proto resp)))
    (λ req n, (n, let? resp := grpc_append_entries (proto_of_append req) in Ok (append_of_proto resp))).

Lemma majority_all k : 0 ≤ k → majority k ≤ 1 + k.
Proof. intros H. unfold majority. apply Z.div_le_upper_bound; lia. Qed.

(** ** Elections *)
(** An election in which only the votes are still to be collected. *)
Lemma grpc_ask_all members cl es e vs votes :
  elections cl = mkElection (el_request e) (el_peers e) vs votes :: es →
  1 ≤ el_term e → (∀ v, v ∈ vs → is_Some (nodes cl !! v)) →
  rtc (cluster_step grpc_service members true) cl
    (mkCluster (nodes cl) (mkElection (el_request e) (el_peers e) [] (votes + zlen vs) :: es) (elected cl)).
Proof.
  intros He Ht. revert cl votes He. induction vs as [|v vs IH]; intros cl votes He Hvs.
  { rewrite Z.add_0_r, <- He. by destruct cl. }
  destruct (Hvs v) as [n Hn]; [by left|]. eapply rtc_l.
  { by eapply (cs_answer grpc_service members true cl [] _ es v vs n n). }
  rewrite insert_id by done. cbn [app]. unfold election_answer. cbn [el_request el_peers el_ask el_votes tail].
  cbn [grpc_request_vote rbind vote_of_proto vp_vote_granted pvr_vote_granted proto_of_vote pv_term].
  rewrite (proj2 (Z.leb_le 1 (vr_term (el_request e))) Ht).
  specialize (IH (mkCluster (nodes cl) (mkElection (el_request e) (el_peers e) vs (votes + 1) :: es) (elected cl))
    (votes + 1) eq_refl ltac:(set_solver)).
  rewrite zlen_cons. replace (votes + (1 + zlen vs)) with (votes + 1 + zlen vs) by lia. exact IH.
Qed.

(** Whatever happened before, every member can be elected in its next term. *)
Lemma grpc_elects_next members cl c n :
  nodes cl !! c = Some n → node_id n = c → 0 ≤ term n → term n + 1 < U64_MAX →
  (∀ v, v ∈ members → is_Some (nodes cl !! v)) →
  rtc (cluster_step grpc_service members true) cl
    (mkCluster (<[c := become_leader (start_election n).1]> (nodes cl)) (elections cl)
       (elected cl ++ [(term n + 1, c)])).
Proof.
  intros Hn Hid H0 Ht Hall. set (ps := filter (λ v, v ≠ c) members).
  destruct (election_start ps n) as [n1 e] eqn:E. eapply rtc_l; [by eapply cs_start|].
  assert (n1 = (start_election n).1 ∧ e = mkElection (vote_request (term n + 1) n1) (zlen ps) ps 1) as [-> He].
  { unfold election_start, start_election in *. rewrite (add64_small (term n) 1) in * by (unfold U64_MAX in *; lia).
    injection E as <- <-. split; reflexivity. }
  etransitivity.
  { eapply (grpc_ask_all members _ (elections cl) e ps 1); [by rewrite He|rewrite He; unfold el_term; simpl; lia|].
    intros v [_ Hv]%list_elem_of_filter. cbn [nodes]. destruct (decide (v = c)) as [->|].
    - rewrite lookup_insert_eq. eauto.
    - rewrite lookup_insert_ne by done. auto. }
  cbn [nodes elections elected]. apply rtc_once.
  assert (el_key e = (term n + 1, c)) as Hk by (rewrite He; unfold el_key, el_term, el_candidate; simpl; by rewrite Hid).
  assert (el_candidate e = c) as Hc by (by injection Hk).
  pose proof (cs_end grpc_service members true
    (mkCluster (<[c := (start_election n).1]> (nodes cl))
       (mkElection (el_request e) (el_peers e) [] (1 + zlen ps) :: elections cl) (elected cl))
    [] (mkElection (el_request e) (el_peers e) [] (1 + zlen ps)) (elections cl)
    (start_election n).1 (become_leader (start_election n).1) true eq_refl eq_refl) as Hend.
  cbn [nodes elections elected app el_candidate el_request] in Hend. unfold el_key, el_term, el_candidate in *.
  cbn [el_request] in Hend. rewrite Hc, insert_insert_eq in Hend. rewrite <- Hk, Hc. apply Hend; [by rewrite lookup_insert_eq| |done].
  unfold election_end. cbn [el_peers el_votes]. rewrite He. cbn [el_peers].
  by rewrite (proj2 (Z.leb_le _ _) (majority_all _ (zlen_nonneg ps))).
Qed.

(** The members elected so far lead term 1, the others are as they started. *)
Lemma grpc_elects_list members cl todo :
  NoDup todo → (∀ v, v ∈ todo → nodes cl !! v = Some (raft_new v)) →
  (∀ v, v ∈ members → is_Some (nodes cl !! v)) →
  ∃ cl', rtc (cluster_step grpc_service members true) cl cl' ∧
    elected cl' = elected cl ++ map (pair 1) todo ∧
    (∀ v, v ∈ todo → ∃ n, nodes cl' !! v = Some n ∧ role n = Leader ∧ term n = 1) ∧
    (∀ v, v ∉ todo → nodes cl' !! v = nodes cl !! v).
Proof.
  revert cl. induction todo as [|c todo IH]; intros cl Hnd Hnew Hall.
  { exists cl. split; [done|]. rewrite app_nil_r. split; [done|]. split; [|done]. by intros v ?%not_elem_of_nil. }
  apply NoDup_cons in Hnd as [Hc Hnd].
  pose proof (grpc_elects_next members cl c (raft_new c) (Hnew c ltac:(by left)) eq_refl) as Hrun.
  set (n := become_leader _) in Hrun. set (cl1 := mkCluster _ _ _) in Hrun.
  destruct (IH cl1) as (cl' & Hr & He & Hl & Ho); [done|..].
  { intros v Hv. cbn [nodes cl1]. rewrite lookup_insert_ne by (by intros ->). apply Hnew. by right. }
  { intros v Hv. cbn [nodes cl1]. destruct (decide (v = c)) as [->|]; [rewrite lookup_insert_eq; eauto|].
    rewrite lookup_insert_ne by done. auto. }
  exists cl'. split; [etransitivity; [apply Hrun; [done..|exact Hall]|exact Hr]|].
  split; [by rewrite He; cbn [elected cl1]; rewrite <- app_assoc|]. split.
  - intros v [->|Hv]%elem_of_cons; [|by apply Hl]. exists n. rewrite Ho by done. cbn [nodes cl1].
    by rewrite lookup_insert_eq.
  - intros v Hv. rewrite Ho by set_solver. cbn [nodes cl1]. rewrite lookup_insert_ne; [done|set_solver].
Qed.

(** ** Replication *)
(** The service answers by itself, so that only the log and the indices of the
    leader change. *)
Lemma grpc_group_frame ms g g' :
  group_moves grpc_service ms g = Some g' →
  followers g' = followers g ∧ role (leader g') = role (leader g) ∧ term (leader g') = term (leader g) ∧
  peers (leader g') = peers (leader g).
Proof.
  revert g. induction ms as [|m ms IH]; intros g; cbn [group_moves]; [by intros [= <-]|].
  intros (g1 & H1 & H2)%bind_Some. specialize (IH _ H2).
  enough (followers g1 = followers g ∧ role (leader g1) = role (leader g) ∧ term (leader g1) = term (leader g) ∧
    peers (leader g1) = peers (leader g)) by (destruct IH as (-> & -> & -> & ->); done). clear IH H2 g'.
  destruct m as [data|i|i|i|v|i|i|[v|] req]; cbn [group_move] in H1.
  - by destruct (_ && _); [|done]; injection H1 as <-.
  - apply bind_Some in H1 as (c & Hi & (v & Hv & (f & Hf & [= <-])%bind_Some)%bind_Some).
    cbn [followers leader]. by rewrite insert_id.
  - by apply bind_Some in H1 as (c & Hi & (v & Hv & [= <-])%bind_Some).
  - apply bind_Some in H1 as (c & Hi & H). case_bool_decide; [|done]. unfold replication_end in H.
    by destruct (_ <=? _); injection H as <-.
  - by destruct (is_leader _); [|done]; injection H1 as <-.
  - apply bind_Some in H1 as ([v req] & Hi & (f & Hf & [= <-])%bind_Some).
    cbn [followers leader]. by rewrite insert_id.
  - by apply bind_Some in H1 as (r & Hi & [= <-]).
  - apply bind_Some in H1 as (f & Hf & [= <-]). cbn [followers leader]. by rewrite insert_id.
  - by injection H1 as <-.
Qed.

Lemma grpc_ack_all g c cs vs acks :
  calls g = mkReplication (rp_request c) (rp_entry c) (rp_peers c) vs acks :: cs →
  1 ≤ ar_term (rp_request c) → (∀ v, v ∈ vs → is_Some (followers g !! v)) →
  group_moves grpc_service (List.repeat (GAnswer 0) (length vs)) g =
  Some (mkGroup (leader g) (followers g)
    (mkReplication (rp_request c) (rp_entry c) (rp_peers c) [] (acks + zlen vs) :: cs) (late g) (acknowledged g)).
Proof.
  intros Hc Ht. revert g acks Hc. induction vs as [|v vs IH]; intros g acks Hc Hvs.
  { rewrite Z.add_0_r, <- Hc. by destruct g. }
  destruct (Hvs v) as [f Hf]; [by left|]. cbn [length List.repeat group_moves group_move].
  rewrite Hc. cbn [lookup list_lookup mbind option_bind rp_ask head]. rewrite Hf.
  cbn [mbind option_bind answer_append grpc_service grpc_append_entries rbind append_of_proto].
  rewrite insert_id by done. unfold replication_answer.
  cbn [rp_request rp_entry rp_peers rp_ask rp_acks tail ap_success par_success proto_of_append pa_term delete list_delete].
  rewrite (proj2 (Z.leb_le 1 (ar_term (rp_request c))) Ht). cbn [append_of_proto ap_success par_success].
  rewrite (IH (mkGroup (leader g) (followers g)
    (mkReplication (rp_request c) (rp_entry c) (rp_peers c) vs (acks + 1) :: cs) (late g) (acknowledged g))
    (acks + 1) eq_refl ltac:(set_solver)).
  cbn [leader followers late acknowledged]. rewrite zlen_cons. do 4 f_equal. lia.
Qed.

Lemma group_moves_app SV ms ms' g :
  group_moves SV (ms ++ ms') g = group_moves SV ms g ≫= group_moves SV ms'.
Proof. revert g. induction ms as [|m ms IH]; intros g; simpl; [done|]. by destruct (group_move SV m g); simpl. Qed.

Lemma group_new_follower n v : v ∈ peers n → is_Some (followers (group_new n) !! v).
Proof.
  intros Hv. cbn [followers group_new]. apply not_eq_None_Some. intros H. apply not_elem_of_list_to_map_2 in H.
  apply H. rewrite <- list_fmap_compose. apply list_elem_of_fmap. eauto.
Qed.

(** ** Properties *)

(** C37. Through the gRPC service every member of a cluster can lead the same
    term: for every list of members there is a run of elections whose requests
    are answered by the service, none of them lost or disturbed, after which
    each member has been elected in term 1 and is its leader. *)
Theorem grpc_all_members_lead members :
  NoDup members →
  ∃ cl, rtc (cluster_step grpc_service members true) (cluster_new members) cl ∧
    elected cl = map (pair 1) members ∧
    ∀ v, v ∈ members → ∃ n, nodes cl !! v = Some n ∧ role n = Leader ∧ term n = 1.
Proof.
  intros Hnd. assert (∀ v, v ∈ members → nodes (cluster_new members) !! v = Some (raft_new v)) as Hnew.
  { intros v Hv. destruct (ci_node _ _ _ (inv_new members Hnd) v Hv) as [n Hn].
    by destruct (cluster_new_lookup _ _ _ Hn) as [_ ->]. }
  destruct (grpc_elects_list members (cluster_new members) members Hnd Hnew) as (cl & Hr & He & Hl & _); eauto.
Qed.

(** C36. Through the gRPC service [replicate] commits what nobody else stores:
    in every run of a group whose followers are behind the service, the
    followers' nodes stay as they were; and after any such run a leader of term
    1 or later can replicate any data with [Ok], the acknowledgements of all its
    peers and its commit index at the new entry, while still no follower has
    changed. *)
Theorem grpc_commits_unstored n ms g data :
  is_leader n = true → 1 ≤ term n → group_moves grpc_service ms (group_new n) = Some g →
  zlen (log (leader g)) + 1 < 2 ^ 64 →
  let e := mkLogEntry (term n) (next_index (log (leader g))) data in
  ∃ ms' g', group_moves grpc_service ms' g = Some g' ∧
    log (leader g') = log (leader g) ++ [e] ∧ commit_index (leader g') = le_index e ∧
    acknowledged g' = e :: acknowledged g ∧
    followers g = followers (group_new n) ∧ followers g' = followers (group_new n).
Proof.
  intros Hl Ht H Hlen e. destruct (grpc_group_frame _ _ _ H) as (F1 & F2 & F3 & F4).
  cbn [leader group_new] in F2, F3, F4.
  assert (is_leader (leader g) = true) as Hl' by (unfold is_leader in *; by rewrite F2).
  destruct (replication_start data (leader g)) as [n1 c] eqn:E.
  assert (n1 = with_log (log (leader g) ++ [e]) (leader g) ∧
    c = mkReplication (rp_request c) (rp_entry c) (rp_peers c) (peers n) 1 ∧ ar_term (rp_request c) = term n ∧
    rp_entry c = e ∧ rp_peers c = zlen (peers n)) as (E1 & E2 & E3 & E4 & E5).
  { unfold replication_start in E. injection E as <- <-.
    cbn [rp_request rp_entry rp_peers peers with_log ar_term append_request].
    unfold e. by rewrite F3, F4. }
  pose (g1 := mkGroup n1 (followers g) (c :: calls g) (late g) (acknowledged g)).
  assert (group_moves grpc_service (List.repeat (GAnswer 0) (length (peers n))) g1 =
    Some (mkGroup n1 (followers g) (mkReplication (rp_request c) e (zlen (peers n)) [] (1 + zlen (peers n)) :: calls g)
            (late g) (acknowledged g))) as Hack.
  { rewrite (grpc_ack_all g1 c (calls g) (peers n) 1); [by rewrite E4, E5|by rewrite <- E2|by rewrite E3|].
    intros v Hv. cbn [followers g1]. rewrite F1. by apply group_new_follower. }
  exists (GReplicate data :: List.repeat (GAnswer 0) (length (peers n)) ++ [GEnd 0]).
  eexists. split.
  { cbn [group_moves group_move]. rewrite Hl', (proj2 (Z.ltb_lt _ _) Hlen), E. cbn [andb mbind option_bind].
    fold g1. rewrite group_moves_app, Hack. cbn [mbind option_bind group_moves group_move calls lookup list_lookup].
    rewrite bool_decide_eq_true_2 by done. unfold replication_end. cbn [rp_peers rp_acks].
    rewrite (proj2 (Z.leb_le _ _) (majority_all _ (zlen_nonneg (peers n)))). reflexivity. }
  cbn [leader followers acknowledged rp_entry]. rewrite E1. by rewrite F1.
Qed.

(** ** Witnesses *)
Lemma grpc_all_members_lead_witness :
  ∃ cl, rtc (cluster_step grpc_service ["a"; "b"; "c"]%string true) (cluster_new ["a"; "b"; "c"]%string) cl ∧
    elected cl = [(1, "a"); (1, "b"); (1, "c")]%string.
Proof.
  destruct (grpc_all_members_lead ["a"; "b"; "c"]%string) as (cl & Hr & He & _).
  - apply (bool_decide_unpack _). by vm_compute.
  - exists cl. split; [exact Hr|exact He].
Defined.

Lemma grpc_commits_unstored_witness :
  ∃ ms g, group_moves grpc_service ms (group_new ex_group_leader) = Some g ∧
    acknowledged g = [mkLogEntry 1 1 [x01]] ∧ followers g = followers (group_new ex_group_leader).
Proof.
  destruct (grpc_commits_unstored ex_group_leader [] (group_new ex_group_leader) [x01])
    as (ms & g & Hm & _ & _ & Ha & _ & Hf); [reflexivity|simpl; lia|reflexivity|by vm_compute|].
  exists ms, g. split; [exact Hm|]. split; [exact Ha|exact Hf].
Defined.
