(* ===== verification/Encryption.v ===== *)
(** * Encryption at rest

    [src/common/encryption.rs]: the format of encrypted data and the manager
    that derives keys and encrypts and decrypts.  Random nonces and keys are
    arguments; the crates [aes_gcm], [hkdf] and [base64] are classes with the
    facts that the code relies on. *)

From Stdlib Require Import ZArith Lia.
From Stdlib.Strings Require Import Byte.
From stdpp Require Import base option list strings.
From S2P Require Import Prelude Bytes Text.

Definition KEY_SIZE : Z := 32.
Definition NONCE_SIZE : Z := 12.
Definition TAG_SIZE : Z := 16.
Definition ENCRYPTION_MAGIC : bytes := as_bytes "MKVENC01".

Record EncryptionConfig := mkEncConfig {
  ec_enabled : bool; ec_master_key : option string; ec_key_contexts : list string }.
Definition EncryptionConfig_default : EncryptionConfig :=
  mkEncConfig false None ["minikv-data"; "minikv-wal"; "minikv-index"]%string.

Inductive EncryptionError :=
  | NotEnabled
  | InvalidKey (msg : string)
  | EncryptionFailed (msg : string)
  | DecryptionFailed (msg : string)
  | InvalidFormat (msg : string)
  | KeyDerivationFailed (msg : string).

Definition encryption_error_to_string (e : EncryptionError) : string :=
  match e with
  | NotEnabled => "Encryption is not enabled"
  | InvalidKey msg => "Invalid encryption key: " +:+ msg
  | EncryptionFailed msg => "Encryption failed: " +:+ msg
  | DecryptionFailed msg => "Decryption failed: " +:+ msg
  | InvalidFormat msg => "Invalid encrypted data format: " +:+ msg
  | KeyDerivationFailed msg => "Key derivation failed: " +:+ msg
  end.

(** ** The crates

    AES-256-GCM: decryption undoes encryption under the same key and nonce, and
    the ciphertext is longer than the plaintext by the tag. *)
Class AesGcm := {
  Cipher : Type;
  aes_new : bytes → result string Cipher;
  aes_encrypt : Cipher → bytes → bytes → result string bytes;
  aes_decrypt : Cipher → bytes → bytes → result string bytes;
  aes_decrypt_encrypt c nonce p x : aes_encrypt c nonce p = Ok x → aes_decrypt c nonce x = Ok p;
  aes_encrypt_length c nonce p x : aes_encrypt c nonce p = Ok x → zlen x = zlen p + TAG_SIZE;
}.

(** HKDF-SHA256 without salt, expanded to 32 bytes. *)
Class Hkdf := { hkdf_expand : bytes → bytes → result string bytes }.

(** [STANDARD] *)
Class Base64Std := {
  base64_decode : string → result string bytes;
  base64_encode : bytes → string;
  base64_decode_encode bs : base64_decode (base64_encode bs) = Ok bs;
}.

Record EncryptedData := mkEncrypted { ed_nonce : bytes; ed_ciphertext : bytes }.

Definition to_bytes (e : EncryptedData) : bytes :=
  ENCRYPTION_MAGIC ++ ed_nonce e ++ ed_ciphertext e.

Definition from_bytes (bs : bytes) : result EncryptionError EncryptedData :=
  let min_size := zlen ENCRYPTION_MAGIC + NONCE_SIZE + TAG_SIZE in
  if zlen bs <? min_size
  then Err (InvalidFormat ("Data too short: " +:+ show_dec (zlen bs) +:+ " bytes, minimum " +:+
              show_dec min_size +:+ " bytes"))
  else if negb (bool_decide (take (length ENCRYPTION_MAGIC) bs = ENCRYPTION_MAGIC))
  then Err (InvalidFormat "Invalid magic bytes - data may not be encrypted")
  else
    let nonce_start := length ENCRYPTION_MAGIC in
    let ciphertext_start := (nonce_start + Z.to_nat NONCE_SIZE)%nat in
    let nonce := take (Z.to_nat NONCE_SIZE) (drop nonce_start bs) in
    let ciphertext := drop ciphertext_start bs in
    Ok (mkEncrypted nonce ciphertext).

Definition is_encrypted (bs : bytes) : bool :=
  (zlen ENCRYPTION_MAGIC <=? zlen bs) &&
  bool_decide (take (length ENCRYPTION_MAGIC) bs = ENCRYPTION_MAGIC).

Section encryption.
Context {AG : AesGcm} {HK : Hkdf} {B64 : Base64Std}.

Record EncryptionManager := mkManager {
  em_config : EncryptionConfig;
  data_key : option bytes;
  wal_key : option bytes;
  data_cipher : option Cipher;
  wal_cipher : option Cipher;
}.

Definition em_new : EncryptionManager := mkManager EncryptionConfig_default None None None None.

Definition derive_key (master_key context : bytes) : result EncryptionError bytes :=
  map_err KeyDerivationFailed (hkdf_expand master_key context).

Definition set_data_key (k : bytes) (m : EncryptionManager) : EncryptionManager :=
  mkManager (em_config m) (Some k) (wal_key m) (data_cipher m) (wal_cipher m).
Definition set_wal_key (k : bytes) (m : EncryptionManager) : EncryptionManager :=
  mkManager (em_config m) (data_key m) (Some k) (data_cipher m) (wal_cipher m).
Definition set_data_cipher (c : Cipher) (m : EncryptionManager) : EncryptionManager :=
  mkManager (em_config m) (data_key m) (wal_key m) (Some c) (wal_cipher m).
Definition set_wal_cipher (c : Cipher) (m : EncryptionManager) : EncryptionManager :=
  mkManager (em_config m) (data_key m) (wal_key m) (data_cipher m) (Some c).
Definition set_enabled (master_key : string) (m : EncryptionManager) : EncryptionManager :=
  mkManager (mkEncConfig true (Some master_key) (ec_key_contexts (em_config m)))
    (data_key m) (wal_key m) (data_cipher m) (wal_cipher m).

Definition initialize (master_key : string) : proc EncryptionManager EncryptionError unit :=
  let! key_bytes :=
    plift (map_err (λ e, InvalidKey ("Invalid base64: " +:+ e)) (base64_decode master_key)) in
  if zlen key_bytes <? 32
  then pfail (InvalidKey ("Master key too short: " +:+ show_dec (zlen key_bytes) +:+
                " bytes, minimum 32 bytes"))
  else
    let! dk := plift (derive_key key_bytes (as_bytes "minikv-data")) in
    let! _ := pmodify (set_data_key dk) in
    let! wk := plift (derive_key key_bytes (as_bytes "minikv-wal")) in
    let! _ := pmodify (set_wal_key wk) in
    let! dc := plift (map_err (λ e, InvalidKey ("Failed to create cipher: " +:+ e)) (aes_new dk)) in
    let! _ := pmodify (set_data_cipher dc) in
    let! wc := plift (map_err (λ e, InvalidKey ("Failed to create WAL cipher: " +:+ e)) (aes_new wk)) in
    let! _ := pmodify (set_wal_cipher wc) in
    pmodify (set_enabled master_key).

Definition is_some {A} (o : option A) : bool := match o with Some _ => true | None => false end.
Definition is_enabled (m : EncryptionManager) : bool :=
  ec_enabled (em_config m) && is_some (data_cipher m).

(** The common part of [encrypt] and [encrypt_wal], and of the decryptions. *)
Definition encrypt_with (cipher : option Cipher) (nonce plaintext : bytes)
    : result EncryptionError EncryptedData :=
  let? cipher := ok_or NotEnabled cipher in
  let? ciphertext := map_err EncryptionFailed (aes_encrypt cipher nonce plaintext) in
  Ok (mkEncrypted nonce ciphertext).
Definition decrypt_with (cipher : option Cipher) (encrypted : EncryptedData)
    : result EncryptionError bytes :=
  let? cipher := ok_or NotEnabled cipher in
  map_err DecryptionFailed (aes_decrypt cipher (ed_nonce encrypted) (ed_ciphertext encrypted)).

Definition encrypt (nonce plaintext : bytes) (m : EncryptionManager) := encrypt_with (data_cipher m) nonce plaintext.
Definition decrypt (encrypted : EncryptedData) (m : EncryptionManager) := decrypt_with (data_cipher m) encrypted.
Definition encrypt_wal (nonce plaintext : bytes) (m : EncryptionManager) := encrypt_with (wal_cipher m) nonce plaintext.
Definition decrypt_wal (encrypted : EncryptedData) (m : EncryptionManager) := decrypt_with (wal_cipher m) encrypted.

Definition encrypt_bytes (nonce plaintext : bytes) (m : EncryptionManager) : result EncryptionError bytes :=
  if negb (is_enabled m) then Ok plaintext
  else let? encrypted := encrypt nonce plaintext m in Ok (to_bytes encrypted).

Definition decrypt_bytes (data : bytes) (m : EncryptionManager) : result EncryptionError bytes :=
  if negb (is_enabled m) then Ok data
  else if negb (is_encrypted data) then Ok data
  else let? encrypted := from_bytes data in decrypt encrypted m.

Definition generate_master_key (key : bytes) : string := base64_encode key.

Record EncryptionStatus := mkEncStatus {
  es_enabled : bool; es_algorithm : option string; es_key_derivation : option string }.
Definition em_status (m : EncryptionManager) : EncryptionStatus :=
  mkEncStatus (is_enabled m)
    (if is_enabled m then Some "AES-256-GCM"%string else None)
    (if is_enabled m then Some "HKDF-SHA256"%string else None).

(** The helpers on the global manager: an error is taken as "leave it as it is". *)
Definition maybe_encrypt (nonce data : bytes) (m : EncryptionManager) : bytes :=
  match encrypt_bytes nonce data m with Ok x => x | Err _ => data end.
Definition maybe_decrypt (data : bytes) (m : EncryptionManager) : bytes :=
  match decrypt_bytes data m with Ok x => x | Err _ => data end.

(** ** Lemmas *)
Lemma take_magic e : take (length ENCRYPTION_MAGIC) (to_bytes e) = ENCRYPTION_MAGIC.
Proof. unfold to_bytes. by rewrite take_app_length. Qed.

Lemma is_encrypted_to_bytes e : is_encrypted (to_bytes e) = true.
Proof.
  unfold is_encrypted. rewrite take_magic, (bool_decide_true _ eq_refl), andb_true_r.
  apply Z.leb_le. unfold to_bytes. rewrite zlen_app. pose proof (zlen_nonneg (ed_nonce e ++ ed_ciphertext e)). lia.
Qed.

Lemma from_to_bytes e :
  zlen (ed_nonce e) = NONCE_SIZE → TAG_SIZE ≤ zlen (ed_ciphertext e) → from_bytes (to_bytes e) = Ok e.
Proof.
  intros Hn Ht. unfold from_bytes. rewrite take_magic, (bool_decide_true _ eq_refl). cbn [negb].
  destruct (Z.ltb_spec (zlen (to_bytes e)) (zlen ENCRYPTION_MAGIC + NONCE_SIZE + TAG_SIZE)) as [H|_].
  { exfalso. unfold to_bytes in H. rewrite !zlen_app in H. lia. }
  assert (length (ed_nonce e) = Z.to_nat NONCE_SIZE) as Hl by (unfold zlen in Hn; lia).
  unfold to_bytes. rewrite <- drop_drop, drop_app_length.
  rewrite <- Hl, take_app_length, drop_app_length. by destruct e.
Qed.

Lemma encrypt_with_inv cipher nonce p x :
  encrypt_with cipher nonce p = Ok x →
  ∃ c t, cipher = Some c ∧ aes_encrypt c nonce p = Ok t ∧ x = mkEncrypted nonce t.
Proof.
  intros H. unfold encrypt_with in H. destruct cipher as [c|]; simpl in H; [|done].
  destruct (aes_encrypt c nonce p) as [t|] eqn:E; simplify_eq/=. eauto.
Qed.

Lemma initialize_ciphers mk m m' :
  initialize mk m = (m', Ok tt) →
  ∃ kb dk wk dc wc, base64_decode mk = Ok kb ∧
    hkdf_expand kb (as_bytes "minikv-data") = Ok dk ∧ hkdf_expand kb (as_bytes "minikv-wal") = Ok wk ∧
    aes_new dk = Ok dc ∧ aes_new wk = Ok wc ∧
    data_cipher m' = Some dc ∧ wal_cipher m' = Some wc ∧ is_enabled m' = true.
Proof.
  unfold initialize, pbind, plift, derive_key.
  destruct (base64_decode mk) as [kb|]; simpl; [|done]. destruct (zlen kb <? 32); [done|].
  destruct (hkdf_expand kb (as_bytes "minikv-data")) as [dk|] eqn:Ed; simpl; [|done].
  destruct (hkdf_expand kb (as_bytes "minikv-wal")) as [wk|] eqn:Ew; simpl; [|done].
  destruct (aes_new dk) as [dc|] eqn:Edc; simpl; [|done].
  destruct (aes_new wk) as [wc|] eqn:Ewc; simpl; [|done].
  unfold pmodify. intros [= <-]. exists kb, dk, wk, dc, wc. done.
Qed.

(** ** Properties *)

(** C26. What was encrypted is decrypted, also by another process with the same
    master key: data that one initialized manager encrypted with a nonce of
    the right size is marked as encrypted, 36 bytes longer than the plaintext,
    and every manager initialized with this master key decrypts it to the
    plaintext; the same for log entries. *)
Theorem encryption_roundtrip mk m1 m1' m2 m2' nonce plaintext :
  initialize mk m1 = (m1', Ok tt) → initialize mk m2 = (m2', Ok tt) → zlen nonce = NONCE_SIZE →
  (∀ data, encrypt_bytes nonce plaintext m1' = Ok data →
     is_encrypted data = true ∧ decrypt_bytes data m2' = Ok plaintext ∧
     zlen data = zlen plaintext + 36) ∧
  (∀ e, encrypt_wal nonce plaintext m1' = Ok e → decrypt_wal e m2' = Ok plaintext).
Proof.
  intros H1 H2 Hn.
  destruct (initialize_ciphers _ _ _ H1) as (kb & dk & wk & dc & wc & B1 & D1 & W1 & N1 & NW1 & C1 & CW1 & E1).
  destruct (initialize_ciphers _ _ _ H2) as (kb2 & dk2 & wk2 & dc2 & wc2 & B2 & D2 & W2 & N2 & NW2 & C2 & CW2 & E2).
  assert (dc2 = dc) as -> by congruence. assert (wc2 = wc) as -> by congruence. split.
  - intros data H. unfold encrypt_bytes in H. rewrite E1 in H. cbn [negb] in H.
    destruct (encrypt nonce plaintext m1') as [e|] eqn:Ee; simplify_eq/=.
    apply encrypt_with_inv in Ee as (c & t & Hc & Et & ->). rewrite C1 in Hc. simplify_eq.
    pose proof (aes_encrypt_length _ _ _ _ Et) as Hlen. pose proof (zlen_nonneg plaintext).
    split; [apply is_encrypted_to_bytes|]. split.
    + unfold decrypt_bytes. rewrite E2, is_encrypted_to_bytes. cbn [negb].
      rewrite from_to_bytes by (simpl; lia || (unfold TAG_SIZE in *; lia)).
      simpl. unfold decrypt, decrypt_with. rewrite C2. simpl. by rewrite (aes_decrypt_encrypt _ _ _ _ Et).
    + unfold to_bytes. cbn [ed_nonce ed_ciphertext]. rewrite !zlen_app, Hn, Hlen. unfold NONCE_SIZE, TAG_SIZE.
      change (zlen ENCRYPTION_MAGIC) with 8. lia.
  - intros e He. apply encrypt_with_inv in He as (c & t & Hc & Et & ->). rewrite CW1 in Hc. simplify_eq.
    unfold decrypt_wal, decrypt_with. rewrite CW2. simpl. by rewrite (aes_decrypt_encrypt _ _ _ _ Et).
Qed.

(** Data that is not encrypted passes [decrypt_bytes] unchanged, unless it
    happens to begin with the magic bytes: then an enabled manager rejects it
    when it is too short or not authentic, and [maybe_decrypt] hides the error
    and returns the bytes as they are stored. *)
Theorem decrypt_plain_data data m :
  (is_encrypted data = false → decrypt_bytes data m = Ok data) ∧
  (is_enabled m = true → is_encrypted data = true → zlen data < 36 →
     ∃ e, decrypt_bytes data m = Err (InvalidFormat e) ∧ maybe_decrypt data m = data) ∧
  (∀ c nonce x e, is_enabled m = true → data_cipher m = Some c → zlen nonce = NONCE_SIZE →
     TAG_SIZE ≤ zlen x → data = to_bytes (mkEncrypted nonce x) → aes_decrypt c nonce x = Err e →
     decrypt_bytes data m = Err (DecryptionFailed e) ∧ maybe_decrypt data m = data).
Proof.
  unfold maybe_decrypt, decrypt_bytes. split_and!.
  - intros ->. by destruct (is_enabled m).
  - intros -> -> Hlen. cbn [negb]. unfold from_bytes. change (zlen ENCRYPTION_MAGIC + NONCE_SIZE + TAG_SIZE) with 36.
    destruct (Z.ltb_spec (zlen data) 36); [|lia]. by eexists.
  - intros c nonce x e -> Hc Hn Hx -> Hd. rewrite is_encrypted_to_bytes. cbn [negb].
    rewrite from_to_bytes by done. simpl. unfold decrypt, decrypt_with. rewrite Hc. simpl.
    by rewrite Hd.
Qed.
End encryption.

(** ** Witnesses

    A cipher that adds a tag of zeros, keys cut from the master key, and an
    encoding that does nothing. *)
Definition toy_aes : AesGcm.
Proof.
  refine {| Cipher := bytes; aes_new k := Ok k;
            aes_encrypt k nonce p := Ok (p ++ repeat x00 16);
            aes_decrypt k nonce x := Ok (take (length x - 16) x) |}.
  - intros _ _ p x [= <-]. f_equal. rewrite length_app. cbn [repeat length].
    replace (length p + 16 - 16)%nat with (length p) by lia. by rewrite take_app_length.
  - intros _ _ p x [= <-]. by rewrite zlen_app.
Defined.
Definition toy_hkdf : Hkdf := {| hkdf_expand mk context := Ok (take 32 (mk ++ context)) |}.
Definition toy_base64_std : Base64Std.
Proof.
  refine {| base64_decode s := Ok (as_bytes s); base64_encode bs := of_bytes bs |}.
  intros bs. by rewrite as_bytes_of_bytes.
Defined.

Section witnesses.
Local Existing Instance toy_aes.
Local Existing Instance toy_hkdf.
Local Existing Instance toy_base64_std.

Definition ex_master_key : string := "0123456789abcdef0123456789abcdef".
Definition ex_manager : EncryptionManager := (initialize ex_master_key em_new).1.
Lemma ex_manager_initialized : initialize ex_master_key em_new = (ex_manager, Ok tt).
Proof. vm_compute. reflexivity. Qed.
Definition ex_nonce : bytes := repeat x07 12.

Lemma encryption_roundtrip_witness :
  ∃ data, encrypt_bytes ex_nonce [x01; x02] ex_manager = Ok data ∧
    decrypt_bytes data ex_manager = Ok [x01; x02] ∧ zlen data = 38.
Proof.
  destruct (encryption_roundtrip ex_master_key em_new ex_manager em_new ex_manager ex_nonce [x01; x02]
    ex_manager_initialized ex_manager_initialized eq_refl) as [H _].
  destruct (encrypt_bytes ex_nonce [x01; x02] ex_manager) as [data|e] eqn:E; [|by vm_compute in E].
  destruct (H data eq_refl) as (_ & H1 & H2). exists data. split; [reflexivity|]. split; [exact H1|exact H2].
Defined.

Lemma decrypt_plain_data_witness :
  decrypt_bytes [x01; x02] ex_manager = Ok [x01; x02] ∧
  maybe_decrypt (as_bytes "MKVENC01 is a fine prefix") ex_manager = as_bytes "MKVENC01 is a fine prefix".
Proof.
  split.
  - apply (decrypt_plain_data [x01; x02] ex_manager). reflexivity.
  - destruct (decrypt_plain_data (as_bytes "MKVENC01 is a fine prefix") ex_manager) as (_ & H & _).
    destruct H as (e & _ & H); [reflexivity|reflexivity|reflexivity|]. exact H.
Defined.
End witnesses.
