(* ===== verification/Server.v ===== *)
(** * Starting a coordinator

    [src/bin/coord.rs] (the configuration that the command line and the
    configuration file give), [Coordinator::serve] of [src/coordinator/server.rs]
    (what is built before the listeners start: the metadata store, the placement
    manager, the Raft node and its task), and the global store of
    [src/coordinator/metadata.rs] that the gRPC service reads.  The listeners and
    the select over the two servers are in [Boot].  Addresses and paths are text;
    [parse_addr] is the parser of socket addresses, and paths are compared as
    [std::path::Path] compares them. *)

From Stdlib Require Import ZArith Lia Ascii.
From stdpp Require Import base option list gmap strings.
From S2P Require Import Prelude Bytes Text Errors External Config Float64 Hash Utils Metadata Placement.
From S2P Require Import Raft RaftTask Storage AuditLog Http Grpc.

(** ** The configuration *)
Record ServeArgs := mkServeArgs {
  sa_id : string; sa_bind : string; sa_grpc : string; sa_db : string;
  sa_peers : list string; sa_replicas : Z }.

(** [Path::components] on Unix: the parts between slashes, where empty parts
    (repeated and trailing slashes) and [.] do not count, except for a [.] at the
    start of a relative path; and whether the path is absolute.  Two paths are
    equal when their components are. *)
Fixpoint path_parts (s : string) : list string :=
  match s with
  | EmptyString => [""%string]
  | String c s =>
      match path_parts s with
      | p :: ps => if Ascii.eqb c "/" then ""%string :: p :: ps else String c p :: ps
      | [] => []
      end
  end.
Definition path_components (s : string) : bool * list string :=
  let parts := path_parts s in
  let absolute := match s with String "/" _ => true | _ => false end in
  let here := if negb absolute && bool_decide (head parts = Some "."%string) then ["."%string] else [] in
  (absolute, here ++ filter (λ p, p ≠ ""%string ∧ p ≠ "."%string) parts).
Definition same_path (p q : string) : bool := bool_decide (path_components p = path_components q).

Section config.
Context (parse_addr : string → result string string).

(** The configuration from the arguments, with defaults for the rest. *)
Definition cli_config (args : ServeArgs) : result string CoordinatorConfig :=
  let? bind_addr := parse_addr (sa_bind args) in
  let? grpc_addr := parse_addr (sa_grpc args) in
  let d := CoordinatorConfig_default in
  Ok (mkCoordinatorConfig bind_addr grpc_addr (sa_db args) (sa_peers args) (sa_replicas args)
        (cc_election_timeout_ms d) (cc_heartbeat_interval_ms d) (cc_snapshot_threshold d) (cc_num_shards d)
        (cc_tls_cert_path d) (cc_tls_key_path d)).

(** A value of the file counts when it is not the default. *)
Definition merge_file (file c : CoordinatorConfig) : CoordinatorConfig :=
  let pick {A} (is_default : bool) (from_file from_cli : A) := if is_default then from_cli else from_file in
  mkCoordinatorConfig
    (pick (bool_decide (cc_bind_addr file = "0.0.0.0:5000"%string)) (cc_bind_addr file) (cc_bind_addr c))
    (pick (bool_decide (cc_grpc_addr file = "0.0.0.0:5001"%string)) (cc_grpc_addr file) (cc_grpc_addr c))
    (pick (same_path (cc_db_path file) "./coord-data") (cc_db_path file) (cc_db_path c))
    (pick (bool_decide (cc_peers file = [])) (cc_peers file) (cc_peers c))
    (pick (cc_replicas file =? 3) (cc_replicas file) (cc_replicas c))
    (cc_election_timeout_ms c) (cc_heartbeat_interval_ms c) (cc_snapshot_threshold c) (cc_num_shards c)
    (cc_tls_cert_path c) (cc_tls_key_path c).

(** [config.coordinator] is what [Config::load] found in files and environment. *)
Definition coord_config (args : ServeArgs) (file_conf : option CoordinatorConfig)
    : result string CoordinatorConfig :=
  let? c := cli_config args in
  Ok (match file_conf with Some f => merge_file f c | None => c end).
End config.

(** Equal paths, and paths that are not. *)
Example same_path_slashes :
  same_path ".//coord-data/" "./coord-data" = true ∧ same_path "./coord-data/." "./coord-data" = true ∧
  same_path "coord-data" "./coord-data" = false ∧ same_path "/coord-data" "./coord-data" = false.
Proof. repeat split. Qed.

(** The file wins over the command line: a value of the file that is not the
    default replaces what was given on the command line, for the addresses, the
    database path, the peers and the number of replicas; the command line counts
    only where the file has the default. *)
Theorem file_overrides_cli parse_addr args f c :
  coord_config parse_addr args (Some f) = Ok c →
  (if cc_replicas f =? 3 then cc_replicas c = sa_replicas args else cc_replicas c = cc_replicas f) ∧
  (if decide (cc_peers f = []) then cc_peers c = sa_peers args else cc_peers c = cc_peers f) ∧
  (if same_path (cc_db_path f) "./coord-data" then cc_db_path c = sa_db args
   else cc_db_path c = cc_db_path f) ∧
  (if decide (cc_bind_addr f = "0.0.0.0:5000"%string) then parse_addr (sa_bind args) = Ok (cc_bind_addr c)
   else cc_bind_addr c = cc_bind_addr f) ∧
  (if decide (cc_grpc_addr f = "0.0.0.0:5001"%string) then parse_addr (sa_grpc args) = Ok (cc_grpc_addr c)
   else cc_grpc_addr c = cc_grpc_addr f).
Proof.
  unfold coord_config, cli_config. intros H. bind_inv H. bind_inv E. bind_inv E. simplify_eq.
  unfold merge_file. cbn.
  destruct (cc_replicas f =? 3), (same_path (cc_db_path f) "./coord-data"); repeat case_bool_decide; repeat case_decide; naive_solver.
Qed.

(** ** The server *)
Record Coordinator := mkCoordinator { co_config : CoordinatorConfig; co_node_id : string }.
Definition coordinator_new (config : CoordinatorConfig) (id : string) : Coordinator := mkCoordinator config id.
Definition use_tls (c : CoordinatorConfig) : bool :=
  bool_decide (is_Some (cc_tls_cert_path c)) && bool_decide (is_Some (cc_tls_key_path c)).

Section server.
Context {B3 : Blake3} {RK : Rocks} {BK : Bincode KeyMetadata} {BV : Bincode VolumeMetadata}.
(** [DB::open_cf] with the options of [MetadataStore::open]. *)
Context (open_cf : string → list string → result string DB).
Context (io_display : IoErrorKind → string) (status_display : Status → string).

Definition meta_open (path : string) : Result DB :=
  rocks (open_cf path [CF_KEYS; CF_VOLUMES; CF_CONFIG]).

(** The global store: set at most once. *)
Definition init_global_store (store : DB) (cell : option DB) : option DB :=
  match cell with None => Some store | Some s => Some s end.
Definition get_global_store (cell : option DB) : may_panic DB :=
  match cell with Some s => Returns s | None => Panics end.

(** What [serve] has built when the servers start: the state of the HTTP
    handlers (with the global in-memory storage), the Raft task, and the global
    store, which it leaves as it was. *)
Definition serve_state (c : Coordinator) (now random : Z) (cell : option DB)
    : Result (Coord (S := MemStore) * RaftTask * option DB) :=
  let config := co_config c in
  let? metadata := meta_open (cc_db_path config) in
  let placement := placement_new (cc_num_shards config) (cc_replicas config) in
  let raft := raft_new (co_node_id c) in
  let task := start_task raft now random in
  Ok (mkCoord metadata placement raft mem_new [] [], task, cell).

(** [range] and [batch] of the gRPC service. *)
Definition range_service (cell : option DB) (params : RangeRequest) : may_panic (result Status RangeResponse) :=
  mp_bind (get_global_store cell) (λ store, Returns (grpc_range io_display status_display params store)).
Definition batch_service (cell : option DB) (ops : list BatchOp) : may_panic (DB * list BatchResult) :=
  mp_bind (get_global_store cell) (λ store, Returns (grpc_batch io_display status_display ops store)).

(** The process: nothing sets the global store before [serve]. *)
Definition coord_main (parse_addr : string → result string string) (args : ServeArgs)
    (file_conf : option CoordinatorConfig) (now random : Z)
    : result string (Result (Coord (S := MemStore) * RaftTask * option DB)) :=
  let? config := coord_config parse_addr args file_conf in
  Ok (serve_state (coordinator_new config (sa_id args)) now random None).

(** ** Properties *)

(** C30. Every coordinator leads: whatever peers it is configured with, a
    coordinator that was started is the leader of term 1 once its timer task
    has had a turn 300 ms or more later, because [serve] does not give the peers
    to the Raft node; so members of one cluster are all leaders.  Until then
    and after, the range and batch services panic, because the global store
    they use was never set. *)
Theorem every_coordinator_leads parse_addr args file_conf now random c task cell turns :
  coord_main parse_addr args file_conf now random = Ok (Ok (c, task, cell)) →
  Forall quiet turns → Exists (λ i, 300 * MILLIS ≤ ti_now i - now) turns →
  let n := rt_node (raft_turns task turns) in
  is_leader n = true ∧ term n = 1 ∧ peers n = [] ∧ node_id n = sa_id args ∧
  (∀ params, range_service cell params = Panics) ∧ (∀ ops, batch_service cell ops = Panics).
Proof.
  unfold coord_main, serve_state. intros H Hq Hex. bind_inv H. injection H as H. bind_inv H.
  simplify_eq. cbv zeta.
  destruct (lone_node_elected (raft_new (sa_id args)) now random turns) as (HE & _ & _); [done..|].
  cbn [coordinator_new co_node_id]. by rewrite HE.
Qed.
End server.

(** ** Witnesses *)
Definition ex_args : ServeArgs :=
  mkServeArgs "c1" "127.0.0.1:7000" "127.0.0.1:7001" "./db" ["http://c2:5001"%string] 5.
Definition ex_file : CoordinatorConfig :=
  mkCoordinatorConfig "0.0.0.0:5000" "0.0.0.0:5001" "./coord-data" [] 2 300 50 10000 256 None None.

Lemma file_overrides_cli_witness :
  ∃ c, coord_config Ok ex_args (Some ex_file) = Ok c ∧ cc_replicas c = 2.
Proof.
  eexists. split; [reflexivity|].
  exact (proj1 (file_overrides_cli Ok ex_args ex_file _ eq_refl)).
Defined.

#[local] Existing Instances toy_blake3 mem_rocks.
#[local] Instance ex_bincode_key : Bincode KeyMetadata := countable_bincode KeyMetadata.
#[local] Instance ex_bincode_volume : Bincode VolumeMetadata := countable_bincode VolumeMetadata.
Lemma every_coordinator_leads_witness :
  ∃ c task cell,
    coord_main (λ _ _, Ok ex_db) Ok ex_args None 0 42 = Ok (Ok (c, task, cell)) ∧
    is_leader (rt_node (raft_turns task [late_turn])) = true ∧
    is_leader (rt_node task) = false.
Proof.
  eexists _, _, _. split; [reflexivity|]. split; [|reflexivity].
  refine (proj1 (every_coordinator_leads (λ _ _, Ok ex_db) (λ _, ""%string) (λ _, ""%string)
    Ok ex_args None 0 42 _ _ _ [late_turn] eq_refl _ _)).
  - repeat constructor.
  - constructor. by vm_compute.
Defined.
