(* ===== verification/Boot.v ===== *)
(** * The coordinator process

    [main] of [src/bin/coord.rs] as a whole: [Config::load] of
    [src/common/config.rs], the merge with the command line, and
    [Coordinator::serve] of [src/coordinator/server.rs] with its listeners.
    The [config] crate, the sockets, TLS and the two servers are parameters;
    which server ends first, and how, is part of what [serve] is given. *)

From Stdlib Require Import ZArith Lia.
From Stdlib.Strings Require Import Byte.
From stdpp Require Import base option list gmap strings.
From S2P Require Import Prelude Bytes Text Errors Fs External Config Float64 Hash Utils Metadata Placement.
From S2P Require Import Raft RaftTask Storage AuditLog Http Auth Grpc Server.

(** ** [Config::load] *)
Definition has_separator (s : string) : Prop := x5f ∈ as_bytes s.
#[export] Instance has_separator_dec s : Decision (has_separator s) := decide (_ ∈ as_bytes s).

(** The [config] crate: trees of values addressed by paths, where setting a
    path leaves the paths under other first keys alone; the leaves of a TOML text;
    the path of an environment variable with the prefix [MINIKV], which the
    separator [_] cuts into keys, so that no key contains one; and
    [try_deserialize], which asks for the fields that have no default. *)
Class ConfigCrate := {
  CfgTree : Type;
  CfgValue : Type;
  cfg_empty : CfgTree;
  cfg_set : list string → CfgValue → CfgTree → CfgTree;
  cfg_get : list string → CfgTree → option CfgValue;
  toml_leaves : bytes → result string (list (list string * CfgValue));
  env_path : string → option (list string);
  env_value : string → CfgValue;
  try_deserialize : CfgTree → result string Config;
  cfg_get_set_ne k k' p p' v t : k ≠ k' → cfg_get (k :: p) (cfg_set (k' :: p') v t) = cfg_get (k :: p) t;
  env_path_cut name p : env_path name = Some p → p ≠ [] ∧ Forall (λ k, ¬ has_separator k) p;
  deserialize_required t c :
    try_deserialize t = Ok c → is_Some (cfg_get ["node_id"%string] t) ∧ is_Some (cfg_get ["role"%string] t);
}.

Section load.
Context {CC : ConfigCrate}.

(** [File::with_name(name).required(false)]: a file that is not there gives nothing. *)
Definition file_source (name : string) (d : Disk) : result string (list (list string * CfgValue)) :=
  match file_at d [name] with
  | None => Ok []
  | Some content => toml_leaves content
  end.
(** [Environment::with_prefix("MINIKV").separator("_")] *)
Definition env_source (env : list (string * string)) : list (list string * CfgValue) :=
  omap (λ '(name, value), (λ p, (p, env_value value)) <$> env_path name) env.
(** Later sources are set over earlier ones. *)
Definition set_leaves (leaves : list (list string * CfgValue)) (t : CfgTree) : CfgTree :=
  fold_left (λ t '(p, v), cfg_set p v t) leaves t.
Definition config_build (env : list (string * string)) (d : Disk) : result string CfgTree :=
  let? base := file_source "config.toml" d in
  let? local := file_source "config.local.toml" d in
  Ok (set_leaves (env_source env) (set_leaves local (set_leaves base cfg_empty))).

(** [build().expect(..)] and [try_deserialize().expect(..)] *)
Definition config_load (env : list (string * string)) (d : Disk) : may_panic Config :=
  match config_build env d with
  | Err _ => Panics
  | Ok s => match try_deserialize s with Ok c => Returns c | Err _ => Panics end
  end.
End load.

(** ** [Coordinator::serve] *)
Inductive ServerEnd := HttpEnded (r : result string unit) | GrpcEnded (r : result string unit).
Inductive Transport := Plain | Tls.
#[export] Instance Transport_eq_dec : EqDecision Transport.
Proof. solve_decision. Defined.

(** What the network and the TLS libraries answer. *)
Record Network := mkNetwork {
  rustls_from_pem : string → string → result string unit;
  tcp_bind : string → result IoErrorKind unit;
  fs_read : string → result IoErrorKind bytes;
  grpc_tls_config : bytes → bytes → result string unit;
  ends_first : ServerEnd;
}.

Definition unwrap_some {A} (o : option A) : may_panic A :=
  match o with Some a => Returns a | None => Panics end.

(** The HTTP server and then the gRPC server, up to the select. *)
Definition http_server (config : CoordinatorConfig) (n : Network) : may_panic (Result Transport) :=
  if use_tls config then
    mp_bind (unwrap_some (cc_tls_cert_path config)) (λ cert_path,
    mp_bind (unwrap_some (cc_tls_key_path config)) (λ key_path,
    mp_bind (unwrap (rustls_from_pem n cert_path key_path)) (λ _, Returns (Ok Tls))))
  else
    match tcp_bind n (cc_bind_addr config) with
    | Ok _ => Returns (Ok Plain)
    | Err e => Returns (Err (Io e))
    end.
Definition grpc_server (config : CoordinatorConfig) (n : Network) : may_panic Transport :=
  match cc_tls_cert_path config, cc_tls_key_path config with
  | Some cert_path, Some key_path =>
      mp_bind (unwrap (fs_read n cert_path)) (λ cert,
      mp_bind (unwrap (fs_read n key_path)) (λ key,
      mp_bind (unwrap (grpc_tls_config n cert key)) (λ _, Returns Tls)))
  | _, _ => Returns Plain
  end.
(** The select: the error of the server that ended is logged. *)
Definition select_log (e : ServerEnd) : list string :=
  match e with
  | HttpEnded (Err m) => ["HTTP server error: " +:+ m]
  | GrpcEnded (Err m) => ["gRPC server error: " +:+ m]
  | _ => []
  end%string.

Section serve.
Context {B3 : Blake3} {RK : Rocks} {BK : Bincode KeyMetadata} {BV : Bincode VolumeMetadata}.
Context (open_cf : string → list string → result string DB).

(** What a run of [serve] that returned [Ok(())] had: its state, the transports
    of the two servers, and the errors it logged. *)
Record Served := mkServed {
  sv_coord : Coord (S := MemStore);
  sv_task : RaftTask;
  sv_http : Transport;
  sv_grpc : Transport;
  sv_errors : list string;
}.

Definition coordinator_serve (c : Coordinator) (now random : Z) (n : Network) : may_panic (Result Served) :=
  match serve_state open_cf c now random None with
  | Err e => Returns (Err e)
  | Ok (coord, task, _) =>
      mp_bind (http_server (co_config c) n) (λ http,
      match http with
      | Err e => Returns (Err e)
      | Ok http =>
          mp_bind (grpc_server (co_config c) n) (λ grpc,
          Returns (Ok (mkServed coord task http grpc (select_log (ends_first n)))))
      end)
  end.

(** ** [main] *)
Inductive MainError := BadAddress (e : string) | ServeError (e : Error).

Context {CC : ConfigCrate} (parse_addr : string → result string string).
Definition coordinator_main (args : ServeArgs) (env : list (string * string)) (d : Disk) (now random : Z)
    (n : Network) : may_panic (result MainError Served) :=
  mp_bind (config_load env d) (λ config,
  match coord_config parse_addr args (cfg_coordinator config) with
  | Err e => Returns (Err (BadAddress e))
  | Ok coord_config =>
      mp_bind (coordinator_serve (coordinator_new coord_config (sa_id args)) now random n) (λ r,
      Returns (map_err ServeError r))
  end).

(** ** Lemmas *)
Lemma set_leaves_other k p leaves t :
  Forall (λ l, ∃ k' p', l.1 = k' :: p' ∧ k ≠ k') leaves →
  cfg_get (k :: p) (set_leaves leaves t) = cfg_get (k :: p) t.
Proof.
  unfold set_leaves. intros HF. revert t. induction HF as [|[q v] leaves Hq _ IH]; intros t; [done|]. simpl.
  destruct Hq as (k' & p' & Eq & Hne). simpl in Eq. subst q. rewrite IH. by apply cfg_get_set_ne.
Qed.

Lemma env_source_other k env :
  has_separator k → Forall (λ l, ∃ k' p', l.1 = k' :: p' ∧ k ≠ k') (env_source env).
Proof.
  intros Hk. apply Forall_forall. intros [p v] Hin.
  apply list_elem_of_omap in Hin as ([name value] & _ & Hp). simpl in Hp.
  destruct (env_path name) as [q|] eqn:E; simplify_eq/=.
  destruct (env_path_cut _ _ E) as [Hne HF]. destruct p as [|k' p]; [done|].
  exists k', p. split; [done|]. intros ->. by apply Forall_inv in HF.
Qed.

Lemma config_build_env k p env d t :
  has_separator k → config_build env d = Ok t →
  ∃ t0, config_build [] d = Ok t0 ∧ cfg_get (k :: p) t = cfg_get (k :: p) t0.
Proof.
  intros Hk. unfold config_build.
  destruct (file_source "config.toml" d); simpl; [|done].
  destruct (file_source "config.local.toml" d); simpl; [|done].
  intros [= <-]. eexists. split; [reflexivity|]. by apply set_leaves_other, env_source_other.
Qed.

(** The merge keeps the TLS paths of the defaults, which are none. *)
Lemma coord_config_no_tls args file_conf c :
  coord_config parse_addr args file_conf = Ok c → cc_tls_cert_path c = None ∧ cc_tls_key_path c = None.
Proof.
  unfold coord_config, cli_config. intros H. bind_inv H. bind_inv E. bind_inv E. simplify_eq.
  by destruct file_conf.
Qed.

(** ** Properties *)

(** The environment cannot configure a node: a variable [MINIKV_...] is cut at
    its underscores, so no variable reaches a key with an underscore in its name,
    such as [node_id] or [log_level]: for those keys the configuration is what the
    files say.  As [node_id] has no default, a coordinator panics at its start, with
    whatever arguments and environment, unless one of the two files names it. *)
Theorem environment_sets_no_node_id args env d now random n :
  (∀ k p t, has_separator k → config_build env d = Ok t →
     ∃ t0, config_build [] d = Ok t0 ∧ cfg_get (k :: p) t = cfg_get (k :: p) t0) ∧
  ((∀ t0, config_build [] d = Ok t0 → cfg_get ["node_id"%string] t0 = None) →
   coordinator_main args env d now random n = Panics).
Proof.
  split; [intros; by eapply config_build_env|]. intros Hnone. unfold coordinator_main, config_load.
  destruct (config_build env d) as [t|] eqn:E; [|done].
  destruct (try_deserialize t) as [c|] eqn:Ed; [|done].
  apply deserialize_required in Ed as [[v Hv] _].
  destruct (config_build_env "node_id" [] env d t) as (t0 & E0 & Hg); [by apply (bool_decide_unpack _)|done|].
  rewrite Hg, (Hnone _ E0) in Hv. done.
Qed.

(** C31. A coordinator that was started serves both of its ports without TLS,
    whatever certificate and key the configuration file names, and never panics
    after the configuration was loaded: it fails with the error of an address, of
    the metadata store or of the HTTP port, and otherwise returns [Ok(())] when
    the first of its servers ends, also if that server failed, whose error is
    only logged. *)
Theorem coordinator_serves_plain args env d now random n config :
  config_load env d = Returns config →
  coordinator_main args env d now random n =
  Returns
    (match coord_config parse_addr args (cfg_coordinator config) with
     | Err e => Err (BadAddress e)
     | Ok c =>
         match serve_state open_cf (coordinator_new c (sa_id args)) now random None with
         | Err e => Err (ServeError e)
         | Ok (coord, task, _) =>
             match tcp_bind n (cc_bind_addr c) with
             | Err e => Err (ServeError (Io e))
             | Ok _ => Ok (mkServed coord task Plain Plain (select_log (ends_first n)))
             end
         end
     end).
Proof.
  intros Hc. unfold coordinator_main. rewrite Hc. cbn [mp_bind].
  destruct (coord_config _ _ _) as [c|e] eqn:E; [|done].
  apply coord_config_no_tls in E as [E1 E2].
  unfold coordinator_serve. destruct (serve_state _ _ _ _ _) as [[[coord task] cell]|e]; [|done].
  unfold http_server, grpc_server, use_tls. cbn [co_config coordinator_new]. rewrite E1, E2. cbn.
  by destruct (tcp_bind n _).
Qed.
End serve.

(** ** Witnesses *)
Fixpoint cut_at (sep : byte) (bs : bytes) : list bytes :=
  match bs with
  | [] => [[]]
  | b :: bs =>
      if bool_decide (b = sep) then [] :: cut_at sep bs
      else match cut_at sep bs with s :: ss => (b :: s) :: ss | [] => [[b]] end
  end.
Lemma cut_at_cuts sep bs : cut_at sep bs ≠ [] ∧ Forall (λ s, sep ∉ s) (cut_at sep bs).
Proof.
  induction bs as [|b bs [IH1 IH2]]; simpl.
  { split; [done|]. repeat constructor. apply not_elem_of_nil. }
  case_bool_decide as Hb; [split; [done|]; constructor; [apply not_elem_of_nil|done]|].
  destruct (cut_at sep bs) as [|s ss]; [done|]. split; [done|]. apply Forall_cons in IH2 as [? ?].
  constructor; [|done]. set_solver.
Qed.

Definition toy_deserialize (t : gmap (list string) string) : result string Config :=
  match t !! ["node_id"%string], t !! ["role"%string] with
  | Some id, Some _ =>
      Ok (mkConfig id RoleCoordinator
        (Some (mkCoordinatorConfig "127.0.0.1:8000" "0.0.0.0:5001" "./coord-data" [] 3 300 50 10000 256
                 (Some "cert.pem"%string) (Some "key.pem"%string))) None "info")
  | _, _ => Err "missing field"%string
  end.
Definition toy_crate : ConfigCrate.
Proof.
  refine {|
    CfgTree := gmap (list string) string; CfgValue := string;
    cfg_empty := ∅; cfg_set p v t := <[p := v]> t; cfg_get p t := t !! p;
    toml_leaves content := Ok [(["node_id"%string], of_bytes content); (["role"%string], "coordinator"%string)];
    env_path name :=
      if starts_with "MINIKV_" name
      then Some (map of_bytes (cut_at x5f (drop 7 (as_bytes (to_lowercase name)))))
      else None;
    env_value v := v;
    try_deserialize := toy_deserialize |}.
  - intros k k' p p' v t Hne. apply lookup_insert_ne. congruence.
  - intros name p. destruct (starts_with _ _); [|done]. intros [= <-].
    destruct (cut_at_cuts x5f (drop 7 (as_bytes (to_lowercase name)))) as [H1 H2]. split.
    + by destruct (cut_at _ _).
    + apply Forall_fmap. eapply Forall_impl; [exact H2|]. intros s Hs. unfold has_separator. simpl.
      by rewrite as_bytes_of_bytes.
  - intros t c. unfold toy_deserialize. intros H. destruct (t !! _) eqn:E1; [|done].
    by destruct (t !! ["role"%string]) eqn:E2.
Defined.

Section witnesses.
#[local] Existing Instances toy_blake3 mem_rocks toy_crate.
#[local] Instance ex_boot_key : Bincode KeyMetadata := countable_bincode KeyMetadata.
#[local] Instance ex_boot_volume : Bincode VolumeMetadata := countable_bincode VolumeMetadata.

Definition ex_net : Network :=
  mkNetwork (λ _ _, Err "no such file"%string) (λ _, Ok tt) (λ _, Err IoNotFound) (λ _ _, Ok tt)
    (GrpcEnded (Err "address in use"%string)).
Definition no_config : Disk := mkDisk ∅ ∅.
Definition one_config : Disk := set_content ["config.toml"%string] (as_bytes "n1") no_config.
Definition ex_node_env : list (string * string) := [("MINIKV_NODE_ID", "n9"); ("MINIKV_ROLE", "coordinator")]%string.

Lemma environment_sets_no_node_id_witness :
  coordinator_main (λ _ _, Ok ex_db) Ok ex_args ex_node_env no_config 0 42 ex_net = Panics ∧
  env_path "MINIKV_NODE_ID" = Some ["node"; "id"]%string.
Proof.
  split; [|reflexivity].
  apply (environment_sets_no_node_id (λ _ _, Ok ex_db) Ok ex_args ex_node_env no_config 0 42 ex_net).
  intros t0 [= <-]. reflexivity.
Defined.

Lemma coordinator_serves_plain_witness :
  ∃ s, coordinator_main (λ _ _, Ok ex_db) Ok ex_args ex_node_env one_config 0 42 ex_net = Returns (Ok s) ∧
    sv_http s = Plain ∧ sv_errors s = ["gRPC server error: address in use"%string].
Proof.
  eexists. split; [|split; [|]].
  - refine (coordinator_serves_plain (λ _ _, Ok ex_db) Ok ex_args ex_node_env one_config 0 42 ex_net
      (mkConfig "n1" RoleCoordinator _ None "info") eq_refl).
  - reflexivity.
  - reflexivity.
Defined.
End witnesses.
